(* ===== verification/_CoqProject ===== *)
-Q . S2P
Prelude.v
Ords.v
Iroh.v
ServiceRecord.v
DhtShards.v
DhtPublish.v
Alpn.v
UserData.v
Discovery.v
Findable.v
Exchange.v
Engine.v
Tokio.v
PoolActor.v
PoolCache.v
PoolConn.v
PoolRun.v
PoolSystem.v
PoolShared.v
Errors.v
PoolClient.v
Locator.v
Registry.v
Find.v
Channel.v
Bidi.v
Streams.v
Server.v
Rpc.v
Lifecycle.v
Client.v
Trace.v
ChatPb.v
ChatGrpc.v
ChatServer.v
ChatMoves.v
ChatBoard.v
ChatDelivery.v
ChatNode.v
Examples.v
ChatSession.v
ChatMain.v
EchoMain.v
