(* ===== verification/Prelude.v ===== *)
(** * Verification of tonic-iroh-transport

    The crate under [src/src/] runs tonic gRPC services over iroh's QUIC
    connections.  Its parts, and the files that model them:

    - _Discovery._  Service advertisements are signed records that nodes store
      in per-minute shards of the mainline DHT.  [ServiceRecord] models
      [swarm/record.rs] (signing, [verify], [merge_valid], [upsert],
      [trim_to_size]); [DhtShards] the derivation of keys, salts and replica
      shards in [swarm/dht/mod.rs]; [DhtPublish] the publish loop of
      [swarm/dht/publisher.rs] and the query of [swarm/dht/resolver.rs], over
      whatever the DHT answers;
      [Alpn] and [UserData] the service identifiers and the metadata of
      [alpn.rs] and [user_data.rs]; [Discovery] the feeds and backends of
      [swarm/peers.rs], [swarm/discovery.rs] and [swarm/dht/backend.rs];
      [Findable] a publisher's rounds and a feed's polls on one clock; [Exchange]
      the broadcast channel between the peer-exchange backend and its feeds;
      [Engine] the merged, deduplicated stream of [swarm/engine.rs].
    - _The connection pool_ ([pool.rs]).  [PoolActor] models the main actor (the
      table of slots, generations, the idle queue, eviction, the handler of
      each message, and what the connection tasks do with their mailboxes in
      between); [PoolConn] the actor of one connection (the biased select
      loop of [run_connection], the lease counter, the shutdown notification);
      [PoolCache] an abstract bounded cache that the main actor refines;
      [PoolRun] the loop of [PoolActor::run] with the tasks that take requests
      and end, and the threads that close the pool; [PoolSystem] composes the
      two actors over their channels, down to what is dropped with a channel;
      [PoolShared] the lazy start of the runtime under concurrent callers and
      the drop of the handles; [PoolClient] the retries of [get_or_connect] and
      [open_stream]; [Streams] the I/O wrappers of [stream.rs] and [pool.rs],
      the handshake, and the lease that each channel holds.
    - _Finding and dialling._  [Locator] models the racing loop of
      [swarm/locator.rs], [Registry] the pool cache and the builder of
      [swarm/registry.rs], [Client] the direct connector of [client.rs] and the
      metadata injector of [otel.rs], [Trace] the server side of [otel.rs]: the
      extractor, the span of a call and the tower layer.  [Find] composes
      [DhtPublish], [Discovery], [Engine], [Registry] and [Locator]: from a
      publication to the channel that [find] returns.
    - _Serving and channels._  [Server] models the accept loops of [server.rs]
      and the builder of [transport.rs]; [Rpc] composes them with the clients that
      dial and call, down to the handlers; [Lifecycle] what runs from [spawn] until
      [TransportGuard::shutdown] returns; [Channel] the HTTP/2 channel of
      [channel.rs]; [Bidi] the future of its [call] as a state machine, and the
      call together with a handler that answers while the request body is being
      sent; [Errors] the error type and the translation tables of
      [error.rs], [stream.rs] and [client.rs].
    - _The examples_ ([src/examples/]).  [ChatPb] models the generated messages
      and enumerations of both examples, [ChatGrpc] the generated clients and
      servers: their builders, paths and dispatch;
      [ChatServer] the chat server's state, handlers and tasks as a step
      function ([chat_step]) in which they interleave at their awaits;
      [ChatMoves] the invariant of its states and the same steps as a relation;
      [ChatBoard] a message board as the abstract specification, and the
      refinement; [ChatDelivery] delivery, the echo streams, the history, the
      request counter and the deadlock; [ChatNode] the node around the server, what
      [main] registers, when it stops and what [Lifecycle]'s shutdown then
      waits for; [Examples] the client's commands, what they
      show, the interactive loop, the benchmark and the echo handler;
      [ChatSession] the interactive session with its call; [ChatMain]
      the chat program as a process, from its arguments to its exit, with the task
      that connects to another node and runs a command; [EchoMain] the echo
      program, composed of its transport, publisher and locator, its calls, as
      [Rpc]'s server handles them, and [Lifecycle]'s shutdown.

    _How the code is represented._  Functions are Rocq functions; a fallible one
    returns a [Result], and [option] where the code may panic ([None]).
    Integers are [Z] with their width written out ([u64_wrap],
    [u64_saturating_add], the overflow check of [next_seq]); byte strings are
    [list byte], [String]s the Standard Library's [string], maps [gmap].
    Asynchronous code is a step function on explicit states: what a task does
    between two points where it can be interrupted is one step, a label says
    which task moves, and a run is a list of labels in any order.  A [select!]
    is the choice of the first ready branch in source order; a [send().await]
    is a step that is disabled while the channel is full.

    _What is not under the sources_ is an interface: a class with the documented
    laws ([Iroh]: keys and signatures, postcard, SHA-256, mutable DHT items;
    [Tokio]: bounded channels; [Exchange]: broadcast channels; [UserData]:
    base64url and iroh's user data; [Trace]: the OpenTelemetry propagator;
    [ChatGrpc]: tonic's builders), or a
    parameter (what the network, the DHT, an HTTP/2 stream or a peer answers at
    each step).  Every class has a concrete instance ([Iroh.Demo],
    [Tokio.ListChannel], [Exchange.ListBroadcast], [UserData.UserDataDemo],
    [Trace.TraceDemo], [ChatGrpc.ChatGrpcDemo]) on which the [..._witness]
    lemmas evaluate the theorems.

    _What is shown._

    - Records: [verify] accepts exactly the advertisements that are in date and
      signed for this service, minute and shard; merging does not depend on the
      order of the replicas; trimming keeps the preferred advertisement and
      drops no more than needed; as lemmas, different services, minutes and
      purposes never share a hash preimage.
    - Publishing, with no assumption on what the DHT answers: every value put in
      it is within the size limit, carries the node's valid advertisement with a
      higher sequence number than any seen (short of [i64::MAX]), and loses
      nothing that was read unless the bucket is full; a publication succeeds
      exactly if a put does, retries only after contention, and gives up after
      four.  A published service is found by a later query and by a discovery
      burst.  Whether a client that was looking before a node started to publish
      ever dials it depends on the second of the minute at which its polls fall.
      What concurrent publishers make of each other depends on the DHT's
      compare-and-swap and is not modelled.
    - The engine yields each remote peer once and never the local node; a
      peer-exchange feed yields what was ingested since it was opened, up to the
      128 the channel keeps.
    - The pool: its invariant in every reachable state; every request is at each
      moment in one place, and none is answered twice, or by a connection to a
      peer other than the one it named; it is dropped unanswered only when the
      channel it waits in, or is sent to, is dropped, which does happen to a live
      pool's request when an idle connection closes; the actor refines a bounded cache that
      reuses connections, replaces those whose actor is gone and evicts the
      longest idle one; connections are kept while leased, leased exactly while
      a channel needs them, and closed after the idle timeout; at most one
      runtime is started; closing the pool stops its loop in its next step,
      but for one window between the loop's check and its wait, and [run] never
      returns when the actor of a failed connection has missed the close.
    - The locator attempts every peer, within its concurrency bound, and
      delivers every outcome; end to end, a client that looks for a published
      service dials the publisher.  The server serves or rejects every stream, but
      for those still queued when tonic stops, a handler is called once per request
      and sees who called it, and the shutdown stops everything, the router last; the channel sends whole bodies
      and reads them in order.  It sends the whole request body before it looks
      at the response, so a bidirectional call completes exactly if its body
      ends and is short enough for what lies between the two sides to hold it;
      otherwise the two wait for each other for ever.  A trace context crosses the
      wire, and the tracing layer keeps tower's contract for the service it wraps.
    - The chat server refines a message board: each message published is put
      once in the queue of each subscriber, in an order the board allows, except
      that a [send_message] whose call is cancelled while it waits stops where it
      is, and whoever it had not reached misses the message; an answered
      [send_message] was delivered to whoever was subscribed and stays, and is in
      the history; streams echo in turn; a chat node serves what its clients
      dial and stops only when asked to.  A subscriber that stays keeps the node
      from exiting, one that leaves can stall the server for good, and a
      negative timestamp crashes the clients that show it.  A message sent by the
      [send] command is shown by the [history] command; the program exits with
      an error if its start-up fails, and otherwise only when its command succeeds
      or its node stops, while a failed command leaves it running.  The interactive
      session never gets past its call.  The echo program shows its three
      messages and returns, if its server can be found and reached.

    Fuel and bounds: the trimming loop is defined by well-founded recursion and
    the other loops by recursion on the attempts, polls, labels or items they
    consume, so nothing runs out of fuel; the timeline of [Findable] ends after
    a given number of polls, for any such number; [Engine.drain] takes the number of
    polls, and its length bound is the length of the script.  Generations and
    sequence numbers are assumed not to wrap where a theorem says so.

    The chat theorems that speak of subscriptions assume that the hashes their
    identifiers are made of differ ([subscription_hashes]); the order in which
    tokio grants the subscribers' lock is left open.  [ChatNode] lets tonic's
    server end only after the shutdown signal; that it may also end early, with
    an error that the driver logs, is in [Lifecycle] alone.

    Not modelled: logging; HTTP/2, QUIC and gRPC framing, protobuf encoding,
    compression and OpenTelemetry themselves, among them tonic's graceful shutdown
    (interfaces and parameters); the parsing of the examples' command lines and
    the text they print besides the lines of [Examples], [ChatMain] and
    [EchoMain]; floating point figures of the benchmark; [Debug] formatting;
    accessors of [ConnectionRef] that only call iroh; re-exports and tests.

    This file holds what the components share: bytes, machine integers,
    [Result], iterator functions, tactics, the [iroh] hint database and generic
    lemmas. *)
From stdpp Require Export prelude gmap list strings.
From Stdlib Require Export Strings.Byte.
From Stdlib Require Import ZArith Lia.

#[export] Set Warnings "-clear-no-such-hyp".

(** ** Bytes

    Rust's [&[u8]], [Vec<u8>] and [[u8; 32]] are lists of [byte]; a UTF-8
    [String] is the Standard Library's [string] of its bytes. *)

Abbreviation bytes := (list byte).

#[export] Instance byte_eq_dec : EqDecision byte := Byte.byte_eq_dec.

#[export] Program Instance byte_countable : Countable byte :=
  inj_countable Byte.to_N Byte.of_N _.
Next Obligation. intros b. apply Byte.of_to_N. Qed.

(** [s.as_bytes()] / [s.into_bytes()]. *)
Definition string_bytes (s : string) : bytes := String.list_byte_of_string s.

Definition Z_of_byte (b : byte) : Z := Z.of_N (Byte.to_N b).

(** The byte of a [u8] held as an integer. *)
Definition byte_of_Z (z : Z) : byte :=
  default x00 (Byte.of_N (Z.to_N (z `mod` 256))).

(** The little-endian image of the low [n] bytes of [z];
    [u64::to_le_bytes] is [le_bytes 8]. *)
Fixpoint le_bytes (n : nat) (z : Z) : bytes :=
  match n with
  | O => []
  | S n => byte_of_Z z :: le_bytes n (z `div` 256)
  end.

Fixpoint le_value (bs : bytes) : Z :=
  match bs with
  | [] => 0
  | b :: bs => (Z_of_byte b + 256 * le_value bs)%Z
  end.

Definition u64_to_le_bytes (z : Z) : bytes := le_bytes 8 z.

(** ** Machine integers, kept as [Z] with their width written out *)

Definition u8_max : Z := 255.
Definition u64_max : Z := 18446744073709551615.
Definition usize_max : Z := u64_max.
Definition i64_max : Z := 9223372036854775807.
Definition i64_min : Z := -9223372036854775808.

Definition is_u8 (z : Z) : Prop := (0 ≤ z ≤ u8_max)%Z.
Definition is_u64 (z : Z) : Prop := (0 ≤ z ≤ u64_max)%Z.
Definition is_i64 (z : Z) : Prop := (i64_min ≤ z ≤ i64_max)%Z.

Definition u64_wrap (z : Z) : Z := z `mod` (u64_max + 1).
Definition i64_wrap (z : Z) : Z := (z - i64_min) `mod` (u64_max + 1) + i64_min.

(** [u64::saturating_add], [u64::saturating_sub], [i64::unsigned_abs]. *)
Definition u64_saturating_add (a b : Z) : Z := Z.min (a + b) u64_max.
Definition u64_saturating_sub (a b : Z) : Z := Z.max (a - b) 0.
Definition i64_unsigned_abs (a : Z) : Z := Z.abs a.

(** [fetch_add(1)] on an [AtomicU64] or [AtomicUsize]: the value returned
    and the value stored (atomics wrap around). *)
Definition atomic_fetch_add (a : Z) : Z * Z := (a, u64_wrap (a + 1)).
Definition atomic_fetch_sub (a : Z) : Z * Z := (a, u64_wrap (a - 1)).

(** ** [Result] *)

Inductive Result (E A : Type) : Type :=
  | Ok (a : A)
  | Err (e : E).
Arguments Ok {E A} a.
Arguments Err {E A} e.

#[export] Instance Result_eq_dec {E A} `{EqDecision E, EqDecision A} :
  EqDecision (Result E A).
Proof. solve_decision. Defined.

(** The [?] operator is [x ← e; k]. *)
#[export] Instance Result_ret {E} : MRet (Result E) := λ A a, Ok a.
#[export] Instance Result_bind {E} : MBind (Result E) := λ A B k r,
  match r with
  | Ok a => k a
  | Err e => Err e
  end.
#[export] Instance Result_fmap {E} : FMap (Result E) := λ A B f r,
  match r with
  | Ok a => Ok (f a)
  | Err e => Err e
  end.

Definition map_err {E F A} (f : E → F) (r : Result E A) : Result F A :=
  match r with
  | Ok a => Ok a
  | Err e => Err (f e)
  end.

(** [r.ok()]. *)
Definition ok {E A} (r : Result E A) : option A :=
  match r with
  | Ok a => Some a
  | Err _ => None
  end.

(** [r.err()]. *)
Definition err_of {E A} (r : Result E A) : option E :=
  match r with
  | Ok _ => None
  | Err e => Some e
  end.

Definition is_ok {E A} (r : Result E A) : bool :=
  match r with
  | Ok _ => true
  | Err _ => false
  end.

(** [opt.ok_or(e)]. *)
Definition ok_or {E A} (o : option A) (e : E) : Result E A :=
  match o with
  | Some a => Ok a
  | None => Err e
  end.

(** ** Iterators *)

(** [iter().rposition(p)]: the index of the last element that satisfies [p]. *)
Fixpoint rposition {A} (p : A → bool) (l : list A) : option nat :=
  match l with
  | [] => None
  | x :: l =>
      match rposition p l with
      | Some i => Some (S i)
      | None => if p x then Some 0 else None
      end
  end.

(** [iter().max()] on integers. *)
Fixpoint iter_max (l : list Z) : option Z :=
  match l with
  | [] => None
  | x :: l =>
      match iter_max l with
      | Some y => Some (Z.max x y)
      | None => Some x
      end
  end.

(** The integers of the Rust range [lo..hi]. *)
Definition range (lo hi : Z) : list Z := seqZ lo (hi - lo).

(** ** Automation *)

Create HintDb iroh.

(** Case analysis on the scrutinee of the first [match] or [if] of the goal
    or of a hypothesis, keeping the equation. *)
Ltac case_goal :=
  match goal with
  | |- context [match ?x with _ => _ end] => destruct x eqn:?
  end.
Ltac case_hyp :=
  match goal with
  | _ : context [match ?x with _ => _ end] |- _ => destruct x eqn:?
  end.

(** An equation decided by evaluation, in one conversion. *)
Ltac vm_eq := match goal with |- ?a = ?b => exact (@eq_refl _ a <: a = b) end.

(** Turn boolean tests of the code into propositions. *)
Ltac breflect :=
  repeat match goal with
  | H : _ && _ = true |- _ => apply andb_true_iff in H as [? ?]
  | H : _ || _ = false |- _ => apply orb_false_iff in H as [? ?]
  | H : negb _ = true |- _ => apply negb_true_iff in H
  | H : negb _ = false |- _ => apply negb_false_iff in H
  | H : (_ <=? _)%Z = true |- _ => apply Z.leb_le in H
  | H : (_ <=? _)%Z = false |- _ => apply Z.leb_gt in H
  | H : (_ <? _)%Z = true |- _ => apply Z.ltb_lt in H
  | H : (_ <? _)%Z = false |- _ => apply Z.ltb_ge in H
  | H : (_ =? _)%Z = true |- _ => apply Z.eqb_eq in H
  | H : (_ =? _)%Z = false |- _ => apply Z.eqb_neq in H
  | H : (_ <=? _)%nat = true |- _ => apply Nat.leb_le in H
  | H : (_ <=? _)%nat = false |- _ => apply Nat.leb_gt in H
  | H : (_ <? _)%nat = true |- _ => apply Nat.ltb_lt in H
  | H : (_ <? _)%nat = false |- _ => apply Nat.ltb_ge in H
  | H : bool_decide _ = true |- _ => apply bool_decide_eq_true_1 in H
  | H : bool_decide _ = false |- _ => apply bool_decide_eq_false_1 in H
  end.

(** ** Integers and bytes: the shared lemmas *)

Lemma Z_of_byte_range b : (0 ≤ Z_of_byte b < 256)%Z.
Proof.
  unfold Z_of_byte. pose proof (Byte.to_N_bounded b). lia.
Qed.

Lemma Z_of_byte_of_Z z : Z_of_byte (byte_of_Z z) = (z `mod` 256)%Z.
Proof.
  pose proof (Z.mod_pos_bound z 256 ltac:(lia)) as Hb.
  unfold byte_of_Z, Z_of_byte.
  destruct (Byte.of_N (Z.to_N (z `mod` 256))) as [b|] eqn:E; simpl.
  - apply Byte.to_of_N in E. lia.
  - apply Byte.of_N_None_iff in E. lia.
Qed.

#[export] Instance Z_of_byte_inj : Inj (=) (=) Z_of_byte.
Proof.
  intros a b Hab. unfold Z_of_byte in Hab.
  assert (HN : Byte.to_N a = Byte.to_N b) by lia.
  apply (f_equal Byte.of_N) in HN. rewrite !Byte.of_to_N in HN. congruence.
Qed.

Lemma byte_of_Z_of_byte b : byte_of_Z (Z_of_byte b) = b.
Proof.
  apply (inj Z_of_byte). rewrite Z_of_byte_of_Z.
  apply Z.mod_small, Z_of_byte_range.
Qed.

Lemma byte_of_Z_inj a b : is_u8 a → is_u8 b → byte_of_Z a = byte_of_Z b → a = b.
Proof.
  unfold is_u8, u8_max. intros Ha Hb E. apply (f_equal Z_of_byte) in E.
  rewrite !Z_of_byte_of_Z, !Z.mod_small in E by lia. done.
Qed.

Lemma length_le_bytes n z : length (le_bytes n z) = n.
Proof. revert z. induction n; intros z; simpl; [done | by rewrite IHn]. Qed.

Lemma le_value_le_bytes n z : le_value (le_bytes n z) = (z `mod` 256 ^ Z.of_nat n)%Z.
Proof.
  revert z. induction n as [|n IH]; intros z.
  { simpl. by rewrite Z.mod_1_r. }
  cbn [le_bytes le_value]. rewrite Z_of_byte_of_Z, IH, Nat2Z.inj_succ.
  rewrite Z.pow_succ_r by lia.
  rewrite Z.rem_mul_r by lia. done.
Qed.

Lemma le_value_u64_to_le_bytes z : is_u64 z → le_value (u64_to_le_bytes z) = z.
Proof.
  unfold is_u64, u64_to_le_bytes. intros Hz. rewrite le_value_le_bytes.
  change (256 ^ Z.of_nat 8)%Z with (u64_max + 1)%Z.
  apply Z.mod_small. lia.
Qed.

Lemma u64_to_le_bytes_inj a b :
  is_u64 a → is_u64 b → u64_to_le_bytes a = u64_to_le_bytes b → a = b.
Proof.
  intros Ha Hb E. apply (f_equal le_value) in E.
  by rewrite !le_value_u64_to_le_bytes in E.
Qed.

Lemma length_u64_to_le_bytes z : length (u64_to_le_bytes z) = 8.
Proof. apply length_le_bytes. Qed.

Lemma u64_wrap_small z : is_u64 z → u64_wrap z = z.
Proof. unfold is_u64, u64_wrap, u64_max. intros. apply Z.mod_small. lia. Qed.

Lemma u64_wrap_range z : is_u64 (u64_wrap z).
Proof.
  unfold is_u64, u64_wrap, u64_max.
  pose proof (Z.mod_pos_bound z (18446744073709551615 + 1)). lia.
Qed.

Lemma i64_wrap_small z : is_i64 z → i64_wrap z = z.
Proof.
  unfold is_i64, i64_wrap, u64_max, i64_min, i64_max. intros.
  rewrite Z.mod_small; lia.
Qed.

Lemma u64_saturating_add_range a b :
  is_u64 a → is_u64 b → is_u64 (u64_saturating_add a b).
Proof. unfold is_u64, u64_saturating_add, u64_max. lia. Qed.

Lemma u64_saturating_sub_range a b :
  is_u64 a → is_u64 b → is_u64 (u64_saturating_sub a b).
Proof. unfold is_u64, u64_saturating_sub, u64_max. lia. Qed.

#[export] Hint Resolve u64_wrap_range u64_saturating_add_range
  u64_saturating_sub_range : iroh.

Lemma string_bytes_inj s t : string_bytes s = string_bytes t → s = t.
Proof.
  unfold string_bytes. intros E.
  rewrite <- (String.string_of_list_byte_of_string s),
    <- (String.string_of_list_byte_of_string t). by rewrite E.
Qed.

Lemma string_bytes_app s t :
  string_bytes (s +:+ t) = string_bytes s ++ string_bytes t.
Proof.
  unfold string_bytes, String.list_byte_of_string.
  induction s as [|c s IH]; simpl; [done|]. by rewrite IH.
Qed.

(** ** Lists: the shared lemmas *)

Section ListLemmas.
Context {A B : Type}.
Implicit Types l k : list A.

Lemma app_inj_suffix l1 l2 k1 k2 :
  length k1 = length k2 → l1 ++ k1 = l2 ++ k2 → l1 = l2 ∧ k1 = k2.
Proof. intros. by apply app_inj_2. Qed.

Lemma filter_all (P : A → Prop) `{∀ x, Decision (P x)} l :
  (∀ x, x ∈ l → P x) → filter P l = l.
Proof.
  induction l as [|x l IH]; intros Hall; [done|].
  rewrite filter_cons_True by (apply Hall; set_solver).
  rewrite IH; [done | set_solver].
Qed.

Lemma filter_none (P : A → Prop) `{∀ x, Decision (P x)} l :
  (∀ x, x ∈ l → ¬ P x) → filter P l = [].
Proof.
  induction l as [|x l IH]; intros Hall; [done|].
  rewrite filter_cons_False by (apply Hall; set_solver).
  apply IH. set_solver.
Qed.

Lemma elem_of_snoc l x y : x ∈ l ++ [y] ↔ x ∈ l ∨ x = y.
Proof. by rewrite elem_of_app, list_elem_of_singleton. Qed.

Lemma NoDup_fmap_filter (f : A → B) (P : A → Prop) `{∀ x, Decision (P x)} l :
  NoDup (f <$> l) → NoDup (f <$> filter P l).
Proof.
  intros Hnd. eapply sublist_NoDup; [exact Hnd|].
  apply fmap_sublist, sublist_filter.
Qed.

Lemma bind_nil (g : A → list B) l :
  (∀ x, x ∈ l → g x = []) → l ≫= g = [].
Proof.
  induction l as [|x l IH]; intros Hg; csimpl; [done|].
  rewrite (Hg x), IH; [done| |by left]. intros y Hy. apply Hg. by right.
Qed.

Lemma omap_bind {C} (f : A → list B) (g : B → option C) l :
  omap g (l ≫= f) = l ≫= (λ x, omap g (f x)).
Proof. induction l as [|x l IH]; csimpl; [done|]. by rewrite omap_app, IH. Qed.

Lemma filter_comm (P Q : A → Prop) `{∀ x, Decision (P x), ∀ x, Decision (Q x)} l :
  filter P (filter Q l) = filter Q (filter P l).
Proof.
  induction l as [|x l IH]; [done|].
  destruct (decide (P x)), (decide (Q x));
    repeat first [rewrite filter_cons_True by done | rewrite filter_cons_False by done];
    by rewrite IH.
Qed.

Lemma NoDup_fmap_inj_on (f : A → B) l x y :
  NoDup (f <$> l) → x ∈ l → y ∈ l → f x = f y → x = y.
Proof.
  induction l as [|z l IH]; intros Hnd Hx Hy E; [set_solver|].
  apply NoDup_cons in Hnd as [Hz Hnd].
  apply elem_of_cons in Hx as [->|Hx]; apply elem_of_cons in Hy as [->|Hy].
  - done.
  - exfalso. apply Hz. rewrite E. by apply list_elem_of_fmap_2.
  - exfalso. apply Hz. rewrite <- E. by apply list_elem_of_fmap_2.
  - by apply IH.
Qed.
End ListLemmas.

(** ** [rposition] and [iter_max] *)

Section RPosition.
Context {A : Type} (p : A → bool).

Lemma rposition_None l : rposition p l = None ↔ Forall (λ x, p x = false) l.
Proof.
  induction l as [|x l IH]; simpl; [done|]. rewrite Forall_cons, <-IH.
  destruct (rposition p l); [naive_solver|]. destruct (p x); naive_solver.
Qed.

Lemma rposition_lt l i : rposition p l = Some i → i < length l.
Proof.
  revert i. induction l as [|x l IH]; intros i E; simpl in *; [done|].
  destruct (rposition p l) as [j|].
  - injection E as <-. specialize (IH j eq_refl). lia.
  - destruct (p x); [|done]. injection E as <-. lia.
Qed.

Lemma rposition_snoc l x :
  p x = true → rposition p (l ++ [x]) = Some (length l).
Proof. intros Hx. induction l as [|y l IH]; simpl; [by rewrite Hx|]. by rewrite IH. Qed.
End RPosition.

Lemma iter_max_None l : iter_max l = None ↔ l = [].
Proof. destruct l as [|x l]; simpl; [done|]. by destruct (iter_max l). Qed.

Lemma iter_max_Some l m :
  iter_max l = Some m → m ∈ l ∧ (∀ x, x ∈ l → (x ≤ m)%Z).
Proof.
  revert m. induction l as [|x l IH]; intros m E; simpl in *; [done|].
  destruct (iter_max l) as [y|] eqn:El.
  - injection E as <-. destruct (IH y eq_refl) as [Hy Hle]. split.
    + rewrite elem_of_cons. destruct (Z.max_spec x y) as [[? ->]|[? ->]]; auto.
    + intros z [->|Hz]%elem_of_cons; [lia|]. specialize (Hle z Hz). lia.
  - apply iter_max_None in El as ->. injection E as <-. split; [set_solver|].
    intros z Hz%list_elem_of_singleton. lia.
Qed.
