(* ===== verification/Ords.v ===== *)
(** * Rust's [Ord], [Reverse] and stable sorting

    The standard-library ordering the sources sort by: [cmp] on integers,
    bytes, slices, tuples and [std::cmp::Reverse], and the stable
    [slice::sort_by_key] that the record, engine and shard code call. *)
From S2P Require Import Prelude.
From stdpp Require Export sorting.
From Stdlib Require Export Sorted.

(** [Ord::cmp]; [OrdLaws] is the contract of the trait: a total order whose
    equality is [==]. *)
Class Ord (K : Type) := cmp : K → K → comparison.
#[export] Hint Mode Ord ! : typeclass_instances.

Class OrdLaws (K : Type) `{!Ord K} : Prop := {
  cmp_eq_iff (a b : K) : cmp a b = Eq ↔ a = b;
  cmp_antisym (a b : K) : cmp b a = CompOpp (cmp a b);
  cmp_lt_trans (a b c : K) : cmp a b = Lt → cmp b c = Lt → cmp a c = Lt;
}.

(** [a <= b] and [a < b]. *)
Definition ord_le {K} `{!Ord K} (a b : K) : bool :=
  match cmp a b with Gt => false | _ => true end.
Definition ord_lt {K} `{!Ord K} (a b : K) : bool :=
  match cmp a b with Lt => true | _ => false end.

(** ** Instances *)

#[export] Instance Z_ord : Ord Z := Z.compare.
#[export] Instance byte_ord : Ord byte := λ a b, Z.compare (Z_of_byte a) (Z_of_byte b).
#[export] Instance bool_ord : Ord bool := λ a b,
  match a, b with
  | false, true => Lt
  | true, false => Gt
  | _, _ => Eq
  end.

(** Tuples: lexicographic. *)
#[export] Instance prod_ord {A B} `{!Ord A, !Ord B} : Ord (A * B) := λ p q,
  match cmp p.1 q.1 with
  | Eq => cmp p.2 q.2
  | c => c
  end.

(** Slices and arrays: lexicographic. *)
Fixpoint list_cmp {A} `{!Ord A} (l k : list A) : comparison :=
  match l, k with
  | [], [] => Eq
  | [], _ :: _ => Lt
  | _ :: _, [] => Gt
  | x :: l, y :: k => match cmp x y with Eq => list_cmp l k | c => c end
  end.
#[export] Instance list_ord {A} `{!Ord A} : Ord (list A) := list_cmp.

(** [std::cmp::Reverse]. *)
Inductive Reverse (K : Type) := MkReverse { unreverse : K }.
Arguments MkReverse {K} _.
Arguments unreverse {K} _.
#[export] Instance Reverse_ord {K} `{!Ord K} : Ord (Reverse K) := λ a b,
  cmp (unreverse b) (unreverse a).

(** [slice::sort_by_key]: the standard library's sort is stable. *)
Section Sorting.
Context {A K : Type} `{!Ord K} (key : A → K).

Fixpoint insert_by_key (x : A) (l : list A) : list A :=
  match l with
  | [] => [x]
  | y :: l => if ord_le (key x) (key y) then x :: y :: l else y :: insert_by_key x l
  end.

Fixpoint sort_by_key (l : list A) : list A :=
  match l with
  | [] => []
  | x :: l => insert_by_key x (sort_by_key l)
  end.

(** Ascending order of the keys. *)
Definition key_le (x y : A) : Prop := ord_le (key x) (key y) = true.
Definition key_sorted (l : list A) : Prop := StronglySorted key_le l.
End Sorting.

(** ** The laws hold for the instances *)

#[export] Instance Z_ord_laws : OrdLaws Z.
Proof.
  split; unfold cmp, Z_ord.
  - apply Z.compare_eq_iff.
  - intros a b. apply Z.compare_antisym.
  - intros a b c. rewrite !Z.compare_lt_iff. lia.
Qed.

#[export] Instance byte_ord_laws : OrdLaws byte.
Proof.
  split; unfold cmp, byte_ord.
  - intros a b. rewrite Z.compare_eq_iff. split; [apply (inj Z_of_byte) | by intros ->].
  - intros a b. apply Z.compare_antisym.
  - intros a b c. rewrite !Z.compare_lt_iff. lia.
Qed.

#[export] Instance bool_ord_laws : OrdLaws bool.
Proof.
  split; [intros [] []; cbn; split; congruence | by intros [] [] | by intros [] [] []].
Qed.

#[export] Instance Reverse_ord_laws {K} `{!Ord K, !OrdLaws K} : OrdLaws (Reverse K).
Proof.
  split.
  - intros [a] [b]. change (cmp b a = Eq ↔ MkReverse a = MkReverse b).
    rewrite cmp_eq_iff. split; congruence.
  - intros [a] [b]. exact (cmp_antisym b a).
  - intros [a] [b] [c] Hab Hbc. exact (cmp_lt_trans c b a Hbc Hab).
Qed.

Section ProdLaws.
Context {A B : Type} `{!Ord A, !OrdLaws A, !Ord B, !OrdLaws B}.

Lemma prod_cmp_unfold (a b : A * B) :
  cmp a b = match cmp a.1 b.1 with Eq => cmp a.2 b.2 | c => c end.
Proof. done. Qed.

#[export] Instance prod_ord_laws : OrdLaws (A * B).
Proof.
  split.
  - intros [a1 a2] [b1 b2]. rewrite prod_cmp_unfold; simpl. destruct (cmp a1 b1) eqn:E.
    + apply cmp_eq_iff in E as ->. rewrite cmp_eq_iff. split; congruence.
    + split; [done|]. intros [= -> ->]. by rewrite (proj2 (cmp_eq_iff b1 b1) eq_refl) in E.
    + split; [done|]. intros [= -> ->]. by rewrite (proj2 (cmp_eq_iff b1 b1) eq_refl) in E.
  - intros [a1 a2] [b1 b2]. rewrite !prod_cmp_unfold; simpl.
    rewrite (cmp_antisym a1 b1). destruct (cmp a1 b1); simpl; [apply cmp_antisym | done..].
  - intros [a1 a2] [b1 b2] [c1 c2]. rewrite !prod_cmp_unfold; simpl.
    destruct (cmp a1 b1) eqn:E1; [|..|done]; destruct (cmp b1 c1) eqn:E2; try done.
    + apply cmp_eq_iff in E1 as ->. apply cmp_eq_iff in E2 as ->.
      rewrite (proj2 (cmp_eq_iff c1 c1) eq_refl). apply cmp_lt_trans.
    + apply cmp_eq_iff in E1 as ->. by rewrite E2.
    + apply cmp_eq_iff in E2 as ->. by rewrite E1.
    + by rewrite (cmp_lt_trans _ _ _ E1 E2).
Qed.
End ProdLaws.

Section ListLaws.
Context {A : Type} `{!Ord A, !OrdLaws A}.

Lemma list_cmp_eq_iff (l k : list A) : list_cmp l k = Eq ↔ l = k.
Proof.
  revert k. induction l as [|x l IH]; intros [|y k]; simpl; try done.
  destruct (cmp x y) eqn:E.
  - apply cmp_eq_iff in E as ->. rewrite IH. split; congruence.
  - split; [done|]. intros [= -> ->]. by rewrite (proj2 (cmp_eq_iff y y) eq_refl) in E.
  - split; [done|]. intros [= -> ->]. by rewrite (proj2 (cmp_eq_iff y y) eq_refl) in E.
Qed.

Lemma list_cmp_antisym (l k : list A) : list_cmp k l = CompOpp (list_cmp l k).
Proof.
  revert k. induction l as [|x l IH]; intros [|y k]; simpl; try done.
  rewrite (cmp_antisym x y). destruct (cmp x y); simpl; auto.
Qed.

Lemma list_cmp_lt_trans (a b c : list A) :
  list_cmp a b = Lt → list_cmp b c = Lt → list_cmp a c = Lt.
Proof.
  revert b c. induction a as [|x a IH]; intros [|y b] [|z c]; simpl; try done.
  destruct (cmp x y) eqn:E1; [|..|done]; destruct (cmp y z) eqn:E2; try done.
  - apply cmp_eq_iff in E1 as ->. apply cmp_eq_iff in E2 as ->.
    rewrite (proj2 (cmp_eq_iff z z) eq_refl). apply IH.
  - apply cmp_eq_iff in E1 as ->. by rewrite E2.
  - apply cmp_eq_iff in E2 as ->. by rewrite E1.
  - by rewrite (cmp_lt_trans _ _ _ E1 E2).
Qed.

#[export] Instance list_ord_laws : OrdLaws (list A).
Proof.
  split; [apply list_cmp_eq_iff | apply list_cmp_antisym | apply list_cmp_lt_trans].
Qed.
End ListLaws.

(** ** Consequences of the laws *)

Section OrdFacts.
Context {K : Type} `{!Ord K, !OrdLaws K}.
Implicit Types a b c : K.

Lemma cmp_refl a : cmp a a = Eq.
Proof. by apply cmp_eq_iff. Qed.

Lemma ord_lt_not_le a b : ord_lt a b = negb (ord_le b a).
Proof. unfold ord_lt, ord_le. rewrite (cmp_antisym a b). by destruct (cmp a b). Qed.

Lemma ord_le_refl a : ord_le a a = true.
Proof. unfold ord_le. by rewrite cmp_refl. Qed.

Lemma ord_lt_irrefl a : ord_lt a a = false.
Proof. by rewrite ord_lt_not_le, ord_le_refl. Qed.

Lemma ord_le_antisym a b : ord_le a b = true → ord_le b a = true → a = b.
Proof.
  unfold ord_le. rewrite (cmp_antisym a b). intros H1 H2. apply cmp_eq_iff.
  by destruct (cmp a b).
Qed.

Lemma ord_le_trans a b c : ord_le a b = true → ord_le b c = true → ord_le a c = true.
Proof.
  unfold ord_le. intros H1 H2.
  destruct (cmp a b) eqn:E1; [|..|done]; destruct (cmp b c) eqn:E2; try done.
  - apply cmp_eq_iff in E1 as ->. by rewrite E2.
  - apply cmp_eq_iff in E1 as ->. by rewrite E2.
  - apply cmp_eq_iff in E2 as ->. by rewrite E1.
  - by rewrite (cmp_lt_trans _ _ _ E1 E2).
Qed.

Lemma ord_le_total a b : ord_le a b = true ∨ ord_le b a = true.
Proof. unfold ord_le. rewrite (cmp_antisym a b). destruct (cmp a b); auto. Qed.

Lemma ord_lt_le a b : ord_lt a b = true → ord_le a b = true.
Proof. unfold ord_lt, ord_le. by destruct (cmp a b). Qed.

Lemma ord_nle_le a b : ord_le a b = false → ord_le b a = true.
Proof. destruct (ord_le_total a b); congruence. Qed.
End OrdFacts.

#[export] Hint Extern 1 (ord_le _ _ = true) => apply ord_le_refl : iroh.
#[export] Hint Extern 2 (ord_le _ _ = true) =>
  first [apply ord_lt_le; assumption | apply ord_nle_le; assumption] : iroh.

(** ** Sorting *)

Section SortFacts.
Context {A K : Type} `{!Ord K, !OrdLaws K} (key : A → K).
Abbreviation sort := (sort_by_key key).
Abbreviation key_le := (key_le key).

#[export] Instance key_le_trans : Transitive key_le.
Proof. intros x y z. apply ord_le_trans. Qed.

Lemma insert_by_key_Permutation x l : insert_by_key key x l ≡ₚ x :: l.
Proof.
  induction l as [|y l IH]; simpl; [done|].
  case_match; [done|]. rewrite IH. apply Permutation_swap.
Qed.

Lemma sort_by_key_Permutation l : sort l ≡ₚ l.
Proof.
  induction l as [|x l IH]; simpl; [done|].
  by rewrite insert_by_key_Permutation, IH.
Qed.

Lemma insert_by_key_sorted x l : key_sorted key l → key_sorted key (insert_by_key key x l).
Proof.
  unfold key_sorted. induction 1 as [|y l Hs IH Hy]; simpl.
  { repeat constructor. }
  case_match eqn:E.
  - constructor; [by constructor|]. constructor; [done|].
    eapply Forall_impl; [exact Hy|]. intros z Hz. by eapply ord_le_trans.
  - constructor; [done|]. rewrite insert_by_key_Permutation.
    constructor; [by apply ord_nle_le | done].
Qed.

Lemma sort_by_key_sorted l : key_sorted key (sort l).
Proof.
  induction l as [|x l IH]; simpl; [constructor|]. by apply insert_by_key_sorted.
Qed.

(** Sorting a sorted list changes nothing. *)
Lemma sort_by_key_id l : key_sorted key l → sort l = l.
Proof.
  unfold key_sorted. induction 1 as [|x l Hs IH Hx]; simpl; [done|].
  rewrite IH. destruct Hx as [|y l Hy]; simpl; [done|].
  unfold Ords.key_le in Hy. by rewrite Hy.
Qed.

Lemma insert_by_key_filter (P : A → Prop) `{∀ y, Decision (P y)} x l :
  (∀ a b, P a → P b → key a = key b) →
  filter P (insert_by_key key x l) = filter P (x :: l).
Proof.
  intros HP. induction l as [|y l IH]; [done|]. simpl insert_by_key.
  case_match eqn:E; [done|].
  rewrite filter_cons, IH, !filter_cons.
  destruct (decide (P y)) as [Hy|Hy], (decide (P x)) as [Hx|Hx]; try done.
  exfalso. rewrite (HP _ _ Hx Hy), ord_le_refl in E. done.
Qed.

(** Stability: the elements of one key keep their relative order. *)
Lemma sort_by_key_stable `{EqDecision K} (k : K) l :
  filter (λ x, key x = k) (sort l) = filter (λ x, key x = k) l.
Proof.
  induction l as [|x l IH]; [done|]. simpl sort.
  rewrite insert_by_key_filter by congruence.
  rewrite !filter_cons, IH. done.
Qed.

(** With distinct keys the result does not depend on the input order. *)
Lemma sort_by_key_perm_eq l l' :
  NoDup (key <$> l) → l ≡ₚ l' → sort l = sort l'.
Proof.
  intros Hnd Hp. apply (StronglySorted_unique_strong key_le).
  - intros x y Hx Hy Hxy Hyx.
    rewrite sort_by_key_Permutation in Hx. rewrite sort_by_key_Permutation, <-Hp in Hy.
    apply (NoDup_fmap_inj_on key l); [done..|]. by apply ord_le_antisym.
  - apply sort_by_key_sorted.
  - apply sort_by_key_sorted.
  - by rewrite !sort_by_key_Permutation.
Qed.

Lemma elem_of_sort_by_key x l : x ∈ sort l ↔ x ∈ l.
Proof. by rewrite sort_by_key_Permutation. Qed.

Lemma key_sorted_filter (P : A → Prop) `{∀ x, Decision (P x)} l :
  key_sorted key l → key_sorted key (filter P l).
Proof.
  unfold key_sorted. induction 1 as [|x l Hs IH Hx]; [constructor|].
  destruct (decide (P x)); [rewrite filter_cons_True by done | by rewrite filter_cons_False].
  constructor; [done|]. rewrite Forall_forall in *. intros y [_ Hy]%list_elem_of_filter.
  by apply Hx.
Qed.

Lemma length_sort_by_key l : length (sort l) = length l.
Proof. by rewrite sort_by_key_Permutation. Qed.

(** A list sorted by a key that decides [f], the elements without [f] first. *)
Lemma key_sorted_partition (f : A → bool) l :
  (∀ x y, key_le x y → f x = true → f y = true) → key_sorted key l →
  l = filter (λ x, f x = false) l ++ filter (λ x, f x = true) l.
Proof.
  unfold key_sorted. intros Hf. induction 1 as [|x l Hs IH Hx]; [done|].
  rewrite !filter_cons. destruct (f x) eqn:E; simpl.
  - rewrite (filter_none (λ y, f y = false)).
    2: { intros y Hy. rewrite Forall_forall in Hx.
         rewrite (Hf x y); [done | by apply Hx | done]. }
    simpl. rewrite filter_all; [done|].
    intros y Hy. rewrite Forall_forall in Hx. by apply (Hf x y); [apply Hx|].
  - by rewrite <-IH.
Qed.
End SortFacts.

#[export] Hint Resolve sort_by_key_sorted sort_by_key_Permutation : iroh.
