(* ===== verification/Iroh.v ===== *)
(** * Interfaces of the third-party crates the sources rely on

    The sources call iroh (identities and signatures), postcard
    (serialisation) and sha2 (hashing).  Their code is not part of the
    repository, so each is a class of operations with, apart, the laws their
    documentation states.  [Module Demo] gives one concrete instance of
    each, used only to evaluate the development on concrete inputs and to
    show that the laws can hold. *)
From S2P Require Import Prelude.

(** ** iroh: endpoint identities and signatures *)

Class IrohKeys := {
  EndpointId : Type;
  EndpointId_eq_dec :: EqDecision EndpointId;
  SecretKey : Type;
  IrohSignature : Type;
  IrohSignature_eq_dec :: EqDecision IrohSignature;
  (** [EndpointId::as_bytes] and [EndpointId::from_bytes(..).ok()] *)
  as_bytes : EndpointId → bytes;
  from_bytes : bytes → option EndpointId;
  (** [SecretKey::public], [SecretKey::sign], [EndpointId::verify(..).is_ok()] *)
  public : SecretKey → EndpointId;
  sign_bytes : SecretKey → bytes → IrohSignature;
  verify_bytes : EndpointId → bytes → IrohSignature → bool;
}.

Class IrohKeysLaws `{!IrohKeys} : Prop := {
  from_as_bytes (i : EndpointId) : from_bytes (as_bytes i) = Some i;
  as_from_bytes (bs : bytes) (i : EndpointId) : from_bytes bs = Some i → as_bytes i = bs;
  sign_verifies (sk : SecretKey) (m : bytes) :
    verify_bytes (public sk) m (sign_bytes sk m) = true;
}.

(** A signature is accepted for one message only; stated apart because only
    the namespace theorem needs it. *)
Class SignatureBinds `{!IrohKeys} : Prop :=
  signature_binds (i : EndpointId) (m m' : bytes) (s : IrohSignature) :
    verify_bytes i m s = true → verify_bytes i m' s = true → m = m'.

(** ** postcard: [to_allocvec] and [from_bytes] at one type *)

Class Postcard (PcError T : Type) := {
  to_allocvec : T → Result PcError bytes;
  pc_from_bytes : bytes → option T;
}.
Arguments to_allocvec {PcError T _} _.
Arguments pc_from_bytes {PcError T _} _.

Class PostcardLaws (PcError T : Type) `{!Postcard PcError T} : Prop :=
  postcard_roundtrip (x : T) (bs : bytes) :
    to_allocvec x = Ok bs → pc_from_bytes bs = Some x.

(** ** sha2: [Sha256] over the concatenation of the updates *)

Class Sha256 := sha256 : bytes → bytes.

(** ** mainline: signing keys and BEP44 mutable items *)

Class Mainline := {
  SigningKey : Type;
  (** [SigningKey::from_bytes], [verifying_key().as_bytes()] *)
  signing_key_from_bytes : bytes → SigningKey;
  verifying_key : SigningKey → bytes;
  MutableItem : Type;
  (** [MutableItem::new(key, value, seq, salt)], [seq()], [value()] *)
  item_new : SigningKey → bytes → Z → option bytes → MutableItem;
  item_seq : MutableItem → Z;
  item_value : MutableItem → bytes;
}.

Class MainlineLaws `{!Mainline} : Prop := {
  item_new_seq (k : SigningKey) (v : bytes) (s : Z) (salt : option bytes) :
    item_seq (item_new k v s salt) = s;
  item_new_value (k : SigningKey) (v : bytes) (s : Z) (salt : option bytes) :
    item_value (item_new k v s salt) = v;
}.

(** ** A concrete instance *)

Module Demo.

(** A length-prefixed binary codec. *)
Class Codec (A : Type) := {
  enc : A → option bytes;
  dec : bytes → option (A * bytes);
  dec_enc a bs rest : enc a = Some bs → dec (bs ++ rest) = Some (a, rest);
}.
#[export] Hint Mode Codec ! : typeclass_instances.

#[export] Program Instance byte_codec : Codec byte := {|
  enc b := Some [b];
  dec bs := match bs with [] => None | b :: bs => Some (b, bs) end;
|}.
Next Obligation. by intros ??? [= <-]. Qed.

Definition split_bytes (n : nat) (bs : bytes) : option (bytes * bytes) :=
  if n <=? length bs then Some (take n bs, drop n bs) else None.

Lemma split_bytes_app bs rest : split_bytes (length bs) (bs ++ rest) = Some (bs, rest).
Proof.
  unfold split_bytes. rewrite (proj2 (Nat.leb_le _ _)) by (rewrite length_app; lia).
  by rewrite take_app_length, drop_app_length.
Qed.

#[export] Program Instance Z_codec : Codec Z := {|
  enc z := if (0 <=? z)%Z && (z <=? u64_max)%Z then Some (u64_to_le_bytes z) else None;
  dec bs := '(b, bs) ← split_bytes 8 bs; Some (le_value b, bs);
|}.
Next Obligation.
  intros z bs rest E. cbn beta in *. destruct (_ && _) eqn:Hz; [|done].
  breflect. injection E as <-.
  rewrite <-(length_u64_to_le_bytes z), split_bytes_app. cbn [mbind option_bind].
  rewrite le_value_u64_to_le_bytes by (split; lia). done.
Qed.

#[export] Program Instance prod_codec {A B} `{!Codec A, !Codec B} : Codec (A * B) := {|
  enc p := a ← enc p.1; b ← enc p.2; Some (a ++ b);
  dec bs := '(a, bs) ← dec bs; '(b, bs) ← dec bs; Some ((a, b), bs);
|}.
Next Obligation.
  intros A B CA CB [a b] bs rest. simpl. intros E.
  apply bind_Some in E as (x & Hx & E). apply bind_Some in E as (y & Hy & E).
  injection E as <-. rewrite <-app_assoc. rewrite (dec_enc _ _ _ Hx). simpl.
  by rewrite (dec_enc _ _ _ Hy).
Qed.

Fixpoint enc_items {A} `{!Codec A} (l : list A) : option bytes :=
  match l with
  | [] => Some []
  | x :: l => a ← enc x; b ← enc_items l; Some (a ++ b)
  end.
Fixpoint dec_items {A} `{!Codec A} (n : nat) (bs : bytes) : option (list A * bytes) :=
  match n with
  | O => Some ([], bs)
  | S n => '(x, bs) ← dec bs; '(l, bs) ← dec_items n bs; Some (x :: l, bs)
  end.

Lemma dec_enc_items {A} `{!Codec A} (l : list A) bs rest :
  enc_items l = Some bs → dec_items (length l) (bs ++ rest) = Some (l, rest).
Proof.
  revert bs. induction l as [|x l IH]; intros bs E; simpl in *.
  { by injection E as <-. }
  apply bind_Some in E as (a & Ha & E). apply bind_Some in E as (b & Hb & E).
  injection E as <-. rewrite <-app_assoc, (dec_enc _ _ _ Ha). simpl.
  by rewrite (IH _ Hb).
Qed.

(** One length byte: lists of up to 255 items. *)
#[export] Program Instance list_codec {A} `{!Codec A} : Codec (list A) := {|
  enc l := if length l <? 256
           then b ← enc_items l; Some (byte_of_Z (Z.of_nat (length l)) :: b) else None;
  dec bs := match bs with
            | [] => None
            | b :: bs => dec_items (Z.to_nat (Z_of_byte b)) bs
            end;
|}.
Next Obligation.
  intros A CA l bs rest. simpl. intros E. destruct (_ <? _) eqn:Hl; [|done]. breflect.
  apply bind_Some in E as (b & Hb & E). injection E as <-. simpl.
  rewrite Z_of_byte_of_Z, Z.mod_small, Nat2Z.id by lia. by apply dec_enc_items.
Qed.

(** A codec through a representation type. *)
Program Definition iso_codec {A B} `{!Codec B} (f : A → B) (g : B → A)
  (gf : ∀ a, g (f a) = a) : Codec A := {|
  enc a := enc (f a);
  dec bs := '(b, bs) ← dec bs; Some (g b, bs);
|}.
Next Obligation.
  intros A B CB f g gf a bs rest E. simpl in *. rewrite (dec_enc _ _ _ E). simpl.
  by rewrite gf.
Qed.

#[export] Instance string_codec : Codec string :=
  iso_codec string_bytes String.string_of_list_byte String.string_of_list_byte_of_string.

(** The postcard interface of a codec; the error carries no information. *)
#[export] Instance codec_postcard {T} `{!Codec T} : Postcard unit T := {|
  to_allocvec x := ok_or (enc x) tt;
  pc_from_bytes bs := match dec bs with Some (x, []) => Some x | _ => None end;
|}.

#[export] Instance codec_postcard_laws {T} `{!Codec T} : PostcardLaws unit T.
Proof.
  intros x bs E. simpl in *. destruct (enc x) as [b|] eqn:Hx; [|done].
  injection E as <-. pose proof (dec_enc x b [] Hx) as H.
  rewrite app_nil_r in H. by rewrite H.
Qed.

(** Identities are byte strings, a secret key is its identity, a signature is
    the key followed by the message. *)
#[export] Instance keys : IrohKeys := {|
  EndpointId := bytes;
  SecretKey := bytes;
  IrohSignature := bytes * bytes;
  as_bytes := id;
  from_bytes := Some;
  public := id;
  sign_bytes sk m := (sk, m);
  verify_bytes i m s := bool_decide (s = (i, m));
|}.

#[export] Instance keys_laws : IrohKeysLaws.
Proof.
  split; simpl; intros.
  - done.
  - congruence.
  - by rewrite bool_decide_true.
Qed.

#[export] Instance keys_bind : SignatureBinds.
Proof.
  intros i m m' s. simpl. rewrite !bool_decide_eq_true. congruence.
Qed.

(** A stand-in hash: the bytes, reversed. *)
#[export] Instance hash : Sha256 := λ bs, reverse bs.

(** A mutable item is the tuple it was made of. *)
#[export] Instance mainline : Mainline := {|
  SigningKey := bytes;
  signing_key_from_bytes := id;
  verifying_key := id;
  MutableItem := bytes * bytes * Z * option bytes;
  item_new k v s salt := (k, v, s, salt);
  item_seq i := i.1.2;
  item_value i := i.1.1.2;
|}.

#[export] Instance mainline_laws : MainlineLaws.
Proof. by split. Qed.

End Demo.
