(* ===== verification/ServiceRecord.v ===== *)
(** * Signed service advertisements and shard buckets

    Models [src/swarm/record.rs]: signing and verification of an
    advertisement, merging of bucket replicas, insertion, and trimming to the
    BEP44 value size. *)
From S2P Require Import Prelude Ords Iroh.
From Equations Require Import Equations.

Definition DHT_BUCKET_VERSION : Z := 2.
Definition DHT_MAX_BUCKET_BYTES : Z := 1000.
Definition MAX_FUTURE_SKEW_SECS : Z := 300.

(** [ServiceAd]: [node_id : [u8; 32]], [published_at] and [expires_at : u64]. *)
Record ServiceAd := MkServiceAd {
  sa_node_id : bytes;
  sa_tags : list string;
  sa_published_at : Z;
  sa_expires_at : Z;
}.

Record ServiceAdEnvelope := MkServiceAdEnvelope {
  env_version : Z;
  env_alpn : bytes;
  env_minute : Z;
  env_shard : Z;
  env_node_id : bytes;
  env_tags : list string;
  env_published_at : Z;
  env_expires_at : Z;
}.

#[export] Instance ServiceAd_eq_dec : EqDecision ServiceAd.
Proof. solve_decision. Defined.

(** The tuple [(Reverse(published_at), Reverse(expires_at), node_id)]. *)
Abbreviation AdSortKey := (Reverse Z * (Reverse Z * bytes))%type.

(** ** Data and operations *)

Section Record.
Context `{!IrohKeys}.

Record SignedServiceAd := MkSignedServiceAd {
  ssa_ad : ServiceAd;
  ssa_signature : IrohSignature;
}.

Record ServiceBucket := MkServiceBucket {
  sb_version : Z;
  sb_ads : list SignedServiceAd;
}.

#[export] Instance SignedServiceAd_eq_dec : EqDecision SignedServiceAd.
Proof. solve_decision. Defined.

Definition node_id (a : SignedServiceAd) : bytes := sa_node_id (ssa_ad a).
Definition published_at (a : SignedServiceAd) : Z := sa_published_at (ssa_ad a).
Definition expires_at (a : SignedServiceAd) : Z := sa_expires_at (ssa_ad a).
Definition endpoint_id (a : SignedServiceAd) : option EndpointId := from_bytes (node_id a).

(** [required_tags.iter().all(|tag| self.ad.tags.contains(tag))] *)
Definition has_tags (required : list string) (a : SignedServiceAd) : bool :=
  forallb (λ tag, bool_decide (tag ∈ sa_tags (ssa_ad a))) required.

Context {PcError : Type}.
Context `{!Postcard PcError ServiceAdEnvelope, !Postcard PcError ServiceBucket}.

Definition envelope (alpn : bytes) (minute shard : Z) (a : ServiceAd) : ServiceAdEnvelope := {|
  env_version := DHT_BUCKET_VERSION;
  env_alpn := alpn;
  env_minute := minute;
  env_shard := shard;
  env_node_id := sa_node_id a;
  env_tags := sa_tags a;
  env_published_at := sa_published_at a;
  env_expires_at := sa_expires_at a;
|}.

Definition signing_message (alpn : bytes) (minute shard : Z) (a : ServiceAd)
  : Result PcError bytes :=
  to_allocvec (envelope alpn minute shard a).

Definition sign_ad (sk : SecretKey) (alpn : bytes) (minute shard : Z)
  (tags : list string) (published expires : Z) : Result PcError SignedServiceAd :=
  let a := MkServiceAd (as_bytes (public sk)) tags published expires in
  message ← signing_message alpn minute shard a;
  Ok (MkSignedServiceAd a (sign_bytes sk message)).

Definition verify (alpn : bytes) (minute shard now : Z) (a : SignedServiceAd) : bool :=
  if (expires_at a <=? now)%Z
     || negb (published_at a <=? expires_at a)%Z
     || negb (published_at a <=? u64_saturating_add now MAX_FUTURE_SKEW_SECS)%Z
  then false
  else
    match endpoint_id a with
    | None => false
    | Some id =>
        match signing_message alpn minute shard (ssa_ad a) with
        | Ok message => verify_bytes id message (ssa_signature a)
        | Err _ => false
        end
    end.

Definition ad_sort_key (a : SignedServiceAd) : AdSortKey :=
  (MkReverse (published_at a), (MkReverse (expires_at a), node_id a)).

Definition ad_precedes (candidate existing : SignedServiceAd) : bool :=
  ord_lt (ad_sort_key candidate) (ad_sort_key existing).

Definition preferred_ad_sort_key (preferred : option bytes) (a : SignedServiceAd)
  : bool * AdSortKey :=
  let deprioritized :=
    match preferred with
    | Some n => bool_decide (node_id a ≠ n)
    | None => false
    end in
  (deprioritized, ad_sort_key a).

Definition new_bucket (ads : list SignedServiceAd) : ServiceBucket :=
  MkServiceBucket DHT_BUCKET_VERSION ads.

(** One iteration of the inner loop of [merge_valid]; the [BTreeMap] is a
    finite map, and [into_values] lists it in key order. *)
Definition merge_ad (alpn : bytes) (minute shard now : Z)
  (merged : gmap bytes SignedServiceAd) (a : SignedServiceAd) : gmap bytes SignedServiceAd :=
  if negb (verify alpn minute shard now a) then merged
  else
    match merged !! node_id a with
    | None => <[node_id a := a]> merged
    | Some existing =>
        if ad_precedes a existing then <[node_id a := a]> merged else merged
    end.

Definition merge_bucket (alpn : bytes) (minute shard now : Z)
  (merged : gmap bytes SignedServiceAd) (b : ServiceBucket) : gmap bytes SignedServiceAd :=
  if negb (sb_version b =? DHT_BUCKET_VERSION)%Z then merged
  else fold_left (merge_ad alpn minute shard now) (sb_ads b) merged.

Definition into_values (m : gmap bytes SignedServiceAd) : list SignedServiceAd :=
  (sort_by_key (λ p : bytes * SignedServiceAd, p.1) (map_to_list m)).*2.

Definition merge_valid (buckets : list ServiceBucket) (alpn : bytes) (minute shard now : Z)
  : list SignedServiceAd :=
  let merged := fold_left (merge_bucket alpn minute shard now) buckets ∅ in
  sort_by_key ad_sort_key (into_values merged).

(** [iter_mut().find(..)] is the first advertisement of the same node. *)
Definition upsert (a : SignedServiceAd) (b : ServiceBucket) : ServiceBucket :=
  match list_find (λ e, node_id e = node_id a) (sb_ads b) with
  | Some (i, existing) =>
      if ad_precedes a existing
      then MkServiceBucket (sb_version b) (<[i := a]> (sb_ads b))
      else b
  | None => MkServiceBucket (sb_version b) (sb_ads b ++ [a])
  end.

Definition encoded_len (b : ServiceBucket) : Result PcError Z :=
  (λ bs : bytes, Z.of_nat (length bs)) <$> to_allocvec b.

Definition not_preferred (preferred : option bytes) (a : SignedServiceAd) : bool :=
  bool_decide (Some (node_id a) ≠ preferred).

Definition inspect {A} (x : A) : { y : A | x = y } := exist _ x eq_refl.

(** The [loop] of [trim_to_size] on a bucket of version [v]: the result and
    the advertisements left in the bucket. *)
Equations? trim_loop (v : Z) (preferred : option bytes) (ads : list SignedServiceAd)
  : Result PcError bool * list SignedServiceAd by wf (length ads) lt :=
  trim_loop v preferred ads with encoded_len (MkServiceBucket v ads) => {
    | Err e := (Err e, ads);
    | Ok n with (n <=? DHT_MAX_BUCKET_BYTES)%Z => {
      | true := (Ok true, ads);
      | false with inspect (rposition (not_preferred preferred) ads) => {
        | exist _ (Some idx) _ := trim_loop v preferred (delete idx ads);
        | exist _ None _ :=
            ((λ m, (m <=? DHT_MAX_BUCKET_BYTES)%Z) <$> encoded_len (MkServiceBucket v ads), ads)
      }
    }
  }.
Proof.
  pose proof (rposition_lt _ _ _ e) as Hlt.
  destruct (lookup_lt_is_Some_2 _ _ Hlt) as [a Ha].
  rewrite length_delete by eauto. lia.
Qed.

Definition trim_to_size (preferred : option bytes) (b : ServiceBucket)
  : Result PcError bool * ServiceBucket :=
  let sorted := sort_by_key (preferred_ad_sort_key preferred) (sb_ads b) in
  let '(r, ads) := trim_loop (sb_version b) preferred sorted in
  (r, MkServiceBucket (sb_version b) ads).
End Record.

(** ** Verification *)

Section VerifyFacts.
Context `{!IrohKeys} {PcError : Type}.
Context `{!Postcard PcError ServiceAdEnvelope}.
Implicit Types a : SignedServiceAd.

(** An advertisement is accepted exactly when it has not expired, was not
    published after its own expiry nor more than [MAX_FUTURE_SKEW_SECS] ahead
    of the clock, names a valid endpoint, and carries that endpoint's
    signature over the advertisement bound to this service, minute and shard. *)
Lemma verify_true_iff alpn minute shard now a :
  verify alpn minute shard now a = true ↔
  (now < expires_at a)%Z ∧ (published_at a ≤ expires_at a)%Z ∧
  (published_at a ≤ u64_saturating_add now MAX_FUTURE_SKEW_SECS)%Z ∧
  ∃ id message,
    endpoint_id a = Some id ∧
    signing_message alpn minute shard (ssa_ad a) = Ok message ∧
    verify_bytes id message (ssa_signature a) = true.
Proof.
  unfold verify. split.
  - destruct (_ || _) eqn:E; [done|]. breflect. intros Hv.
    do 3 (split; [lia|]).
    destruct (endpoint_id a) as [id|]; [|done].
    destruct (signing_message _ _ _ _) as [m|]; [|done]. eauto.
  - intros (He & Hp & Hs & id & m & -> & -> & Hv).
    rewrite (proj2 (Z.leb_gt _ _) He), (proj2 (Z.leb_le _ _) Hp), (proj2 (Z.leb_le _ _) Hs).
    done.
Qed.

Lemma sign_ad_inv sk alpn minute shard tags published expires a :
  sign_ad sk alpn minute shard tags published expires = Ok a →
  ∃ message,
    ssa_ad a = MkServiceAd (as_bytes (public sk)) tags published expires ∧
    signing_message alpn minute shard (ssa_ad a) = Ok message ∧
    ssa_signature a = sign_bytes sk message.
Proof.
  unfold sign_ad. destruct (signing_message _ _ _ _) as [m|] eqn:E; [|done].
  intros [= <-]. by exists m.
Qed.

Lemma sign_ad_verifies `{!IrohKeysLaws} sk alpn minute shard tags published expires now a :
  sign_ad sk alpn minute shard tags published expires = Ok a →
  (published ≤ expires)%Z → (now < expires)%Z →
  (published ≤ u64_saturating_add now MAX_FUTURE_SKEW_SECS)%Z →
  verify alpn minute shard now a = true ∧
  endpoint_id a = Some (public sk) ∧ published_at a = published ∧ expires_at a = expires.
Proof.
  intros (m & Had & Hm & Hs)%sign_ad_inv Hpe Hne Hps.
  assert (Hid : endpoint_id a = Some (public sk)).
  { unfold endpoint_id, node_id. rewrite Had. apply from_as_bytes. }
  rewrite verify_true_iff. unfold published_at, expires_at. rewrite Had at 1 2 3 4; simpl.
  repeat split; try done; [| by rewrite Had..].
  exists (public sk), m. rewrite Hs. auto using sign_verifies.
Qed.

(** An advertisement produced by [sign] verifies in the bucket it was
    signed for, at every time before it expires that is not too far behind
    its publication, and it advertises the signer. *)
Lemma sign_verify `{!IrohKeysLaws} sk alpn minute shard tags published expires now a :
  sign_ad sk alpn minute shard tags published expires = Ok a →
  (published ≤ expires)%Z → (now < expires)%Z →
  (published ≤ u64_saturating_add now MAX_FUTURE_SKEW_SECS)%Z →
  verify alpn minute shard now a = true ∧
  endpoint_id a = Some (public sk) ∧ published_at a = published ∧ expires_at a = expires.
Proof. apply sign_ad_verifies. Qed.

(** No replay across buckets: when a signature is accepted for one
    message only, an advertisement that verifies for two (service, minute,
    shard) triples has the same triple twice. *)
Lemma verify_namespace `{!PostcardLaws PcError ServiceAdEnvelope, !SignatureBinds}
  alpn minute shard now alpn' minute' shard' now' a :
  verify alpn minute shard now a = true →
  verify alpn' minute' shard' now' a = true →
  alpn = alpn' ∧ minute = minute' ∧ shard = shard'.
Proof.
  intros (_ & _ & _ & id & m & Hid & Hm & Hv)%verify_true_iff.
  intros (_ & _ & _ & id' & m' & Hid' & Hm' & Hv')%verify_true_iff.
  assert (id' = id) as -> by congruence.
  assert (m' = m) as -> by (eapply signature_binds; done).
  apply postcard_roundtrip in Hm, Hm'. rewrite Hm in Hm'. by injection Hm'.
Qed.
End VerifyFacts.

(** ** Merging replicas *)

Section MergeFacts.
Context `{!IrohKeys} {PcError : Type}.
Context `{!Postcard PcError ServiceAdEnvelope}.
Context (alpn : bytes) (minute shard now : Z).
Implicit Types (a b : SignedServiceAd) (m : gmap bytes SignedServiceAd).
Abbreviation verify := (verify alpn minute shard now).
Abbreviation merge_valid bs := (merge_valid bs alpn minute shard now).

(** The advertisements [merge_valid] chooses from. *)
Definition candidates (buckets : list ServiceBucket) : list SignedServiceAd :=
  filter (λ a, verify a = true)
    (bk ← filter (λ bk, sb_version bk = DHT_BUCKET_VERSION) buckets; sb_ads bk).

(** [m] holds, for each node of [seen], a first-ranked advertisement of it. *)
Definition merge_inv (seen : list SignedServiceAd) m : Prop :=
  (∀ id a, m !! id = Some a →
     a ∈ seen ∧ node_id a = id ∧
     ∀ b, b ∈ seen → node_id b = id → ord_le (ad_sort_key a) (ad_sort_key b) = true) ∧
  (∀ b, b ∈ seen → is_Some (m !! node_id b)).

Lemma merge_ad_inv seen m a :
  merge_inv seen m →
  merge_inv (seen ++ filter (λ a, verify a = true) [a]) (merge_ad alpn minute shard now m a).
Proof.
  intros [H1 H2]. unfold merge_ad. destruct (verify a) eqn:Hv; simpl.
  2: { rewrite filter_cons_False, filter_nil, app_nil_r by congruence. done. }
  rewrite filter_cons_True, filter_nil by done.
  destruct (m !! node_id a) as [e|] eqn:He; [destruct (ad_precedes a e) eqn:Hp|].
  - split.
    + intros id x. rewrite lookup_insert_Some. intros [[<- <-]|[Hne Hx]].
      * split_and!; [set_solver|done|]. intros b [Hb| ->]%elem_of_snoc E.
        -- apply ord_le_trans with (ad_sort_key e); [by apply ord_lt_le|].
           by eapply H1.
        -- apply ord_le_refl.
      * destruct (H1 _ _ Hx) as (? & ? & Hle). split_and!; [set_solver|done|].
        intros b [Hb| ->]%elem_of_snoc E; [by apply Hle | done].
    + intros b. rewrite lookup_insert_is_Some'.
      intros [Hb| ->]%elem_of_snoc; auto.
  - unfold ad_precedes in Hp. rewrite ord_lt_not_le in Hp. breflect. split.
    + intros id x Hx. destruct (H1 _ _ Hx) as (? & ? & Hle). split_and!; [set_solver|done|].
      intros b [Hb| ->]%elem_of_snoc E; [by apply Hle|].
      congruence.
    + intros b [Hb| ->]%elem_of_snoc; [auto | by rewrite He].
  - split.
    + intros id x. rewrite lookup_insert_Some. intros [[<- <-]|[Hne Hx]].
      * split_and!; [set_solver|done|]. intros b [Hb| ->]%elem_of_snoc E.
        -- destruct (H2 _ Hb) as [y Hy]. rewrite E, He in Hy. done.
        -- apply ord_le_refl.
      * destruct (H1 _ _ Hx) as (? & ? & Hle). split_and!; [set_solver|done|].
        intros b [Hb| ->]%elem_of_snoc E; [by apply Hle | done].
    + intros b. rewrite lookup_insert_is_Some'.
      intros [Hb| ->]%elem_of_snoc; auto.
Qed.

Lemma merge_ads_inv l seen m :
  merge_inv seen m →
  merge_inv (seen ++ filter (λ a, verify a = true) l)
    (fold_left (merge_ad alpn minute shard now) l m).
Proof.
  revert seen m. induction l as [|a l IH]; intros seen m Hm; simpl.
  { by rewrite filter_nil, app_nil_r. }
  apply (merge_ad_inv _ _ a), IH in Hm.
  rewrite <-app_assoc, <-filter_app in Hm. done.
Qed.

Lemma merge_buckets_inv buckets seen m :
  merge_inv seen m →
  merge_inv (seen ++ candidates buckets)
    (fold_left (merge_bucket alpn minute shard now) buckets m).
Proof.
  unfold candidates.
  revert seen m. induction buckets as [|b bs IH]; intros seen m Hm; simpl.
  { by rewrite !filter_nil, app_nil_r. }
  destruct (Z.eqb_spec (sb_version b) DHT_BUCKET_VERSION) as [Hv|Hv].
  - rewrite filter_cons_True by done. simpl. rewrite filter_app, app_assoc.
    apply IH. unfold merge_bucket. rewrite Hv. by apply merge_ads_inv.
  - rewrite filter_cons_False by done. apply IH. unfold merge_bucket.
    by rewrite (proj2 (Z.eqb_neq _ _) Hv).
Qed.

Lemma into_values_elem m a : a ∈ into_values m ↔ ∃ id, m !! id = Some a.
Proof.
  unfold into_values. rewrite list_elem_of_fmap.
  split.
  - intros [[k x] [-> Hx]]. rewrite elem_of_sort_by_key, elem_of_map_to_list in Hx. eauto.
  - intros [k Hk]. exists (k, a). by rewrite elem_of_sort_by_key, elem_of_map_to_list.
Qed.

Lemma into_values_node_ids m :
  (∀ id a, m !! id = Some a → node_id a = id) → NoDup (node_id <$> into_values m).
Proof.
  intros Hm. unfold into_values. rewrite sort_by_key_Permutation.
  rewrite <-list_fmap_compose.
  rewrite (list_fmap_ext _ fst); [apply NoDup_fst_map_to_list|].
  intros i [k x] Hx. simpl. apply Hm.
  by apply elem_of_map_to_list, list_elem_of_lookup_2 with i.
Qed.

Lemma merge_valid_inv buckets :
  merge_inv (candidates buckets) (fold_left (merge_bucket alpn minute shard now) buckets ∅).
Proof.
  apply (merge_buckets_inv buckets [] ∅). split; [intros ??; by rewrite lookup_empty | set_solver].
Qed.

Lemma merge_valid_facts buckets :
  let r := merge_valid buckets in
  NoDup (node_id <$> r) ∧ key_sorted ad_sort_key r ∧
  (∀ a, a ∈ r → a ∈ candidates buckets) ∧
  (∀ b, b ∈ candidates buckets → ∃ a, a ∈ r ∧ node_id a = node_id b) ∧
  (∀ a b, a ∈ r → b ∈ candidates buckets → node_id a = node_id b →
     ord_le (ad_sort_key a) (ad_sort_key b) = true).
Proof.
  destruct (merge_valid_inv buckets) as [H1 H2]. simpl. unfold ServiceRecord.merge_valid.
  split_and!.
  - rewrite sort_by_key_Permutation. apply into_values_node_ids.
    intros id a Ha. by apply H1.
  - apply sort_by_key_sorted.
  - intros a. rewrite elem_of_sort_by_key, into_values_elem. intros [id Hid]. by eapply H1.
  - intros b Hb. destruct (H2 _ Hb) as [a Ha]. exists a.
    rewrite elem_of_sort_by_key, into_values_elem. split; [eauto | by eapply H1].
  - intros a b. rewrite elem_of_sort_by_key, into_values_elem. intros [id Hid] Hb E.
    destruct (H1 _ _ Hid) as (_ & Hn & Hle). apply Hle; congruence.
Qed.

(** [merge_valid] returns exactly one advertisement per advertised node,
    in order of [ad_sort_key]; each is one of the valid advertisements of a
    current-version bucket, and none of its node's valid advertisements ranks
    before it. *)
Lemma merge_valid_spec buckets :
  let r := merge_valid buckets in
  NoDup (node_id <$> r) ∧ key_sorted ad_sort_key r ∧
  (∀ a, a ∈ r → a ∈ candidates buckets) ∧
  (∀ b, b ∈ candidates buckets → ∃ a, a ∈ r ∧ node_id a = node_id b) ∧
  (∀ a b, a ∈ r → b ∈ candidates buckets → node_id a = node_id b →
     ord_le (ad_sort_key a) (ad_sort_key b) = true).
Proof. apply merge_valid_facts. Qed.

Lemma merge_valid_keys_NoDup buckets : NoDup (ad_sort_key <$> merge_valid buckets).
Proof.
  destruct (merge_valid_facts buckets) as (Hnd & _).
  apply (NoDup_fmap_1 (λ k : AdSortKey, k.2.2)). rewrite <-list_fmap_compose. exact Hnd.
Qed.

Lemma merge_valid_keys_sub buckets buckets' :
  candidates buckets ≡ₚ candidates buckets' →
  ad_sort_key <$> merge_valid buckets ⊆ ad_sort_key <$> merge_valid buckets'.
Proof.
  intros Hp k (a & -> & Ha)%list_elem_of_fmap.
  destruct (merge_valid_facts buckets) as (_ & _ & Hin & Hall & Hmin).
  destruct (merge_valid_facts buckets') as (_ & _ & Hin' & Hall' & Hmin').
  pose proof (Hin _ Ha) as Hca. rewrite Hp in Hca.
  destruct (Hall' _ Hca) as (a' & Ha' & Hn).
  apply list_elem_of_fmap. exists a'. split; [|done].
  apply ord_le_antisym.
  - apply Hmin; [done| |done]. rewrite Hp. by apply Hin'.
  - by apply Hmin'.
Qed.

(** C27: the order in which the DHT returns the replicas does not matter:
    permuting them leaves the ranks (publication, expiry and node) of the
    merged advertisements, and their order, unchanged. *)
Theorem merge_valid_order_insensitive buckets buckets' :
  buckets ≡ₚ buckets' →
  ad_sort_key <$> merge_valid buckets = ad_sort_key <$> merge_valid buckets'.
Proof.
  intros Hp.
  assert (Hc : candidates buckets ≡ₚ candidates buckets').
  { unfold candidates. by rewrite Hp. }
  assert (Hs : ∀ bs, StronglySorted (λ k k' : AdSortKey, ord_le k k' = true)
                       (ad_sort_key <$> merge_valid bs)).
  { intros bs. eapply StronglySorted_fmap, sort_by_key_sorted. by intros x y Hxy. }
  apply (StronglySorted_unique_strong (λ k k' : AdSortKey, ord_le k k' = true));
    [intros; by apply ord_le_antisym | done..|].
  apply NoDup_Permutation; [apply merge_valid_keys_NoDup..|].
  intros k. split; apply merge_valid_keys_sub; done.
Qed.

Lemma candidates_singleton l :
  (∀ a, a ∈ l → verify a = true) → candidates [new_bucket l] = l.
Proof.
  intros Hl. unfold candidates. rewrite filter_cons_True by done. simpl.
  rewrite app_nil_r. by apply filter_all.
Qed.

Lemma candidates_valid buckets a : a ∈ candidates buckets → verify a = true.
Proof. unfold candidates. by rewrite list_elem_of_filter; intros []. Qed.

(** Merging is idempotent: a node that republishes what it merged gives
    the same advertisements back. *)
Lemma merge_valid_idempotent buckets :
  merge_valid [new_bucket (merge_valid buckets)] = merge_valid buckets.
Proof.
  destruct (merge_valid_facts buckets) as (Hnd & Hs & Hin & _).
  set (r := merge_valid buckets) in *.
  assert (Hc : candidates [new_bucket r] = r).
  { apply candidates_singleton. intros a Ha. by apply (candidates_valid buckets), Hin. }
  destruct (merge_valid_facts [new_bucket r]) as (Hnd' & Hs' & Hin' & Hall' & _).
  rewrite Hc in *.
  apply (StronglySorted_unique_strong (key_le ad_sort_key)); [|done..|].
  - intros x y Hx%Hin' Hy Hxy Hyx. apply (NoDup_fmap_inj_on node_id r); [done..|].
    by pose proof (ord_le_antisym _ _ Hxy Hyx) as [=].
  - apply NoDup_Permutation; [by apply (NoDup_fmap_1 node_id)..|].
    intros a. split; [apply Hin'|]. intros Ha. destruct (Hall' _ Ha) as (b & Hb & E).
    by rewrite <-(NoDup_fmap_inj_on node_id r b a Hnd (Hin' _ Hb) Ha E).
Qed.
End MergeFacts.

(** ** Insertion *)

Section UpsertFacts.
Context `{!IrohKeys}.
Implicit Types (a e r : SignedServiceAd) (b : ServiceBucket).

(** The three cases of [upsert]. *)
Lemma upsert_cases a b :
  (Forall (λ e, node_id e ≠ node_id a) (sb_ads b) ∧
   sb_ads (upsert a b) = sb_ads b ++ [a]) ∨
  (∃ l1 e l2, sb_ads b = l1 ++ e :: l2 ∧ node_id e = node_id a ∧
     ord_lt (ad_sort_key a) (ad_sort_key e) = true ∧ sb_ads (upsert a b) = l1 ++ a :: l2) ∨
  (∃ e, e ∈ sb_ads b ∧ node_id e = node_id a ∧
     ord_le (ad_sort_key e) (ad_sort_key a) = true ∧ upsert a b = b).
Proof.
  unfold upsert.
  destruct (list_find _ (sb_ads b)) as [[i e]|] eqn:Hf.
  2: { left. by apply list_find_None in Hf. }
  right. apply list_find_Some in Hf as (Hi & He & _).
  unfold ad_precedes. destruct (ord_lt _ _) eqn:Hlt.
  - left. exists (take i (sb_ads b)), e, (drop (S i) (sb_ads b)).
    split_and!; [by rewrite take_drop_middle | done..|].
    simpl. apply insert_take_drop. by eapply lookup_lt_Some.
  - right. exists e. rewrite ord_lt_not_le in Hlt. breflect.
    split_and!; [by eapply list_elem_of_lookup_2 | done..].
Qed.

Lemma upsert_version a b : sb_version (upsert a b) = sb_version b.
Proof. unfold upsert. by repeat case_match. Qed.

Lemma upsert_node_ids a b :
  NoDup (node_id <$> sb_ads b) → NoDup (node_id <$> sb_ads (upsert a b)).
Proof.
  intros Hnd. destruct (upsert_cases a b) as
    [[Ha ->]|[(l1 & e & l2 & Hb & He & _ & ->)|(e & _ & _ & _ & ->)]]; [..|done].
  - rewrite fmap_app. apply NoDup_app. split_and!; [done| |apply NoDup_singleton].
    intros n (e & -> & He)%list_elem_of_fmap. rewrite Forall_forall in Ha.
    simpl. rewrite list_elem_of_singleton. by apply Ha.
  - rewrite Hb in Hnd. rewrite fmap_app, fmap_cons in *. by rewrite He in Hnd.
Qed.

Lemma upsert_other a b e :
  node_id e ≠ node_id a → e ∈ sb_ads (upsert a b) ↔ e ∈ sb_ads b.
Proof.
  intros Hne. destruct (upsert_cases a b) as
    [[Ha ->]|[(l1 & e' & l2 & -> & He & _ & ->)|(e' & _ & _ & _ & ->)]]; [..|done].
  - rewrite elem_of_snoc. naive_solver.
  - rewrite !elem_of_app, !elem_of_cons. naive_solver.
Qed.

Lemma upsert_own a b :
  NoDup (node_id <$> sb_ads b) →
  ∃ r, r ∈ sb_ads (upsert a b) ∧ node_id r = node_id a ∧ (r = a ∨ r ∈ sb_ads b) ∧
    ord_le (ad_sort_key r) (ad_sort_key a) = true ∧
    ∀ e, e ∈ sb_ads b → node_id e = node_id a →
      ord_le (ad_sort_key r) (ad_sort_key e) = true.
Proof.
  intros Hnd. destruct (upsert_cases a b) as
    [[Ha ->]|[(l1 & e & l2 & Hb & He & Hlt & ->)|(e & Hin & He & Hle & ->)]].
  - exists a. rewrite elem_of_snoc. split_and!; auto with iroh.
    rewrite Forall_forall in Ha. intros e Hin E. by destruct (Ha e Hin).
  - exists a. rewrite Hb in *. split_and!; auto with iroh; [set_solver|].
    intros e' Hin E. rewrite (NoDup_fmap_inj_on node_id _ e' e Hnd); auto with iroh;
      [set_solver | congruence].
  - exists e. split_and!; auto. intros e' Hin' E.
    rewrite (NoDup_fmap_inj_on node_id _ e' e Hnd); auto with iroh; congruence.
Qed.

(** [upsert] keeps one advertisement per node, leaves those of every other
    node alone, and for the inserted node keeps whichever of the old and the
    new advertisement ranks first. *)
Lemma upsert_spec a b :
  NoDup (node_id <$> sb_ads b) →
  NoDup (node_id <$> sb_ads (upsert a b)) ∧
  (∀ e, node_id e ≠ node_id a → e ∈ sb_ads (upsert a b) ↔ e ∈ sb_ads b) ∧
  ∃ r, r ∈ sb_ads (upsert a b) ∧ node_id r = node_id a ∧ (r = a ∨ r ∈ sb_ads b) ∧
    ord_le (ad_sort_key r) (ad_sort_key a) = true ∧
    ∀ e, e ∈ sb_ads b → node_id e = node_id a →
      ord_le (ad_sort_key r) (ad_sort_key e) = true.
Proof.
  intros Hnd. split_and!; [by apply upsert_node_ids | by apply upsert_other | by apply upsert_own].
Qed.
End UpsertFacts.

(** ** Trimming *)

Section TrimFacts.
Context `{!IrohKeys} {PcError : Type}.
Context `{!Postcard PcError ServiceBucket}.
Implicit Types (ads P N : list SignedServiceAd) (b : ServiceBucket).
Abbreviation len v l := (encoded_len (MkServiceBucket v l)).

(** The value is at most, or exceeds, [DHT_MAX_BUCKET_BYTES]. *)
Definition fits (v : Z) ads : Prop :=
  ∃ n, len v ads = Ok n ∧ (n ≤ DHT_MAX_BUCKET_BYTES)%Z.
Definition too_big (v : Z) ads : Prop :=
  ∃ n, len v ads = Ok n ∧ (DHT_MAX_BUCKET_BYTES < n)%Z.

(** The loop's equation, with the source's control flow. *)
Lemma trim_loop_step v p ads :
  trim_loop v p ads =
  match len v ads with
  | Err e => (Err e, ads)
  | Ok n =>
      if (n <=? DHT_MAX_BUCKET_BYTES)%Z then (Ok true, ads)
      else match rposition (not_preferred p) ads with
           | Some i => trim_loop v p (delete i ads)
           | None => (Ok false, ads)
           end
  end.
Proof.
  rewrite trim_loop_equation_1. destruct (len v ads) as [n|e] eqn:Hlen; [|done]. simpl.
  destruct (n <=? DHT_MAX_BUCKET_BYTES)%Z eqn:Hn; [done|]. simpl.
  destruct (rposition (not_preferred p) ads); [done|].
  rewrite Hlen. simpl. by rewrite Hn.
Qed.

Lemma trim_loop_split v p P N :
  Forall (λ a, not_preferred p a = false) P →
  Forall (λ a, not_preferred p a = true) N →
  ∃ k, k ≤ length N ∧ (trim_loop v p (P ++ N)).2 = P ++ take k N ∧
    (∀ j, k < j ≤ length N → too_big v (P ++ take j N)) ∧
    match (trim_loop v p (P ++ N)).1 with
    | Ok true => fits v (P ++ take k N)
    | Ok false => k = 0 ∧ too_big v P
    | Err e => len v (P ++ take k N) = Err e
    end.
Proof.
  intros HP. induction N as [|x N IH] using rev_ind; intros HN.
  - exists 0. rewrite app_nil_r in *. simpl. rewrite app_nil_r.
    split; [done|]. rewrite trim_loop_step.
    destruct (len v P) as [n|e] eqn:Hlen; simpl; [|split_and!; [done|lia|done]].
    destruct (Z.leb_spec n DHT_MAX_BUCKET_BYTES); simpl.
    { split_and!; [done|lia|]. exists n. auto. }
    rewrite (proj2 (rposition_None _ _) HP). simpl. split_and!; [done|lia|done|]. exists n. auto.
  - apply Forall_app in HN as [HN Hx]. apply Forall_cons in Hx as [Hx _].
    rewrite app_assoc, trim_loop_step.
    destruct (len v ((P ++ N) ++ [x])) as [n|e] eqn:Hlen.
    2: { exists (length (N ++ [x])). simpl. rewrite firstn_all, app_assoc.
         split_and!; [done|done|lia|done]. }
    simpl. destruct (Z.leb_spec n DHT_MAX_BUCKET_BYTES) as [Hn|Hn]; simpl.
    { exists (length (N ++ [x])). rewrite firstn_all, app_assoc.
      split_and!; [done|done|lia|]. exists n. auto. }
    rewrite rposition_snoc, delete_middle by done. rewrite app_nil_r.
    destruct (IH HN) as (k & Hk & -> & Hbig & Hr). exists k.
    rewrite length_app; simpl. rewrite take_app_le by done.
    split_and!; [lia|done| |done]. intros j Hj.
    destruct (decide (j ≤ length N)).
    + rewrite take_app_le by done. apply Hbig. lia.
    + rewrite take_ge by (rewrite length_app; simpl; lia).
      rewrite app_assoc. exists n. auto.
Qed.

(** The sort puts the preferred advertisements first. *)
Lemma preferred_sorted_split p ads :
  let sorted := sort_by_key (preferred_ad_sort_key p) ads in
  sorted = filter (λ a, not_preferred p a = false) sorted ++
           filter (λ a, not_preferred p a = true) sorted.
Proof.
  intros sorted.
  apply (key_sorted_partition (preferred_ad_sort_key p)); [|apply sort_by_key_sorted].
  intros x y. unfold key_le, ord_le, preferred_ad_sort_key, not_preferred.
  rewrite prod_cmp_unfold; simpl. rewrite !bool_decide_eq_true.
  destruct p as [n|]; [|done].
  do 2 case_bool_decide; simpl; try done; congruence.
Qed.

Lemma trim_to_size_facts p b :
  let sorted := sort_by_key (preferred_ad_sort_key p) (sb_ads b) in
  let preferred := filter (λ a, not_preferred p a = false) sorted in
  let '(r, b') := trim_to_size p b in
  sb_version b' = sb_version b ∧
  ∃ n, length preferred ≤ n ≤ length sorted ∧ sb_ads b' = take n sorted ∧
    preferred = take (length preferred) sorted ∧
    (∀ j, n < j ≤ length sorted → too_big (sb_version b) (take j sorted)) ∧
    match r with
    | Ok true => fits (sb_version b) (sb_ads b')
    | Ok false => sb_ads b' = preferred ∧ too_big (sb_version b) preferred
    | Err e => encoded_len b' = Err e
    end.
Proof.
  intros sorted preferred. unfold trim_to_size. fold sorted.
  pose proof (preferred_sorted_split p (sb_ads b)) as Hs. simpl in Hs. fold sorted in Hs.
  fold preferred in Hs. set (others := filter (λ a, not_preferred p a = true) sorted) in Hs.
  destruct (trim_loop_split (sb_version b) p preferred others) as (k & Hk & Hads & Hbig & Hr).
  { apply Forall_forall. intros a [Ha _]%list_elem_of_filter. done. }
  { apply Forall_forall. intros a [Ha _]%list_elem_of_filter. done. }
  rewrite <-Hs in Hads, Hr. destruct (trim_loop _ _ _) as [r ads]. simpl in *. subst ads.
  assert (Htake : ∀ j, take (length preferred + j) sorted = preferred ++ take j others).
  { intros j. rewrite Hs. apply take_app_add. }
  split; [done|]. exists (length preferred + k).
  assert (length sorted = length preferred + length others) as Hlen.
  { by rewrite Hs, length_app at 1. }
  split_and!; [lia|lia|by rewrite Htake| | |].
  - pose proof (Htake 0) as H0. by rewrite Nat.add_0_r, take_0, app_nil_r in H0.
  - intros j Hj. replace j with (length preferred + (j - length preferred)) by lia.
    rewrite Htake. apply Hbig. lia.
  - destruct r as [[]|e]; [done| |done]. destruct Hr as [-> Hr]. by rewrite take_0, app_nil_r.
Qed.
(** C28: [trim_to_size] orders the bucket, keeps every advertisement of the
    preferred node and drops the others from the end until the value fits:
    what is left is the longest such prefix that fits.  It answers [false]
    only when the preferred advertisements alone are still too big, and
    reports a serialisation error as one. *)
Theorem trim_to_size_spec p b :
  let sorted := sort_by_key (preferred_ad_sort_key p) (sb_ads b) in
  let preferred := filter (λ a, not_preferred p a = false) sorted in
  let '(r, b') := trim_to_size p b in
  sb_version b' = sb_version b ∧
  ∃ n, length preferred ≤ n ≤ length sorted ∧ sb_ads b' = take n sorted ∧
    preferred = take (length preferred) sorted ∧
    (∀ j, n < j ≤ length sorted → too_big (sb_version b) (take j sorted)) ∧
    match r with
    | Ok true => fits (sb_version b) (sb_ads b')
    | Ok false => sb_ads b' = preferred ∧ too_big (sb_version b) preferred
    | Err e => encoded_len b' = Err e
    end.
Proof. apply trim_to_size_facts. Qed.
End TrimFacts.

(** ** Concrete inputs *)

Module RecordDemo.
Import Demo.

#[export] Instance envelope_codec : Codec ServiceAdEnvelope :=
  iso_codec
    (λ e, (env_version e, (env_alpn e, (env_minute e, (env_shard e, (env_node_id e,
           (env_tags e, (env_published_at e, env_expires_at e))))))))
    (λ '(v, (al, (mi, (sh, (n, (t, (p, x))))))), MkServiceAdEnvelope v al mi sh n t p x)
    (λ e, match e with MkServiceAdEnvelope _ _ _ _ _ _ _ _ => eq_refl end).

#[export] Instance service_ad_codec : Codec ServiceAd :=
  iso_codec (λ a, (sa_node_id a, (sa_tags a, (sa_published_at a, sa_expires_at a))))
    (λ '(n, (t, (p, x))), MkServiceAd n t p x)
    (λ a, match a with MkServiceAd _ _ _ _ => eq_refl end).

#[export] Instance signed_ad_codec : Codec SignedServiceAd :=
  iso_codec (λ a, (ssa_ad a, (ssa_signature a : bytes * bytes)))
    (λ '(a, s), MkSignedServiceAd a s)
    (λ a, match a with MkSignedServiceAd _ _ => eq_refl end).

#[export] Instance bucket_codec : Codec ServiceBucket :=
  iso_codec (λ b, (sb_version b, sb_ads b)) (λ '(v, l), MkServiceBucket v l)
    (λ b, match b with MkServiceBucket _ _ => eq_refl end).

Definition svc : bytes := string_bytes "/svc.Test/1.0".

Definition demo_sk (n : byte) : @SecretKey keys := ([n] : bytes).

(** An advertisement of node [n], published at [p] for 120 seconds. *)
Definition demo_ad (n : byte) (tags : list string) (p : Z) : SignedServiceAd :=
  match sign_ad (PcError := unit) (demo_sk n) svc 55 2 tags p (p + 120) with
  | Ok a => a
  | Err _ => MkSignedServiceAd (MkServiceAd [] [] 0 0) (([], []) : bytes * bytes)
  end.
Definition older : SignedServiceAd := demo_ad x09 ["old"%string] 100.
Definition newer : SignedServiceAd := demo_ad x09 [] 200.
Definition other : SignedServiceAd := demo_ad x03 [] 150.

Example merge_prefers_newer :
  merge_valid (PcError := unit) [new_bucket [older; other]; new_bucket [newer]] svc 55 2 210
  = [newer; other].
Proof. vm_compute. reflexivity. Qed.

(** Fifteen advertisements do not fit; the preferred one is kept. *)
Example trim_keeps_preferred :
  let b := new_bucket (older :: (demo_ad x01 [] <$> (Z.of_nat <$> seq 1000 15))) in
  let '(r, b') := trim_to_size (PcError := unit) (Some [x09]) b in
  r = Ok true ∧ length (sb_ads b') = 12 ∧ head (sb_ads b') = Some older.
Proof. vm_compute. auto. Qed.

Lemma merge_valid_order_insensitive_witness :
  ad_sort_key <$> merge_valid (PcError := unit) [new_bucket [older]; new_bucket [newer]] svc 55 2 210
  = ad_sort_key <$> merge_valid (PcError := unit) [new_bucket [newer]; new_bucket [older]] svc 55 2 210.
Proof. apply merge_valid_order_insensitive. apply Permutation_swap. Defined.

End RecordDemo.
