(* ===== verification/DhtShards.v ===== *)
(** * Shard selection and key derivation

    Models [src/swarm/dht/mod.rs]: the derived shard keys and salts, the
    choice of the shards a node publishes into, and minute arithmetic. *)
From S2P Require Import Prelude Ords Iroh.

Definition DHT_SHARD_COUNT : Z := 16.
Definition DHT_REPLICA_COUNT : nat := 2.
Definition DHT_PUBLISH_RETRIES : nat := 4.
Definition DHT_AD_TTL_SECS : Z := 120.
Definition DHT_QUERY_CONCURRENCY : nat := 4.

(** ** Derivation *)

(** The bytes fed to the hasher by the successive [update] calls. *)
Definition key_preimage (alpn : bytes) (unix_minute shard : Z) : bytes :=
  string_bytes "tonic-iroh-transport:dht:key:v2:" ++ alpn ++
  u64_to_le_bytes unix_minute ++ [byte_of_Z shard].

Definition salt_preimage (alpn : bytes) (unix_minute shard : Z) : bytes :=
  string_bytes "tonic-iroh-transport:dht:salt:v2:" ++ alpn ++
  u64_to_le_bytes unix_minute ++ [byte_of_Z shard].

Definition shard_preimage (node_id alpn : bytes) (shard : Z) : bytes :=
  string_bytes "tonic-iroh-transport:dht:shards:v3:" ++ node_id ++ alpn ++ [byte_of_Z shard].

Section Derive.
Context `{!Sha256, !Mainline}.

Definition derive_signing_key (alpn : bytes) (unix_minute shard : Z) : SigningKey :=
  signing_key_from_bytes (sha256 (key_preimage alpn unix_minute shard)).

Definition derive_salt (alpn : bytes) (unix_minute shard : Z) : bytes :=
  sha256 (salt_preimage alpn unix_minute shard).

(** [sort_by(hash, then shard)] is the order of the pairs. *)
Definition ranked_shards (node_id alpn : bytes) (shard_count : Z) : list (bytes * Z) :=
  sort_by_key (λ p : bytes * Z, p)
    ((λ shard, (sha256 (shard_preimage node_id alpn shard), shard)) <$> range 0 shard_count).

Definition replica_shards_with_limits (node_id alpn : bytes) (shard_count : Z)
  (replica_count : nat) : list Z :=
  let replica_count := Nat.min replica_count (Z.to_nat shard_count) in
  (take replica_count (ranked_shards node_id alpn shard_count)).*2.

Definition replica_shards (node_id alpn : bytes) : list Z :=
  replica_shards_with_limits node_id alpn DHT_SHARD_COUNT DHT_REPLICA_COUNT.
End Derive.

(** ** Minutes *)

Definition apply_minute_offset (minute offset : Z) : Z :=
  if (0 <=? offset)%Z
  then u64_saturating_add minute (i64_unsigned_abs offset)
  else u64_saturating_sub minute (i64_unsigned_abs offset).

(** [now] is the system time in seconds since the epoch, [None] before it:
    the [unwrap] then panics. *)
Definition unix_minute (now : option Z) (offset : Z) : option Z :=
  (λ secs, apply_minute_offset (secs / 60) offset) <$> now.

(** ** Theorems *)

Lemma preimage_tail_inj alpn m s alpn' m' s' :
  is_u64 m → is_u64 m' → is_u8 s → is_u8 s' →
  alpn ++ u64_to_le_bytes m ++ [byte_of_Z s] =
  alpn' ++ u64_to_le_bytes m' ++ [byte_of_Z s'] →
  alpn = alpn' ∧ m = m' ∧ s = s'.
Proof.
  intros Hm Hm' Hs Hs' E.
  apply app_inj_suffix in E as [-> E]; [|by rewrite !length_app, !length_u64_to_le_bytes].
  apply app_inj_suffix in E as [E Eb]; [|done].
  injection Eb as Eb. auto using u64_to_le_bytes_inj, byte_of_Z_inj.
Qed.

(** The shard buckets of distinct (service, minute, shard) triples are
    derived from distinct hash inputs, for the key and for the salt alike;
    and no input of one purpose (key, salt, shard choice) is an input of
    another. *)
Lemma preimages_separate alpn m s alpn' m' s' node alpn'' s'' :
  is_u64 m → is_u64 m' → is_u8 s → is_u8 s' →
  (key_preimage alpn m s = key_preimage alpn' m' s' → alpn = alpn' ∧ m = m' ∧ s = s') ∧
  (salt_preimage alpn m s = salt_preimage alpn' m' s' → alpn = alpn' ∧ m = m' ∧ s = s') ∧
  key_preimage alpn m s ≠ salt_preimage alpn' m' s' ∧
  key_preimage alpn m s ≠ shard_preimage node alpn'' s'' ∧
  salt_preimage alpn m s ≠ shard_preimage node alpn'' s''.
Proof.
  intros Hm Hm' Hs Hs'. split_and!; try discriminate.
  - intros E%app_inv_head. by apply preimage_tail_inj.
  - intros E%app_inv_head. by apply preimage_tail_inj.
Qed.

Section DeriveFacts.
Context `{!Sha256}.

Lemma ranked_shards_Permutation node alpn count :
  (ranked_shards node alpn count).*2 ≡ₚ range 0 count.
Proof.
  unfold ranked_shards. rewrite sort_by_key_Permutation, <-list_fmap_compose.
  by rewrite list_fmap_id.
Qed.

Lemma ranked_shards_elem node alpn count h s :
  (h, s) ∈ ranked_shards node alpn count ↔
  h = sha256 (shard_preimage node alpn s) ∧ (0 ≤ s < count)%Z.
Proof.
  unfold ranked_shards. rewrite elem_of_sort_by_key, list_elem_of_fmap.
  setoid_rewrite elem_of_seqZ. split.
  - intros (s' & [= -> ->] & ?). split; [done | lia].
  - intros [-> ?]. exists s. split; [done | lia].
Qed.

Lemma replica_shards_range node alpn s :
  s ∈ replica_shards node alpn → (0 ≤ s < DHT_SHARD_COUNT)%Z.
Proof.
  unfold replica_shards, replica_shards_with_limits.
  intros ([h s'] & -> & Hp)%list_elem_of_fmap.
  eapply elem_of_sublist in Hp; [|apply sublist_take].
  by apply ranked_shards_elem in Hp as [_ ?].
Qed.

(** A node publishes a service into [min(replica_count, shard_count)]
    distinct shards, all in range, and they are the ones whose (hash, index)
    ranks lowest: every shard left out ranks after every shard chosen. *)
Lemma replica_shards_spec node alpn count replicas :
  let chosen := replica_shards_with_limits node alpn count replicas in
  let rank s := (sha256 (shard_preimage node alpn s), s) in
  length chosen = Nat.min replicas (Z.to_nat count) ∧
  NoDup chosen ∧
  (∀ s, s ∈ chosen → (0 ≤ s < count)%Z) ∧
  (∀ s t, s ∈ chosen → (0 ≤ t < count)%Z → t ∉ chosen → ord_le (rank s) (rank t) = true).
Proof.
  intros chosen rank. subst chosen. unfold replica_shards_with_limits.
  set (n := Nat.min _ _). set (l := ranked_shards node alpn count).
  assert (Hlen : length l = Z.to_nat count).
  { rewrite <-(length_fmap snd). unfold l. rewrite ranked_shards_Permutation.
    unfold range. rewrite length_seqZ. lia. }
  assert (Hrank : ∀ p, p ∈ l → p = rank p.2 ∧ (0 ≤ p.2 < count)%Z).
  { intros [h s] [-> ?]%ranked_shards_elem. done. }
  split_and!.
  - rewrite length_fmap, length_take. lia.
  - rewrite fmap_take. eapply sublist_NoDup; [|apply sublist_take].
    unfold l. rewrite ranked_shards_Permutation. apply NoDup_seqZ.
  - intros s (p & -> & Hp)%list_elem_of_fmap. apply Hrank.
    eapply elem_of_sublist; [exact Hp | apply sublist_take].
  - intros s t (p & -> & Hp)%list_elem_of_fmap Ht Hnt.
    assert (Htl : rank t ∈ l) by by apply ranked_shards_elem.
    rewrite <-(take_drop n l) in Htl. apply elem_of_app in Htl as [Htl|Htl].
    { destruct Hnt. apply list_elem_of_fmap. by exists (rank t). }
    assert (Hpl : p ∈ l) by (eapply elem_of_sublist; [exact Hp | apply sublist_take]).
    destruct (Hrank p Hpl) as [<- _].
    pose proof (sort_by_key_sorted (λ p : bytes * Z, p)
      ((λ shard, (sha256 (shard_preimage node alpn shard), shard)) <$> range 0 count)) as Hs.
    fold (ranked_shards node alpn count) in Hs. fold l in Hs. unfold key_sorted in Hs.
    rewrite <-(take_drop n l) in Hs. by eapply StronglySorted_app_1_elem_of in Hs.
Qed.
End DeriveFacts.

Lemma apply_minute_offset_range minute offset :
  is_u64 minute → is_u64 (apply_minute_offset minute offset).
Proof.
  unfold apply_minute_offset, is_u64, u64_saturating_add, u64_saturating_sub,
    i64_unsigned_abs, u64_max. destruct (0 <=? offset)%Z eqn:E; breflect; lia.
Qed.

(** A minute offset never leaves the [u64] range: it is the exact sum
    whenever that is a [u64] and saturates at the nearest bound otherwise. *)
Lemma apply_minute_offset_spec minute offset :
  is_u64 minute → is_i64 offset →
  apply_minute_offset minute offset = Z.max 0 (Z.min u64_max (minute + offset)) ∧
  is_u64 (apply_minute_offset minute offset).
Proof.
  intros Hm Ho. split; [|by apply apply_minute_offset_range].
  unfold apply_minute_offset, is_u64, u64_saturating_add, u64_saturating_sub,
    i64_unsigned_abs, u64_max in *. destruct (0 <=? offset)%Z eqn:E; breflect; lia.
Qed.

Lemma minute_window t t' :
  (0 ≤ t ≤ t')%Z → (t' ≤ t + 60)%Z → (t' ≤ u64_max)%Z →
  (t / 60 = apply_minute_offset (t' / 60) 0 ∨ t / 60 = apply_minute_offset (t' / 60) (-1))%Z.
Proof.
  unfold u64_max. intros Ht Ht' Hm.
  unfold apply_minute_offset, u64_saturating_add, u64_saturating_sub, i64_unsigned_abs, u64_max.
  simpl. pose proof (Z.div_mod t 60). pose proof (Z.mod_pos_bound t 60).
  pose proof (Z.div_mod t' 60). pose proof (Z.mod_pos_bound t' 60). lia.
Qed.

(** The two minutes a resolver queries first (the current one and the
    one before) cover every publication of the last sixty seconds, across a
    minute boundary too, and such an advertisement has not expired. *)
Lemma burst_covers_last_minute t t' :
  (0 ≤ t ≤ t')%Z → (t' ≤ t + 60)%Z → (t' + DHT_AD_TTL_SECS ≤ u64_max)%Z →
  (∃ offset, (offset = 0 ∨ offset = -1)%Z ∧ unix_minute (Some t') offset = Some (t / 60)%Z) ∧
  (t' < u64_saturating_add t DHT_AD_TTL_SECS)%Z.
Proof.
  unfold unix_minute, DHT_AD_TTL_SECS, u64_saturating_add. intros Ht Ht' Hm. split; [|lia].
  destruct (minute_window t t') as [H|H]; [lia..| |].
  - exists 0%Z. rewrite H. auto.
  - exists (-1)%Z. rewrite H. auto.
Qed.

(** ** Concrete inputs *)

Module ShardsDemo.
Import Demo.

Example replica_shards_demo :
  length (replica_shards [x2a] (string_bytes "/test.Service/1.0")) = 2.
Proof. vm_compute. reflexivity. Qed.
End ShardsDemo.
