(* ===== verification/DhtPublish.v ===== *)
(** * Publishing to and resolving from the DHT

    Models [src/swarm/dht/publisher.rs] and [src/swarm/dht/resolver.rs].  The
    DHT itself is an environment: what one [get_mutable] returns and how one
    [put_mutable] ends, possibly different at every attempt. *)
From S2P Require Import Prelude Ords Iroh ServiceRecord DhtShards.

Inductive PutResult :=
  | PutOk
  | PutConcurrency    (** [PutMutableError::Concurrency] *)
  | PutQuery          (** [PutMutableError::Query] *)
  | PutPanicked.      (** the [spawn_blocking] task failed *)

Inductive PublishError (PcError : Type) :=
  | ClockBeforeEpoch
  | SignServiceAd (e : PcError)
  | SerializeBucket (e : PcError)
  | AdExceedsBucket
  | SerializeTrimmed (e : PcError)
  | PublishTaskPanicked
  | PutMutableShard
  | ShardContended.
Arguments ClockBeforeEpoch {PcError}.
Arguments SignServiceAd {PcError} e.
Arguments SerializeBucket {PcError} e.
Arguments AdExceedsBucket {PcError}.
Arguments SerializeTrimmed {PcError} e.
Arguments PublishTaskPanicked {PcError}.
Arguments PutMutableShard {PcError}.
Arguments ShardContended {PcError}.

(** [DhtPublisherConfig]; the interval in seconds. *)
Record DhtPublisherConfig := { cfg_tags : list string; cfg_publish_interval : Z }.
Definition DhtPublisherConfig_default : DhtPublisherConfig :=
  {| cfg_tags := []; cfg_publish_interval := 30 |}.

(** [unix_timestamp_secs], of a clock that shows [nanos] since the epoch; before
    it there is no timestamp. *)
Definition unix_timestamp_secs (nanos : Z) : option Z :=
  if (0 <=? nanos)%Z then Some (nanos `div` 1000000000)%Z else None.

(** What the [select!] of [run] can wake up for. *)
Inductive RunEvent := Tick | ShutdownSignal.

Section Publish.
Context `{!IrohKeys, !Sha256, !Mainline} {PcError : Type}.
Context `{!Postcard PcError ServiceAdEnvelope, !Postcard PcError ServiceBucket}.
(** Whether the build panics on arithmetic overflow (debug) or wraps. *)
Context (overflow_checks : bool).

Record DhtEnv := {
  (** [None]: the read task panicked. *)
  get_mutable : bytes → option bytes → option (list MutableItem);
  put_mutable : MutableItem → option Z → PutResult;
}.

Definition decode_buckets (items : list MutableItem) : list ServiceBucket :=
  omap (λ item, pc_from_bytes (item_value item)) items.

Definition read_shard_state (env : DhtEnv) (alpn : bytes) (minute shard now : Z)
  : list SignedServiceAd * option Z :=
  let public_key := verifying_key (derive_signing_key alpn minute shard) in
  let salt := derive_salt alpn minute shard in
  match get_mutable env public_key (Some salt) with
  | None => ([], None)
  | Some items =>
      (merge_valid (decode_buckets items) alpn minute shard now, iter_max (item_seq <$> items))
  end.

(** [latest_seq.map_or(1, |seq| seq + 1)] on [i64]; [None] is a panic. *)
Definition next_seq (latest : option Z) : option Z :=
  match latest with
  | None => Some 1%Z
  | Some seq =>
      if (seq + 1 <=? i64_max)%Z then Some (seq + 1)%Z
      else if overflow_checks then None else Some (i64_wrap (seq + 1))
  end.

Inductive Attempt :=
  | AttemptReturn (r : Result (PublishError PcError) unit)
  | AttemptRetry
  | AttemptPanic.

(** One iteration of the publish loop, with the items it put. *)
Definition publish_attempt (env : DhtEnv) (alpn : bytes) (minute shard published : Z)
  (local_ad : SignedServiceAd) : Attempt * list MutableItem :=
  let '(ads, latest_seq) := read_shard_state env alpn minute shard published in
  let bucket := upsert local_ad (new_bucket ads) in
  let '(fit, bucket) := trim_to_size (Some (node_id local_ad)) bucket in
  match fit with
  | Err e => (AttemptReturn (Err (SerializeBucket e)), [])
  | Ok false => (AttemptReturn (Err AdExceedsBucket), [])
  | Ok true =>
      match to_allocvec bucket with
      | Err e => (AttemptReturn (Err (SerializeTrimmed e)), [])
      | Ok value =>
          match next_seq latest_seq with
          | None => (AttemptPanic, [])
          | Some seq =>
              let item := item_new (derive_signing_key alpn minute shard) value seq
                            (Some (derive_salt alpn minute shard)) in
              let a := match put_mutable env item latest_seq with
                       | PutOk => AttemptReturn (Ok tt)
                       | PutConcurrency => AttemptRetry
                       | PutQuery => AttemptReturn (Err PutMutableShard)
                       | PutPanicked => AttemptReturn (Err PublishTaskPanicked)
                       end in
              (a, [item])
          end
      end
  end.

(** [for attempt in 0..DHT_PUBLISH_RETRIES]; [None] is a panic. *)
Fixpoint publish_loop (envs : nat → DhtEnv) (alpn : bytes) (minute shard published : Z)
  (local_ad : SignedServiceAd) (attempt remaining : nat)
  : option (Result (PublishError PcError) unit) * list MutableItem :=
  match remaining with
  | O => (Some (Err ShardContended), [])
  | S remaining =>
      let '(a, puts) := publish_attempt (envs attempt) alpn minute shard published local_ad in
      match a with
      | AttemptReturn r => (Some r, puts)
      | AttemptPanic => (None, puts)
      | AttemptRetry =>
          let '(r, puts') :=
            publish_loop envs alpn minute shard published local_ad (S attempt) remaining in
          (r, puts ++ puts')
      end
  end.

Definition publish_shard (now : option Z) (envs : nat → DhtEnv) (sk : SecretKey)
  (alpn : bytes) (shard : Z) (tags : list string)
  : option (Result (PublishError PcError) unit) * list MutableItem :=
  match now with
  | None => (Some (Err ClockBeforeEpoch), [])
  | Some published =>
      let minute := (published / 60)%Z in
      let expires := u64_saturating_add published DHT_AD_TTL_SECS in
      match sign_ad sk alpn minute shard tags published expires with
      | Err e => (Some (Err (SignServiceAd e)), [])
      | Ok local_ad =>
          publish_loop envs alpn minute shard published local_ad 0 DHT_PUBLISH_RETRIES
      end
  end.

(** The shards [publish_all] visits, in order; a failed one does not stop it. *)
Definition publish_targets (services : list bytes) (sk : SecretKey) : list (bytes * Z) :=
  alpn ← services; (λ shard, (alpn, shard)) <$> replica_shards (as_bytes (public sk)) alpn.

Definition publish_all (world : bytes → Z → option Z * (nat → DhtEnv))
  (services : list bytes) (sk : SecretKey) (tags : list string)
  : list (bytes * Z * option (Result (PublishError PcError) unit)) :=
  (λ '(alpn, shard),
     (alpn, shard,
      (publish_shard (world alpn shard).1 (world alpn shard).2 sk alpn shard tags).1))
    <$> publish_targets services sk.

(** [DhtPublisher] without its DHT client. *)
Record DhtPublisher := MkDhtPublisher {
  dp_secret_key : SecretKey;
  dp_services : list bytes;
  dp_config : DhtPublisherConfig;
}.
Definition publisher_new (sk : SecretKey) (config : DhtPublisherConfig) : DhtPublisher :=
  MkDhtPublisher sk [] config.
Definition add_service (alpn : bytes) (p : DhtPublisher) : DhtPublisher :=
  MkDhtPublisher (dp_secret_key p) (dp_services p ++ [alpn]) (dp_config p).
(** One round of [run]; the clocks, in nanoseconds, are read anew for each
    shard. *)
Definition publisher_round (world : bytes → Z → Z * (nat → DhtEnv)) (p : DhtPublisher)
  : list (bytes * Z * option (Result (PublishError PcError) unit)) :=
  publish_all (λ alpn shard, let '(nanos, envs) := world alpn shard in
                             (unix_timestamp_secs nanos, envs))
    (dp_services p) (dp_secret_key p) (cfg_tags (dp_config p)).

(** The rounds of [run]: one at the start, one per tick until shutdown. *)
Fixpoint run_rounds (events : list RunEvent) : nat :=
  match events with
  | [] => 0
  | Tick :: events => S (run_rounds events)
  | ShutdownSignal :: _ => 0
  end.
Definition publisher_run (events : list RunEvent) : nat := S (run_rounds events).

(** [DhtResolver::query_shard] on the items the stream yielded;
    [unwrap_or_default] reads a clock before the epoch as 0. *)
Definition query_shard (items : list MutableItem) (now : option Z)
  (alpn : bytes) (minute shard : Z) : list SignedServiceAd :=
  merge_valid (decode_buckets items) alpn minute shard (default 0%Z now).
End Publish.

(** ** Theorems *)

Section PublishFacts.
Context `{!IrohKeys, !IrohKeysLaws, !Sha256, !Mainline, !MainlineLaws} {PcError : Type}.
Context `{!Postcard PcError ServiceAdEnvelope, !Postcard PcError ServiceBucket}.
Context `{!PostcardLaws PcError ServiceBucket}.
Context (overflow_checks : bool).
Implicit Types (a local_ad : SignedServiceAd) (env : DhtEnv) (item : MutableItem).

Abbreviation read_shard_state := (read_shard_state (PcError := PcError)).
Abbreviation verify := (verify (PcError := PcError)).
Abbreviation sign_ad := (sign_ad (PcError := PcError)).
Abbreviation publish_attempt := (publish_attempt (PcError := PcError) overflow_checks).
Abbreviation publish_loop := (publish_loop (PcError := PcError) overflow_checks).
Abbreviation publish_shard := (publish_shard (PcError := PcError) overflow_checks).

Lemma read_shard_state_valid env alpn minute shard now a :
  a ∈ (read_shard_state env alpn minute shard now).1 →
  verify alpn minute shard now a = true.
Proof.
  unfold DhtPublish.read_shard_state. case_match; [|set_solver]. simpl. intros Ha.
  destruct (merge_valid_facts alpn minute shard now (decode_buckets l)) as (_ & _ & Hin & _).
  by eapply candidates_valid, Hin.
Qed.

Lemma read_shard_state_NoDup env alpn minute shard now :
  NoDup (node_id <$> (read_shard_state env alpn minute shard now).1).
Proof.
  unfold DhtPublish.read_shard_state. case_match; [|apply NoDup_nil_2]. simpl.
  apply (merge_valid_facts alpn minute shard now (decode_buckets l)).
Qed.

(** What every item the publisher puts looks like. *)
Record good_item (alpn : bytes) (minute shard : Z) local_ad
  (read : list SignedServiceAd * option Z) (bucket : ServiceBucket) item : Prop := {
  gi_item : ∃ seq, next_seq overflow_checks read.2 = Some seq ∧
    item = item_new (derive_signing_key alpn minute shard) (item_value item) seq
             (Some (derive_salt alpn minute shard));
  gi_value : pc_from_bytes (item_value item) = Some bucket;
  gi_size : (Z.of_nat (length (item_value item)) ≤ DHT_MAX_BUCKET_BYTES)%Z;
  gi_version : sb_version bucket = DHT_BUCKET_VERSION;
  gi_NoDup : NoDup (node_id <$> sb_ads bucket);
  gi_ads : ∀ a, a ∈ sb_ads bucket → a = local_ad ∨ a ∈ read.1;
  gi_own : ∃ r, r ∈ sb_ads bucket ∧ node_id r = node_id local_ad ∧
             ord_le (ad_sort_key r) (ad_sort_key local_ad) = true ∧
             (∀ e, e ∈ read.1 → node_id e = node_id local_ad →
                ord_le (ad_sort_key r) (ad_sort_key e) = true);
}.

Lemma trimmed_bucket_keeps p (b b' : ServiceBucket) r :
  trim_to_size (PcError := PcError) p b = (r, b') →
  sb_version b' = sb_version b ∧ (∀ a, a ∈ sb_ads b' → a ∈ sb_ads b) ∧
  (NoDup (node_id <$> sb_ads b) → NoDup (node_id <$> sb_ads b')) ∧
  (∀ a, a ∈ sb_ads b → Some (node_id a) = p → a ∈ sb_ads b').
Proof.
  intros E. pose proof (trim_to_size_facts (PcError := PcError) p b) as Ht.
  simpl in Ht. rewrite E in Ht. destruct Ht as (Hv & n & Hn & Hads & Hp & _).
  set (sorted := sort_by_key _ _) in *.
  assert (Hsub : sb_ads b' `sublist_of` sorted) by (rewrite Hads; apply sublist_take).
  assert (Hperm : sorted ≡ₚ sb_ads b) by apply sort_by_key_Permutation.
  split_and!; [done| | |].
  - intros a Ha. rewrite <-Hperm. by eapply elem_of_sublist.
  - intros Hnd. eapply sublist_NoDup; [|by apply fmap_sublist].
    by rewrite Hperm.
  - intros a Ha Hpa. rewrite Hads, <-(take_drop (length (filter (λ a, not_preferred p a = false) sorted)) (take n sorted)).
    rewrite take_take, Nat.min_l, <-Hp by lia. apply elem_of_app. left.
    apply list_elem_of_filter. rewrite Hperm. split; [|done].
    apply bool_decide_eq_false. tauto.
Qed.

Lemma publish_attempt_puts env alpn minute shard published local_ad :
  let puts := (publish_attempt env alpn minute shard published local_ad).2 in
  puts = [] ∨ ∃ item bucket, puts = [item] ∧
    good_item alpn minute shard local_ad
      (read_shard_state env alpn minute shard published) bucket item.
Proof.
  simpl. unfold DhtPublish.publish_attempt.
  pose proof (read_shard_state_NoDup env alpn minute shard published) as Hnd.
  destruct (read_shard_state _ _ _ _ _) as [ads latest]. simpl in *.
  set (b0 := upsert local_ad (new_bucket ads)).
  destruct (trim_to_size _ b0) as [fit bucket] eqn:Htrim.
  pose proof (trimmed_bucket_keeps _ _ _ _ Htrim) as (Hv & Hsub & Hnd' & Hkeep).
  pose proof (trim_to_size_facts (PcError := PcError) (Some (node_id local_ad)) b0) as Hfit.
  simpl in Hfit. rewrite Htrim in Hfit. destruct Hfit as (_ & n & _ & _ & _ & _ & Hfit).
  destruct fit as [[]|]; [|by left..].
  destruct (to_allocvec bucket) as [value|] eqn:Henc; [|by left].
  destruct (next_seq overflow_checks latest) as [seq|] eqn:Hseq; [|by left].
  right. eexists _, bucket. split; [done|].
  destruct Hfit as (len & Hlen & Hmax). unfold encoded_len in Hlen.
  replace (MkServiceBucket (sb_version b0) (sb_ads bucket)) with bucket in Hlen.
  2: { destruct bucket. simpl in *. by rewrite Hv. }
  rewrite Henc in Hlen. injection Hlen as <-.
  assert (Hnd0 : NoDup (node_id <$> sb_ads (new_bucket ads))) by done.
  split; rewrite ?item_new_value; simpl.
  - by exists seq.
  - by apply postcard_roundtrip.
  - done.
  - rewrite Hv. apply upsert_version.
  - by apply Hnd', upsert_node_ids.
  - intros a Ha%Hsub. destruct (decide (node_id a = node_id local_ad)) as [E|E].
    + destruct (upsert_own local_ad (new_bucket ads) Hnd0) as (r & Hr & Hn & Hor & _).
      assert (a = r) as ->; [|done].
      apply (NoDup_fmap_inj_on node_id (sb_ads b0)); [by apply upsert_node_ids|done..|congruence].
    + right. by apply upsert_other in Ha.
  - destruct (upsert_own local_ad (new_bucket ads) Hnd0) as (r & Hr & Hn & _ & Hle & Hmin).
    exists r. split_and!; [|done..]. apply Hkeep; [done | congruence].
Qed.

Lemma publish_loop_puts envs alpn minute shard published local_ad attempt remaining :
  let puts := (publish_loop envs alpn minute shard published local_ad attempt remaining).2 in
  length puts ≤ remaining ∧
  ∀ item, item ∈ puts → ∃ k bucket,
    good_item alpn minute shard local_ad
      (read_shard_state (envs k) alpn minute shard published) bucket item.
Proof.
  simpl. revert attempt. induction remaining as [|n IH]; intros attempt; simpl; [set_solver|].
  pose proof (publish_attempt_puts (envs attempt) alpn minute shard published local_ad) as Hput.
  destruct (publish_attempt _ _ _ _ _ _) as [a puts]. simpl in Hput.
  assert (Hone : length puts ≤ 1 ∧ ∀ item, item ∈ puts → ∃ k bucket,
    good_item alpn minute shard local_ad
      (read_shard_state (envs k) alpn minute shard published) bucket item).
  { destruct Hput as [->|(item & bucket & -> & Hgood)]; simpl; [set_solver by lia|].
    split; [lia|]. intros i ->%list_elem_of_singleton. eauto. }
  destruct Hone as [Hlen Hall]. destruct a as [r| |]; simpl; [split; [lia|done]| |split; [lia|done]].
  specialize (IH (S attempt)). destruct (publish_loop _ _ _ _ _ _ _ _) as [r puts'].
  simpl in *. destruct IH as [Hlen' Hall']. rewrite length_app. split; [lia|].
  intros item [?|?]%elem_of_app; auto.
Qed.

(** Everything a publication puts, in terms of the signed advertisement. *)
Lemma publish_shard_good published envs sk alpn shard tags r puts :
  publish_shard (Some published) envs sk alpn shard tags = (r, puts) →
  length puts ≤ DHT_PUBLISH_RETRIES ∧
  ∀ item, item ∈ puts → ∃ k bucket local_ad,
    sign_ad sk alpn (published / 60) shard tags published
      (u64_saturating_add published DHT_AD_TTL_SECS) = Ok local_ad ∧
    good_item alpn (published / 60) shard local_ad
      (read_shard_state (envs k) alpn (published / 60) shard published) bucket item.
Proof.
  unfold DhtPublish.publish_shard. destruct (sign_ad _ _ _ _ _ _ _) as [local_ad|e] eqn:Hs.
  2: { intros [= <- <-]. split; [simpl; lia | set_solver]. }
  intros E. pose proof (publish_loop_puts envs alpn (published / 60) shard published local_ad
    0 DHT_PUBLISH_RETRIES) as Hl. rewrite E in Hl. destruct Hl as [Hlen Hall].
  split; [done|]. intros item Hi. destruct (Hall _ Hi) as (k & bucket & Hg). eauto 6.
Qed.

(** The publisher's own advertisement verifies throughout its life time. *)
Lemma local_ad_verifies sk alpn minute shard tags published now a :
  sign_ad sk alpn minute shard tags published
    (u64_saturating_add published DHT_AD_TTL_SECS) = Ok a →
  (0 ≤ published ≤ now)%Z → (now < u64_saturating_add published DHT_AD_TTL_SECS)%Z →
  verify alpn minute shard now a = true ∧
  endpoint_id a = Some (public sk) ∧ node_id a = as_bytes (public sk) ∧
  published_at a = published.
Proof.
  unfold u64_saturating_add, DHT_AD_TTL_SECS, u64_max. intros Hs Hp Hn.
  destruct (sign_ad_verifies sk alpn minute shard tags _ _ now a Hs) as (Hv & He & Hpa & _).
  { lia. } { lia. } { unfold u64_saturating_add, MAX_FUTURE_SKEW_SECS, u64_max. lia. }
  apply sign_ad_inv in Hs as (m & Had & _). split_and!; try done.
  unfold node_id. by rewrite Had.
Qed.

Lemma rank_published a b :
  ord_le (ad_sort_key a) (ad_sort_key b) = true → (published_at b ≤ published_at a)%Z.
Proof.
  unfold ord_le, ad_sort_key. rewrite prod_cmp_unfold. simpl.
  unfold cmp at 1, Reverse_ord, Z_ord, cmp. simpl.
  destruct (Z.compare_spec (published_at b) (published_at a)); [lia|lia|done].
Qed.

(** A publication attempts at most [DHT_PUBLISH_RETRIES] puts, and every
    value it puts decodes to a current-version bucket of at most
    [DHT_MAX_BUCKET_BYTES] bytes, with at most one advertisement per node, all
    of them valid at the time of publication, one of them the publisher's. *)
Lemma publish_shard_puts published envs sk alpn shard tags r puts :
  (0 ≤ published < u64_max)%Z →
  publish_shard (Some published) envs sk alpn shard tags = (r, puts) →
  length puts ≤ DHT_PUBLISH_RETRIES ∧
  ∀ item, item ∈ puts → ∃ bucket,
    pc_from_bytes (item_value item) = Some bucket ∧
    (Z.of_nat (length (item_value item)) ≤ DHT_MAX_BUCKET_BYTES)%Z ∧
    sb_version bucket = DHT_BUCKET_VERSION ∧
    NoDup (node_id <$> sb_ads bucket) ∧
    (∀ a, a ∈ sb_ads bucket → verify alpn (published / 60) shard published a = true) ∧
    (∃ a, a ∈ sb_ads bucket ∧ endpoint_id a = Some (public sk)).
Proof.
  intros Hp E. destruct (publish_shard_good _ _ _ _ _ _ _ _ E) as [Hlen Hall].
  split; [done|]. intros item Hi.
  destruct (Hall item Hi) as (k & bucket & local_ad & Hs & [_ Hval Hsize Hver Hnd Hads Hown]).
  destruct (local_ad_verifies sk alpn (published / 60) shard tags published published local_ad)
    as (Hv & He & _ & _); [done|lia| |].
  { unfold u64_saturating_add, DHT_AD_TTL_SECS. lia. }
  exists bucket. split_and!; try done.
  - intros a [->|Ha]%Hads; [done|]. by eapply read_shard_state_valid.
  - destruct Hown as (a & Ha & Hn & _). exists a. split; [done|].
    unfold endpoint_id in *. by rewrite Hn.
Qed.

(** Publish, then resolve: a reader whose query returns the item a
    publication put finds the publisher in the shard, at every time until the
    advertisement expires, with an advertisement at least as recent; provided
    the publisher had not read back a newer advertisement of its own. *)
Lemma publish_then_resolve published envs sk alpn shard tags r puts item items now :
  (0 ≤ published ≤ now)%Z → (now < u64_saturating_add published DHT_AD_TTL_SECS)%Z →
  publish_shard (Some published) envs sk alpn shard tags = (r, puts) →
  (∀ k b, b ∈ (read_shard_state (envs k) alpn (published / 60) shard published).1 →
     node_id b = as_bytes (public sk) → (published_at b < published)%Z) →
  item ∈ puts → item ∈ items →
  ∃ a, a ∈ query_shard (PcError := PcError) items (Some now) alpn (published / 60) shard ∧
    endpoint_id a = Some (public sk) ∧ (published ≤ published_at a)%Z.
Proof.
  intros Hp Hnow E Hfresh Hi Hitems.
  destruct (publish_shard_good _ _ _ _ _ _ _ _ E) as [_ Hall].
  destruct (Hall item Hi) as (k & bucket & local_ad & Hs & [_ Hval _ Hver _ Hads Hown]).
  destruct (local_ad_verifies _ _ _ _ _ _ now _ Hs Hp Hnow) as (Hv & He & Hn & Hpa).
  assert (Hlocal : local_ad ∈ sb_ads bucket).
  { destruct Hown as (a & Ha & Hna & Hle%rank_published & _).
    destruct (Hads a Ha) as [->|Hr]; [done|].
    specialize (Hfresh k a Hr). rewrite Hna, Hn in Hfresh. specialize (Hfresh eq_refl). lia. }
  assert (Hcand : local_ad ∈ candidates (PcError := PcError) alpn (published / 60) shard now
                    (decode_buckets (PcError := PcError) items)).
  { apply list_elem_of_filter. split; [done|]. apply list_elem_of_bind.
    exists bucket. split; [done|]. apply list_elem_of_filter. split; [done|].
    apply list_elem_of_omap. eauto. }
  destruct (merge_valid_facts (PcError := PcError) alpn (published / 60) shard now
    (decode_buckets (PcError := PcError) items)) as (_ & _ & _ & Hex & Hmin).
  destruct (Hex _ Hcand) as (a & Ha & Hna). exists a. split; [done|]. split.
  - unfold endpoint_id in *. by rewrite Hna.
  - rewrite <-Hpa. apply rank_published. by apply Hmin.
Qed.

(** The sequence number of every item put exceeds every sequence number
    just read, as the DHT requires of an update, as long as those stay below
    [i64::MAX]. *)
Lemma publish_seq_increases published envs sk alpn shard tags r puts item :
  publish_shard (Some published) envs sk alpn shard tags = (r, puts) → item ∈ puts →
  ∃ k, let latest := (read_shard_state (envs k) alpn (published / 60) shard published).2 in
    match latest with
    | None => item_seq item = 1%Z
    | Some seq => (seq < i64_max)%Z → item_seq item = (seq + 1)%Z
    end.
Proof.
  intros E Hi. destruct (publish_shard_good _ _ _ _ _ _ _ _ E) as [_ Hall].
  destruct (Hall item Hi) as (k & bucket & local_ad & _ & [(seq & Hseq & Hitem) _ _ _ _ _ _]).
  exists k. cbv zeta. rewrite Hitem, item_new_seq. unfold next_seq in Hseq.
  destruct (read_shard_state _ _ _ _ _).2 as [l|]; [|by injection Hseq as <-].
  intros Hl. rewrite (proj2 (Z.leb_le _ _)) in Hseq by lia. by injection Hseq as <-.
Qed.

(** ** What a publication does to its shard *)

(** The items one read finds; none if its task panicked. *)
Definition found env (alpn : bytes) (minute shard : Z) : list MutableItem :=
  default [] (get_mutable env (verifying_key (derive_signing_key alpn minute shard))
                (Some (derive_salt alpn minute shard))).
(** How the put of the same attempt ends: it expects the highest sequence number
    that was read. *)
Definition put_answer env (alpn : bytes) (minute shard : Z) item : PutResult :=
  put_mutable env item (iter_max (item_seq <$> found env alpn minute shard)).
Abbreviation candidates := (candidates (PcError := PcError)).
Abbreviation decode_buckets := (decode_buckets (PcError := PcError)).

Lemma read_shard_state_found env alpn minute shard now :
  read_shard_state env alpn minute shard now =
  (merge_valid (PcError := PcError) (decode_buckets (found env alpn minute shard))
     alpn minute shard now,
   iter_max (item_seq <$> found env alpn minute shard)).
Proof.
  unfold DhtPublish.read_shard_state, found. by case_match.
Qed.

(** An attempt ends before its put, and then neither with success nor for
    contention, or as its put does. *)
Lemma publish_attempt_cases env alpn minute shard published local_ad out puts :
  publish_attempt env alpn minute shard published local_ad = (out, puts) →
  (puts = [] ∧ (out = AttemptPanic ∨
     ∃ e, out = AttemptReturn (Err e) ∧ e ≠ ShardContended)) ∨
  (∃ item, puts = [item] ∧ out = match put_answer env alpn minute shard item with
                               | PutOk => AttemptReturn (Ok tt)
                               | PutConcurrency => AttemptRetry
                               | PutQuery => AttemptReturn (Err PutMutableShard)
                               | PutPanicked => AttemptReturn (Err PublishTaskPanicked)
                               end).
Proof.
  unfold DhtPublish.publish_attempt, put_answer. rewrite read_shard_state_found.
  destruct (trim_to_size _ _) as [[[]|] bucket]; [|by intros [= <- <-]; eauto 6..].
  destruct (to_allocvec bucket) as [value|]; [|by intros [= <- <-]; eauto 6].
  destruct (next_seq _ _) as [seq|]; intros [= <- <-]; eauto.
Qed.

(** The puts of the attempts, how they end and the answer of the loop: all but
    the last put were refused for contention, and the answer is the last one's. *)
Definition attempts_agree (answer : nat → MutableItem → PutResult) (remaining : nat)
  (r : option (Result (PublishError PcError) unit)) (puts : list MutableItem) : Prop :=
  (∀ k item, puts !! k = Some item → S k < length puts → answer k item = PutConcurrency) ∧
  (r = Some (Ok tt) ↔ ∃ k item, puts !! k = Some item ∧ answer k item = PutOk) ∧
  (r = Some (Err ShardContended) ↔ length puts = remaining ∧
     ∀ k item, puts !! k = Some item → answer k item = PutConcurrency).

Lemma attempts_agree_ext answer answer' remaining r puts :
  (∀ k item, answer k item = answer' k item) →
  attempts_agree answer remaining r puts → attempts_agree answer' remaining r puts.
Proof. intros Hext. unfold attempts_agree. by setoid_rewrite Hext. Qed.

Lemma attempts_agree_nil answer remaining r :
  r ≠ Some (Ok tt) → (r = Some (Err ShardContended) ↔ remaining = 0) →
  attempts_agree answer remaining r [].
Proof.
  intros Hok Hc. split_and!; [done| |].
  - split; [done|]. intros (k & item & Hk & _). by rewrite lookup_nil in Hk.
  - rewrite Hc. simpl. naive_solver.
Qed.

Lemma attempts_agree_one answer remaining r item :
  answer 0 item ≠ PutConcurrency → r ≠ Some (Err ShardContended) →
  (r = Some (Ok tt) ↔ answer 0 item = PutOk) → attempts_agree answer remaining r [item].
Proof.
  intros Hne Hr Hok. split_and!.
  - intros [|k] it Hk Hlt; simpl in *; [lia|by rewrite lookup_nil in Hk].
  - rewrite Hok. split; [intros Ha; by exists 0, item|].
    intros ([|k] & it & Hk & Ha); simpl in Hk; [by injection Hk as ->|by rewrite lookup_nil in Hk].
  - split; [done|]. intros [_ Hall]. by destruct Hne; apply Hall.
Qed.

Lemma attempts_agree_retry (answer : nat → MutableItem → PutResult) remaining r item puts :
  answer 0 item = PutConcurrency → attempts_agree (λ k, answer (S k)) remaining r puts →
  attempts_agree answer (S remaining) r (item :: puts).
Proof.
  intros Ha (Hlast & Hok & Hc). split_and!.
  - intros [|k] it; simpl; [by intros [= <-]|]. intros Hk Hlt. apply Hlast; [done|lia].
  - rewrite Hok. split.
    + intros (k & it & Hk & Hans). by exists (S k), it.
    + intros ([|k] & it & Hk & Hans); simpl in Hk; [congruence|by exists k, it].
  - rewrite Hc. simpl. split.
    + intros [<- Hall]. split; [done|]. intros [|k] it; simpl; [by intros [= <-]|apply Hall].
    + intros [[= <-] Hall]. split; [done|]. intros k it Hk. by apply (Hall (S k)).
Qed.

Lemma publish_loop_attempts envs alpn minute shard published local_ad attempt remaining r puts :
  publish_loop envs alpn minute shard published local_ad attempt remaining = (r, puts) →
  (∀ k item, puts !! k = Some item →
     (publish_attempt (envs (attempt + k)) alpn minute shard published local_ad).2 = [item]) ∧
  attempts_agree (λ k, put_answer (envs (attempt + k)) alpn minute shard) remaining r puts.
Proof.
  revert attempt r puts. induction remaining as [|n IH]; intros attempt r puts; simpl.
  { intros [= <- <-]. split; [done|]. by apply attempts_agree_nil. }
  destruct (publish_attempt (envs attempt) _ _ _ _ _) as [out puts1] eqn:Ha.
  destruct (publish_attempt_cases _ _ _ _ _ _ _ _ Ha) as [[-> Hend]|(item & -> & Hend)].
  { destruct Hend as [->|(e & -> & He)]; intros [= <- <-];
      (split; [done|]); apply attempts_agree_nil; naive_solver. }
  assert (Hcases : put_answer (envs attempt) alpn minute shard item = PutConcurrency ∨
    ∃ r', put_answer (envs attempt) alpn minute shard item ≠ PutConcurrency ∧
      out = AttemptReturn r' ∧ r' ≠ Err ShardContended ∧
      (r' = Ok tt ↔ put_answer (envs attempt) alpn minute shard item = PutOk)).
  { rewrite Hend. destruct (put_answer _ _ _ _ _); [right|by left|right..]; by eexists. }
  destruct Hcases as [Hc|(r' & Hne & -> & Hr & Hok)].
  - rewrite Hc in Hend. subst out.
    destruct (publish_loop envs alpn minute shard published local_ad (S attempt) n)
      as [r' puts'] eqn:El. intros [= <- <-]. destruct (IH _ _ _ El) as [Hputs Hag]. split.
    + intros [|k] it; simpl; [intros [= <-]; by rewrite Nat.add_0_r, Ha|].
      rewrite Nat.add_succ_r. apply Hputs.
    + apply attempts_agree_retry; [by rewrite Nat.add_0_r|].
      eapply attempts_agree_ext; [|exact Hag]. intros k it. simpl. by rewrite Nat.add_succ_r.
  - intros [= <- <-]. split.
    + intros [|k] it; simpl; [intros [= <-]; by rewrite Nat.add_0_r, Ha|by rewrite lookup_nil].
    + apply attempts_agree_one; rewrite ?Nat.add_0_r; [done|congruence|].
      rewrite <-Hok. naive_solver.
Qed.

(** [a] has no place in the bucket: some entry [x] that was read and ranks no
    later than [a] does not fit in, and every advertisement there but the
    publisher's own ranks no later than [x]. *)
Definition crowded_out (read : list SignedServiceAd) local_ad (bucket : ServiceBucket) a : Prop :=
  ∃ x, x ∈ read ∧ (node_id x ∉ (node_id <$> sb_ads bucket)) ∧
    ord_le (ad_sort_key x) (ad_sort_key a) = true ∧
    too_big (PcError := PcError) (sb_version bucket) (sb_ads bucket ++ [x]) ∧
    ∀ e, e ∈ sb_ads bucket → node_id e ≠ node_id local_ad →
      ord_le (ad_sort_key e) (ad_sort_key x) = true.

Lemma preferred_key_le local_ad a b :
  node_id a ≠ node_id local_ad → node_id b ≠ node_id local_ad →
  key_le (preferred_ad_sort_key (Some (node_id local_ad))) a b →
  ord_le (ad_sort_key a) (ad_sort_key b) = true.
Proof.
  intros Ha Hb Hle. unfold key_le, ord_le, preferred_ad_sort_key in Hle.
  rewrite prod_cmp_unfold in Hle. simpl in Hle.
  rewrite !bool_decide_eq_true_2 in Hle by congruence. exact Hle.
Qed.

(** Trimming keeps an advertisement unless the bucket is full of better ones. *)
Lemma trimmed_bucket_full local_ad (b b' : ServiceBucket) a :
  trim_to_size (PcError := PcError) (Some (node_id local_ad)) b = (Ok true, b') →
  NoDup (node_id <$> sb_ads b) → a ∈ sb_ads b →
  a ∈ sb_ads b' ∨ node_id a ≠ node_id local_ad ∧
    crowded_out (filter (λ x, node_id x ≠ node_id local_ad) (sb_ads b)) local_ad b' a.
Proof.
  set (p := Some (node_id local_ad)). intros E Hnd Ha.
  destruct (trimmed_bucket_keeps _ _ _ _ E) as (_ & _ & _ & Hkeep).
  pose proof (trim_to_size_facts (PcError := PcError) p b) as Ht.
  simpl in Ht. rewrite E in Ht. destruct Ht as (Hv & n & _ & Hads & _ & Hbig & _).
  pose proof (sort_by_key_sorted (preferred_ad_sort_key p) (sb_ads b)) as Hsort.
  pose proof (elem_of_sort_by_key (preferred_ad_sort_key p)) as Hel.
  pose proof (sort_by_key_Permutation (preferred_ad_sort_key p) (sb_ads b)) as Hperm.
  set (sorted := sort_by_key _ _) in *.
  destruct (decide (a ∈ sb_ads b')) as [|Hno]; [by left|right].
  assert (Hown : ∀ e, e ∈ sb_ads b → e ∉ sb_ads b' → node_id e ≠ node_id local_ad).
  { intros e He Hne E'. apply Hne, Hkeep; [done|]. unfold p. by rewrite E'. }
  split; [by apply Hown|]. unfold crowded_out. rewrite Hads in Hno, Hown |- *.
  assert (Hs : a ∈ drop n sorted).
  { apply Hel in Ha. fold sorted in Ha. rewrite <-(take_drop n sorted) in Ha.
    by apply elem_of_app in Ha as [?|?]. }
  destruct (drop n sorted) as [|x l] eqn:Hd; [by apply elem_of_nil in Hs|].
  assert (Hsplit : sorted = take n sorted ++ x :: l) by (by rewrite <-Hd, take_drop).
  rewrite <-Hperm, Hsplit, fmap_app in Hnd. apply NoDup_app in Hnd as (_ & Hdis & _).
  assert (Hxb : x ∈ sb_ads b) by (rewrite <-Hperm, Hsplit; set_solver).
  assert (Hx : node_id x ∉ (node_id <$> take n sorted)).
  { intros Hin. apply (Hdis _ Hin). simpl. left. }
  assert (Hxo : node_id x ≠ node_id local_ad).
  { apply Hown; [done|]. intros Hin. apply Hx. by apply list_elem_of_fmap_2. }
  unfold key_sorted in Hsort. rewrite Hsplit in Hsort.
  exists x. split_and!; [by apply list_elem_of_filter|done| | |].
  - apply StronglySorted_app_1_r in Hsort. apply StronglySorted_inv in Hsort as [_ Hle].
    apply elem_of_cons in Hs as [->|Hs]; [apply ord_le_refl|].
    apply (preferred_key_le local_ad); [done|by apply Hown|].
    rewrite Forall_forall in Hle. by apply Hle.
  - assert (Hxn : sorted !! n = Some x).
    { by rewrite <-(Nat.add_0_r n), <-lookup_drop, Hd. }
    rewrite Hv, <-(take_S_r _ _ _ Hxn). apply Hbig. apply lookup_lt_Some in Hxn. lia.
  - intros e He Hpe. apply (preferred_key_le local_ad); [done..|].
    apply (StronglySorted_app_1_elem_of _ _ _ _ _ Hsort He). left.
Qed.

(** Before trimming nothing that was read is lost. *)
Lemma upsert_read_keeps alpn minute shard now local_ad buckets a :
  let read := merge_valid (PcError := PcError) buckets alpn minute shard now in
  a = local_ad ∨ a ∈ candidates alpn minute shard now buckets →
  ∃ a', a' ∈ sb_ads (upsert local_ad (new_bucket read)) ∧ node_id a' = node_id a ∧
    ord_le (ad_sort_key a') (ad_sort_key a) = true.
Proof.
  intros read Ha.
  destruct (merge_valid_facts (PcError := PcError) alpn minute shard now buckets)
    as (Hnd & _ & _ & Hex & Hmin). fold read in Hnd, Hex, Hmin.
  destruct (decide (node_id a = node_id local_ad)) as [E|E].
  - destruct (upsert_own local_ad (new_bucket read) Hnd) as (own & Hown & Hn & _ & Hle & Hbest).
    exists own. split_and!; [done|congruence|]. destruct Ha as [->|Ha]; [done|].
    destruct (Hex _ Ha) as (a' & Ha' & Hid).
    eapply ord_le_trans; [apply (Hbest a'); [done|congruence]|by apply Hmin].
  - destruct Ha as [->|Ha]; [done|]. destruct (Hex _ Ha) as (a' & Ha' & Hid). exists a'.
    split_and!; [apply upsert_other; [congruence|done]|done|by apply Hmin].
Qed.

(** The bucket that an attempt puts. *)
Lemma publish_attempt_bucket env alpn minute shard published local_ad item :
  (publish_attempt env alpn minute shard published local_ad).2 = [item] →
  let read := candidates alpn minute shard published
                (decode_buckets (found env alpn minute shard)) in
  next_seq overflow_checks (iter_max (item_seq <$> found env alpn minute shard)) =
    Some (item_seq item) ∧
  ∃ bucket, pc_from_bytes (item_value item) = Some bucket ∧
    NoDup (node_id <$> sb_ads bucket) ∧
    (∀ a, a ∈ sb_ads bucket → a = local_ad ∨ a ∈ read) ∧
    ∀ a, a = local_ad ∨ a ∈ read →
      (∃ a', a' ∈ sb_ads bucket ∧ node_id a' = node_id a ∧
         ord_le (ad_sort_key a') (ad_sort_key a) = true) ∨
      node_id a ≠ node_id local_ad ∧ crowded_out read local_ad bucket a.
Proof.
  unfold DhtPublish.publish_attempt. rewrite read_shard_state_found. cbv zeta.
  set (read := merge_valid (decode_buckets (found env alpn minute shard)) alpn minute shard
                 published).
  destruct (merge_valid_facts (PcError := PcError) alpn minute shard published
    (decode_buckets (found env alpn minute shard))) as (Hnd & _ & Hin & _).
  fold read in Hnd, Hin.
  destruct (trim_to_size _ _) as [fit bucket] eqn:Htrim.
  intros Hputs. destruct fit as [[]|]; [|done..].
  destruct (to_allocvec bucket) as [value|] eqn:Henc; [|done].
  destruct (next_seq _ _) as [seq|] eqn:Hseq; [|done]. injection Hputs as <-.
  rewrite item_new_seq, item_new_value. split; [done|]. exists bucket.
  destruct (trimmed_bucket_keeps _ _ _ _ Htrim) as (_ & Hsub & Hnd' & _).
  split_and!; [by apply postcard_roundtrip|by apply Hnd', upsert_node_ids| |].
  - intros a Ha%Hsub. destruct (decide (node_id a = node_id local_ad)) as [E|E].
    + destruct (upsert_own local_ad (new_bucket read) Hnd) as (own & Hown & Hn & Hor & _).
      assert (a = own) as ->; [|destruct Hor; auto].
      apply (NoDup_fmap_inj_on node_id (sb_ads (upsert local_ad (new_bucket read))));
        [by apply upsert_node_ids|done..|congruence].
    + right. apply upsert_other in Ha; auto.
  - intros a Ha. destruct (upsert_read_keeps alpn minute shard published local_ad _ a Ha)
      as (a' & Ha' & Hid & Hrank).
    destruct (trimmed_bucket_full _ _ _ _ Htrim (upsert_node_ids local_ad (new_bucket read) Hnd) Ha')
      as [Hk|(Hne & x & [Hxo Hx]%list_elem_of_filter & Hxb & Hxa & Hbig & Hall)]; [eauto|right].
    split; [congruence|]. exists x. split_and!; [|done| |done..].
    + apply Hin. by apply upsert_other in Hx.
    + by eapply ord_le_trans.
Qed.

(** C9: a publication, whatever its reads find and its puts answer.  It puts at most
    four items, one per attempt, each numbered one above the highest sequence
    number just read, and goes on after a put only if that was refused for
    contention.  The bucket of each holds one advertisement per node, only valid
    ones that were read and the publisher's own; it loses nothing that was read:
    of each node with a valid advertisement, the publisher too, it holds one that
    ranks no later, unless an entry that ranks no later than it does not fit in
    any more, and what is kept of the other nodes ranks before that.  The publication succeeds if and only if a put
    does, and is given up as contended if and only if all four were refused. *)
Theorem publication_updates_shard published envs sk alpn shard tags local_ad r puts :
  sign_ad sk alpn (published / 60) shard tags published
    (u64_saturating_add published DHT_AD_TTL_SECS) = Ok local_ad →
  publish_shard (Some published) envs sk alpn shard tags = (r, puts) →
  let minute := (published / 60)%Z in
  let answer k item := put_answer (envs k) alpn minute shard item in
  (length puts ≤ DHT_PUBLISH_RETRIES) ∧
  (∀ k item, puts !! k = Some item → S k < length puts → answer k item = PutConcurrency) ∧
  (r = Some (Ok tt) ↔ ∃ k item, puts !! k = Some item ∧ answer k item = PutOk) ∧
  (r = Some (Err ShardContended) ↔ length puts = DHT_PUBLISH_RETRIES ∧
     ∀ k item, puts !! k = Some item → answer k item = PutConcurrency) ∧
  ∀ k item, puts !! k = Some item →
    let items := found (envs k) alpn minute shard in
    let read := candidates alpn minute shard published (decode_buckets items) in
    next_seq overflow_checks (iter_max (item_seq <$> items)) = Some (item_seq item) ∧
    ∃ bucket, pc_from_bytes (item_value item) = Some bucket ∧
      (Z.of_nat (length (item_value item)) ≤ DHT_MAX_BUCKET_BYTES)%Z ∧
      NoDup (node_id <$> sb_ads bucket) ∧
      (∀ a, a ∈ sb_ads bucket → a = local_ad ∨ a ∈ read) ∧
      ∀ a, a = local_ad ∨ a ∈ read →
        (∃ a', a' ∈ sb_ads bucket ∧ node_id a' = node_id a ∧
           ord_le (ad_sort_key a') (ad_sort_key a) = true) ∨
        node_id a ≠ node_id local_ad ∧ crowded_out read local_ad bucket a.
Proof.
  intros Hs E minute answer. pose proof (publish_shard_good _ _ _ _ _ _ _ _ E) as [Hlen Hgood].
  unfold DhtPublish.publish_shard in E. rewrite Hs in E.
  apply publish_loop_attempts in E as [Hputs (Hlast & Hok & Hc)].
  split_and!; [done..|]. intros k item Hk items read.
  destruct (publish_attempt_bucket _ _ _ _ _ _ _ (Hputs k item Hk)) as (Hseq & bucket & Hb & Hrest).
  split; [done|]. exists bucket.
  destruct (Hgood item) as (_ & _ & _ & _ & [_ _ Hsize _ _ _ _]); [by eapply list_elem_of_lookup_2|].
  by split_and!; [..|apply Hrest|apply Hrest|apply Hrest].
Qed.

(** The bucket with the publisher's advertisement, from the first read. *)
Definition first_bucket envs alpn minute shard published local_ad
  : Result PcError bool * ServiceBucket :=
  trim_to_size (Some (node_id local_ad))
    (upsert local_ad
       (new_bucket (read_shard_state (envs 0) alpn minute shard published).1)).

(** An unchecked build does not panic. *)
Lemma publish_attempt_unchecked env alpn minute shard published local_ad :
  overflow_checks = false →
  (publish_attempt env alpn minute shard published local_ad).1 ≠ AttemptPanic.
Proof.
  intros Hoc. unfold DhtPublish.publish_attempt.
  destruct (read_shard_state _ _ _ _ _) as [ads latest].
  destruct (trim_to_size _ _) as [[[]|] bucket]; [|done..].
  destruct (to_allocvec bucket); [|done]. unfold next_seq. rewrite Hoc.
  destruct latest as [l|]; [destruct (l + 1 <=? i64_max)%Z|]; simpl; by destruct (put_mutable _ _ _).
Qed.
Lemma publish_loop_unchecked envs alpn minute shard published local_ad attempt remaining :
  overflow_checks = false →
  (publish_loop envs alpn minute shard published local_ad attempt remaining).1 ≠ None.
Proof.
  intros Hoc. revert attempt. induction remaining as [|n IH]; intros attempt; simpl; [done|].
  pose proof (publish_attempt_unchecked (envs attempt) alpn minute shard published local_ad Hoc).
  destruct (publish_attempt _ _ _ _ _ _) as [[] puts]; try done.
  specialize (IH (S attempt)). by destruct (publish_loop _ _ _ _ _ _ _ _).
Qed.

(** What the first attempt decides, after the largest sequence number. *)
Lemma publish_loop_at_max envs alpn minute shard published local_ad n r puts :
  (read_shard_state (envs 0) alpn minute shard published).2 = Some i64_max →
  publish_loop envs alpn minute shard published local_ad 0 (S n) = (r, puts) →
  let fit := (first_bucket envs alpn minute shard published local_ad).1 in
  (fit = Ok true ∧ if overflow_checks then r = None ∧ puts = [] else puts ≠ []) ∨
  (fit ≠ Ok true ∧ puts = [] ∧ ∃ e, r = Some (Err e)).
Proof.
  intros Hmax. cbn [DhtPublish.publish_loop]. unfold DhtPublish.publish_attempt, first_bucket.
  destruct (read_shard_state (envs 0) _ _ _ _) as [ads latest]. simpl in Hmax |- *. subst latest.
  pose proof (trim_to_size_facts (PcError := PcError) (Some (node_id local_ad))
    (upsert local_ad (new_bucket ads))) as Ht. simpl in Ht.
  destruct (trim_to_size _ _) as [fit bucket]. destruct Ht as (Hv & _ & _ & _ & _ & _ & Hfit). simpl.
  destruct fit as [[]|e]; [|intros [= <- <-]; right; by eauto..].
  intros E. left. split; [done|]. revert E. destruct Hfit as (len & Hlen & _). rewrite <-Hv in Hlen.
  unfold encoded_len in Hlen. replace (MkServiceBucket _ _) with bucket in Hlen by by destruct bucket.
  destruct (to_allocvec bucket) as [value|]; [|done]. simpl.
  destruct overflow_checks; [by intros [= <- <-]|].
  destruct (put_mutable _ _ _); [by intros [= <- <-]| |by intros [= <- <-]..].
  destruct (DhtPublish.publish_loop _ _ _ _ _ _ _ _ _). by intros [= <- <-].
Qed.

(** C38: when every read finds the sequence number [i64::MAX] in the shard, which
    anyone may write, [seq + 1] overflows.  In a build that checks for overflow
    the publication then puts nothing and never succeeds, and it panics whenever its
    advertisement could be signed and its bucket fits; in a build that
    does not, it puts what it read with its own advertisement all the same, and
    every item it puts has the sequence number [i64::MIN]. *)
Theorem publish_seq_overflow published envs sk alpn shard tags local_ad r puts :
  let minute := (published / 60)%Z in
  (∀ k, (read_shard_state (envs k) alpn minute shard published).2 = Some i64_max) →
  sign_ad sk alpn minute shard tags published
    (u64_saturating_add published DHT_AD_TTL_SECS) = Ok local_ad →
  publish_shard (Some published) envs sk alpn shard tags = (r, puts) →
  let fits := (first_bucket envs alpn minute shard published local_ad).1 = Ok true in
  if overflow_checks
  then puts = [] ∧ (r = None ↔ fits) ∧ (fits ∨ ∃ e, r = Some (Err e))
  else r ≠ None ∧ (puts ≠ [] ↔ fits) ∧ ∀ item, item ∈ puts → item_seq item = i64_min.
Proof.
  intros minute Hmax Hs E fits.
  assert (Hseq : ∀ item, item ∈ puts → item_seq item = i64_min ∧ overflow_checks = false).
  { intros item Hi. destruct (publish_shard_good _ _ _ _ _ _ _ _ E) as [_ Hall].
    destruct (Hall item Hi) as (k & bucket & ad & _ & [(seq & Hseq & ->) _ _ _ _ _ _]).
    rewrite item_new_seq. unfold next_seq in Hseq. fold minute in Hseq. rewrite Hmax in Hseq.
    rewrite (proj2 (Z.leb_gt _ _)) in Hseq by lia.
    destruct overflow_checks; [done|]. by injection Hseq as <-. }
  unfold DhtPublish.publish_shard in E. fold minute in E. rewrite Hs in E.
  pose proof (publish_loop_at_max _ _ _ _ _ _ _ _ _ (Hmax 0) E) as Hfirst. fold fits in Hfirst.
  pose proof (publish_loop_unchecked envs alpn minute shard published local_ad 0 DHT_PUBLISH_RETRIES)
    as Hun. rewrite E in Hun.
  destruct overflow_checks.
  - destruct Hfirst as [(Hf & -> & ->)|(Hf & -> & e & ->)]; naive_solver.
  - split; [by apply Hun|]. split; [naive_solver|]. intros item Hi. by apply Hseq.
Qed.
(** A round tries every replica shard of every service that was added, in the
    order of the calls, whatever fails on the way; before the epoch all of it
    fails. *)
Lemma publisher_round_targets world sk config alpns :
  let p := foldl (λ p alpn, add_service alpn p) (publisher_new sk config) alpns in
  let round := publisher_round (PcError := PcError) overflow_checks world p in
  round.*1 = publish_targets alpns sk ∧
  ((∀ alpn shard, ((world alpn shard).1 < 0)%Z) →
   ∀ x, x ∈ round → x.2 = Some (Err ClockBeforeEpoch)).
Proof.
  intros p round. assert (p = MkDhtPublisher sk alpns config) as Ep.
  { subst p. clear round. induction alpns as [|a alpns IH] using rev_ind; [done|].
    rewrite foldl_snoc, IH. done. }
  subst round. rewrite Ep. unfold publisher_round, publish_all. simpl. split.
  - rewrite <-list_fmap_compose. etrans; [|apply list_fmap_id].
    apply list_fmap_ext. by intros _ [alpn shard] _.
  - intros Hclock x ([alpn shard] & -> & _)%list_elem_of_fmap. simpl.
    specialize (Hclock alpn shard). destruct (world alpn shard) as [nanos envs]. simpl in *.
    unfold unix_timestamp_secs. by rewrite (proj2 (Z.leb_gt _ _)) by lia.
Qed.
End PublishFacts.

(** ** Concrete inputs *)

Module PublishDemo.
Import Demo RecordDemo.

(** An empty DHT that accepts every put, and one whose shard holds an item
    with the largest sequence number. *)
Definition empty_dht : DhtEnv := {| get_mutable _ _ := Some []; put_mutable _ _ := PutOk |}.
Definition poisoned_dht : DhtEnv := {|
  get_mutable _ _ := Some [item_new ([] : bytes) [] i64_max None];
  put_mutable _ _ := PutOk;
|}.

Abbreviation publish_demo oc env :=
  (publish_shard (PcError := unit) oc (Some 1000%Z) (λ _, env) (demo_sk x07) svc 2 []).

Definition demo_item : MutableItem :=
  default (item_new ([] : bytes) [] 0%Z None) (head (publish_demo true empty_dht).2).

Example publish_demo_ok :
  publish_demo true empty_dht = (Some (Ok tt), [demo_item]) ∧ item_seq demo_item = 1%Z.
Proof. vm_compute. auto. Qed.

(** Under contention the publisher gives up after four puts. *)
Example publish_demo_contended :
  let env := {| get_mutable _ _ := Some []; put_mutable _ _ := PutConcurrency |} in
  (publish_demo true env).1 = Some (Err ShardContended) ∧ length (publish_demo true env).2 = 4.
Proof. vm_compute. auto. Qed.

Lemma demo_item_put : demo_item ∈ (publish_demo true empty_dht).2.
Proof. apply list_elem_of_lookup_2 with 0. vm_compute. reflexivity. Defined.

(** The advertisement of node [n] for the minute of the demonstration. *)
Definition minute_ad (n : byte) (at_ : Z) : SignedServiceAd :=
  match sign_ad (PcError := unit) (demo_sk n) svc 16 2 [] at_ (at_ + 120) with
  | Ok a => a
  | Err _ => older
  end.

(** Two nodes that both find the shard empty put the sequence number 1, expecting
    nothing, and each item holds its own advertisement only: if the DHT accepts
    both, one of them replaces the other. *)
Example first_writers_race :
  let other := publish_shard (PcError := unit) true (Some 1000%Z) (λ _, empty_dht) (demo_sk x05) svc 2 [] in
  (publish_demo true empty_dht).1 = Some (Ok tt) ∧ other.1 = Some (Ok tt) ∧
  (item_seq <$> (publish_demo true empty_dht).2) = [1]%Z ∧ (item_seq <$> other.2) = [1]%Z ∧
  (λ item, node_id <$> from_option sb_ads [] (pc_from_bytes (item_value item)))
    <$> (publish_demo true empty_dht).2 = [[[x07]]] ∧
  (λ item, node_id <$> from_option sb_ads [] (pc_from_bytes (item_value item))) <$> other.2
    = [[[x05]]].
Proof. vm_compute. auto 10. Qed.

(** A shard that holds another node's advertisement and is contended once. *)
Definition shared_dht (k : nat) : DhtEnv := {|
  get_mutable _ _ := Some
    [item_new ([] : bytes)
       (default [] (ok (to_allocvec (new_bucket [minute_ad x05 990%Z])))) 7%Z None];
  put_mutable _ _ := if k =? 0 then PutConcurrency else PutOk;
|}.
Definition shared_run : option (Result (PublishError unit) unit) * list MutableItem :=
  publish_shard true (Some 1000%Z) shared_dht (demo_sk x07) svc 2 [].

Example shared_result :
  shared_run.1 = Some (Ok tt) ∧ (item_seq <$> shared_run.2) = [8; 8]%Z ∧
  (λ item, node_id <$> from_option sb_ads [] (pc_from_bytes (item_value item))) <$> shared_run.2
    = [[[x07]; [x05]]; [[x07]; [x05]]].
Proof. vm_compute. auto. Qed.

Lemma publication_updates_shard_witness :
  let answer k item := put_answer (shared_dht k) svc 16 2 item in
  shared_run.1 = Some (Ok tt) ∧ length shared_run.2 = 2 ∧
  (∃ k item, shared_run.2 !! k = Some item ∧ answer k item = PutOk) ∧
  ∃ item bucket a', shared_run.2 !! 1 = Some item ∧
    pc_from_bytes (item_value item) = Some bucket ∧
    a' ∈ sb_ads bucket ∧ node_id a' = [x05].
Proof.
  intros answer.
  destruct (publication_updates_shard (PcError := unit) true 1000 shared_dht (demo_sk x07) svc 2 []
    (minute_ad x07 1000) shared_run.1 shared_run.2) as (_ & _ & Hok & _ & Hput).
  { vm_compute. reflexivity. }
  { apply surjective_pairing. }
  split; [vm_compute; reflexivity|]. split; [vm_compute; reflexivity|].
  split; [apply Hok; vm_compute; reflexivity|].
  destruct (Hput 1 (default demo_item (shared_run.2 !! 1))) as (_ & bucket & Hb & _ & _ & _ & Hkeep).
  { vm_compute. reflexivity. }
  destruct (Hkeep (minute_ad x05 990)) as [(a' & Ha' & Hn & _)|(_ & x & Hx & Hno & _)].
  - right. apply list_elem_of_lookup_2 with 0. vm_compute. reflexivity.
  - eexists _, bucket, a'. split; [vm_compute; reflexivity|]. split; [exact Hb|]. split; [done|].
    rewrite Hn. vm_compute. reflexivity.
  - exfalso. apply list_elem_of_singleton in Hx. subst x. apply Hno.
    vm_compute in Hb. injection Hb as <-. apply list_elem_of_lookup_2 with 1. vm_compute. reflexivity.
Defined.

Lemma publish_seq_overflow_witness :
  ((publish_demo true poisoned_dht).2 = [] ∧ (publish_demo true poisoned_dht).1 = None) ∧
  ((publish_demo false poisoned_dht).2 ≠ [] ∧
   ∀ item, item ∈ (publish_demo false poisoned_dht).2 → item_seq item = i64_min).
Proof.
  assert (Hmax : ∀ k : nat, (read_shard_state (PcError := unit) poisoned_dht svc (1000 / 60) 2 1000).2
    = Some i64_max) by (intros k; vm_compute; reflexivity).
  assert (Hsign : sign_ad (PcError := unit) (demo_sk x07) svc (1000 / 60) 2 [] 1000
    (u64_saturating_add 1000 DHT_AD_TTL_SECS) = Ok (minute_ad x07 1000)) by (vm_compute; reflexivity).
  assert (Hfit : (first_bucket (PcError := unit) (λ _, poisoned_dht) svc (1000 / 60) 2 1000
    (minute_ad x07 1000)).1 = Ok true) by (vm_compute; reflexivity).
  destruct (publish_seq_overflow (PcError := unit) true 1000 (λ _, poisoned_dht) (demo_sk x07) svc 2 []
    (minute_ad x07 1000) _ _ Hmax Hsign (surjective_pairing _)) as (Hno & Hp & _).
  destruct (publish_seq_overflow (PcError := unit) false 1000 (λ _, poisoned_dht) (demo_sk x07) svc 2 []
    (minute_ad x07 1000) _ _ Hmax Hsign (surjective_pairing _)) as (_ & Hput & Hmin).
  split; [split; [exact Hno|by apply Hp]|]. split; [by apply Hput|exact Hmin].
Defined.
End PublishDemo.
