(* ===== verification/Alpn.v ===== *)
(** * ALPN identifiers

    Models [src/alpn.rs]: the protocol identifier of a service name. *)
From S2P Require Import Prelude.

(** [format!("/{service_name}/1.0").into_bytes()] *)
Definition service_to_alpn (service_name : string) : bytes :=
  string_bytes ("/" +:+ service_name +:+ "/1.0").

Lemma service_to_alpn_app name :
  service_to_alpn name = string_bytes "/" ++ string_bytes name ++ string_bytes "/1.0".
Proof. unfold service_to_alpn. by rewrite !string_bytes_app. Qed.

#[export] Instance service_to_alpn_inj_inst : Inj (=) (=) service_to_alpn.
Proof.
  intros a b. rewrite !service_to_alpn_app.
  intros [E _]%app_inv_head%app_inj_suffix; [by apply string_bytes_inj | done].
Qed.

(** Distinct service names have distinct protocol identifiers, so that a
    connection negotiated for one service cannot reach another. *)
Lemma service_to_alpn_injective a b : service_to_alpn a = service_to_alpn b ↔ a = b.
Proof. split; [apply (inj service_to_alpn) | by intros ->]. Qed.

Example service_to_alpn_demo :
  service_to_alpn "echo.Echo" = string_bytes "/echo.Echo/1.0".
Proof. reflexivity. Qed.
