(* ===== verification/UserData.v ===== *)
(** * Service metadata in iroh user-data records

    Models [src/user_data.rs].  The postcard encoding of the list of ALPNs,
    base64url and iroh's length-limited [UserData] are third-party: they are
    parameters with their documented round-trip laws. *)
From S2P Require Import Prelude Iroh Alpn.

(** data_encoding's [BASE64URL_NOPAD]. *)
Class Base64 := {
  b64_encode : bytes → string;
  b64_decode : string → option bytes;
}.
Class Base64Laws `{!Base64} : Prop :=
  b64_roundtrip (bs : bytes) : b64_decode (b64_encode bs) = Some bs.

(** iroh's [UserData]: a string that parses only up to [MAX_LENGTH] bytes. *)
Class UserDataOps := {
  UserData : Type;
  USER_DATA_MAX_LENGTH : nat;
  parse_user_data : string → option UserData;
  user_data_as_ref : UserData → string;
}.
Class UserDataLaws `{!UserDataOps} : Prop := {
  parse_user_data_is_Some (s : string) :
    is_Some (parse_user_data s) ↔ String.length s ≤ USER_DATA_MAX_LENGTH;
  parse_user_data_as_ref (s : string) (u : UserData) :
    parse_user_data s = Some u → user_data_as_ref u = s;
}.

Inductive UserDataAlpnMatch := Match | Mismatch | Missing.

Inductive MetadataError (PcError : Type) :=
  | FailedToSerialize (e : PcError)
  | ExceedsMaxLength (max : nat).
Arguments FailedToSerialize {PcError} e.
Arguments ExceedsMaxLength {PcError} max.

Section UserData.
Context {PcError : Type} `{!Postcard PcError (list bytes), !Base64, !UserDataOps}.

Definition encode_alpns (alpns : list bytes) : Result (MetadataError PcError) UserData :=
  bs ← map_err FailedToSerialize (to_allocvec alpns);
  ok_or (parse_user_data (b64_encode bs)) (ExceedsMaxLength USER_DATA_MAX_LENGTH).

Definition decode_alpns (user_data : UserData) : list bytes :=
  default [] (bs ← b64_decode (user_data_as_ref user_data); pc_from_bytes (PcError := PcError) bs).

Definition user_data_has_alpn (user_data : UserData) (alpn : bytes) : bool :=
  existsb (λ a, bool_decide (a = alpn)) (decode_alpns user_data).

Definition user_data_has_service (user_data : UserData) (service_name : string) : bool :=
  let target := service_to_alpn service_name in
  existsb (λ a, bool_decide (a = target)) (decode_alpns user_data).

Definition user_data_alpns (user_data : UserData) : list bytes := decode_alpns user_data.

Definition classify_user_data_alpn (user_data : option UserData) (alpn : bytes)
  : UserDataAlpnMatch :=
  match user_data with
  | Some u => if user_data_has_alpn u alpn then Match else Mismatch
  | None => Missing
  end.
End UserData.

Section UserDataFacts.
Context {PcError : Type} `{!Postcard PcError (list bytes), !Base64, !UserDataOps}.
Abbreviation encode_alpns := (encode_alpns (PcError := PcError)).
Abbreviation user_data_alpns := (user_data_alpns (PcError := PcError)).
Abbreviation user_data_has_alpn := (user_data_has_alpn (PcError := PcError)).
Abbreviation user_data_has_service := (user_data_has_service (PcError := PcError)).
Abbreviation classify := (classify_user_data_alpn (PcError := PcError)).

Lemma user_data_has_alpn_true u alpn :
  user_data_has_alpn u alpn = true ↔ alpn ∈ user_data_alpns u.
Proof.
  unfold UserData.user_data_has_alpn, UserData.user_data_alpns.
  rewrite existsb_exists. setoid_rewrite <-list_elem_of_In.
  setoid_rewrite bool_decide_eq_true. naive_solver.
Qed.

Lemma encode_decode `{!PostcardLaws PcError (list bytes), !Base64Laws, !UserDataLaws} alpns u :
  encode_alpns alpns = Ok u → user_data_alpns u = alpns.
Proof.
  unfold UserData.encode_alpns, UserData.user_data_alpns, decode_alpns.
  destruct (to_allocvec alpns) as [bs|] eqn:E; [|done]. simpl.
  destruct (parse_user_data _) as [u'|] eqn:Hp; [|done]. intros [= <-].
  rewrite (parse_user_data_as_ref _ _ Hp), b64_roundtrip. simpl.
  by rewrite (postcard_roundtrip _ _ E).
Qed.

(** Published service metadata round-trips: what [encode_alpns] accepts
    decodes to the same list of ALPNs, whatever bytes they contain, and
    discovery then classifies a peer as a match for exactly the services it
    registered, and as missing only when it published nothing. *)
Lemma encode_alpns_roundtrip
  `{!PostcardLaws PcError (list bytes), !Base64Laws, !UserDataLaws} names u :
  encode_alpns (service_to_alpn <$> names) = Ok u →
  user_data_alpns u = service_to_alpn <$> names ∧
  (∀ name, user_data_has_service u name = true ↔ name ∈ names) ∧
  (∀ name, classify (Some u) (service_to_alpn name) = Match ↔ name ∈ names) ∧
  (∀ o alpn, classify o alpn = Missing ↔ o = None).
Proof.
  intros Hd%encode_decode.
  assert (Hhas : ∀ name, user_data_has_alpn u (service_to_alpn name) = true ↔ name ∈ names).
  { intros name. rewrite user_data_has_alpn_true, Hd. apply list_elem_of_fmap_inj, _. }
  split_and!; [done|exact Hhas| |].
  - intros name. rewrite <-Hhas. simpl. by destruct (user_data_has_alpn _ _).
  - intros [v|] alpn; simpl; [|done]. by destruct (user_data_has_alpn _ _).
Qed.

(** Encoding fails only with an explicit error: postcard's, or that the
    encoding is longer than [UserData] allows. *)
Lemma encode_alpns_error `{!UserDataLaws} alpns e :
  encode_alpns alpns = Err e ↔
  (∃ pe, to_allocvec alpns = Err pe ∧ e = FailedToSerialize pe) ∨
  (∃ bs, to_allocvec alpns = Ok bs ∧ e = ExceedsMaxLength USER_DATA_MAX_LENGTH ∧
     USER_DATA_MAX_LENGTH < String.length (b64_encode bs)).
Proof.
  unfold UserData.encode_alpns. destruct (to_allocvec alpns) as [bs|pe]; simpl.
  2: { split; [intros [= <-]; eauto | naive_solver]. }
  pose proof (parse_user_data_is_Some (b64_encode bs)) as Hp.
  destruct (parse_user_data _) as [u|]; simpl.
  - split; [done|]. intros [(? & ? & _)|(bs' & [= <-] & _ & Hl)]; [done|].
    destruct Hp as [Hp _]. specialize (Hp (mk_is_Some _ _ eq_refl)). lia.
  - assert (USER_DATA_MAX_LENGTH < String.length (b64_encode bs)).
    { destruct (decide (String.length (b64_encode bs) ≤ USER_DATA_MAX_LENGTH)) as [Hl|]; [|lia].
      by apply Hp, is_Some_None in Hl. }
    split; [intros [= <-]; eauto 6 | naive_solver].
Qed.

(** Metadata that is not base64url of a postcard list names no service. *)
Lemma malformed_user_data_empty u :
  (∀ bs, b64_decode (user_data_as_ref u) = Some bs →
     pc_from_bytes (PcError := PcError) (T := list bytes) bs = None) →
  user_data_alpns u = [].
Proof.
  unfold UserData.user_data_alpns, decode_alpns. intros Hbad.
  destruct (b64_decode _) as [bs|]; [|done]. simpl. by rewrite Hbad.
Qed.
End UserDataFacts.

(** ** Concrete inputs *)

Module UserDataDemo.
Import Demo.

(** Base64 is replaced by the identity on bytes; the limit is 245 bytes. *)
#[export] Instance b64 : Base64 := {|
  b64_encode := String.string_of_list_byte;
  b64_decode s := Some (string_bytes s);
|}.
#[export] Instance b64_laws : Base64Laws.
Proof. intros bs. unfold b64_decode, b64_encode. simpl. f_equal. apply String.list_byte_of_string_of_list_byte. Qed.

#[export] Instance user_data : UserDataOps := {|
  UserData := string;
  USER_DATA_MAX_LENGTH := 245;
  parse_user_data s := if String.length s <=? 245 then Some s else None;
  user_data_as_ref := id;
|}.
#[export] Instance user_data_laws : UserDataLaws.
Proof.
  split; simpl; intros s.
  - destruct (_ <=? 245) eqn:E; breflect; (split; intros Hs; [lia || by destruct Hs | done || lia]).
  - intros u. destruct (_ <=? 245); [|done]. by intros [= <-].
Qed.

Definition demo_names : list string := ["svc,comma"; "svc.dot"]%string.
Definition demo_user_data : UserData :=
  match encode_alpns (PcError := unit) (service_to_alpn <$> demo_names) with
  | Ok u => u
  | Err _ => EmptyString
  end.

Example demo_user_data_decodes :
  user_data_alpns (PcError := unit) demo_user_data = service_to_alpn <$> demo_names.
Proof. vm_compute. reflexivity. Qed.
End UserDataDemo.
