(* ===== verification/Discovery.v ===== *)
(** * Peers, feeds and discovery backends

    Models [src/swarm/discovery.rs] and [src/swarm/peers.rs].  A feed is the
    list of items its stream yields, in order; what the network delivers (the
    mDNS events, the broadcast messages, the DHT query results and the order
    in which concurrent queries complete) is a parameter. *)
From S2P Require Import Prelude Ords Iroh ServiceRecord DhtShards DhtPublish Alpn UserData.

Inductive Scope := ScopeAny | ScopeService (alpn : bytes).

(** [scope_matches] *)
Definition scope_matches (scope : Scope) (alpn : bytes) : bool :=
  match scope with
  | ScopeAny => true
  | ScopeService s => bool_decide (s = alpn)
  end.

Section Peers.
Context `{!IrohKeys}.

Record DiscoveredPeer := MkDiscoveredPeer { dp_id : EndpointId; dp_trust : Z }.

Record Peer := MkPeer {
  peer_id : EndpointId;
  peer_source : string;
  peer_remote_trust : Z;
  peer_source_trust : Z;
}.

(** [Peer::new], [Peer::trust] *)
Definition peer_new (d : DiscoveredPeer) (source : string) (source_trust : Z) : Peer :=
  MkPeer (dp_id d) source (dp_trust d) source_trust.
Definition peer_trust (p : Peer) : Z := Z.min (peer_remote_trust p) (peer_source_trust p).

(** [PeerFeedSpec], over the crate's error type. *)
Record PeerFeedSpec (E : Type) := MkPeerFeedSpec {
  pf_name : string;
  pf_priority : Z;
  pf_trust : Z;
  pf_scope : Scope;
  pf_stream : list (Result E DiscoveredPeer);
}.
Arguments MkPeerFeedSpec {E} _ _ _ _ _.
Arguments pf_name {E} _.
Arguments pf_priority {E} _.
Arguments pf_trust {E} _.
Arguments pf_scope {E} _.
Arguments pf_stream {E} _.

(** ** Feeds *)

Section Feeds.
Context {E : Type}.

Definition static_feed (peers : list EndpointId) (priority trust : Z) (scope : Scope)
  : PeerFeedSpec E := {|
  pf_name := "static";
  pf_priority := priority;
  pf_trust := trust;
  pf_scope := scope;
  pf_stream := (λ id, Ok (MkDiscoveredPeer id trust)) <$> peers;
|}.

(** The events of an mDNS subscription. *)
Inductive MdnsEvent `{!UserDataOps} :=
  | MdnsDiscovered (endpoint_id : EndpointId) (user_data : option UserData)
  | MdnsOther.

Definition mdns_feed {PcError : Type}
  `{!Postcard PcError (list bytes), !Base64, !UserDataOps}
  (events : list MdnsEvent) (alpn : bytes) (priority trust : Z) : PeerFeedSpec E := {|
  pf_name := "mdns";
  pf_priority := priority;
  pf_trust := trust;
  pf_scope := ScopeService alpn;
  pf_stream :=
    omap (λ event,
      match event with
      | MdnsDiscovered id user_data =>
          match classify_user_data_alpn (PcError := PcError) user_data alpn with
          | Match => Some (Ok (MkDiscoveredPeer id trust))
          | Mismatch => None
          | Missing => None
          end
      | MdnsOther => None
      end) events;
|}.

(** [None] in [messages] is a lagged receiver ([msg.ok()] drops it). *)
Definition peer_exchange_feed (messages : list (option EndpointId)) (priority trust : Z)
  : PeerFeedSpec E := {|
  pf_name := "peer-exchange";
  pf_priority := priority;
  pf_trust := trust;
  pf_scope := ScopeAny;
  pf_stream := (λ id, Ok (MkDiscoveredPeer id trust)) <$> omap id messages;
|}.

(** The peer of one resolved advertisement, if it passes the tag filter. *)
Definition feed_ad (required : list string) (trust : Z) (a : SignedServiceAd)
  : option DiscoveredPeer :=
  if negb (bool_decide (required = [])) && negb (has_tags required a) then None
  else (λ id, MkDiscoveredPeer id trust) <$> endpoint_id a.

(** One [while let Some(ads) = queries.next().await] loop over the results in
    completion order; [?] ends the stream at the first error. *)
Fixpoint feed_pass (required : list string) (trust : Z)
  (results : list (Result E (list SignedServiceAd)))
  : list (Result E DiscoveredPeer) * bool :=
  match results with
  | [] => ([], true)
  | Err e :: _ => ([Err e], false)
  | Ok ads :: results =>
      let '(out, go_on) := feed_pass required trust results in
      ((Ok <$> omap (feed_ad required trust) ads) ++ out, go_on)
  end.

Fixpoint feed_passes (required : list string) (trust : Z)
  (passes : list (list (Result E (list SignedServiceAd)))) : list (Result E DiscoveredPeer) :=
  match passes with
  | [] => []
  | pass :: passes =>
      let '(out, go_on) := feed_pass required trust pass in
      out ++ (if go_on then feed_passes required trust passes else [])
  end.

(** One pass: the clock is read, then every shard of that minute is queried;
    [completion] lists the shards in the order their queries complete. *)
Record DhtPass := {
  pass_offset : Z;
  pass_clock : option Z;
  pass_query : Z → Z → Result E (list SignedServiceAd);
  pass_completion : list Z;
}.

Definition run_pass (p : DhtPass) : option (list (Result E (list SignedServiceAd))) :=
  (λ minute, pass_query p minute <$> pass_completion p) <$>
    unix_minute (pass_clock p) (pass_offset p).

(** The burst makes a pass for each offset of [[0, -1]], every later tick one
    for offset 0; [None] is the panic of a clock before the epoch. *)
Definition dht_burst (required : list string) (trust : Z) (passes : list DhtPass)
  : option (list (Result E DiscoveredPeer)) :=
  feed_passes required trust <$> mapM run_pass passes.

Definition burst_offsets : list Z := [0%Z; (-1)%Z].

Definition dht_feed (alpn : bytes) (required : list string) (priority trust : Z)
  (burst ticks : list DhtPass) : option (PeerFeedSpec E) :=
  burst_items ← dht_burst required trust burst;
  tick_items ← dht_burst required trust ticks;
  Some {|
    pf_name := "dht";
    pf_priority := priority;
    pf_trust := trust;
    pf_scope := ScopeService alpn;
    pf_stream := burst_items ++ tick_items;
  |}.
End Feeds.

(** ** Backends *)

(** The [Discovery] trait. *)
Class Discovery (E B : Type) := {
  discovery_name : B → string;
  discovery_feeds : B → bytes → list (PeerFeedSpec E);
}.

Record StaticSpec := MkStaticSpec {
  ss_peers : list EndpointId;
  ss_priority : Z;
  ss_trust : Z;
  ss_scope : Scope;
}.
Record StaticBackend := MkStaticBackend { sb_specs : list StaticSpec }.

Definition static_backend_new : StaticBackend := MkStaticBackend [].
Definition add_peers (scope : Scope) (priority trust : Z) (peers : list EndpointId)
  (b : StaticBackend) : StaticBackend :=
  MkStaticBackend (sb_specs b ++ [MkStaticSpec peers priority trust scope]).

#[export] Instance static_discovery {E} : Discovery E StaticBackend := {|
  discovery_name _ := "static";
  discovery_feeds b _ :=
    (λ s, static_feed (ss_peers s) (ss_priority s) (ss_trust s) (ss_scope s)) <$> sb_specs b;
|}.

(** The receiver a [feeds] call subscribes sees the messages sent from then
    on: [pe_incoming]. *)
Record PeerExchangeBackend := MkPeerExchangeBackend {
  pe_incoming : list (option EndpointId);
  pe_priority : Z;
  pe_trust : Z;
}.
Definition peer_exchange_new (incoming : list (option EndpointId)) : PeerExchangeBackend :=
  MkPeerExchangeBackend incoming 110 100.

#[export] Instance peer_exchange_discovery {E} : Discovery E PeerExchangeBackend := {|
  discovery_name _ := "peer-exchange";
  discovery_feeds b _ := [peer_exchange_feed (pe_incoming b) (pe_priority b) (pe_trust b)];
|}.

Record MdnsBackend `{!UserDataOps} := MkMdnsBackend {
  mdns_events : list MdnsEvent;
  mdns_priority : Z;
  mdns_trust : Z;
}.
Definition mdns_backend_new `{!UserDataOps} (events : list MdnsEvent) : MdnsBackend :=
  MkMdnsBackend _ events 50 200.
Definition md_set_priority `{!UserDataOps} (p : Z) (b : MdnsBackend) : MdnsBackend :=
  MkMdnsBackend _ (mdns_events b) p (mdns_trust b).
Definition md_set_trust `{!UserDataOps} (t : Z) (b : MdnsBackend) : MdnsBackend :=
  MkMdnsBackend _ (mdns_events b) (mdns_priority b) t.

Definition mdns_discovery {E PcError : Type}
  `{!Postcard PcError (list bytes), !Base64, !UserDataOps} : Discovery E MdnsBackend := {|
  discovery_name _ := "mdns";
  discovery_feeds b alpn :=
    [mdns_feed (PcError := PcError) (mdns_events b) alpn (mdns_priority b) (mdns_trust b)];
|}.

(** [DhtBackend] without its handles; [poll_interval] in seconds. *)
Record DhtBackend := MkDhtBackend {
  db_priority : Z;
  db_trust : Z;
  db_poll_interval : Z;
  db_required_tags : list string;
}.
Definition with_dht : DhtBackend := MkDhtBackend 100 50 60 [].
(** [new]: [client] is whether the DHT client could bind. *)
Definition dht_backend_new {E : Type} (client : Result E unit) : Result E DhtBackend :=
  (λ _, with_dht) <$> client.
Definition db_set_priority (p : Z) (b : DhtBackend) : DhtBackend :=
  MkDhtBackend p (db_trust b) (db_poll_interval b) (db_required_tags b).
Definition db_set_trust (t : Z) (b : DhtBackend) : DhtBackend :=
  MkDhtBackend (db_priority b) t (db_poll_interval b) (db_required_tags b).
Definition db_set_poll_interval (d : Z) (b : DhtBackend) : DhtBackend :=
  MkDhtBackend (db_priority b) (db_trust b) d (db_required_tags b).
Definition db_set_required_tags (tags : list string) (b : DhtBackend) : DhtBackend :=
  MkDhtBackend (db_priority b) (db_trust b) (db_poll_interval b) tags.

(** [create_publisher], for the node whose secret key the endpoint holds. *)
Definition create_publisher (b : DhtBackend) (sk : SecretKey) (config : DhtPublisherConfig) : DhtPublisher :=
  publisher_new sk config.

(** [feeds], over what the burst and the ticks of the poll interval find. *)
Definition dht_backend_feeds {E : Type} (b : DhtBackend) (alpn : bytes)
  (burst ticks : list (DhtPass (E := E))) : option (list (PeerFeedSpec E)) :=
  feed ← dht_feed alpn (db_required_tags b) (db_priority b) (db_trust b) burst ticks;
  Some [feed].
End Peers.

(** ** Theorems *)

Section FeedFacts.
Context `{!IrohKeys} {E : Type}.
Implicit Types (results : list (Result E (list SignedServiceAd))).

Lemma feed_pass_Ok required trust (ads : list (list SignedServiceAd)) :
  feed_pass (E := E) required trust (Ok <$> ads) =
  (Ok <$> omap (feed_ad required trust) (concat ads), true).
Proof.
  induction ads as [|l ads IH]; csimpl; [done|].
  by rewrite IH, omap_app, fmap_app.
Qed.

Lemma feed_passes_Ok required trust (passes : list (list (list SignedServiceAd))) :
  feed_passes (E := E) required trust
    ((λ p : list (list SignedServiceAd), Ok (E := E) <$> p) <$> passes) =
  Ok <$> omap (feed_ad required trust) (concat (concat passes)).
Proof.
  induction passes as [|p passes IH]; csimpl; [done|].
  rewrite feed_pass_Ok. csimpl. by rewrite IH, <-fmap_app, <-omap_app, <-concat_app.
Qed.

(** Without required tags, an advertisement of a valid endpoint is a peer. *)
Lemma feed_ad_untagged trust a i :
  endpoint_id a = Some i → feed_ad [] trust a = Some (MkDiscoveredPeer i trust).
Proof. unfold feed_ad. simpl. by intros ->. Qed.
End FeedFacts.

Section PublisherFound.
Context `{!IrohKeys, !IrohKeysLaws, !Sha256, !Mainline, !MainlineLaws} {PcError E : Type}.
Context `{!Postcard PcError ServiceAdEnvelope, !Postcard PcError ServiceBucket}.
Context `{!PostcardLaws PcError ServiceBucket}.

(** The burst of a resolver at time [now] over a DHT that serves [items
    minute shard]; [completion] orders the queries of each pass. *)
Definition burst_over (items : Z → Z → list MutableItem) (alpn : bytes) (now : Z)
  (completion : Z → list Z) : list (DhtPass (E := E)) :=
  (λ offset, {|
     pass_offset := offset;
     pass_clock := Some now;
     pass_query minute shard :=
       Ok (query_shard (PcError := PcError) (items minute shard) (Some now) alpn minute shard);
     pass_completion := completion offset;
   |}) <$> burst_offsets.

Lemma burst_over_items items alpn now completion trust :
  ∃ minute0 minute1,
    minute0 = apply_minute_offset (now / 60) 0 ∧ minute1 = apply_minute_offset (now / 60) (-1) ∧
    dht_burst [] trust (burst_over items alpn now completion) =
    Some (Ok <$> omap (feed_ad [] trust) (concat
      (((λ shard, query_shard (PcError := PcError) (items minute0 shard) (Some now) alpn minute0 shard)
          <$> completion 0%Z) ++
       ((λ shard, query_shard (PcError := PcError) (items minute1 shard) (Some now) alpn minute1 shard)
          <$> completion (-1)%Z)))).
Proof.
  do 2 eexists. split_and!; [done..|]. unfold dht_burst, burst_over, burst_offsets.
  csimpl. f_equal.
  set (q minute shard := query_shard (PcError := PcError) (items minute shard) (Some now) alpn minute shard).
  rewrite <-(app_nil_r (_ ++ _)).
  pose proof (feed_passes_Ok (E := E) [] trust
    [q (apply_minute_offset (now / 60) 0) <$> completion 0%Z;
     q (apply_minute_offset (now / 60) (-1)) <$> completion (-1)%Z]) as Hp.
  csimpl in Hp. rewrite <-!list_fmap_compose in Hp. rewrite <-app_assoc. exact Hp.
Qed.

(** When a node has published a service into one of its shards within the last
    minute and the DHT serves the item it put, the initial burst of a resolver
    yields that node as a peer, in whatever order its concurrent queries
    complete. *)
Lemma burst_finds overflow_checks published envs sk alpn shard tags r puts item
  items now completion trust :
  (0 ≤ published ≤ now)%Z → (now < published + 60)%Z → (now + DHT_AD_TTL_SECS ≤ u64_max)%Z →
  shard ∈ replica_shards (as_bytes (public sk)) alpn →
  publish_shard (PcError := PcError) overflow_checks (Some published) envs sk alpn shard tags
    = (r, puts) →
  (∀ k b, b ∈ (read_shard_state (PcError := PcError) (envs k) alpn (published / 60) shard published).1 →
     node_id b = as_bytes (public sk) → (published_at b < published)%Z) →
  item ∈ puts → item ∈ items (published / 60)%Z shard →
  (∀ offset, completion offset ≡ₚ range 0 DHT_SHARD_COUNT) →
  ∃ out, dht_burst [] trust (burst_over items alpn now completion) = Some out ∧
    Ok (MkDiscoveredPeer (public sk) trust) ∈ out.
Proof.
  intros Hp Hnow Hmax Hshard Epub Hfresh Hput Hitem Hcompl.
  assert (Httl : (now < u64_saturating_add published DHT_AD_TTL_SECS)%Z).
  { unfold u64_saturating_add, DHT_AD_TTL_SECS in *. lia. }
  destruct (publish_then_resolve overflow_checks published envs sk alpn shard tags r puts item
    (items (published / 60)%Z shard) now Hp Httl Epub Hfresh Hput Hitem) as (a & Ha & He & _).
  destruct (burst_over_items items alpn now completion trust) as (m0 & m1 & Hm0 & Hm1 & ->).
  eexists. split; [done|]. apply list_elem_of_fmap_2, list_elem_of_omap.
  exists a. split; [|by apply feed_ad_untagged].
  apply list_elem_of_In, in_concat. setoid_rewrite <-list_elem_of_In.
  eexists. split; [|exact Ha]. apply elem_of_app. rewrite !list_elem_of_fmap.
  assert (Hin : ∀ offset, shard ∈ completion offset).
  { intros offset. rewrite Hcompl. unfold range. rewrite elem_of_seqZ.
    pose proof (replica_shards_range _ _ _ Hshard). lia. }
  unfold DHT_AD_TTL_SECS in Hmax.
  destruct (minute_window published now) as [Hm|Hm]; [lia..| |].
  - left. exists shard. rewrite Hm0, <-Hm. auto.
  - right. exists shard. rewrite Hm1, <-Hm. auto.
Qed.
End PublisherFound.
