(* ===== verification/Findable.v ===== *)
(** * When a publisher can be found

    Puts the publisher's rounds ([DhtPublish]), the DHT between them and the
    resolver's feed ([Discovery]) on one clock, in seconds: the publisher runs a
    round every [publish_interval] ([src/swarm/dht/publisher.rs]), the feed
    makes its burst when it is created and a pass per tick of [poll_interval]
    ([src/swarm/peers.rs]).  Nobody else publishes the service, puts are accepted
    and what was put is served until it is replaced.  [Find] draws the consequence
    for a client's [find]. *)
From S2P Require Import Prelude Ords Iroh ServiceRecord DhtShards DhtPublish Discovery.

(** What the DHT serves for the service: the item last put into a shard of a
    minute. *)
Abbreviation Dht := (gmap (Z * Z) MutableItem).

Section Timeline.
Context `{!IrohKeys, !Sha256, !Mainline} {PcError E : Type}.
Context `{!Postcard PcError ServiceAdEnvelope, !Postcard PcError ServiceBucket}.
Context (overflow_checks : bool) (alpn : bytes) (sk : SecretKey) (tags : list string).

Definition dht_items (d : Dht) (minute shard : Z) : list MutableItem :=
  option_list (d !! (minute, shard)).

Definition dht_env (d : Dht) (minute shard : Z) : DhtEnv := {|
  get_mutable _ _ := Some (dht_items d minute shard);
  put_mutable _ _ := PutOk;
|}.

(** The clock and the DHT a round at time [t] finds. *)
Definition round_world (d : Dht) (t : Z) (alpn : bytes) (shard : Z)
  : option Z * (nat → DhtEnv) := (Some t, λ _, dht_env d (t / 60) shard).

Definition round_puts (d : Dht) (t shard : Z) : list MutableItem :=
  (publish_shard (PcError := PcError) overflow_checks
     (round_world d t alpn shard).1 (round_world d t alpn shard).2 sk alpn shard tags).2.

Definition put_last (t : Z) (d : Dht) (shard : Z) : Dht :=
  match last (round_puts d t shard) with
  | Some item => <[(t / 60, shard)%Z := item]> d
  | None => d
  end.

(** One round of the publisher: [publish_all]'s effect on the DHT, and whether
    every publication succeeded. *)
Definition dht_round (d : Dht) (t : Z) : Dht :=
  foldl (put_last t) d (replica_shards (as_bytes (public sk)) alpn).

Definition round_ok (d : Dht) (t : Z) : bool :=
  forallb (λ x : bytes * Z * option (Result (PublishError PcError) unit),
             match x.2 with Some (Ok tt) => true | _ => false end)
    (publish_all overflow_checks (round_world d t) [alpn] sk tags).

Definition dht_after (ts : list Z) : Dht := foldl dht_round ∅ ts.

(** Every publication of the rounds succeeds, each against the DHT the ones
    before it left. *)
Fixpoint rounds_ok (d : Dht) (ts : list Z) : bool :=
  match ts with
  | [] => true
  | t :: ts => round_ok d t && rounds_ok (dht_round d t) ts
  end.

(** The rounds of [run] until [now]: one at [start]; when it has returned, at
    [first], the interval is made, whose immediate tick is taken; then one per
    tick. *)
Definition rounds_until (start first interval now : Z) : list Z :=
  (if (now <? start)%Z then [] else [start]) ++
  ((λ k, first + k * interval)%Z <$>
    seqZ 1 (if (now <? first)%Z then 0%Z else (now - first) / interval)).

(** What the DHT serves at time [now]. *)
Definition dht_at (start first interval now : Z) : Dht := dht_after (rounds_until start first interval now).

(** A pass of the feed at time [now]: what a burst does for each offset, and a
    tick for offset 0. *)
Definition pass_at (d : Dht) (now : Z) (completion : Z → list Z) (offset : Z) : DhtPass (E := E) := {|
  pass_offset := offset;
  pass_clock := Some now;
  pass_query minute shard :=
    Ok (query_shard (PcError := PcError) (dht_items d minute shard) (Some now) alpn minute shard);
  pass_completion := completion offset;
|}.

Definition burst_at (start first interval now : Z) (completion : Z → list Z) : list DhtPass :=
  pass_at (dht_at start first interval now) now completion <$> burst_offsets.

(** The ticks of the poll interval of a feed created at [created]: the first
    one, immediate, is skipped. *)
Definition tick_times (created poll : Z) (n : nat) : list Z :=
  (λ k, created + k * poll)%Z <$> seqZ 1 (Z.of_nat n).

Definition ticks_at (start first interval : Z) (completion : Z → list Z) (times : list Z) : list DhtPass :=
  (λ now, pass_at (dht_at start first interval now) now completion 0) <$> times.

(** The feed over its first [n] ticks. *)
Definition feed_over (start first interval created poll : Z) (n : nat) (completion : Z → list Z)
  (priority trust : Z) : option (PeerFeedSpec E) :=
  dht_feed alpn [] priority trust (burst_at start first interval created completion)
    (ticks_at start first interval completion (tick_times created poll n)).
End Timeline.

(** ** Theorems *)

(** Times of a periodic process within a minute. *)
Lemma rounds_until_elem start first interval now t :
  (0 < interval)%Z →
  t ∈ rounds_until start first interval now ↔
  (t ≤ now)%Z ∧ (t = start ∨ ∃ k, (1 ≤ k)%Z ∧ t = (first + k * interval)%Z).
Proof.
  intros Hi. unfold rounds_until. rewrite elem_of_app, list_elem_of_fmap.
  setoid_rewrite elem_of_seqZ.
  pose proof (Z.mul_div_le (now - first) interval Hi).
  pose proof (Z.mul_succ_div_gt (now - first) interval Hi).
  assert (Hl : t ∈ (if (now <? start)%Z then [] else [start]) ↔ (t ≤ now)%Z ∧ t = start).
  { destruct (Z.ltb_spec now start); [|rewrite list_elem_of_singleton; naive_solver lia].
    rewrite elem_of_nil. split; [done|lia]. }
  rewrite Hl. destruct (Z.ltb_spec now first).
  - split; [intros [[? ?]|(k & _ & ?)]; [auto|lia]|].
    intros (? & [?|(k & ? & ?)]); [by left|nia].
  - split.
    + intros [[? ?]|(k & -> & Hk)]; [auto|]. split; [nia|]. right. exists k. lia.
    + intros (Hle & [?|(k & Hk & ->)]); [by left|]. right. exists k. split; [done|]. nia.
Qed.

(** Later in the list is later in time. *)
Definition increasing (ts : list Z) : Prop :=
  ∀ i j x y, ts !! i = Some x → ts !! j = Some y → i < j → (x < y)%Z.

Lemma increasing_snoc ts t :
  increasing (ts ++ [t]) → increasing ts ∧ ∀ u, u ∈ ts → (u < t)%Z.
Proof.
  intros Hinc. split.
  - intros i j x y Hx Hy. apply Hinc; by apply lookup_app_l_Some.
  - intros u [i Hu]%list_elem_of_lookup.
    apply (Hinc i (length ts)); [by apply lookup_app_l_Some|by apply list_lookup_middle|].
    by eapply lookup_lt_Some.
Qed.

Lemma increasing_cons t ts :
  increasing ts → (∀ u, u ∈ ts → (t < u)%Z) → increasing (t :: ts).
Proof.
  intros Hinc Hlt [|i] [|j] x y; simpl; intros Hx Hy Hij; simplify_eq; [lia| |lia|].
  - by apply Hlt, list_elem_of_lookup_2 with j.
  - apply (Hinc i j); [done|done|lia].
Qed.

Lemma rounds_until_increasing start first interval now :
  (0 < interval)%Z → (start ≤ first)%Z → increasing (rounds_until start first interval now).
Proof.
  intros Hi Hf. unfold rounds_until.
  assert (Hticks : ∀ n, increasing ((λ k, first + k * interval)%Z <$> seqZ 1 n)).
  { intros n i j x y. rewrite !list_lookup_fmap.
    intros (? & (-> & _)%lookup_seqZ & ->)%fmap_Some (? & (-> & _)%lookup_seqZ & ->)%fmap_Some Hlt.
    nia. }
  destruct (now <? start)%Z; [apply Hticks|]. apply increasing_cons; [apply Hticks|].
  intros u (k & -> & Hk%elem_of_seqZ)%list_elem_of_fmap. nia.
Qed.

(** A publisher whose interval divides a minute has run a round in the current
    minute exactly if it started in it, or has had a tick and the clock has
    reached the phase of the ticks in it. *)
Lemma round_this_minute start first interval now :
  (0 < interval)%Z → (interval | 60)%Z → (start ≤ now)%Z → (start ≤ first)%Z →
  (∃ t, t ∈ rounds_until start first interval now ∧ (t / 60 = now / 60)%Z) ↔
  (start / 60 = now / 60)%Z ∨
  ((first + interval ≤ now)%Z ∧ (first mod interval ≤ now mod 60)%Z).
Proof.
  intros Hi [q Hq] Hle Hf. setoid_rewrite (rounds_until_elem _ _ _ _ _ Hi).
  pose proof (Z.div_mod now 60 ltac:(lia)). pose proof (Z.mod_pos_bound now 60 ltac:(lia)).
  pose proof (Z.div_mod first interval ltac:(lia)). pose proof (Z.mod_pos_bound first interval Hi).
  set (r := (first mod interval)%Z) in *. set (c := (first / interval)%Z) in *.
  set (m := (now / 60)%Z) in *.
  assert (Hm : (60 * m = m * q * interval)%Z) by (rewrite Hq; lia). split.
  - intros (t & (Hnow & [->|(k & Hk & ->)]) & Ht); [by left|right].
    pose proof (Z.div_mod (first + k * interval) 60 ltac:(lia)) as Hd.
    pose proof (Z.mod_pos_bound (first + k * interval) 60 ltac:(lia)). rewrite Ht in Hd.
    assert (m * q ≤ c + k)%Z by nia.
    assert (m * q * interval ≤ (c + k) * interval)%Z by (apply Z.mul_le_mono_nonneg_r; lia).
    split; [nia|lia].
  - intros [Hs|[Hfirst Hr]]; [exists start; auto|]. destruct (Z.le_gt_cases (c + 1) (m * q)).
    + exists (60 * m + r)%Z. split; [split; [lia|right; exists (m * q - c)%Z; split; lia]|].
      symmetry. apply (Z.div_unique_pos _ 60 m r); lia.
    + assert (m * q * interval ≤ c * interval)%Z by (apply Z.mul_le_mono_nonneg_r; lia).
      exists (first + interval)%Z. split; [split; [lia|right; exists 1%Z; lia]|].
      symmetry. apply (Z.div_unique_pos _ 60 m (first + interval - 60 * m)); lia.
Qed.

(** Ticks a whole number of minutes apart are all at the same second of the
    minute as the creation of the feed. *)
Lemma tick_times_phase created poll n now :
  (0 < poll)%Z → (60 | poll)%Z → now ∈ tick_times created poll n →
  (now mod 60 = created mod 60)%Z ∧ (created < now ≤ created + Z.of_nat n * poll)%Z.
Proof.
  intros Hpos [q Hq]. unfold tick_times. rewrite list_elem_of_fmap.
  intros (k & -> & Hk%elem_of_seqZ). split; [|nia].
  rewrite Hq, Z.mul_assoc. apply Z.mod_add. lia.
Qed.

Section FindableFacts.
Context `{!IrohKeys, !IrohKeysLaws, !Sha256, !Mainline, !MainlineLaws} {PcError E : Type}.
Context `{!Postcard PcError ServiceAdEnvelope, !Postcard PcError ServiceBucket}.
Context `{!PostcardLaws PcError ServiceBucket}.
Context (overflow_checks : bool) (alpn : bytes) (sk : SecretKey) (tags : list string).
Implicit Types (d : Dht) (completion : Z → list Z).

Abbreviation publish_shard := (publish_shard (PcError := PcError) overflow_checks).
Abbreviation round_puts := (round_puts (PcError := PcError) overflow_checks alpn sk tags).
Abbreviation put_last := (put_last (PcError := PcError) overflow_checks alpn sk tags).
Abbreviation dht_round := (dht_round (PcError := PcError) overflow_checks alpn sk tags).
Abbreviation round_ok := (round_ok (PcError := PcError) overflow_checks alpn sk tags).
Abbreviation rounds_ok := (rounds_ok (PcError := PcError) overflow_checks alpn sk tags).
Abbreviation dht_after := (dht_after (PcError := PcError) overflow_checks alpn sk tags).
Abbreviation shards := (replica_shards (as_bytes (public sk)) alpn).

(** The shards of a round are distinct, so each is published against what it
    held before the round. *)
Lemma foldl_put_last d t shards' m s :
  NoDup shards' →
  foldl (put_last t) d shards' !! (m, s) =
  if decide (m = t / 60 ∧ s ∈ shards')%Z
  then match last (round_puts d t s) with Some item => Some item | None => d !! (m, s) end
  else d !! (m, s).
Proof.
  revert d. induction shards' as [|s0 l IH]; intros d Hnd; simpl.
  { rewrite decide_False by set_solver. done. }
  apply NoDup_cons in Hnd as [Hs0 Hnd]. rewrite (IH _ Hnd). clear IH.
  assert (Hput : ∀ m' s', put_last t d s0 !! (m', s') =
    if decide (m' = t / 60 ∧ s' = s0)%Z
    then match last (round_puts d t s0) with Some item => Some item | None => d !! (m', s') end
    else d !! (m', s')).
  { intros m' s'. unfold Findable.put_last. destruct (last _) as [item|].
    - destruct (decide (m' = t / 60 ∧ s' = s0)%Z) as [[-> ->]|Hne].
      + apply lookup_insert_eq.
      + apply lookup_insert_ne. intros [= <- <-]. by apply Hne.
    - by destruct (decide _). }
  assert (Heq : ∀ s', s' ≠ s0 → round_puts (put_last t d s0) t s' = round_puts d t s').
  { intros s' Hne. unfold Findable.round_puts, round_world, dht_env, dht_items. simpl.
    rewrite Hput, decide_False by naive_solver. done. }
  rewrite Hput. destruct (decide (m = t / 60 ∧ s ∈ l)%Z) as [[-> Hin]|Hn].
  - assert (s ≠ s0) by set_solver. rewrite Heq by done.
    rewrite (decide_False (P := _ ∧ s = s0)) by naive_solver.
    by rewrite decide_True by set_solver.
  - destruct (decide (m = t / 60 ∧ s = s0)%Z) as [[-> ->]|Hn'].
    + by rewrite decide_True by set_solver.
    + rewrite decide_False; [done|]. rewrite elem_of_cons. naive_solver.
Qed.

Lemma shards_NoDup : NoDup shards.
Proof. apply (replica_shards_spec (as_bytes (public sk)) alpn DHT_SHARD_COUNT DHT_REPLICA_COUNT). Qed.

Lemma shards_inhabited : ∃ s, s ∈ shards.
Proof.
  pose proof (replica_shards_spec (as_bytes (public sk)) alpn DHT_SHARD_COUNT DHT_REPLICA_COUNT)
    as (Hlen & _).
  destruct (replica_shards_with_limits _ _ _ _) as [|s l] eqn:Es; [by vm_compute in Hlen|].
  exists s. unfold replica_shards. rewrite Es. by left.
Qed.

(** A publication that succeeds where every put is accepted makes one put. *)
Lemma publish_ok_put t envs s puts :
  (∀ k item cas, put_mutable (envs k) item cas = PutOk) →
  publish_shard (Some t) envs sk alpn s tags = (Some (Ok tt), puts) → ∃ item, puts = [item].
Proof.
  intros Hput. unfold DhtPublish.publish_shard. destruct (sign_ad _ _ _ _ _ _ _) as [a|e]; [|done].
  unfold DHT_PUBLISH_RETRIES. cbn [publish_loop]. unfold publish_attempt.
  destruct (read_shard_state _ _ _ _ _) as [ads latest].
  destruct (trim_to_size _ _) as [[[]|] b]; [|by intros [= ]..].
  destruct (to_allocvec _); [|by intros [= ]]. destruct (next_seq _ _); [|by intros [= ]].
  rewrite Hput. intros [= <-]. eauto.
Qed.

Lemma round_ok_put d t s :
  round_ok d t = true → s ∈ shards → ∃ item,
    publish_shard (Some t) (λ _, dht_env d (t / 60) s) sk alpn s tags = (Some (Ok tt), [item]).
Proof.
  intros Hok Hs. unfold Findable.round_ok in Hok. rewrite forallb_forall in Hok.
  destruct (publish_shard (Some t) (λ _, dht_env d (t / 60) s) sk alpn s tags) as [r puts] eqn:Ep.
  assert (Hr : match r with Some (Ok tt) => true | _ => false end = true).
  { apply (Hok (alpn, s, r)), list_elem_of_In, list_elem_of_fmap. exists (alpn, s).
    split; [by unfold round_world; cbn [fst snd]; rewrite Ep|]. apply list_elem_of_bind. exists alpn.
    split; [by apply list_elem_of_fmap_2|by left]. }
  destruct r as [[[]|]|]; [|done..].
  apply publish_ok_put in Ep as [item ->]; [eauto|done].
Qed.

(** What the DHT holds after the rounds [ts]: what was put in one of them, and in
    each shard of each minute with a round, an item that makes the publisher
    found. *)
Record lone_inv d (ts : list Z) : Prop := {
  li_item : ∀ m s item, d !! (m, s) = Some item → ∃ bucket t,
    t ∈ ts ∧ m = (t / 60)%Z ∧
    pc_from_bytes (item_value item) = Some bucket ∧ ∀ a, a ∈ sb_ads bucket → published_at a ∈ ts;
  li_served : ∀ t s, t ∈ ts → s ∈ shards → ∃ t', t' ∈ ts ∧ (t' / 60 = t / 60)%Z ∧
    ∀ now, (t' ≤ now)%Z → (now < u64_saturating_add t' DHT_AD_TTL_SECS)%Z →
    ∃ a, a ∈ query_shard (PcError := PcError) (dht_items d (t / 60) s) (Some now) alpn (t / 60) s ∧
      endpoint_id a = Some (public sk);
}.

(** What a publisher reads back was signed in one of its earlier rounds. *)
Lemma read_back d ts t s a :
  lone_inv d ts →
  a ∈ (read_shard_state (PcError := PcError) (dht_env d (t / 60) s) alpn (t / 60) s t).1 →
  published_at a ∈ ts.
Proof.
  intros [Hitem _]. unfold read_shard_state, dht_env, dht_items. simpl. intros Ha.
  destruct (merge_valid_facts (PcError := PcError) alpn (t / 60) s t
    (decode_buckets (PcError := PcError) (option_list (d !! ((t / 60)%Z, s))))) as (_ & _ & Hin & _).
  apply Hin, list_elem_of_filter in Ha as [_ (b & Hb & (_ & Hdec)%list_elem_of_filter)%list_elem_of_bind].
  apply list_elem_of_omap in Hdec as (item & Hi & Hdec).
  destruct (d !! _) as [item'|] eqn:El; [|by apply elem_of_nil in Hi].
  apply list_elem_of_singleton in Hi as ->.
  destruct (Hitem _ _ _ El) as (b' & _ & _ & _ & Hb' & Hads).
  apply Hads. congruence.
Qed.

(** A successful round, later than those before it. *)
Lemma lone_inv_round d ts t :
  lone_inv d ts → (∀ u, u ∈ ts → (u < t)%Z) → (0 ≤ t)%Z → (t + DHT_AD_TTL_SECS ≤ u64_max)%Z →
  round_ok d t = true →
  lone_inv (dht_round d t) (ts ++ [t]).
Proof.
  intros Hinv Hlt H0t Hmax Hok.
  assert (Hnew : ∀ s, s ∈ shards → ∃ item, round_puts d t s = [item] ∧
    publish_shard (Some t) (λ _, dht_env d (t / 60) s) sk alpn s tags = (Some (Ok tt), [item])).
  { intros s Hs. destruct (round_ok_put d t s Hok Hs) as [item Ep]. exists item. split; [|done].
    unfold Findable.round_puts, round_world. cbn [fst snd]. by rewrite Ep. }
  assert (Hlook : ∀ m s, dht_round d t !! (m, s) =
    if decide (m = t / 60 ∧ s ∈ shards)%Z then last (round_puts d t s) else d !! (m, s)).
  { intros m s. unfold Findable.dht_round. rewrite foldl_put_last by apply shards_NoDup.
    destruct (decide _) as [[-> Hs]|]; [|done]. by destruct (Hnew s Hs) as (item & -> & _). }
  split.
  - intros m s item. rewrite Hlook. destruct (decide _) as [[-> Hs]|Hn].
    + destruct (Hnew s Hs) as (item' & -> & Ep). intros [= <-].
      destruct (publish_shard_good _ _ _ _ _ _ _ _ _ Ep) as [_ Hall].
      destruct (Hall item') as (k & bucket & ad & Hsign & Hgood); [by left|].
      exists bucket, t. split_and!; [apply elem_of_app; right; by left|done|by eapply gi_value|].
      intros a [->|Ha]%(gi_ads _ _ _ _ _ _ _ _ Hgood); apply elem_of_app; [right|left].
      * destruct (local_ad_verifies sk alpn (t / 60) s tags t t ad Hsign) as (_ & _ & _ & ->);
          [lia|unfold u64_saturating_add, DHT_AD_TTL_SECS in *; lia|by left].
      * by eapply read_back.
    + intros (b & t0 & Ht0 & Hm & Hb & Hads)%(li_item d ts Hinv). exists b, t0.
      split_and!; [by apply elem_of_app; left|done|done|].
      intros a Ha. apply elem_of_app. left. by apply Hads.
  - intros t0 s Ht0 Hs. destruct (decide (t0 / 60 = t / 60)%Z) as [Em|Hne].
    + exists t. split_and!; [apply elem_of_app; right; by left|done|]. intros now Hle Hnow.
      destruct (Hnew s Hs) as (item & Hp & Ep). rewrite Em.
      assert (Hi : item ∈ dht_items (dht_round d t) (t / 60) s).
      { unfold dht_items. rewrite Hlook, decide_True, Hp by done. by left. }
      destruct (publish_then_resolve (PcError := PcError) overflow_checks t
        (λ _, dht_env d (t / 60) s) sk alpn s tags _ [item] item
        (dht_items (dht_round d t) (t / 60) s) now (conj H0t Hle) Hnow Ep)
        as (a & Ha & He & _); [|by left|exact Hi|eauto].
      intros k b Hb _. apply Hlt. by eapply read_back.
    + apply elem_of_app in Ht0 as [Ht0|Ht0%list_elem_of_singleton]; [|by subst].
      destruct (li_served d ts Hinv t0 s Ht0 Hs) as (t' & Ht' & Hm & Hs').
      exists t'. split_and!; [by apply elem_of_app; left|done|].
      unfold dht_items. rewrite Hlook, decide_False by tauto. exact Hs'.
Qed.

Lemma rounds_ok_snoc d ts t :
  rounds_ok d (ts ++ [t]) = rounds_ok d ts && round_ok (foldl dht_round d ts) t.
Proof.
  revert d. induction ts as [|u ts IH]; intros d; cbn [app Findable.rounds_ok foldl].
  - apply andb_true_r.
  - rewrite IH. apply andb_assoc.
Qed.

Lemma lone_inv_after ts :
  increasing ts → (∀ t, t ∈ ts → (0 ≤ t)%Z ∧ (t + DHT_AD_TTL_SECS ≤ u64_max)%Z) →
  rounds_ok ∅ ts = true → lone_inv (dht_after ts) ts.
Proof.
  induction ts as [|t ts IH] using rev_ind; intros Hinc Hrange Hok.
  { split; [intros m s item El; discriminate El|intros t s Ht; by apply elem_of_nil in Ht]. }
  rewrite rounds_ok_snoc in Hok. apply andb_true_iff in Hok as [Hok Hokt].
  apply increasing_snoc in Hinc as [Hinc Hlt].
  destruct (Hrange t) as [? ?]; [apply elem_of_app; right; by left|].
  unfold Findable.dht_after. rewrite foldl_snoc.
  apply lone_inv_round; [|done..]. apply IH; [done| |done].
  intros u Hu. apply Hrange, elem_of_app. by left.
Qed.

(** What a pass over [d] at [now] resolves. *)
Definition pass_ads d now completion (offset : Z) : list (list SignedServiceAd) :=
  let minute := apply_minute_offset (now / 60) offset in
  (λ shard, query_shard (PcError := PcError) (dht_items d minute shard) (Some now) alpn minute shard)
    <$> completion offset.

(** The feed of passes that do not fail yields every peer resolved. *)
Lemma burst_passes trust (ps : list (DhtPass (E := E))) (ads : list (list (list SignedServiceAd))) :
  Forall2 (λ p a, run_pass p = Some (Ok <$> a)) ps ads →
  dht_burst [] trust ps = Some (Ok <$> omap (feed_ad [] trust) (concat (concat ads))).
Proof.
  intros Hf. unfold dht_burst.
  assert (mapM run_pass ps = Some ((λ a, Ok <$> a) <$> ads)) as ->.
  { induction Hf as [|p a ps ads Hp _ IH]; [done|]. simpl. by rewrite Hp, IH. }
  simpl. f_equal. apply feed_passes_Ok.
Qed.

Lemma run_pass_at d now completion offset :
  run_pass (pass_at (PcError := PcError) (E := E) alpn d now completion offset) =
  Some (Ok <$> pass_ads d now completion offset).
Proof. unfold run_pass, pass_at, pass_ads. simpl. by rewrite <-list_fmap_compose. Qed.

(** A pass in a minute without a round finds nothing. *)
Lemma pass_ads_none d ts now completion offset :
  lone_inv d ts → (∀ t, t ∈ ts → (t / 60)%Z ≠ apply_minute_offset (now / 60) offset) →
  concat (pass_ads d now completion offset) = [].
Proof.
  intros Hinv Hno. unfold pass_ads. induction (completion offset) as [|s l IH]; [done|].
  csimpl. rewrite IH, app_nil_r. unfold dht_items. destruct (d !! _) as [item|] eqn:El; [|done].
  destruct (li_item d ts Hinv _ _ _ El) as (_ & t & Ht & Hm & _). by destruct (Hno t Ht).
Qed.

(** A pass in the minute of a round, the current or the previous one, finds the
    publisher. *)
Lemma pass_ads_found d ts now completion offset t :
  lone_inv d ts → (∀ u, u ∈ ts → (0 ≤ u ≤ now)%Z) → (now + DHT_AD_TTL_SECS ≤ u64_max)%Z →
  completion offset ≡ₚ range 0 DHT_SHARD_COUNT →
  t ∈ ts → (t / 60)%Z = apply_minute_offset (now / 60) offset → (now / 60 ≤ t / 60 + 1)%Z →
  ∃ a, a ∈ concat (pass_ads d now completion offset) ∧ endpoint_id a = Some (public sk).
Proof.
  intros Hinv Hts Hmax Hcompl Ht Hm Hrecent.
  destruct shards_inhabited as [s Hs].
  destruct (li_served d ts Hinv t s Ht Hs) as (t' & Ht' & Em & Hserved).
  pose proof (Hts t' Ht'). destruct (Hserved now) as (a & Ha & He); [lia| |].
  { unfold u64_saturating_add, DHT_AD_TTL_SECS in *.
    pose proof (Z.div_mod t' 60 ltac:(lia)). pose proof (Z.mod_pos_bound t' 60 ltac:(lia)).
    pose proof (Z.div_mod now 60 ltac:(lia)). pose proof (Z.mod_pos_bound now 60 ltac:(lia)). lia. }
  exists a. split; [|done]. apply list_elem_of_In, in_concat. setoid_rewrite <-list_elem_of_In.
  eexists. split; [|exact Ha]. unfold pass_ads. rewrite <-Hm.
  apply list_elem_of_fmap. exists s. split; [done|]. rewrite Hcompl. unfold range. rewrite elem_of_seqZ.
  pose proof (replica_shards_range _ _ _ Hs). lia.
Qed.

(** ** The whole timeline *)

Lemma rounds_until_prefix start first interval now last :
  (0 < interval)%Z → (start ≤ first)%Z → (now ≤ last)%Z →
  ∃ l, rounds_until start first interval last = rounds_until start first interval now ++ l.
Proof.
  intros Hi Hf Hle. unfold rounds_until.
  set (count := λ now : Z, if (now <? first)%Z then 0%Z else ((now - first) / interval)%Z).
  change (∃ l, (if (last <? start)%Z then [] else [start]) ++
      ((λ k, (first + k * interval)%Z) <$> seqZ 1 (count last)) =
    ((if (now <? start)%Z then [] else [start]) ++
      ((λ k, (first + k * interval)%Z) <$> seqZ 1 (count now))) ++ l).
  assert (0 ≤ count now ≤ count last)%Z.
  { unfold count. pose proof (Z.div_le_mono (now - first) (last - first) interval).
    pose proof (Z.div_pos (now - first) interval). pose proof (Z.div_pos (last - first) interval).
    destruct (Z.ltb_spec now first), (Z.ltb_spec last first); lia. }
  destruct (Z.ltb_spec now start).
  - assert (count now = 0%Z) as -> by (unfold count; by rewrite (proj2 (Z.ltb_lt now first)) by lia).
    simpl. eauto.
  - rewrite (proj2 (Z.ltb_ge last start)) by lia.
    replace (count last) with (count now + (count last - count now))%Z by lia.
    rewrite seqZ_app, fmap_app by lia. eexists. by rewrite <-app_assoc.
Qed.

Lemma rounds_ok_app d ts ts' :
  rounds_ok d (ts ++ ts') = rounds_ok d ts && rounds_ok (foldl dht_round d ts) ts'.
Proof.
  revert d. induction ts as [|u ts IH]; intros d; cbn [app Findable.rounds_ok foldl]; [done|].
  rewrite IH. apply andb_assoc.
Qed.

(** A publisher whose rounds succeed until [last], and what the passes of a
    feed resolve on the way. *)
Section Periodic.
Context (start first interval last : Z) (completion : Z → list Z) (trust : Z).
Context (Hinterval : (0 < interval)%Z) (Hdiv : (interval | 60)%Z).
Context (Hstart : (0 ≤ start)%Z) (Hfirst : (start ≤ first)%Z) (Hlast : (last + DHT_AD_TTL_SECS ≤ u64_max)%Z).
Context (Hok : rounds_ok ∅ (rounds_until start first interval last) = true).
Context (Hcompletion : ∀ offset, completion offset ≡ₚ range 0 DHT_SHARD_COUNT).

Abbreviation dht_at := (dht_at (PcError := PcError) overflow_checks alpn sk tags start first interval).
Abbreviation burst_at :=
  (burst_at (PcError := PcError) (E := E) overflow_checks alpn sk tags start first interval).
Abbreviation ticks_at :=
  (ticks_at (PcError := PcError) (E := E) overflow_checks alpn sk tags start first interval completion).
Abbreviation tick_ads now := (pass_ads (dht_at now) now completion 0).

Lemma rounds_until_range now t :
  t ∈ rounds_until start first interval now → (start ≤ t ≤ now)%Z.
Proof. rewrite rounds_until_elem by done. intros (? & [->|(k & ? & ->)]); nia. Qed.

Lemma dht_at_inv now :
  (now ≤ last)%Z → lone_inv (dht_at now) (rounds_until start first interval now).
Proof.
  intros Hle. apply lone_inv_after.
  - by apply rounds_until_increasing.
  - intros t Ht%rounds_until_range. lia.
  - destruct (rounds_until_prefix start first interval now last) as [l El]; [done..|].
    rewrite El, rounds_ok_app in Hok. by apply andb_true_iff in Hok as [? _].
Qed.

(** A pass for the current minute finds the publisher in a minute with a
    round, and nothing in another. *)
Lemma tick_ads_found now :
  (0 ≤ now)%Z → (start ≤ now ≤ last)%Z → (first + interval ≤ now)%Z →
  (first mod interval ≤ now mod 60)%Z →
  ∃ a, a ∈ concat (tick_ads now) ∧ endpoint_id a = Some (public sk).
Proof.
  intros H0n Hnow Hf Hphase.
  destruct (proj2 (round_this_minute start first interval now Hinterval Hdiv ltac:(lia) Hfirst)
    (or_intror (conj Hf Hphase))) as (t & Ht & Hm).
  apply (pass_ads_found _ (rounds_until start first interval now) _ _ _ t); try done.
  - apply dht_at_inv. lia.
  - intros u Hu%rounds_until_range. lia.
  - lia.
  - rewrite Hm. unfold apply_minute_offset, u64_saturating_add, i64_unsigned_abs, DHT_AD_TTL_SECS, u64_max in *.
    simpl. pose proof (Z.div_le_upper_bound now 60 now). lia.
  - lia.
Qed.

Lemma tick_ads_none now :
  (0 ≤ now ≤ last)%Z → (now mod 60 < first mod interval)%Z → (now mod 60 < start mod 60)%Z →
  concat (tick_ads now) = [].
Proof.
  intros Hnow Hphase Hsec.
  apply (pass_ads_none _ (rounds_until start first interval now)); [apply dht_at_inv; lia|].
  intros t Ht Hm. pose proof (rounds_until_range _ _ Ht).
  assert (Hmin : (t / 60)%Z = (now / 60)%Z).
  { rewrite Hm. unfold apply_minute_offset, u64_saturating_add, i64_unsigned_abs, DHT_AD_TTL_SECS,
      u64_max in *. simpl. pose proof (Z.div_le_upper_bound now 60 now). lia. }
  assert ((start / 60 = now / 60)%Z ∨ (first mod interval ≤ now mod 60)%Z) as [Hs|?]; [|clear -Hsec Hs H4|lia].
  { destruct (proj1 (round_this_minute start first interval now Hinterval Hdiv ltac:(lia) Hfirst)
      (ex_intro _ t (conj Ht Hmin))) as [|[_ ?]]; auto. }
  pose proof (Z.div_mod now 60 ltac:(lia)). pose proof (Z.div_mod start 60 ltac:(lia)). lia.
Qed.

(** A burst, which looks at the previous minute too, finds the publisher within
    a minute of its first round, and at any time after its first tick. *)
Lemma burst_ads_found now :
  (start ≤ now ≤ last)%Z → (now < start + 60 ∨ first + interval ≤ now)%Z →
  ∃ offset a, offset ∈ burst_offsets ∧
    a ∈ concat (pass_ads (dht_at now) now completion offset) ∧ endpoint_id a = Some (public sk).
Proof.
  intros Hnow Hsoon. pose proof (Z.divide_pos_le interval 60 ltac:(lia) Hdiv).
  assert (∃ t, t ∈ rounds_until start first interval now ∧ (now < t + 60)%Z) as (t & Ht & Hlt).
  { setoid_rewrite rounds_until_elem; [|done]. destruct Hsoon as [Hs|Hf].
    - exists start. split; [split; [lia|by left]|lia].
    - set (k := ((now - first) / interval)%Z).
      pose proof (Z.div_mod (now - first) interval ltac:(lia)).
      pose proof (Z.mod_pos_bound (now - first) interval Hinterval).
      exists (first + k * interval)%Z. split; [split; [lia|right]|lia]. exists k. split; [|done]. nia. }
  pose proof (rounds_until_range _ _ Ht). unfold DHT_AD_TTL_SECS in Hlast.
  assert (now / 60 ≤ t / 60 + 1)%Z.
  { pose proof (Z.div_le_mono now (t + 1 * 60) 60 ltac:(lia)) as Hd.
    rewrite Z.div_add in Hd by lia. lia. }
  assert (Hfind : ∀ offset, (t / 60)%Z = apply_minute_offset (now / 60) offset →
    ∃ a, a ∈ concat (pass_ads (dht_at now) now completion offset) ∧ endpoint_id a = Some (public sk)).
  { intros offset Hm. apply (pass_ads_found _ (rounds_until start first interval now) _ _ _ t);
      [apply dht_at_inv; lia| |unfold DHT_AD_TTL_SECS; lia|done..].
    intros u Hu%rounds_until_range. lia. }
  destruct (minute_window t now) as [Hm|Hm]; [lia..| |];
    destruct (Hfind _ Hm) as (a & Ha & He); eexists _, a; (split; [|done]); unfold burst_offsets.
  - by left.
  - right. by left.
Qed.

(** The peer of an advertisement that a pass resolved is in the feed. *)
Lemma feed_yields (ads : list (list (list SignedServiceAd))) p a i :
  p ∈ ads → a ∈ concat p → endpoint_id a = Some i →
  Ok (E := E) (MkDiscoveredPeer i trust) ∈ Ok <$> omap (feed_ad [] trust) (concat (concat ads)).
Proof.
  intros Hp Ha He. apply list_elem_of_fmap_2, list_elem_of_omap. exists a.
  split; [|by apply feed_ad_untagged].
  apply list_elem_of_In, in_concat in Ha as (l & Hl & Ha).
  apply list_elem_of_In, in_concat. exists l. split; [|done].
  apply in_concat. exists p. by split; [apply list_elem_of_In|].
Qed.

Lemma feed_silent (ads : list (list (list SignedServiceAd))) :
  (∀ p, p ∈ ads → concat p = []) →
  (Ok (E := E)) <$> omap (feed_ad [] trust) (concat (concat ads)) = [].
Proof.
  intros Hall. assert (concat (concat ads) = []) as ->; [|done].
  induction ads as [|p ads IH]; [done|]. simpl.
  rewrite concat_app, Hall, IH; [done| |by left]. intros q Hq. apply Hall. by right.
Qed.

Lemma burst_at_items now :
  dht_burst [] trust (burst_at now completion) =
  Some (Ok <$> omap (feed_ad [] trust)
    (concat (concat (pass_ads (dht_at now) now completion <$> burst_offsets)))).
Proof.
  apply burst_passes. unfold Findable.burst_at. apply Forall2_fmap, Forall_Forall2_diag, Forall_forall.
  intros offset _. apply run_pass_at.
Qed.

Lemma ticks_at_items times :
  dht_burst [] trust (ticks_at times) =
  Some (Ok <$> omap (feed_ad [] trust) (concat (concat ((λ now, tick_ads now) <$> times)))).
Proof.
  apply burst_passes. unfold Findable.ticks_at. apply Forall2_fmap, Forall_Forall2_diag, Forall_forall.
  intros now _. apply run_pass_at.
Qed.
End Periodic.

(** What a feed finds depends on the seconds of the minute.  A publisher
    starts after a feed made its burst, and then publishes every [interval]
    seconds, without a failure; the feed polls every minute, or every few
    minutes.  If the feed was created at a second of the minute before that of
    the first round and before the first second at which a tick of the publisher
    falls, no tick of the feed ever finds it: it queries only its own minute, in
    which no round was run yet.  If the publisher's ticks come first, the feed's
    ticks find it as soon as there was one. *)
Lemma polls_depend_on_phase start first interval created poll n completion priority trust :
  (0 < interval)%Z → (interval | 60)%Z → (0 < poll)%Z → (60 | poll)%Z → (0 ≤ created < start)%Z →
  (start ≤ first)%Z → (created + Z.of_nat n * poll + DHT_AD_TTL_SECS ≤ u64_max)%Z →
  rounds_ok ∅ (rounds_until start first interval (created + Z.of_nat n * poll)) = true →
  (∀ offset, completion offset ≡ₚ range 0 DHT_SHARD_COUNT) →
  ∃ spec,
    feed_over (PcError := PcError) (E := E) overflow_checks alpn sk tags start first interval created
      poll n completion priority trust = Some spec ∧
    ((created mod 60 < first mod interval)%Z → (created mod 60 < start mod 60)%Z →
     pf_stream _ spec = []) ∧
    ((first mod interval ≤ created mod 60)%Z →
     (first + interval ≤ created + Z.of_nat n * poll)%Z →
     Ok (MkDiscoveredPeer (public sk) trust) ∈ pf_stream _ spec) ∧
    (∀ now, (start ≤ now ≤ created + Z.of_nat n * poll)%Z →
       (now < start + 60 ∨ first + interval ≤ now)%Z → ∃ out,
       dht_burst [] trust (burst_at (PcError := PcError) (E := E) overflow_checks alpn sk tags
         start first interval now completion) = Some out ∧
       Ok (MkDiscoveredPeer (public sk) trust) ∈ out).
Proof.
  intros Hi Hdiv Hp Hpdiv Hc Hf Hlast Hok Hcompl.
  set (last := (created + Z.of_nat n * poll)%Z) in *.
  pose proof (burst_at_items start first interval completion trust) as Hburst.
  pose proof (ticks_at_items start first interval completion trust (tick_times created poll n)) as Hticks.
  unfold feed_over, dht_feed. rewrite Hburst, Hticks. cbn [mbind option_bind].
  eexists. split; [done|]. cbn [pf_stream]. split_and!.
  - intros Hphase Hsec. rewrite !feed_silent; [done|..].
    + intros p (now & -> & Hnow)%list_elem_of_fmap.
      destruct (tick_times_phase _ _ _ _ Hp Hpdiv Hnow) as [Hmod Hrange].
      apply (tick_ads_none start first interval last completion Hi Hdiv ltac:(lia) Hf Hlast Hok);
        [lia|by rewrite Hmod..].
    + intros p (offset & -> & Hoff)%list_elem_of_fmap.
      apply (pass_ads_none _ []); [|intros t Ht; by apply elem_of_nil in Ht].
      pose proof (dht_at_inv start first interval last Hi ltac:(lia) Hf Hlast Hok created ltac:(lia))
        as Hinv.
      unfold rounds_until in Hinv. rewrite !(proj2 (Z.ltb_lt created _)) in Hinv by lia. exact Hinv.
  - intros Hphase Hle. apply elem_of_app. right.
    pose proof (Z.divide_pos_le interval 60 ltac:(lia) Hdiv).
    assert (Hnow : last ∈ tick_times created poll n).
    { apply list_elem_of_fmap. exists (Z.of_nat n). split; [done|].
      apply elem_of_seqZ. destruct n; lia. }
    destruct (tick_times_phase _ _ _ _ Hp Hpdiv Hnow) as [Hmod _].
    destruct (tick_ads_found start first interval last completion Hi Hdiv ltac:(lia) Hf Hlast Hok
      Hcompl last) as (a & Ha & He); [lia..|].
    eapply feed_yields; [|done..]. apply list_elem_of_fmap. by exists last.
  - intros now Hnow Hsoon. rewrite Hburst. eexists. split; [done|].
    destruct (burst_ads_found start first interval last completion Hi Hdiv ltac:(lia) Hf Hlast Hok
      Hcompl now Hnow Hsoon) as (offset & a & Hoff & Ha & He).
    eapply feed_yields; [|done..]. by apply list_elem_of_fmap_2.
Qed.
End FindableFacts.

(** ** Concrete inputs *)

Module FindableDemo.
Import Demo RecordDemo.

Abbreviation demo_feed created n :=
  (feed_over (PcError := unit) (E := string) true svc (demo_sk x07) [] 1040 1042 30 created 60 n
     (λ _, range 0 DHT_SHARD_COUNT) 100 50).

(** A first round at second 20 of a minute, which takes two seconds, then one at
    seconds 52 and 22: a feed created at second 5 polls before them, one created
    at second 25 between them. *)
Example polls_before_rounds : pf_stream _ <$> demo_feed 965 3 = Some [].
Proof. vm_eq. Qed.
Example polls_after_round :
  match demo_feed 985 3 with Some spec => length (pf_stream _ spec) | None => 0 end = 6.
Proof. vm_eq. Qed.
End FindableDemo.
