(* ===== verification/Exchange.v ===== *)
(** * Peer exchange over its broadcast channel

    Models how the [PeerExchangeBackend] of [src/swarm/discovery.rs] hands peers
    to the feeds that are open: [ingest_peers] on one side, the feeds of
    [src/swarm/peers.rs] that each [feeds] call subscribes on the other, in every
    interleaving.  [Discovery] takes what a feed receives as given; here it
    is what the channel delivers. *)
From S2P Require Import Prelude Iroh Discovery.

(** ** tokio's broadcast channel *)

(** What [recv] finds: a value, that values were overwritten, or nothing yet. *)
Inductive BcRecv (A : Type) := BcValue (x : A) | BcLagged | BcEmpty.
Arguments BcValue {A} x.
Arguments BcLagged {A}.
Arguments BcEmpty {A}.

Class Broadcast := {
  bcast : Type → Type;
  (** [broadcast::channel(capacity)], its first receiver dropped *)
  bc_new : ∀ {A}, nat → bcast A;
  bc_capacity : ∀ {A}, bcast A → nat;
  (** what a live receiver has not read, the values already overwritten
      included; [None] for a receiver that is not live *)
  bc_pending : ∀ {A}, nat → bcast A → option (list A);
  bc_send : ∀ {A}, A → bcast A → bcast A;
  bc_subscribe : ∀ {A}, bcast A → nat * bcast A;
  bc_recv : ∀ {A}, nat → bcast A → BcRecv A * bcast A;
  bc_drop : ∀ {A}, nat → bcast A → bcast A;
}.

Class BroadcastLaws `{!Broadcast} : Prop := {
  bc_new_spec A n r : bc_pending r (bc_new (A := A) n) = None ∧ bc_capacity (bc_new (A := A) n) = n;
  (** every live receiver will see the value; without one it is gone *)
  bc_send_spec A (x : A) c r :
    bc_pending r (bc_send x c) = (λ q, q ++ [x]) <$> bc_pending r c ∧
    bc_capacity (bc_send x c) = bc_capacity c;
  (** a new receiver, who sees what is sent from now on *)
  bc_subscribe_spec A (c : bcast A) r :
    bc_pending (bc_subscribe c).1 c = None ∧
    bc_pending r (bc_subscribe c).2 =
      (if decide (r = (bc_subscribe c).1) then Some [] else bc_pending r c) ∧
    bc_capacity (bc_subscribe c).2 = bc_capacity c;
  (** a receiver more than [capacity] behind skips to the oldest value kept *)
  bc_recv_spec A r (c : bcast A) q : bc_pending r c = Some q →
    let '(o, q') :=
      if decide (length q ≤ bc_capacity c)
      then match q with [] => (BcEmpty, []) | x :: q => (BcValue x, q) end
      else (BcLagged, drop (length q - bc_capacity c) q) in
    (bc_recv r c).1 = o ∧ bc_capacity (bc_recv r c).2 = bc_capacity c ∧
    ∀ r', bc_pending r' (bc_recv r c).2 = if decide (r' = r) then Some q' else bc_pending r' c;
  bc_drop_spec A (c : bcast A) r r' :
    bc_pending r' (bc_drop r c) = (if decide (r' = r) then None else bc_pending r' c) ∧
    bc_capacity (bc_drop r c) = bc_capacity c;
}.

(** ** The backend and its feeds *)

Section Exchange.
Context `{!IrohKeys, !Broadcast}.

(** [PeerExchangeBackend], with its sender. *)
Record ExchangeBackend := MkExchangeBackend {
  xb_tx : bcast EndpointId;
  xb_priority : Z;
  xb_trust : Z;
}.
Definition xb_new : ExchangeBackend := MkExchangeBackend (bc_new 128) 110 100.
Definition xb_set_priority (p : Z) (b : ExchangeBackend) : ExchangeBackend :=
  MkExchangeBackend (xb_tx b) p (xb_trust b).
Definition xb_set_trust (t : Z) (b : ExchangeBackend) : ExchangeBackend :=
  MkExchangeBackend (xb_tx b) (xb_priority b) t.
Definition with_tx (tx : bcast EndpointId) (b : ExchangeBackend) : ExchangeBackend :=
  MkExchangeBackend tx (xb_priority b) (xb_trust b).

(** The error of [send], that there is no receiver, is ignored. *)
Definition ingest_peers (peers : list EndpointId) (b : ExchangeBackend) : ExchangeBackend :=
  with_tx (foldl (λ tx p, bc_send p tx) (xb_tx b) peers) b.

(** The backend and, by receiver, the messages its feed took ([None]: lagged)
    and the peers ingested since it was opened. *)
Record ExchangeWorld := MkExchangeWorld {
  xw_backend : ExchangeBackend;
  xw_taken : gmap nat (list (option EndpointId));
  xw_since : gmap nat (list EndpointId);
}.
Definition exchange_new (b : ExchangeBackend) : ExchangeWorld := MkExchangeWorld b ∅ ∅.

Inductive ExchangeLabel :=
  | ExIngest (peers : list EndpointId)
  | ExFeeds             (** [feeds]: a new feed *)
  | ExPoll (r : nat)    (** feed [r] polls its receiver *)
  | ExDrop (r : nat).   (** feed [r] is dropped *)

Definition exchange_step (w : ExchangeWorld) (l : ExchangeLabel) : option ExchangeWorld :=
  let b := xw_backend w in
  match l with
  | ExIngest peers =>
      Some (MkExchangeWorld (ingest_peers peers b) (xw_taken w)
              ((λ l, l ++ peers) <$> xw_since w))
  | ExFeeds =>
      let '(r, tx) := bc_subscribe (xb_tx b) in
      Some (MkExchangeWorld (with_tx tx b) (<[r := []]> (xw_taken w)) (<[r := []]> (xw_since w)))
  | ExPoll r =>
      taken ← xw_taken w !! r;
      let '(o, tx) := bc_recv r (xb_tx b) in
      let took m := Some (MkExchangeWorld (with_tx tx b) (<[r := taken ++ [m]]> (xw_taken w))
                            (xw_since w)) in
      match o with
      | BcValue p => took (Some p)
      | BcLagged => took None
      | BcEmpty => None            (* pending *)
      end
  | ExDrop r =>
      Some (MkExchangeWorld (with_tx (bc_drop r (xb_tx b)) b) (delete r (xw_taken w))
              (delete r (xw_since w)))
  end.

Fixpoint exchange_run (w : ExchangeWorld) (ls : list ExchangeLabel) : option ExchangeWorld :=
  match ls with
  | [] => Some w
  | l :: ls => w ← exchange_step w l; exchange_run w ls
  end.

(** The feed of receiver [r], as far as it was polled. *)
Definition exchange_feed {E} (w : ExchangeWorld) (r : nat) : option (PeerFeedSpec E) :=
  taken ← xw_taken w !! r;
  Some (peer_exchange_feed taken (xb_priority (xw_backend w)) (xb_trust (xw_backend w))).

(** ** What a feed gets *)

Context `{!BroadcastLaws}.

Lemma ingest_pending peers b r :
  bc_pending r (xb_tx (ingest_peers peers b)) = (λ q, q ++ peers) <$> bc_pending r (xb_tx b) ∧
  bc_capacity (xb_tx (ingest_peers peers b)) = bc_capacity (xb_tx b).
Proof.
  unfold ingest_peers. simpl. generalize (xb_tx b) as tx.
  induction peers as [|p peers IH]; intros tx; simpl.
  - split; [|done]. destruct (bc_pending r tx); simpl; [by rewrite app_nil_r|done].
  - destruct (IH (bc_send p tx)) as [-> ->]. destruct (bc_send_spec _ p tx r) as [-> ->].
    split; [|done]. destruct (bc_pending r tx); simpl; [by rewrite <-(assoc_L (++))|done].
Qed.

(** One feed: what it took, what it has not read, what was ingested. *)
Definition feed_ok (cap : nat) (taken : list (option EndpointId)) (q since : list EndpointId)
  : Prop :=
  q `suffix_of` since ∧ omap id taken ++ q `sublist_of` since ∧
  (None ∉ taken → omap id taken ++ q = since) ∧ (None ∈ taken → cap < length since).

Record exchange_inv (w : ExchangeWorld) : Prop := {
  xi_capacity : bc_capacity (xb_tx (xw_backend w)) = 128;
  xi_feeds : ∀ r, match xw_taken w !! r, bc_pending r (xb_tx (xw_backend w)), xw_since w !! r with
                  | Some taken, Some q, Some since => feed_ok 128 taken q since
                  | None, None, None => True
                  | _, _, _ => False
                  end;
}.

Lemma feed_ok_ingest cap taken q since peers :
  feed_ok cap taken q since → feed_ok cap taken (q ++ peers) (since ++ peers).
Proof.
  intros (Hsuf & Hsub & Hall & Hlag). unfold feed_ok. rewrite (assoc_L (++)). split_and!.
  - destruct Hsuf as [k ->]. exists k. by rewrite (assoc_L (++)).
  - by apply sublist_app.
  - intros Hn. by rewrite Hall.
  - intros Hn%Hlag. rewrite length_app. lia.
Qed.

Lemma feed_ok_take cap taken x q since :
  feed_ok cap taken (x :: q) since → feed_ok cap (taken ++ [Some x]) q since.
Proof.
  intros (Hsuf & Hsub & Hall & Hlag). unfold feed_ok.
  rewrite omap_app, <-(assoc_L (++)). simpl. split_and!.
  - destruct Hsuf as [k ->]. exists (k ++ [x]). by rewrite <-(assoc_L (++)).
  - done.
  - intros Hn. apply Hall. set_solver.
  - intros Hn. apply Hlag. set_solver.
Qed.

Lemma feed_ok_lag cap taken q since :
  cap < length q → feed_ok cap taken q since →
  feed_ok cap (taken ++ [None]) (drop (length q - cap) q) since.
Proof.
  intros Hl (Hsuf & Hsub & Hall & Hlag). unfold feed_ok.
  rewrite omap_app, app_nil_r. simpl. split_and!.
  - etrans; [apply suffix_drop|done].
  - etrans; [|exact Hsub]. apply sublist_app; [done|apply sublist_drop].
  - intros []. set_solver.
  - intros _. apply suffix_length in Hsuf. lia.
Qed.

Lemma exchange_step_inv w l w' : exchange_inv w → exchange_step w l = Some w' → exchange_inv w'.
Proof.
  intros [Hcap Hf]. destruct l as [peers| |r0|r0]; simpl.
  - intros [= <-]. split; cbn [xw_backend xw_taken xw_since].
    + by rewrite (proj2 (ingest_pending peers (xw_backend w) 0)).
    + intros r. specialize (Hf r). destruct (ingest_pending peers (xw_backend w) r) as [-> _].
      rewrite lookup_fmap. destruct (xw_taken w !! r), (bc_pending r _), (xw_since w !! r);
        simpl; try done. by apply feed_ok_ingest.
  - destruct (bc_subscribe (xb_tx (xw_backend w))) as [r0 tx] eqn:Es. intros [= <-].
    pose proof (bc_subscribe_spec _ (xb_tx (xw_backend w))) as Hs. rewrite Es in Hs. simpl in Hs.
    split; simpl; [by rewrite (proj2 (proj2 (Hs 0)))|].
    intros r. destruct (Hs r) as (_ & -> & _). rewrite !lookup_insert.
    destruct (decide (r = r0)) as [->|Hne]; [rewrite !decide_True by done|rewrite !decide_False by done].
    + unfold feed_ok. split_and!; [done..|]. intros ?%elem_of_nil. done.
    + apply Hf.
  - intros (taken & Ht & Hst)%bind_Some. pose proof (Hf r0) as Hr0. rewrite Ht in Hr0.
    destruct (bc_pending r0 (xb_tx (xw_backend w))) as [q|] eqn:Eq; [|done].
    destruct (xw_since w !! r0) as [since|] eqn:Esi; [|done].
    pose proof (bc_recv_spec _ _ _ _ Eq) as Hr. rewrite Hcap in Hr.
    destruct (bc_recv r0 (xb_tx (xw_backend w))) as [o tx]. simpl in Hr.
    assert (Hgo : ∀ m q', feed_ok 128 (taken ++ [m]) q' since →
      bc_capacity tx = 128 →
      (∀ r', bc_pending r' tx = if decide (r' = r0) then Some q' else
         bc_pending r' (xb_tx (xw_backend w))) →
      exchange_inv (MkExchangeWorld (with_tx tx (xw_backend w)) (<[r0:=taken ++ [m]]> (xw_taken w))
        (xw_since w))).
    { intros m q' Hok Hc Hp. split; simpl; [done|]. intros r. rewrite Hp, lookup_insert.
      destruct (decide (r = r0)) as [->|Hne]; [rewrite decide_True by done|rewrite decide_False by done].
      - by rewrite Esi.
      - apply Hf. }
    destruct (decide (length q ≤ 128)) as [Hle|Hgt].
    + destruct q as [|x q]; destruct Hr as (-> & Hc & Hp); [done|]. injection Hst as <-.
      apply (Hgo _ q); [by apply feed_ok_take|done|done].
    + destruct Hr as (-> & Hc & Hp). injection Hst as <-.
      apply (Hgo _ (drop (length q - 128) q)); [apply feed_ok_lag; [lia|done]|done|done].
  - intros [= <-]. split; simpl.
    + by rewrite (proj2 (bc_drop_spec _ _ r0 0)).
    + intros r. rewrite (proj1 (bc_drop_spec _ _ r0 r)), !lookup_delete.
      destruct (decide (r = r0)) as [->|Hne].
      * by rewrite !decide_True by done.
      * rewrite !decide_False by done. apply Hf.
Qed.

Lemma exchange_run_inv w ls w' : exchange_inv w → exchange_run w ls = Some w' → exchange_inv w'.
Proof.
  revert w. induction ls as [|l ls IH]; intros w Hinv; simpl; [congruence|].
  intros (w1 & Hst & Hrun)%bind_Some. by apply (IH w1); [eapply exchange_step_inv|].
Qed.

(** The settings of the backend do not matter to the channel. *)
Lemma exchange_inv_new p t :
  exchange_inv (exchange_new (xb_set_priority p (xb_set_trust t xb_new))).
Proof.
  destruct (bc_new_spec EndpointId 128 0) as [_ Hc]. split; simpl; [done|].
  intros r. rewrite !lookup_empty. by destruct (bc_new_spec EndpointId 128 r) as [-> _].
Qed.

Lemma exchange_settings w ls w' :
  exchange_run w ls = Some w' →
  xb_trust (xw_backend w') = xb_trust (xw_backend w) ∧
  xb_priority (xw_backend w') = xb_priority (xw_backend w).
Proof.
  revert w. induction ls as [|l ls IH]; intros w; simpl; [by intros [= <-]|].
  intros (w1 & Hst & Hrun)%bind_Some. destruct (IH _ Hrun) as [-> ->]. clear Hrun IH.
  destruct l as [peers| |r|r]; simpl in Hst.
  - by injection Hst as <-.
  - destruct (bc_subscribe _). by injection Hst as <-.
  - apply bind_Some in Hst as (taken & _ & Hst).
    destruct (bc_recv r _) as [[] tx]; [by injection Hst as <-..|done].
  - by injection Hst as <-.
Qed.

(** C31: a peer-exchange feed yields the peers ingested after it was opened, with
    the backend's trust, in their order and none twice; what it
    has not yielded yet are the last ones.  It yields all of them as long as at
    most 128 were ingested, or as it never fell behind by more than that; and
    peers ingested before it was opened it never yields. *)
Theorem exchange_feed_delivers {E} p t ls w r (feed : PeerFeedSpec E) :
  exchange_run (exchange_new (xb_set_priority p (xb_set_trust t xb_new))) ls = Some w →
  exchange_feed w r = Some feed →
  ∃ ids q since taken,
    pf_stream E feed = (λ id, Ok (MkDiscoveredPeer id t)) <$> ids ∧ pf_priority E feed = p ∧
    xw_since w !! r = Some since ∧ xw_taken w !! r = Some taken ∧
    bc_pending r (xb_tx (xw_backend w)) = Some q ∧
    q `suffix_of` since ∧ ids ++ q `sublist_of` since ∧
    (length since ≤ 128 ∨ None ∉ taken → ids ++ q = since).
Proof.
  intros Hrun (taken & Ht & [= <-])%bind_Some.
  destruct (exchange_settings _ _ _ Hrun) as [Et Ep].
  pose proof (exchange_run_inv _ _ _ (exchange_inv_new p t) Hrun) as [_ Hf].
  specialize (Hf r). rewrite Ht in Hf.
  destruct (bc_pending r _) as [q|]; [|done]. destruct (xw_since w !! r) as [since|]; [|done].
  destruct Hf as (Hsuf & Hsub & Hall & Hlag). simpl. rewrite Et, Ep. simpl.
  exists (omap id taken), q, since, taken. split_and!; try done.
  intros [Hle|Hn]; [|by apply Hall]. apply Hall. intros Hn%Hlag. lia.
Qed.

(** Peers ingested while no feed is open are gone. *)
Lemma ingest_without_feed peers b r :
  bc_pending r (xb_tx b) = None → bc_pending r (xb_tx (ingest_peers peers b)) = None.
Proof. intros Hn. destruct (ingest_pending peers b r) as [-> _]. by rewrite Hn. Qed.
End Exchange.

(** ** A concrete channel *)

Module ListBroadcast.
Record lbcast (A : Type) := LBcast { lb_cap : nat; lb_next : nat; lb_live : gmap nat (list A) }.
Arguments LBcast {A} _ _ _.
Arguments lb_cap {A} _.
Arguments lb_next {A} _.
Arguments lb_live {A} _.

(** Receivers at or above [lb_next] are not live. *)
Definition live {A} (r : nat) (c : lbcast A) : option (list A) :=
  if decide (r < lb_next c) then lb_live c !! r else None.

#[export] Instance broadcast : Broadcast := {|
  bcast := lbcast;
  bc_new A n := LBcast n 0 ∅;
  bc_capacity A := lb_cap;
  bc_pending A := live;
  bc_send A x c := LBcast (lb_cap c) (lb_next c) ((λ q, q ++ [x]) <$> lb_live c);
  bc_subscribe A c :=
    (lb_next c, LBcast (lb_cap c) (S (lb_next c)) (<[lb_next c := []]> (lb_live c)));
  bc_recv A r c :=
    match live r c with
    | None => (BcEmpty, c)
    | Some q =>
        let set q := LBcast (lb_cap c) (lb_next c) (<[r := q]> (lb_live c)) in
        if decide (length q ≤ lb_cap c)
        then match q with [] => (BcEmpty, c) | x :: q => (BcValue x, set q) end
        else (BcLagged, set (drop (length q - lb_cap c) q))
    end;
  bc_drop A r c := LBcast (lb_cap c) (lb_next c) (delete r (lb_live c));
|}.

#[export] Instance broadcast_laws : BroadcastLaws.
Proof.
  split; simpl.
  - intros A n r. split; [|done]. unfold live. by case_match.
  - intros A x c r. split; [|done]. unfold live. simpl. rewrite lookup_fmap. by case_decide.
  - intros A c r. unfold live. simpl. rewrite lookup_insert.
    split_and!; [case_decide; [lia|done]| |done]. repeat case_decide; subst; try done; lia.
  - intros A r c q Hq. rewrite Hq.
    assert (Hset : ∀ q' r', live r' (LBcast (lb_cap c) (lb_next c) (<[r := q']> (lb_live c))) =
      if decide (r' = r) then Some q' else live r' c).
    { intros q' r'. unfold live in *. simpl. rewrite lookup_insert.
      repeat case_decide; subst; done. }
    destruct (decide (length q ≤ lb_cap c)); [destruct q as [|x q]|];
      simpl; (split_and!; [done..|]); [|apply Hset..].
    intros r'. by case_decide as Hr; subst.
  - intros A c r r'. split; [|done]. unfold live. simpl. rewrite lookup_delete.
    repeat case_decide; subst; done.
Qed.
End ListBroadcast.

Module ExchangeDemo.
Import Demo ListBroadcast.

Definition demo_peer (n : nat) : EndpointId := replicate n x00.
(** A peer is ingested before a feed is opened, two after; the feed takes one. *)
Definition demo_labels : list ExchangeLabel :=
  [ExIngest [demo_peer 1]; ExFeeds; ExIngest [demo_peer 2; demo_peer 3]; ExPoll 0].
Definition demo_end : ExchangeWorld :=
  default (exchange_new xb_new)
    (exchange_run (exchange_new (xb_set_priority 9 (xb_set_trust 70 xb_new))) demo_labels).

Lemma exchange_feed_delivers_witness :
  ∃ feed ids q, exchange_feed (E := unit) demo_end 0 = Some feed ∧
    pf_stream unit feed = (λ id, Ok (MkDiscoveredPeer id 70)) <$> ids ∧
    ids ++ q = [demo_peer 2; demo_peer 3].
Proof.
  assert (match exchange_feed (E := unit) demo_end 0 with Some _ => true | None => false end = true)
    as Hsome by vm_eq.
  destruct (exchange_feed (E := unit) demo_end 0) as [feed|] eqn:Hf; [clear Hsome|discriminate Hsome].
  destruct (exchange_feed_delivers 9 70 demo_labels demo_end 0 feed) as
    (ids & q & since & taken & Hs & _ & Hsi & _ & _ & _ & _ & Hall);
    [vm_eq|exact Hf|].
  exists feed, ids, q. split_and!; [done|exact Hs|].
  vm_compute in Hsi. injection Hsi as <-. apply Hall. left. simpl. lia.
Defined.
End ExchangeDemo.
