(* ===== verification/Engine.v ===== *)
(** * The swarm engine: merged, deduplicated peers

    Models [src/swarm/engine.rs].  [SelectAll] is third-party: the sequence of
    its poll results is a parameter, the script [poll_next] consumes. *)
From S2P Require Import Prelude Ords Iroh Discovery.

Inductive Poll (A : Type) := Ready (a : A) | Pending.
Arguments Ready {A} a.
Arguments Pending {A}.

Section Engine.
Context `{!IrohKeys} {E : Type}.

(** [TaggedFeed]: source metadata attached to each item of a feed. *)
Record TaggedFeed := MkTaggedFeed {
  tf_name : string;
  tf_trust : Z;
  tf_inner : list (Result E DiscoveredPeer);
}.

Definition tag (f : TaggedFeed) (r : Result E DiscoveredPeer) : Result E Peer :=
  match r with
  | Ok discovered => Ok (peer_new discovered (tf_name f) (tf_trust f))
  | Err e => Err e
  end.
Definition tagged_items (f : TaggedFeed) : list (Result E Peer) := tag f <$> tf_inner f.

Record SwarmEngine := MkSwarmEngine {
  se_inner : list TaggedFeed;      (** in push order *)
  se_seen : gset bytes;
  se_local_id : EndpointId;
}.

Definition engine_new (local_id : EndpointId) (alpn : bytes) (feeds : list (PeerFeedSpec E))
  : SwarmEngine :=
  let feeds := sort_by_key (λ f : PeerFeedSpec E, pf_priority _ f) feeds in
  let inner :=
    omap (λ spec : PeerFeedSpec E,
      if negb (scope_matches (pf_scope _ spec) alpn) then None
      else Some (MkTaggedFeed (pf_name _ spec) (pf_trust _ spec) (pf_stream _ spec))) feeds in
  MkSwarmEngine inner ∅ local_id.

(** The [loop] of [poll_next]: the poll result, the new [seen] set and the
    rest of the script; a script that is exhausted has no result ready. *)
Fixpoint poll_next (local_id : EndpointId) (seen : gset bytes)
  (script : list (Poll (option (Result E Peer))))
  : Poll (option (Result E Peer)) * gset bytes * list (Poll (option (Result E Peer))) :=
  match script with
  | [] => (Pending, seen, [])
  | Ready (Some (Ok peer)) :: script =>
      if bool_decide (peer_id peer = local_id) then poll_next local_id seen script
      else if bool_decide (as_bytes (peer_id peer) ∈ seen) then poll_next local_id seen script
      else (Ready (Some (Ok peer)), {[as_bytes (peer_id peer)]} ∪ seen, script)
  | Ready (Some (Err e)) :: script => (Ready (Some (Err e)), seen, script)
  | Ready None :: script => (Ready None, seen, script)
  | Pending :: script => (Pending, seen, script)
  end.

(** What a consumer that polls until the end of the stream (or of the script)
    receives; [fuel] bounds the number of polls. *)
Fixpoint drain (fuel : nat) (local_id : EndpointId) (seen : gset bytes)
  (script : list (Poll (option (Result E Peer)))) : list (Result E Peer) :=
  match fuel with
  | O => []
  | S fuel =>
      match script with
      | [] => []
      | _ =>
          let '(r, seen, script) := poll_next local_id seen script in
          match r with
          | Ready (Some item) => item :: drain fuel local_id seen script
          | Ready None => []
          | Pending => drain fuel local_id seen script
          end
      end
  end.

Definition engine_outputs (e : SwarmEngine) (script : list (Poll (option (Result E Peer))))
  : list (Result E Peer) :=
  drain (length script) (se_local_id e) (se_seen e) script.

(** ** Specification *)

(** The items a script yields before its end. *)
Fixpoint script_items (script : list (Poll (option (Result E Peer)))) : list (Result E Peer) :=
  match script with
  | [] => []
  | Ready (Some item) :: script => item :: script_items script
  | Ready None :: _ => []
  | Pending :: script => script_items script
  end.

(** Errors pass; of each remote peer only the first occurrence does. *)
Fixpoint first_seen (local_id : EndpointId) (seen : gset bytes) (items : list (Result E Peer))
  : list (Result E Peer) :=
  match items with
  | [] => []
  | Err e :: items => Err e :: first_seen local_id seen items
  | Ok peer :: items =>
      if decide (peer_id peer = local_id ∨ as_bytes (peer_id peer) ∈ seen)
      then first_seen local_id seen items
      else Ok peer :: first_seen local_id ({[as_bytes (peer_id peer)]} ∪ seen) items
  end.

Definition item_id (item : Result E Peer) : option EndpointId := peer_id <$> ok item.
Definition item_err (item : Result E Peer) : option E := err_of item.
End Engine.
Arguments TaggedFeed {_} _.
Arguments SwarmEngine {_} _.

(** ** Theorems *)

Section EngineFacts.
Context `{!IrohKeys} {E : Type}.
Implicit Types (seen : gset bytes) (items : list (Result E Peer)) (local_id : EndpointId).

Lemma poll_next_spec local_id seen script r seen' script' :
  poll_next (E := E) local_id seen script = (r, seen', script') →
  length script' ≤ pred (length script) ∧
  first_seen local_id seen (script_items script) =
  match r with
  | Ready (Some item) => item :: first_seen local_id seen' (script_items script')
  | Ready None => []
  | Pending => first_seen local_id seen' (script_items script')
  end.
Proof.
  revert seen. induction script as [|p script IH]; intros seen Hp; simpl in *.
  { by simplify_eq. }
  destruct p as [[[peer|e]|]|]; simpl in *; [|by simplify_eq..].
  case_bool_decide; [|case_bool_decide].
  - rewrite decide_True by auto. destruct (IH _ Hp). split; [lia|done].
  - rewrite decide_True by auto. destruct (IH _ Hp). split; [lia|done].
  - rewrite decide_False by tauto. by simplify_eq.
Qed.

Lemma drain_spec fuel local_id seen script :
  length script ≤ fuel →
  drain (E := E) fuel local_id seen script = first_seen local_id seen (script_items script).
Proof.
  revert seen script. induction fuel as [|n IH]; intros seen [|p script] Hlen; simpl in Hlen;
    [done|lia|done|].
  cbn [drain]. destruct (poll_next local_id seen (p :: script)) as [[r seen'] script'] eqn:Hp.
  apply poll_next_spec in Hp as [Hl ->]. simpl in Hl.
  destruct r as [[item|]|]; [|done|]; rewrite IH by lia; done.
Qed.

(** Polled to the end, the engine yields exactly the items of its merged
    feeds with the local peer and every repeated peer removed; no number of
    pending polls or skipped items makes it lose or repeat one. *)
Lemma engine_outputs_spec (e : SwarmEngine E) script :
  engine_outputs e script = first_seen (se_local_id e) (se_seen e) (script_items script).
Proof. unfold engine_outputs. by rewrite drain_spec. Qed.

Lemma first_seen_sublist local_id seen items : first_seen local_id seen items `sublist_of` items.
Proof.
  revert seen. induction items as [|[p|e] items IH]; intros seen; simpl; [done| |by constructor].
  case_decide; by constructor.
Qed.

Lemma first_seen_errors local_id seen items :
  omap item_err (first_seen local_id seen items) = omap item_err items.
Proof.
  revert seen. induction items as [|[p|e] items IH]; intros seen; csimpl; [done| |by rewrite IH].
  case_decide; csimpl; apply IH.
Qed.

Lemma first_seen_ids `{!IrohKeysLaws} local_id seen items i :
  i ∈ omap item_id (first_seen local_id seen items) ↔
  i ∈ omap item_id items ∧ i ≠ local_id ∧ as_bytes i ∉ seen.
Proof.
  revert seen. induction items as [|[p|e] items IH]; intros seen; csimpl.
  { set_solver. }
  2: { apply IH. }
  assert (Hinj : ∀ x y : EndpointId, as_bytes x = as_bytes y → x = y).
  { intros x y E'. apply (f_equal from_bytes) in E'. rewrite !from_as_bytes in E'. congruence. }
  case_decide as Hd; csimpl; rewrite ?elem_of_cons, IH.
  - split; [naive_solver|]. intros ([->|?] & ? & ?); [naive_solver|done].
  - rewrite elem_of_union, elem_of_singleton.
    destruct (decide (i = peer_id p)) as [->|Hne]; [naive_solver|].
    split; [naive_solver|]. intros ([?|?] & ? & ?); [done|]. right. naive_solver.
Qed.

Lemma first_seen_NoDup `{!IrohKeysLaws} local_id seen items :
  NoDup (omap item_id (first_seen local_id seen items)).
Proof.
  revert seen. induction items as [|[p|e] items IH]; intros seen; csimpl.
  { apply NoDup_nil_2. } 2: { apply IH. }
  case_decide; csimpl; [apply IH|]. constructor; [|apply IH].
  rewrite first_seen_ids. set_solver.
Qed.

Lemma engine_new_inner local_id alpn (feeds : list (PeerFeedSpec E)) f :
  f ∈ se_inner (engine_new local_id alpn feeds) ↔
  ∃ spec, spec ∈ feeds ∧ scope_matches (pf_scope _ spec) alpn = true ∧
    f = MkTaggedFeed (pf_name _ spec) (pf_trust _ spec) (pf_stream _ spec).
Proof.
  simpl. rewrite list_elem_of_omap. setoid_rewrite elem_of_sort_by_key.
  split; intros (spec & Hin & Hs); exists spec.
  - destruct (scope_matches _ _); [|done]. by injection Hs as <-.
  - by destruct Hs as [-> ->].
Qed.

Lemma tagged_item_ids (f : TaggedFeed E) :
  omap item_id (tagged_items f) = omap (λ r : Result E DiscoveredPeer, dp_id <$> ok r) (tf_inner f).
Proof. unfold tagged_items. induction (tf_inner f) as [|[d|e] l IH]; csimpl; congruence. Qed.

Lemma tagged_item_errs (f : TaggedFeed E) :
  omap item_err (tagged_items f) = omap (λ r : Result E DiscoveredPeer, err_of r) (tf_inner f).
Proof. unfold tagged_items. induction (tf_inner f) as [|[d|e] l IH]; csimpl; congruence. Qed.

(** Whatever order [SelectAll] interleaves the feeds in, a discovery
    stream yields each remote peer of the feeds that apply exactly once, never
    the local endpoint, every error of those feeds, and nothing else. *)
Lemma discover_peers `{!IrohKeysLaws} local_id alpn feeds script :
  let e := engine_new local_id alpn feeds in
  script_items script ≡ₚ (f ← se_inner e; tagged_items f) →
  let out := engine_outputs e script in
  NoDup (omap item_id out) ∧
  (∀ i, i ∈ omap item_id out ↔
     i ≠ local_id ∧ ∃ spec, spec ∈ feeds ∧ scope_matches (pf_scope _ spec) alpn = true ∧
       Ok i ∈ fmap (M := Result E) dp_id <$> pf_stream _ spec) ∧
  omap item_err out ≡ₚ (f ← se_inner e; omap err_of (tf_inner f)) ∧
  out `sublist_of` script_items script.
Proof.
  intros e Hperm out. subst out. unfold engine_outputs. rewrite drain_spec by done.
  change (se_local_id e) with local_id. change (se_seen e) with (∅ : gset bytes).
  split_and!.
  - apply first_seen_NoDup.
  - intros i. rewrite first_seen_ids, Hperm, omap_bind, list_elem_of_bind.
    setoid_rewrite tagged_item_ids. split.
    + intros ((f & (r & Hr & Hi)%list_elem_of_omap & Hf) & Hne & _). split; [done|].
      apply engine_new_inner in Hf as (spec & Hin & Hs & ->).
      exists spec. split_and!; [done..|]. apply list_elem_of_fmap. exists r. split; [|done].
      by destruct r; simplify_eq/=.
    + intros (Hne & spec & Hin & Hs & (r & Hi & Hr)%list_elem_of_fmap).
      split_and!; [|done|set_solver].
      eexists. split; [|by apply engine_new_inner; exists spec].
      apply list_elem_of_omap. exists r. split; [done|]. by destruct r; simplify_eq/=.
  - rewrite first_seen_errors, Hperm, omap_bind.
    by rewrite (list_bind_ext _ _ _ _ tagged_item_errs eq_refl).
  - apply first_seen_sublist.
Qed.

(** Feeds are merged in ascending priority, feeds of equal priority in
    the order the backends gave them, and exactly the feeds whose scope applies
    to the service are merged, each with its source's name and trust. *)
Lemma engine_new_feeds local_id alpn (feeds : list (PeerFeedSpec E)) :
  let applies spec := scope_matches (pf_scope _ spec) alpn = true in
  ∃ order : list (PeerFeedSpec E),
    order ≡ₚ filter applies feeds ∧
    key_sorted (λ f : PeerFeedSpec E, pf_priority _ f) order ∧
    (∀ p, filter (λ f, pf_priority _ f = p) order =
          filter (λ f, pf_priority _ f = p) (filter applies feeds)) ∧
    se_inner (engine_new local_id alpn feeds) =
      (λ spec, MkTaggedFeed (pf_name _ spec) (pf_trust _ spec) (pf_stream _ spec)) <$> order.
Proof.
  intros applies. set (key f := pf_priority E f).
  exists (filter applies (sort_by_key key feeds)). split_and!.
  - by rewrite sort_by_key_Permutation.
  - apply key_sorted_filter, sort_by_key_sorted.
  - intros p. rewrite !(filter_comm _ applies). f_equal. apply (sort_by_key_stable key p).
  - simpl. subst key. induction (sort_by_key _ feeds) as [|spec l IH]; csimpl; [done|].
    destruct (scope_matches (pf_scope E spec) alpn) eqn:Hm; csimpl.
    + rewrite filter_cons_True by done. csimpl. by rewrite IH.
    + rewrite filter_cons_False by (unfold applies; congruence). apply IH.
Qed.
End EngineFacts.

(** ** Concrete inputs *)

Module EngineDemo.
Import Demo.

Definition demo_peer (b : byte) : @EndpointId keys := ([b] : bytes).

(** The local peer and a repeated peer, as in the crate's own test. *)
Definition demo_feeds : list (PeerFeedSpec unit) :=
  [static_feed [demo_peer x02] 20 100 ScopeAny;
   static_feed [demo_peer x01; demo_peer x02] 10 100 ScopeAny;
   static_feed [demo_peer x03] 5 100 (ScopeService (string_bytes "/svc.Other/1.0"))].
Definition demo_engine : SwarmEngine unit :=
  engine_new (demo_peer x01) (string_bytes "/svc.Test/1.0") demo_feeds.
Definition demo_script : list (Poll (option (Result unit Peer))) :=
  Pending :: ((λ i, Ready (Some i)) <$> (f ← se_inner demo_engine; tagged_items f)).

Example engine_demo :
  engine_outputs demo_engine demo_script = [Ok (MkPeer (demo_peer x02) "static" 100 100)].
Proof. vm_compute. reflexivity. Qed.

End EngineDemo.
