(* ===== verification/Tokio.v ===== *)
(** * Interface of tokio's bounded channels

    The sources communicate over [tokio::sync::mpsc]; its documented contract
    is a class of operations with laws.  [Module ListChannel] is an instance
    used to evaluate the development on concrete inputs. *)
From S2P Require Import Prelude.

(** The outcome of [try_send]; [send().await] waits while the channel is full
    and otherwise ends like [try_send]. *)
Inductive TrySend := SendOk | SendFull | SendClosed.

Class Mpsc := {
  chan : Type → Type;
  (** [mpsc::channel(capacity)]; [None] is its panic. *)
  mpsc_channel : ∀ {A}, nat → option (chan A);
  (** the messages sent and not yet received, oldest first *)
  queued : ∀ {A}, chan A → list A;
  capacity : ∀ {A}, chan A → nat;
  (** the receiver is closed or dropped *)
  rx_closed : ∀ {A}, chan A → bool;
  try_send : ∀ {A}, A → chan A → TrySend * chan A;
  (** the oldest message and the channel without it *)
  recv : ∀ {A}, chan A → option (A * chan A);
  close_rx : ∀ {A}, chan A → chan A;
}.

Class MpscLaws `{!Mpsc} : Prop := {
  mpsc_channel_zero A : mpsc_channel (A := A) 0 = None;
  mpsc_channel_pos A n : 0 < n → ∃ c, mpsc_channel (A := A) n = Some c ∧
    queued c = [] ∧ capacity c = n ∧ rx_closed c = false;
  try_send_closed A (x : A) c : rx_closed c = true → try_send x c = (SendClosed, c);
  try_send_full A (x : A) c :
    rx_closed c = false → capacity c ≤ length (queued c) → try_send x c = (SendFull, c);
  try_send_ok A (x : A) c :
    rx_closed c = false → length (queued c) < capacity c →
    ∃ c', try_send x c = (SendOk, c') ∧ queued c' = queued c ++ [x] ∧
      capacity c' = capacity c ∧ rx_closed c' = false;
  recv_empty A (c : chan A) : queued c = [] → recv c = None;
  recv_cons A (x : A) q c : queued c = x :: q →
    ∃ c', recv c = Some (x, c') ∧ queued c' = q ∧
      capacity c' = capacity c ∧ rx_closed c' = rx_closed c;
  close_rx_spec A (c : chan A) :
    rx_closed (close_rx c) = true ∧ queued (close_rx c) = queued c ∧
    capacity (close_rx c) = capacity c;
}.

(** The receiver is dropped: it is closed and what is queued is discarded. *)
Fixpoint discard `{!Mpsc} {A} (n : nat) (c : chan A) : chan A :=
  match n with
  | O => c
  | S n => match recv c with Some (_, c) => discard n c | None => c end
  end.
Definition drop_rx `{!Mpsc} {A} (c : chan A) : chan A :=
  discard (length (queued c)) (close_rx c).

(** ** Consequences of the laws *)

Section MpscFacts.
Context `{!Mpsc, !MpscLaws} {A : Type}.
Implicit Types (x : A) (c : chan A).

(** The three outcomes of [try_send], with what each does to the channel. *)
Lemma try_send_cases x c :
  (rx_closed c = true ∧ try_send x c = (SendClosed, c)) ∨
  (rx_closed c = false ∧ capacity c ≤ length (queued c) ∧ try_send x c = (SendFull, c)) ∨
  (rx_closed c = false ∧ length (queued c) < capacity c ∧
   ∃ c', try_send x c = (SendOk, c') ∧ queued c' = queued c ++ [x] ∧
     capacity c' = capacity c ∧ rx_closed c' = false).
Proof.
  destruct (rx_closed c) eqn:Hc.
  - left. split; [done|]. by apply try_send_closed.
  - destruct (decide (length (queued c) < capacity c)) as [Hl|Hl].
    + right; right. split_and!; [done..|]. by apply try_send_ok.
    + right; left. split_and!; [done|lia|]. apply try_send_full; [done|lia].
Qed.

Lemma try_send_inv x c o c' :
  try_send x c = (o, c') →
  match o with
  | SendOk => queued c' = queued c ++ [x] ∧ length (queued c') ≤ capacity c ∧
              rx_closed c = false ∧ rx_closed c' = false
  | SendFull => c' = c ∧ rx_closed c = false ∧ capacity c ≤ length (queued c)
  | SendClosed => c' = c ∧ rx_closed c = true
  end ∧ capacity c' = capacity c.
Proof.
  intros E. destruct (try_send_cases x c) as
    [[? Ht]|[(? & ? & Ht)|(? & Hl & c'' & Ht & Hq & ? & ?)]];
    rewrite E in Ht; simplify_eq; split; auto.
  split_and!; auto. rewrite Hq, length_app. simpl. lia.
Qed.

Lemma discard_spec n c :
  length (queued c) ≤ n →
  queued (discard n c) = [] ∧ rx_closed (discard n c) = rx_closed c ∧
  capacity (discard n c) = capacity c.
Proof.
  revert c. induction n as [|n IH]; intros c Hn; simpl.
  { by apply Nat.le_0_r, length_zero_iff_nil in Hn. }
  destruct (queued c) as [|x q] eqn:Hq; [by rewrite recv_empty|].
  destruct (recv_cons _ x q c Hq) as (c' & -> & Hq' & <- & <-).
  apply IH. rewrite Hq'. simpl in Hn. lia.
Qed.

Lemma drop_rx_spec c :
  rx_closed (drop_rx c) = true ∧ queued (drop_rx c) = [] ∧ capacity (drop_rx c) = capacity c.
Proof.
  destruct (close_rx_spec A c) as (Hc & Hq & Hn). unfold drop_rx.
  destruct (discard_spec (length (queued c)) (close_rx c)) as (-> & -> & ->); [by rewrite Hq|auto].
Qed.

Lemma recv_inv c x c' :
  recv c = Some (x, c') →
  queued c = x :: queued c' ∧ capacity c' = capacity c ∧ rx_closed c' = rx_closed c.
Proof.
  intros Hr. destruct (queued c) as [|y q] eqn:Hq; [by rewrite recv_empty in Hr|].
  destruct (recv_cons _ y q c Hq) as (c'' & E & <- & ? & ?). by simplify_eq.
Qed.
End MpscFacts.

(** ** A concrete instance *)

Module ListChannel.
Record lchan (A : Type) := LChan { lc_queue : list A; lc_cap : nat; lc_closed : bool }.
Arguments LChan {A} _ _ _.
Arguments lc_queue {A} _.
Arguments lc_cap {A} _.
Arguments lc_closed {A} _.

#[export] Instance mpsc : Mpsc := {|
  chan := lchan;
  mpsc_channel A n := match n with O => None | S _ => Some (LChan [] n false) end;
  queued A c := lc_queue c;
  capacity A c := lc_cap c;
  rx_closed A c := lc_closed c;
  try_send A x c :=
    if lc_closed c then (SendClosed, c)
    else if length (lc_queue c) <? lc_cap c
         then (SendOk, LChan (lc_queue c ++ [x]) (lc_cap c) false)
         else (SendFull, c);
  recv A c :=
    match lc_queue c with
    | [] => None
    | x :: q => Some (x, LChan q (lc_cap c) (lc_closed c))
    end;
  close_rx A c := LChan (lc_queue c) (lc_cap c) true;
|}.

#[export] Instance mpsc_laws : MpscLaws.
Proof.
  split; simpl.
  - done.
  - intros A [|n] Hn; [lia|]. eauto.
  - intros A x c ->. done.
  - intros A x c -> Hl. by rewrite (proj2 (Nat.ltb_ge _ _)).
  - intros A x c -> Hl. rewrite (proj2 (Nat.ltb_lt _ _)) by done. eauto.
  - intros A c ->. done.
  - intros A x q c ->. eauto.
  - done.
Qed.
End ListChannel.
