(* ===== verification/PoolActor.v ===== *)
(** * The pool actor

    Models the main actor of [src/pool.rs]: the table of connection slots,
    the idle queue, generations, eviction and the message handler.  The
    per-connection channels live in a store ([mailboxes]), shared with the
    connection actors; a channel or oneshot endpoint is its index. *)
From S2P Require Import Prelude Tokio.

Definition POOL_CHANNEL_CAPACITY : nat := 256.
Definition CONNECTION_CHANNEL_CAPACITY : nat := 64.
Definition OPEN_STREAM_RETRIES : nat := 2.

(** Durations in milliseconds; [max_connections : usize]. *)
Record PoolOptions := MkPoolOptions {
  idle_timeout : Z;
  connect_timeout : Z;
  max_connections : Z;
}.
#[export] Instance PoolOptions_eq_dec : EqDecision PoolOptions.
Proof. solve_decision. Defined.

Definition PoolOptions_default : PoolOptions := {|
  idle_timeout := 10000;
  connect_timeout := 5000;
  max_connections := 1024;
|}.

(** [PoolError], over iroh's connect error. *)
Inductive PoolError (ConnectError : Type) :=
  | PoolShutdown
  | PoolTimeout
  | TooManyConnections
  | PoolBusy
  | PoolClosed
  | PoolConnect (e : ConnectError).
Arguments PoolShutdown {ConnectError}.
Arguments PoolTimeout {ConnectError}.
Arguments TooManyConnections {ConnectError}.
Arguments PoolBusy {ConnectError}.
Arguments PoolClosed {ConnectError}.
Arguments PoolConnect {ConnectError} e.

Section Actor.
Context {EndpointId : Type} `{Countable EndpointId} `{!Mpsc} {ConnectError : Type}.

(** A request and the index of its reply channel. *)
Record RequestMsg := MkRequestMsg { req_id : EndpointId; req_tx : nat }.

Inductive Msg :=
  | MsgRequest (req : RequestMsg)
  | MsgIdle (id : EndpointId) (generation : Z)
  | MsgShutdown (id : EndpointId) (generation : Z).

Record ConnectionSlot := MkSlot { slot_generation : Z; slot_tx : nat }.

(** A spawned connection actor: its peer, generation and mailbox. *)
Record Task := MkTask { task_id : EndpointId; task_generation : Z; task_rx : nat }.

Record PoolActor := MkPoolActor {
  connections : gmap EndpointId ConnectionSlot;
  idle : list (EndpointId * Z);
  next_gen : Z;                                 (** [AtomicU64] *)
  tasks : list Task;
  mailboxes : gmap nat (chan RequestMsg);
  next_chan : nat;
  replies : list (nat * PoolError ConnectError); (** errors sent to requesters *)
}.

Definition pool_new : PoolActor := MkPoolActor ∅ [] 1 [] ∅ 0 [].

Definition set_connections (f : gmap EndpointId ConnectionSlot → gmap EndpointId ConnectionSlot)
  (st : PoolActor) : PoolActor :=
  MkPoolActor (f (connections st)) (idle st) (next_gen st) (tasks st) (mailboxes st)
    (next_chan st) (replies st).
Definition set_idle (f : list (EndpointId * Z) → list (EndpointId * Z)) (st : PoolActor)
  : PoolActor :=
  MkPoolActor (connections st) (f (idle st)) (next_gen st) (tasks st) (mailboxes st)
    (next_chan st) (replies st).
Definition set_mailbox (c : nat) (ch : chan RequestMsg) (st : PoolActor) : PoolActor :=
  MkPoolActor (connections st) (idle st) (next_gen st) (tasks st)
    (<[c := ch]> (mailboxes st)) (next_chan st) (replies st).
Definition send_reply (tx : nat) (e : PoolError ConnectError) (st : PoolActor) : PoolActor :=
  MkPoolActor (connections st) (idle st) (next_gen st) (tasks st) (mailboxes st)
    (next_chan st) (replies st ++ [(tx, e)]).

(** [idle.retain(|(existing, _)| *existing != id)] *)
Definition remove_idle (id : EndpointId) : PoolActor → PoolActor :=
  set_idle (filter (λ p, p.1 ≠ id)).

Definition add_idle (id : EndpointId) (generation : Z) (st : PoolActor) : PoolActor :=
  set_idle (λ l, l ++ [(id, generation)]) (remove_idle id st).

Definition slot_matches (conns : gmap EndpointId ConnectionSlot) (id : EndpointId)
  (generation : Z) : bool :=
  match conns !! id with
  | Some slot => (slot_generation slot =? generation)%Z
  | None => false
  end.
Definition matches_generation (st : PoolActor) : EndpointId → Z → bool :=
  slot_matches (connections st).

Definition remove_connection_if_match (id : EndpointId) (generation : Z) (st : PoolActor)
  : PoolActor :=
  if matches_generation st id generation
  then remove_idle id (set_connections (delete id) st)
  else st.

(** [next_generation.fetch_add(1)] *)
Definition next_generation (st : PoolActor) : Z * PoolActor :=
  let '(g, g') := atomic_fetch_add (next_gen st) in
  (g, MkPoolActor (connections st) (idle st) g' (tasks st) (mailboxes st)
        (next_chan st) (replies st)).

(** The [while let Some(..) = idle.pop_front()] loop. *)
Fixpoint evict_loop (l : list (EndpointId * Z)) (conns : gmap EndpointId ConnectionSlot)
  : bool * list (EndpointId * Z) * gmap EndpointId ConnectionSlot :=
  match l with
  | [] => (false, [], conns)
  | (id, generation) :: l =>
      if slot_matches conns id generation then (true, l, delete id conns)
      else evict_loop l conns
  end.

Definition evict_idle_connection (st : PoolActor) : bool * PoolActor :=
  let '(evicted, l, conns) := evict_loop (idle st) (connections st) in
  (evicted, set_idle (λ _, l) (set_connections (λ _, conns) st)).

(** [let (conn_tx, conn_rx) = mpsc::channel(64)]: a fresh store index. *)
Definition open_mailbox (ch : chan RequestMsg) (st : PoolActor) : nat * PoolActor :=
  (next_chan st,
   MkPoolActor (connections st) (idle st) (next_gen st) (tasks st)
     (<[next_chan st := ch]> (mailboxes st)) (S (next_chan st)) (replies st)).

Definition spawn_task (t : Task) (st : PoolActor) : PoolActor :=
  MkPoolActor (connections st) (idle st) (next_gen st) (tasks st ++ [t]) (mailboxes st)
    (next_chan st) (replies st).

(** From [next_generation] to the end of the [Request] arm.  [raced_close]: the
    spawned actor has already dropped its receiver when [conn_tx.send] runs,
    so the send fails and the request (with its reply channel) is dropped. *)
Definition start_connection (raced_close : bool) (req : RequestMsg) (st : PoolActor)
  : PoolActor :=
  let id := req_id req in
  let '(generation, st) := next_generation st in
  match mpsc_channel CONNECTION_CHANNEL_CAPACITY with
  | None => st                  (* a panic; the capacity is not 0 *)
  | Some ch =>
      let '(c, st) := open_mailbox ch st in
      let st := set_connections <[id := MkSlot generation c]> st in
      let st := spawn_task (MkTask id generation c) st in
      if raced_close
      then remove_connection_if_match id generation (set_mailbox c (close_rx ch) st)
      else set_mailbox c (try_send req ch).2 st
  end.

(** From the capacity check on: there is no usable slot for the peer. *)
Definition connect_new (opts : PoolOptions) (raced_close : bool) (req : RequestMsg)
  (st : PoolActor) : PoolActor :=
  if (max_connections opts <=? Z.of_nat (size (connections st)))%Z
  then
    let '(evicted, st) := evict_idle_connection st in
    if evicted then start_connection raced_close req st
    else send_reply (req_tx req) TooManyConnections st
  else start_connection raced_close req st.

Definition handle_request (opts : PoolOptions) (raced_close : bool) (req : RequestMsg)
  (st : PoolActor) : PoolActor :=
  let id := req_id req in
  let st := remove_idle id st in
  match connections st !! id with
  | Some slot =>
      match mailboxes st !! slot_tx slot with
      | Some ch =>
          let '(outcome, ch') := try_send req ch in
          match outcome with
          | SendOk => set_mailbox (slot_tx slot) ch' st
          | SendFull => send_reply (req_tx req) PoolBusy st
          | SendClosed => connect_new opts raced_close req (set_connections (delete id) st)
          end
      | None => st              (* no such channel: excluded by [pool_inv] *)
      end
  | None => connect_new opts raced_close req st
  end.

Definition handle (opts : PoolOptions) (raced_close : bool) (st : PoolActor) (msg : Msg)
  : PoolActor :=
  match msg with
  | MsgRequest req => handle_request opts raced_close req st
  | MsgIdle id generation =>
      if matches_generation st id generation then add_idle id generation st else st
  | MsgShutdown id generation => remove_connection_if_match id generation st
  end.

(** What the [select!] of [run] wakes up for; and, in between, what the
    connection tasks do with their mailboxes, the ends of channels the actor's
    slots send into. *)
Inductive PoolEvent :=
  | PoolMsg (raced_close : bool) (msg : Msg)
  | PoolTaskJoined (generation : Z)
  | PoolShutdownSeen        (** [is_closed()] or the shutdown notification *)
  | PoolSendersGone         (** [rx.recv()] returned [None] *)
  | TaskReceives (c : nat)  (** a task takes the next request of its mailbox *)
  | TaskEnds (c : nat).     (** a task ends, and drops its receiver *)

Definition change_mailbox (f : chan RequestMsg → chan RequestMsg) (c : nat) (st : PoolActor)
  : PoolActor :=
  match mailboxes st !! c with
  | Some ch => set_mailbox c (f ch) st
  | None => st
  end.
Definition take_request (ch : chan RequestMsg) : chan RequestMsg :=
  match recv ch with Some (_, ch) => ch | None => ch end.

(** [join_next] yields a task that has ended. *)
Definition join_task (g : Z) (st : PoolActor) : PoolActor :=
  MkPoolActor (connections st) (idle st) (next_gen st)
    (filter (λ t, task_generation t ≠ g) (tasks st)) (mailboxes st) (next_chan st) (replies st).

(** After the loop: [connections.clear()] and [idle.clear()]. *)
Definition clear_slots (st : PoolActor) : PoolActor :=
  set_idle (λ _, []) (set_connections (λ _, ∅) st).

(** What an event of a connection task does, also once the loop is over. *)
Definition task_event (ev : PoolEvent) (st : PoolActor) : PoolActor :=
  match ev with
  | TaskReceives c => change_mailbox take_request c st
  | TaskEnds c => change_mailbox drop_rx c st
  | _ => st
  end.

(** [run]: the handler per message until shutdown, then everything is cleared,
    and the tasks go on. *)
Fixpoint run (opts : PoolOptions) (st : PoolActor) (events : list PoolEvent) : PoolActor :=
  match events with
  | [] => st
  | PoolMsg raced msg :: events => run opts (handle opts raced st msg) events
  | PoolTaskJoined g :: events => run opts (join_task g st) events
  | PoolShutdownSeen :: events | PoolSendersGone :: events =>
      foldl (flip task_event) (clear_slots st) events
  | ev :: events => run opts (task_event ev st) events
  end.
End Actor.
Arguments PoolActor _ {_ _ _} _.
Arguments RequestMsg : clear implicits.
Arguments Msg : clear implicits.
Arguments Task : clear implicits.
Arguments PoolEvent : clear implicits.

(** ** The invariant *)

Section ActorFacts.
Context {EndpointId : Type} `{Countable EndpointId} `{!Mpsc, !MpscLaws} {ConnectError : Type}.
Context (opts : PoolOptions).
Implicit Types (st : PoolActor EndpointId ConnectError) (id : EndpointId)
  (conns : gmap EndpointId ConnectionSlot) (s : ConnectionSlot).

Record pool_inv st : Prop := {
  (** a peer is queued as idle at most once, and only while its slot is live *)
  pi_idle_NoDup : NoDup (idle st).*1;
  pi_idle_live : ∀ id g, (id, g) ∈ idle st → slot_matches (connections st) id g = true;
  pi_size : (Z.of_nat (size (connections st)) ≤ max_connections opts)%Z;
  (** generations were handed out, and no two slots share one *)
  pi_gen : ∀ id s, connections st !! id = Some s → (1 ≤ slot_generation s < next_gen st)%Z;
  pi_gen_inj : ∀ id id' s s', connections st !! id = Some s → connections st !! id' = Some s' →
    slot_generation s = slot_generation s' → id = id';
  pi_next : (1 ≤ next_gen st ≤ u64_max)%Z;
  (** every slot owns a channel of the store *)
  pi_chan : ∀ id s, connections st !! id = Some s → is_Some (mailboxes st !! slot_tx s);
  pi_chan_inj : ∀ id id' s s', connections st !! id = Some s → connections st !! id' = Some s' →
    slot_tx s = slot_tx s' → id = id';
  pi_fresh : ∀ c, is_Some (mailboxes st !! c) → c < next_chan st;
}.

Lemma slot_matches_true conns id g :
  slot_matches conns id g = true ↔ ∃ s, conns !! id = Some s ∧ slot_generation s = g.
Proof.
  unfold slot_matches. destruct (conns !! id) as [s|].
  - rewrite Z.eqb_eq. split; [eauto | naive_solver].
  - split; [done | naive_solver].
Qed.

Lemma pool_inv_new : (0 ≤ max_connections opts)%Z → pool_inv pool_new.
Proof.
  intros Hm. split; simpl; try set_solver; try (intros ?; rewrite ?lookup_empty; naive_solver).
  - apply NoDup_nil_2.
  - unfold u64_max. lia.
Qed.

Lemma pool_inv_remove_idle st id : pool_inv st → pool_inv (remove_idle id st).
Proof.
  intros []. split; simpl; try done.
  - by apply NoDup_fmap_filter.
  - intros i g [_ Hin]%list_elem_of_filter. auto.
Qed.

Lemma remove_idle_not_in st id : id ∉ (idle (remove_idle id st)).*1.
Proof.
  simpl. intros ([i g] & -> & [Hne _]%list_elem_of_filter)%list_elem_of_fmap. done.
Qed.

Lemma pool_inv_delete st id :
  pool_inv st → id ∉ (idle st).*1 → pool_inv (set_connections (delete id) st).
Proof.
  intros [] Hid. split; simpl; try done.
  - intros i g Hin. apply pi_idle_live0 in Hin as Hm. unfold slot_matches in *.
    rewrite lookup_delete_ne; [done|]. intros ->. apply Hid.
    apply list_elem_of_fmap. by exists (i, g).
  - rewrite map_size_delete. case_match; simpl; lia.
  - intros i s [_ Hs]%lookup_delete_Some. eauto.
  - intros i i' s s' [_ Hs]%lookup_delete_Some [_ Hs']%lookup_delete_Some. eauto.
  - intros i s [_ Hs]%lookup_delete_Some. eauto.
  - intros i i' s s' [_ Hs]%lookup_delete_Some [_ Hs']%lookup_delete_Some. eauto.
Qed.

Lemma pool_inv_set_mailbox st c ch :
  c < next_chan st → pool_inv st → pool_inv (set_mailbox c ch st).
Proof.
  intros Hc []. split; simpl; try done.
  - intros i s Hs. rewrite lookup_insert_is_Some'. eauto.
  - intros c'. rewrite lookup_insert_is_Some'. naive_solver.
Qed.

Lemma pool_inv_reply st tx e : pool_inv st → pool_inv (send_reply tx e st).
Proof. by intros []. Qed.

Lemma pool_inv_remove_connection st id g :
  pool_inv st → pool_inv (remove_connection_if_match id g st).
Proof.
  intros Hinv. unfold remove_connection_if_match. case_match; [|done].
  apply (pool_inv_remove_idle _ id), (pool_inv_delete _ id) in Hinv; [|apply remove_idle_not_in].
  by destruct Hinv.
Qed.

Lemma pool_inv_add_idle st id g :
  pool_inv st → matches_generation st id g = true → pool_inv (add_idle id g st).
Proof.
  intros Hinv Hm. pose proof (remove_idle_not_in st id) as Hni.
  apply (pool_inv_remove_idle _ id) in Hinv. destruct Hinv. split; simpl in *; try done.
  - rewrite fmap_app. apply NoDup_app. split_and!; [done| |apply NoDup_singleton].
    intros i Hi ->%list_elem_of_singleton. done.
  - intros i g' [Hin|[= -> ->]]%elem_of_snoc; [auto|done].
Qed.

(** Under the invariant the idle queue is exact: eviction removes the peer that
    has been idle longest, and fails only when no connection is idle. *)
Lemma evict_idle_inv st :
  pool_inv st →
  evict_idle_connection st =
  match idle st with
  | [] => (false, st)
  | (id, g) :: l => (true, set_idle (λ _, l) (set_connections (delete id) st))
  end.
Proof.
  intros Hinv. unfold evict_idle_connection.
  destruct (idle st) as [|[id g] l] eqn:Hl; simpl; [by destruct st; simpl in *; subst|].
  rewrite (pi_idle_live _ Hinv) by (rewrite Hl; set_solver). done.
Qed.

Lemma pool_inv_evict st :
  pool_inv st → pool_inv (evict_idle_connection st).2.
Proof.
  intros Hinv. rewrite evict_idle_inv by done.
  destruct (idle st) as [|[id g] l] eqn:Hl; [done|]. simpl.
  pose proof (pi_idle_NoDup _ Hinv) as Hnd. rewrite Hl in Hnd. csimpl in Hnd.
  apply NoDup_cons in Hnd as [Hid Hnd].
  assert (Hpop : pool_inv (set_idle (λ _, l) st)).
  { destruct Hinv. split; simpl; try done.
    intros i g' Hi. apply pi_idle_live0. rewrite Hl. by right. }
  by apply (pool_inv_delete _ id) in Hpop.
Qed.

(** What [start_connection] does to a pool with room for a new peer. *)
Lemma start_connection_spec raced req st :
  let id := req_id req in
  let c := next_chan st in
  ∃ ch ch', mpsc_channel CONNECTION_CHANNEL_CAPACITY = Some ch ∧ queued ch = [] ∧
    try_send req ch = (SendOk, ch') ∧ queued ch' = [req] ∧ rx_closed ch' = false ∧
    start_connection raced req st =
    let st' := MkPoolActor (<[id := MkSlot (next_gen st) c]> (connections st)) (idle st)
                 (u64_wrap (next_gen st + 1)) (tasks st ++ [MkTask id (next_gen st) c])
                 (<[c := if raced then close_rx ch else ch']> (mailboxes st))
                 (S c) (replies st) in
    if raced then remove_idle id (set_connections (delete id) st') else st'.
Proof.
  intros id c.
  destruct (mpsc_channel_pos (RequestMsg EndpointId) CONNECTION_CHANNEL_CAPACITY) as
    (ch & Hch & Hq & Hcap & Hopen); [unfold CONNECTION_CHANNEL_CAPACITY; lia|].
  destruct (try_send_ok _ req ch Hopen) as (ch' & Hs & Hq' & _ & Hopen').
  { rewrite Hq, Hcap. unfold CONNECTION_CHANNEL_CAPACITY. simpl. lia. }
  exists ch, ch'. rewrite Hq in Hq'. split_and!; try done.
  unfold start_connection, next_generation, atomic_fetch_add. simpl.
  rewrite Hch. simpl. destruct raced.
  - unfold remove_connection_if_match, matches_generation, slot_matches. simpl.
    rewrite lookup_insert_eq. simpl. rewrite Z.eqb_refl.
    unfold set_mailbox, remove_idle, set_connections, set_idle. simpl.
    by rewrite insert_insert_eq.
  - unfold set_mailbox. simpl. by rewrite insert_insert_eq, Hs.
Qed.

Lemma pool_inv_start raced req st :
  pool_inv st → connections st !! req_id req = None →
  (Z.of_nat (size (connections st)) < max_connections opts)%Z →
  (next_gen st < u64_max)%Z →
  pool_inv (start_connection raced req st).
Proof.
  intros Hinv Hnone Hsize Hgen.
  destruct (start_connection_spec raced req st) as (ch & ch' & _ & _ & _ & _ & _ & ->).
  set (id := req_id req) in *. set (c := next_chan st).
  assert (Hnid : id ∉ (idle st).*1).
  { intros ([i g] & E & Hin)%list_elem_of_fmap. simpl in E. subst i.
    apply (pi_idle_live _ Hinv), slot_matches_true in Hin as (s & Hs & _). congruence. }
  rewrite u64_wrap_small by (destruct Hinv; split; lia).
  match goal with |- pool_inv (let st' := ?x in _) => assert (Hinv' : pool_inv x) end.
  { destruct Hinv. split; simpl; try done.
    - intros i g Hin. apply pi_idle_live0 in Hin as Hm. unfold slot_matches in *.
      rewrite lookup_insert_ne; [done|]. intros <-. apply Hnid, list_elem_of_fmap. by exists (id, g).
    - rewrite map_size_insert_None by done. lia.
    - intros i s [[<- <-]|[_ Hs]]%lookup_insert_Some; simpl; [lia|]. apply pi_gen0 in Hs. lia.
    - intros i i' s s' [[<- <-]|[_ Hs]]%lookup_insert_Some [[<- <-]|[_ Hs']]%lookup_insert_Some;
        simpl; intros E; [done| | |eauto].
      + apply pi_gen0 in Hs'. lia.
      + apply pi_gen0 in Hs. lia.
    - lia.
    - intros i s [[<- <-]|[_ Hs]]%lookup_insert_Some; rewrite lookup_insert_is_Some'; eauto.
    - intros i i' s s' [[<- <-]|[_ Hs]]%lookup_insert_Some [[<- <-]|[_ Hs']]%lookup_insert_Some;
        simpl; intros E; [done| | |eauto].
      + apply pi_chan0, pi_fresh0 in Hs'. lia.
      + apply pi_chan0, pi_fresh0 in Hs. lia.
    - intros c'. rewrite lookup_insert_is_Some'. intros [<-|Hc%pi_fresh0]; lia. }
  destruct raced; simpl; [|done].
  by apply pool_inv_remove_idle, pool_inv_delete.
Qed.

Lemma pool_inv_connect_new raced req st :
  pool_inv st → connections st !! req_id req = None → (next_gen st < u64_max)%Z →
  pool_inv (connect_new opts raced req st).
Proof.
  intros Hinv Hnone Hgen. unfold connect_new.
  destruct (Z.leb_spec (max_connections opts) (Z.of_nat (size (connections st)))) as [Hfull|Hroom].
  2: { by apply pool_inv_start. }
  pose proof (pool_inv_evict st Hinv) as Hev. rewrite evict_idle_inv in * by done.
  destruct (idle st) as [|[id g] l] eqn:Hl; [by apply pool_inv_reply|]. simpl in Hev.
  apply pool_inv_start; simpl; [done| | |done].
  - by rewrite lookup_delete_None; right.
  - assert (is_Some (connections st !! id)) as [s Hs].
    { destruct (slot_matches_true (connections st) id g) as [Hm _].
      destruct Hm as (s & Hs & _); [|eauto]. apply (pi_idle_live _ Hinv). rewrite Hl. set_solver. }
    rewrite map_size_delete, Hs. simpl. pose proof (pi_size _ Hinv).
    assert (size (connections st) ≠ 0) by (apply map_size_ne_0_lookup_2 with id; eauto). lia.
Qed.

(** A message that names a superseded generation changes nothing. *)
Lemma handle_stale raced st msg :
  match msg with
  | MsgRequest _ => False
  | MsgIdle id g | MsgShutdown id g => matches_generation st id g = false
  end → handle opts raced st msg = st.
Proof.
  destruct msg as [|id g|id g]; [done|..]; simpl; intros Hm.
  - by rewrite Hm.
  - unfold remove_connection_if_match. by rewrite Hm.
Qed.

Lemma handle_inv raced st msg :
  pool_inv st → (next_gen st < u64_max)%Z → pool_inv (handle opts raced st msg).
Proof.
  intros Hinv Hgen. destruct msg as [req|id g|id g]; simpl.
  - unfold handle_request. apply (pool_inv_remove_idle _ (req_id req)) in Hinv as Hr.
    pose proof (remove_idle_not_in st (req_id req)) as Hni.
    set (st1 := remove_idle (req_id req) st) in *.
    destruct (connections st1 !! req_id req) as [slot|] eqn:Hslot.
    2: { by apply pool_inv_connect_new. }
    destruct (mailboxes st1 !! slot_tx slot) as [ch|] eqn:Hch; [|done].
    destruct (try_send req ch) as [[] ch'].
    + apply pool_inv_set_mailbox; [|done]. apply (pi_fresh _ Hr). by rewrite Hch.
    + by apply pool_inv_reply.
    + apply pool_inv_connect_new; [by apply pool_inv_delete| |done].
      simpl. apply lookup_delete_eq.
  - case_match; [by apply pool_inv_add_idle | done].
  - by apply pool_inv_remove_connection.
Qed.

(** ** Reachable states *)

Lemma start_connection_next_gen raced req st :
  next_gen (start_connection raced req st) = u64_wrap (next_gen st + 1).
Proof.
  destruct (start_connection_spec raced req st) as (? & ? & _ & _ & _ & _ & _ & ->).
  by destruct raced.
Qed.

Lemma connect_new_next_gen raced req st :
  (1 ≤ next_gen st < u64_max)%Z →
  (next_gen st ≤ next_gen (connect_new opts raced req st) ≤ next_gen st + 1)%Z.
Proof.
  intros Hg. unfold connect_new, evict_idle_connection.
  destruct (evict_loop _ _) as [[ev l] conns].
  assert (E : u64_wrap (next_gen st + 1) = (next_gen st + 1)%Z).
  { apply u64_wrap_small. split; lia. }
  repeat case_match; rewrite ?start_connection_next_gen; simpl; lia.
Qed.

Lemma handle_next_gen raced st msg :
  (1 ≤ next_gen st < u64_max)%Z →
  (next_gen st ≤ next_gen (handle opts raced st msg) ≤ next_gen st + 1)%Z.
Proof.
  intros Hg. destruct msg as [req|id g|id g]; simpl.
  - unfold handle_request.
    destruct (connections _ !! _) as [slot|];
      [|exact (connect_new_next_gen raced req (remove_idle (req_id req) st) Hg)].
    destruct (mailboxes _ !! _) as [ch|]; [|simpl; lia].
    destruct (try_send req ch) as [[] ch']; [simpl; lia..|].
    exact (connect_new_next_gen raced req
             (set_connections (delete (req_id req)) (remove_idle (req_id req) st)) Hg).
  - case_match; simpl; lia.
  - unfold remove_connection_if_match. case_match; simpl; lia.
Qed.

Lemma pool_inv_clear st : pool_inv st → pool_inv (clear_slots st).
Proof.
  intros []. split; simpl; try done.
  - apply NoDup_nil_2.
  - intros i g []%elem_of_nil.
  - rewrite map_size_empty. lia.
Qed.

Lemma pool_inv_change_mailbox f c st : pool_inv st → pool_inv (change_mailbox f c st).
Proof.
  intros Hinv. unfold change_mailbox. destruct (mailboxes st !! c) eqn:Hc; [|done].
  apply pool_inv_set_mailbox; [|done]. apply (pi_fresh _ Hinv). by rewrite Hc.
Qed.

Lemma pool_inv_task_event ev st : pool_inv st → pool_inv (task_event ev st).
Proof. destruct ev; simpl; auto using pool_inv_change_mailbox. Qed.

Lemma pool_inv_task_events events st :
  pool_inv st → pool_inv (foldl (flip task_event) st events).
Proof.
  revert st. induction events as [|ev events IH]; intros st Hinv; simpl; [done|].
  by apply IH, pool_inv_task_event.
Qed.

(** An event of a task changes mailboxes only. *)
Lemma task_event_same ev st :
  connections (task_event ev st) = connections st ∧ idle (task_event ev st) = idle st ∧
  next_gen (task_event ev st) = next_gen st ∧ tasks (task_event ev st) = tasks st ∧
  next_chan (task_event ev st) = next_chan st ∧ replies (task_event ev st) = replies st.
Proof.
  destruct ev; try done; simpl; unfold change_mailbox; by destruct (mailboxes st !! c).
Qed.

Lemma run_inv events st :
  pool_inv st → (next_gen st + Z.of_nat (length events) < u64_max)%Z →
  pool_inv (run opts st events).
Proof.
  revert st. induction events as [|ev events IH]; intros st Hinv Hlen; [done|].
  simpl length in Hlen. destruct ev as [raced msg|g| | |c|c]; simpl.
  - pose proof (pi_next _ Hinv). pose proof (handle_next_gen raced st msg ltac:(lia)).
    apply IH; [apply handle_inv; [done|lia]|lia].
  - apply IH; [by destruct Hinv | simpl; lia].
  - by apply pool_inv_task_events, pool_inv_clear.
  - by apply pool_inv_task_events, pool_inv_clear.
  - apply IH; [by apply (pool_inv_task_event (TaskReceives c))|].
    destruct (task_event_same (TaskReceives c) st) as (_ & _ & E & _). simpl in E. rewrite E. lia.
  - apply IH; [by apply (pool_inv_task_event (TaskEnds c))|].
    destruct (task_event_same (TaskEnds c) st) as (_ & _ & E & _). simpl in E. rewrite E. lia.
Qed.

(** ** Where requests go *)

(** The reply channels the actor still answers for: those of the requests in
    some mailbox, and those it has already answered with an error. *)
Definition pending_tokens st : list nat :=
  (p ← map_to_list (mailboxes st); req_tx <$> queued p.2) ++ (replies st).*1.

Lemma mailbox_tokens_push (m : gmap nat (chan (RequestMsg EndpointId))) c ch ch' req :
  queued ch' = queued ch ++ [req] → m !! c = Some ch ∨ (m !! c = None ∧ queued ch = []) →
  (p ← map_to_list (<[c := ch']> m); req_tx <$> queued p.2) ≡ₚ
  req_tx req :: (p ← map_to_list m; req_tx <$> queued p.2).
Proof.
  intros Hq [Hc|[Hc Hnil]].
  - rewrite <-insert_delete_eq, map_to_list_insert by apply lookup_delete_eq.
    rewrite <-(map_to_list_delete m c ch Hc). csimpl.
    rewrite Hq, fmap_app. csimpl. rewrite <-app_assoc. simpl. by rewrite Permutation_middle.
  - rewrite map_to_list_insert by done. csimpl. by rewrite Hq, Hnil.
Qed.

Lemma pending_tokens_reply tx e st :
  pending_tokens (send_reply tx e st) ≡ₚ tx :: pending_tokens st.
Proof.
  unfold pending_tokens, send_reply. simpl. rewrite fmap_app. csimpl.
  by rewrite app_assoc, <-Permutation_cons_append.
Qed.

(** The request is where its reply will come from: answered with an error, or
    the last message of the open mailbox of its peer's slot. *)
Definition routed (req : RequestMsg EndpointId) st : Prop :=
  (∃ e, last (replies st) = Some (req_tx req, e)) ∨
  (∃ slot ch, connections st !! req_id req = Some slot ∧
     mailboxes st !! slot_tx slot = Some ch ∧
     last (queued ch) = Some req ∧ rx_closed ch = false).

Lemma start_connection_routed (raced : bool) req st :
  pool_inv st →
  if raced then pending_tokens (start_connection true req st) ≡ₚ pending_tokens st
  else routed req (start_connection false req st) ∧
       pending_tokens (start_connection false req st) ≡ₚ req_tx req :: pending_tokens st.
Proof.
  intros Hinv.
  assert (Hnone : mailboxes st !! next_chan st = None).
  { destruct (mailboxes st !! next_chan st) eqn:E; [|done].
    pose proof (pi_fresh _ Hinv (next_chan st)) as Hf. rewrite E in Hf.
    specialize (Hf (mk_is_Some _ _ eq_refl)). lia. }
  destruct (start_connection_spec raced req st) as (ch & ch' & _ & Hq & _ & Hq' & Hopen & E).
  destruct raced; [|split]; rewrite E; simpl.
  - unfold pending_tokens. simpl. rewrite map_to_list_insert by done. csimpl.
    by rewrite (proj1 (proj2 (close_rx_spec _ ch))), Hq.
  - right. exists (MkSlot (next_gen st) (next_chan st)), ch'. simpl.
    by rewrite !lookup_insert_eq, Hq'.
  - unfold pending_tokens. simpl.
    by rewrite (mailbox_tokens_push _ _ ch ch' req); [|by rewrite Hq, Hq'|by right].
Qed.

(** A new connection is started, or the request is refused. *)
Lemma connect_new_routed raced req st :
  pool_inv st →
  let st' := connect_new opts raced req st in
  (pending_tokens st' ≡ₚ req_tx req :: pending_tokens st ∧ routed req st' ∧
     (raced = true → tasks st' = tasks st)) ∨
  (raced = true ∧ pending_tokens st' ≡ₚ pending_tokens st ∧
     length (tasks st) < length (tasks st')).
Proof.
  intros Hinv. cbv zeta.
  assert (Hstart : ∀ st1, pool_inv st1 → tasks st1 = tasks st →
    pending_tokens st1 = pending_tokens st →
    (pending_tokens (start_connection raced req st1) ≡ₚ req_tx req :: pending_tokens st ∧
       routed req (start_connection raced req st1) ∧
       (raced = true → tasks (start_connection raced req st1) = tasks st)) ∨
    (raced = true ∧ pending_tokens (start_connection raced req st1) ≡ₚ pending_tokens st ∧
       length (tasks st) < length (tasks (start_connection raced req st1)))).
  { intros st1 Hinv1 <- <-. pose proof (start_connection_routed raced req st1 Hinv1) as Hr.
    destruct (start_connection_spec raced req st1) as (? & ? & _ & _ & _ & _ & _ & E).
    destruct raced; [right|left; by destruct Hr].
    split_and!; [done|done|]. rewrite E. simpl. rewrite length_app. simpl. lia. }
  unfold connect_new. case_match; [|by apply Hstart].
  pose proof (pool_inv_evict st Hinv) as Hev. rewrite evict_idle_inv in * by done.
  destruct (idle st) as [|[id g] l].
  - left. split_and!; [apply pending_tokens_reply| |done].
    left. exists TooManyConnections. simpl. by rewrite last_snoc.
  - by apply Hstart.
Qed.

(** C26: in every state the pool actor reaches, at most [max_connections]
    slots are open; each has a generation of its own, handed out earlier, and
    a channel of its own; and the idle queue lists only live slots, each peer
    at most once (while fewer than 2^64 messages have been handled). *)
Theorem run_reachable_inv events :
  (0 ≤ max_connections opts)%Z → (1 + Z.of_nat (length events) < u64_max)%Z →
  pool_inv (run opts pool_new events).
Proof. intros Hm Hl. apply run_inv; [by apply pool_inv_new | done]. Qed.

(** Messages of superseded connections are inert: an [Idle] or [Shutdown]
    for a generation that is not the peer's current one changes nothing, so a
    late message cannot close or idle the connection that replaced it. *)
Lemma stale_generation_ignored raced st id g :
  (∀ s, connections st !! id = Some s → slot_generation s ≠ g) →
  handle opts raced st (MsgIdle id g) = st ∧ handle opts raced st (MsgShutdown id g) = st.
Proof.
  intros Hs.
  assert (Hm : matches_generation st id g = false).
  { apply not_true_is_false. intros (s & Hs' & E)%slot_matches_true. by apply (Hs s). }
  split; by apply handle_stale.
Qed.

(** Handling a request adds exactly its reply channel to those the actor
    answers for, and the request is either refused with an error or waits last
    in the open mailbox of its own peer; unless a task is spawned for it and
    ends before [conn_tx.send]: then the request is dropped. *)
Lemma handle_request_accounted raced st req :
  pool_inv st →
  let st' := handle opts raced st (MsgRequest req) in
  (pending_tokens st' ≡ₚ req_tx req :: pending_tokens st ∧ routed req st' ∧
     (raced = true → tasks st' = tasks st)) ∨
  (raced = true ∧ pending_tokens st' ≡ₚ pending_tokens st ∧
     length (tasks st) < length (tasks st')).
Proof.
  intros Hinv. simpl. unfold handle_request.
  apply (pool_inv_remove_idle _ (req_id req)) in Hinv as Hr.
  pose proof (remove_idle_not_in st (req_id req)) as Hni.
  set (st1 := remove_idle (req_id req) st) in *.
  change (pending_tokens st) with (pending_tokens st1).
  change (tasks st) with (tasks st1).
  destruct (connections st1 !! req_id req) as [slot|] eqn:Hslot.
  2: { exact (connect_new_routed raced req st1 Hr). }
  destruct (pi_chan _ Hr _ _ Hslot) as [ch Hch]. rewrite Hch.
  destruct (try_send req ch) as [o ch'] eqn:Hts. apply try_send_inv in Hts as [Hts _].
  destruct o.
  - destruct Hts as (Hq & _ & _ & Hopen). left. split_and!; [| |done].
    + unfold pending_tokens. simpl. rewrite (mailbox_tokens_push _ _ ch ch' req); auto.
    + right. exists slot, ch'. simpl. rewrite lookup_insert_eq, Hq, last_snoc. done.
  - left. split_and!; [apply pending_tokens_reply| |done].
    left. exists PoolBusy. simpl. by rewrite last_snoc.
  - apply (pool_inv_delete _ (req_id req)) in Hr; [|done].
    exact (connect_new_routed raced req _ Hr).
Qed.

(** A peer that is connected is reached over its existing connection: a
    request for it opens none, keeps its generation, and takes the peer out of
    the idle queue; it is refused as busy exactly when the mailbox is full. *)
Lemma connection_reused raced st req slot ch :
  connections st !! req_id req = Some slot → mailboxes st !! slot_tx slot = Some ch →
  rx_closed ch = false →
  let st' := handle opts raced st (MsgRequest req) in
  connections st' = connections st ∧ next_gen st' = next_gen st ∧ tasks st' = tasks st ∧
  (req_id req ∉ (idle st').*1) ∧
  (replies st' = replies st ++ [(req_tx req, PoolBusy)] ↔ capacity ch ≤ length (queued ch)) ∧
  (length (queued ch) < capacity ch → replies st' = replies st).
Proof.
  intros Hslot Hch Hopen. simpl. unfold handle_request. simpl. rewrite Hslot, Hch.
  pose proof (remove_idle_not_in st (req_id req)) as Hni. simpl in Hni.
  destruct (try_send_cases req ch) as [[? _]|[(_ & Hl & ->)|(_ & Hl & ch' & -> & _)]];
    [congruence|..]; simpl; split_and!; try done; try lia.
  split; [|lia]. intros E. apply (f_equal length) in E. rewrite length_app in E. simpl in E. lia.
Qed.

(** At the limit a new peer takes the place of the connection that has
    been idle longest, and of no other; only when no connection is idle is it
    refused, with [TooManyConnections] and no change to the connections. *)
Lemma limit_evicts_longest_idle st req :
  pool_inv st → connections st !! req_id req = None →
  (max_connections opts ≤ Z.of_nat (size (connections st)))%Z →
  let st' := handle opts false st (MsgRequest req) in
  match idle st with
  | [] => connections st' = connections st ∧
          replies st' = replies st ++ [(req_tx req, TooManyConnections)]
  | (victim, _) :: rest =>
      connections st' = <[req_id req := MkSlot (next_gen st) (next_chan st)]>
                          (delete victim (connections st)) ∧
      idle st' = rest ∧ replies st' = replies st
  end.
Proof.
  intros Hinv Hnone Hfull. simpl. unfold handle_request.
  assert (Hidle : filter (λ p, p.1 ≠ req_id req) (idle st) = idle st).
  { apply filter_all. intros [i g] Hin E. simpl in E. subst i.
    apply (pi_idle_live _ Hinv), slot_matches_true in Hin as (s & Hs & _). congruence. }
  assert (Hr : remove_idle (req_id req) st = st).
  { unfold remove_idle, set_idle. rewrite Hidle. by destruct st. }
  rewrite Hr, Hnone. unfold connect_new. rewrite (proj2 (Z.leb_le _ _) Hfull).
  rewrite evict_idle_inv by done.
  destruct (idle st) as [|[victim g] rest]; [done|].
  match goal with |- context [start_connection false req ?x] =>
    destruct (start_connection_spec false req x) as (? & ? & _ & _ & _ & _ & _ & ->) end.
  done.
Qed.
End ActorFacts.

(** ** Concrete inputs *)

Module PoolActorDemo.
Import ListChannel.

Definition demo_opts : PoolOptions := MkPoolOptions 10000 5000 2.
Abbreviation request i t := (PoolMsg false (MsgRequest (MkRequestMsg i t))).

(** Peers 1 and 2 connect, peer 1 turns idle, peer 3 takes its place; the
    request for peer 4 finds no idle connection.  The task of peer 2 serves two
    requests and ends; the next request for it finds its mailbox closed, and
    opens a new connection in the place of the old one. *)
Definition demo_events : list (PoolEvent nat) :=
  [request 1 10; TaskReceives 0; request 2 20; PoolMsg false (MsgIdle 1 1); request 3 30;
   request 4 40; request 2 21; TaskReceives 1; TaskReceives 1; TaskEnds 1; request 2 22].
Definition demo_state : PoolActor nat unit := run demo_opts pool_new demo_events.

Example pool_demo :
  (slot_generation <$> connections demo_state) = {[2 := 4%Z; 3 := 3%Z]} ∧
  replies demo_state = [(40, TooManyConnections)] ∧
  mailboxes demo_state !! 1 = Some (LChan [] 64 true) ∧
  mailboxes demo_state !! 3 = Some (LChan [MkRequestMsg 2 22] 64 false).
Proof. vm_compute. auto. Qed.

Lemma run_reachable_inv_witness : pool_inv demo_opts demo_state.
Proof. apply run_reachable_inv; done. Defined.

End PoolActorDemo.
