(* ===== verification/PoolCache.v ===== *)
(** * The pool actor as a cache

    An abstract specification of the pool's table: a bounded set of peers with
    the idle ones in the order in which they will be evicted.  The pool actor of
    [PoolActor], with its generations, mailboxes and late messages, refines
    it. *)
From S2P Require Import Prelude Tokio PoolActor.

Section Cache.
Context {EndpointId : Type} `{Countable EndpointId}.

(** The connected peers; the idle ones among them, longest idle first; how many
    requests were refused for want of room. *)
Record Cache := MkCache {
  cc_peers : gset EndpointId;
  cc_idle : list EndpointId;
  cc_refused : nat;
}.
Definition cache_new : Cache := MkCache ∅ [] 0.

Inductive CacheEvent :=
  | CacheGet (id : EndpointId)     (** a request: the peer is in use *)
  | CacheIdle (id : EndpointId)    (** its last user is done *)
  | CacheGone (id : EndpointId)    (** its connection is no more *)
  | CacheClear.

Context (max : Z).

Definition without (id : EndpointId) (l : list EndpointId) : list EndpointId := filter (.≠ id) l.

Definition cache_step (c : Cache) (ev : CacheEvent) : Cache :=
  match ev with
  | CacheGet id =>
      if decide (id ∈ cc_peers c) then MkCache (cc_peers c) (without id (cc_idle c)) (cc_refused c)
      else if (Z.of_nat (size (cc_peers c)) <? max)%Z
      then MkCache ({[id]} ∪ cc_peers c) (cc_idle c) (cc_refused c)
      else match cc_idle c with
           | [] => MkCache (cc_peers c) [] (S (cc_refused c))
           | victim :: rest => MkCache ({[id]} ∪ cc_peers c ∖ {[victim]}) rest (cc_refused c)
           end
  | CacheIdle id =>
      if decide (id ∈ cc_peers c)
      then MkCache (cc_peers c) (without id (cc_idle c) ++ [id]) (cc_refused c) else c
  | CacheGone id => MkCache (cc_peers c ∖ {[id]}) (without id (cc_idle c)) (cc_refused c)
  | CacheClear => MkCache ∅ [] (cc_refused c)
  end.

Definition cache_ok (c : Cache) : Prop :=
  (Z.of_nat (size (cc_peers c)) ≤ max)%Z ∧ NoDup (cc_idle c) ∧
  ∀ id, id ∈ cc_idle c → id ∈ cc_peers c.

Lemma without_elem id id' l : id' ∈ without id l ↔ id' ∈ l ∧ id' ≠ id.
Proof. unfold without. rewrite list_elem_of_filter. tauto. Qed.
Lemma without_not_in id l : id ∉ l → without id l = l.
Proof. intros Hni. apply filter_all. intros x Hx ->. done. Qed.

Lemma cache_step_ok c ev : (0 ≤ max)%Z → cache_ok c → cache_ok (cache_step c ev).
Proof.
  intros Hmax (Hs & Hnd & Hin). unfold cache_ok. destruct ev as [id|id|id|]; simpl.
  - destruct (decide (id ∈ cc_peers c)) as [Hp|Hp]; simpl.
    { split_and!; [done|by apply NoDup_filter|]. intros i [? _]%without_elem. auto. }
    destruct (Z.ltb_spec (Z.of_nat (size (cc_peers c))) max) as [Hlt|Hge]; simpl.
    { split_and!; [rewrite size_union, size_singleton by set_solver; lia|done|set_solver]. }
    destruct (cc_idle c) as [|victim rest] eqn:El; simpl.
    { split_and!; [done|done|set_solver]. }
    apply NoDup_cons in Hnd as [Hv Hnd].
    assert (victim ∈ cc_peers c) as Hvp by (apply Hin; set_solver). split_and!; [|done|].
    + rewrite size_union, size_singleton by set_solver.
      rewrite size_difference, size_singleton by set_solver.
      assert (size (cc_peers c) ≠ 0) by (intros E%size_empty_inv; set_solver). lia.
    + intros i Hi. assert (i ≠ victim) by congruence.
      assert (i ∈ cc_peers c) by (apply Hin; set_solver). set_solver.
  - destruct (decide (id ∈ cc_peers c)) as [Hp|Hp]; simpl; [|done]. split_and!; [done| |].
    + apply NoDup_app. split_and!; [by apply NoDup_filter| |apply NoDup_singleton].
      intros i [_ Hne]%without_elem ->%list_elem_of_singleton. done.
    + intros i [[? _]%without_elem|<-]%elem_of_snoc; auto.
  - split_and!.
    + pose proof (subseteq_size (cc_peers c ∖ {[id]}) (cc_peers c)). set_solver by lia.
    + by apply NoDup_filter.
    + intros i [? ?]%without_elem. set_solver.
  - split_and!; [done|apply NoDup_nil_2|set_solver].
Qed.
End Cache.
Arguments Cache _ {_ _}.
Arguments CacheEvent : clear implicits.

(** ** Refinement *)

Section Refinement.
Context {EndpointId : Type} `{Countable EndpointId} `{!Mpsc, !MpscLaws} {ConnectError : Type}.
Context (opts : PoolOptions).
Implicit Types (st : PoolActor EndpointId ConnectError).
Abbreviation step := (cache_step (EndpointId := EndpointId) (max_connections opts)).

Definition refusal (r : nat * PoolError ConnectError) : bool :=
  match r.2 with TooManyConnections => true | _ => false end.
Definition refusals (l : list (nat * PoolError ConnectError)) : nat :=
  length (filter (λ r, refusal r = true) l).

(** The cache that a pool actor is. *)
Definition cache_of st : Cache EndpointId :=
  MkCache (dom (connections st)) (idle st).*1 (refusals (replies st)).

(** The slot of the peer has an open mailbox. *)
Definition open_slot st (id : EndpointId) : bool :=
  match connections st !! id with
  | Some slot => match mailboxes st !! slot_tx slot with
                 | Some ch => negb (rx_closed ch) | None => false end
  | None => false
  end.

(** What a message is to the cache.  A slot whose mailbox is closed is gone
    before the request is served; messages of another generation than the
    slot's are nothing. *)
Definition cache_events_of (raced : bool) (msg : Msg EndpointId) st
  : list (CacheEvent EndpointId) :=
  match msg with
  | MsgRequest req =>
      if open_slot st (req_id req) then [CacheGet (req_id req)]
      else [CacheGone (req_id req); CacheGet (req_id req)] ++
           (if raced then [CacheGone (req_id req)] else [])
  | MsgIdle id g => if matches_generation st id g then [CacheIdle id] else []
  | MsgShutdown id g => if matches_generation st id g then [CacheGone id] else []
  end.

Lemma fmap_fst_filter (id : EndpointId) (l : list (EndpointId * Z)) :
  (filter (λ p, p.1 ≠ id) l).*1 = without id l.*1.
Proof.
  unfold without. induction l as [|[i g] l IH]; [done|].
  destruct (decide (i = id)) as [->|Hne]; csimpl;
    [rewrite !filter_cons_False by tauto|rewrite !filter_cons_True by done; csimpl]; by rewrite IH.
Qed.

Lemma refusals_snoc l r : refusals (l ++ [r]) = (if refusal r then 1 else 0) + refusals l.
Proof.
  unfold refusals. rewrite filter_app, length_app, filter_cons.
  destruct (refusal r); simpl; [by rewrite Nat.add_comm|lia].
Qed.

Lemma cache_of_gone st id :
  cache_of (remove_idle id (set_connections (delete id) st)) = step (cache_of st) (CacheGone id).
Proof. unfold cache_of. simpl. by rewrite dom_delete_L, fmap_fst_filter. Qed.

Lemma dom_size st : size (dom (connections st) : gset EndpointId) = size (connections st).
Proof. apply size_dom. Qed.

(** A new peer, in a pool with room. *)
Lemma cache_of_start raced req st :
  connections st !! req_id req = None → req_id req ∉ (idle st).*1 →
  cache_of (start_connection raced req st) =
  let c := MkCache ({[req_id req]} ∪ dom (connections st)) (idle st).*1 (refusals (replies st)) in
  if raced then step c (CacheGone (req_id req)) else c.
Proof.
  intros Hnone Hni. destruct (start_connection_spec raced req st)
    as (ch & ch' & _ & _ & _ & _ & _ & ->).
  destruct raced; unfold cache_of; simpl.
  - by rewrite dom_delete_L, dom_insert_L, fmap_fst_filter.
  - by rewrite dom_insert_L.
Qed.

Lemma cache_of_connect_new raced req st :
  pool_inv opts st → connections st !! req_id req = None →
  cache_of (connect_new opts raced req st) =
  foldl step (cache_of st)
    (CacheGet (req_id req) :: if raced then [CacheGone (req_id req)] else []).
Proof.
  intros Hinv Hnone. set (id := req_id req) in *.
  assert (Hni : id ∉ (idle st).*1).
  { intros ([i g] & E & Hin)%list_elem_of_fmap. simpl in E. subst i.
    apply (pi_idle_live _ _ Hinv), slot_matches_true in Hin as (s & Hs & _). congruence. }
  assert (Hnd : id ∉ dom (connections st)) by by apply not_elem_of_dom.
  assert (Hget : step (cache_of st) (CacheGet id) =
    if (Z.of_nat (size (connections st)) <? max_connections opts)%Z
    then MkCache ({[id]} ∪ dom (connections st)) (idle st).*1 (refusals (replies st))
    else match (idle st).*1 with
         | [] => MkCache (dom (connections st)) [] (S (refusals (replies st)))
         | victim :: rest => MkCache ({[id]} ∪ dom (connections st) ∖ {[victim]}) rest
                               (refusals (replies st))
         end).
  { simpl. rewrite decide_False by done. by rewrite dom_size. }
  unfold connect_new. cbn [foldl]. rewrite Hget. clear Hget.
  destruct (Z.leb_spec (max_connections opts) (Z.of_nat (size (connections st)))) as [Hfull|Hroom].
  2: { rewrite (proj2 (Z.ltb_lt _ _) Hroom), cache_of_start by done. by destruct raced. }
  rewrite (proj2 (Z.ltb_ge _ _) Hfull), (evict_idle_inv opts) by done.
  destruct (idle st) as [|[victim g] rest] eqn:El; csimpl.
  - unfold cache_of. simpl. rewrite El, refusals_snoc. simpl. destruct raced; simpl; [|done].
    by rewrite difference_disjoint_L by set_solver.
  - rewrite cache_of_start.
    + simpl. rewrite dom_delete_L. by destruct raced.
    + simpl. rewrite lookup_delete_None. by right.
    + simpl. csimpl in Hni. set_solver.
Qed.

(** Handling a message is what the cache does on its events. *)
Lemma handle_refines raced st msg :
  pool_inv opts st →
  cache_of (handle opts raced st msg) = foldl step (cache_of st) (cache_events_of raced msg st).
Proof.
  intros Hinv. destruct msg as [req|id g|id g]; simpl.
  - set (id := req_id req). unfold handle_request, open_slot. fold id.
    assert (Hr : pool_inv opts (remove_idle id st)) by by apply pool_inv_remove_idle.
    assert (Hgone : connections st !! id = None → cache_of (remove_idle id st) =
      step (cache_of st) (CacheGone id)).
    { intros Hnone. unfold cache_of. simpl. rewrite fmap_fst_filter.
      by rewrite difference_disjoint_L by (apply not_elem_of_dom in Hnone; set_solver). }
    simpl. destruct (connections st !! id) as [slot|] eqn:Hslot.
    2: { rewrite cache_of_connect_new by done. rewrite Hgone by done. done. }
    destruct (pi_chan _ _ Hinv _ _ Hslot) as [ch Hch]. rewrite Hch.
    assert (Hdom : id ∈ dom (connections st)) by (apply elem_of_dom; eauto).
    assert (Hget : step (cache_of st) (CacheGet id) =
      MkCache (dom (connections st)) (without id (idle st).*1) (refusals (replies st))).
    { simpl. by rewrite decide_True by done. }
    destruct (try_send req ch) as [o ch'] eqn:Ho. apply try_send_inv in Ho as [Ho _]. destruct o.
    + destruct Ho as (_ & _ & -> & _). simpl negb. cbv iota. cbn [foldl]. rewrite Hget.
      unfold cache_of. simpl. by rewrite fmap_fst_filter.
    + destruct Ho as (_ & -> & _). simpl negb. cbv iota. cbn [foldl]. rewrite Hget.
      unfold cache_of. simpl. by rewrite fmap_fst_filter, refusals_snoc.
    + destruct Ho as (_ & ->). simpl negb. cbv iota.
      rewrite cache_of_connect_new; [..|apply lookup_delete_eq].
      * change (set_connections (delete id) (remove_idle id st)) with
          (remove_idle id (set_connections (delete id) st)).
        rewrite cache_of_gone. done.
      * apply pool_inv_delete; [done|apply remove_idle_not_in].
  - destruct (matches_generation st id g) eqn:Hm; simpl; [|done].
    apply slot_matches_true in Hm as (s & Hs & _).
    rewrite decide_True by (apply elem_of_dom; eauto).
    unfold cache_of. simpl. by rewrite fmap_app, fmap_fst_filter.
  - unfold remove_connection_if_match. destruct (matches_generation st id g); [|done].
    by rewrite cache_of_gone.
Qed.

(** The events of a run.  What the tasks do with their mailboxes is nothing to
    the cache by itself: a mailbox that was closed is noticed by the next
    request. *)
Fixpoint cache_events st (events : list (PoolEvent EndpointId)) : list (CacheEvent EndpointId) :=
  match events with
  | [] => []
  | PoolMsg raced msg :: events =>
      cache_events_of raced msg st ++ cache_events (handle opts raced st msg) events
  | PoolTaskJoined g :: events => cache_events (join_task g st) events
  | PoolShutdownSeen :: _ | PoolSendersGone :: _ => [CacheClear]
  | ev :: events => cache_events (task_event ev st) events
  end.

Lemma cache_of_task_event ev st : cache_of (task_event ev st) = cache_of st.
Proof.
  destruct (task_event_same ev st) as (E1 & E2 & _ & _ & _ & E3).
  unfold cache_of. by rewrite E1, E2, E3.
Qed.

Lemma cache_of_task_events events st : cache_of (foldl (flip task_event) st events) = cache_of st.
Proof.
  revert st. induction events as [|ev events IH]; intros st; simpl; [done|].
  by rewrite IH, cache_of_task_event.
Qed.

Lemma run_refines st events :
  pool_inv opts st → (next_gen st + Z.of_nat (length events) < u64_max)%Z →
  cache_of (run opts st events) = foldl step (cache_of st) (cache_events st events).
Proof.
  revert st. induction events as [|ev events IH]; intros st Hinv Hlen; [done|].
  simpl length in Hlen.
  assert (Htask : next_gen (task_event ev st) = next_gen st) by apply task_event_same.
  pose proof (cache_of_task_event ev st) as Hcache.
  destruct ev as [raced msg|g| | |c|c]; simpl.
  - pose proof (pi_next _ _ Hinv). pose proof (handle_next_gen opts raced st msg ltac:(lia)).
    rewrite foldl_app, <-handle_refines by done.
    apply IH; [apply handle_inv; [done|lia]|lia].
  - rewrite IH; [done|by destruct Hinv|simpl; lia].
  - by rewrite cache_of_task_events.
  - by rewrite cache_of_task_events.
  - simpl in Htask. rewrite IH; [|by apply (pool_inv_task_event opts (TaskReceives c))|lia].
    simpl in Hcache. by rewrite Hcache.
  - simpl in Htask. rewrite IH; [|by apply (pool_inv_task_event opts (TaskEnds c))|lia].
    simpl in Hcache. by rewrite Hcache.
Qed.

(** C2: the pool actor refines the cache: after any sequence of messages and
    joined tasks, interleaved with connection tasks that take requests from
    their mailboxes and end, the peers with a slot, the order in which idle ones
    will be evicted and the number of requests refused with
    [TooManyConnections] are what the cache makes of the run's events; a peer
    whose task has ended makes room before its next request is served; and the
    cache's bound and eviction order are the pool's (while fewer than 2^64
    events have happened). *)
Theorem pool_refines_cache events :
  (0 ≤ max_connections opts)%Z → (1 + Z.of_nat (length events) < u64_max)%Z →
  let st := run opts pool_new events in
  let c := foldl step cache_new (cache_events pool_new events) in
  (dom (connections st), (idle st).*1, refusals (replies st)) =
    (cc_peers c, cc_idle c, cc_refused c) ∧
  cache_ok (max_connections opts) c.
Proof.
  intros Hm Hl st c.
  assert (cache_of st = c) as E.
  { unfold st. rewrite run_refines by (done || by apply pool_inv_new).
    unfold c, cache_of. simpl. by rewrite dom_empty_L. }
  split; [by rewrite <-E|]. unfold c. clear -Hm.
  assert (Hnew : cache_ok (max_connections opts) (cache_new (EndpointId := EndpointId))).
  { split_and!; [done|apply NoDup_nil_2|]. by intros id ?%elem_of_nil. }
  revert Hnew. generalize (cache_new (EndpointId := EndpointId)) as c0.
  induction (cache_events pool_new events) as [|ev l IH]; intros c0 Hc0; simpl; [done|].
  apply IH, cache_step_ok; done.
Qed.
End Refinement.

(** ** Concrete inputs *)

Module PoolCacheDemo.
Import ListChannel PoolActorDemo.

(** Peer 1 is idle when peer 3 comes: it is evicted; peer 4 is refused; the
    full pool has room for peer 2 again, whose task has ended. *)
Lemma pool_refines_cache_witness :
  let st := run (ConnectError := unit) demo_opts pool_new demo_events in
  let c := foldl (cache_step (max_connections demo_opts)) cache_new
             (cache_events (ConnectError := unit) demo_opts pool_new demo_events) in
  ((dom (connections st), (idle st).*1, refusals (replies st)) =
    (cc_peers c, cc_idle c, cc_refused c) ∧
  cache_ok (max_connections demo_opts) c) ∧ cc_refused c = 1.
Proof.
  split; [apply (pool_refines_cache (ConnectError := unit) demo_opts demo_events); done|].
  vm_compute. reflexivity.
Defined.
End PoolCacheDemo.
