(* ===== verification/PoolConn.v ===== *)
(** * The connection actor

    Models [Ctx::run_connection], [ConnectionCounter] and [Shutdown] of
    [src/pool.rs]: the select loop that owns one pooled connection.  The actor
    runs inside a world that also moves: leases are dropped, requests arrive,
    the peer or the pool closes, time passes.  A run is a list of labelled
    steps of either, in any interleaving. *)
From S2P Require Import Prelude Tokio PoolActor.

(** [isize::MAX]: past it, cloning an [Arc] aborts the process. *)
Definition isize_max : Z := i64_max.

(** ** [ConnectionCounter] and [OneConnection] *)

(** [permit]: the stored permit of the [Notify] (its only waiter is the
    actor's loop); [guards]: the live [OneConnection]s, each an [Arc] clone. *)
Record Counter := MkCounter { count : Z; permit : bool; guards : nat }.

Definition counter_new : Counter := MkCounter 0 false 0.
Definition current (c : Counter) : Z := count c.
Definition counter_is_idle (c : Counter) : bool := (count c =? 0)%Z.

(** [None]: the [Arc] clone aborts. *)
Definition get_one (c : Counter) : option Counter :=
  let '(_, n) := atomic_fetch_add (count c) in
  if (Z.of_nat (guards c) + 1 <=? isize_max)%Z
  then Some (MkCounter n (permit c) (S (guards c))) else None.

(** [OneConnection::drop] *)
Definition drop_one (c : Counter) : Counter :=
  let '(old, n) := atomic_fetch_sub (count c) in
  MkCounter n (if (old =? 1)%Z then true else permit c) (pred (guards c)).

Definition consume_permit (c : Counter) : Counter := MkCounter (count c) false (guards c).

(** ** [Shutdown] *)

(** The [Notify] counts its [notify_waiters] calls; a [Notified] future
    captures the count when it is created and is ready once it has moved. *)
Record Shutdown := MkShutdown { closed : bool; waiters_calls : nat }.

Definition shutdown_default : Shutdown := MkShutdown false 0.
Definition is_closed (s : Shutdown) : bool := closed s.
Definition close (s : Shutdown) : Shutdown :=
  if closed s then s else MkShutdown true (S (waiters_calls s)).
Definition notified (s : Shutdown) : nat := waiters_calls s.
Definition notified_ready (snapshot : nat) (s : Shutdown) : bool :=
  negb (snapshot =? waiters_calls s).

(** ** The actor *)

Section Conn.
Context {EndpointId : Type} `{Countable EndpointId} `{!Mpsc} {ConnectError : Type}.
Context (opts : PoolOptions).

(** How [timeout(connect_timeout, endpoint.connect(..))] ends. *)
Inductive ConnectOutcome :=
  | Connected
  | ConnectElapsed
  | ConnectFailed (e : ConnectError).

Definition connect_result (o : ConnectOutcome) : Result (PoolError ConnectError) unit :=
  match o with
  | Connected => Ok tt
  | ConnectElapsed => Err PoolTimeout
  | ConnectFailed e => Err (PoolConnect e)
  end.

(** Where the task is: between iterations, in [select!] with the shutdown
    future it created, past a [break] with its mailbox still open, or finished,
    having closed its connection as idle or as dropped. *)
Inductive Pc :=
  | AtHead
  | Selecting (shutdown_wait : nat)
  | Broken
  | Stopped (as_idle : bool).

Record ConnActor := MkConnActor {
  ca_id : EndpointId;
  ca_generation : Z;
  ca_connection : Result (PoolError ConnectError) unit;
  ca_counter : Counter;
  idle_active : bool;
  idle_deadline : Z;
  shutdown_pending : bool;
  ca_pc : Pc;
}.

Definition connected (a : ConnActor) : bool := is_ok (ca_connection a).

Definition set_pc (pc : Pc) (a : ConnActor) : ConnActor :=
  MkConnActor (ca_id a) (ca_generation a) (ca_connection a) (ca_counter a) (idle_active a)
    (idle_deadline a) (shutdown_pending a) pc.
Definition set_counter (c : Counter) (a : ConnActor) : ConnActor :=
  MkConnActor (ca_id a) (ca_generation a) (ca_connection a) c (idle_active a)
    (idle_deadline a) (shutdown_pending a) (ca_pc a).
Definition set_idle_timer (active : bool) (deadline : Z) (a : ConnActor) : ConnActor :=
  MkConnActor (ca_id a) (ca_generation a) (ca_connection a) (ca_counter a) active
    deadline (shutdown_pending a) (ca_pc a).
Definition set_shutdown_pending (a : ConnActor) : ConnActor :=
  MkConnActor (ca_id a) (ca_generation a) (ca_connection a) (ca_counter a) (idle_active a)
    (idle_deadline a) true (ca_pc a).

(** What the actor sends: messages to the pool, replies to requesters. *)
Inductive Output :=
  | ToPool (msg : Msg EndpointId)
  | Reply (tx : nat) (r : Result (PoolError ConnectError) unit).

Definition msg_shutdown (a : ConnActor) : Output :=
  ToPool (MsgShutdown (ca_id a) (ca_generation a)).

(** Up to the loop: connect, report a failure to the pool, read the flag. *)
Definition start (o : ConnectOutcome) (id : EndpointId) (generation now : Z) (s : Shutdown)
  : ConnActor * list Output :=
  let r := connect_result o in
  let a := MkConnActor id generation r counter_new false now (is_closed s) AtHead in
  (a, if is_ok r then [] else [msg_shutdown a]).

Inductive Branch := BShutdown | BClosed | BRecv | BRecvNone | BNotified | BIdle.

(** The mailbox has the slot's senders, one per lease, and the actor's own
    [actor_tx]; [recv] yields [None] once it is drained and all are gone. *)
Definition mailbox_senders (others : nat) : nat := 1 + others.

(** The biased [select!]: the first branch in source order whose guard holds
    and whose future is ready. *)
Definition select (a : ConnActor) (shutdown_wait : nat) (s : Shutdown) (conn_closed : bool)
  (rx : chan (RequestMsg EndpointId)) (other_senders : nat) (now : Z) : option Branch :=
  if negb (shutdown_pending a) && notified_ready shutdown_wait s then Some BShutdown
  else if connected a && conn_closed then Some BClosed
  else match recv rx with
  | Some _ => Some BRecv
  | None =>
      if mailbox_senders other_senders =? 0 then Some BRecvNone
      else if connected a && permit (ca_counter a) then Some BNotified
      else if idle_active a && (idle_deadline a <=? now)%Z then Some BIdle
      else None
  end.

(** [break] *)
Definition break (a : ConnActor) : ConnActor := set_pc Broken a.

(** The body of a branch.  [requester_gone tx]: nobody waits for the reply, so
    the lease in it is dropped on the spot.  [None]: the process aborts. *)
Definition run_branch (b : Branch) (conn_closed : bool) (requester_gone : nat → bool) (now : Z)
  (a : ConnActor) (rx : chan (RequestMsg EndpointId))
  : option (ConnActor * chan (RequestMsg EndpointId) * list Output) :=
  let a := set_pc AtHead a in
  match b with
  | BShutdown =>
      let a := set_shutdown_pending a in
      Some (if counter_is_idle (ca_counter a) then (break a, rx, []) else (a, rx, []))
  | BClosed => Some (break a, rx, [msg_shutdown a])
  | BRecvNone => Some (break a, rx, [])
  | BRecv =>
      match recv rx with
      | None => None           (* not selected on an empty mailbox *)
      | Some (req, rx) =>
          match ca_connection a with
          | Ok _ =>
              if conn_closed
              then Some (break a, rx,
                         [msg_shutdown a; Reply (req_tx req) (Err PoolClosed)])
              else
                c ← get_one (ca_counter a);
                let a := set_idle_timer false (idle_deadline a) (set_counter c a) in
                let a := if requester_gone (req_tx req) then set_counter (drop_one c) a else a in
                Some (a, rx, [Reply (req_tx req) (Ok tt)])
          | Err e => Some (a, rx, [Reply (req_tx req) (Err e)])
          end
      end
  | BNotified =>
      let a := set_counter (consume_permit (ca_counter a)) a in
      if negb (counter_is_idle (ca_counter a)) then Some (a, rx, [])
      else if shutdown_pending a then Some (break a, rx, [])
      else Some (set_idle_timer true (now + idle_timeout opts)%Z a, rx,
                 [ToPool (MsgIdle (ca_id a) (ca_generation a))])
  | BIdle => Some (break a, rx, [msg_shutdown a])
  end.

(** ** The world around it *)

Record World := MkWorld {
  w_actor : ConnActor;
  w_rx : chan (RequestMsg EndpointId);
  w_others : nat;                     (** mailbox senders besides [actor_tx] *)
  w_shutdown : Shutdown;
  w_conn_closed : bool;               (** [conn.close_reason().is_some()] *)
  w_now : Z;
  w_out : list Output;
}.

Inductive Label :=
  | LHead                             (** the loop head creates its futures *)
  | LSelect (requester_gone : nat → bool)  (** [select!] and the branch body *)
  (** the same, and the peer closes the connection between the two *)
  | LSelectRaced (requester_gone : nat → bool)
  | LExit                             (** past the loop: close, drop the receiver *)
  | LDropLease                        (** a holder drops its [ConnectionRef] *)
  | LRequest (req : RequestMsg EndpointId) (** the pool's [try_send] *)
  | LSenders (others : nat)           (** the slot's sender is cloned or dropped *)
  | LRemoteClose
  | LShutdown                         (** [Shutdown::close] *)
  | LTick (ms : N).

Definition with_actor (w : World) (a : ConnActor) (rx : chan (RequestMsg EndpointId))
  (out : list Output) : World :=
  MkWorld a rx (w_others w) (w_shutdown w) (w_conn_closed w) (w_now w) (w_out w ++ out).

Definition set_conn_closed (cc : bool) (w : World) : World :=
  MkWorld (w_actor w) (w_rx w) (w_others w) (w_shutdown w) cc (w_now w) (w_out w).

(** [select!] and the body of the branch it takes; [late]: the connection is
    closed after [conn.closed()] was polled and before the body runs. *)
Definition select_step (late : bool) (gone : nat → bool) (w : World) : option World :=
  let a := w_actor w in
  match ca_pc a with
  | Selecting snap =>
      let cc := late || w_conn_closed w in
      b ← select a snap (w_shutdown w) (w_conn_closed w) (w_rx w) (w_others w) (w_now w);
      '(a, rx, out) ← run_branch b cc gone (w_now w) a (w_rx w);
      Some (with_actor (set_conn_closed cc w) a rx out)
  | _ => None
  end.

Definition world_step (w : World) (l : Label) : option World :=
  let a := w_actor w in
  match l with
  | LHead =>
      match ca_pc a with
      | AtHead => Some (with_actor w (set_pc (Selecting (notified (w_shutdown w))) a) (w_rx w) [])
      | _ => None
      end
  | LSelect gone => select_step false gone w
  | LSelectRaced gone => select_step true gone w
  | LExit =>
      match ca_pc a with
      | Broken =>
          Some (with_actor w (set_pc (Stopped (counter_is_idle (ca_counter a))) a)
                  (drop_rx (w_rx w)) [])
      | _ => None
      end
  | LDropLease =>
      match guards (ca_counter a) with
      | O => None
      | S _ => Some (with_actor w (set_counter (drop_one (ca_counter a)) a) (w_rx w) [])
      end
  | LRequest req => Some (with_actor w a (try_send req (w_rx w)).2 [])
  | LSenders n =>
      Some (MkWorld a (w_rx w) n (w_shutdown w) (w_conn_closed w) (w_now w) (w_out w))
  | LRemoteClose => Some (set_conn_closed true w)
  | LShutdown =>
      Some (MkWorld a (w_rx w) (w_others w) (close (w_shutdown w)) (w_conn_closed w) (w_now w)
              (w_out w))
  | LTick ms =>
      Some (MkWorld a (w_rx w) (w_others w) (w_shutdown w) (w_conn_closed w)
              (w_now w + Z.of_N ms) (w_out w))
  end.

Fixpoint world_run (w : World) (ls : list Label) : option World :=
  match ls with
  | [] => Some w
  | l :: ls => w ← world_step w l; world_run w ls
  end.

(** A connection actor as the pool starts it, its request in the mailbox. *)
Definition world_start (o : ConnectOutcome) (id : EndpointId) (generation now : Z)
  (s : Shutdown) (rx : chan (RequestMsg EndpointId)) : World :=
  let '(a, out) := start o id generation now s in MkWorld a rx 1 s false now out.
End Conn.
Arguments ConnectOutcome : clear implicits.
Arguments ConnActor : clear implicits.
Arguments Output : clear implicits.
Arguments World _ {_} _.
Arguments Label : clear implicits.

(** ** The counter *)

Definition counter_ok (c : Counter) : Prop :=
  count c = Z.of_nat (guards c) ∧ (count c ≤ isize_max)%Z.

Lemma counter_ok_new : counter_ok counter_new.
Proof. done. Qed.

Lemma counter_is_idle_guards c : counter_ok c → counter_is_idle c = true ↔ guards c = 0.
Proof. intros [E _]. unfold counter_is_idle. rewrite Z.eqb_eq. lia. Qed.

Lemma counter_busy_guards c : counter_ok c → counter_is_idle c = false ↔ guards c ≠ 0.
Proof. intros Hc. rewrite <-not_true_iff_false. by rewrite counter_is_idle_guards. Qed.

Lemma get_one_spec c c' :
  counter_ok c → get_one c = Some c' →
  counter_ok c' ∧ guards c' = S (guards c) ∧ permit c' = permit c.
Proof.
  intros [E Hb]. unfold get_one, atomic_fetch_add.
  destruct (Z.leb_spec (Z.of_nat (guards c) + 1) isize_max); [|done].
  intros [= <-]. unfold counter_ok, isize_max, i64_max in *. simpl.
  rewrite u64_wrap_small by (unfold is_u64, u64_max; lia). split_and!; try done; lia.
Qed.

Lemma get_one_small c :
  counter_ok c → (Z.of_nat (guards c) < isize_max)%Z → is_Some (get_one c).
Proof.
  intros _ Hb. unfold get_one, atomic_fetch_add.
  destruct (Z.leb_spec (Z.of_nat (guards c) + 1) isize_max); [eauto|lia].
Qed.

(** Dropping a guard takes it off the count, and stores the permit when the
    last one goes. *)
Lemma drop_one_spec c n :
  counter_ok c → guards c = S n →
  counter_ok (drop_one c) ∧ guards (drop_one c) = n ∧
  permit (drop_one c) = if n =? 0 then true else permit c.
Proof.
  intros [E Hb] Hg. unfold drop_one, atomic_fetch_sub, counter_ok, isize_max, i64_max in *. simpl.
  rewrite u64_wrap_small by (unfold is_u64, u64_max; lia).
  rewrite Hg in *. split_and!; [simpl; lia|lia|done|].
  destruct n as [|n]; [by rewrite E|]. destruct (Z.eqb_spec (count c) 1); [lia|done].
Qed.

Lemma close_closed s : closed s = true → close s = s.
Proof. unfold close. by intros ->. Qed.

(** ** Runs *)

Section ConnFacts.
Context {EndpointId : Type} `{Countable EndpointId} `{!Mpsc, !MpscLaws} {ConnectError : Type}.
Context (opts : PoolOptions).
Implicit Types (w : World EndpointId ConnectError) (a : ConnActor EndpointId ConnectError)
  (l : Label EndpointId) (c : Counter) (rx : chan (RequestMsg EndpointId)).

(** A property every step keeps holds along every run. *)
Lemma world_run_inv (P : World EndpointId ConnectError → Prop) ls w w' :
  (∀ w l w', P w → world_step opts w l = Some w' → P w') →
  P w → world_run opts w ls = Some w' → P w'.
Proof.
  intros Hstep. revert w. induction ls as [|l ls IH]; intros w Hw; simpl; [by intros [= <-]|].
  destruct (world_step opts w l) as [w1|] eqn:E; simpl; [|done]. eauto.
Qed.

Lemma world_run_app ls1 ls2 w :
  world_run opts w (ls1 ++ ls2) = w' ← world_run opts w ls1; world_run opts w' ls2.
Proof.
  revert w. induction ls1 as [|l ls1 IH]; intros w; simpl; [done|].
  destruct (world_step opts w l); simpl; auto.
Qed.

(** Why a branch was selected. *)
Lemma select_inv a snap s cc rx others now b :
  select a snap s cc rx others now = Some b →
  match b with
  | BShutdown => shutdown_pending a = false ∧ snap ≠ waiters_calls s
  | BClosed => connected a = true ∧ cc = true
  | BRecv => is_Some (recv rx) ∧ (connected a = true → cc = false)
  | BRecvNone => False
  | BNotified => connected a = true ∧ cc = false ∧ permit (ca_counter a) = true
  | BIdle => idle_active a = true ∧ (idle_deadline a ≤ now)%Z
  end.
Proof.
  unfold select, notified_ready, mailbox_senders.
  destruct (shutdown_pending a) eqn:?, (Nat.eqb_spec snap (waiters_calls s)), (connected a) eqn:?,
    cc, (recv rx) eqn:?, (permit (ca_counter a)) eqn:?, (idle_active a) eqn:?; simpl;
    try (destruct (Z.leb_spec (idle_deadline a) now)); intros [= <-]; simpl; eauto;
    split_and!; eauto; done.
Qed.

(** The successful [LSelect] steps, taken apart. *)
Lemma step_select_inv late gone w w' :
  select_step opts late gone w = Some w' →
  ∃ cc snap b a rx out, (w_conn_closed w = true → cc = true) ∧
    ca_pc (w_actor w) = Selecting snap ∧
    select (w_actor w) snap (w_shutdown w) (w_conn_closed w) (w_rx w) (w_others w) (w_now w)
      = Some b ∧
    run_branch opts b cc gone (w_now w) (w_actor w) (w_rx w) = Some (a, rx, out) ∧
    w' = with_actor (set_conn_closed cc w) a rx out.
Proof.
  unfold select_step. destruct (ca_pc (w_actor w)) as [|snap| |] eqn:Hpc; try done.
  intros (b & Hb & ([[a rx] out] & Hr & [= <-])%bind_Some)%bind_Some.
  exists (late || w_conn_closed w), snap, b, a, rx, out. split_and!; try done.
  intros ->. by destruct late.
Qed.

(** The loop is over. *)
Definition stopped a : Prop := ca_pc a = Broken ∨ ∃ r, ca_pc a = Stopped r.

(** The actor's invariant in its world. *)
Record conn_inv w : Prop := {
  ci_counter : counter_ok (ca_counter (w_actor w));
  (** only an established connection is leased *)
  ci_failed : connected (w_actor w) = false → guards (ca_counter (w_actor w)) = 0;
  (** the idle timer runs only while no lease is out *)
  ci_idle : idle_active (w_actor w) = true →
    connected (w_actor w) = true ∧ guards (ca_counter (w_actor w)) = 0;
  (** the actor closes a leased connection only if it was closed already *)
  ci_stopped : stopped (w_actor w) →
    guards (ca_counter (w_actor w)) = 0 ∨ w_conn_closed w = true;
  (** once a lease was handed out and none is left, a wake-up is under way *)
  ci_wakes : ∀ tx, Reply tx (Ok tt) ∈ w_out w → guards (ca_counter (w_actor w)) = 0 →
    permit (ca_counter (w_actor w)) = true ∨ idle_active (w_actor w) = true ∨
    stopped (w_actor w);
}.

Lemma conn_inv_start o id g now s rx :
  conn_inv (world_start o id g now s rx).
Proof.
  split; simpl; try done.
  - by intros [?|[r ?]].
  - intros tx. destruct o; simpl; set_solver.
Qed.

(** What the actor does in a branch, for the invariant. *)
Lemma run_branch_inv w cc gone b snap a rx out :
  conn_inv w → (w_conn_closed w = true → cc = true) → ca_pc (w_actor w) = Selecting snap →
  select (w_actor w) snap (w_shutdown w) (w_conn_closed w) (w_rx w) (w_others w) (w_now w)
    = Some b →
  run_branch opts b cc gone (w_now w) (w_actor w) (w_rx w) = Some (a, rx, out) →
  conn_inv (with_actor (set_conn_closed cc w) a rx out).
Proof.
  intros Hinv Hlate Hpc Hb Hr.
  assert (Hns : ¬ stopped (w_actor w)) by (intros [E|[r E]]; congruence).
  pose proof (ci_counter _ Hinv) as Hc.
  apply select_inv in Hb. destruct Hinv as [_ Hfail Hidle _ Hwake]. destruct b; simpl in Hr.
  - (* shutdown *)
    destruct (counter_is_idle _) eqn:Hi; injection Hr as <- <- <-.
    + apply counter_is_idle_guards in Hi; [|done].
      split; simpl; auto. intros tx _ _. right; right. by left.
    + apply counter_busy_guards in Hi; [|done].
      split; simpl; auto; try (by intros [?|[r ?]]); done.
  - (* closed by the peer *)
    injection Hr as <- <- <-. destruct Hb as [_ Hcc].
    split; simpl; auto. intros tx _ _. right; right. by left.
  - (* a request *)
    destruct (recv (w_rx w)) as [[req rx']|]; [|done].
    destruct (ca_connection (w_actor w)) as [u|e] eqn:Hconn.
    + destruct cc eqn:Hcc.
      { injection Hr as <- <- <-.
        split; simpl; auto. intros tx _ _. right; right. by left. }
      apply bind_Some in Hr as (c & Hget & [= <- <- <-]).
      apply get_one_spec in Hget as (Hc' & Hg & Hp); [|done].
      destruct (gone (req_tx req)); simpl.
      * destruct (drop_one_spec c (guards (ca_counter (w_actor w)))) as (Hok & Hg' & Hp');
          [done..|].
        split; simpl; try done; [by unfold connected; simpl; rewrite Hconn | by intros [?|[r ?]] |].
        intros tx _ Hz. left. change (permit (drop_one c) = true).
        change (guards (drop_one c) = 0) in Hz. by rewrite Hp', <-Hg', Hz.
      * split; simpl; try done; [|by intros [?|[r ?]]|].
        -- by unfold connected; simpl; rewrite Hconn.
        -- intros tx _ Hz. lia.
    + injection Hr as <- <- <-.
      split; simpl; auto; try (by intros [?|[r ?]]).
      intros tx [Hin|Hin%list_elem_of_singleton]%elem_of_app Hz; [|done].
      apply Hwake in Hin as [|[|]]; auto.
  - done.
  - (* the last lease was dropped *)
    destruct Hb as (Hcon & Hcc & Hp).
    destruct (counter_is_idle _) eqn:Hi; simpl in Hr.
    + apply counter_is_idle_guards in Hi; [|done]. simpl in Hi.
      destruct (shutdown_pending _); injection Hr as <- <- <-.
      * split; simpl; auto. intros tx _ _. right; right. by left.
      * split; simpl; auto.
    + apply counter_busy_guards in Hi; [|done]. simpl in Hi. injection Hr as <- <- <-.
      split; simpl; auto; try (by intros [?|[r ?]]); done.
  - (* the idle timer fired *)
    injection Hr as <- <- <-. destruct Hb as [Ha _]. apply Hidle in Ha as [Hcon Hg].
    split; simpl; auto. intros tx _ _. right; right. by left.
Qed.

Lemma conn_inv_step w l w' : conn_inv w → world_step opts w l = Some w' → conn_inv w'.
Proof.
  intros Hinv Hs. destruct l as [|gone|gone| | |req|n| | |ms].
  2,3: apply step_select_inv in Hs as (cc & snap & b & a & rx & out & Hcc & Hpc & Hb & Hr & ->);
    by eapply run_branch_inv.
  all: simpl in Hs; destruct Hinv as [Hc Hfail Hidle Hstop Hwake].
  - destruct (ca_pc (w_actor w)) eqn:Hpc; try done. injection Hs as <-.
    split; simpl; auto; try (by intros [?|[r ?]]).
    intros tx. rewrite app_nil_r. intros Hin Hz.
    destruct (Hwake tx) as [|[|[?|[r ?]]]]; auto; congruence.
  - destruct (ca_pc (w_actor w)) eqn:Hpc; try done. injection Hs as <-.
    split; simpl; auto; [intros _; apply Hstop; by left|].
    intros tx _ _. right; right; right. by eexists.
  - destruct (guards (ca_counter (w_actor w))) as [|n] eqn:Hg; [done|]. injection Hs as <-.
    destruct (drop_one_spec _ _ Hc Hg) as (Hc' & Hg' & Hp).
    split; simpl; try done.
    + intros Hf. apply Hfail in Hf. lia.
    + intros Hi. apply Hidle in Hi as [? ?]. lia.
    + intros Hst. destruct Hstop as [|]; [done|lia|by right].
    + intros tx _ Hz. left. change (permit (drop_one (ca_counter (w_actor w))) = true).
      change (guards (drop_one (ca_counter (w_actor w))) = 0) in Hz. by rewrite Hp, <-Hg', Hz.
  - injection Hs as <-. split; simpl; auto. rewrite app_nil_r. eauto.
  - injection Hs as <-. by split.
  - injection Hs as <-. split; simpl; auto.
  - injection Hs as <-. by split.
  - injection Hs as <-. by split.
Qed.

(** The shutdown flag is only ever seen after it was set. *)
Definition sees_shutdown w : Prop :=
  (shutdown_pending (w_actor w) = true → closed (w_shutdown w) = true) ∧
  (∀ snap, ca_pc (w_actor w) = Selecting snap → snap ≠ waiters_calls (w_shutdown w) →
     closed (w_shutdown w) = true).

(** Since [t0], when no idle timer that fires before [t0 + idle_timeout] was
    running, the actor ends only for a reason of its own. *)
Record ends_for_cause (t0 : Z) w : Prop := {
  ec_shutdown : sees_shutdown w;
  ec_clock : (t0 ≤ w_now w)%Z;
  ec_deadline : idle_active (w_actor w) = true →
    (t0 + idle_timeout opts ≤ idle_deadline (w_actor w))%Z;
  ec_stopped : stopped (w_actor w) →
    w_conn_closed w = true ∨ closed (w_shutdown w) = true ∨
    (t0 + idle_timeout opts ≤ w_now w)%Z;
}.

Lemma run_branch_pc w cc gone b a rx out :
  run_branch opts b cc gone (w_now w) (w_actor w) (w_rx w) = Some (a, rx, out) →
  ca_pc a = AtHead ∨ stopped a.
Proof.
  destruct b; simpl; intros Hr; repeat case_match; simplify_option_eq;
    auto; right; by left.
Qed.

Lemma run_branch_pending w cc gone b a rx out :
  run_branch opts b cc gone (w_now w) (w_actor w) (w_rx w) = Some (a, rx, out) →
  shutdown_pending a = match b with BShutdown => true | _ => shutdown_pending (w_actor w) end.
Proof.
  destruct b; simpl; intros Hr; repeat case_match; simplify_option_eq; done.
Qed.

(** Why a branch ends the actor. *)
Lemma run_branch_stops w cc gone b a rx out :
  run_branch opts b cc gone (w_now w) (w_actor w) (w_rx w) = Some (a, rx, out) →
  stopped a →
  match b with
  | BRecv => cc = true
  | BNotified => shutdown_pending (w_actor w) = true
  | _ => True
  end.
Proof.
  intros Hr Hs. destruct b; simpl in Hr; try done; repeat case_match; simplify_option_eq;
    try done; by destruct Hs as [|[]].
Qed.

Lemma sees_shutdown_step w l w' :
  sees_shutdown w → world_step opts w l = Some w' → sees_shutdown w'.
Proof.
  intros [Hp Hs] Hstep. destruct l as [|gone|gone| | |req|n| | |ms].
  2,3: apply step_select_inv in Hstep as (cc & snap & b & a & rx & out & _ & Hpc & Hb & Hr & ->);
    apply select_inv in Hb; pose proof (run_branch_pending _ _ _ _ _ _ _ Hr) as E; split; simpl;
    [rewrite E; destruct b; auto; intros _; destruct Hb; eauto
    |intros snap'; destruct (run_branch_pc _ _ _ _ _ _ _ Hr) as [->|[->|[r ->]]]; done].
  all: simpl in Hstep; repeat case_match; try done; injection Hstep as <-; split; simpl in *;
    eauto; try done.
  - by intros snap [= <-].
  - unfold close. by destruct (closed (w_shutdown w)) eqn:?.
  - unfold close. by destruct (closed (w_shutdown w)) eqn:?.
Qed.

Lemma ends_for_cause_step t0 w l w' :
  ends_for_cause t0 w → world_step opts w l = Some w' → ends_for_cause t0 w'.
Proof.
  intros [Hsd Hc Hd Hst] Hstep. pose proof (sees_shutdown_step _ _ _ Hsd Hstep) as Hsd'.
  destruct l as [|gone|gone| | |req|n| | |ms].
  2,3: pose proof (step_select_inv _ _ _ _ Hstep)
         as (cc & snap & b & a & rx & out & Hcc & Hpc & Hb & Hr & ->);
       apply select_inv in Hb; destruct Hsd as [Hp Hs]; (split; [done|done| |]); simpl;
       [destruct b; simpl in Hr; repeat case_match; simplify_option_eq; simpl; auto; lia|];
       intros Hstop; pose proof (run_branch_stops _ _ _ _ _ _ _ Hr Hstop);
       destruct b; simpl in *; auto;
       [destruct Hb; eauto|left; apply Hcc, Hb
       |destruct Hb as [Ha Hn]; specialize (Hd Ha); right; right; lia].
  all: simpl in Hstep; repeat case_match; try done; injection Hstep as <-; split; simpl in *; auto;
    try lia.
  all: unfold stopped in *; simpl; intros Hs;
    (destruct Hst as [|[|]]; [by destruct Hs as [|[]]; simplify_eq; eauto|auto..]);
    unfold close; try case_match; auto; lia.
Qed.

(** A running timer is never further away than [idle_timeout]. *)
Definition timer_near w : Prop :=
  idle_active (w_actor w) = true → (idle_deadline (w_actor w) ≤ w_now w + idle_timeout opts)%Z.

Lemma timer_near_step w l w' : timer_near w → world_step opts w l = Some w' → timer_near w'.
Proof.
  unfold timer_near. intros Ht Hstep. destruct l as [|gone|gone| | |req|n| | |ms].
  2,3: apply step_select_inv in Hstep as (cc & snap & b & a & rx & out & _ & Hpc & Hb & Hr & ->);
    simpl; destruct b; simpl in Hr; repeat case_match; simplify_option_eq; simpl; auto; lia.
  all: simpl in Hstep; repeat case_match; try done; injection Hstep as <-; simpl in *; auto.
  intros Ha. specialize (Ht Ha). lia.
Qed.

Lemma reachable_inv o id g now s rx ls w :
  world_run opts (world_start o id g now s rx) ls = Some w →
  conn_inv w ∧ sees_shutdown w ∧ timer_near w.
Proof.
  intros Hrun. split_and!; eapply world_run_inv in Hrun;
    eauto using conn_inv_step, sees_shutdown_step, timer_near_step, conn_inv_start.
  - split; simpl; [by destruct s|]. by destruct o.
  - by destruct o.
Qed.

(** The schedules in which only the actor runs and the clock advances. *)
Definition unattended (l : Label EndpointId) : bool :=
  match l with LHead | LSelect _ | LExit | LTick _ => true | _ => false end.
Fixpoint elapsed (ls : list (Label EndpointId)) : Z :=
  match ls with
  | [] => 0
  | LTick ms :: ls => Z.of_N ms + elapsed ls
  | _ :: ls => elapsed ls
  end.

(** Nothing holds the actor's attention: no lease, no request. *)
Definition at_rest w : Prop :=
  connected (w_actor w) = true ∧ guards (ca_counter (w_actor w)) = 0 ∧ recv (w_rx w) = None.

(** Gone: the connection is closed, and the pool knows or is shut down. *)
Definition told w : Prop :=
  closed (w_shutdown w) = true ∨
  ToPool (MsgShutdown (ca_id (w_actor w)) (ca_generation (w_actor w))) ∈ w_out w.
Definition retired w : Prop := (∃ r, ca_pc (w_actor w) = Stopped r) ∧ told w.

(** The schedule that retires [w] within [ms]. *)
Definition retires_within (ms : Z) w : Prop :=
  ∃ ls w', forallb unattended ls = true ∧ (elapsed ls ≤ ms)%Z ∧
    world_run opts w ls = Some w' ∧ retired w'.

Lemma retires_step w l w' ms :
  unattended l = true → world_step opts w l = Some w' →
  retires_within (ms - elapsed [l]) w' → retires_within ms w.
Proof.
  intros Hl Hs (ls & w2 & Hls & He & Hr & Hret). exists (l :: ls), w2. simpl. rewrite Hl, Hs.
  split_and!; [done| |done|done]. destruct l; simpl in *; lia.
Qed.

(** Past a [break] only the exit is left. *)
Lemma retires_broken w ms :
  (0 ≤ ms)%Z → ca_pc (w_actor w) = Broken → told w → retires_within ms w.
Proof.
  intros Hms Hpc Ht. eapply (retires_step _ LExit); [done|simpl; by rewrite Hpc|].
  exists []. eexists. split_and!; [done|simpl; lia|done|].
  split; [by eexists|]. destruct Ht as [|Ht]; [by left|right]. simpl. by rewrite app_nil_r.
Qed.

Lemma counter_idle_at_rest w :
  conn_inv w → at_rest w → counter_is_idle (ca_counter (w_actor w)) = true.
Proof. intros Hinv (_ & Hg & _). by apply counter_is_idle_guards; [apply Hinv|]. Qed.

(** In [select!] with a ready shutdown notification or a closed connection. *)
Lemma retires_at_once w snap :
  conn_inv w → sees_shutdown w → at_rest w → ca_pc (w_actor w) = Selecting snap →
  negb (shutdown_pending (w_actor w)) && notified_ready snap (w_shutdown w) = true ∨
  w_conn_closed w = true →
  retires_within 0 w.
Proof.
  intros Hinv [_ Hs] Hrest Hpc Hor.
  pose proof (counter_idle_at_rest _ Hinv Hrest) as Hi. destruct Hrest as (Hcon & Hg & Hrx).
  destruct (negb _ && _) eqn:Hsd.
  - assert (Hcl : closed (w_shutdown w) = true).
    { apply (Hs _ Hpc). apply andb_true_iff in Hsd as [_ Hr]. unfold notified_ready in Hr.
      by destruct (Nat.eqb_spec snap (waiters_calls (w_shutdown w))). }
    eapply (retires_step _ (LSelect (λ _, false))); [done| |apply retires_broken; [done| |]].
    + simpl. unfold select_step. rewrite Hpc. unfold select. rewrite Hsd. simpl. by rewrite Hi.
    + done.
    + by left.
  - destruct Hor as [|Hcc]; [done|].
    eapply (retires_step _ (LSelect (λ _, false))); [done| |apply retires_broken; [done| |]].
    + simpl. unfold select_step. rewrite Hpc. unfold select. rewrite Hsd, Hcon, Hcc. done.
    + done.
    + right. simpl. set_solver.
Qed.

(** In [select!] with the idle timer running and nothing else to do. *)
Lemma retires_by_timer w snap :
  conn_inv w → sees_shutdown w → timer_near w → at_rest w →
  ca_pc (w_actor w) = Selecting snap → idle_active (w_actor w) = true →
  permit (ca_counter (w_actor w)) = false → (0 ≤ idle_timeout opts)%Z →
  retires_within (idle_timeout opts) w.
Proof.
  intros Hinv Hsd Hnear Hrest Hpc Hact Hper Hto.
  destruct (decide (negb (shutdown_pending (w_actor w)) && notified_ready snap (w_shutdown w) = true
    ∨ w_conn_closed w = true)) as [Hnow|Hnow].
  { destruct (retires_at_once w snap) as (ls & w' & ? & ? & ? & ?); auto.
    exists ls, w'. split_and!; auto. lia. }
  apply Decidable.not_or in Hnow as [Hn1%not_true_is_false Hn2%not_true_is_false].
  specialize (Hnear Hact). destruct Hrest as (Hcon & Hg & Hrx).
  set (ms := Z.to_N (idle_deadline (w_actor w) - w_now w)).
  eapply (retires_step _ (LTick ms)); [done|reflexivity|].
  eapply (retires_step _ (LSelect (λ _, false))).
  - done.
  - simpl. unfold select_step. simpl. rewrite Hpc. unfold select. simpl. rewrite Hn1, Hn2, Hcon, Hrx, Hper, Hact. simpl.
    rewrite (proj2 (Z.leb_le _ _)) by lia. done.
  - apply retires_broken; [simpl; lia|done|]. right. simpl. set_solver.
Qed.

Lemma retires_selecting w snap :
  conn_inv w → sees_shutdown w → timer_near w → at_rest w →
  ca_pc (w_actor w) = Selecting snap → (0 ≤ idle_timeout opts)%Z →
  permit (ca_counter (w_actor w)) = true ∨ idle_active (w_actor w) = true →
  retires_within (idle_timeout opts) w.
Proof.
  intros Hinv Hsd Hnear Hrest Hpc Hto Hwake.
  destruct (permit (ca_counter (w_actor w))) eqn:Hper.
  2: { destruct Hwake; [done|]. by eapply retires_by_timer. }
  destruct (decide (negb (shutdown_pending (w_actor w)) && notified_ready snap (w_shutdown w) = true
    ∨ w_conn_closed w = true)) as [Hnow|Hnow].
  { destruct (retires_at_once w snap) as (ls & w' & ? & ? & ? & ?); auto.
    exists ls, w'. split_and!; auto. lia. }
  apply Decidable.not_or in Hnow as [Hn1%not_true_is_false Hn2%not_true_is_false].
  pose proof (counter_idle_at_rest _ Hinv Hrest) as Hi.
  destruct Hrest as (Hcon & Hg & Hrx).
  assert (Hsel : select (w_actor w) snap (w_shutdown w) (w_conn_closed w) (w_rx w) (w_others w)
                   (w_now w) = Some BNotified).
  { unfold select. by rewrite Hn1, Hn2, Hcon, Hrx, Hper. }
  destruct (world_step opts w (LSelect (λ _, false))) as [w1|] eqn:Hs1.
  2: { simpl in Hs1. unfold select_step in Hs1. rewrite Hpc, Hsel in Hs1. simpl in Hs1. unfold counter_is_idle in *.
       simpl in Hs1. rewrite Hi in Hs1. simpl in Hs1. by destruct (shutdown_pending _). }
  eapply retires_step; [|exact Hs1|]; [done|]. simpl elapsed. rewrite Z.sub_0_r.
  apply (conn_inv_step _ _ _ Hinv) in Hs1 as Hinv1.
  apply (sees_shutdown_step _ _ _ Hsd) in Hs1 as Hsd1.
  apply (timer_near_step _ _ _ Hnear) in Hs1 as Hnear1.
  simpl in Hs1. unfold select_step in Hs1. rewrite Hpc, Hsel in Hs1. simpl in Hs1.
  unfold counter_is_idle in *. simpl in Hs1. rewrite Hi in Hs1. simpl in Hs1.
  destruct (shutdown_pending (w_actor w)) eqn:Hpend; injection Hs1 as <-.
  { apply retires_broken; [done|done|]. left. by apply Hsd. }
  set (w1 := with_actor _ _ _ _) in *.
  destruct (world_step opts w1 LHead) as [w2|] eqn:Hs2; [|done].
  eapply retires_step; [|exact Hs2|]; [done|]. simpl elapsed. rewrite Z.sub_0_r.
  eapply (retires_by_timer w2);
    eauto using conn_inv_step, sees_shutdown_step, timer_near_step.
  all: injection Hs2 as <-; by repeat split.
Qed.

Lemma retires_running w :
  conn_inv w → sees_shutdown w → timer_near w → at_rest w → ¬ stopped (w_actor w) →
  (0 ≤ idle_timeout opts)%Z →
  permit (ca_counter (w_actor w)) = true ∨ idle_active (w_actor w) = true →
  retires_within (idle_timeout opts) w.
Proof.
  intros Hinv Hsd Hnear Hrest Hrun Hto Hwake.
  destruct (ca_pc (w_actor w)) as [|snap| |r] eqn:Hpc.
  - destruct (world_step opts w LHead) as [w1|] eqn:Hs; [|simpl in Hs; by rewrite Hpc in Hs].
    eapply retires_step; [|exact Hs|]; [done|]. simpl elapsed. rewrite Z.sub_0_r.
    apply (conn_inv_step _ _ _ Hinv) in Hs as Hinv1.
    apply (sees_shutdown_step _ _ _ Hsd) in Hs as Hsd1.
    apply (timer_near_step _ _ _ Hnear) in Hs as Hnear1.
    simpl in Hs. rewrite Hpc in Hs. injection Hs as <-. by eapply retires_selecting.
  - by eapply retires_selecting.
  - exfalso. apply Hrun. by left.
  - exfalso. apply Hrun. right. by exists r.
Qed.

(** The actor of a connection that failed with [e]. *)
Definition failed_with (e : PoolError ConnectError) w : Prop :=
  ca_connection (w_actor w) = Err e ∧ ∀ tx r, Reply tx r ∈ w_out w → r = Err e.

(** What a failed actor can select. *)
Lemma failed_branch e w cc gone snap b a rx out :
  conn_inv w → failed_with e w →
  select (w_actor w) snap (w_shutdown w) (w_conn_closed w) (w_rx w) (w_others w) (w_now w)
    = Some b →
  run_branch opts b cc gone (w_now w) (w_actor w) (w_rx w) = Some (a, rx, out) →
  ca_connection a = Err e ∧ (∀ tx r, Reply tx r ∈ out → r = Err e) ∧
  (stopped a → b = BShutdown).
Proof.
  intros Hinv [He _] Hb Hr. pose proof (select_inv _ _ _ _ _ _ _ _ Hb) as Hinvb.
  assert (Hnc : connected (w_actor w) = false) by (unfold connected; by rewrite He).
  destruct b; simpl in Hr.
  - case_match; injection Hr as <- <- <-; simpl; set_solver.
  - destruct Hinvb. congruence.
  - destruct (recv (w_rx w)) as [[req rx']|]; [|done]. rewrite He in Hr.
    injection Hr as <- <- <-. simpl. split_and!; [done| |by intros [?|[r ?]]].
    intros tx r [= -> ->]%list_elem_of_singleton. done.
  - done.
  - destruct Hinvb. congruence.
  - destruct Hinvb as [[? _]%(ci_idle _ Hinv) _]. congruence.
Qed.

Lemma failed_step e w l w' :
  conn_inv w → failed_with e w → world_step opts w l = Some w' → failed_with e w'.
Proof.
  intros Hinv Hf Hstep. destruct l as [|gone|gone| | |req|n| | |ms].
  2,3: apply step_select_inv in Hstep as (cc & snap & b & a & rx & out & _ & _ & Hb & Hr & ->);
    destruct (failed_branch _ _ _ _ _ _ _ _ _ Hinv Hf Hb Hr) as (? & Hout & _);
    split; [done|]; simpl; intros tx r [Hin|Hin]%elem_of_app; [by eapply Hf|eauto].
  all: simpl in Hstep; repeat case_match; try done; injection Hstep as <-;
    unfold failed_with; simpl; rewrite ?app_nil_r; done.
Qed.

Lemma failed_reachable o e id g now s rx ls w :
  connect_result o = Err e → world_run opts (world_start o id g now s rx) ls = Some w →
  failed_with e w.
Proof.
  intros He Hrun. eapply (world_run_inv (λ w, conn_inv w ∧ failed_with e w)) in Hrun;
    [by apply Hrun| |].
  - intros w1 l w2 [? ?] ?. split; eauto using conn_inv_step, failed_step.
  - split; [apply conn_inv_start|]. unfold failed_with, world_start, start. simpl. rewrite He.
    simpl. split; [done|by intros tx r ?%list_elem_of_singleton].
Qed.

Lemma connection_reachable o id g now s rx ls w :
  world_run opts (world_start o id g now s rx) ls = Some w →
  ca_connection (w_actor w) = connect_result o.
Proof.
  intros Hrun. eapply (world_run_inv (λ w, ca_connection (w_actor w) = connect_result o)) in Hrun;
    [done| |done].
  intros w1 l w2 E Hs. destruct l as [|gone|gone| | |req|n| | |ms].
  2,3: apply step_select_inv in Hs as (cc & snap & b & a & rx' & out & _ & _ & _ & Hr & ->); simpl;
    rewrite <-E; destruct b; simpl in Hr; repeat case_match; simplify_option_eq; done.
  all: simpl in Hs; repeat case_match; try done; by injection Hs as <-.
Qed.

(** A failed actor is past help once it is between iterations with the pool
    closed: the notification it waits for has gone by. *)
Definition stranded w : Prop :=
  closed (w_shutdown w) = true ∧
  (ca_pc (w_actor w) = AtHead ∨ ca_pc (w_actor w) = Selecting (waiters_calls (w_shutdown w))).

Lemma stranded_step e w l w' :
  conn_inv w → failed_with e w → stranded w → world_step opts w l = Some w' → stranded w'.
Proof.
  intros Hinv Hf (Hcl & Hpc) Hstep. destruct l as [|gone|gone| | |req|n| | |ms].
  2,3: apply step_select_inv in Hstep as (cc & snap & b & a & rx & out & _ & Hpc' & Hb & Hr & ->);
    destruct (failed_branch _ _ _ _ _ _ _ _ _ Hinv Hf Hb Hr) as (_ & _ & Hst);
    (split; [done|]); simpl;
    destruct (run_branch_pc _ _ _ _ _ _ _ Hr) as [|Hstop]; [by left|exfalso];
    rewrite (Hst Hstop) in Hb; apply select_inv in Hb as [_ Hb]; destruct Hpc; congruence.
  all: simpl in Hstep; repeat case_match; try done; injection Hstep as <-; unfold stranded; simpl;
    rewrite ?(close_closed _ Hcl); auto; destruct Hpc; congruence.
Qed.

(** A failed actor ends because the pool was closed. *)
Lemma failed_stops_step e w l w' :
  conn_inv w → sees_shutdown w → failed_with e w →
  (stopped (w_actor w) → closed (w_shutdown w) = true) → world_step opts w l = Some w' →
  stopped (w_actor w') → closed (w_shutdown w') = true.
Proof.
  intros Hinv [_ Hsd] Hf Hst Hstep. destruct l as [|gone|gone| | |req|n| | |ms].
  2,3: apply step_select_inv in Hstep as (cc & snap & b & a & rx & out & _ & Hpc & Hb & Hr & ->);
    destruct (failed_branch _ _ _ _ _ _ _ _ _ Hinv Hf Hb Hr) as (_ & _ & Hb');
    intros Hstop; simpl in Hstop; rewrite (Hb' Hstop) in Hb; apply select_inv in Hb as [_ Hb];
    simpl; by apply (Hsd snap).
  all: simpl in Hstep; repeat case_match; try done; injection Hstep as <-; simpl; intros Hs;
    try (by apply Hst); unfold stopped in *; simpl in *.
  - by destruct Hs as [|[]].
  - apply Hst. by left.
  - unfold close. destruct (closed (w_shutdown w)) eqn:E; [exact E|done].
Qed.

(** C10: leases protect the connection: along every interleaving, the counter is
    exactly the number of live leases, the idle timer is off while one is out,
    and an actor that ends with a lease out had its connection closed by the
    peer. *)
Theorem leases_protect_connection o id g now s rx ls w :
  world_run opts (world_start o id g now s rx) ls = Some w →
  let c := ca_counter (w_actor w) in
  count c = Z.of_nat (guards c) ∧
  (idle_active (w_actor w) = true → guards c = 0) ∧
  (stopped (w_actor w) → guards c = 0 ∨ w_conn_closed w = true).
Proof.
  intros Hrun. apply reachable_inv in Hrun as (Hinv & _). simpl. split_and!.
  - apply Hinv.
  - by intros [_ ?]%(ci_idle _ Hinv).
  - apply Hinv.
Qed.

(** C12: a leased connection outlives its last lease by at least
    [idle_timeout]: from any moment a lease is out, the actor ends sooner only
    because the peer closed the connection or the pool shut down. *)
Theorem idle_timeout_respected o id g now s rx ls w ls' w' :
  world_run opts (world_start o id g now s rx) ls = Some w →
  guards (ca_counter (w_actor w)) ≠ 0 → ¬ stopped (w_actor w) →
  world_run opts w ls' = Some w' → stopped (w_actor w') →
  w_conn_closed w' = true ∨ closed (w_shutdown w') = true ∨
  (w_now w + idle_timeout opts ≤ w_now w')%Z.
Proof.
  intros Hrun Hg Hns Hrun' Hst. apply reachable_inv in Hrun as (Hinv & Hsd & _).
  eapply (world_run_inv (ends_for_cause (w_now w))) in Hrun';
    [by apply Hrun'|apply ends_for_cause_step|].
  split; [done|lia| |done]. intros Ha. by apply Hinv in Ha as [_ ?].
Qed.

(** C11: an unused connection goes away: once every lease handed out has been
    dropped and no request waits, the actor left to itself ends within
    [idle_timeout], and tells the pool so unless the pool is shut down. *)
Theorem idle_connection_retires o id g now s rx ls w tx :
  world_run opts (world_start o id g now s rx) ls = Some w → (0 ≤ idle_timeout opts)%Z →
  Reply tx (Ok tt) ∈ w_out w → guards (ca_counter (w_actor w)) = 0 → recv (w_rx w) = None →
  ¬ stopped (w_actor w) →
  ∃ ls' w', forallb unattended ls' = true ∧ (elapsed ls' ≤ idle_timeout opts)%Z ∧
    world_run opts w ls' = Some w' ∧ retired w'.
Proof.
  intros Hrun Hto Htx Hg Hrx Hns. pose proof (connection_reachable _ _ _ _ _ _ _ _ Hrun) as Hconn.
  assert (Hcon : connected (w_actor w) = true).
  { unfold connected. destruct (ca_connection (w_actor w)) as [|e] eqn:E; [done|].
    by destruct (proj2 (failed_reachable _ _ _ _ _ _ _ _ _ (eq_sym Hconn) Hrun) tx _ Htx). }
  apply reachable_inv in Hrun as (Hinv & Hsd & Hnear).
  assert (Hwake : permit (ca_counter (w_actor w)) = true ∨ idle_active (w_actor w) = true).
  { destruct (ci_wakes _ Hinv tx Htx Hg) as [|[|]]; [auto..|done]. }
  apply retires_running; auto. by split_and!.
Qed.

(** C34: the actor of a failed connection sends no reply but the connect error,
    and answers with it every request it finds when no notification is ready; it
    ends only if the pool was closed; and if it is between iterations, or still
    connecting, when the pool is closed, then it never ends. *)
Theorem failed_actor_stranded o e id g now s rx ls w :
  connect_result o = Err e → world_run opts (world_start o id g now s rx) ls = Some w →
  (∀ tx r, Reply tx r ∈ w_out w → r = Err e) ∧
  (∀ snap gone req rx', ca_pc (w_actor w) = Selecting snap →
     shutdown_pending (w_actor w) = true ∨ snap = waiters_calls (w_shutdown w) →
     recv (w_rx w) = Some (req, rx') →
     ∃ w', world_step opts w (LSelect gone) = Some w' ∧
       w_out w' = w_out w ++ [Reply (req_tx req) (Err e)] ∧ w_rx w' = rx' ∧
       ca_pc (w_actor w') = AtHead) ∧
  (stopped (w_actor w) → closed (w_shutdown w) = true) ∧
  (ca_pc (w_actor w) = AtHead → closed (w_shutdown w) = true →
   ∀ ls' w', world_run opts w ls' = Some w' → ¬ stopped (w_actor w')).
Proof.
  intros He Hrun. pose proof (failed_reachable _ _ _ _ _ _ _ _ _ He Hrun) as Hf.
  pose proof Hrun as (Hinv & Hsd & _)%reachable_inv. split_and!.
  - apply Hf.
  - intros snap gone req rx' Hpc Hno Hrx. destruct Hf as [He' _]. eexists. simpl.
    unfold select_step. rewrite Hpc. unfold select, connected, notified_ready. rewrite He', Hrx.
    replace (negb (shutdown_pending (w_actor w)) && negb (snap =? waiters_calls (w_shutdown w)))
      with false by (destruct Hno as [->| ->]; rewrite ?Nat.eqb_refl; by rewrite ?andb_false_r).
    simpl. rewrite Hrx, He'. done.
  - eapply (world_run_inv (λ w, conn_inv w ∧ sees_shutdown w ∧ failed_with e w ∧
      (stopped (w_actor w) → closed (w_shutdown w) = true))) in Hrun; [by apply Hrun| |].
    + intros w1 l w2 (? & ? & ? & ?) ?.
      split_and!; eauto using conn_inv_step, sees_shutdown_step, failed_step, failed_stops_step.
    + destruct (reachable_inv o id g now s rx [] _ eq_refl) as (? & ? & _).
      split_and!; [done|done|by apply (failed_reachable o e id g now s rx [])|].
      by intros [|[]].
  - intros Hpc Hcl ls' w' Hrun'.
    eapply (world_run_inv (λ w, conn_inv w ∧ failed_with e w ∧ stranded w)) in Hrun'.
    + destruct Hrun' as (_ & _ & _ & Hpc'). intros [Hr|[r Hr]]; destruct Hpc'; congruence.
    + intros w1 l w2 (? & ? & ?) ?.
      split_and!; eauto using conn_inv_step, failed_step, stranded_step.
    + split_and!; [done..|]. split; auto.
Qed.
End ConnFacts.

(** ** Concrete inputs *)

Module PoolConnDemo.
Import ListChannel.

Definition demo_opts : PoolOptions := MkPoolOptions 10000 5000 2.
Definition demo_rx : chan (RequestMsg nat) := LChan [MkRequestMsg 7 1] 64 false.
Definition turn : list (Label nat) := [LHead; LSelect (λ _, false)].
Definition demo_start (o : ConnectOutcome unit) (s : Shutdown) : World nat unit :=
  world_start o 7 3 0 s demo_rx.

(** Leased; leased for a minute and dropped; idle; ended. *)
Definition leased : list (Label nat) := turn ++ [LTick 60000].
Definition dropped : list (Label nat) := leased ++ [LDropLease].
Definition after (o : ConnectOutcome unit) (s : Shutdown) (ls : list (Label nat)) : World nat unit :=
  default (demo_start o s) (world_run demo_opts (demo_start o s) ls).

Example conn_demo :
  w_out (after Connected shutdown_default (dropped ++ turn ++ [LTick 10000] ++ turn)) =
  [Reply 1 (Ok tt); ToPool (MsgIdle 7 3); ToPool (MsgShutdown 7 3)].
Proof. vm_compute. reflexivity. Qed.

(** The peer closes the connection after the actor has taken the request. *)
Example close_race_demo :
  w_out (after Connected shutdown_default [LHead; LSelectRaced (λ _, false)]) =
  [ToPool (MsgShutdown 7 3); Reply 1 (Err PoolClosed)].
Proof. vm_compute. reflexivity. Qed.

Lemma leases_protect_connection_witness :
  count (ca_counter (w_actor (after Connected shutdown_default leased))) = 1%Z.
Proof.
  refine (proj1 (leases_protect_connection demo_opts Connected 7 3 0 shutdown_default demo_rx leased
    (after Connected shutdown_default leased) _)). vm_compute. reflexivity.
Defined.

Lemma idle_timeout_respected_witness :
  let w' := after Connected shutdown_default
              (leased ++ [LDropLease] ++ turn ++ [LTick 10000] ++ turn ++ [LExit]) in
  w_conn_closed w' = true ∨ closed (w_shutdown w') = true ∨ (60000 + 10000 ≤ w_now w')%Z.
Proof.
  refine (idle_timeout_respected demo_opts Connected 7 3 0 shutdown_default demo_rx leased
    (after Connected shutdown_default leased)
    ([LDropLease] ++ turn ++ [LTick 10000] ++ turn ++ [LExit]) _ _ _ _ _ _).
  - vm_compute. reflexivity.
  - vm_compute. discriminate.
  - intros [E|[r E]]; vm_compute in E; discriminate.
  - vm_compute. reflexivity.
  - right. exists true. vm_compute. reflexivity.
Defined.

Lemma idle_connection_retires_witness :
  ∃ ls' w', forallb unattended ls' = true ∧ (elapsed ls' ≤ 10000)%Z ∧
    world_run demo_opts (after Connected shutdown_default dropped) ls' = Some w' ∧ retired w'.
Proof.
  apply (idle_connection_retires demo_opts Connected 7 3 0 shutdown_default demo_rx dropped _ 1).
  - vm_compute. reflexivity.
  - done.
  - vm_compute. left.
  - vm_compute. reflexivity.
  - vm_compute. reflexivity.
  - intros [E|[r E]]; vm_compute in E; discriminate.
Defined.

(** The pool is closed while the connection attempt is running: the request is
    answered with the timeout, and the actor goes on. *)
Lemma failed_actor_stranded_witness :
  let w := after ConnectElapsed (close shutdown_default) turn in
  (∀ tx r, Reply tx r ∈ w_out w → r = Err PoolTimeout) ∧ ¬ stopped (w_actor w).
Proof.
  destruct (failed_actor_stranded demo_opts ConnectElapsed PoolTimeout 7 3 0
    (close shutdown_default) demo_rx turn (after ConnectElapsed (close shutdown_default) turn)
    eq_refl) as (Hr & _ & _ & Hst); [vm_compute; reflexivity|].
  split; [exact Hr|]. apply (Hst eq_refl eq_refl []). reflexivity.
Defined.
End PoolConnDemo.
