(* ===== verification/PoolRun.v ===== *)
(** * The loop of the pool actor, and how it is told to stop

    Models [PoolActor::run] of [src/pool.rs] statement by statement, together
    with the threads that run [Shutdown::close], the clients that post messages
    and the connection tasks, which take requests from their mailboxes and end,
    dropping them.  The loop refines the sequential [run] of [PoolActor]; what is
    new here is when it stops. *)
From S2P Require Import Prelude Tokio PoolActor PoolConn.

Section Run.
Context {EndpointId : Type} `{Countable EndpointId} `{!Mpsc} {ConnectError : Type}.
Context (opts : PoolOptions).

(** Where [run] is. *)
Inductive RunPc :=
  | RunCheck                 (** before [shutdown.is_closed()] *)
  | RunNotified              (** before [shutdown.notify.notified()] *)
  | RunSelect (seen : nat)   (** in [select!], with the future made then *)
  | RunJoin                  (** in the last loop, over [join_next] *)
  | RunDone.

(** A thread in [Shutdown::close]. *)
Inductive ClosePc := CloseSwap | CloseNotify | CloseDone.

Record RunWorld := MkRunWorld {
  rw_actor : PoolActor EndpointId ConnectError;
  rw_pc : RunPc;
  rw_rx : chan (Msg EndpointId);          (** [PoolActor::rx] *)
  rw_finished : list Z;                   (** generations of the tasks that have ended *)
  rw_shutdown : Shutdown;
  rw_closers : gmap nat ClosePc;
  (** what [select!] has woken up for so far, and what the tasks have done with
      their mailboxes in between *)
  rw_log : list (PoolEvent EndpointId)
}.

Definition loop_event (ev : PoolEvent EndpointId) : bool :=
  match ev with TaskReceives _ | TaskEnds _ => false | _ => true end.
(** What [select!] has woken up for so far. *)
Definition rw_events (w : RunWorld) : list (PoolEvent EndpointId) :=
  filter loop_event (rw_log w).

(** [PoolActor::new] *)
Definition run_world_new : option RunWorld :=
  rx ← mpsc_channel POOL_CHANNEL_CAPACITY;
  Some (MkRunWorld pool_new RunCheck rx [] shutdown_default ∅ []).

Definition goto_pc (pc : RunPc) (w : RunWorld) : RunWorld :=
  MkRunWorld (rw_actor w) pc (rw_rx w) (rw_finished w) (rw_shutdown w) (rw_closers w)
    (rw_log w).

Definition joined (g : Z) (w : RunWorld) : RunWorld :=
  MkRunWorld (join_task g (rw_actor w)) (rw_pc w) (rw_rx w) (filter (.≠ g) (rw_finished w))
    (rw_shutdown w) (rw_closers w) (rw_log w).

Definition log_event (ev : PoolEvent EndpointId) (w : RunWorld) : RunWorld :=
  MkRunWorld (rw_actor w) (rw_pc w) (rw_rx w) (rw_finished w) (rw_shutdown w) (rw_closers w)
    (rw_log w ++ [ev]).

(** From the [break] to the last loop. *)
Definition stop_loop (w : RunWorld) : RunWorld :=
  MkRunWorld (clear_slots (rw_actor w)) RunJoin
    (close_rx (rw_rx w)) (rw_finished w) (rw_shutdown w) (rw_closers w)
    (rw_log w ++ [PoolShutdownSeen]).

(** [run] returns, and drops the actor with its receiver. *)
Definition return_run (w : RunWorld) : RunWorld :=
  MkRunWorld (rw_actor w) RunDone (drop_rx (rw_rx w)) (rw_finished w) (rw_shutdown w)
    (rw_closers w) (rw_log w).

(** The next step of [run].  [raced] is for [handle]; [g] is the task that
    [join_next] yields, if it yields one.  The actor holds [pool_tx], so
    [rx.recv()] never yields [None]; it waits while the queue is empty. *)
Definition actor_step (raced : bool) (g : Z) (w : RunWorld) : option RunWorld :=
  match rw_pc w with
  | RunCheck =>
      Some (if is_closed (rw_shutdown w) then stop_loop w else goto_pc RunNotified w)
  | RunNotified => Some (goto_pc (RunSelect (notified (rw_shutdown w))) w)
  | RunSelect seen =>
      if notified_ready seen (rw_shutdown w) then Some (stop_loop w)
      else match recv (rw_rx w) with
           | Some (msg, rx) =>
               Some (log_event (PoolMsg raced msg) (MkRunWorld (handle opts raced (rw_actor w) msg)
                 RunCheck rx (rw_finished w) (rw_shutdown w) (rw_closers w) (rw_log w)))
           | None =>
               if bool_decide (tasks (rw_actor w) ≠ [] ∧ g ∈ rw_finished w)
               then Some (log_event (PoolTaskJoined g) (joined g (goto_pc RunCheck w))) else None
           end
  | RunJoin =>
      if bool_decide (tasks (rw_actor w) = []) then Some (return_run w)
      else if bool_decide (g ∈ rw_finished w) then Some (joined g w) else None
  | RunDone => None
  end.

Inductive RunLabel :=
  | RunActor (raced : bool) (g : Z)
  | RunPost (msg : Msg EndpointId)    (** somebody sends the actor a message *)
  | RunTake (c : nat)                 (** a task takes a request from its mailbox *)
  | RunFinish (g : Z)                 (** a connection task ends *)
  | CloseCall (t : nat)               (** thread [t] calls [Shutdown::close] *)
  | CloseStep (t : nat).

(** The next step of thread [t] in [Shutdown::close]: the [swap], then
    [notify_waiters]. *)
Definition close_step (t : nat) (w : RunWorld) : option RunWorld :=
  let set pc s := MkRunWorld (rw_actor w) (rw_pc w) (rw_rx w) (rw_finished w) s
                    (<[t := pc]> (rw_closers w)) (rw_log w) in
  let s := rw_shutdown w in
  match rw_closers w !! t with
  | Some CloseSwap =>
      Some (if closed s then set CloseDone s
            else set CloseNotify (MkShutdown true (waiters_calls s)))
  | Some CloseNotify => Some (set CloseDone (MkShutdown (closed s) (S (waiters_calls s))))
  | _ => None
  end.

(** What a task does with its mailbox. *)
Definition task_acts (ev : PoolEvent EndpointId) (w : RunWorld) : RunWorld :=
  log_event ev (MkRunWorld (task_event ev (rw_actor w)) (rw_pc w) (rw_rx w) (rw_finished w)
    (rw_shutdown w) (rw_closers w) (rw_log w)).

Definition run_step (w : RunWorld) (l : RunLabel) : option RunWorld :=
  match l with
  | RunActor raced g => actor_step raced g w
  | RunPost msg =>
      match try_send msg (rw_rx w) with
      | (SendOk, rx) =>
          Some (MkRunWorld (rw_actor w) (rw_pc w) rx (rw_finished w) (rw_shutdown w)
                  (rw_closers w) (rw_log w))
      | _ => None
      end
  | RunTake c =>
      if bool_decide (Exists (λ t, task_rx t = c ∧ task_generation t ∉ rw_finished w)
                        (tasks (rw_actor w)))
      then Some (task_acts (TaskReceives c) w) else None
  | RunFinish g =>
      match filter (λ t, task_generation t = g) (tasks (rw_actor w)) with
      | t :: _ =>
          if bool_decide (g ∈ rw_finished w) then None
          else let w := task_acts (TaskEnds (task_rx t)) w in
               Some (MkRunWorld (rw_actor w) (rw_pc w) (rw_rx w) (rw_finished w ++ [g])
                       (rw_shutdown w) (rw_closers w) (rw_log w))
      | [] => None
      end
  | CloseCall t =>
      match rw_closers w !! t with
      | None => Some (MkRunWorld (rw_actor w) (rw_pc w) (rw_rx w) (rw_finished w) (rw_shutdown w)
                        (<[t := CloseSwap]> (rw_closers w)) (rw_log w))
      | Some _ => None
      end
  | CloseStep t => close_step t w
  end.

Fixpoint run_steps (w : RunWorld) (ls : list RunLabel) : option RunWorld :=
  match ls with
  | [] => Some w
  | l :: ls => w ← run_step w l; run_steps w ls
  end.

Definition run_from_start (ls : list RunLabel) : option RunWorld :=
  w ← run_world_new; run_steps w ls.

(** ** The invariant *)

Definition over (pc : RunPc) : bool := match pc with RunJoin | RunDone => true | _ => false end.

(** The flag, the count of notifications and the threads in [close]. *)
Definition shutdown_ok (w : RunWorld) : Prop :=
  if closed (rw_shutdown w)
  then (waiters_calls (rw_shutdown w) = 1 ∧ ∀ t, rw_closers w !! t ≠ Some CloseNotify) ∨
       (waiters_calls (rw_shutdown w) = 0 ∧ ∃ t, rw_closers w !! t = Some CloseNotify ∧
          ∀ t', rw_closers w !! t' = Some CloseNotify → t' = t)
  else waiters_calls (rw_shutdown w) = 0 ∧
       ∀ t, rw_closers w !! t ≠ Some CloseNotify ∧ rw_closers w !! t ≠ Some CloseDone.

Definition not_stop (ev : PoolEvent EndpointId) : Prop :=
  ev ≠ PoolShutdownSeen ∧ ev ≠ PoolSendersGone.

Record run_inv (w : RunWorld) : Prop := {
  ri_shutdown : shutdown_ok w;
  (** a future was made with a count that was reached *)
  ri_seen : ∀ seen, rw_pc w = RunSelect seen → seen ≤ waiters_calls (rw_shutdown w);
  (** the loop does what [run] does on its events *)
  ri_actor : over (rw_pc w) = false →
    rw_actor w = run opts pool_new (rw_log w) ∧ Forall not_stop (rw_log w);
  ri_over : over (rw_pc w) = true →
    closed (rw_shutdown w) = true ∧
    (∃ evs, rw_events w = evs ++ [PoolShutdownSeen] ∧ Forall not_stop evs) ∧
    let r := run opts pool_new (rw_log w) in
    ∃ ts, ts ⊆ tasks r ∧ rw_actor w = MkPoolActor (connections r) (idle r) (next_gen r) ts
      (mailboxes r) (next_chan r) (replies r);
  ri_done : rw_pc w = RunDone → tasks (rw_actor w) = [];
}.

Lemma run_snoc (st : PoolActor EndpointId ConnectError) evs ev :
  Forall not_stop evs → run opts st (evs ++ [ev]) = run opts (run opts st evs) [ev].
Proof.
  revert st. induction evs as [|e evs IH]; intros st Hns; [done|].
  apply Forall_cons in Hns as [[H1 H2] Hns]. destruct e; try done; by apply IH.
Qed.

(** What a task does comes last, also after the loop. *)
Lemma run_task_snoc (st : PoolActor EndpointId ConnectError) evs ev :
  loop_event ev = false → run opts st (evs ++ [ev]) = task_event ev (run opts st evs).
Proof.
  intros Hev. revert st. induction evs as [|e evs IH]; intros st; [by destruct ev|].
  destruct e; simpl; rewrite ?IH, ?foldl_app; done.
Qed.

Lemma rw_events_snoc evs ev :
  filter loop_event (evs ++ [ev]) =
  filter loop_event evs ++ if loop_event ev then [ev] else [].
Proof.
  rewrite filter_app. f_equal. destruct (loop_event ev) eqn:Hev.
  - by rewrite filter_cons_True by (by rewrite Hev).
  - by rewrite filter_cons_False by (by rewrite Hev; intros []).
Qed.

Lemma run_inv_new w : run_world_new = Some w → run_inv w.
Proof. intros (rx & _ & [= <-])%bind_Some. by split. Qed.

(** A step of a thread in [close] keeps the count of notifications right. *)
Lemma close_step_shutdown_ok t w w' :
  shutdown_ok w → close_step t w = Some w' →
  shutdown_ok w' ∧ waiters_calls (rw_shutdown w) ≤ waiters_calls (rw_shutdown w') ∧
  (closed (rw_shutdown w) = true → closed (rw_shutdown w') = true).
Proof.
  unfold shutdown_ok, close_step. intros Hok Hs.
  destruct (rw_closers w !! t) as [[]|] eqn:Ht; simplify_eq.
  - destruct (closed (rw_shutdown w)) eqn:Hc; simplify_eq; simpl.
    + rewrite Hc. split; [|done]. destruct Hok as [[Hn Hno]|[Hz (t0 & Ht0 & Hu)]].
      * left. split; [done|]. intros t'. rewrite lookup_insert. case_decide; [done|apply Hno].
      * right. split; [done|]. exists t0. split.
        -- rewrite lookup_insert_ne; [done|]. congruence.
        -- intros t'. rewrite lookup_insert. case_decide; [done|apply Hu].
    + split; [|done]. destruct Hok as [Hz Hno]. right. split; [done|]. exists t.
      rewrite lookup_insert_eq. split; [done|]. intros t'. rewrite lookup_insert.
      case_decide; [done|]. intros Hx. by destruct (Hno t').
  - simpl. destruct (closed (rw_shutdown w)) eqn:Hc; [|by destruct (proj2 Hok t)].
    split; [|split; [lia|done]]. left. destruct Hok as [[_ Hno]|[-> (t0 & Ht0 & Hu)]].
    + by destruct (Hno t).
    + split; [done|]. intros t'. rewrite lookup_insert. case_decide; [done|].
      intros Hx%Hu. apply Hu in Ht. congruence.
Qed.

(** *** The steps keep the invariant *)

Lemma stop_loop_inv w :
  run_inv w → over (rw_pc w) = false → closed (rw_shutdown w) = true → run_inv (stop_loop w).
Proof.
  intros [Hs Hseen Hact _ _] Hpc Hc. destruct (Hact Hpc) as [Ha Hns].
  split; simpl; try done. intros _. split_and!; [done| |].
  - exists (rw_events w). split; [apply rw_events_snoc|].
    apply Forall_forall. intros ev [_ Hin]%list_elem_of_filter. by eapply Forall_forall in Hns.
  - rewrite run_snoc by done. rewrite <-Ha. by exists (tasks (rw_actor w)).
Qed.

(** The loop wakes up for one more event. *)
Lemma log_event_inv ev w st rx fin :
  run_inv w → over (rw_pc w) = false → not_stop ev → st = run opts (rw_actor w) [ev] →
  run_inv (log_event ev (MkRunWorld st RunCheck rx fin (rw_shutdown w) (rw_closers w) (rw_log w))).
Proof.
  intros [Hs Hseen Hact _ _] Hpc Hev ->. destruct (Hact Hpc) as [Ha Hns].
  split; simpl; try done. intros _. rewrite run_snoc, <-Ha by done. split; [done|].
  apply Forall_app. split; [done|]. by constructor.
Qed.

(** What a task does keeps the invariant. *)
Lemma task_acts_inv ev w fin :
  loop_event ev = false → run_inv w →
  run_inv (let w := task_acts ev w in
    MkRunWorld (rw_actor w) (rw_pc w) (rw_rx w) fin (rw_shutdown w) (rw_closers w) (rw_log w)).
Proof.
  intros Hev [Hs Hseen Hact Hov Hd].
  destruct (task_event_same ev (rw_actor w)) as (_ & _ & _ & Ht & _ & _).
  split; simpl; try done.
  - intros Hpc. destruct (Hact Hpc) as [Ha Hns]. rewrite run_task_snoc, <-Ha by done.
    split; [done|]. apply Forall_app. split; [done|]. constructor; [|done]. by destruct ev.
  - intros Hpc. destruct (Hov Hpc) as (Hc & Hevs & ts & Hts & Ha). split_and!; [done| |].
    + unfold rw_events in *. simpl. by rewrite rw_events_snoc, Hev, app_nil_r.
    + rewrite run_task_snoc by done. exists ts.
      pose proof (task_event_same ev (run opts pool_new (rw_log w))) as (_ & _ & _ & -> & _).
      split; [done|]. rewrite Ha. destruct ev; try done; simpl; unfold change_mailbox; simpl;
        by destruct (mailboxes (run opts pool_new (rw_log w)) !! c).
  - intros Hpc. rewrite Ht. by apply Hd.
Qed.

Lemma goto_pc_inv w pc :
  run_inv w → over (rw_pc w) = false → over pc = false →
  (∀ seen, pc = RunSelect seen → seen ≤ waiters_calls (rw_shutdown w)) → run_inv (goto_pc pc w).
Proof.
  intros [Hs _ Hact _ _] Hpc Hpc' Hseen.
  split; simpl; [done|done|by intros _; apply Hact|congruence|by destruct pc].
Qed.

Lemma actor_step_inv raced g w w' : run_inv w → actor_step raced g w = Some w' → run_inv w'.
Proof.
  intros Hinv. pose proof Hinv as [Hs Hseen Hact Hov _]. unfold actor_step.
  destruct (rw_pc w) as [| |seen| |] eqn:Epc; intros Hst.
  - injection Hst as <-. unfold is_closed. destruct (closed (rw_shutdown w)) eqn:Hc.
    + apply stop_loop_inv; [done|by rewrite Epc|done].
    + apply goto_pc_inv; by rewrite ?Epc.
  - injection Hst as <-. apply goto_pc_inv; [done|by rewrite Epc|done|].
    unfold notified. intros seen [= <-]. done.
  - destruct (notified_ready seen (rw_shutdown w)) eqn:Hr.
    + injection Hst as <-. apply stop_loop_inv; [done|by rewrite Epc|].
      unfold notified_ready in Hr. apply negb_true_iff, Nat.eqb_neq in Hr.
      specialize (Hseen _ eq_refl). unfold shutdown_ok in Hs.
      destruct (closed (rw_shutdown w)); [done|]. destruct Hs as [Hs _]. lia.
    + destruct (recv (rw_rx w)) as [[msg rx]|]; [|case_bool_decide; [|done]];
        injection Hst as <-; apply log_event_inv; by rewrite ?Epc.
  - destruct (Hov eq_refl) as (Hc & Hev & ts & Hts & Ha).
    case_bool_decide as Ht; [|case_bool_decide; [|done]]; injection Hst as <-;
      (split; simpl; rewrite ?Epc; try done).
    intros _. split_and!; [done|done|]. exists (filter (λ t, task_generation t ≠ g) ts).
    split; [|by rewrite Ha]. intros x [_ Hx]%list_elem_of_filter. by apply Hts.
  - done.
Qed.

Lemma run_step_inv w l w' : run_inv w → run_step w l = Some w' → run_inv w'.
Proof.
  intros Hinv. pose proof Hinv as [Hs Hseen Hact Hov Hd]. destruct l as [raced g|msg|c|g|t|t]; simpl.
  - by apply actor_step_inv.
  - destruct (try_send msg (rw_rx w)) as [[] rx]; [|done..]. intros [= <-]. by split.
  - case_bool_decide; [|done]. intros [= <-].
    exact (task_acts_inv (TaskReceives c) w (rw_finished w) eq_refl Hinv).
  - destruct (filter _ _) as [|t ts]; [done|]. case_bool_decide; [done|]. intros [= <-].
    by apply (task_acts_inv (TaskEnds (task_rx t))).
  - destruct (rw_closers w !! t) as [pc|] eqn:Ht; [done|]. intros [= <-]. split; simpl; try done.
    unfold shutdown_ok in *. simpl. destruct (closed (rw_shutdown w)).
    + destruct Hs as [[? Hno]|[? (t0 & Ht0 & Hu)]]; [left|right]; (split; [done|]).
      * intros t'. rewrite lookup_insert. case_decide; [done|apply Hno].
      * exists t0. split; [rewrite lookup_insert_ne; [done|congruence]|].
        intros t'. rewrite lookup_insert. case_decide; [done|apply Hu].
    + destruct Hs as [? Hno]. split; [done|]. intros t'. rewrite lookup_insert.
      case_decide; [done|apply Hno].
  - intros Hst. destruct (close_step_shutdown_ok _ _ _ Hs Hst) as (Hs' & Hle & Hc).
    unfold close_step in Hst. assert (∃ s m, w' = MkRunWorld (rw_actor w) (rw_pc w) (rw_rx w)
      (rw_finished w) s m (rw_log w)) as (s & m & E).
    { destruct (rw_closers w !! t) as [[]|]; simplify_eq; [|by do 2 eexists].
      destruct (closed (rw_shutdown w)); simplify_eq; by do 2 eexists. }
    subst w'. simpl in *. split; simpl; [done| |done| |done].
    + intros seen E. specialize (Hseen _ E). lia.
    + intros E. destruct (Hov E) as [? ?]. split; auto.
Qed.

Lemma run_steps_inv w ls w' : run_inv w → run_steps w ls = Some w' → run_inv w'.
Proof.
  revert w. induction ls as [|l ls IH]; intros w Hinv; simpl; [congruence|].
  intros (w1 & H1 & H2)%bind_Some. by apply (IH w1); [eapply run_step_inv|].
Qed.

Lemma run_from_start_inv ls w : run_from_start ls = Some w → run_inv w.
Proof. intros (w0 & H0' & Hr)%bind_Some. eapply run_steps_inv; [by apply run_inv_new|done]. Qed.

(** ** Stopping *)

(** The pool is closed, and no thread is between the [swap] and the
    notification. *)
Definition close_returned (w : RunWorld) : Prop :=
  closed (rw_shutdown w) = true ∧ ∀ t, rw_closers w !! t ≠ Some CloseNotify.

(** The loop has passed its check, and its future is, or will be, too young for
    the notification. *)
Definition missed (w : RunWorld) : bool :=
  match rw_pc w with
  | RunNotified => true
  | RunSelect seen => seen =? waiters_calls (rw_shutdown w)
  | _ => false
  end.

Lemma close_returned_calls w : run_inv w → close_returned w → waiters_calls (rw_shutdown w) = 1.
Proof.
  intros [Hs _ _ _ _] [Hc Hn]. unfold shutdown_ok in Hs. rewrite Hc in Hs.
  destruct Hs as [[? _]|[_ (t & Ht & _)]]; [done|]. by destruct (Hn t).
Qed.

Lemma task_acts_after ev w :
  loop_event ev = false → close_returned w →
  let w' := task_acts ev w in
  close_returned w' ∧ rw_pc w' = rw_pc w ∧ rw_shutdown w' = rw_shutdown w ∧
  rw_events w' = rw_events w ∧ tasks (rw_actor w') = tasks (rw_actor w).
Proof.
  intros Hev Hcr. split_and!; try done.
  - unfold rw_events. simpl. by rewrite rw_events_snoc, Hev, app_nil_r.
  - simpl. by destruct (task_event_same ev (rw_actor w)) as (_ & _ & _ & -> & _).
Qed.

(** What the environment does after the pool was closed. *)
Lemma env_step_after w l w' :
  close_returned w → run_step w l = Some w' → (∀ raced g, l ≠ RunActor raced g) →
  close_returned w' ∧ rw_pc w' = rw_pc w ∧ rw_shutdown w' = rw_shutdown w ∧
  rw_events w' = rw_events w ∧ tasks (rw_actor w') = tasks (rw_actor w).
Proof.
  intros Hcr Hst Hl. pose proof Hcr as [Hc Hn].
  destruct l as [raced g|msg|c|g|t|t]; simpl in Hst.
  - by destruct (Hl raced g).
  - destruct (try_send msg (rw_rx w)) as [[] rx]; [|done..]. by injection Hst as <-.
  - case_bool_decide; [|done]. injection Hst as <-. by apply task_acts_after.
  - destruct (filter _ _) as [|t ts]; [done|]. case_bool_decide; [done|]. injection Hst as <-.
    by apply (task_acts_after (TaskEnds (task_rx t))).
  - destruct (rw_closers w !! t) eqn:Ht; [done|]. injection Hst as <-. split; [|done].
    split; [done|]. simpl. intros t'. rewrite lookup_insert. case_decide; [done|apply Hn].
  - unfold close_step in Hst. rewrite Hc in Hst.
    destruct (rw_closers w !! t) as [[]|] eqn:Ht; simplify_eq; [|by destruct (Hn t)].
    split; [|done]. split; [done|]. simpl. intros t'. rewrite lookup_insert.
    case_decide; [done|apply Hn].
Qed.

(** What the loop does then. *)
Lemma actor_step_after raced g w w' :
  run_inv w → close_returned w → actor_step raced g w = Some w' →
  close_returned w' ∧
  (if over (rw_pc w) then over (rw_pc w') = true ∧ rw_events w' = rw_events w
   else if missed w
   then (missed w' = true ∧ rw_events w' = rw_events w) ∨
        (rw_pc w' = RunCheck ∧ ∃ ev, not_stop ev ∧ rw_events w' = rw_events w ++ [ev])
   else over (rw_pc w') = true ∧ rw_events w' = rw_events w ++ [PoolShutdownSeen]).
Proof.
  intros Hinv Hcr Hst. pose proof (close_returned_calls _ Hinv Hcr) as H1.
  pose proof (ri_seen _ Hinv) as Hseen. pose proof Hcr as [Hc Hn].
  unfold actor_step in Hst. unfold missed at 1.
  destruct (rw_pc w) as [| |seen| |] eqn:Epc; simpl.
  - unfold is_closed in Hst. rewrite Hc in Hst. injection Hst as <-.
    split_and!; [done|done|apply rw_events_snoc].
  - injection Hst as <-. split; [done|]. left. split; [|done]. unfold missed. simpl.
    by rewrite Nat.eqb_refl.
  - unfold notified_ready in Hst. specialize (Hseen _ eq_refl). rewrite H1 in *.
    destruct (Nat.eqb_spec seen 1) as [->|Hne]; simpl in Hst.
    2: { injection Hst as <-. split_and!; [done|done|apply rw_events_snoc]. }
    destruct (recv (rw_rx w)) as [[msg rx]|]; [|case_bool_decide; [|done]];
      injection Hst as <-; (split; [done|]); right; (split; [done|]).
    + exists (PoolMsg raced msg). split; [done|apply rw_events_snoc].
    + exists (PoolTaskJoined g). split; [done|apply rw_events_snoc].
  - case_bool_decide; [|case_bool_decide; [|done]]; injection Hst as <-;
      (split; [done|]); simpl; by rewrite ?Epc.
  - done.
Qed.

(** What a loop may still wake up for once the pool was closed. *)
Definition still_to_do (w : RunWorld) (extra : list (PoolEvent EndpointId)) : Prop :=
  extra = [] ∨
  (over (rw_pc w) = false ∧ missed w = false ∧ extra = [PoolShutdownSeen]) ∨
  (missed w = true ∧ ∃ ev, not_stop ev ∧ (extra = [ev] ∨ extra = [ev; PoolShutdownSeen])).

Lemma step_after w l w' :
  run_inv w → close_returned w → run_step w l = Some w' →
  close_returned w' ∧ ∃ now, rw_events w' = rw_events w ++ now ∧
    ∀ later, still_to_do w' later → still_to_do w (now ++ later).
Proof.
  intros Hinv Hcr Hst.
  assert (Hl : (∃ raced g, l = RunActor raced g) ∨ ∀ raced g, l ≠ RunActor raced g)
    by (destruct l; [left; eauto|by right..]).
  destruct Hl as [(raced & g & ->)|Hl].
  - destruct (actor_step_after _ _ _ _ Hinv Hcr Hst) as [Hcr' Hcase]. split; [done|].
    destruct (over (rw_pc w)) eqn:Eo; [|destruct (missed w) eqn:Em].
    + destruct Hcase as [Eo' ->]. exists []. split; [by rewrite app_nil_r|].
      intros later [->|[(? & _)|(Em & _)]]; [by left|congruence|].
      unfold missed in Em. by destruct (rw_pc w').
    + destruct Hcase as [[Em' ->]|(Epc & ev & Hev & ->)].
      * exists []. split; [by rewrite app_nil_r|].
        intros later [->|[(_ & ? & _)|(_ & H1)]]; [by left|congruence|]. right. by right.
      * exists [ev]. split; [done|]. intros later Hlater. right. right. split; [done|].
        exists ev. split; [done|].
        destruct Hlater as [->|[(_ & _ & ->)|(Hm & _)]]; [by left|by right|].
        unfold missed in Hm. by rewrite Epc in Hm.
    + destruct Hcase as [Eo' ->]. exists [PoolShutdownSeen]. split; [done|].
      intros later [->|[(? & _)|(Em' & _)]]; [right; by left|congruence|].
      unfold missed in Em'. by destruct (rw_pc w').
  - destruct (env_step_after _ _ _ Hcr Hst Hl) as (Hcr' & Epc & Es & -> & _). split; [done|].
    exists []. split; [by rewrite app_nil_r|]. unfold still_to_do, missed. by rewrite Epc, Es.
Qed.

Lemma steps_after w ls w' :
  run_inv w → close_returned w → run_steps w ls = Some w' →
  close_returned w' ∧ ∃ extra, rw_events w' = rw_events w ++ extra ∧ still_to_do w extra.
Proof.
  revert w. induction ls as [|l ls IH]; intros w Hinv Hcr; simpl.
  - intros [= <-]. split; [done|]. exists []. rewrite app_nil_r. split; [done|by left].
  - intros (w1 & Hst & Hrun)%bind_Some.
    destruct (step_after _ _ _ Hinv Hcr Hst) as (Hcr1 & now & E1 & Hnow).
    destruct (IH w1) as (Hcr' & later & E2 & Hlater); [by eapply run_step_inv|done..|].
    split; [done|]. exists (now ++ later). rewrite E2, E1, (assoc_L (++)). auto.
Qed.

(** The last loop ends when the tasks do. *)
Lemma join_loop_ends w :
  rw_pc w = RunJoin → (∀ t, t ∈ tasks (rw_actor w) → task_generation t ∈ rw_finished w) →
  ∃ gs w', run_steps w (RunActor false <$> gs) = Some w' ∧ rw_pc w' = RunDone.
Proof.
  remember (length (tasks (rw_actor w))) as n eqn:En. revert w En.
  induction (lt_wf n) as [n _ IH]. intros w -> Epc Hfin.
  destruct (tasks (rw_actor w)) as [|t ts] eqn:Et.
  - exists [0%Z], (return_run w). split; [|done]. simpl. unfold actor_step.
    by rewrite Epc, bool_decide_eq_true_2.
  - set (g := task_generation t).
    destruct (IH (length (tasks (rw_actor (joined g w)))) ) with (w := joined g w)
      as (gs & w' & Hrun & Hd); [|done|done| |].
    + simpl. rewrite Et, filter_cons_False by (intros Hx; by apply Hx).
      apply Nat.lt_succ_r, length_filter.
    + simpl. intros t' [Hne Ht']%list_elem_of_filter. apply list_elem_of_filter.
      split; [done|]. apply Hfin. by rewrite <-Et.
    + exists (g :: gs), w'. split; [|done]. csimpl. unfold actor_step at 1.
      rewrite Epc, Et, bool_decide_eq_false_2, bool_decide_eq_true_2; [done| |done].
      apply Hfin. by left.
Qed.

(** A thread that runs [close] while the loop is not between its check and its
    future is noticed. *)
Lemma close_noticed t w w1 w2 :
  run_inv w → closed (rw_shutdown w) = false → rw_pc w ≠ RunNotified →
  rw_closers w !! t = Some CloseSwap → close_step t w = Some w1 → close_step t w1 = Some w2 →
  close_returned w2 ∧ missed w2 = false.
Proof.
  intros Hinv Hc Hpc Ht Hs1 Hs2. pose proof (ri_shutdown _ Hinv) as Hs.
  pose proof (ri_seen _ Hinv) as Hseen. unfold shutdown_ok in Hs. rewrite Hc in Hs.
  destruct Hs as [Hz Hno]. unfold close_step in Hs1. rewrite Ht, Hc in Hs1. injection Hs1 as <-.
  unfold close_step in Hs2. simpl in Hs2. rewrite lookup_insert_eq in Hs2. injection Hs2 as <-.
  split; [split; [done|]|].
  - simpl. intros t'. rewrite insert_insert_eq, lookup_insert. case_decide; [done|apply Hno].
  - unfold missed. simpl. destruct (rw_pc w) as [| |seen| |]; try done.
    specialize (Hseen _ eq_refl). apply Nat.eqb_neq. lia.
Qed.

(** C14: closing the pool ends its actor, but for one window.  Once [close] has
    returned the loop wakes up at most for the shutdown itself, in its very next
    step, whatever is queued; only if [close] ran between the loop's check and
    the creation of its future it waits for one more message or task first.
    And after the loop [run] returns as soon as the connection tasks have
    ended. *)
Theorem close_ends_loop ls w ls' w' :
  run_from_start ls = Some w → close_returned w → run_steps w ls' = Some w' →
  (∃ extra, rw_events w' = rw_events w ++ extra ∧ still_to_do w extra) ∧
  (over (rw_pc w') = false → missed w' = false →
   ∀ raced g, ∃ w2, run_step w' (RunActor raced g) = Some w2 ∧ over (rw_pc w2) = true) ∧
  (rw_pc w' = RunJoin → (∀ t, t ∈ tasks (rw_actor w') → task_generation t ∈ rw_finished w') →
   ∃ gs w2, run_steps w' (RunActor false <$> gs) = Some w2 ∧ rw_pc w2 = RunDone).
Proof.
  intros Hls%run_from_start_inv Hcr Hrun.
  destruct (steps_after _ _ _ Hls Hcr Hrun) as [Hcr' Hex].
  pose proof (run_steps_inv _ _ _ Hls Hrun) as Hinv'.
  split_and!; [done| |apply join_loop_ends]. intros Eo Em raced g.
  assert (is_Some (actor_step raced g w')) as [w2 H2].
  { unfold actor_step. unfold missed in Em. destruct (rw_pc w'); try done.
    unfold notified_ready. by rewrite Em. }
  exists w2. split; [done|].
  destruct (actor_step_after _ _ _ _ Hinv' Hcr' H2) as [_ Hcase].
  rewrite Eo, Em in Hcase. apply Hcase.
Qed.

(** The pool is closed, and its actor waits for a message that nobody will
    send, or a task that does not exist. *)
Definition asleep (w : RunWorld) : Prop :=
  close_returned w ∧ rw_pc w = RunSelect (waiters_calls (rw_shutdown w)) ∧
  queued (rw_rx w) = [] ∧ tasks (rw_actor w) = [].

(** C15: in that window the close can be lost: a pool that is closed there while it
    has no connection and no message leaves its actor asleep, for good: unless
    somebody still sends it a message, its loop never ends. *)
Theorem missed_close_sleeps `{!MpscLaws} ls w ls' w' :
  run_from_start ls = Some w → asleep w → run_steps w ls' = Some w' →
  (∀ msg, RunPost msg ∉ ls') →
  asleep w' ∧ rw_events w' = rw_events w ∧ ∀ raced g, run_step w' (RunActor raced g) = None.
Proof.
  intros _. revert w. induction ls' as [|l ls' IH]; intros w Hsl; simpl.
  - intros [= <-] _. split_and!; [done..|]. destruct Hsl as (_ & Epc & Hq & Ht). intros raced g.
    unfold actor_step, notified_ready. rewrite Epc, Nat.eqb_refl, recv_empty by done. simpl.
    rewrite bool_decide_eq_false_2; [done|]. by intros [? _].
  - intros (w1 & Hst & Hrun)%bind_Some Hno. destruct Hsl as (Hcr & Epc & Hq & Ht).
    assert (Hl : ∀ raced g, l ≠ RunActor raced g).
    { intros raced g ->. simpl in Hst. unfold actor_step, notified_ready in Hst.
      rewrite Epc, Nat.eqb_refl, recv_empty in Hst by done. simpl in Hst.
      rewrite bool_decide_eq_false_2 in Hst; [done|]. by intros [? _]. }
    assert (Hrx : rw_rx w1 = rw_rx w).
    { destruct l as [raced g|msg|c|g|t|t]; simpl in Hst; [by destruct (Hl raced g)| | | | |].
      - destruct (Hno msg). by left.
      - case_bool_decide; by simplify_eq.
      - destruct (filter _ _); [done|]. case_bool_decide; by simplify_eq.
      - by destruct (rw_closers w !! t); simplify_eq.
      - unfold close_step in Hst. destruct (rw_closers w !! t) as [[]|]; simplify_eq; [|done].
        by destruct (closed (rw_shutdown w)); simplify_eq. }
    destruct (env_step_after _ _ _ Hcr Hst Hl) as (Hcr1 & Epc1 & Es1 & Ee1 & Ea1).
    rewrite <-Ee1. apply IH; [|done|].
    + unfold asleep. by rewrite Epc1, Es1, Hrx, Ea1.
    + intros msg Hx. apply (Hno msg). by right.
Qed.

(** C13: interleaved with clients that post messages, connection tasks that take
    requests from their mailboxes and end, and threads that close the pool, the
    loop does what the sequential [run] makes of the events it woke up for and
    of what the tasks did in between: the same slots, idle queue, mailboxes and
    replies; it stops exactly when it has seen the shutdown, its last event,
    which it sees only if the pool was closed. *)
Theorem run_loop_refines ls w :
  run_from_start ls = Some w →
  let r := run opts pool_new (rw_log w) in
  (if over (rw_pc w)
   then closed (rw_shutdown w) = true ∧
        ∃ evs, rw_events w = evs ++ [PoolShutdownSeen] ∧ Forall not_stop evs
   else rw_actor w = r ∧ Forall not_stop (rw_log w)) ∧
  (connections (rw_actor w), idle (rw_actor w), mailboxes (rw_actor w), replies (rw_actor w)) =
    (connections r, idle r, mailboxes r, replies r) ∧
  tasks (rw_actor w) ⊆ tasks r.
Proof.
  intros [_ _ Hact Hov _]%run_from_start_inv r. destruct (over (rw_pc w)).
  - destruct (Hov eq_refl) as (Hc & Hev & ts & Hts & ->). by split_and!.
  - destruct (Hact eq_refl) as [-> Hns]. by split_and!.
Qed.
End Run.

(** ** Concrete inputs *)

Module PoolRunDemo.
Import ListChannel PoolActorDemo.

Abbreviation act := (RunActor false 0%Z).
Abbreviation msg i t := (MsgRequest (MkRequestMsg i t)).

(** A request is served; then the pool is closed while the actor waits. *)
Definition demo_run : list (RunLabel (EndpointId := nat)) :=
  [act; RunPost (msg 1 10); act; act; act; act; CloseCall 0; CloseStep 0; CloseStep 0].
(** The task takes the request and ends; the next request for the peer finds its
    mailbox closed and opens another connection. *)
Definition demo_reconnect : list (RunLabel (EndpointId := nat)) :=
  [act; RunPost (msg 1 10); act; act; RunTake 0; RunFinish 1; RunPost (msg 1 11); act; act; act].
(** The task of the request ends, and the actor returns. *)
Definition demo_end : list (RunLabel (EndpointId := nat)) :=
  [RunPost (msg 2 20); act; RunFinish 1; RunActor false 1; act].
(** The pool is closed between the check and the future. *)
Definition demo_window : list (RunLabel (EndpointId := nat)) :=
  [act; CloseCall 0; CloseStep 0; CloseStep 0; act].

Definition demo_world (ls : list (RunLabel (EndpointId := nat)))
  : RunWorld (EndpointId := nat) (ConnectError := unit) :=
  default (MkRunWorld pool_new RunCheck (LChan [] 256 false) [] shutdown_default ∅ [])
    (run_from_start demo_opts ls).

Example demo_runs :
  rw_pc (demo_world (demo_run ++ demo_end)) = RunDone ∧
  rw_pc (demo_world demo_window) = RunSelect 1.
Proof. vm_compute. done. Qed.

Lemma demo_closed ls :
  closed (rw_shutdown (demo_world ls)) = true → rw_closers (demo_world ls) = {[0 := CloseDone]} →
  close_returned (demo_world ls).
Proof. intros Hc E. split; [done|]. intros t. rewrite E, lookup_singleton. by case_decide. Defined.

Lemma close_ends_loop_witness :
  ∃ extra, rw_events (demo_world (demo_run ++ demo_end)) =
    rw_events (demo_world demo_run) ++ extra ∧ still_to_do (demo_world demo_run) extra.
Proof.
  refine (proj1 (close_ends_loop demo_opts demo_run (demo_world demo_run) demo_end
    (demo_world (demo_run ++ demo_end)) _ _ _)); [vm_compute; reflexivity| |vm_compute; reflexivity].
  by apply demo_closed; vm_compute.
Defined.

Lemma missed_close_sleeps_witness :
  asleep (demo_world demo_window) ∧ asleep (demo_world (demo_window ++ [CloseCall 1; CloseStep 1])).
Proof.
  assert (asleep (demo_world demo_window)) as Hw.
  { split; [by apply demo_closed; vm_compute|by vm_compute]. }
  split; [exact Hw|].
  refine (proj1 (missed_close_sleeps demo_opts demo_window (demo_world demo_window)
    [CloseCall 1; CloseStep 1] (demo_world (demo_window ++ [CloseCall 1; CloseStep 1])) _ Hw _ _));
    [vm_compute; reflexivity..|].
  intros msg. by intros [?|[?|?%elem_of_nil]%elem_of_cons]%elem_of_cons.
Defined.

Lemma run_loop_refines_witness :
  let w := demo_world demo_reconnect in
  (rw_actor w = run (ConnectError := unit) demo_opts pool_new (rw_log w) ∧
   Forall not_stop (rw_log w)) ∧
  (slot_generation <$> connections (rw_actor w)) = {[1 := 2%Z]} ∧
  mailboxes (rw_actor w) !! 0 = Some (LChan [] 64 true).
Proof.
  split; [|split; vm_compute; reflexivity].
  refine (proj1 (run_loop_refines demo_opts demo_reconnect (demo_world demo_reconnect) _)).
  vm_compute. reflexivity.
Defined.
End PoolRunDemo.
