(* ===== verification/PoolSystem.v ===== *)
(** * The pool as a system

    Composes the pool actor of [PoolActor] with the connection actors of
    [PoolConn] over the channels of [src/pool.rs]: clients send requests into
    the pool's channel, the pool spawns connection actors and forwards requests
    into their mailboxes, the actors answer and send the pool [Idle] and
    [Shutdown] messages, and all of them interleave. *)
From S2P Require Import Prelude Tokio PoolActor PoolConn.

Section System.
Context {EndpointId : Type} `{Countable EndpointId} `{!Mpsc} {ConnectError : Type}.
Context (opts : PoolOptions).

(** A spawned task of the [JoinSet]: awaiting its connection, or in its loop,
    with the state of the connection itself. *)
Inductive ConnTask :=
  | Connecting (id : EndpointId) (generation : Z)
  | Looping (a : ConnActor EndpointId ConnectError) (conn_closed : bool).

Record System := MkSystem {
  sy_pool : PoolActor EndpointId ConnectError;
  sy_queue : chan (Msg EndpointId);      (** the pool's channel *)
  sy_running : bool;                     (** [PoolActor::run] is in its loop *)
  sy_conns : gmap nat ConnTask;          (** by mailbox *)
  sy_shutdown : Shutdown;
  sy_now : Z;
  (** what the connection actors answered, with the peer of the actor *)
  sy_replies : list (nat * EndpointId * Result (PoolError ConnectError) unit);
  (** requests dropped unanswered with the receiver they waited for, or by a
      failed [conn_tx.send]; their clients see the reply channel close *)
  sy_dropped : list (RequestMsg EndpointId);
}.

(** [Shared::tx] building the runtime. *)
Definition sys_new : option System :=
  q ← mpsc_channel POOL_CHANNEL_CAPACITY;
  Some (MkSystem pool_new q true ∅ shutdown_default 0 [] []).

Inductive SysLabel :=
  | SRequest (req : RequestMsg EndpointId)      (** a client's [tx.send(Request)] *)
  | SInvalidate (id : EndpointId) (generation : Z)  (** a client's [invalidate] *)
  (** the pool handles a message; [raced]: a task it spawns has already ended,
      its receiver dropped, when [conn_tx.send] runs *)
  | SPool (raced : bool)
  | SConnect (c : nat) (o : ConnectOutcome ConnectError)
  | SConn (c : nat) (l : Label EndpointId)      (** a step of a connection's world *)
  | SShutdown                                   (** the last handle is dropped *)
  | SPoolStop                                   (** the pool sees it *)
  | SPoolReturn                                 (** it has joined its tasks *)
  | STick (ms : N).

(** [send().await] by a task that goes on once there is room: [None] while the
    channel is full; a closed channel is ignored. *)
Definition send_msg (msg : Msg EndpointId) (sy : System) : option System :=
  let '(o, q) := try_send msg (sy_queue sy) in
  match o with
  | SendFull => None
  | _ => Some (MkSystem (sy_pool sy) q (sy_running sy) (sy_conns sy) (sy_shutdown sy) (sy_now sy)
                 (sy_replies sy) (sy_dropped sy))
  end.

Fixpoint send_outputs (id : EndpointId) (out : list (Output EndpointId ConnectError))
  (sy : System) : option System :=
  match out with
  | [] => Some sy
  | ToPool msg :: out => sy ← send_msg msg sy; send_outputs id out sy
  | Reply tx r :: out =>
      send_outputs id out
        (MkSystem (sy_pool sy) (sy_queue sy) (sy_running sy) (sy_conns sy) (sy_shutdown sy)
           (sy_now sy) (sy_replies sy ++ [(tx, id, r)]) (sy_dropped sy))
  end.

(** The tasks a handler spawned, in their first state. *)
Definition spawn_new (old : list (Task EndpointId)) (tasks : list (Task EndpointId))
  (conns : gmap nat ConnTask) : gmap nat ConnTask :=
  foldr (λ t, <[task_rx t := Connecting (task_id t) (task_generation t)]>) conns
    (drop (length old) tasks).

Definition conn_label (l : Label EndpointId) : bool :=
  match l with
  | LHead | LSelect _ | LSelectRaced _ | LExit | LDropLease | LRemoteClose => true
  | _ => false
  end.

Definition msg_request (m : Msg EndpointId) : option (RequestMsg EndpointId) :=
  match m with MsgRequest req => Some req | _ => None end.

(** The request that went into a failed [conn_tx.send]. *)
Definition handle_drops (raced : bool) (msg : Msg EndpointId)
  (st st' : PoolActor EndpointId ConnectError) : list (RequestMsg EndpointId) :=
  if raced && (length (tasks st) <? length (tasks st')) then option_list (msg_request msg) else [].

(** The requests in a mailbox whose task exits. *)
Definition exit_drops (l : Label EndpointId) (rx : chan (RequestMsg EndpointId))
  : list (RequestMsg EndpointId) :=
  match l with LExit => queued rx | _ => [] end.

Definition task_over (t : ConnTask) : bool :=
  match t with
  | Looping a _ => match ca_pc a with Stopped _ => true | _ => false end
  | Connecting _ _ => false
  end.

Definition sys_step (sy : System) (l : SysLabel) : option System :=
  match l with
  | SRequest req => send_msg (MsgRequest req) sy
  | SInvalidate id g => send_msg (MsgShutdown id g) sy
  | SPool raced =>
      if sy_running sy then
        '(msg, q) ← recv (sy_queue sy);
        let st := handle opts raced (sy_pool sy) msg in
        Some (MkSystem st q true
                (if raced then sy_conns sy
                 else spawn_new (tasks (sy_pool sy)) (tasks st) (sy_conns sy))
                (sy_shutdown sy) (sy_now sy) (sy_replies sy)
                (sy_dropped sy ++ handle_drops raced msg (sy_pool sy) st))
      else None
  | SConnect c o =>
      match sy_conns sy !! c with
      | Some (Connecting id g) =>
          let '(a, out) := start o id g (sy_now sy) (sy_shutdown sy) in
          send_outputs id out
            (MkSystem (sy_pool sy) (sy_queue sy) (sy_running sy)
               (<[c := Looping a false]> (sy_conns sy)) (sy_shutdown sy) (sy_now sy)
               (sy_replies sy) (sy_dropped sy))
      | _ => None
      end
  | SConn c l =>
      match sy_conns sy !! c, mailboxes (sy_pool sy) !! c with
      | Some (Looping a cc), Some rx =>
          if conn_label l then
            w ← world_step opts (MkWorld a rx 1 (sy_shutdown sy) cc (sy_now sy) []) l;
            send_outputs (ca_id a) (w_out w)
              (MkSystem (set_mailbox c (w_rx w) (sy_pool sy)) (sy_queue sy) (sy_running sy)
                 (<[c := Looping (w_actor w) (w_conn_closed w)]> (sy_conns sy))
                 (sy_shutdown sy) (sy_now sy) (sy_replies sy)
                 (sy_dropped sy ++ exit_drops l rx))
          else None
      | _, _ => None
      end
  | SShutdown =>
      Some (MkSystem (sy_pool sy) (sy_queue sy) (sy_running sy) (sy_conns sy)
              (close (sy_shutdown sy)) (sy_now sy) (sy_replies sy) (sy_dropped sy))
  | SPoolStop =>
      if sy_running sy && is_closed (sy_shutdown sy) then
        Some (MkSystem (run opts (sy_pool sy) [PoolShutdownSeen]) (close_rx (sy_queue sy)) false
                (sy_conns sy) (sy_shutdown sy) (sy_now sy) (sy_replies sy) (sy_dropped sy))
      else None
  | SPoolReturn =>
      if negb (sy_running sy) && bool_decide (map_Forall (λ _ t, task_over t = true) (sy_conns sy))
      then Some (MkSystem (sy_pool sy) (drop_rx (sy_queue sy)) false (sy_conns sy)
                   (sy_shutdown sy) (sy_now sy) (sy_replies sy)
                   (sy_dropped sy ++ omap msg_request (queued (sy_queue sy))))
      else None
  | STick ms =>
      Some (MkSystem (sy_pool sy) (sy_queue sy) (sy_running sy) (sy_conns sy) (sy_shutdown sy)
              (sy_now sy + Z.of_N ms) (sy_replies sy) (sy_dropped sy))
  end.

Fixpoint sys_run (sy : System) (ls : list SysLabel) : option System :=
  match ls with
  | [] => Some sy
  | l :: ls => sy ← sys_step sy l; sys_run sy ls
  end.

(** ** Where the requests are *)

(** The requests clients made in a schedule that the pool's channel took. *)
Fixpoint sent (sy : System) (ls : list SysLabel) : list (RequestMsg EndpointId) :=
  match ls with
  | [] => []
  | l :: ls =>
      match sys_step sy l with
      | None => []
      | Some sy' =>
          match l with
          | SRequest req => if rx_closed (sy_queue sy) then sent sy' ls else req :: sent sy' ls
          | _ => sent sy' ls
          end
      end
  end.

(** In the pool's channel, in a mailbox, refused by the pool, answered by a
    connection actor, or dropped. *)
Definition places (sy : System) : list nat :=
  (req_tx <$> omap msg_request (queued (sy_queue sy))) ++ pending_tokens (sy_pool sy) ++
  ((λ r, r.1.1) <$> sy_replies sy) ++ (req_tx <$> sy_dropped sy).
End System.
Arguments ConnTask : clear implicits.
Arguments System _ {_ _ _} _.
Arguments SysLabel : clear implicits.

(** ** Mailboxes belong to peers *)

Section Routes.
Context {EndpointId : Type} `{Countable EndpointId} `{!Mpsc, !MpscLaws} {ConnectError : Type}.
Context (opts : PoolOptions).
(** The requests that were made. *)
Context (asked : RequestMsg EndpointId → Prop).
Implicit Types (st : PoolActor EndpointId ConnectError) (id : EndpointId) (c : nat)
  (req : RequestMsg EndpointId).

(** [c] is the mailbox of a task for [id]. *)
Definition owner (ts : list (Task EndpointId)) c id : Prop :=
  ∃ t, t ∈ ts ∧ task_rx t = c ∧ task_id t = id.

Record routes_ok st : Prop := {
  ro_slot : ∀ id s, connections st !! id = Some s → owner (tasks st) (slot_tx s) id;
  ro_mail : ∀ c ch req, mailboxes st !! c = Some ch → req ∈ queued ch →
    owner (tasks st) c (req_id req) ∧ asked req;
  ro_fun : ∀ c id id', owner (tasks st) c id → owner (tasks st) c id' → id = id';
  ro_fresh : ∀ c id, owner (tasks st) c id → c < next_chan st;
  ro_open : ∀ c, is_Some (mailboxes st !! c) → c < next_chan st;
  (** a receiver takes its requests with it *)
  ro_closed : ∀ c ch, mailboxes st !! c = Some ch → rx_closed ch = true → queued ch = [];
}.

Lemma owner_app ts t c id : owner ts c id → owner (ts ++ [t]) c id.
Proof. intros (t' & ? & ? & ?). exists t'. split; [set_solver|done]. Qed.

Lemma routes_ok_new : routes_ok pool_new.
Proof.
  split; simpl.
  - intros ?? ?%lookup_empty_Some. done.
  - intros ??? ?%lookup_empty_Some. done.
  - intros c id id' (t & ?%elem_of_nil & _). done.
  - intros c id (t & ?%elem_of_nil & _). done.
  - intros c [? ?%lookup_empty_Some]. done.
  - intros ?? ?%lookup_empty_Some. done.
Qed.

(** Only the slots that stay, the idle queue and the replies change. *)
Lemma routes_ok_shrink st (conns : gmap EndpointId ConnectionSlot) l g r :
  conns ⊆ connections st → routes_ok st →
  routes_ok (MkPoolActor conns l g (tasks st) (mailboxes st) (next_chan st) r).
Proof.
  intros Hsub []. split; simpl; eauto.
  intros id s Hs. eapply ro_slot0, lookup_weaken; eauto.
Qed.

Lemma routes_ok_same st st' :
  connections st' = connections st → tasks st' = tasks st → mailboxes st' = mailboxes st →
  next_chan st' = next_chan st → routes_ok st → routes_ok st'.
Proof. destruct st, st'; simpl. intros -> -> -> -> []. by split. Qed.

Lemma routes_ok_remove_idle st id : routes_ok st → routes_ok (remove_idle id st).
Proof. by apply routes_ok_shrink. Qed.

Lemma routes_ok_delete st id : routes_ok st → routes_ok (set_connections (delete id) st).
Proof. apply routes_ok_shrink, delete_subseteq. Qed.

Lemma evict_loop_subseteq (l : list (EndpointId * Z)) conns b l' conns' :
  evict_loop l conns = (b, l', conns') → conns' ⊆ conns.
Proof.
  induction l as [|[i g] l IH]; simpl; [by intros [= <- <- <-]|].
  case_match; [|done]. intros [= <- <- <-]. apply delete_subseteq.
Qed.

(** A mailbox gets a request of its own peer, or loses some. *)
Lemma routes_ok_set_mailbox st c ch :
  c < next_chan st →
  (∀ req, req ∈ queued ch → owner (tasks st) c (req_id req) ∧ asked req) →
  (rx_closed ch = true → queued ch = []) →
  routes_ok st → routes_ok (set_mailbox c ch st).
Proof.
  intros Hc Hq Hcl []. split; simpl; eauto.
  - intros c' ch' req [[<- <-]|[_ Hch]]%lookup_insert_Some; eauto.
  - intros c'. rewrite lookup_insert_is_Some'. naive_solver.
  - intros c' ch' [[<- <-]|[_ Hch]]%lookup_insert_Some; eauto.
Qed.

Lemma owner_fresh st t c id :
  routes_ok st → task_rx t = next_chan st → owner (tasks st ++ [t]) c id →
  (c < next_chan st ∧ owner (tasks st) c id) ∨ (c = next_chan st ∧ id = task_id t).
Proof.
  intros Hr Ht (t' & [Hin| ->%list_elem_of_singleton]%elem_of_app & <- & <-); [left|by right].
  assert (Ho : owner (tasks st) (task_rx t') (task_id t')) by (by exists t').
  split; [by eapply ro_fresh|done].
Qed.

Lemma routes_ok_start raced st req :
  asked req → routes_ok st → routes_ok (start_connection raced req st).
Proof.
  intros Hask Hr. pose proof (owner_fresh st) as Hof.
  destruct (start_connection_spec raced req st) as
    (ch & ch' & _ & Hq & _ & Hq' & Hopen & ->).
  set (t := MkTask (req_id req) (next_gen st) (next_chan st)).
  assert (Ht : owner (tasks st ++ [t]) (next_chan st) (req_id req)).
  { exists t. split; [set_solver|done]. }
  match goal with |- routes_ok (let st' := ?x in _) => assert (Hr' : routes_ok x) end.
  { destruct Hr as [] eqn:Hreq. split; simpl.
    - intros i s [[<- <-]|[_ Hs]]%lookup_insert_Some; [done|]. eauto using owner_app.
    - intros c ch0 req' [[<- <-]|[_ Hs]]%lookup_insert_Some Hin.
      + destruct raced.
        * rewrite (proj1 (proj2 (close_rx_spec _ ch))), Hq in Hin. by apply elem_of_nil in Hin.
        * rewrite Hq' in Hin. apply list_elem_of_singleton in Hin as ->. done.
      + destruct (ro_mail0 _ _ _ Hs Hin). eauto using owner_app.
    - intros c i i' [[? ?]|[? ->]]%(Hof t) [[? ?]|[? ->]]%(Hof t); try done; eauto; lia.
    - intros c i [[? _]|[-> _]]%(Hof t); try done; lia.
    - intros c. rewrite lookup_insert_is_Some'. intros [<-|Ho%ro_open0]; lia.
    - intros c ch0 [[<- <-]|[_ Hs]]%lookup_insert_Some; [|eauto]. destruct raced; [|congruence].
      by rewrite (proj1 (proj2 (close_rx_spec _ ch))). }
  destruct raced; [|done]. by apply routes_ok_remove_idle, routes_ok_delete.
Qed.

Lemma routes_ok_connect_new raced st req :
  asked req → routes_ok st → routes_ok (connect_new opts raced req st).
Proof.
  intros Hask Hr. unfold connect_new, evict_idle_connection.
  destruct (evict_loop (idle st) (connections st)) as [[b l] conns] eqn:Hev.
  apply evict_loop_subseteq in Hev.
  assert (Hr' : routes_ok (set_idle (λ _, l) (set_connections (λ _, conns) st)))
    by exact (routes_ok_shrink st conns l (next_gen st) (replies st) Hev Hr).
  case_match; [destruct b|]; auto using routes_ok_start.
  by eapply routes_ok_same; [..|done].
Qed.

Lemma routes_ok_handle raced st msg :
  (∀ req, msg_request msg = Some req → asked req) →
  routes_ok st → routes_ok (handle opts raced st msg).
Proof.
  intros Hask Hr. destruct msg as [req|id g|id g]; simpl in *.
  - unfold handle_request. apply (routes_ok_remove_idle _ (req_id req)) in Hr.
    set (st1 := remove_idle _ st) in *.
    destruct (connections st1 !! req_id req) as [slot|] eqn:Hslot;
      [|by apply routes_ok_connect_new; auto].
    destruct (mailboxes st1 !! slot_tx slot) as [ch|] eqn:Hch; [|done].
    destruct (try_send req ch) as [o ch'] eqn:Hts. apply try_send_inv in Hts as [Hts _].
    destruct o.
    + destruct Hts as (Hq & _ & _ & Hopen). apply routes_ok_set_mailbox; [by eapply ro_open| |congruence|done].
      intros req'. rewrite Hq. intros [Hin| ->%list_elem_of_singleton]%elem_of_app.
      * by eapply ro_mail.
      * split; [by eapply ro_slot|auto].
    + by eapply (routes_ok_same st1).
    + by apply routes_ok_connect_new, routes_ok_delete; auto.
  - case_match; [|done]. by eapply (routes_ok_same st).
  - unfold remove_connection_if_match. case_match; [|done].
    by apply routes_ok_remove_idle, routes_ok_delete.
Qed.

(** A handler spawns at most one task, on a fresh mailbox. *)
Lemma start_connection_tasks raced st req :
  tasks (start_connection raced req st) =
  tasks st ++ [MkTask (req_id req) (next_gen st) (next_chan st)].
Proof.
  destruct (start_connection_spec raced req st) as (? & ? & _ & _ & _ & _ & _ & ->).
  by destruct raced.
Qed.

Lemma handle_tasks raced st msg :
  tasks (handle opts raced st msg) = tasks st ∨
  ∃ id g, tasks (handle opts raced st msg) = tasks st ++ [MkTask id g (next_chan st)].
Proof.
  assert (Hnew : ∀ st1 req, tasks st1 = tasks st → next_chan st1 = next_chan st →
    tasks (connect_new opts raced req st1) = tasks st ∨
    ∃ id g, tasks (connect_new opts raced req st1) = tasks st ++ [MkTask id g (next_chan st)]).
  { intros st1 req <- <-. unfold connect_new, evict_idle_connection.
    destruct (evict_loop (idle st1) (connections st1)) as [[b l] conns].
    repeat case_match; simplify_eq; rewrite ?start_connection_tasks; simpl; eauto. }
  destruct msg as [req|id g|id g]; simpl.
  - unfold handle_request. simpl. repeat case_match; simplify_eq; auto.
  - case_match; auto.
  - unfold remove_connection_if_match. case_match; auto.
Qed.
End Routes.

(** ** Conservation of requests *)

Section SystemFacts.
Context {EndpointId : Type} `{Countable EndpointId} `{!Mpsc, !MpscLaws} {ConnectError : Type}.
Context (opts : PoolOptions).
Implicit Types (st : PoolActor EndpointId ConnectError) (sy : System EndpointId ConnectError)
  (req : RequestMsg EndpointId) (l : SysLabel EndpointId ConnectError)
  (out : list (Output EndpointId ConnectError)).

Definition reply_token (o : Output EndpointId ConnectError) : option nat :=
  match o with Reply tx _ => Some tx | ToPool _ => None end.
(** Connection actors send the pool no requests. *)
Definition no_requests out : Prop :=
  ∀ msg, ToPool msg ∈ out → msg_request msg = None.

Lemma handle_pending raced st msg :
  pool_inv opts st →
  let st' := handle opts raced st msg in
  pending_tokens st' ++ (req_tx <$> handle_drops raced msg st st') ≡ₚ
  (req_tx <$> option_list (msg_request msg)) ++ pending_tokens st.
Proof.
  intros Hinv st'. unfold handle_drops, st'. destruct msg as [req|id g|id g].
  - destruct (handle_request_accounted opts raced st req Hinv) as [(-> & _ & Ht)|(-> & -> & Ht)].
    + destruct raced; csimpl; [|by rewrite app_nil_r].
      specialize (Ht eq_refl). simpl in Ht. rewrite Ht, Nat.ltb_irrefl. csimpl.
      by rewrite app_nil_r.
    + rewrite (proj2 (Nat.ltb_lt _ _) Ht). csimpl. by rewrite Permutation_app_comm.
  - assert (pending_tokens (handle opts raced st (MsgIdle id g)) = pending_tokens st) as ->
      by (simpl; by case_match).
    csimpl. by destruct (_ && _); csimpl; rewrite app_nil_r.
  - assert (pending_tokens (handle opts raced st (MsgShutdown id g)) = pending_tokens st) as ->
      by (simpl; unfold remove_connection_if_match; by case_match).
    csimpl. by destruct (_ && _); csimpl; rewrite app_nil_r.
Qed.

Local Ltac solve_no_requests :=
  intros msg Hin; unfold msg_shutdown in Hin; set_unfold in Hin; naive_solver.

(** A step of a connection's world moves requests from its mailbox to its
    replies; its exit drops them. *)
Lemma run_branch_tokens b cc gone now (a a' : ConnActor EndpointId ConnectError) rx rx' out :
  run_branch opts b cc gone now a rx = Some (a', rx', out) →
  (∃ taken, queued rx = taken ++ queued rx' ∧ omap reply_token out = req_tx <$> taken) ∧
  no_requests out ∧ ca_id a' = ca_id a ∧ rx_closed rx' = rx_closed rx.
Proof.
  intros Hr. destruct b; simpl in Hr.
  3: { destruct (recv rx) as [[req rx1]|] eqn:E; [|done].
       apply recv_inv in E as (-> & _ & <-).
       repeat case_match; simplify_option_eq;
         (split; [by exists [req]|split; [|done]]); solve_no_requests. }
  all: repeat case_match; simplify_option_eq;
    (split; [by exists []|split; [|done]]); solve_no_requests.
Qed.

Lemma world_step_tokens a rx s cc now (l : Label EndpointId)
    (w : World EndpointId ConnectError) :
  conn_label l = true →
  world_step opts (MkWorld a rx 1 s cc now []) l = Some w →
  (∃ taken, queued rx = taken ++ queued (w_rx w) ++ exit_drops l rx ∧
     omap reply_token (w_out w) = req_tx <$> taken) ∧
  no_requests (w_out w) ∧ ca_id (w_actor w) = ca_id a ∧
  (rx_closed (w_rx w) = true → rx_closed rx = true ∨ queued (w_rx w) = []).
Proof.
  intros Hl Hs. pose proof (drop_rx_spec rx) as (_ & Hd & _).
  destruct l as [|gone|gone| | |req|n| | |ms]; try done.
  2,3: apply step_select_inv in Hs as (cc' & snap & b & a' & rx' & out & _ & _ & _ & Hr & ->);
    apply run_branch_tokens in Hr as ((taken & Hq & Ho) & ? & ? & Hc); simpl;
    split_and!; [exists taken; by rewrite app_nil_r|done|done|rewrite Hc; auto].
  all: simpl in Hs; repeat case_match; try done; injection Hs as <-; split_and!; simpl;
    rewrite ?Hd; auto; try (exists []; simpl; by rewrite ?app_nil_r);
    solve_no_requests.
Qed.

Lemma send_msg_inv msg sy sy' :
  send_msg msg sy = Some sy' →
  ∃ q, sy' = MkSystem (sy_pool sy) q (sy_running sy) (sy_conns sy) (sy_shutdown sy) (sy_now sy)
               (sy_replies sy) (sy_dropped sy) ∧ rx_closed q = rx_closed (sy_queue sy) ∧
       queued q = queued (sy_queue sy) ++ if rx_closed q then [] else [msg].
Proof.
  unfold send_msg. destruct (try_send msg (sy_queue sy)) as [o q] eqn:Hts.
  apply try_send_inv in Hts as [Hts _]. destruct o; [|done|]; intros [= <-]; exists q.
  - destruct Hts as (-> & _ & -> & ->). done.
  - destruct Hts as [-> ->]. by rewrite app_nil_r.
Qed.

Definition logged (id : EndpointId) (o : Output EndpointId ConnectError)
  : option (nat * EndpointId * Result (PoolError ConnectError) unit) :=
  match o with Reply tx r => Some (tx, id, r) | ToPool _ => None end.

Lemma send_outputs_inv id out sy sy' :
  no_requests out → send_outputs id out sy = Some sy' →
  ∃ q, sy' = MkSystem (sy_pool sy) q (sy_running sy) (sy_conns sy) (sy_shutdown sy) (sy_now sy)
               (sy_replies sy ++ omap (logged id) out) (sy_dropped sy) ∧
       omap msg_request (queued q) = omap msg_request (queued (sy_queue sy)).
Proof.
  revert sy. induction out as [|[msg|tx r] out IH]; intros sy Hno; csimpl.
  - intros [= <-]. exists (sy_queue sy). rewrite app_nil_r. by destruct sy.
  - intros (sy1 & (q & -> & _ & Hq)%send_msg_inv & Hs)%bind_Some.
    apply IH in Hs as (q' & -> & Hq'); [|intros m ?; apply Hno; by right].
    exists q'. split; [done|]. rewrite Hq'. simpl. rewrite Hq, omap_app.
    rewrite <-(app_nil_r (omap msg_request (queued (sy_queue sy)))) at 2. f_equal.
    destruct (rx_closed q); csimpl; [done|]. by rewrite (Hno msg) by left.
  - intros Hs. apply IH in Hs as (q & -> & Hq); [|intros m ?; apply Hno; by right].
    exists q. split; [|done]. simpl. by rewrite <-app_assoc.
Qed.

Lemma logged_tokens id out :
  (λ r : nat * EndpointId * Result (PoolError ConnectError) unit, r.1.1) <$>
    omap (logged id) out = omap reply_token out.
Proof. induction out as [|[msg|tx r] out IH]; csimpl; by rewrite ?IH. Qed.

(** The connection actor of a task, and the peer it is for. *)
Definition conn_peer (t : ConnTask EndpointId ConnectError) : EndpointId :=
  match t with Connecting id _ => id | Looping a _ => ca_id a end.

(** The invariant, with [n] more steps to go. *)
Record sys_ok (asked : RequestMsg EndpointId → Prop) (may_drop : Prop) (n : Z) sy : Prop := {
  so_pool : pool_inv opts (sy_pool sy);
  so_gen : (next_gen (sy_pool sy) + n < u64_max)%Z;
  so_routes : routes_ok asked (sy_pool sy);
  so_conns : ∀ c t, sy_conns sy !! c = Some t → owner (tasks (sy_pool sy)) c (conn_peer t);
  so_queue : ∀ req, req ∈ omap msg_request (queued (sy_queue sy)) → asked req;
  so_replies : ∀ tx id r, (tx, id, r) ∈ sy_replies sy → asked (MkRequestMsg id tx);
  so_dropped : ∀ req, req ∈ sy_dropped sy → may_drop;
}.

(** The steps that drop requests: a connection actor exits, a task ends before
    its request is sent, the pool actor returns. *)
Definition drops (l : SysLabel EndpointId ConnectError) : Prop :=
  l = SPool true ∨ l = SPoolReturn ∨ ∃ c, l = SConn c LExit.

Lemma sys_new_ok asked dr n sy :
  sys_new = Some sy → (0 ≤ max_connections opts)%Z → (1 + n < u64_max)%Z →
  sys_ok asked dr n sy ∧ places sy = [].
Proof.
  unfold sys_new. intros (q & Hq & [= <-])%bind_Some Hm Hn.
  destruct (mpsc_channel_pos (Msg EndpointId) POOL_CHANNEL_CAPACITY) as (q' & Hq' & Hnil & _).
  { unfold POOL_CHANNEL_CAPACITY. lia. }
  rewrite Hq in Hq'. injection Hq' as <-. split.
  - split; simpl; [by apply pool_inv_new|lia|apply routes_ok_new| | | |].
    + by intros c t ?%lookup_empty_Some.
    + rewrite Hnil. by intros ? ?%elem_of_nil.
    + by intros ??? ?%elem_of_nil.
    + by intros ? ?%elem_of_nil.
  - unfold places. simpl. by rewrite Hnil.
Qed.

Lemma spawn_new_lookup (st st' : PoolActor EndpointId ConnectError)
    (conns : gmap nat (ConnTask EndpointId ConnectError)) c t :
  tasks st' = tasks st ∨ (∃ id g, tasks st' = tasks st ++ [MkTask id g (next_chan st)]) →
  (∀ c t, conns !! c = Some t → owner (tasks st) c (conn_peer t)) →
  spawn_new (tasks st) (tasks st') conns !! c = Some t → owner (tasks st') c (conn_peer t).
Proof.
  intros [->|(id & g & ->)] Hc; unfold spawn_new.
  - rewrite drop_all. simpl. eauto.
  - rewrite drop_app_length. simpl. intros [[<- <-]|[_ Hl]]%lookup_insert_Some.
    + exists (MkTask id g (next_chan st)). split; [set_solver|by split].
    + eauto using owner_app.
Qed.

Lemma set_mailbox_ok asked dr n sy c ch0 ch :
  mailboxes (sy_pool sy) !! c = Some ch0 → (∀ req, req ∈ queued ch → req ∈ queued ch0) →
  (rx_closed ch = true → rx_closed ch0 = true ∨ queued ch = []) → sys_ok asked dr n sy →
  pool_inv opts (set_mailbox c ch (sy_pool sy)) ∧ routes_ok asked (set_mailbox c ch (sy_pool sy)).
Proof.
  intros Hc Hq Hcl []. split.
  - apply pool_inv_set_mailbox; [|done]. eapply pi_fresh; [done|]. by rewrite Hc.
  - apply routes_ok_set_mailbox; [eapply ro_open; [done|]; by rewrite Hc| | |done].
    + intros req Hin%Hq. by eapply ro_mail.
    + intros [Ho|?]%Hcl; [|done]. eapply ro_closed in Ho; [|done..].
      destruct (queued ch) as [|x q] eqn:E; [done|]. specialize (Hq x). rewrite Ho in Hq.
      set_solver.
Qed.

Lemma set_mailbox_pending st c ch0 ch taken lost :
  mailboxes st !! c = Some ch0 → queued ch0 = taken ++ queued ch ++ lost →
  pending_tokens st ≡ₚ
    (req_tx <$> taken) ++ pending_tokens (set_mailbox c ch st) ++ (req_tx <$> lost).
Proof.
  intros Hc Hq. unfold pending_tokens, set_mailbox. simpl.
  rewrite <-(map_to_list_delete (mailboxes st) c ch0 Hc).
  rewrite <-insert_delete_eq, map_to_list_insert by apply lookup_delete_eq.
  csimpl. rewrite Hq, !fmap_app, <-!app_assoc. apply Permutation_app_head, Permutation_app_head.
  by rewrite Permutation_app_comm, <-!app_assoc.
Qed.

Lemma sys_step_conn_inv sy c (l : Label EndpointId) sy' :
  sys_step opts sy (SConn c l) = Some sy' →
  ∃ a cc rx (w : World EndpointId ConnectError) q,
    sy_conns sy !! c = Some (Looping a cc) ∧ mailboxes (sy_pool sy) !! c = Some rx ∧
    world_step opts (MkWorld a rx 1 (sy_shutdown sy) cc (sy_now sy) []) l = Some w ∧
    (∃ taken, queued rx = taken ++ queued (w_rx w) ++ exit_drops l rx ∧
       omap reply_token (w_out w) = req_tx <$> taken) ∧
    ca_id (w_actor w) = ca_id a ∧
    (rx_closed (w_rx w) = true → rx_closed rx = true ∨ queued (w_rx w) = []) ∧
    omap msg_request (queued q) = omap msg_request (queued (sy_queue sy)) ∧
    sy' = MkSystem (set_mailbox c (w_rx w) (sy_pool sy)) q (sy_running sy)
            (<[c := Looping (w_actor w) (w_conn_closed w)]> (sy_conns sy)) (sy_shutdown sy)
            (sy_now sy) (sy_replies sy ++ omap (logged (ca_id a)) (w_out w))
            (sy_dropped sy ++ exit_drops l rx).
Proof.
  simpl. destruct (sy_conns sy !! c) as [[id g|a cc]|] eqn:Hc; [done| |done].
  destruct (mailboxes (sy_pool sy) !! c) as [rx|] eqn:Hrx; [|done].
  destruct (conn_label l) eqn:Hl; [|done].
  intros (w & Hw & Hs)%bind_Some.
  destruct (world_step_tokens _ _ _ _ _ _ _ Hl Hw) as (Ht & Hno & Hid & Hcl).
  apply send_outputs_inv in Hs as (q & -> & Hq); [|done].
  by exists a, cc, rx, w, q.
Qed.

(** Taking a message off the pool's channel. *)
Lemma sys_step_pool_inv raced sy sy' :
  sys_step opts sy (SPool raced) = Some sy' →
  ∃ m q, queued (sy_queue sy) = m :: queued q ∧
    sy' = MkSystem (handle opts raced (sy_pool sy) m) q true
            (if raced then sy_conns sy
             else spawn_new (tasks (sy_pool sy)) (tasks (handle opts raced (sy_pool sy) m))
                    (sy_conns sy))
            (sy_shutdown sy) (sy_now sy) (sy_replies sy)
            (sy_dropped sy ++ handle_drops raced m (sy_pool sy) (handle opts raced (sy_pool sy) m)).
Proof.
  simpl. destruct (sy_running sy); [|done].
  intros ([m q] & Hr & [= <-])%bind_Some. apply recv_inv in Hr as (Hq & _). by exists m, q.
Qed.

Lemma sys_step_return_inv sy sy' :
  sys_step opts sy SPoolReturn = Some sy' →
  ∃ q, queued q = [] ∧
    sy' = MkSystem (sy_pool sy) q false (sy_conns sy) (sy_shutdown sy) (sy_now sy) (sy_replies sy)
            (sy_dropped sy ++ omap msg_request (queued (sy_queue sy))).
Proof.
  simpl. destruct (_ && _); [|done]. intros [= <-]. eexists. split; [|done].
  apply drop_rx_spec.
Qed.

Lemma sys_step_places asked dr n sy l sy' :
  sys_ok asked dr n sy → sys_step opts sy l = Some sy' →
  places sy' ≡ₚ (req_tx <$> sent opts sy [l]) ++ places sy.
Proof.
  intros Hok Hs. unfold places. cbn [sent]. rewrite Hs.
  destruct l as [req|id g|raced|c o|c l| | | |ms].
  - simpl in Hs. apply send_msg_inv in Hs as (q & -> & Hcl & Hq). simpl.
    rewrite Hq, <-Hcl, omap_app, fmap_app. destruct (rx_closed q); csimpl; [by rewrite app_nil_r|].
    rewrite <-app_assoc. simpl. by rewrite <-Permutation_middle.
  - simpl in Hs. apply send_msg_inv in Hs as (q & -> & _ & Hq). simpl.
    rewrite Hq, omap_app, fmap_app. by destruct (rx_closed q); csimpl; rewrite app_nil_r.
  - apply sys_step_pool_inv in Hs as (m & q & Hq & ->). simpl. rewrite Hq.
    assert (E : req_tx <$> omap msg_request (m :: queued q) =
      (req_tx <$> option_list (msg_request m)) ++ (req_tx <$> omap msg_request (queued q))).
    { csimpl. by destruct (msg_request m). }
    rewrite E, fmap_app.
    pose proof (handle_pending raced _ m (so_pool _ _ _ _ Hok)) as Hp. cbv zeta in Hp.
    set (D := req_tx <$> handle_drops _ _ _ _) in *. set (P' := pending_tokens _) in *.
    set (P := pending_tokens _) in *. set (M := req_tx <$> option_list _) in *.
    set (Q := req_tx <$> omap _ _). set (R := _ <$> sy_replies sy).
    set (X := req_tx <$> sy_dropped sy).
    transitivity (Q ++ (P' ++ D) ++ R ++ X); [by solve_Permutation|].
    rewrite Hp. by solve_Permutation.
  - simpl in Hs. destruct (sy_conns sy !! c) as [[id g|]|]; [|done..].
    apply send_outputs_inv in Hs as (q & -> & Hq); simpl in *.
    + rewrite Hq, fmap_app, logged_tokens.
      destruct (is_ok (connect_result o)); csimpl; by rewrite app_nil_r.
    + destruct (is_ok (connect_result o)); solve_no_requests.
  - apply sys_step_conn_inv in Hs
      as (a & cc & rx & w & q & Hc & Hrx & _ & (taken & Ht & Hout) & _ & _ & Hq & ->).
    simpl. rewrite Hq, !fmap_app, logged_tokens, Hout, (set_mailbox_pending _ _ _ _ _ _ Hrx Ht).
    by solve_Permutation.
  - injection Hs as <-. done.
  - simpl in Hs. destruct (_ && _); [|done]. injection Hs as <-. simpl.
    by rewrite (proj1 (proj2 (close_rx_spec _ _))).
  - apply sys_step_return_inv in Hs as (q & Hq & ->). simpl. rewrite Hq, fmap_app. csimpl.
    by solve_Permutation.
  - injection Hs as <-. done.
Qed.

Lemma sys_step_ok asked (dr : Prop) n sy l sy' :
  sys_ok asked dr (n + 1) sy → (0 ≤ n)%Z → (∀ req, l = SRequest req → asked req) →
  (drops l → dr) → sys_step opts sy l = Some sy' → sys_ok asked dr n sy'.
Proof.
  intros Hok Hn Hask Hdr Hs. pose proof Hok as [Hp Hg Hr Hc Hq Hrep Hdrop].
  destruct l as [req|id g|raced|c o|c l| | | |ms].
  - simpl in Hs. apply send_msg_inv in Hs as (q & -> & _ & E). split; simpl; try done; [lia|].
    intros req'. rewrite E, omap_app. destruct (rx_closed q); csimpl; set_solver.
  - simpl in Hs. apply send_msg_inv in Hs as (q & -> & _ & E). split; simpl; try done; [lia|].
    intros req'. rewrite E, omap_app. destruct (rx_closed q); csimpl; set_solver.
  - apply sys_step_pool_inv in Hs as (m & q & Eq & ->).
    pose proof (pi_next _ _ Hp). pose proof (handle_next_gen opts raced (sy_pool sy) m ltac:(lia)).
    rewrite Eq in Hq. pose proof (handle_tasks opts raced (sy_pool sy) m) as Hts.
    split; simpl; try done.
    + apply handle_inv; [done|lia].
    + lia.
    + apply routes_ok_handle; [|done]. intros req Hm. apply Hq. csimpl. rewrite Hm. by left.
    + intros c t Hl. destruct raced; [|by eapply spawn_new_lookup].
      destruct Hts as [->|(id & g & ->)]; [eauto|]. apply owner_app; eauto.
    + intros req Hin. apply Hq. csimpl. case_match; [by right|done].
    + intros req [Hin|Hin]%elem_of_app; [eauto|]. unfold handle_drops in Hin.
      destruct raced; [|by apply elem_of_nil in Hin]. apply Hdr. by left.
  - simpl in Hs. destruct (sy_conns sy !! c) as [[id g|]|] eqn:Hci; [|done..].
    apply send_outputs_inv in Hs as (q & -> & E); simpl in *.
    + split; simpl; try done; [lia| |by rewrite E|].
      * intros c' t [[<- <-]|[_ Hl]]%lookup_insert_Some; [|eauto]. apply (Hc _ _ Hci).
      * intros tx i r. destruct (is_ok (connect_result o)); csimpl; rewrite app_nil_r; apply Hrep.
    + destruct (is_ok (connect_result o)); solve_no_requests.
  - apply sys_step_conn_inv in Hs as (a & cc & rx & w & q & Hci & Hrx & _ & Ht & Hid & Hcl & Eq & ->).
    destruct Ht as (taken & Ht & Hout).
    assert (Hmem : ∀ req, req ∈ queued rx → owner (tasks (sy_pool sy)) c (req_id req) ∧ asked req).
    { intros req. by eapply ro_mail. }
    destruct (set_mailbox_ok asked dr (n + 1) sy c rx (w_rx w)) as [Hp' Hr']; [done| |done|done|].
    { intros req Hin. rewrite Ht. set_solver. }
    split; simpl; try done; [lia| |by rewrite Eq| |].
    + intros c' t [[<- <-]|[_ Hl]]%lookup_insert_Some; [|eauto]. simpl. rewrite Hid.
      apply (Hc _ _ Hci).
    + intros tx id r [Hin|Hin]%elem_of_app; [by eapply Hrep|].
      assert (tx ∈ req_tx <$> taken ∧ id = ca_id a) as [Htx ->].
      { rewrite <-Hout. apply list_elem_of_omap in Hin as ([msg|tx' r'] & Hin & E); simplify_eq/=.
        split; [|done]. apply list_elem_of_omap. by exists (Reply tx r). }
      apply list_elem_of_fmap in Htx as (req & -> & Hin').
      destruct (Hmem req) as [Ho Ha]; [rewrite Ht; set_solver|].
      pose proof (ro_fun _ _ Hr _ _ _ (Hc _ _ Hci) Ho) as E. simpl in E. rewrite E. by destruct req.
    + intros req [Hin|Hin]%elem_of_app; [eauto|]. apply Hdr. right; right. exists c.
      by destruct l; try by apply elem_of_nil in Hin.
  - injection Hs as <-. split; simpl; try done. lia.
  - simpl in Hs. destruct (_ && _); [|done]. injection Hs as <-. simpl.
    split; simpl; try done.
    + by apply pool_inv_clear.
    + lia.
    + apply (routes_ok_shrink _ (sy_pool sy)); [apply map_empty_subseteq|done].
    + by rewrite (proj1 (proj2 (close_rx_spec _ _))).
  - apply sys_step_return_inv in Hs as (q & Eq & ->). split; simpl; try done; [lia| |].
    + rewrite Eq. by intros req ?%elem_of_nil.
    + intros _ _. apply Hdr. right; by left.
  - injection Hs as <-. split; simpl; try done. lia.
Qed.

Lemma sys_run_ok asked (dr : Prop) ls sy sy' :
  sys_ok asked dr (Z.of_nat (length ls)) sy → (∀ req, SRequest req ∈ ls → asked req) →
  (∀ l, l ∈ ls → drops l → dr) → sys_run opts sy ls = Some sy' →
  sys_ok asked dr 0 sy' ∧ places sy' ≡ₚ (req_tx <$> sent opts sy ls) ++ places sy.
Proof.
  revert sy. induction ls as [|l ls IH]; intros sy Hok Hask Hdr; csimpl.
  { by intros [= <-]. }
  simpl length in Hok. intros (sy1 & Hs & Hrun)%bind_Some.
  pose proof (sys_step_places _ _ _ _ _ _ Hok Hs) as Hfl.
  destruct (IH sy1) as [Hok' Hfl']; [|set_solver|set_solver|done|].
  { replace (Z.of_nat (S (length ls))) with (Z.of_nat (length ls) + 1)%Z in Hok by lia.
    eapply sys_step_ok; eauto; [lia| |].
    - intros req ->. apply Hask. by left.
    - intros Hl. apply (Hdr l); [by left|done]. }
  split; [done|]. rewrite Hfl', Hfl. cbn [sent]. rewrite Hs.
  destruct l; csimpl; try done. destruct (rx_closed _); [done|].
  csimpl. by rewrite <-Permutation_middle.
Qed.


(** *** A failed connection when the pool is closed *)

(** What the invariant of a connection actor says does not depend on its
    mailbox, the pool or the clock. *)
Lemma conn_inv_env a rx n s cc now out rx' n' s' now' :
  conn_inv (MkWorld a rx n s cc now out) → conn_inv (MkWorld (ConnectError := ConnectError)
    (EndpointId := EndpointId) a rx' n' s' cc now' []).
Proof. intros []. split; try done. by intros tx ?%elem_of_nil. Qed.

(** The actor seen as a world of its own. *)
Definition actor_world (a : ConnActor EndpointId ConnectError) (cc : bool)
  (rx : chan (RequestMsg EndpointId)) sy : World EndpointId ConnectError :=
  MkWorld a rx 1 (sy_shutdown sy) cc (sy_now sy) [].

Definition conns_ok sy : Prop :=
  ∀ c a cc rx, sy_conns sy !! c = Some (Looping a cc) → conn_inv (actor_world a cc rx sy).

Lemma send_outputs_same id out sy sy' :
  send_outputs id out sy = Some sy' →
  sy_conns sy' = sy_conns sy ∧ sy_shutdown sy' = sy_shutdown sy.
Proof.
  revert sy. induction out as [|[msg|tx r] out IH]; intros sy; simpl.
  - by intros [= <-].
  - intros (sy1 & Hs & ?%IH)%bind_Some. unfold send_msg in Hs.
    destruct (try_send msg (sy_queue sy)) as [[] q]; simplify_eq; done.
  - by intros ?%IH.
Qed.

Lemma spawn_new_looping (old ts : list (Task EndpointId))
    (conns : gmap nat (ConnTask EndpointId ConnectError)) c a cc :
  spawn_new old ts conns !! c = Some (Looping a cc) → conns !! c = Some (Looping a cc).
Proof.
  unfold spawn_new. induction (drop _ ts) as [|t l IH]; simpl; [done|].
  intros [[_ ?]|[_ Hl]]%lookup_insert_Some; [done|by apply IH].
Qed.

(** A step of one actor, or a step that concerns no actor. *)
Lemma sys_step_actors sy l sy' c a' cc' :
  sys_step opts sy l = Some sy' → sy_conns sy' !! c = Some (Looping a' cc') →
  sy_conns sy !! c = Some (Looping a' cc') ∨
  (∃ o id g, (a', cc') = ((start o id g (sy_now sy) (sy_shutdown sy)).1, false)) ∨
  (∃ a cc rx lc w, l = SConn c lc ∧ sy_conns sy !! c = Some (Looping a cc) ∧
     world_step opts (actor_world a cc rx sy) lc = Some w ∧
     a' = w_actor w ∧ cc' = w_conn_closed w ∧ sy_shutdown sy' = sy_shutdown sy).
Proof.
  intros Hs Hl. destruct l as [req|id g|raced|c' o|c' lc| | | |ms]; simpl in Hs.
  - apply send_msg_inv in Hs as (q & -> & _). by left.
  - apply send_msg_inv in Hs as (q & -> & _). by left.
  - apply (sys_step_pool_inv raced) in Hs as (m & q & _ & ->). left. simpl in Hl.
    destruct raced; [done|by eapply spawn_new_looping].
  - destruct (sy_conns sy !! c') as [[id g|]|]; [|done..].
    apply send_outputs_same in Hs as [E _]. simpl in E. rewrite E in Hl.
    apply lookup_insert_Some in Hl as [[_ [= <- <-]]|[_ Hl]]; [|by left].
    right; left. by exists o, id, g.
  - destruct (sy_conns sy !! c') as [[id g|a cc]|] eqn:Hc; [done| |done].
    destruct (mailboxes (sy_pool sy) !! c') as [rx|]; [|done].
    destruct (conn_label lc); [|done]. apply bind_Some in Hs as (w & Hw & Hs).
    apply send_outputs_same in Hs as [E Es]. simpl in E, Es. rewrite E in Hl.
    apply lookup_insert_Some in Hl as [[-> [= <- <-]]|[_ Hl]]; [|by left].
    right; right. by exists a, cc, rx, lc, w.
  - injection Hs as <-. by left.
  - destruct (_ && _); [|done]. injection Hs as <-. by left.
  - destruct (_ && _); [|done]. injection Hs as <-. by left.
  - injection Hs as <-. by left.
Qed.

Lemma conns_ok_run ls sy sy' : conns_ok sy → sys_run opts sy ls = Some sy' → conns_ok sy'.
Proof.
  revert sy. induction ls as [|l ls IH]; intros sy Hok; simpl; [by intros [= <-]|].
  intros (sy1 & Hs & Hrun)%bind_Some. apply (IH sy1); [|done]. intros c a' cc' rx' Hl.
  destruct (sys_step_actors _ _ _ _ _ _ Hs Hl) as [Hc|[(o & id & g & [= -> ->])|Hw]].
  - eapply (conn_inv_env _ _ _ _ _ _ _), (Hok _ _ _ rx' Hc).
  - eapply (conn_inv_env _ _ _ _ _ _ _), (conn_inv_start o id g (sy_now sy) (sy_shutdown sy) rx').
  - destruct Hw as (a & cc & rx & lc & w & _ & Hc & Hw & -> & -> & _).
    apply (conn_inv_step opts) in Hw; [|by eapply Hok].
    destruct w. by eapply conn_inv_env.
Qed.

(** The task of [c] is the actor of a failed connection, past help. *)
Definition strands (c : nat) (e : PoolError ConnectError) sy : Prop :=
  ∃ a cc, sy_conns sy !! c = Some (Looping a cc) ∧ ∀ rx,
    conn_inv (actor_world a cc rx sy) ∧ failed_with e (actor_world a cc rx sy) ∧
    stranded (actor_world a cc rx sy).

Lemma strands_step asked dr n sy l sy' c e :
  sys_ok asked dr n sy → strands c e sy → sys_step opts sy l = Some sy' → strands c e sy'.
Proof.
  intros Hok (a & cc & Hc & Hst) Hs.
  assert (Hsame : ∀ sy', closed (sy_shutdown sy) = true →
    sy_shutdown sy' = sy_shutdown sy → sy_conns sy' !! c = sy_conns sy !! c → strands c e sy').
  { intros sy1 _ Es Ec. exists a, cc. rewrite Ec. split; [done|]. intros rx.
    destruct (Hst rx) as (Hinv & Hf & Hsd). split_and!; [by eapply conn_inv_env|done|].
    unfold stranded, actor_world in *. simpl in *. by rewrite Es. }
  assert (Hcl : closed (sy_shutdown sy) = true).
  { destruct (mpsc_channel_pos (RequestMsg EndpointId) 1) as (rx & _); [lia|].
    by destruct (Hst rx) as (_ & _ & ? & _). }
  specialize (Hsame sy' Hcl). destruct l as [req|id g|raced|c' o|c' lc| | | |ms].
  - simpl in Hs. apply send_msg_inv in Hs as (q & -> & _). by apply Hsame.
  - simpl in Hs. apply send_msg_inv in Hs as (q & -> & _). by apply Hsame.
  - apply sys_step_pool_inv in Hs as (m & q & _ & ->). apply Hsame; [done|]. simpl.
    destruct raced; [done|]. unfold spawn_new.
    assert (Hlt : c < next_chan (sy_pool sy)).
    { eapply ro_fresh; [apply Hok|]. by eapply so_conns. }
    destruct (handle_tasks opts false (sy_pool sy) m) as [->|(id & g & ->)];
      [by rewrite drop_all|]. rewrite drop_app_length. simpl.
    rewrite lookup_insert_ne; [done|]. simpl. lia.
  - simpl in Hs. destruct (sy_conns sy !! c') as [[id g|]|] eqn:Hc'; [|done..].
    apply send_outputs_same in Hs as [E Es]. simpl in E, Es. apply Hsame; [done|].
    rewrite E, lookup_insert_ne; [done|congruence].
  - destruct (decide (c' = c)) as [->|Hne].
    + simpl in Hs. rewrite Hc in Hs.
      destruct (mailboxes (sy_pool sy) !! c) as [rx|]; [|done].
      destruct (conn_label lc) eqn:Hlc; [|done]. apply bind_Some in Hs as (w & Hw & Hs).
      apply send_outputs_same in Hs as [E Es]. simpl in E, Es.
      destruct (Hst rx) as (Hinv & Hf & Hsd).
      exists (w_actor w), (w_conn_closed w). rewrite E, lookup_insert_eq. split; [done|].
      assert (Hws : w_shutdown w = sy_shutdown sy).
      { destruct lc; try done; simpl in Hw; unfold select_step in Hw; repeat case_match;
          simplify_option_eq; repeat case_match; simplify_eq; done. }
      pose proof (conn_inv_step opts _ _ _ Hinv Hw) as Hinv'.
      pose proof (failed_step opts _ _ _ _ Hinv Hf Hw) as Hf'.
      pose proof (stranded_step opts _ _ _ _ Hinv Hf Hsd Hw) as Hsd'.
      intros rx'. destruct w. split_and!; [by eapply conn_inv_env| |].
      * split; [apply Hf'|by intros tx r ?%elem_of_nil].
      * unfold stranded, actor_world in *. simpl in *. by rewrite Es, <-Hws.
    + simpl in Hs. destruct (sy_conns sy !! c') as [[id g|a' cc']|]; [done| |done].
      destruct (mailboxes (sy_pool sy) !! c') as [rx|]; [|done].
      destruct (conn_label lc); [|done]. apply bind_Some in Hs as (w & Hw & Hs).
      apply send_outputs_same in Hs as [E Es]. simpl in E, Es. apply Hsame; [done|].
      by rewrite E, lookup_insert_ne.
  - injection Hs as <-. by apply Hsame; [apply close_closed|].
  - simpl in Hs. destruct (_ && _); [|done]. injection Hs as <-. by apply Hsame.
  - simpl in Hs. destruct (_ && _); [|done]. injection Hs as <-. by apply Hsame.
  - injection Hs as <-. by apply Hsame.
Qed.

Lemma strands_run asked dr ls sy sy' c e :
  sys_ok asked dr (Z.of_nat (length ls)) sy → (∀ req, SRequest req ∈ ls → asked req) →
  (∀ l, l ∈ ls → drops l → dr) → strands c e sy → sys_run opts sy ls = Some sy' →
  strands c e sy'.
Proof.
  revert sy. induction ls as [|l ls IH]; intros sy Hok Hask Hdr Hst; simpl; [by intros [= <-]|].
  simpl length in Hok. intros (sy1 & Hs & Hrun)%bind_Some.
  apply (IH sy1); [|set_solver|set_solver|by eapply strands_step|done].
  replace (Z.of_nat (S (length ls))) with (Z.of_nat (length ls) + 1)%Z in Hok by lia.
  eapply sys_step_ok; eauto; [lia| |].
  - intros req ->. apply Hask. by left.
  - intros Hl. apply (Hdr l); [by left|done].
Qed.

Lemma sys_run_app ls ls' sy :
  sys_run opts sy (ls ++ ls') = sy1 ← sys_run opts sy ls; sys_run opts sy1 ls'.
Proof.
  revert sy. induction ls as [|l ls IH]; intros sy; simpl; [done|].
  destruct (sys_step opts sy l); simpl; auto.
Qed.

(** C35: a failed connection can keep the pool's actor from ever returning: if a
    connection actor whose attempt failed is between iterations when the pool is
    closed, then however the system goes on that actor never ends, and
    [PoolActor::run], which joins it, never returns (while fewer than 2^64 steps
    are made). *)
Theorem stranded_pool_never_returns sy0 ls sy c a cc e ls' sy' :
  sys_new = Some sy0 → (0 ≤ max_connections opts)%Z →
  (1 + Z.of_nat (length ls + length ls') < u64_max)%Z → sys_run opts sy0 ls = Some sy →
  sy_conns sy !! c = Some (Looping a cc) → ca_connection a = Err e → ca_pc a = AtHead →
  closed (sy_shutdown sy) = true → sys_run opts sy ls' = Some sy' →
  sys_step opts sy' SPoolReturn = None ∧
  ∃ a' cc', sy_conns sy' !! c = Some (Looping a' cc') ∧ ca_connection a' = Err e ∧
    ¬ stopped a'.
Proof.
  intros Hnew Hm Hlen Hrun Hc He Hpc Hcl Hrun'.
  destruct (sys_new_ok (λ _, True) True (Z.of_nat (length ls + length ls')) _ Hnew Hm Hlen)
    as [Hok _].
  assert (Hok' : sys_ok (λ _, True) True (Z.of_nat (length ls')) sy).
  { clear -Hok Hrun H1. revert sy0 Hok Hrun. induction ls as [|l ls IH]; intros sy0 Hok; simpl.
    - by intros [= <-].
    - intros (sy1 & Hs & Hrun)%bind_Some. apply (IH sy1); [|done].
      replace (Z.of_nat (length (l :: ls) + length ls'))
        with (Z.of_nat (length ls + length ls') + 1)%Z in Hok by (simpl; lia).
      eapply sys_step_ok; eauto. lia. }
  assert (Hst : strands c e sy).
  { exists a, cc. split; [done|]. intros rx. split_and!.
    - eapply conns_ok_run; [|done|done]. unfold sys_new in Hnew.
      apply bind_Some in Hnew as (q & _ & [= <-]). by intros ????.
    - split; [done|]. by intros ?? ?%elem_of_nil.
    - split; [done|by left]. }
  eapply strands_run in Hst as (a' & cc' & Hc' & Hw); [|done|done|done|done].
  destruct (mpsc_channel_pos (RequestMsg EndpointId) 1) as (rx & _); [lia|].
  destruct (Hw rx) as (_ & [He' _] & _ & Hpc'). simpl in He', Hpc'.
  assert (Hns : ¬ stopped a').
  { intros [Hr|[r Hr]]; destruct Hpc'; congruence. }
  split; [|eauto]. simpl. destruct (negb _ && _) eqn:E; [|done].
  apply andb_true_iff in E as [_ E%bool_decide_eq_true].
  specialize (E c _ Hc'). simpl in E. destruct Hpc' as [Hx|Hx]; by rewrite Hx in E.
Qed.
End SystemFacts.

(** ** Concrete inputs *)

Module PoolSystemDemo.
Import ListChannel.

(** One connection at most, kept for ten seconds. *)
Definition demo_opts : PoolOptions := MkPoolOptions 10000 5000 1.
Definition label : Type := SysLabel nat unit.
Definition demo_new : System nat unit :=
  default (MkSystem pool_new (LChan [] 0 true) false ∅ shutdown_default 0 [] []) sys_new.
Definition turn (c : nat) : list label := [SConn c LHead; SConn c (LSelect (λ _, false))].

(** Peer 7 is leased and released; its actor reports it idle. *)
Definition idle_peer : list label :=
  [SRequest (MkRequestMsg 7 1); SPool false; SConnect 0 Connected] ++ turn 0 ++
  [SConn 0 LDropLease] ++ turn 0 ++ [SPool false].
(** Peer 8 takes its place while the actor of peer 7 still holds its
    connection: two connections live under a limit of one. *)
Definition evicting : list label :=
  idle_peer ++ [SRequest (MkRequestMsg 8 2); SPool false; SConnect 1 Connected] ++ turn 1.
(** The idle timer of peer 7 fires; before the pool hears of it, it forwards
    another request for peer 7, and the actor's exit drops it. *)
Definition racing : list label :=
  idle_peer ++ [STick 10000; SConn 0 LHead; SRequest (MkRequestMsg 7 3);
                SConn 0 (LSelect (λ _, false)); SPool false; SPool false; SConn 0 LExit].
Definition demo_sys (ls : list label) : System nat unit :=
  default demo_new (sys_run demo_opts demo_new ls).

Definition live (t : ConnTask nat unit) : bool :=
  match t with
  | Looping a _ => connected a && match ca_pc a with Stopped _ => false | _ => true end
  | Connecting _ _ => false
  end.

Example eviction_exceeds_limit :
  let sy := demo_sys evicting in
  size (connections (sy_pool sy)) = 1 ∧
  (live <$> sy_conns sy) = {[0 := true; 1 := true]} ∧
  sy_replies sy = [(1, 7, Ok tt); (2, 8, Ok tt)].
Proof. vm_compute. auto. Qed.

(** The dropped request was refused by nobody: its client sees the reply channel
    close, which [get_or_connect] reports as a pool that is shut down. *)
Example idle_close_drops_request :
  let sy := demo_sys racing in
  closed (sy_shutdown sy) = false ∧ sy_replies sy = [(1, 7, Ok tt)] ∧
  replies (sy_pool sy) = [] ∧ connections (sy_pool sy) = ∅ ∧
  mailboxes (sy_pool sy) !! 0 = Some (LChan [] 64 true) ∧
  sy_dropped sy = [MkRequestMsg 7 3].
Proof. vm_compute. split_and!; reflexivity. Qed.

(** The task spawned for peer 9 ends before the request is sent to it: the slot
    is taken back, and the request dropped. *)
Definition failed_send : list label :=
  [SRequest (MkRequestMsg 9 4); SPool true].
Example failed_send_drops_request :
  let sy := demo_sys failed_send in
  connections (sy_pool sy) = ∅ ∧ replies (sy_pool sy) = [] ∧
  sy_dropped sy = [MkRequestMsg 9 4].
Proof. vm_compute. auto. Qed.


(** The attempt to connect to peer 7 times out after the pool was closed. *)
Definition failing : list label :=
  [SRequest (MkRequestMsg 7 1); SPool false; SShutdown; SConnect 0 ConnectElapsed].
Lemma stranded_pool_never_returns_witness :
  let sy := demo_sys (failing ++ SPoolStop :: turn 0) in
  sys_step demo_opts sy SPoolReturn = None ∧ sy_running sy = false ∧
  sy_replies sy = [(1, 7, Err PoolTimeout)].
Proof.
  split; [|vm_compute; split; reflexivity].
  refine (proj1 (stranded_pool_never_returns demo_opts demo_new failing (demo_sys failing) 0
    (MkConnActor 7 1 (Err PoolTimeout) counter_new false 0 true AtHead) false PoolTimeout
    (SPoolStop :: turn 0) (demo_sys (failing ++ SPoolStop :: turn 0)) _ _ _ _ _ _ _ _ _)).
  2,3: vm_compute; first [reflexivity|discriminate].
  all: vm_compute; reflexivity.
Defined.
End PoolSystemDemo.
