(* ===== verification/PoolShared.v ===== *)
(** * Handles, and the start and stop of the pool runtime

    Models [Shared] and the [Drop] of [ConnectionPool] in [src/pool.rs]: the
    runtime is started lazily by the first caller of [Shared::tx], whichever
    threads call it concurrently, and shut down by the last handle.  Threads
    interleave at the accesses to the [OnceLock], the mutex, the closed flag and
    the reference count. *)
From S2P Require Import Prelude PoolActor PoolConn.

(** ** [Shared::tx] *)

Section Shared.
Context {ConnectError : Type}.

(** The program counter of a caller. *)
Inductive TxPc :=
  | TxStart               (** before the first [is_closed] *)
  | TxFirstGet            (** before the first [runtime.get] *)
  | TxLock                (** before [runtime_init.lock] *)
  | TxRecheck             (** holding the lock, before the second [is_closed] *)
  | TxSecondGet           (** holding the lock, before the second [runtime.get] *)
  | TxSpawn               (** holding the lock, before [PoolActor::new] and [spawn] *)
  | TxSet (tx : nat)      (** holding the lock, before [runtime.set] *)
  | TxDone (r : Result (PoolError ConnectError) nat)
  | TxPanicked.           (** [expect] on a second initialisation *)

(** [runtime]: the sender in the [OnceLock]; a sender is named by the actor it
    was created with, the [spawned]-th. *)
Record Shared := MkShared {
  runtime : option nat;
  runtime_init : option nat;     (** the thread holding the mutex *)
  sh_shutdown : Shutdown;
  spawned : nat;
  callers : gmap nat TxPc;
}.

(** [Shared::new] *)
Definition shared_new : Shared := MkShared None None shutdown_default 0 ∅.

Inductive SharedLabel :=
  | TxCall (t : nat)      (** thread [t] calls [tx] *)
  | TxStep (t : nat)      (** thread [t] takes its next step *)
  | SharedClose.          (** [Shared::shutdown] *)

Definition holds_lock (pc : TxPc) : bool :=
  match pc with TxRecheck | TxSecondGet | TxSpawn | TxSet _ => true | _ => false end.

Definition goto (t : nat) (pc : TxPc) (s : Shared) : Shared :=
  MkShared (runtime s) (runtime_init s) (sh_shutdown s) (spawned s) (<[t := pc]> (callers s)).
(** Leaving [tx] drops the guard. *)
Definition unlock (s : Shared) : Shared :=
  MkShared (runtime s) None (sh_shutdown s) (spawned s) (callers s).

Definition tx_step (s : Shared) (t : nat) : option Shared :=
  pc ← callers s !! t;
  match pc with
  | TxStart =>
      Some (goto t (if is_closed (sh_shutdown s) then TxDone (Err PoolShutdown) else TxFirstGet) s)
  | TxFirstGet =>
      Some (goto t (match runtime s with Some tx => TxDone (Ok tx) | None => TxLock end) s)
  | TxLock =>
      match runtime_init s with
      | Some _ => None           (* blocked *)
      | None =>
          Some (goto t TxRecheck
                  (MkShared (runtime s) (Some t) (sh_shutdown s) (spawned s) (callers s)))
      end
  | TxRecheck =>
      Some (if is_closed (sh_shutdown s) then unlock (goto t (TxDone (Err PoolShutdown)) s)
            else goto t TxSecondGet s)
  | TxSecondGet =>
      Some (match runtime s with
            | Some tx => unlock (goto t (TxDone (Ok tx)) s)
            | None => goto t TxSpawn s
            end)
  | TxSpawn =>
      Some (goto t (TxSet (spawned s))
              (MkShared (runtime s) (runtime_init s) (sh_shutdown s) (S (spawned s)) (callers s)))
  | TxSet tx =>
      match runtime s with
      | Some _ => Some (unlock (goto t TxPanicked s))
      | None =>
          Some (unlock (goto t (TxDone (Ok tx))
                  (MkShared (Some tx) (runtime_init s) (sh_shutdown s) (spawned s) (callers s))))
      end
  | TxDone _ | TxPanicked => None
  end.

Definition shared_step (s : Shared) (l : SharedLabel) : option Shared :=
  match l with
  | TxCall t =>
      match callers s !! t with
      | Some (TxDone _) | None => Some (goto t TxStart s)
      | _ => None
      end
  | TxStep t => tx_step s t
  | SharedClose =>
      Some (MkShared (runtime s) (runtime_init s) (close (sh_shutdown s)) (spawned s) (callers s))
  end.

Fixpoint shared_run (s : Shared) (ls : list SharedLabel) : option Shared :=
  match ls with
  | [] => Some s
  | l :: ls => s ← shared_step s l; shared_run s ls
  end.

(** *** The invariant *)

(** What a caller at [pc] knows. *)
Definition caller_ok (s : Shared) (t : nat) (pc : TxPc) : Prop :=
  (holds_lock pc = true → runtime_init s = Some t) ∧
  match pc with
  | TxSpawn => runtime s = None ∧ spawned s = 0
  | TxSet tx => runtime s = None ∧ spawned s = 1 ∧ tx = 0
  | TxDone (Ok tx) => runtime s = Some 0 ∧ tx = 0
  | TxDone (Err e) => e = PoolShutdown ∧ closed (sh_shutdown s) = true
  | TxPanicked => False
  | _ => True
  end.

Record shared_inv (s : Shared) : Prop := {
  si_callers : ∀ t pc, callers s !! t = Some pc → caller_ok s t pc;
  (** the runtime is the first actor's, and there is no other *)
  si_runtime : ∀ tx, runtime s = Some tx → tx = 0 ∧ spawned s = 1;
  (** an actor without a published sender is being published *)
  si_spawned : runtime s = None → spawned s = 0 ∨
    ∃ t tx, callers s !! t = Some (TxSet tx) ∧ spawned s = 1;
}.

Lemma shared_inv_new : shared_inv shared_new.
Proof. split; simpl; [by intros t pc ?%lookup_empty_Some|done|by left]. Qed.

(** A step of one thread leaves the others' knowledge intact when it does not
    disturb what they read. *)
Lemma caller_ok_mono s s' t pc :
  (holds_lock pc = true → runtime_init s' = runtime_init s ∧ runtime s' = runtime s ∧
     spawned s' = spawned s) →
  (∀ tx, runtime s = Some tx → runtime s' = Some tx) →
  (closed (sh_shutdown s) = true → closed (sh_shutdown s') = true) →
  caller_ok s t pc → caller_ok s' t pc.
Proof.
  intros Hl Hr Hc [Hlock Hpc]. split.
  - intros Hh. destruct (Hl Hh) as (-> & _). auto.
  - destruct pc as [| | | | | |tx|[tx|e]|]; simpl in *; try done.
    + by destruct (Hl eq_refl) as (_ & -> & ->).
    + by destruct (Hl eq_refl) as (_ & -> & ->).
    + destruct Hpc. auto.
    + destruct Hpc. auto.
Qed.

(** Another thread does not hold the lock while [t] does, or nobody does. *)
Lemma other_unlocked s t t' pc' :
  shared_inv s → runtime_init s = Some t ∨ runtime_init s = None → t' ≠ t →
  callers s !! t' = Some pc' → holds_lock pc' = false.
Proof.
  intros Hinv Hl Hne Hpc'. destruct (holds_lock pc') eqn:E; [|done].
  destruct (si_callers _ Hinv _ _ Hpc') as [Hh _]. specialize (Hh E).
  destruct Hl; congruence.
Qed.

(** Moving thread [t] from [pc0] to [pc]: what it changes besides is what the
    holder of the lock may change. *)
Lemma shared_inv_move s t pc0 pc r l sp :
  shared_inv s → callers s !! t = Some pc0 →
  (r = runtime s ∧ l = runtime_init s ∧ sp = spawned s) ∨
    runtime_init s = Some t ∨ runtime_init s = None →
  (∀ tx, runtime s = Some tx → r = Some tx) →
  caller_ok (MkShared r l (sh_shutdown s) sp (<[t := pc]> (callers s))) t pc →
  (∀ tx, r = Some tx → tx = 0 ∧ sp = 1) →
  (r = None → sp = 0 ∨ (∃ tx, pc = TxSet tx ∧ sp = 1) ∨
     (sp = spawned s ∧ ∀ tx, pc0 ≠ TxSet tx)) →
  shared_inv (MkShared r l (sh_shutdown s) sp (<[t := pc]> (callers s))).
Proof.
  intros Hinv Ht Hch Hmono Hown Hr Hs. split; simpl; auto.
  - intros t' pc' [[<- <-]|[Hne Hl]]%lookup_insert_Some; [done|].
    eapply caller_ok_mono; [..|by apply (si_callers _ Hinv)]; simpl; auto.
    intros Hh. destruct Hch as [(-> & -> & ->)|Hlock]; [done|].
    assert (holds_lock pc' = false) by (by eapply other_unlocked). congruence.
  - intros Hn. destruct (Hs Hn) as [|[(tx & -> & ->)|[-> Hne]]]; [by left| |].
    + right. exists t, tx. by rewrite lookup_insert_eq.
    + destruct (runtime s) as [tx|] eqn:Hrt; [by rewrite (Hmono tx) in Hn|].
      destruct (si_spawned _ Hinv Hrt) as [|(t' & tx & Ht' & E)]; [by left|right].
      exists t', tx. split; [|done]. rewrite lookup_insert_ne; [done|].
      intros <-. rewrite Ht in Ht'. injection Ht' as ->. by apply (Hne tx).
Qed.

Lemma tx_step_inv s t s' : shared_inv s → tx_step s t = Some s' → shared_inv s'.
Proof.
  intros Hinv. unfold tx_step. intros (pc & Hpc & Hs)%bind_Some.
  destruct (si_callers _ Hinv _ _ Hpc) as [Hlock Hown].
  pose proof (si_runtime _ Hinv) as Hrt.
  pose proof (λ pc, shared_inv_move s t _ pc (runtime s) (runtime_init s) (spawned s) Hinv Hpc)
    as Hstay.
  pose proof (λ pc r l sp, shared_inv_move s t _ pc r l sp Hinv Hpc) as Hmove.
  destruct pc as [| | | | | |tx|r|]; simpl in Hs, Hlock, Hown; [..|done|done].
  - injection Hs as <-. apply Hstay; auto; try (by right; right).
    unfold caller_ok. by destruct (is_closed (sh_shutdown s)) eqn:E.
  - injection Hs as <-. apply Hstay; auto; try (by right; right).
    unfold caller_ok. simpl. destruct (runtime s) as [tx|] eqn:E; [|done].
    by destruct (Hrt tx) as [-> _].
  - destruct (runtime_init s) eqn:Hl; [done|]. injection Hs as <-.
    apply Hmove; auto; try (by right; right); by split.
  - injection Hs as <-. specialize (Hlock eq_refl).
    destruct (is_closed (sh_shutdown s)) eqn:E.
    + apply Hmove; auto; try (by right; right); by split.
    + apply Hstay; auto; try (by right; right); by split.
  - injection Hs as <-. specialize (Hlock eq_refl).
    destruct (runtime s) as [tx|] eqn:E.
    + destruct (Hrt tx eq_refl) as [-> Esp].
      apply (Hmove (TxDone (Ok 0)) (runtime s)); rewrite ?E; auto; try (by right; right).
      by split.
    + apply (Hmove TxSpawn (runtime s)); rewrite ?E; auto; try (by right; right).
      split; [done|]. simpl. split; [done|].
      destruct (si_spawned _ Hinv E) as [|(t' & tx & Ht' & _)]; [done|exfalso].
      destruct (decide (t' = t)) as [->|Hne]; [congruence|].
      by pose proof (other_unlocked s t t' _ Hinv (or_introl Hlock) Hne Ht').
  - injection Hs as <-. specialize (Hlock eq_refl). destruct Hown as [E Esp]. rewrite Esp.
    apply Hmove; auto; rewrite ?E; try done.
    intros _. right; left. by exists 0.
  - specialize (Hlock eq_refl). destruct Hown as (E & Esp & ->). rewrite E in Hs.
    injection Hs as <-. apply Hmove; auto; simpl; try (rewrite E; done); try done.
    by intros tx [= <-].
Qed.

Lemma shared_step_inv s l s' : shared_inv s → shared_step s l = Some s' → shared_inv s'.
Proof.
  intros Hinv. destruct l as [t|t|]; simpl.
  - intros Hs. assert (Hfree : ∀ tx, callers s !! t ≠ Some (TxSet tx)).
    { intros tx E. by rewrite E in Hs. }
    assert (s' = goto t TxStart s) as ->.
    { repeat case_match; congruence. }
    split; simpl.
    + intros t' pc [[<- <-]|[_ Hl]]%lookup_insert_Some; [done|]. by apply (si_callers _ Hinv).
    + apply Hinv.
    + intros Hn. destruct (si_spawned _ Hinv Hn) as [|(t' & tx & Ht' & E)]; [by left|right].
      exists t', tx. split; [|done]. rewrite lookup_insert_ne; [done|]. intros <-. by apply (Hfree tx).
  - by apply tx_step_inv.
  - intros [= <-]. split; simpl; try apply Hinv. intros t pc Hpc.
    eapply caller_ok_mono; [..|by apply (si_callers _ Hinv)]; simpl; auto.
    intros Hc. by rewrite (close_closed _ Hc).
Qed.

Lemma shared_run_inv ls s s' : shared_inv s → shared_run s ls = Some s' → shared_inv s'.
Proof.
  revert s. induction ls as [|l ls IH]; intros s Hinv; simpl; [by intros [= <-]|].
  intros (s1 & Hs & Hr)%bind_Some. eauto using shared_step_inv.
Qed.

(** C32: whatever the interleaving of its callers and of the shutdown, the pool
    starts at most one actor; every call of [tx] that succeeds returns that
    actor's sender, one that fails does so because the pool was closed, and
    the second initialisation that [expect] guards against never happens. *)
Theorem runtime_started_once ls s :
  shared_run shared_new ls = Some s →
  spawned s ≤ 1 ∧ ∀ t pc, callers s !! t = Some pc →
    match pc with
    | TxDone (Ok tx) => runtime s = Some tx ∧ spawned s = 1
    | TxDone (Err e) => e = PoolShutdown ∧ closed (sh_shutdown s) = true
    | TxPanicked => False
    | _ => True
    end.
Proof.
  intros Hinv%shared_run_inv; [|apply shared_inv_new]. split.
  - destruct (runtime s) as [tx|] eqn:E.
    + destruct (si_runtime _ Hinv _ E). lia.
    + destruct (si_spawned _ Hinv E) as [|(_ & _ & _ & ?)]; lia.
  - intros t pc [_ Hc]%(si_callers _ Hinv). destruct pc as [| | | | | | |[tx|e]|]; try done.
    destruct Hc as [E ->]. split; [done|]. by destruct (si_runtime _ Hinv _ E).
Qed.

(** A caller that comes after the shutdown is refused, runtime or not. *)
Lemma tx_after_close s t :
  closed (sh_shutdown s) = true → callers s !! t = Some TxStart →
  tx_step s t = Some (goto t (TxDone (Err PoolShutdown)) s).
Proof. intros Hc Ht. unfold tx_step. rewrite Ht. simpl. unfold is_closed. by rewrite Hc. Qed.
End Shared.
Arguments TxPc : clear implicits.
Arguments Shared : clear implicits.

(** ** The handles and their [Drop] *)

(** A [ConnectionPool] handle: alive, or past the body of its [drop] with its
    [Arc] still to be released. *)
Inductive HandlePc := HAlive | HDropping.
#[export] Instance HandlePc_eq_dec : EqDecision HandlePc.
Proof. solve_decision. Defined.

Record Handles := MkHandles { handles : gmap nat HandlePc; h_shutdown : Shutdown }.

(** [ConnectionPool::new] *)
Definition handles_new : Handles := MkHandles {[0 := HAlive]} shutdown_default.
Definition strong_count (s : Handles) : nat := size (handles s).

Inductive HandleLabel :=
  | HClone (h h' : nat)
  | HDrop (h : nat)          (** the body of [Drop::drop] *)
  | HRelease (h : nat).      (** the [Arc] field is dropped *)

Definition handle_step (s : Handles) (l : HandleLabel) : option Handles :=
  match l with
  | HClone h h' =>
      match handles s !! h, handles s !! h' with
      | Some HAlive, None => Some (MkHandles (<[h' := HAlive]> (handles s)) (h_shutdown s))
      | _, _ => None
      end
  | HDrop h =>
      match handles s !! h with
      | Some HAlive =>
          Some (MkHandles (<[h := HDropping]> (handles s))
                  (if strong_count s =? 1 then close (h_shutdown s) else h_shutdown s))
      | _ => None
      end
  | HRelease h =>
      match handles s !! h with
      | Some HDropping => Some (MkHandles (delete h (handles s)) (h_shutdown s))
      | _ => None
      end
  end.

Fixpoint handle_run (s : Handles) (ls : list HandleLabel) : option Handles :=
  match ls with
  | [] => Some s
  | l :: ls => s ← handle_step s l; handle_run s ls
  end.

(** One handle after another: each drop runs to its end. *)
Inductive HandleOp := OpClone (h h' : nat) | OpDrop (h : nat).
Definition op_labels (op : HandleOp) : list HandleLabel :=
  match op with OpClone h h' => [HClone h h'] | OpDrop h => [HDrop h; HRelease h] end.

Definition handles_inv (s : Handles) : Prop :=
  closed (h_shutdown s) = true → ∀ h, handles s !! h ≠ Some HAlive.

Lemma handle_step_inv s l s' : handles_inv s → handle_step s l = Some s' → handles_inv s'.
Proof.
  intros Hinv. destruct l as [h h'|h|h]; simpl; intros Hs.
  - destruct (handles s !! h) as [[]|] eqn:Hh; try done.
    destruct (handles s !! h') eqn:Hh'; [done|]. injection Hs as <-.
    intros Hc. by destruct (Hinv Hc h).
  - destruct (handles s !! h) as [[]|] eqn:Hh; try done. injection Hs as <-.
    intros Hc i. simpl in *. destruct (decide (i = h)) as [->|Hne].
    { by rewrite lookup_insert_eq. }
    rewrite lookup_insert_ne by done.
    destruct (Nat.eqb_spec (strong_count s) 1) as [E|E]; [|by apply Hinv].
    unfold strong_count in E. intros Hi.
    assert (Hsz : size (delete h (handles s)) = 0) by (rewrite map_size_delete, Hh; simpl; lia).
    apply map_size_empty_inv in Hsz.
    assert (Hd : delete h (handles s) !! i = Some HAlive) by (by rewrite lookup_delete_ne).
    by rewrite Hsz, lookup_empty in Hd.
  - destruct (handles s !! h) as [[]|] eqn:Hh; try done. injection Hs as <-.
    intros Hc i. simpl. intros [_ Hi]%lookup_delete_Some. by apply (Hinv Hc i).
Qed.

Lemma handle_run_inv ls s s' : handles_inv s → handle_run s ls = Some s' → handles_inv s'.
Proof.
  revert s. induction ls as [|l ls IH]; intros s Hinv; simpl; [by intros [= <-]|].
  intros (s1 & Hs & Hr)%bind_Some. eauto using handle_step_inv.
Qed.

Lemma handle_run_app ls1 ls2 s :
  handle_run s (ls1 ++ ls2) = s' ← handle_run s ls1; handle_run s' ls2.
Proof.
  revert s. induction ls1 as [|l ls1 IH]; intros s; simpl; [done|].
  destruct (handle_step s l); simpl; auto.
Qed.

(** Between whole operations every handle is alive, and the pool is shut down
    exactly when none is left. *)
Definition settled (s : Handles) : Prop :=
  (∀ h pc, handles s !! h = Some pc → pc = HAlive) ∧
  (closed (h_shutdown s) = true ↔ handles s = ∅).

Lemma op_settled op s s' :
  settled s → handle_run s (op_labels op) = Some s' → settled s'.
Proof.
  intros [Hal Hcl]. destruct op as [h h'|h]; simpl.
  - destruct (handles s !! h) as [[]|] eqn:Hh; try done.
    destruct (handles s !! h') eqn:Hh'; [done|]. simpl. intros [= <-]. split; simpl.
    + intros i pc [[_ <-]|[_ Hi]]%lookup_insert_Some; [done|eauto].
    + rewrite Hcl. split; intros E; [by rewrite E, lookup_empty in Hh|].
      by apply insert_non_empty in E.
  - destruct (handles s !! h) as [[]|] eqn:Hh; try done. simpl.
    rewrite lookup_insert_eq. simpl. intros [= <-]. unfold settled. simpl.
    rewrite delete_insert_eq. split.
    + intros i pc [_ Hi]%lookup_delete_Some. eauto.
    + assert (Hn : closed (h_shutdown s) ≠ true).
      { intros E%Hcl. by rewrite E, lookup_empty in Hh. }
      assert (Hsz : size (delete h (handles s)) = strong_count s - 1).
      { unfold strong_count. rewrite map_size_delete, Hh. simpl. lia. }
      assert (strong_count s ≠ 0) by (apply map_size_ne_0_lookup_2 with h; eauto).
      destruct (Nat.eqb_spec (strong_count s) 1) as [E|E].
      * split; intros _; [apply map_size_empty_inv; lia|].
        unfold close. by destruct (closed (h_shutdown s)) eqn:?.
      * split; [done|]. intros E0. rewrite E0, map_size_empty in Hsz. lia.
Qed.

(** C33: dropping handles never shuts the pool down under a live handle, however
    clones and drops interleave; and when no two drops overlap, the pool is
    shut down exactly when the last handle is gone. *)
Theorem drop_shuts_down_last s :
  (∀ ls, handle_run handles_new ls = Some s →
     closed (h_shutdown s) = true → ∀ h, handles s !! h ≠ Some HAlive) ∧
  (∀ ops, handle_run handles_new (concat (op_labels <$> ops)) = Some s →
     (closed (h_shutdown s) = true ↔ handles s = ∅)).
Proof.
  split.
  - intros ls Hr. by apply (handle_run_inv ls handles_new).
  - assert (Hnew : settled handles_new).
    { split; simpl.
      - intros h pc [_ <-]%lookup_singleton_Some. done.
      - split; [done|]. intros E. by apply map_non_empty_singleton in E. }
    intros ops. revert Hnew. generalize handles_new.
    induction ops as [|op ops IH]; intros s0 Hs0; csimpl; [by intros [= <-]; apply Hs0|].
    rewrite handle_run_app. intros (s1 & H1 & H2)%bind_Some. eauto using op_settled.
Qed.

(** ** Concrete inputs *)

Module PoolSharedDemo.

(** Two callers race through [tx]; both get the sender of the one actor. *)
Definition two_callers : list SharedLabel :=
  [TxCall 1; TxCall 2; TxStep 1; TxStep 2; TxStep 1; TxStep 2; TxStep 1; TxStep 1; TxStep 1;
   TxStep 1; TxStep 1; TxStep 2; TxStep 2; TxStep 2].

Example shared_demo :
  (λ s : Shared unit, (spawned s, callers s)) <$> shared_run shared_new two_callers =
  Some (1, {[1 := TxDone (Ok 0); 2 := TxDone (Ok 0)]}).
Proof. vm_compute. reflexivity. Qed.

Lemma runtime_started_once_witness :
  spawned (default shared_new (shared_run (@shared_new unit) two_callers)) ≤ 1.
Proof.
  refine (proj1 (runtime_started_once two_callers _ _)). vm_compute. reflexivity.
Defined.

Lemma drop_shuts_down_last_witness :
  closed (h_shutdown (MkHandles ∅ (close shutdown_default))) = true ↔
  handles (MkHandles ∅ (close shutdown_default)) = ∅.
Proof.
  refine (proj2 (drop_shuts_down_last _) [OpClone 0 1; OpDrop 0; OpDrop 1] _).
  vm_compute. reflexivity.
Defined.

(** Two handles dropped at the same time both see a count of two: nobody shuts
    the pool down. *)
Example concurrent_drops_leak :
  handle_run handles_new [HClone 0 1; HDrop 0; HDrop 1; HRelease 0; HRelease 1] =
  Some (MkHandles ∅ shutdown_default).
Proof. vm_compute. reflexivity. Qed.
End PoolSharedDemo.
