(* ===== verification/Errors.v ===== *)
(** * Errors

    Models [src/error.rs] and the translations of QUIC errors into I/O errors in
    [src/stream.rs] and [src/client.rs].  Of the foreign error types only the
    variants the code tells apart are kept, without their payloads. *)
From S2P Require Import Prelude PoolActor.

(** The [std::io::ErrorKind]s the crate produces. *)
Inductive ErrorKind :=
  | KBrokenPipe | KConnectionAborted | KNotConnected | KOther | KUnsupported | KInvalidData
  | KConnectionReset | KTimedOut | KPermissionDenied | KConnectionRefused.
#[export] Instance ErrorKind_eq_dec : EqDecision ErrorKind.
Proof. solve_decision. Defined.

(** iroh's [WriteError], [ConnectionError] and [ConnectingError]. *)
Inductive WriteError := WStopped | WConnectionLost | WClosedStream | WZeroRttRejected.
Inductive ConnectionError :=
  | VersionMismatch | TransportError | ConnectionClosed | ApplicationClosed | Reset | TimedOut
  | LocallyClosed | CidsExhausted.
Inductive ConnectingError :=
  | CeConnectionError (source : ConnectionError)
  | CeHandshakeFailure
  | CeOther.                     (** the enum is [#[non_exhaustive]] *)

Section Errors.
Context {ConnectError : Type}.

(** What an [io::Error] carries. *)
Inductive IoSource :=
  | FromWrite (e : WriteError)
  | FromConnection (e : ConnectionError)
  | FromConnecting (e : ConnectingError)
  | FromConnect (e : ConnectError)
  | FromPool (e : PoolError ConnectError)
  | FromMessage (msg : string).
Record IoError := MkIoError { io_kind : ErrorKind; io_source : IoSource }.

(** [std::io::Error::other] *)
Definition io_other (s : IoSource) : IoError := MkIoError KOther s.

Definition write_error_to_io (e : WriteError) : IoError :=
  MkIoError
    match e with
    | WStopped => KBrokenPipe
    | WConnectionLost => KConnectionAborted
    | WClosedStream => KNotConnected
    | WZeroRttRejected => KOther
    end (FromWrite e).

Definition connection_error_to_io (e : ConnectionError) : IoError :=
  MkIoError
    match e with
    | VersionMismatch => KUnsupported
    | TransportError => KInvalidData
    | ConnectionClosed => KConnectionAborted
    | ApplicationClosed | Reset => KConnectionReset
    | TimedOut => KTimedOut
    | LocallyClosed => KNotConnected
    | CidsExhausted => KOther
    end (FromConnection e).

Definition connecting_error_to_io (e : ConnectingError) : IoError :=
  match e with
  | CeConnectionError source => connection_error_to_io source
  | CeHandshakeFailure => MkIoError KPermissionDenied (FromConnecting e)
  | CeOther => io_other (FromConnecting e)
  end.

(** The crate's [Error], with the foreign errors [#[from]] wraps that its own
    code produces. *)
Inductive Error :=
  | ErrH2 (msg : string)
  | ErrIo (e : IoError)
  | ErrConnection (msg : string)
  | ErrAddressLookupMetadata (msg : string)
  | ErrDhtDiscovery (msg : string)
  | ErrPool (e : PoolError ConnectError).

Definition error_connection (msg : string) : Error := ErrConnection msg.
Definition error_address_lookup_metadata (msg : string) : Error := ErrAddressLookupMetadata msg.
Definition error_dht_discovery (msg : string) : Error := ErrDhtDiscovery msg.

(** The poll results of [AsyncWrite] and [AsyncRead]. *)
Inductive IoPoll (E A : Type) := IoReady (r : Result E A) | IoPending.
Arguments IoReady {E A} r.
Arguments IoPending {E A}.

(** [poll_write] of [IrohStream] and of [PooledStream], over the send stream's. *)
Definition poll_write (p : IoPoll WriteError Z) : IoPoll IoError Z :=
  match p with
  | IoReady (Ok n) => IoReady (Ok n)
  | IoReady (Err e) => IoReady (Err (write_error_to_io e))
  | IoPending => IoPending
  end.
End Errors.
Arguments IoSource : clear implicits.
Arguments IoError : clear implicits.
Arguments Error : clear implicits.
