(* ===== verification/PoolClient.v ===== *)
(** * The client side of the pool

    Models [ConnectionRef], [ConnectionPool::get_or_connect], [invalidate],
    [open_stream] and [channel] of [src/pool.rs].  What the pool replies, and whether a stream opens, may
    differ at every attempt and is a parameter. *)
From S2P Require Import Prelude PoolActor Errors.

Section Client.
Context {EndpointId : Type} {ConnectError : Type}.

(** The lease: the peer and generation it was handed out under. *)
Record ConnectionRef := MkConnectionRef { ref_id : EndpointId; ref_generation : Z }.

Abbreviation Perr := (PoolError ConnectError).

(** What becomes of one request. *)
Inductive RequestOutcome :=
  | SendRejected                        (** [tx.send] failed *)
  | ReplyDropped                        (** the reply channel was dropped *)
  | Replied (r : Result Perr ConnectionRef).

Definition request_result (o : RequestOutcome) : Result Perr ConnectionRef :=
  match o with
  | SendRejected | ReplyDropped => Err PoolShutdown
  | Replied r => r
  end.

(** [Err(PoolError::Closed) if attempt + 1 < OPEN_STREAM_RETRIES] *)
Definition retries (attempt : nat) (o : RequestOutcome) : bool :=
  match o with
  | Replied (Err PoolClosed) => S attempt <? OPEN_STREAM_RETRIES
  | _ => false
  end.

(** [for attempt in 0..OPEN_STREAM_RETRIES], with the number of requests made. *)
Fixpoint request_loop (request : nat → RequestOutcome) (attempt remaining : nat)
  : Result Perr ConnectionRef * nat :=
  match remaining with
  | O => (Err PoolClosed, 0)
  | S remaining =>
      if retries attempt (request attempt)
      then let '(r, n) := request_loop request (S attempt) remaining in (r, S n)
      else (request_result (request attempt), 1)
  end.

(** [shared_tx]: how [Shared::tx] ended. *)
Definition get_or_connect (shared_tx : Result Perr unit) (request : nat → RequestOutcome)
  : Result Perr ConnectionRef * nat :=
  match shared_tx with
  | Err e => (Err e, 0)
  | Ok _ => request_loop request 0 OPEN_STREAM_RETRIES
  end.

(** The environment of an attempt. *)
Record Attempt := MkAttempt {
  at_tx : Result Perr unit;
  at_request : nat → RequestOutcome;
  at_open_bi : ConnectionRef → Result ConnectionError unit;
}.

(** The messages [invalidate] sends. *)
Definition invalidate (shared_tx : Result Perr unit) (r : ConnectionRef) : list ConnectionRef :=
  if is_ok shared_tx then [r] else [].

(** The errors of [open_stream]: a stream that would not open, and the fallback
    for a loop that made no attempt. *)
Definition aborted (err : ConnectionError) : IoError ConnectError :=
  MkIoError KConnectionAborted (FromConnection err).
Definition no_attempt : IoError ConnectError :=
  MkIoError KConnectionAborted (FromMessage "failed to open stream on pooled connection").

(** The loop of [open_stream] and what follows it; the stream keeps the lease.
    The result comes with the generations invalidated on the way. *)
Fixpoint open_loop (env : nat → Attempt) (attempt remaining : nat)
  (last_error : option (IoError ConnectError)) : Result (IoError ConnectError) ConnectionRef * list ConnectionRef :=
  match remaining with
  | O => (Err (default no_attempt last_error), [])
  | S remaining =>
      match (get_or_connect (at_tx (env attempt)) (at_request (env attempt))).1 with
      | Err e => (Err (io_other (FromPool e)), [])
      | Ok conn_ref =>
          match at_open_bi (env attempt) conn_ref with
          | Ok _ => (Ok conn_ref, [])
          | Err err =>
              let sent := invalidate (at_tx (env attempt)) conn_ref in
              if S attempt =? OPEN_STREAM_RETRIES
              then (Err (aborted err), sent)
              else
                let '(r, more) := open_loop env (S attempt) remaining (Some (aborted err)) in
                (r, sent ++ more)
          end
      end
  end.

Definition open_stream (env : nat → Attempt)
  : Result (IoError ConnectError) ConnectionRef * list ConnectionRef :=
  open_loop env 0 OPEN_STREAM_RETRIES None.

(** [channel]: the stream, then the HTTP/2 handshake over it. *)
Definition channel {Ch : Type} (env : nat → Attempt)
  (handshake : ConnectionRef → Result (Error ConnectError) Ch) : Result (Error ConnectError) Ch :=
  match (open_stream env).1 with
  | Err e => Err (ErrIo e)
  | Ok pooled_stream => handshake pooled_stream
  end.

(** ** Theorems *)

(** A request to the pool is made once, and once more exactly when the
    answer was that the connection closed before reuse; the caller gets the
    answer to the last request, and a pool that is gone reads as shut down. *)
Lemma get_or_connect_spec shared_tx request :
  get_or_connect shared_tx request =
  match shared_tx with
  | Err e => (Err e, 0)
  | Ok _ =>
      match request 0 with
      | Replied (Err PoolClosed) => (request_result (request 1), 2)
      | first => (request_result first, 1)
      end
  end.
Proof.
  unfold get_or_connect. destruct shared_tx as [|e]; [|done]. simpl.
  destruct (request 0) as [| |[r|[]]]; simpl; try done.
  by destruct (request 1) as [| |[r|[]]].
Qed.

(** The pool handle was not shut down during attempt [i]. *)
Lemma get_or_connect_Ok shared_tx request r n :
  get_or_connect shared_tx request = (Ok r, n) → is_ok shared_tx = true.
Proof. by destruct shared_tx. Qed.

(** The lease attempt [i] got, if any, and whether a stream opened on it. *)
Definition attempt_ref (env : nat → Attempt) (i : nat) : Result Perr ConnectionRef :=
  (get_or_connect (at_tx (env i)) (at_request (env i))).1.

(** A stream is opened in at most two attempts: the second is made exactly
    when the first got a lease on which no stream would open.  Every such lease
    is reported to the pool under its own generation, and the error returned is
    the pool's or that of the last attempt. *)
Lemma open_stream_spec env :
  open_stream env =
  match attempt_ref env 0 with
  | Err e => (Err (io_other (FromPool e)), [])
  | Ok r0 =>
      match at_open_bi (env 0) r0 with
      | Ok _ => (Ok r0, [])
      | Err _ =>
          match attempt_ref env 1 with
          | Err e => (Err (io_other (FromPool e)), [r0])
          | Ok r1 =>
              match at_open_bi (env 1) r1 with
              | Ok _ => (Ok r1, [r0])
              | Err e1 => (Err (aborted e1), [r0; r1])
              end
          end
      end
  end.
Proof.
  unfold open_stream, attempt_ref, OPEN_STREAM_RETRIES. simpl.
  assert (Hinv : ∀ i r, (get_or_connect (at_tx (env i)) (at_request (env i))).1 = Ok r →
    invalidate (at_tx (env i)) r = [r]).
  { intros i r E. unfold invalidate.
    destruct (get_or_connect _ _) as [r' n] eqn:Eg. simpl in E. subst r'.
    by rewrite (get_or_connect_Ok _ _ _ _ Eg). }
  destruct (get_or_connect (at_tx (env 0)) _).1 as [r0|e0] eqn:E0; [|done].
  destruct (at_open_bi (env 0) r0); [done|]. rewrite (Hinv _ _ E0).
  destruct (get_or_connect (at_tx (env 1)) _).1 as [r1|e1] eqn:E1; [|done].
  destruct (at_open_bi (env 1) r1); [done|]. by rewrite (Hinv _ _ E1).
Qed.
End Client.
Arguments ConnectionRef : clear implicits.
Arguments Attempt : clear implicits.
