(* ===== verification/Locator.v ===== *)
(** * The locator

    Models [src/swarm/locator.rs]: a task that races connection attempts to the
    peers a stream yields, at most [max_inflight] at a time, and delivers every
    outcome over a bounded channel.  A run is a list of steps of the task, of
    its environment and of the receiver, in any interleaving. *)
From S2P Require Import Prelude Iroh Tokio PoolActor Errors Discovery.

(** Durations in milliseconds. *)
Record LocatorConfig := MkLocatorConfig {
  max_inflight : nat;
  timeout_each : Z;
  timeout : option Z;
  limit : nat;
}.
Definition LocatorConfig_default : LocatorConfig := MkLocatorConfig 8 2000 None 4.

Section Locator.
Context `{!IrohKeys, !Mpsc} {ConnectError Ch : Type}.
(** [format!("connection timed out after {timeout:?}")] *)
Context (timed_out_message : Z → string).
(** [pool.channel(id)] under [time::timeout]; [None]: the timeout elapsed. *)
Context (pool_channel : EndpointId → option (Result (Error ConnectError) Ch)).

Abbreviation Err' := (Error ConnectError).
Abbreviation Res := (Result Err' Ch).

(** The future [push_attempt] pushes. *)
Definition attempt (cfg : LocatorConfig) (p : Peer) : Res :=
  match pool_channel (peer_id p) with
  | None => Err (error_connection (timed_out_message (timeout_each cfg)))
  | Some r => r
  end.

(** [LocatorState], the items its stream has left to yield, the channel, and
    what the receiver has taken from it. *)
Record LocatorState := MkLocatorState {
  lo_peers : list (Result Err' Peer);
  inflight : list Peer;
  stream_exhausted : bool;
  lo_tx : chan Res;
  lo_received : list Res;
  lo_done : bool;                     (** the task has ended *)
}.

(** [spawn_with_pool]; [None]: [mpsc::channel] panics. *)
Definition spawn_with_pool (peers : list (Result Err' Peer)) (cfg : LocatorConfig)
  : option LocatorState :=
  tx ← mpsc_channel (limit cfg);
  Some (MkLocatorState peers [] false tx [] false).

Definition can_discover (cfg : LocatorConfig) (st : LocatorState) : bool :=
  negb (stream_exhausted st) && (length (inflight st) <? max_inflight cfg).
Definition has_inflight (st : LocatorState) : bool :=
  negb (bool_decide (inflight st = [])).

Definition push_attempt (p : Peer) (st : LocatorState) : LocatorState :=
  MkLocatorState (lo_peers st) (inflight st ++ [p]) (stream_exhausted st) (lo_tx st)
    (lo_received st) (lo_done st).

Inductive LocatorLabel :=
  | LoBreak              (** nothing to discover, nothing in flight *)
  | LoAttempt (n : nat)  (** the [n]-th attempt in flight completes *)
  | LoPeer               (** [peers.next()] *)
  | LoTimeout            (** the overall timeout *)
  | LoRecv               (** the receiver takes a result *)
  | LoDrop.              (** [Locator::drop]: abort, and the receiver is gone *)

(** The steps of the loop itself. *)
Definition loop_label (l : LocatorLabel) : bool :=
  match l with LoBreak | LoAttempt _ | LoPeer => true | _ => false end.

Definition loop_step (cfg : LocatorConfig) (st : LocatorState) (l : LocatorLabel)
  : option LocatorState :=
  match l with
  | LoBreak =>
      if negb (can_discover cfg st) && negb (has_inflight st)
      then Some (MkLocatorState (lo_peers st) (inflight st) (stream_exhausted st) (lo_tx st)
                   (lo_received st) true)
      else None
  | LoAttempt n =>
      p ← inflight st !! n;
      let '(o, tx) := try_send (attempt cfg p) (lo_tx st) in
      let st' done := MkLocatorState (lo_peers st) (delete n (inflight st)) (stream_exhausted st)
                        tx (lo_received st) done in
      match o with
      | SendOk => Some (st' false)
      | SendFull => None          (* waits for room *)
      | SendClosed => Some (st' true)
      end
  | LoPeer =>
      if can_discover cfg st then
        match lo_peers st with
        | Ok p :: peers =>
            Some (push_attempt p
                    (MkLocatorState peers (inflight st) (stream_exhausted st) (lo_tx st)
                       (lo_received st) false))
        | Err e :: peers =>
            let '(o, tx) := try_send (Err e) (lo_tx st) in
            match o with
            | SendFull => None
            | _ => Some (MkLocatorState peers (inflight st) (stream_exhausted st) tx
                           (lo_received st) false)
            end
        | [] =>
            Some (MkLocatorState [] (inflight st) true (lo_tx st) (lo_received st) false)
        end
      else None
  | _ => None
  end.

(** The receiver's [poll_next], when a result is there. *)
Definition locator_poll_next (st : LocatorState) : option LocatorState :=
  '(r, tx) ← recv (lo_tx st);
  Some (MkLocatorState (lo_peers st) (inflight st) (stream_exhausted st) tx
          (lo_received st ++ [r]) (lo_done st)).
(** [drop] aborts the task; the receiver goes with the locator. *)
Definition locator_drop (st : LocatorState) : LocatorState :=
  MkLocatorState (lo_peers st) (inflight st) (stream_exhausted st)
    (close_rx (lo_tx st)) (lo_received st) true.
#[local] Arguments locator_poll_next _ /.

Definition locator_step (cfg : LocatorConfig) (st : LocatorState) (l : LocatorLabel)
  : option LocatorState :=
  match l with
  | LoBreak | LoAttempt _ | LoPeer => if lo_done st then None else loop_step cfg st l
  | LoTimeout =>
      match timeout cfg with
      | Some _ => Some (MkLocatorState (lo_peers st) (inflight st) (stream_exhausted st) (lo_tx st)
                          (lo_received st) true)
      | None => None
      end
  | LoRecv => locator_poll_next st
  | LoDrop => Some (locator_drop st)
  end.

Fixpoint locator_run (cfg : LocatorConfig) (st : LocatorState) (ls : list LocatorLabel)
  : option LocatorState :=
  match ls with
  | [] => Some st
  | l :: ls => st ← locator_step cfg st l; locator_run cfg st ls
  end.

(** [first], over everything the channel yields until it ends. *)
Fixpoint first_loop (received : list Res) (last_error : option Err') : Res :=
  match received with
  | [] => Err (default (error_connection "no peers reachable") last_error)
  | Ok channel :: _ => Ok channel
  | Err err :: received => first_loop received (Some err)
  end.
Definition first (received : list Res) : Res := first_loop received None.

(** ** Facts *)

(** What an item of the stream leads to. *)
Definition outcome (cfg : LocatorConfig) (item : Result Err' Peer) : Res :=
  match item with
  | Ok p => attempt cfg p
  | Err e => Err e
  end.

Definition delivered (st : LocatorState) : list Res := lo_received st ++ queued (lo_tx st).

(** Loop steps left at most. *)
Definition fuel (st : LocatorState) : nat :=
  2 * length (lo_peers st) + length (inflight st) + (if stream_exhausted st then 0 else 1) +
  (if lo_done st then 0 else 1).
End Locator.
Arguments LocatorState {_ _} _ _.

Section LocatorFacts.
Context `{!IrohKeys, !Mpsc, !MpscLaws} {ConnectError Ch : Type}.
Context (timed_out_message : Z → string).
Context (pool_channel : EndpointId → option (Result (Error ConnectError) Ch)).
Context (cfg : LocatorConfig).
Implicit Types (st : LocatorState ConnectError Ch) (l : LocatorLabel).

Abbreviation step := (locator_step timed_out_message pool_channel cfg).
Abbreviation run := (locator_run timed_out_message pool_channel cfg).
Abbreviation outcome := (outcome timed_out_message pool_channel cfg).

Lemma locator_run_inv (P : LocatorState ConnectError Ch → Prop) ls st st' :
  (∀ st l st', l ∈ ls → P st → step st l = Some st' → P st') →
  P st → run st ls = Some st' → P st'.
Proof.
  revert st. induction ls as [|l ls IH]; intros st Hs Hp; simpl; [by intros [= <-]|].
  intros (st1 & Hst1 & Hr)%bind_Some. eapply (IH st1); eauto.
  - intros ? l' ? ?. apply Hs. by right.
  - eapply Hs; eauto. by left.
Qed.

Lemma step_loop_inv st l st' :
  loop_label l = true → step st l = Some st' →
  lo_done st = false ∧ loop_step timed_out_message pool_channel cfg st l = Some st'.
Proof. destruct l; simpl; intros; try done; by destruct (lo_done st). Qed.

Lemma step_outside_inv st l st' :
  loop_label l = false → step st l = Some st' →
  lo_peers st' = lo_peers st ∧ inflight st' = inflight st ∧
  stream_exhausted st' = stream_exhausted st ∧ (lo_done st = true → lo_done st' = true).
Proof.
  destruct l; simpl; intros ? Hs; try done.
  - destruct (timeout cfg); by simplify_eq.
  - by apply bind_Some in Hs as ([r tx] & _ & [= <-]).
  - by simplify_eq.
Qed.

(** *** Bounds *)

Lemma step_inflight st l st' :
  length (inflight st) ≤ max_inflight cfg → step st l = Some st' →
  length (inflight st') ≤ max_inflight cfg.
Proof.
  intros Hle. destruct (loop_label l) eqn:Hl.
  - intros [_ Hs]%step_loop_inv; [|done]. destruct l; simpl in Hs; try done.
    + by destruct (_ && _); simplify_eq.
    + apply bind_Some in Hs as (p & Hp & Hs). apply lookup_lt_Some in Hp as Hlt.
      destruct (try_send _ _) as [[] tx]; simplify_eq; simpl; rewrite length_delete by eauto; lia.
    + destruct (can_discover cfg st) eqn:Hc; [|done].
      apply andb_true_iff in Hc as [_ Hc%Nat.ltb_lt].
      destruct (lo_peers st) as [|[p|e] peers]; simplify_eq; simpl; [done| |].
      * rewrite length_app. simpl. lia.
      * destruct (try_send _ _) as [[] tx]; by simplify_eq.
  - intros (_ & -> & _)%step_outside_inv; done.
Qed.

Lemma step_fuel st l st' :
  step st l = Some st' → fuel st' + (if loop_label l then 1 else 0) ≤ fuel st.
Proof.
  destruct (loop_label l) eqn:Hl.
  - intros [Hd Hs]%step_loop_inv; [|done]. unfold fuel. rewrite Hd.
    destruct l; simpl in Hs; try done.
    + destruct (_ && _); simplify_eq. simpl. lia.
    + apply bind_Some in Hs as (p & Hp & Hs). apply lookup_lt_Some in Hp as Hlt.
      destruct (try_send _ _) as [[] tx]; simplify_eq; simpl; rewrite length_delete by eauto; lia.
    + destruct (can_discover cfg st) eqn:Hc; [|done].
      apply andb_true_iff in Hc as [Hc _].
      destruct (stream_exhausted st) eqn:He; [done|].
      destruct (lo_peers st) as [|[p|e] peers]; simplify_eq; simpl.
      * lia.
      * rewrite length_app. simpl. lia.
      * destruct (try_send _ _) as [[] tx]; simplify_eq; simpl; rewrite ?He; lia.
  - intros (Hp & Hi & He & Hd)%step_outside_inv; [|done]. unfold fuel. rewrite Hp, Hi, He.
    destruct (lo_done st); [rewrite Hd by done; lia|]. destruct (lo_done st'); lia.
Qed.

Lemma run_fuel ls st st' :
  run st ls = Some st' → fuel st' + length (filter (λ l, loop_label l = true) ls) ≤ fuel st.
Proof.
  revert st. induction ls as [|l ls IH]; intros st; simpl; [intros [= <-]; lia|].
  intros (st1 & Hst1%step_fuel & Hr%IH)%bind_Some.
  destruct (loop_label l) eqn:El.
  - rewrite filter_cons_True by done. simpl. lia.
  - rewrite filter_cons_False by congruence. lia.
Qed.

(** The loop is never stuck while the channel has room. *)
Lemma step_progress st :
  lo_done st = false → rx_closed (lo_tx st) = false →
  length (queued (lo_tx st)) < capacity (lo_tx st) →
  ∃ l st', loop_label l = true ∧ step st l = Some st'.
Proof.
  intros Hd Ho Hroom.
  assert (Hsend : ∀ r, ∃ tx, try_send r (lo_tx st) = (SendOk, tx)).
  { intros r. destruct (try_send_ok _ r _ Ho Hroom) as (tx & -> & _). eauto. }
  destruct (inflight st) as [|p ps] eqn:Hi.
  - destruct (can_discover cfg st) eqn:Hc.
    + exists LoPeer. simpl. rewrite Hd, Hc. destruct (lo_peers st) as [|[p|e] peers]; eauto.
      destruct (Hsend (Err e)) as [tx ->]. eauto.
    + exists LoBreak. simpl. rewrite Hd, Hc. unfold has_inflight. rewrite Hi. simpl. eauto.
  - exists (LoAttempt 0). simpl. rewrite Hd, Hi. simpl.
    destruct (Hsend (attempt timed_out_message pool_channel cfg p)) as [tx ->]. eauto.
Qed.

(** *** Conservation *)

(** No item of the stream is lost: those taken were delivered or are in
    flight, and the task ends by itself only when there are none. *)
Record lo_inv (items : list (Result (Error ConnectError) Peer)) st : Prop := {
  li_items : ∃ taken, items = taken ++ lo_peers st ∧
    outcome <$> taken ≡ₚ
      delivered st ++ (attempt timed_out_message pool_channel cfg <$> inflight st);
  li_open : rx_closed (lo_tx st) = false;
  li_exhausted : stream_exhausted st = true → lo_peers st = [];
  li_done : lo_done st = true → inflight st = [] ∧ (0 < max_inflight cfg → lo_peers st = []);
}.

Lemma lo_inv_deliver items st taken rest r tx (ps : list Peer) :
  items = taken ++ rest →
  outcome <$> taken ≡ₚ
    delivered st ++ r :: (attempt timed_out_message pool_channel cfg <$> ps) →
  (stream_exhausted st = true → rest = []) →
  queued tx = queued (lo_tx st) ++ [r] → rx_closed tx = false →
  lo_inv items (MkLocatorState rest ps (stream_exhausted st) tx (lo_received st) false).
Proof.
  intros Hi Hp He Hq Ho. split; simpl; try done.
  exists taken. split; [done|]. rewrite Hp. unfold delivered. simpl.
  rewrite Hq, <-!app_assoc. simpl. done.
Qed.

Lemma lo_inv_step items st l st' :
  l ≠ LoDrop → l ≠ LoTimeout → lo_inv items st → step st l = Some st' → lo_inv items st'.
Proof.
  intros Hnd Hnt [(taken & Hi & Hp) Ho He Hd]. destruct (loop_label l) eqn:Hl.
  - intros [Hnot Hs]%step_loop_inv; [|done]. destruct l; simpl in Hs; try done.
    + destruct (can_discover cfg st) eqn:Hc; [done|].
      destruct (has_inflight st) eqn:Hh; [done|]. simpl in Hs. injection Hs as <-.
      apply negb_false_iff, bool_decide_eq_true in Hh.
      split; simpl; [exists taken; split; [done|exact Hp]|done|done|]. intros _. split; [done|]. intros Hm. apply He.
      unfold can_discover in Hc. rewrite Hh in Hc. simpl in Hc.
      destruct (stream_exhausted st); [done|]. simpl in Hc.
      apply Nat.ltb_ge in Hc. lia.
    + apply bind_Some in Hs as (p & Hpn & Hs).
      destruct (try_send _ _) as [o tx] eqn:Hts. apply try_send_inv in Hts as [Hts _].
      destruct o; [|done|by destruct Hts; congruence]. injection Hs as <-.
      destruct Hts as (Hq & _ & _ & Ho').
      eapply lo_inv_deliver; eauto. rewrite Hp.
      by rewrite (delete_Permutation (inflight st) n p Hpn) at 1.
    + destruct (can_discover cfg st) eqn:Hc; [|done].
      destruct (lo_peers st) as [|[p|e] peers] eqn:Hpeers.
      * injection Hs as <-. split; simpl; try done. by exists taken.
      * injection Hs as <-. split; simpl; try done.
        -- exists (taken ++ [Ok p]). rewrite <-app_assoc. split; [done|].
           unfold delivered in *. simpl. rewrite !fmap_app, Hp. csimpl. by rewrite <-!app_assoc.
        -- intros E. by apply He in E.
      * destruct (try_send _ _) as [o tx] eqn:Hts. apply try_send_inv in Hts as [Hts _].
        destruct o; [|done|by destruct Hts; congruence]. injection Hs as <-.
        destruct Hts as (Hq & _ & _ & Ho').
        eapply (lo_inv_deliver _ _ (taken ++ [Err e])); eauto.
        -- by rewrite <-app_assoc.
        -- rewrite fmap_app, Hp. csimpl. rewrite <-app_assoc. f_equiv.
           by rewrite Permutation_app_comm.
        -- intros E. by apply He in E.
  - destruct l; try done. simpl. intros ([r tx] & Hr & [= <-])%bind_Some.
    destruct (queued (lo_tx st)) as [|x q] eqn:Hq; [by rewrite recv_empty in Hr|].
    destruct (recv_cons _ _ _ _ Hq) as (tx' & Hr' & Hq' & _ & Ho').
    assert (r = x ∧ tx = tx') as [-> ->] by (split; congruence).
    split; simpl; eauto; try congruence.
    exists taken. split; [done|]. rewrite Hp. unfold delivered. simpl.
    by rewrite Hq, Hq', <-!app_assoc.
Qed.

Lemma lo_inv_spawn items st :
  spawn_with_pool items cfg = Some st → lo_inv items st ∧ fuel st = 2 * length items + 2 ∧
  inflight st = [].
Proof.
  unfold spawn_with_pool. intros (tx & Htx & [= <-])%bind_Some.
  destruct (limit cfg) as [|n] eqn:Hl.
  { by rewrite mpsc_channel_zero in Htx. }
  destruct (mpsc_channel_pos (Result (Error ConnectError) Ch) (S n)) as (tx' & Htx' & Hq & _ & Ho);
    [lia|].
  assert (tx = tx') as -> by congruence. split_and!; [|unfold fuel; simpl; lia|done].
  split; simpl; try done. exists []. split; [done|]. unfold delivered. simpl. by rewrite Hq.
Qed.

(** *** [first] *)

Lemma first_loop_spec (rs : list (Result (Error ConnectError) Ch)) last_error :
  match first_loop rs last_error with
  | Ok c => Ok c ∈ rs
  | Err e => (∀ c, Ok c ∉ rs) ∧
      e = default (error_connection "no peers reachable") (last (omap err_of rs) ∪ last_error)
  end.
Proof.
  revert last_error. induction rs as [|[c|e] rs IH]; intros le; csimpl.
  - split; [set_solver|]. by destruct le.
  - by left.
  - specialize (IH (Some e)). destruct (first_loop rs (Some e)) as [c|e'].
    + by right.
    + destruct IH as [Hn ->]. split; [intros c; set_solver|].
      rewrite last_cons. by destruct (last (omap err_of rs)), le.
Qed.

(** C30: the locator never has more than [max_inflight] attempts running, takes at
    most two loop steps per item of the stream and two more, and always has a
    step to take while its channel has room. *)
Theorem locator_bounded items st ls st' :
  spawn_with_pool items cfg = Some st → run st ls = Some st' →
  length (inflight st') ≤ max_inflight cfg ∧
  length (filter (λ l, loop_label l = true) ls) ≤ 2 * length items + 2 ∧
  (lo_done st' = false → rx_closed (lo_tx st') = false →
   length (queued (lo_tx st')) < capacity (lo_tx st') →
   ∃ l st'', loop_label l = true ∧ step st' l = Some st'').
Proof.
  intros (_ & Hf & Hi)%lo_inv_spawn Hrun. split_and!.
  - eapply (locator_run_inv (λ st, length (inflight st) ≤ max_inflight cfg)) in Hrun; eauto.
    + intros ????. apply step_inflight.
    + rewrite Hi. simpl. lia.
  - apply run_fuel in Hrun. lia.
  - apply step_progress.
Qed.

(** C29: a locator that runs to its end delivers, in some order, exactly one result
    per item of its stream: the error, or the outcome of the attempt to the
    peer.  [first] then returns a channel if any attempt got one, and else the
    last error, or "no peers reachable" if nothing was discovered. *)
Theorem locator_delivers_all items st ls st' :
  (0 < max_inflight cfg) → spawn_with_pool items cfg = Some st →
  run st ls = Some st' → LoDrop ∉ ls → LoTimeout ∉ ls → lo_done st' = true →
  delivered st' ≡ₚ outcome <$> items ∧
  match first (delivered st') with
  | Ok c => Ok c ∈ outcome <$> items
  | Err e => (∀ c, Ok c ∉ outcome <$> items) ∧
      match last (omap err_of (delivered st')) with
      | Some e' => e = e'
      | None => items = [] ∧ e = error_connection "no peers reachable"
      end
  end.
Proof.
  intros Hm (Hinv & _)%lo_inv_spawn Hrun Hnd Hnt Hdone.
  eapply (locator_run_inv (lo_inv items)) in Hrun; [|intros ?????; apply lo_inv_step; set_solver|done].
  destruct Hrun as [(taken & Hi & Hp) _ _ Hd]. destruct (Hd Hdone) as [Hinf Hpeers].
  rewrite Hpeers, app_nil_r in Hi by done. subst taken.
  rewrite Hinf, app_nil_r in Hp. split; [done|].
  pose proof (first_loop_spec (delivered st') None) as Hf. unfold first.
  destruct (first_loop (delivered st') None) as [c|e].
  - by rewrite Hp.
  - destruct Hf as [Hn ->]. split; [intros c; rewrite Hp; apply Hn|].
    destruct (last (omap err_of (delivered st'))) as [e'|] eqn:El; [done|].
    split; [|done]. apply last_None in El.
    assert (delivered st' = []) as Hnil.
    { destruct (delivered st') as [|[c|e] rs]; [done| |done]. by destruct (Hn c); left. }
    rewrite Hnil in Hp. apply Permutation_nil_r in Hp. by apply fmap_nil_inv in Hp.
Qed.
End LocatorFacts.

(** ** Concrete inputs *)

Module LocatorDemo.
Import Iroh.Demo ListChannel.

Definition demo_peer (b : byte) : Peer := MkPeer ([b] : bytes) "static" 200 200.
Definition demo_cfg : LocatorConfig := MkLocatorConfig 2 2000 None 4.
(** Peer 2 is reachable, peer 1 refuses, others time out. *)
Definition demo_channel (i : @EndpointId keys) : option (Result (Error unit) nat) :=
  if bool_decide (i = [x01]) then Some (Err (ErrPool PoolBusy))
  else if bool_decide (i = [x02]) then Some (Ok 2) else None.
Definition demo_message (_ : Z) : string := "connection timed out".
Definition demo_items : list (Result (Error unit) Peer) :=
  [Ok (demo_peer x01); Ok (demo_peer x03); Err (ErrDhtDiscovery "lookup"); Ok (demo_peer x02)].
Definition demo_start : LocatorState unit nat :=
  default (MkLocatorState [] [] false (LChan [] 0 true) [] true)
    (spawn_with_pool demo_items demo_cfg).
Definition demo_schedule : list LocatorLabel :=
  [LoPeer; LoPeer; LoAttempt 1; LoPeer; LoPeer; LoAttempt 1; LoRecv; LoAttempt 0; LoPeer; LoBreak].
Definition demo_end : LocatorState unit nat :=
  default demo_start (locator_run demo_message demo_channel demo_cfg demo_start demo_schedule).

Example locator_demo :
  delivered demo_end =
  [Err (ErrConnection "connection timed out"); Err (ErrDhtDiscovery "lookup"); Ok 2;
   Err (ErrPool PoolBusy)] ∧ first (delivered demo_end) = Ok 2.
Proof. vm_compute. auto. Qed.

(** [limit(0)] makes [mpsc::channel] panic. *)
Example locator_limit_zero :
  spawn_with_pool (ConnectError := unit) (Ch := nat) demo_items (MkLocatorConfig 2 2000 None 0)
  = None.
Proof. reflexivity. Qed.

Lemma locator_bounded_witness :
  length (inflight demo_end) ≤ 2.
Proof.
  refine (proj1 (locator_bounded demo_message demo_channel demo_cfg demo_items demo_start
    demo_schedule demo_end _ _)); vm_eq.
Defined.

Lemma locator_delivers_all_witness :
  delivered demo_end ≡ₚ
  Locator.outcome demo_message demo_channel demo_cfg <$> demo_items.
Proof.
  refine (proj1 (locator_delivers_all demo_message demo_channel demo_cfg demo_items demo_start
    demo_schedule demo_end _ _ _ _ _ _)).
  - vm_compute. lia.
  - vm_eq.
  - vm_eq.
  - unfold demo_schedule. set_solver.
  - unfold demo_schedule. set_solver.
  - vm_eq.
Defined.
End LocatorDemo.
