(* ===== verification/Registry.v ===== *)
(** * The service registry

    Models [src/swarm/registry.rs]: the backends, the cache of connection pools
    that registry clones share, and the locator builder. *)
From S2P Require Import Prelude Iroh Tokio PoolActor Errors Discovery Engine Alpn Locator.

#[export] Instance PoolOptions_countable : Countable PoolOptions.
Proof.
  refine (inj_countable' (λ o, (idle_timeout o, connect_timeout o, max_connections o))
    (λ p, MkPoolOptions p.1.1 p.1.2 p.2) _). by intros [].
Defined.

(** [PoolKey] *)
Record PoolKey := MkPoolKey { pk_alpn : bytes; pk_options : PoolOptions }.
#[export] Instance PoolKey_eq_dec : EqDecision PoolKey.
Proof. solve_decision. Defined.
#[export] Instance PoolKey_countable : Countable PoolKey.
Proof.
  refine (inj_countable' (λ k, (pk_alpn k, pk_options k)) (λ p, MkPoolKey p.1 p.2) _). by intros [].
Defined.

(** The cache behind its mutex.  A [ConnectionPool] is its index in
    [created], which records what each pool was created with. *)
Record PoolCache := MkPoolCache { pools : gmap PoolKey nat; created : list PoolKey }.
Definition cache_new : PoolCache := MkPoolCache ∅ [].

(** [pools.entry(key).or_insert_with(..).clone()] *)
Definition pool_for_alpn (alpn : bytes) (options : PoolOptions) (c : PoolCache)
  : nat * PoolCache :=
  let key := MkPoolKey alpn options in
  match pools c !! key with
  | Some p => (p, c)
  | None =>
      let p := length (created c) in
      (p, MkPoolCache (<[key := p]> (pools c)) (created c ++ [key]))
  end.

Section Registry.
Context `{!IrohKeys} {E : Type}.

(** [ServiceRegistry] without its cache; a backend is its [feeds] method. *)
Record ServiceRegistry := MkServiceRegistry {
  sr_local_id : EndpointId;
  backends : list (bytes → list (PeerFeedSpec E));
  sr_pool_options : PoolOptions;
}.

Definition registry_new (local_id : EndpointId) : ServiceRegistry :=
  MkServiceRegistry local_id [] PoolOptions_default.
(** [add] and [add_shared] *)
Definition add {B : Type} `{!Discovery E B} (backend : B) (r : ServiceRegistry)
  : ServiceRegistry :=
  MkServiceRegistry (sr_local_id r) (backends r ++ [discovery_feeds backend]) (sr_pool_options r).
Definition with_pool_options (options : PoolOptions) (r : ServiceRegistry) : ServiceRegistry :=
  MkServiceRegistry (sr_local_id r) (backends r) options.

Definition build_feeds (r : ServiceRegistry) (alpn : bytes) : list (PeerFeedSpec E) :=
  b ← backends r; b alpn.

Definition discover (r : ServiceRegistry) (service : string) : SwarmEngine E :=
  let alpn := service_to_alpn service in
  engine_new (sr_local_id r) alpn (build_feeds r alpn).

(** [pool] *)
Definition registry_pool (r : ServiceRegistry) (service : string) (c : PoolCache)
  : nat * PoolCache :=
  pool_for_alpn (service_to_alpn service) (sr_pool_options r) c.

(** [LocatorBuilder], for the service [lb_service]. *)
Record LocatorBuilder := MkLocatorBuilder {
  lb_registry : ServiceRegistry;
  lb_service : string;
  locator_cfg : LocatorConfig;
  lb_pool_options : PoolOptions;
}.

Definition builder_new (r : ServiceRegistry) (service : string) : LocatorBuilder :=
  MkLocatorBuilder r service LocatorConfig_default (sr_pool_options r).
(** [ServiceRegistry::find] *)
Definition find_service : ServiceRegistry → string → LocatorBuilder := builder_new.

Definition set_cfg (f : LocatorConfig → LocatorConfig) (b : LocatorBuilder) : LocatorBuilder :=
  MkLocatorBuilder (lb_registry b) (lb_service b) (f (locator_cfg b)) (lb_pool_options b).
Definition builder_max_inflight (n : nat) : LocatorBuilder → LocatorBuilder :=
  set_cfg (λ c, MkLocatorConfig n (timeout_each c) (timeout c) (limit c)).
Definition builder_timeout (d : Z) : LocatorBuilder → LocatorBuilder :=
  set_cfg (λ c, MkLocatorConfig (max_inflight c) (timeout_each c) (Some d) (limit c)).
Definition builder_limit (n : nat) : LocatorBuilder → LocatorBuilder :=
  set_cfg (λ c, MkLocatorConfig (max_inflight c) (timeout_each c) (timeout c) n).
Definition set_timeout_each (d : Z) : LocatorBuilder → LocatorBuilder :=
  set_cfg (λ c, MkLocatorConfig (max_inflight c) d (timeout c) (limit c)).
Definition builder_timeout_each (d : Z) (b : LocatorBuilder) : LocatorBuilder :=
  let b := set_timeout_each d b in
  MkLocatorBuilder (lb_registry b) (lb_service b) (locator_cfg b)
    (MkPoolOptions (idle_timeout (lb_pool_options b)) d (max_connections (lb_pool_options b))).
Definition builder_pool_options (options : PoolOptions) (b : LocatorBuilder) : LocatorBuilder :=
  let b := set_timeout_each (connect_timeout options) b in
  MkLocatorBuilder (lb_registry b) (lb_service b) (locator_cfg b) options.

(** [Locator::spawn] makes a pool of its own, by [ConnectionPool::for_service];
    what it is created with. *)
Definition for_service (service : string) (options : PoolOptions) : PoolKey :=
  MkPoolKey (service_to_alpn service) options.
Definition locator_spawn_pool (service : string) (opts : LocatorConfig) : PoolKey :=
  for_service service
    (MkPoolOptions (idle_timeout PoolOptions_default) (timeout_each opts)
       (max_connections PoolOptions_default)).

(** What [start] hands to [spawn_with_pool]: the pool, the engine and the
    configuration. *)
Definition builder_start (b : LocatorBuilder) (c : PoolCache)
  : (nat * SwarmEngine E * LocatorConfig) * PoolCache :=
  let alpn := service_to_alpn (lb_service b) in
  let '(p, c) := pool_for_alpn alpn (lb_pool_options b) c in
  ((p, discover (lb_registry b) (lb_service b), locator_cfg b), c).
End Registry.
Arguments ServiceRegistry {_} _.
Arguments LocatorBuilder {_} _.

(** ** The cache *)

(** A sequence of requests for pools, and the pools they get. *)
Fixpoint request_pools (keys : list PoolKey) (c : PoolCache) : list nat * PoolCache :=
  match keys with
  | [] => ([], c)
  | k :: keys =>
      let '(p, c) := pool_for_alpn (pk_alpn k) (pk_options k) c in
      let '(ps, c) := request_pools keys c in (p :: ps, c)
  end.

(** The cache knows every pool, under the key it was created with. *)
Record cache_inv (c : PoolCache) : Prop := {
  ca_key : ∀ k p, pools c !! k = Some p ↔ created c !! p = Some k;
  ca_NoDup : NoDup (created c);
}.

Lemma cache_inv_new : cache_inv cache_new.
Proof. split; simpl; [|apply NoDup_nil_2]. intros k p. by rewrite lookup_empty, lookup_nil. Qed.

Lemma pool_for_alpn_spec k c p c' :
  cache_inv c → pool_for_alpn (pk_alpn k) (pk_options k) c = (p, c') →
  cache_inv c' ∧ created c' !! p = Some k ∧ created c `prefix_of` created c'.
Proof.
  intros [Hkey Hnd]. unfold pool_for_alpn. destruct k as [alpn o]. simpl.
  destruct (pools c !! MkPoolKey alpn o) as [q|] eqn:Hl; intros [= <- <-]; simpl.
  - split_and!; [done|by apply Hkey|done].
  - assert (Hnew : MkPoolKey alpn o ∉ created c).
    { intros (i & Hi%Hkey)%list_elem_of_lookup. congruence. }
    split_and!; [|by apply list_lookup_middle|by eexists].
    split; simpl.
    + intros k p. rewrite lookup_insert_Some, lookup_snoc_Some, Hkey. split.
      * intros [[<- <-]|[Hne Hp]]; [by right|left]. split; [by eapply lookup_lt_Some|done].
      * intros [[Hlt Hp]|[-> <-]]; [|by left]. right. split; [|done].
        intros <-. apply list_elem_of_lookup_2 in Hp. done.
    + apply NoDup_app. split_and!; [done| |apply NoDup_singleton].
      by intros x Hx ->%list_elem_of_singleton.
Qed.

Lemma request_pools_spec keys c :
  cache_inv c →
  let '(ps, c') := request_pools keys c in
  cache_inv c' ∧ created c `prefix_of` created c' ∧
  Forall2 (λ k p, created c' !! p = Some k) keys ps.
Proof.
  revert c. induction keys as [|k keys IH]; intros c Hc; simpl; [by split_and!|].
  destruct (pool_for_alpn _ _ c) as [p c1] eqn:E1.
  destruct (pool_for_alpn_spec _ _ _ _ Hc E1) as (Hc1 & Hk & Hpre).
  specialize (IH c1 Hc1). destruct (request_pools keys c1) as [ps c2].
  destruct IH as (Hc2 & Hpre2 & Hall). split_and!; [done|by trans (created c1)|].
  constructor; [|done]. by eapply prefix_lookup_Some.
Qed.

(** Connection pools are shared exactly by service and options: of any requests
    for pools made through clones of a registry, two get the same pool if and
    only if they name the same ALPN and the same options, and the pool was
    created with just these. *)
Lemma pools_shared keys i j k k' p p' :
  let '(ps, c) := request_pools keys cache_new in
  keys !! i = Some k → keys !! j = Some k' → ps !! i = Some p → ps !! j = Some p' →
  (p = p' ↔ k = k') ∧ created c !! p = Some k.
Proof.
  pose proof (request_pools_spec keys cache_new cache_inv_new) as Hs.
  destruct (request_pools keys cache_new) as [ps c]. destruct Hs as (Hc & _ & Hall).
  intros Hi Hj Hp Hp'.
  pose proof (Forall2_lookup_lr _ _ _ _ _ _ Hall Hi Hp) as Hk.
  pose proof (Forall2_lookup_lr _ _ _ _ _ _ Hall Hj Hp') as Hk'. simpl in *.
  split; [|done]. split; intros ->; [congruence|].
  eapply NoDup_lookup; eauto. apply Hc.
Qed.

(** Whichever of the two setters comes last, an attempt and the connection under
    it get the same time. *)
Lemma builder_timeouts_agree `{!IrohKeys} {E} (b : LocatorBuilder E) d o :
  timeout_each (locator_cfg (builder_timeout_each d b)) =
    connect_timeout (lb_pool_options (builder_timeout_each d b)) ∧
  timeout_each (locator_cfg (builder_pool_options o b)) =
    connect_timeout (lb_pool_options (builder_pool_options o b)).
Proof. done. Qed.
(** A locator spawned without a registry does the same, and with the defaults gets
    the pool a registry would share. *)
Lemma spawn_pool_agrees service opts :
  connect_timeout (pk_options (locator_spawn_pool service opts)) = timeout_each opts ∧
  (timeout_each opts = connect_timeout PoolOptions_default →
   locator_spawn_pool service opts = MkPoolKey (service_to_alpn service) PoolOptions_default).
Proof. split; [done|]. unfold locator_spawn_pool. by intros ->. Qed.

Module RegistryDemo.

Definition demo_key (n : string) : PoolKey := MkPoolKey (service_to_alpn n) PoolOptions_default.
Definition demo_keys : list PoolKey := demo_key <$> ["echo.Echo"; "p2p_chat.P2PChatService"; "echo.Echo"]%string.

Example registry_demo : (request_pools demo_keys cache_new).1 = [0; 1; 0].
Proof. vm_compute. reflexivity. Qed.

End RegistryDemo.
