(* ===== verification/Find.v ===== *)
(** * Finding a published service

    Composes the components that [ServiceRegistry::find] strings together:
    what [DhtPublish] has put in the DHT, the feed of the DHT backend
    ([Discovery]), the engine that merges it with the other feeds ([Engine]) and
    the locator that dials the peers ([Locator]), as [Registry] builds them. *)
From S2P Require Import Prelude Ords Iroh Tokio PoolActor ServiceRecord DhtShards DhtPublish Alpn.
From S2P Require Import Errors Discovery Findable Engine Locator Registry.

Section Find.
Context `{!IrohKeys, !IrohKeysLaws, !Sha256, !Mainline, !MainlineLaws} {PcError : Type}.
Context `{!Postcard PcError ServiceAdEnvelope, !Postcard PcError ServiceBucket}.
Context `{!PostcardLaws PcError ServiceBucket, !Mpsc, !MpscLaws} {ConnectError Ch : Type}.
Context (timed_out_message : Z → string)
        (pool_channel : EndpointId → option (Result (Error ConnectError) Ch)).
Abbreviation Err' := (Error ConnectError).
Abbreviation outcome := (outcome timed_out_message pool_channel).

(** What a locator has delivered once it has dealt with the items it took: an
    outcome for each. *)
Lemma locator_outcomes cfg items st ls st' :
  spawn_with_pool items cfg = Some st →
  locator_run timed_out_message pool_channel cfg st ls = Some st' →
  LoDrop ∉ ls → LoTimeout ∉ ls → lo_peers st' = [] → inflight st' = [] →
  delivered st' ≡ₚ outcome cfg <$> items.
Proof.
  intros (Hinv & _)%(lo_inv_spawn timed_out_message pool_channel) Hrun Hnd Hnt Hp Hi.
  eapply (locator_run_inv _ _ _ (lo_inv timed_out_message pool_channel cfg items)) in Hrun;
    [|intros ?????; apply lo_inv_step; set_solver|done].
  destruct Hrun as [(taken & -> & Hd) _ _ _]. rewrite Hi, app_nil_r in Hd.
  by rewrite Hp, app_nil_r.
Qed.

(** The DHT feed of a registry, and that it applies. *)
Lemma registry_dht_feed (r : ServiceRegistry Err') (feeds : bytes → list (PeerFeedSpec Err'))
    (db : DhtBackend) alpn burst ticks :
  feeds ∈ backends r → dht_backend_feeds db alpn burst ticks = Some (feeds alpn) →
  ∃ spec out rest, spec ∈ build_feeds r alpn ∧ scope_matches (pf_scope _ spec) alpn = true ∧
    dht_burst (db_required_tags db) (db_trust db) burst = Some out ∧ pf_stream _ spec = out ++ rest.
Proof.
  intros Hb Hf. unfold dht_backend_feeds, dht_feed in Hf.
  apply bind_Some in Hf as (feed & (out & Hout & (rest & _ & [= Ef])%bind_Some)%bind_Some & [= Efs]).
  exists feed, out, rest. split_and!; [|subst feed; by apply bool_decide_eq_true_2|done|by subst feed].
  unfold build_feeds. apply list_elem_of_bind. exists feeds. split; [|done].
  rewrite <-Efs. by left.
Qed.

(** A peer that a feed of the registry yields is dialled, its outcome is
    delivered, and if it can be reached, [first] returns a channel. *)
Lemma find_dials (r : ServiceRegistry Err') service id trust spec cfg script st ls st' :
  let alpn := service_to_alpn service in
  let engine := discover r service in
  id ≠ sr_local_id r → spec ∈ build_feeds r alpn → scope_matches (pf_scope _ spec) alpn = true →
  Ok (MkDiscoveredPeer id trust) ∈ pf_stream _ spec →
  script_items script ≡ₚ (f ← se_inner engine; tagged_items f) →
  spawn_with_pool (engine_outputs engine script) cfg = Some st →
  locator_run timed_out_message pool_channel cfg st ls = Some st' →
  LoDrop ∉ ls → LoTimeout ∉ ls → lo_peers st' = [] → inflight st' = [] →
  (∃ peer, peer_id peer = id ∧ attempt timed_out_message pool_channel cfg peer ∈ delivered st') ∧
  (∀ ch, pool_channel id = Some (Ok ch) →
   ∃ ch' peer, first (delivered st') = Ok ch' ∧ Ok peer ∈ engine_outputs engine script ∧
     pool_channel (peer_id peer) = Some (Ok ch')).
Proof.
  intros alpn engine Hne Hspec Hsc Hin Hscript Hspawn Hrun Hnd Hnt Hpeers Hinf.
  unfold discover in engine. fold alpn in engine. subst engine.
  set (e := engine_new (sr_local_id r) alpn (build_feeds r alpn)) in *.
  destruct (discover_peers (sr_local_id r) alpn (build_feeds r alpn) script Hscript)
    as (_ & Hids & _ & _).
  assert (id ∈ omap item_id (engine_outputs e script)) as Hid.
  { apply Hids. split; [done|]. exists spec. split_and!; [done..|].
    apply list_elem_of_fmap. by exists (Ok (MkDiscoveredPeer id trust)). }
  apply list_elem_of_omap in Hid as ([peer|err] & Hpeer & Hpid); [|done].
  injection Hpid as Hpid.
  pose proof (locator_outcomes _ _ _ _ _ Hspawn Hrun Hnd Hnt Hpeers Hinf) as Hdel.
  assert (Hatt : attempt timed_out_message pool_channel cfg peer ∈ delivered st').
  { rewrite Hdel. by apply (list_elem_of_fmap_2 (outcome _) _ (Ok peer)). }
  split; [by exists peer|]. intros ch Hch.
  pose proof (first_loop_spec (delivered st') None) as Hf. unfold first.
  destruct (first_loop (delivered st') None) as [ch'|err].
  - rewrite Hdel in Hf. apply list_elem_of_fmap in Hf as ([peer'|err] & Ho & Hin'); [|done].
    exists ch', peer'. split_and!; [done|done|]. simpl in Ho. unfold attempt in Ho.
    destruct (pool_channel (peer_id peer')) as [[|]|]; by simplify_eq.
  - destruct Hf as [Hno _]. destruct (Hno ch). unfold attempt in Hatt.
    by rewrite Hpid, Hch in Hatt.
Qed.

(** When no feed yields anything, nobody is dialled. *)
Lemma find_silent (r : ServiceRegistry Err') service cfg script st ls st' :
  let engine := discover r service in
  (∀ spec, spec ∈ build_feeds r (service_to_alpn service) → pf_stream _ spec = []) →
  script_items script ≡ₚ (f ← se_inner engine; tagged_items f) →
  spawn_with_pool (engine_outputs engine script) cfg = Some st →
  locator_run timed_out_message pool_channel cfg st ls = Some st' →
  LoDrop ∉ ls → LoTimeout ∉ ls → lo_peers st' = [] → inflight st' = [] →
  delivered st' = [].
Proof.
  intros engine Hnone Hscript Hspawn Hrun Hnd Hnt Hpeers Hinf.
  destruct (discover_peers (sr_local_id r) (service_to_alpn service)
    (build_feeds r (service_to_alpn service)) script Hscript) as (_ & _ & _ & Hsub).
  assert (Hnil : (f ← se_inner engine; tagged_items f) = []).
  { apply bind_nil. intros f (spec & Hspec & _ & ->)%engine_new_inner. unfold tagged_items. simpl.
    by rewrite (Hnone spec Hspec). }
  rewrite Hnil in Hscript. apply Permutation_nil_r in Hscript. rewrite Hscript in Hsub.
  apply sublist_nil_r in Hsub.
  pose proof (locator_outcomes _ _ _ _ _ Hspawn Hrun Hnd Hnt Hpeers Hinf) as Hdel.
  change (engine_outputs engine script = []) in Hsub. rewrite Hsub in Hdel.
  by apply Permutation_nil_r.
Qed.

(** What [find] has done once the locator has dealt with the peers discovered so
    far, with any configuration. *)
Lemma find_delivers overflow_checks published envs sk service shard tags res puts item
    items now completion (r : ServiceRegistry Err') feeds db ticks cfg script st ls st' :
  let alpn := service_to_alpn service in
  let engine := discover r service in
  (0 ≤ published ≤ now)%Z → (now < published + 60)%Z → (now + DHT_AD_TTL_SECS ≤ u64_max)%Z →
  shard ∈ replica_shards (as_bytes (public sk)) alpn →
  publish_shard (PcError := PcError) overflow_checks (Some published) envs sk alpn shard tags
    = (res, puts) →
  (∀ k b, b ∈ (read_shard_state (PcError := PcError) (envs k) alpn (published / 60) shard published).1 →
     node_id b = as_bytes (public sk) → (published_at b < published)%Z) →
  item ∈ puts → item ∈ items (published / 60)%Z shard →
  (∀ offset, completion offset ≡ₚ range 0 DHT_SHARD_COUNT) →
  public sk ≠ sr_local_id r → feeds ∈ backends r → db_required_tags db = [] →
  dht_backend_feeds db alpn (burst_over (PcError := PcError) items alpn now completion) ticks
    = Some (feeds alpn) →
  script_items script ≡ₚ (f ← se_inner engine; tagged_items f) →
  spawn_with_pool (engine_outputs engine script) cfg = Some st →
  locator_run timed_out_message pool_channel cfg st ls = Some st' →
  LoDrop ∉ ls → LoTimeout ∉ ls → lo_peers st' = [] → inflight st' = [] →
  (∃ peer, peer_id peer = public sk ∧ attempt timed_out_message pool_channel cfg peer ∈ delivered st') ∧
  (∀ ch, pool_channel (public sk) = Some (Ok ch) →
   ∃ ch' peer, first (delivered st') = Ok ch' ∧ Ok peer ∈ engine_outputs engine script ∧
     pool_channel (peer_id peer) = Some (Ok ch')).
Proof.
  intros alpn engine Hp Hnow Hmax Hshard Epub Hfresh Hput Hitem Hcompl Hne Hfeeds Htags Hdb Hscript Hspawn
    Hrun Hnd Hnt Hpeers Hinf.
  destruct (burst_finds (E := Err') overflow_checks published envs sk alpn shard tags res puts item
    items now completion (db_trust db) Hp Hnow Hmax Hshard Epub Hfresh Hput Hitem Hcompl)
    as (out & Hout & Hin).
  destruct (registry_dht_feed _ _ _ _ _ _ Hfeeds Hdb) as (spec & out' & rest & Hspec & Hsc & Hb & Hs).
  rewrite Htags in Hb. assert (out' = out) as -> by congruence.
  apply (find_dials r service (public sk) (db_trust db) spec cfg script st ls st'); try done.
  rewrite Hs. apply elem_of_app. by left.
Qed.

(** C4: the whole way from publishing to a channel.  A node publishes a service;
    within a minute a client whose registry has a DHT backend looks for it with
    [find], while the DHT serves what was put.  Whatever else its backends
    yield, and in whatever order, when the locator has dealt with the peers
    discovered so far: the publisher was dialled, its outcome was delivered, and
    if it could be reached, [first] returns a channel, to the publisher or to
    another peer discovered for the service. *)
Theorem find_reaches_publisher overflow_checks published envs sk service shard tags res puts item
    items now completion (r : ServiceRegistry Err') feeds db ticks cache pool engine cfg cache'
    script st ls st' :
  let alpn := service_to_alpn service in
  (* the service was published *)
  (0 ≤ published ≤ now)%Z → (now < published + 60)%Z → (now + DHT_AD_TTL_SECS ≤ u64_max)%Z →
  shard ∈ replica_shards (as_bytes (public sk)) alpn →
  publish_shard (PcError := PcError) overflow_checks (Some published) envs sk alpn shard tags
    = (res, puts) →
  (∀ k b, b ∈ (read_shard_state (PcError := PcError) (envs k) alpn (published / 60) shard published).1 →
     node_id b = as_bytes (public sk) → (published_at b < published)%Z) →
  item ∈ puts → item ∈ items (published / 60)%Z shard →
  (∀ offset, completion offset ≡ₚ range 0 DHT_SHARD_COUNT) →
  (* the client's registry *)
  public sk ≠ sr_local_id r → feeds ∈ backends r → db_required_tags db = [] →
  dht_backend_feeds db alpn (burst_over (PcError := PcError) items alpn now completion) ticks
    = Some (feeds alpn) →
  (* [find], and what it has done so far *)
  builder_start (find_service r service) cache = ((pool, engine, cfg), cache') →
  script_items script ≡ₚ (f ← se_inner engine; tagged_items f) →
  spawn_with_pool (engine_outputs engine script) cfg = Some st →
  locator_run timed_out_message pool_channel cfg st ls = Some st' →
  LoDrop ∉ ls → LoTimeout ∉ ls → lo_peers st' = [] → inflight st' = [] →
  (∃ peer, peer_id peer = public sk ∧ attempt timed_out_message pool_channel cfg peer ∈ delivered st') ∧
  (∀ ch, pool_channel (public sk) = Some (Ok ch) →
   ∃ ch' peer, first (delivered st') = Ok ch' ∧ Ok peer ∈ engine_outputs engine script ∧
     pool_channel (peer_id peer) = Some (Ok ch')).
Proof.
  intros alpn Hp Hnow Hmax Hshard Epub Hfresh Hput Hitem Hcompl Hne Hfeeds Htags Hdb Hstart Hscript.
  unfold builder_start in Hstart. simpl in Hstart.
  destruct (pool_for_alpn _ _ cache) as [p0 c0]. injection Hstart as _ <- <- _.
  by eapply find_delivers.
Qed.

(** C7: finding a publisher that starts later.  A client whose registry has a DHT
    backend and no other, without required tags, looks for a service before
    anybody publishes it; then a node starts to publish it: a first round at
    [start], and when that has returned, at [first], the interval is made that
    brings on a round every [interval] seconds, where [interval] divides a
    minute; every round succeeds, nobody else publishes the service, and the
    client's feed polls every minute, or every few minutes.  If the feed was
    created at a second of the minute before that of [start], and before the
    first second at which a later round falls, then however long the client
    waits, nobody is ever dialled: each tick queries only its own minute, in
    which no round was run yet.  If the feed was created at or after the first
    second at which a later round falls, the publisher is dialled once there was
    such a round and a tick after it, and [first] returns a channel if it can be
    reached.  A burst within a minute of [start], or at any time after the first
    tick of the interval, would find it. *)
Theorem late_publisher_found_by_phase overflow_checks sk tags service start first interval created n completion
    (r : ServiceRegistry Err') feeds db cache pool engine cfg cache' script st ls st' :
  let alpn := service_to_alpn service in
  let poll := db_poll_interval db in
  let last := (created + Z.of_nat n * poll)%Z in
  (* the publisher and the feed's clock *)
  (0 < interval)%Z → (interval | 60)%Z → (0 < poll)%Z → (60 | poll)%Z → (0 ≤ created < start)%Z →
  (start ≤ first)%Z → (last + DHT_AD_TTL_SECS ≤ u64_max)%Z →
  rounds_ok (PcError := PcError) overflow_checks alpn sk tags ∅ (rounds_until start first interval last) = true →
  (∀ offset, completion offset ≡ₚ range 0 DHT_SHARD_COUNT) →
  (* the client's registry *)
  public sk ≠ sr_local_id r → backends r = [feeds] → db_required_tags db = [] →
  dht_backend_feeds db alpn
    (burst_at (PcError := PcError) overflow_checks alpn sk tags start first interval created completion)
    (ticks_at (PcError := PcError) overflow_checks alpn sk tags start first interval completion
       (tick_times created poll n)) = Some (feeds alpn) →
  (* [find], and what it has done so far *)
  builder_start (find_service r service) cache = ((pool, engine, cfg), cache') →
  script_items script ≡ₚ (f ← se_inner engine; tagged_items f) →
  spawn_with_pool (engine_outputs engine script) cfg = Some st →
  locator_run timed_out_message pool_channel cfg st ls = Some st' →
  LoDrop ∉ ls → LoTimeout ∉ ls → lo_peers st' = [] → inflight st' = [] →
  ((created mod 60 < first mod interval)%Z → (created mod 60 < start mod 60)%Z →
   delivered st' = [] ∧ Locator.first (delivered st') = Err (error_connection "no peers reachable")) ∧
  ((first mod interval ≤ created mod 60)%Z → (first + interval ≤ last)%Z →
   (∃ peer, peer_id peer = public sk ∧ attempt timed_out_message pool_channel cfg peer ∈ delivered st') ∧
   ∀ ch, pool_channel (public sk) = Some (Ok ch) → ∃ ch', Locator.first (delivered st') = Ok ch') ∧
  (∀ now, (start ≤ now ≤ last)%Z → (now < start + 60 ∨ first + interval ≤ now)%Z → ∃ out,
     dht_burst (E := Err') [] (db_trust db)
       (burst_at (PcError := PcError) overflow_checks alpn sk tags start first interval now completion)
       = Some out ∧
     Ok (MkDiscoveredPeer (public sk) (db_trust db)) ∈ out).
Proof.
  intros alpn poll last Hi Hdiv Hp Hpdiv Hc Hf Hlast Hok Hcompl Hne Hfeeds Htags Hdb Hstart Hscript.
  destruct (polls_depend_on_phase (E := Err') overflow_checks alpn sk tags start first interval created poll n
    completion (db_priority db) (db_trust db)) as (spec & Hspec & Hbefore & Hafter & Hburst); [done..|].
  unfold dht_backend_feeds in Hdb. rewrite Htags in Hdb. unfold feed_over in Hspec.
  rewrite Hspec in Hdb. injection Hdb as Hdb.
  assert (Hbuild : build_feeds r alpn = [spec]).
  { unfold build_feeds. rewrite Hfeeds. simpl. by rewrite app_nil_r. }
  unfold builder_start in Hstart. simpl in Hstart.
  destruct (pool_for_alpn _ _ cache) as [p0 c0]. injection Hstart as _ <- <- _.
  intros Hspawn Hrun Hnd Hnt Hpeers Hinf. split_and!; [| |done].
  - intros Hphase Hsec. assert (delivered st' = []) as ->; [|done].
    eapply find_silent; [|done..]. fold alpn. rewrite Hbuild.
    intros spec' ->%list_elem_of_singleton. by apply Hbefore.
  - intros Hphase Hle. destruct (find_dials r service (public sk) (db_trust db) spec
      LocatorConfig_default script st ls st') as [Hdial Hfirst]; try done.
    + fold alpn. rewrite Hbuild. by left.
    + unfold dht_feed in Hspec. apply bind_Some in Hspec as (? & _ & (? & _ & [= <-])%bind_Some).
      by apply bool_decide_eq_true_2.
    + by apply Hafter.
    + split; [done|]. intros ch Hch. destruct (Hfirst ch Hch) as (ch' & peer & ? & _). eauto.
Qed.
End Find.

(** ** Concrete inputs *)

Module FindDemo.
Import Demo RecordDemo PublishDemo ListChannel.

Definition demo_service : string := "echo.v1.EchoService".
Definition demo_alpn : bytes := service_to_alpn demo_service.
Definition demo_node : SecretKey := demo_sk x07.
Definition demo_shard : Z := default 0%Z (head (replica_shards (as_bytes (public demo_node)) demo_alpn)).
Abbreviation demo_publish :=
  (publish_shard (PcError := unit) true (Some 1000%Z) (λ _, empty_dht) demo_node demo_alpn
     demo_shard []).
Definition demo_item : MutableItem :=
  default (item_new ([] : bytes) [] 0%Z None) (head demo_publish.2).
Definition demo_completion (_ : Z) : list Z := range 0 DHT_SHARD_COUNT.
Definition demo_feeds (alpn : bytes) : list (PeerFeedSpec (Error unit)) :=
  default [] (dht_backend_feeds with_dht alpn
    (burst_over (PcError := unit) (λ _ _, [demo_item]) alpn 1030 demo_completion) []).
Definition demo_registry : ServiceRegistry (Error unit) :=
  MkServiceRegistry (public (demo_sk x01)) [demo_feeds] PoolOptions_default.
Definition demo_engine : SwarmEngine (Error unit) := discover demo_registry demo_service.
Definition demo_script : list (Poll (option (Result (Error unit) Peer))) :=
  (λ item, Ready (Some item)) <$> (f ← se_inner demo_engine; tagged_items f).

Lemma script_items_ready {E} (l : list (Result E Peer)) :
  script_items ((λ item, Ready (Some item)) <$> l) = l.
Proof. induction l as [|x l IH]; [done|]. csimpl. by rewrite IH. Qed.

Definition demo_channel (_ : @EndpointId keys) : option (Result (Error unit) nat) := Some (Ok 5).
Definition demo_message (_ : Z) : string := "connection timed out".
Definition demo_start : LocatorState unit nat :=
  default (MkLocatorState [] [] false (LChan [] 0 true) [] true)
    (spawn_with_pool (engine_outputs demo_engine demo_script) LocatorConfig_default).
Definition demo_end : LocatorState unit nat :=
  default demo_start (locator_run demo_message demo_channel LocatorConfig_default demo_start
    [LoPeer; LoAttempt 0; LoRecv]).

Lemma find_reaches_publisher_witness :
  ∃ ch peer, first (delivered demo_end) = Ok ch ∧
    Ok peer ∈ engine_outputs demo_engine demo_script ∧ demo_channel (peer_id peer) = Some (Ok ch).
Proof.
  refine (proj2 (find_reaches_publisher (PcError := unit) demo_message demo_channel true 1000
    (λ _, empty_dht) demo_node demo_service demo_shard [] demo_publish.1 demo_publish.2 demo_item
    (λ _ _, [demo_item]) 1030 demo_completion demo_registry demo_feeds with_dht [] cache_new 0
    demo_engine LocatorConfig_default (MkPoolCache {[MkPoolKey demo_alpn PoolOptions_default := 0]}
      [MkPoolKey demo_alpn PoolOptions_default]) demo_script demo_start
    [LoPeer; LoAttempt 0; LoRecv] demo_end _ _ _ _ _ _ _ _ _ _ _ _ _ _ _ _ _ _ _ _ _) 5 _).
  - lia.
  - lia.
  - unfold u64_max, DHT_AD_TTL_SECS. lia.
  - apply list_elem_of_lookup_2 with 0. vm_eq.
  - apply surjective_pairing.
  - intros k b Hb. inversion Hb.
  - apply list_elem_of_lookup_2 with 0. vm_eq.
  - apply list_elem_of_here.
  - done.
  - vm_compute. discriminate.
  - apply list_elem_of_here.
  - reflexivity.
  - unfold demo_feeds. reflexivity.
  - vm_eq.
  - unfold demo_script. rewrite script_items_ready. reflexivity.
  - vm_eq.
  - vm_eq.
  - set_solver.
  - set_solver.
  - vm_eq.
  - vm_eq.
  - reflexivity.
Defined.

(** A publisher whose first round, at second 20 of a minute, takes two seconds,
    with later rounds at seconds 52 and 22, and feeds created at second 5 and
    second 25 of an earlier minute. *)
Abbreviation late_burst := (burst_at (PcError := unit) (E := Error unit) true demo_alpn demo_node [] 1040 1042 30).
Abbreviation late_ticks := (ticks_at (PcError := unit) (E := Error unit) true demo_alpn demo_node [] 1040 1042 30).
(** What their feed yields: the publisher, once per shard and tick that finds it,
    [found] times in all. *)
Definition late_feeds (found : nat) (alpn : bytes) : list (PeerFeedSpec (Error unit)) :=
  [{| pf_name := "dht"; pf_priority := 100; pf_trust := 50; pf_scope := ScopeService alpn;
      pf_stream := replicate found (Ok (MkDiscoveredPeer (public demo_node) 50)) |}].
Definition late_registry (found : nat) : ServiceRegistry (Error unit) :=
  MkServiceRegistry (public (demo_sk x01)) [late_feeds found] PoolOptions_default.
Definition late_engine (found : nat) : SwarmEngine (Error unit) :=
  discover (late_registry found) demo_service.
Definition late_script (found : nat) : list (Poll (option (Result (Error unit) Peer))) :=
  (λ item, Ready (Some item)) <$> (f ← se_inner (late_engine found); tagged_items f).
Definition late_start (found : nat) : LocatorState unit nat :=
  default (MkLocatorState [] [] false (LChan [] 0 true) [] true)
    (spawn_with_pool (engine_outputs (late_engine found) (late_script found)) LocatorConfig_default).
Definition late_end (found : nat) (ls : list LocatorLabel) : LocatorState unit nat :=
  default (late_start found)
    (locator_run demo_message demo_channel LocatorConfig_default (late_start found) ls).
Definition demo_cache : PoolCache :=
  MkPoolCache {[MkPoolKey demo_alpn PoolOptions_default := 0]} [MkPoolKey demo_alpn PoolOptions_default].

(** The facts of the two runs that evaluation decides. *)
Definition late_facts (created : Z) (found : nat) (ls : list LocatorLabel) : Prop :=
  rounds_ok (PcError := unit) true demo_alpn demo_node [] ∅ (rounds_until 1040 1042 30 (created + Z.of_nat 3 * db_poll_interval with_dht)) = true ∧
  dht_backend_feeds with_dht demo_alpn (late_burst created demo_completion)
    (late_ticks demo_completion (tick_times created (db_poll_interval with_dht) 3)) = Some (late_feeds found demo_alpn) ∧
  builder_start (find_service (late_registry found) demo_service) cache_new =
    ((0, late_engine found, LocatorConfig_default), demo_cache) ∧
  spawn_with_pool (engine_outputs (late_engine found) (late_script found)) LocatorConfig_default =
    Some (late_start found) ∧
  locator_run demo_message demo_channel LocatorConfig_default (late_start found) ls =
    Some (late_end found ls) ∧
  lo_peers (late_end found ls) = [] ∧ inflight (late_end found ls) = [].

Ltac not_listed :=
  let H := fresh in intros H; repeat (apply elem_of_cons in H as [H|H]; [discriminate H|]);
  apply elem_of_nil in H; exact H.

(** What is left of the hypotheses, at [created]. *)
Lemma late_hypotheses (created : Z) (found : nat) :
  (0 ≤ created < 1040)%Z → (created ≤ 1000)%Z →
  (0 < db_poll_interval with_dht)%Z ∧ (30 | 60)%Z ∧ (60 | db_poll_interval with_dht)%Z ∧
  (created + Z.of_nat 3 * db_poll_interval with_dht + DHT_AD_TTL_SECS ≤ u64_max)%Z ∧
  (∀ offset, demo_completion offset ≡ₚ range 0 DHT_SHARD_COUNT) ∧
  public demo_node ≠ sr_local_id (late_registry found) ∧
  script_items (late_script found) ≡ₚ (f ← se_inner (late_engine found); tagged_items f).
Proof.
  intros H0 Hc. split_and!.
  - done.
  - by exists 2%Z.
  - by exists 1%Z.
  - unfold u64_max, DHT_AD_TTL_SECS. simpl. lia.
  - intros offset. apply Permutation_refl.
  - change (sr_local_id (late_registry found)) with (public (demo_sk x01)). vm_compute. discriminate.
  - unfold late_script. rewrite script_items_ready. apply Permutation_refl.
Qed.

Abbreviation late_theorem created found ls :=
  (late_publisher_found_by_phase (PcError := unit) demo_message demo_channel true demo_node []
    demo_service 1040 1042 30 created 3 demo_completion (late_registry found) (late_feeds found) with_dht
    cache_new 0 (late_engine found) LocatorConfig_default demo_cache (late_script found)
    (late_start found) ls (late_end found ls)).

Lemma late_publisher_found_by_phase_witness :
  first (delivered (late_end 0 [LoPeer; LoBreak])) = Err (error_connection "no peers reachable") ∧
  ∃ ch, first (delivered (late_end 6 [LoPeer; LoAttempt 0; LoRecv])) = Ok ch.
Proof.
  split.
  - assert (late_facts 965 0 [LoPeer; LoBreak]) as (F1 & F2 & F3 & F4 & F5 & F6 & F7)
      by (unfold late_facts; split_and!; vm_eq).
    destruct (late_hypotheses 965 0) as (H1 & H2 & H3 & H4 & H5 & H6 & H7); [lia|lia|].
    refine (proj2 (proj1 (late_theorem 965 0 [LoPeer; LoBreak] ltac:(lia) H2 H1 H3 ltac:(lia) ltac:(lia) H4 F1
      H5 H6 eq_refl eq_refl F2 F3 H7 F4 F5 ltac:(not_listed) ltac:(not_listed) F6 F7) _ _));
      apply Z.ltb_lt; vm_eq.
  - assert (late_facts 985 6 [LoPeer; LoAttempt 0; LoRecv]) as (F1 & F2 & F3 & F4 & F5 & F6 & F7)
      by (unfold late_facts; split_and!; vm_eq).
    destruct (late_hypotheses 985 6) as (H1 & H2 & H3 & H4 & H5 & H6 & H7);
      [lia|lia|].
    refine (proj2 (proj1 (proj2 (late_theorem 985 6 [LoPeer; LoAttempt 0; LoRecv] ltac:(lia) H2 H1 H3
      ltac:(lia) ltac:(lia) H4 F1 H5 H6 eq_refl eq_refl F2 F3 H7 F4 F5 ltac:(not_listed) ltac:(not_listed) F6 F7))
      _ _) 5 eq_refl).
    + apply Z.leb_le. vm_eq.
    + apply Z.leb_le. vm_eq.
Defined.
End FindDemo.
