(* ===== verification/Channel.v ===== *)
(** * The gRPC channel over HTTP/2

    Models [src/channel.rs]: origin rewriting, the pump that moves a request
    body into an HTTP/2 send stream, the call, and the response body's state
    machine.  What the body, the send stream and the receive stream do at each
    poll is a parameter. *)
From S2P Require Import Prelude PoolActor Errors.

(** ** [apply_origin] *)

(** [http::uri::Parts] *)
Record UriParts := MkUriParts {
  scheme : option string;
  authority : option string;
  path_and_query : option string;
}.

Section Origin.
Context {ConnectError : Type}.
(** [Uri::from_parts], with its error message, and [Authority::try_from]. *)
Context (from_parts : UriParts → Result string UriParts)
  (authority_try_from : string → option string).

Definition apply_origin (uri origin : UriParts) : Result (Error ConnectError) UriParts :=
  let parts := {|
    scheme := match scheme origin with Some s => Some s | None => Some "http"%string end;
    authority :=
      match authority origin with
      | Some a => Some a
      | None => authority_try_from "iroh.local"
      end;
    path_and_query := path_and_query uri;
  |} in
  map_err (λ e, error_connection ("invalid request URI: " +:+ e)) (from_parts parts).
End Origin.

(** ** [pump_body] *)

Section Pump.
Context {ConnectError Trailers : Type}.

(** The frames of a request body, as its polls yield them. *)
Inductive Frame := FData (data : bytes) | FTrailers (trailers : Trailers) | FOther.

(** The outcome of waiting for capacity. *)
Inductive Capacity := CapReady | CapError (e : string) | CapClosed.

(** How the send stream answers the [n]-th time it is asked. *)
Record SendEnv := MkSendEnv {
  poll_capacity : nat → Capacity;
  send_data_result : nat → Result string unit;
  send_trailers_result : nat → Result string unit;
}.

(** What was done to the send stream. *)
Inductive SendOp :=
  | OpReserve (len : nat)
  | OpData (data : bytes) (end_of_stream : bool)
  | OpTrailers (trailers : Trailers)
  | OpReset.

Abbreviation Res := (Result (Error ConnectError) unit).

(** The loop over the frames the body yields before it ends; [n] counts its
    iterations. *)
Fixpoint pump_loop (env : SendEnv) (n : nat) (frames : list (Result string Frame))
  : Res * list SendOp :=
  match frames with
  | Ok (FData data) :: frames =>
      match poll_capacity env n with
      | CapReady =>
          match send_data_result env n with
          | Err e => (Err (ErrH2 e), [OpReserve (length data)])
          | Ok _ =>
              let '(r, ops) := pump_loop env (S n) frames in
              (r, OpReserve (length data) :: OpData data false :: ops)
          end
      | CapError e => (Err (ErrH2 e), [OpReserve (length data)])
      | CapClosed =>
          (Err (ErrConnection "stream closed while reserving capacity"), [OpReserve (length data)])
      end
  | Ok (FTrailers trailers) :: _ =>
      match send_trailers_result env n with
      | Err e => (Err (ErrH2 e), [])
      | Ok _ => (Ok tt, [OpTrailers trailers])
      end
  | Ok FOther :: frames => pump_loop env (S n) frames
  | Err e :: _ => (Err (ErrConnection ("request body error: " +:+ e)), [])
  | [] =>
      match send_data_result env n with
      | Err e => (Err (ErrH2 e), [])
      | Ok _ => (Ok tt, [OpData [] true])
      end
  end.

Definition pump_body (env : SendEnv) (frames : list (Result string Frame)) : Res * list SendOp :=
  pump_loop env 0 frames.

(** ** [call] *)

(** The environment of a call: [apply_origin]'s result, [send_request],
    [body.is_end_stream()], the body, and the response. *)
Record CallEnv (Parts : Type) := MkCallEnv {
  ce_uri : Result (Error ConnectError) UriParts;
  ce_send_request : UriParts → bool → Result string unit;
  ce_body_is_empty : bool;
  ce_body : list (Result string Frame);
  ce_send : SendEnv;
  ce_response : Result string Parts;
}.
Arguments MkCallEnv {Parts} _ _ _ _ _ _.
Arguments ce_uri {Parts} _.
Arguments ce_send_request {Parts} _ _ _.
Arguments ce_body_is_empty {Parts} _.
Arguments ce_body {Parts} _.
Arguments ce_send {Parts} _.
Arguments ce_response {Parts} _.

Definition call {Parts} (env : CallEnv Parts) : Result (Error ConnectError) Parts * list SendOp :=
  match ce_uri env with
  | Err e => (Err e, [])
  | Ok uri =>
      match ce_send_request env uri (ce_body_is_empty env) with
      | Err e => (Err (ErrH2 e), [])
      | Ok _ =>
          let '(r, ops) :=
            if ce_body_is_empty env then (Ok tt, []) else pump_body (ce_send env) (ce_body env) in
          match r with
          | Err e => (Err e, ops ++ [OpReset])
          | Ok _ => (map_err ErrH2 (ce_response env), ops)
          end
      end
  end.

(** *** Theorems *)

(** The bytes and the end-of-stream markers of a sequence of operations. *)
Definition op_bytes (op : SendOp) : bytes :=
  match op with OpData data _ => data | _ => [] end.
Definition op_ends (op : SendOp) : bool :=
  match op with OpData _ eos => eos | OpTrailers _ => true | _ => false end.

(** The data frames before the first frame of trailers. *)
Fixpoint body_data (frames : list (Result string Frame)) : list bytes :=
  match frames with
  | Ok (FData data) :: frames => data :: body_data frames
  | Ok FOther :: frames => body_data frames
  | _ => []
  end.

Lemma pump_loop_facts env n frames r ops :
  pump_loop env n frames = (r, ops) →
  concat (op_bytes <$> ops) `prefix_of` concat (body_data frames) ∧
  match r with
  | Ok _ => concat (op_bytes <$> ops) = concat (body_data frames) ∧
      ∃ ops' last, ops = ops' ++ [last] ∧ op_ends last = true ∧
        Forall (λ op, op_ends op = false) ops'
  | Err _ => Forall (λ op, op_ends op = false) ops
  end.
Proof.
  revert n r ops. induction frames as [|[[data|trailers|]|e] frames IH]; intros n r ops; simpl.
  - destruct (send_data_result env n); intros [= <- <-]; simpl; [|done].
    split; [done|]. split; [done|]. by exists [], (OpData [] true).
  - destruct (poll_capacity env n); [|intros [= <- <-]; csimpl..].
    2,3: split; [apply prefix_nil|]; by repeat constructor.
    destruct (send_data_result env n).
    2: { intros [= <- <-]; csimpl. split; [apply prefix_nil|]. by repeat constructor. }
    destruct (pump_loop env (S n) frames) as [r' ops'] eqn:E. intros [= <- <-]. csimpl.
    destruct (IH _ _ _ E) as [Hpre Hr]. split; [by apply prefix_app|].
    destruct r' as [u|e]; [|by repeat constructor].
    destruct Hr as (-> & ops1 & last & -> & Hl & Hall). split; [done|].
    exists (OpReserve (length data) :: OpData data false :: ops1), last.
    split_and!; [done..|]. by repeat constructor.
  - destruct (send_trailers_result env n); intros [= <- <-]; csimpl; [|done].
    split; [done|]. split; [done|]. by exists [], (OpTrailers trailers).
  - apply IH.
  - intros [= <- <-]. csimpl. split; [done|]. done.
Qed.

(** A request body is sent whole or not at all: the bytes given to the stream
    are a prefix of the body's, in order; on success they are all of them and
    the stream is ended exactly once, last; and when pumping fails, nothing has
    ended the stream and the call resets it. *)
Lemma call_sends_body {Parts} (env : CallEnv Parts) r ops :
  call env = (r, ops) → ce_body_is_empty env = false →
  concat (op_bytes <$> ops) `prefix_of` concat (body_data (ce_body env)) ∧
  (is_ok r = true →
   concat (op_bytes <$> ops) = concat (body_data (ce_body env)) ∧
   ∃ ops' last, ops = ops' ++ [last] ∧ op_ends last = true ∧
     Forall (λ op, op_ends op = false) ops') ∧
  (∀ uri u e, ce_uri env = Ok uri → ce_send_request env uri false = Ok u →
   (pump_body (ce_send env) (ce_body env)).1 = Err e →
   r = Err e ∧ ∃ ops', ops = ops' ++ [OpReset] ∧ Forall (λ op, op_ends op = false) ops').
Proof.
  unfold call. intros Hc He. rewrite He in Hc.
  destruct (ce_uri env) as [uri|e].
  2: { injection Hc as <- <-. csimpl. split_and!; [apply prefix_nil|done|done]. }
  destruct (ce_send_request env uri false) as [u|e] eqn:Es.
  2: { injection Hc as <- <-. csimpl. split_and!; [apply prefix_nil|done|congruence]. }
  unfold pump_body in *. destruct (pump_loop (ce_send env) 0 (ce_body env)) as [r1 ops1] eqn:Ep.
  destruct (pump_loop_facts _ _ _ _ _ Ep) as [Hpre Hr].
  destruct r1 as [u1|e1]; injection Hc as <- <-.
  - split_and!; [done|done|done].
  - rewrite fmap_app, concat_app. csimpl. rewrite app_nil_r.
    split_and!; [done|done|]. intros uri' u' e _ _ [= <-]. split; [done|]. eauto.
Qed.
End Pump.

(** ** The response body *)

Section ResponseBody.
Context {Trailers : Type}.

(** [RecvStream::poll_data] and [poll_trailers]; [released]: whether releasing
    flow-control capacity for the data succeeds. *)
Inductive DataPoll :=
  | DpData (data : bytes) (released : Result string unit)
  | DpError (e : string)
  | DpEnd
  | DpPending.
Inductive TrailersPoll :=
  | TpTrailers (trailers : Trailers)
  | TpNone
  | TpError (e : string)
  | TpPending.

(** A receive stream: what its next polls yield.  A stream whose script has run
    out is pending. *)
Record RecvStream := MkRecvStream { data_polls : list DataPoll; trailers_polls : list TrailersPoll }.

Inductive BodyState := BData (recv : RecvStream) | BTrailers (recv : RecvStream) | BDone.

(** [Poll<Option<Result<Frame, Status>>>]; a [Status] is its message. *)
Inductive FramePoll :=
  | FpData (data : bytes)
  | FpTrailers (trailers : Trailers)
  | FpError (status : string)
  | FpEnd
  | FpPending.

Definition body_default : BodyState := BDone.
Definition body_new (recv : RecvStream) : BodyState := BData recv.

(** The [BodyState::Trailers] arm. *)
Definition poll_trailers_arm (recv : RecvStream) : FramePoll * BodyState :=
  match trailers_polls recv with
  | TpTrailers trailers :: _ => (FpTrailers trailers, BDone)
  | TpNone :: _ => (FpEnd, BDone)
  | TpError e :: _ => (FpError ("h2 trailers error: " +:+ e), BDone)
  | TpPending :: ps => (FpPending, BTrailers (MkRecvStream (data_polls recv) ps))
  | [] => (FpPending, BTrailers recv)
  end.

(** [poll_frame]: the loop goes round once, from [Data] to [Trailers]. *)
Definition poll_frame (st : BodyState) : FramePoll * BodyState :=
  match st with
  | BData recv =>
      match data_polls recv with
      | DpData data released :: ps =>
          match released with
          | Err e => (FpError ("flow control error: " +:+ e), BDone)
          | Ok _ => (FpData data, BData (MkRecvStream ps (trailers_polls recv)))
          end
      | DpError e :: _ => (FpError ("h2 data error: " +:+ e), BDone)
      | DpEnd :: ps => poll_trailers_arm (MkRecvStream ps (trailers_polls recv))
      | DpPending :: ps => (FpPending, BData (MkRecvStream ps (trailers_polls recv)))
      | [] => (FpPending, BData recv)
      end
  | BTrailers recv => poll_trailers_arm recv
  | BDone => (FpEnd, BDone)
  end.

(** The results of [n] polls. *)
Fixpoint poll_frames (n : nat) (st : BodyState) : list FramePoll :=
  match n with
  | O => []
  | S n => let '(p, st) := poll_frame st in p :: poll_frames n st
  end.

Definition pending (p : FramePoll) : bool :=
  match p with FpPending => true | _ => false end.

(** What the stream holds, in order: its data, then its trailers; an error or
    the end is last. *)
Fixpoint trailers_items (ps : list TrailersPoll) : list FramePoll :=
  match ps with
  | [] => []
  | TpTrailers trailers :: _ => [FpTrailers trailers; FpEnd]
  | TpNone :: _ => [FpEnd]
  | TpError e :: _ => [FpError ("h2 trailers error: " +:+ e); FpEnd]
  | TpPending :: ps => trailers_items ps
  end.
Fixpoint data_items (ds : list DataPoll) (ts : list TrailersPoll) : list FramePoll :=
  match ds with
  | [] => []
  | DpData data (Ok _) :: ds => FpData data :: data_items ds ts
  | DpData _ (Err e) :: _ => [FpError ("flow control error: " +:+ e); FpEnd]
  | DpError e :: _ => [FpError ("h2 data error: " +:+ e); FpEnd]
  | DpEnd :: _ => trailers_items ts
  | DpPending :: ds => data_items ds ts
  end.
Definition body_items (st : BodyState) : list FramePoll :=
  match st with
  | BData recv => data_items (data_polls recv) (trailers_polls recv)
  | BTrailers recv => trailers_items (trailers_polls recv)
  | BDone => [FpEnd]
  end.

(** One poll: nothing yet, the next item, or the last item again and again. *)
Lemma poll_frame_items st :
  let '(p, st') := poll_frame st in
  if pending p then body_items st' = body_items st
  else body_items st = p :: body_items st' ∨ (p = FpEnd ∧ body_items st = [FpEnd] ∧ st' = BDone).
Proof.
  destruct st as [[ds ts]|[ds ts]|]; simpl; [| |by right].
  - destruct ds as [|[data [u|e]|e| |] ds]; simpl; auto.
    destruct ts as [|[t| |e|] ts]; simpl; auto.
  - destruct ts as [|[t| |e|] ts]; simpl; auto.
Qed.

Lemma poll_frames_done n : poll_frames n BDone = replicate n FpEnd.
Proof. induction n as [|n IH]; simpl; [done|]. by rewrite IH. Qed.

(** The response body yields the data frames of the stream in order, then its
    trailers if it has any; an error ends it; and once it has ended it answers
    every poll with the end: apart from pending polls, the results are a prefix
    of the stream's contents followed by ends. *)
Lemma response_body_frames st n :
  ∃ ends, filter (λ p, pending p = false) (poll_frames n st) `prefix_of`
    body_items st ++ replicate ends FpEnd.
Proof.
  revert st. induction n as [|n IH]; intros st; simpl; [by exists 0; apply prefix_nil|].
  pose proof (poll_frame_items st) as Hp. destruct (poll_frame st) as [p st'].
  destruct (pending p) eqn:E.
  - rewrite filter_cons_False by congruence. rewrite <-Hp. apply IH.
  - rewrite filter_cons_True by done. destruct Hp as [->|(-> & -> & ->)].
    + destruct (IH st') as [k Hk]. exists k. by apply prefix_cons.
    + exists n. rewrite poll_frames_done, filter_all; [done|].
      by intros p [-> _]%elem_of_replicate.
Qed.
End ResponseBody.

(** ** Concrete inputs *)

Module ChannelDemo.

Definition demo_bytes (s : string) : bytes := string_bytes s.
Definition demo_send : SendEnv :=
  MkSendEnv (λ n, if n =? 2 then CapClosed else CapReady) (λ _, Ok tt) (λ _, Ok tt).
Definition demo_uri : UriParts := MkUriParts None None (Some "/echo.Echo/Echo"%string).
Definition demo_origin : UriParts := MkUriParts (Some "http"%string) (Some "iroh.local"%string) None.
Definition demo_call (frames : list (Result string (@Frame nat))) : @CallEnv unit nat nat :=
  @MkCallEnv unit nat nat (apply_origin (@Ok _ _) (λ _, None) demo_uri demo_origin)
    (λ _ _, Ok tt) false frames demo_send (Ok 200).

(** Two frames are sent; with a third, the stream closes and is reset. *)
Example call_demo :
  call (demo_call [Ok (FData (demo_bytes "ab")); Ok (FData (demo_bytes "c"))]) =
  (Ok 200, [OpReserve 2; OpData (demo_bytes "ab") false; OpReserve 1;
            OpData (demo_bytes "c") false; OpData [] true]).
Proof. vm_compute. reflexivity. Qed.

Definition demo_recv : RecvStream :=
  MkRecvStream [DpPending; DpData (demo_bytes "x") (Ok tt); DpEnd] [TpPending; TpTrailers 5].

Example body_demo :
  poll_frames 6 (body_new demo_recv) =
  [FpPending; FpData (demo_bytes "x"); FpPending; FpTrailers 5; FpEnd; FpEnd].
Proof. vm_compute. reflexivity. Qed.
End ChannelDemo.
