(* ===== verification/Bidi.v ===== *)
(** * Bidirectional calls

    [IrohChannel::call] ([src/channel.rs]) as the state machine its future is,
    with every point at which it waits, next to [Channel]'s [call], which runs
    it to its end; and a call whose handler answers while the request body is
    still being sent, as the bidirectional methods do. *)
From S2P Require Import Prelude PoolActor Errors Channel.

#[local] Arguments ce_uri {_ _ _} _.
#[local] Arguments ce_send_request {_ _ _} _ _ _.
#[local] Arguments ce_body_is_empty {_ _ _} _.
#[local] Arguments ce_body {_ _ _} _.
#[local] Arguments ce_send {_ _ _} _.
#[local] Arguments ce_response {_ _ _} _.

(** ** The future of a call *)

Section Future.
Context {ConnectError Trailers Parts : Type}.
Abbreviation Frame := (@Frame Trailers).
Abbreviation SendOp := (@SendOp Trailers).

(** Where the future is: it polls the body for a frame, waits for capacity to
    send [data], awaits the response, or is over. *)
Inductive CallPc :=
  | CpStart
  | CpBody
  | CpCapacity (data : bytes)
  | CpResponse
  | CpDone (r : Result (Error ConnectError) Parts).

(** [ca_turns]: the turns of [pump_body]'s loop that are over. *)
Record CallState := MkCallState { ca_pc : CallPc; ca_turns : nat; ca_ops : list SendOp }.
Definition call_new : CallState := MkCallState CpStart 0 [].

(** What the future finds when it is polled: the results of [apply_origin],
    [is_end_stream] and [send_request]; nothing yet; a frame of the body, the
    result of [send_trailers] with it, or the body's end and the result of the
    last [send_data]; the capacity and the result of [send_data]; the
    response. *)
Inductive CallEvent :=
  | EvStart (uri : Result (Error ConnectError) UriParts) (body_is_empty : bool) (sent : Result string unit)
  | EvPending
  | EvFrame (frame : Result string Frame) (sent : Result string unit)
  | EvBodyEnd (sent : Result string unit)
  | EvCapacity (c : Capacity) (sent : Result string unit)
  | EvResponse (r : Result string Parts).

Definition call_goto (pc : CallPc) (ops : list SendOp) (st : CallState) : CallState :=
  MkCallState pc (ca_turns st) (ca_ops st ++ ops).
(** A turn of the loop ends and the next one begins. *)
Definition next_turn (ops : list SendOp) (st : CallState) : CallState :=
  MkCallState CpBody (S (ca_turns st)) (ca_ops st ++ ops).
(** Once the headers are out, an error resets the stream. *)
Definition call_fail (e : Error ConnectError) (st : CallState) : CallState :=
  call_goto (CpDone (Err e)) [OpReset] st.

Definition call_step (st : CallState) (ev : CallEvent) : option CallState :=
  match ca_pc st, ev with
  | CpStart, EvStart (Err e) _ _ => Some (call_goto (CpDone (Err e)) [] st)
  | CpStart, EvStart (Ok _) _ (Err e) => Some (call_goto (CpDone (Err (ErrH2 e))) [] st)
  | CpStart, EvStart (Ok _) body_is_empty (Ok _) =>
      Some (call_goto (if body_is_empty then CpResponse else CpBody) [] st)
  | CpBody, EvFrame (Ok (FData data)) _ => Some (call_goto (CpCapacity data) [OpReserve (length data)] st)
  | CpBody, EvFrame (Ok (FTrailers _)) (Err e) => Some (call_fail (ErrH2 e) st)
  | CpBody, EvFrame (Ok (FTrailers trailers)) (Ok _) =>
      Some (call_goto CpResponse [OpTrailers trailers] st)
  | CpBody, EvFrame (Ok FOther) _ => Some (next_turn [] st)
  | CpBody, EvFrame (Err e) _ => Some (call_fail (ErrConnection ("request body error: " +:+ e)) st)
  | CpBody, EvBodyEnd (Err e) => Some (call_fail (ErrH2 e) st)
  | CpBody, EvBodyEnd (Ok _) => Some (call_goto CpResponse [OpData [] true] st)
  | CpCapacity _, EvCapacity (CapError e) _ => Some (call_fail (ErrH2 e) st)
  | CpCapacity _, EvCapacity CapClosed _ =>
      Some (call_fail (ErrConnection "stream closed while reserving capacity") st)
  | CpCapacity _, EvCapacity CapReady (Err e) => Some (call_fail (ErrH2 e) st)
  | CpCapacity data, EvCapacity CapReady (Ok _) => Some (next_turn [OpData data false] st)
  | CpResponse, EvResponse r => Some (call_goto (CpDone (map_err ErrH2 r)) [] st)
  | (CpBody | CpCapacity _ | CpResponse), EvPending => Some st
  | _, _ => None
  end.

Fixpoint call_run (st : CallState) (evs : list CallEvent) : option CallState :=
  match evs with
  | [] => Some st
  | ev :: evs => st ← call_step st ev; call_run st evs
  end.

(** *** The future computes [call] *)

Abbreviation CallEnv := (@CallEnv ConnectError Trailers Parts).
Implicit Types (env : CallEnv) (st : CallState) (ev : CallEvent).

(** The events are what the environment of [call] says; only when they come is
    open. *)
Definition agrees env st ev : Prop :=
  match ev with
  | EvStart uri empty sent =>
      uri = ce_uri env ∧ empty = ce_body_is_empty env ∧
      ∀ u, ce_uri env = Ok u → sent = ce_send_request env u empty
  | EvPending => True
  | EvFrame f sent =>
      ce_body env !! ca_turns st = Some f ∧ sent = send_trailers_result (ce_send env) (ca_turns st)
  | EvBodyEnd sent =>
      ce_body env !! ca_turns st = None ∧ sent = send_data_result (ce_send env) (ca_turns st)
  | EvCapacity c sent =>
      c = poll_capacity (ce_send env) (ca_turns st) ∧ sent = send_data_result (ce_send env) (ca_turns st)
  | EvResponse r => r = ce_response env
  end.

Fixpoint agreeing env st (evs : list CallEvent) : Prop :=
  match evs with
  | [] => True
  | ev :: evs => agrees env st ev ∧ ∀ st', call_step st ev = Some st' → agreeing env st' evs
  end.

(** What is left of the call after [ops], once the body is pumped. *)
Definition finish env (ops : list SendOp) (pumped : Result (Error ConnectError) unit * list SendOp)
  : Result (Error ConnectError) Parts * list SendOp :=
  match pumped.1 with
  | Err e => (Err e, ops ++ pumped.2 ++ [OpReset])
  | Ok _ => (map_err ErrH2 (ce_response env), ops ++ pumped.2)
  end.

Definition pump_rest env (n : nat) : Result (Error ConnectError) unit * list SendOp :=
  pump_loop (ce_send env) n (drop n (ce_body env)).

Definition call_inv env st : Prop :=
  match ca_pc st with
  | CpStart => st = call_new
  | CpBody => call env = finish env (ca_ops st) (pump_rest env (ca_turns st))
  | CpCapacity data => ∃ ops, ca_ops st = ops ++ [OpReserve (length data)] ∧
      ce_body env !! ca_turns st = Some (Ok (FData data)) ∧
      call env = finish env ops (pump_rest env (ca_turns st))
  | CpResponse => call env = (map_err ErrH2 (ce_response env), ca_ops st)
  | CpDone r => call env = (r, ca_ops st)
  end.

(** The rest of the pump, by the next frame. *)
Lemma pump_rest_frame env n f :
  ce_body env !! n = Some f →
  pump_rest env n = pump_loop (ce_send env) n (f :: drop (S n) (ce_body env)).
Proof. intros Hf. unfold pump_rest. by rewrite (drop_S _ f). Qed.

Lemma call_step_inv env st ev st' :
  call_inv env st → agrees env st ev → call_step st ev = Some st' → call_inv env st'.
Proof.
  unfold call_inv, call_step.
  destruct (ca_pc st) as [| |data| |r] eqn:Epc, ev as [uri empty sent| |f sent|sent|c sent|r'];
    try done; simpl.
  - intros -> (-> & -> & Hsent). destruct (ce_uri env) as [u|e] eqn:Eu.
    + rewrite (Hsent u eq_refl). unfold call. rewrite Eu.
      destruct (ce_send_request env u _) as [[]|e] eqn:Es; intros [= <-]; simpl; [|done].
      destruct (ce_body_is_empty env); simpl; [done|]. unfold pump_body, finish, pump_rest.
      rewrite drop_0. by destruct (pump_loop _ _ _) as [[]].
    + intros [= <-]. simpl. unfold call. by rewrite Eu.
  - intros Hinv _ [= <-]. by rewrite Epc.
  - intros Hinv [Hf ->]. rewrite (pump_rest_frame _ _ _ Hf) in Hinv. simpl in Hinv.
    destruct f as [[data|trailers|]|e].
    + intros [= <-]. simpl. exists (ca_ops st). split_and!; [done..|].
      by rewrite (pump_rest_frame _ _ _ Hf).
    + destruct (send_trailers_result _ _); intros [= <-]; exact Hinv.
    + intros [= <-]. simpl. rewrite app_nil_r. exact Hinv.
    + intros [= <-]. exact Hinv.
  - intros Hinv [Hf ->]. unfold pump_rest in Hinv.
    rewrite drop_ge in Hinv by (by apply lookup_ge_None). simpl in Hinv.
    destruct (send_data_result _ _); intros [= <-]; exact Hinv.
  - intros (ops & Eo & Hf & Hinv) _ [= <-]. rewrite Epc. eauto.
  - intros (ops & Eo & Hf & Hinv) [-> ->].
    rewrite (pump_rest_frame _ _ _ Hf) in Hinv. simpl in Hinv.
    destruct (poll_capacity _ _) as [|e|].
    + destruct (send_data_result _ _); intros [= <-]; simpl.
      * rewrite Hinv, Eo. unfold finish, pump_rest. destruct (pump_loop _ _ _) as [[u|e] ops'];
          simpl; by rewrite <-!app_assoc.
      * rewrite Hinv, Eo. unfold finish. simpl. by rewrite <-app_assoc.
    + intros [= <-]. simpl. rewrite Hinv, Eo. unfold finish. simpl. by rewrite <-app_assoc.
    + intros [= <-]. simpl. rewrite Hinv, Eo. unfold finish. simpl. by rewrite <-app_assoc.
  - intros Hinv _ [= <-]. by rewrite Epc.
  - intros Hinv -> [= <-]. simpl. by rewrite app_nil_r.
Qed.

(** The future is never stuck: some answer of the environment takes it on. *)
Lemma call_progress env st :
  (∀ r, ca_pc st ≠ CpDone r) → ∃ ev, ev ≠ EvPending ∧ agrees env st ev ∧ is_Some (call_step st ev).
Proof.
  intros Hnd. unfold call_step. destruct (ca_pc st) as [| |data| |r]; [..|by destruct (Hnd r)].
  - exists (EvStart (ce_uri env) (ce_body_is_empty env)
      (match ce_uri env with Ok u => ce_send_request env u (ce_body_is_empty env) | Err _ => Ok tt end)).
    split_and!; [done|simpl; split_and!; [done..|by intros u ->]|].
    destruct (ce_uri env) as [u|]; [|eauto]. by destruct (ce_send_request _ _ _).
  - destruct (ce_body env !! ca_turns st) as [f|] eqn:Ef.
    + exists (EvFrame f (send_trailers_result (ce_send env) (ca_turns st))).
      split_and!; [done..|]. destruct f as [[]|]; eauto. by destruct (send_trailers_result _ _).
    + exists (EvBodyEnd (send_data_result (ce_send env) (ca_turns st))).
      split_and!; [done..|]. by destruct (send_data_result _ _).
  - exists (EvCapacity (poll_capacity (ce_send env) (ca_turns st))
      (send_data_result (ce_send env) (ca_turns st))).
    split_and!; [done..|]. destruct (poll_capacity _ _); eauto. by destruct (send_data_result _ _).
  - exists (EvResponse (ce_response env)). split_and!; [done..|eauto].
Qed.

(** The future of a call does what [call] says: however often it was
    polled while it had to wait, once it is over its result and what it did to
    the send stream are those of running the call to its end; and until then
    some answer of its environment takes it on. *)
Lemma future_computes_call env evs st :
  agreeing env call_new evs → call_run call_new evs = Some st →
  (∀ r, ca_pc st = CpDone r → call env = (r, ca_ops st)) ∧
  ((∀ r, ca_pc st ≠ CpDone r) →
   ∃ ev, ev ≠ EvPending ∧ agrees env st ev ∧ is_Some (call_step st ev)).
Proof.
  intros Hag Hrun. split; [|apply call_progress]. revert Hag Hrun.
  assert (Hnew : call_inv env call_new) by done. revert Hnew. generalize call_new as st0.
  induction evs as [|ev evs IH]; intros st0 Hinv Hag Hrun r Hr; simpl in *.
  - injection Hrun as <-. unfold call_inv in Hinv. by rewrite Hr in Hinv.
  - apply bind_Some in Hrun as (st1 & Hst & Hrun). destruct Hag as [Hev Hag].
    apply (IH st1); [by eapply call_step_inv|by apply Hag|done..].
Qed.
End Future.
#[global] Arguments CallState : clear implicits.
#[global] Arguments CallEvent : clear implicits.

(** ** A call and its handler *)

Section BidiCall.
Context {ConnectError Trailers Parts Resp : Type}.
Abbreviation CallState := (CallState ConnectError Trailers Parts).
Abbreviation CallEvent := (CallEvent ConnectError Trailers Parts).

(** The request body: its frames, and whether it ends after them while the
    call is unanswered, or waits. *)
Context (frames : list bytes) (ends : bool).
(** The frames HTTP/2 takes that the handler has not read, and the responses that
    fit between the handler and a caller that does not read. *)
Context (window room : nat).
(** The handler of a bidirectional method returns its response stream at once
    and spawns a loop, which takes a request and sends a reply. *)
Context (reply : bytes → Resp).

Inductive HandlerPc :=
  | HpNone              (** the request has not arrived *)
  | HpNext              (** waits for a request frame *)
  | HpReply (r : Resp)  (** waits until there is room for a reply *)
  | HpEnd.              (** has seen the end of the requests *)

Record BidiCall := MkBidiCall {
  ex_call : CallState;
  ex_wire : list bytes;     (** frames sent, not read by the handler *)
  ex_handler : HandlerPc;
  ex_out : list Resp;       (** replies sent, not read by the caller *)
  ex_read : list Resp;
}.
Definition bidi_new : BidiCall := MkBidiCall call_new [] HpNone [] [].

Inductive BidiLabel :=
  | ExCall (ev : CallEvent)   (** the caller's future is polled *)
  | ExTake                    (** the handler reads a frame *)
  | ExReply                   (** it sends its reply *)
  | ExEnd                     (** it reads the end of the requests *)
  | ExRead.                   (** the caller, with its response, reads a reply *)

(** Whether an event can come when it does: the body yields its frames in
    order, capacity is granted inside the window, and there is a response once
    the handler was called.  Errors can come at any time. *)
Definition event_can (w : BidiCall) (ev : CallEvent) : bool :=
  match ev with
  | EvStart _ body_is_empty _ => negb body_is_empty
  | EvPending => true
  | EvFrame (Ok (FData data)) _ => bool_decide (frames !! ca_turns (ex_call w) = Some data)
  | EvFrame _ _ => false
  | EvBodyEnd _ => ends && bool_decide (frames !! ca_turns (ex_call w) = None)
  | EvCapacity CapReady _ => bool_decide (length (ex_wire w) < window)
  | EvCapacity _ _ => true
  | EvResponse (Ok _) => match ex_handler w with HpNone => false | _ => true end
  | EvResponse (Err _) => true
  end.

(** What reaches the handler: the request, and a frame that was sent. *)
Definition event_wire (w : BidiCall) (ev : CallEvent) : list bytes :=
  match ca_pc (ex_call w), ev with
  | CpCapacity data, EvCapacity CapReady (Ok _) => ex_wire w ++ [data]
  | _, _ => ex_wire w
  end.
Definition event_handler (w : BidiCall) (ev : CallEvent) : HandlerPc :=
  match ev with EvStart (Ok _) _ (Ok _) => HpNext | _ => ex_handler w end.

Definition body_sent (st : CallState) : bool := existsb op_ends (ca_ops st).

Definition bidi_step (w : BidiCall) (l : BidiLabel) : option BidiCall :=
  match l with
  | ExCall ev =>
      if event_can w ev then
        st ← call_step (ex_call w) ev;
        Some (MkBidiCall st (event_wire w ev) (event_handler w ev) (ex_out w) (ex_read w))
      else None
  | ExTake =>
      match ex_handler w, ex_wire w with
      | HpNext, data :: wire =>
          Some (MkBidiCall (ex_call w) wire (HpReply (reply data)) (ex_out w) (ex_read w))
      | _, _ => None
      end
  | ExReply =>
      match ex_handler w with
      | HpReply r =>
          if decide (length (ex_out w) < room)
          then Some (MkBidiCall (ex_call w) (ex_wire w) HpNext (ex_out w ++ [r]) (ex_read w))
          else None
      | _ => None
      end
  | ExEnd =>
      match ex_handler w, ex_wire w with
      | HpNext, [] =>
          if body_sent (ex_call w)
          then Some (MkBidiCall (ex_call w) [] HpEnd (ex_out w) (ex_read w)) else None
      | _, _ => None
      end
  | ExRead =>
      match ca_pc (ex_call w), ex_out w with
      | CpDone (Ok _), r :: out =>
          Some (MkBidiCall (ex_call w) (ex_wire w) (ex_handler w) out (ex_read w ++ [r]))
      | _, _ => None
      end
  end.

Fixpoint bidi_run (w : BidiCall) (ls : list BidiLabel) : option BidiCall :=
  match ls with
  | [] => Some w
  | l :: ls => w ← bidi_step w l; bidi_run w ls
  end.

(** A label that does something, and does not tell of a failure. *)
Definition progresses (l : BidiLabel) : bool :=
  match l with
  | ExCall EvPending => false
  | ExCall (EvStart (Ok _) _ (Ok _)) | ExCall (EvFrame _ (Ok _)) | ExCall (EvBodyEnd (Ok _))
  | ExCall (EvCapacity CapReady (Ok _)) | ExCall (EvResponse (Ok _)) => true
  | ExCall _ => false
  | _ => true
  end.
Definition quiet (l : BidiLabel) : bool :=
  match l with ExCall EvPending => true | _ => progresses l end.
End BidiCall.
#[global] Arguments BidiCall : clear implicits.
#[global] Arguments BidiLabel : clear implicits.

Section BidiFacts.
Context {ConnectError Trailers Parts Resp : Type}.
Context (frames : list bytes) (ends : bool) (window room : nat) (reply : bytes → Resp).
Abbreviation BidiCall := (BidiCall ConnectError Trailers Parts Resp).
Abbreviation BidiLabel := (BidiLabel ConnectError Trailers Parts).
Abbreviation bidi_step := (bidi_step frames ends window room reply).
Abbreviation bidi_run := (bidi_run frames ends window room reply).
Implicit Types (w : BidiCall) (l : BidiLabel).

Definition held w : list Resp := match ex_handler w with HpReply r => [r] | _ => [] end.
Abbreviation turns w := (ca_turns (ex_call w)).

(** The body was sent whole, while nothing was read. *)
Definition sent_whole w : Prop :=
  body_sent (ex_call w) = true ∧ ends = true ∧ turns w = length frames ∧
  length frames ≤ window + room + 1 ∧ ex_handler w ≠ HpNone.
Definition sending w : Prop :=
  body_sent (ex_call w) = false ∧ ex_read w = [] ∧ ex_handler w ≠ HpNone ∧ ex_handler w ≠ HpEnd.

(** Where the replies to the frames sent so far are, and what the future's state
    says. *)
Record bidi_inv w : Prop := {
  xi_flow : reply <$> take (turns w) frames =
    ex_read w ++ ex_out w ++ held w ++ (reply <$> ex_wire w);
  xi_turns : turns w ≤ length frames;
  xi_window : length (ex_wire w) ≤ window;
  xi_room : length (ex_out w) ≤ room;
  xi_end : ex_handler w = HpEnd → ex_wire w = [];
  xi_ops : length (ca_ops (ex_call w)) = 2 * turns w +
    match ca_pc (ex_call w) with CpStart | CpBody => 0 | _ => 1 end;
  xi_pc : match ca_pc (ex_call w) with
    | CpStart => w = bidi_new
    | CpBody => sending w
    | CpCapacity data => sending w ∧ frames !! turns w = Some data
    | CpResponse => sent_whole w ∧ ex_read w = []
    | CpDone (Ok _) => sent_whole w
    | CpDone (Err _) => False
    end;
}.

Lemma bidi_inv_new : bidi_inv bidi_new.
Proof. split; simpl; try done; lia. Qed.

Lemma body_sent_goto pc ops (st : CallState ConnectError Trailers Parts) :
  body_sent (call_goto pc ops st) = body_sent st || existsb op_ends ops.
Proof. apply existsb_app. Qed.
Lemma body_sent_turn ops (st : CallState ConnectError Trailers Parts) :
  body_sent (next_turn ops st) = body_sent st || existsb op_ends ops.
Proof. apply existsb_app. Qed.

Lemma flow_length w :
  bidi_inv w →
  turns w = length (ex_read w) + length (ex_out w) + length (held w) + length (ex_wire w).
Proof.
  intros [Hflow Hturns _ _ _ _ _]. apply (f_equal length) in Hflow.
  rewrite length_fmap, length_take, !length_app, length_fmap in Hflow. lia.
Qed.
Lemma held_le w : length (held w) ≤ 1.
Proof. unfold held. destruct (ex_handler w); simpl; lia. Qed.

Lemma bidi_call_inv w ev w' :
  bidi_inv w → bidi_step w (ExCall ev) = Some w' → progresses (ExCall ev) = true →
  bidi_inv w'.
Proof.
  intros Hinv. pose proof (flow_length w Hinv) as Hlen. pose proof (held_le w) as Hheld.
  destruct Hinv as [Hflow Hturns Hwin Hroom Hend Hops Hpc].
  unfold Bidi.bidi_step. destruct (event_can _ _ _ _ _) eqn:Hcan; [|done].
  intros (st & Hst & [= <-])%bind_Some Hp. unfold call_step in Hst.
  destruct (ca_pc (ex_call w)) as [| |data| |[?|?]] eqn:Epc;
    destruct ev as [[?|?] ? [[]|?]| |[[data'|?|]|?] [[]|?]|[[]|?]|[|?|] [[]|?]|[?|?]]; try done.
  all: unfold event_wire, event_handler in *; rewrite ?Epc; simplify_eq/=.
  - (* the headers are sent *)
    apply negb_true_iff in Hcan as ->. split; simpl; try done; lia.
  - (* the body yields a frame *)
    apply bool_decide_eq_true in Hcan. destruct Hpc as (Hb & Hr & Hh).
    split; simpl; rewrite ?length_app; simpl; try done; [lia|].
    split; [|done]. split; [|done]. unfold sending. simpl. rewrite body_sent_goto, Hb. done.
  - (* the body ends *)
    apply andb_true_iff in Hcan as [Hends Hcan]. apply bool_decide_eq_true, lookup_ge_None in Hcan.
    destruct Hpc as (Hb & Hr & Hn & He).
    split; simpl; rewrite ?length_app; simpl; try done; [lia|].
    split; [|done]. rewrite Hr in Hlen. simpl in Hlen. unfold sent_whole. simpl.
    rewrite body_sent_goto, orb_true_r. split_and!; [done|done|lia|lia|done].
  - (* a frame is sent *)
    apply bool_decide_eq_true in Hcan. destruct Hpc as [(Hb & Hr & Hn & He) Hf].
    apply lookup_lt_Some in Hf as Hlt.
    split; simpl; rewrite ?length_app; simpl; try done; [|lia..|].
    + rewrite (take_S_r _ _ data), !fmap_app, Hflow by done. unfold held. simpl.
      by rewrite <-!app_assoc.
    + unfold sending. simpl. rewrite body_sent_turn, Hb. done.
  - (* the response *)
    destruct Hpc as [(Hb & Hx) Hr]. split; simpl; rewrite ?app_nil_r; try done.
    unfold sent_whole. simpl. rewrite body_sent_goto, Hb. done.
Qed.

Lemma quiet_cases l : quiet l = true → progresses l = true ∨ l = ExCall EvPending.
Proof. destruct l as [[]| | | |]; simpl; auto. Qed.

Lemma pending_step w w' : bidi_step w (ExCall EvPending) = Some w' → w' = w.
Proof.
  simpl. intros (st & Hst & [= <-])%bind_Some. unfold call_step, event_wire in *.
  destruct w as [c wire h out rd]; simpl in *. destruct (ca_pc c); by simplify_eq.
Qed.

Lemma bidi_step_inv w l w' :
  bidi_inv w → bidi_step w l = Some w' → quiet l = true → bidi_inv w'.
Proof.
  intros Hinv Hstep [Hp| ->]%quiet_cases; [|by apply pending_step in Hstep as ->].
  destruct l as [ev| | | |]; [by eapply bidi_call_inv|..];
    destruct Hinv as [Hflow Hturns Hwin Hroom Hend Hops Hpc];
    unfold held, sending, sent_whole in *; simpl in Hstep.
  - destruct (ex_handler w) eqn:Eh; try done. destruct (ex_wire w) as [|data wire]; [done|].
    injection Hstep as <-. split; simpl in *; try done; [lia|].
    unfold sending, sent_whole. simpl. destruct (ca_pc _) as [| | | |[]]; naive_solver.
  - destruct (ex_handler w) eqn:Eh; try done. destruct (decide _); [|done].
    injection Hstep as <-. split; simpl in *; try done; rewrite ?length_app; simpl; [|lia|].
    { by rewrite Hflow, <-app_assoc. }
    unfold sending, sent_whole. simpl. destruct (ca_pc _) as [| | | |[]]; naive_solver.
  - destruct (ex_handler w) eqn:Eh; try done. destruct (ex_wire w) eqn:Ew; [|done].
    destruct (body_sent _) eqn:Eb; [|done]. injection Hstep as <-. split; simpl in *; try done.
    unfold sending, sent_whole. simpl. rewrite ?Eb in *. destruct (ca_pc _) as [| | | |[]]; naive_solver.
  - destruct (ca_pc _) as [| | | |[r|e]] eqn:Epc; try done. destruct (ex_out w) as [|x out]; [done|].
    injection Hstep as <-. split; simpl in *; try done; rewrite ?Epc; try done; [|lia].
    by rewrite Hflow, <-app_assoc.
Qed.

(** Progress is counted: by the operations on the send stream, the frames
    taken, the replies sent and the replies read. *)
Definition work w : nat :=
  match ca_pc (ex_call w) with CpStart => 0 | _ => 1 end + length (ca_ops (ex_call w)) +
  (turns w - length (ex_wire w)) + length (ex_out w) + 2 * length (ex_read w) +
  match ca_pc (ex_call w) with CpDone _ => 1 | _ => 0 end +
  match ex_handler w with HpEnd => 1 | _ => 0 end.

Lemma bidi_step_work w l w' :
  bidi_inv w → bidi_step w l = Some w' → progresses l = true → work w' = S (work w).
Proof.
  intros Hinv Hstep Hp. pose proof (flow_length w Hinv) as Hlen.
  destruct Hinv as [_ _ _ _ Hend Hops Hpc]. unfold work, sending, sent_whole in *.
  destruct l as [ev| | | |]; simpl in Hstep.
  - destruct (event_can _ _ _ _ _) eqn:Hcan; [|done].
    apply bind_Some in Hstep as (st & Hst & [= <-]). unfold call_step in Hst.
    destruct (ca_pc (ex_call w)) as [| |data| |[?|?]] eqn:Epc;
      destruct ev as [[?|?] ? [[]|?]| |[[data'|?|]|?] [[]|?]|[[]|?]|[|?|] [[]|?]|[?|?]]; try done.
    all: unfold event_wire, event_handler in *; rewrite ?Epc; simplify_eq/=;
      rewrite ?length_app, ?Epc; simpl.
    all: try (destruct (ex_handler w); naive_solver lia).
    by destruct body_is_empty.
  - destruct (ex_handler w) eqn:Eh; try done. destruct (ex_wire w) as [|data wire] eqn:Ew; [done|].
    injection Hstep as <-. unfold held in Hlen. rewrite Eh in Hlen. simpl in *. lia.
  - destruct (ex_handler w) eqn:Eh; try done. destruct (decide _); [|done].
    injection Hstep as <-. simpl. rewrite length_app. simpl. lia.
  - destruct (ex_handler w) eqn:Eh; try done. destruct (ex_wire w) eqn:Ew; [|done].
    destruct (body_sent _) eqn:Eb; [|done]. injection Hstep as <-. simpl. lia.
  - destruct (ca_pc _) as [| | | |[r|e]] eqn:Epc; try done.
    destruct (ex_out w) as [|x out] eqn:Eo; [done|].
    injection Hstep as <-. simpl. rewrite Epc, length_app. simpl. lia.
Qed.

Lemma bidi_run_inv w ls w' :
  bidi_inv w → bidi_run w ls = Some w' → Forall (λ l, quiet l = true) ls →
  bidi_inv w' ∧ work w' = work w + length (filter (λ l, progresses l = true) ls).
Proof.
  intros Hinv Hrun Hq. revert w Hinv Hrun.
  induction Hq as [|l ls Hl _ IH]; intros w Hinv Hrun; simpl in Hrun.
  { injection Hrun as <-. simpl. split; [done|lia]. }
  apply bind_Some in Hrun as (w1 & Hst & Hrun).
  destruct (IH w1) as [Hinv' Hwork]; [by eapply bidi_step_inv|done|]. split; [done|].
  destruct (quiet_cases l Hl) as [Hp| ->].
  - rewrite filter_cons_True by done. simpl. rewrite Hwork, (bidi_step_work w l w1) by done. lia.
  - apply pending_step in Hst as ->. rewrite filter_cons_False by done. exact Hwork.
Qed.

Lemma work_bound w : bidi_inv w → work w ≤ 5 * length frames + 4.
Proof.
  intros Hinv. pose proof (flow_length w Hinv) as Hlen. destruct Hinv as [_ Hturns _ _ _ Hops Hpc].
  unfold work. destruct (ca_pc (ex_call w)) as [| | | |[r|e]] eqn:Epc; try done.
  - subst w. simpl. lia.
  - destruct Hpc as (_ & _ & _ & He). destruct (ex_handler w); done || lia.
  - destruct Hpc as [(_ & _ & _ & He) Hlt%lookup_lt_Some]. destruct (ex_handler w); done || lia.
  - destruct (ex_handler w); lia.
  - destruct (ex_handler w); lia.
Qed.

(** *** When nothing moves any more *)

Definition stuck w : Prop := ∀ l, progresses l = true → bidi_step w l = None.

(** A handler that cannot move has filled the room for its replies, or has
    nothing to read. *)
Lemma handler_stuck w :
  stuck w → ex_handler w ≠ HpNone →
  (∃ r, ex_handler w = HpReply r ∧ room ≤ length (ex_out w)) ∨
  ((ex_handler w = HpNext ∨ ex_handler w = HpEnd) ∧ (ex_handler w = HpNext → ex_wire w = [])).
Proof.
  intros Hstuck Hn. pose proof (Hstuck ExTake eq_refl) as Ht. pose proof (Hstuck ExReply eq_refl) as Hr.
  simpl in *. destruct (ex_handler w) as [| |r|]; [done|right|left|right].
  - split; [auto|]. intros _. by destruct (ex_wire w).
  - exists r. split; [done|]. destruct (decide _); [done|lia].
  - split; [auto|done].
Qed.

(** A caller that cannot move has its response and no reply to read, waits for
    capacity that the window does not have, or for a body that does not end. *)
Lemma caller_stuck `{!Inhabited Parts} w :
  bidi_inv w → stuck w →
  (sent_whole w ∧ ex_out w = [] ∧ ∃ p, ca_pc (ex_call w) = CpDone (Ok p)) ∨
  (sending w ∧ (∀ r, ca_pc (ex_call w) ≠ CpDone r) ∧
   ((ends = false ∧ turns w = length frames) ∨
    (turns w < length frames ∧ length (ex_wire w) = window))).
Proof.
  intros [_ Hturns Hwin _ _ _ Hpc] Hstuck. destruct (ca_pc (ex_call w)) as [| |data| |[p|e]] eqn:Epc.
  - specialize (Hstuck (ExCall (EvStart (Ok (MkUriParts None None None)) false (Ok tt))) eq_refl).
    subst w. done.
  - right. split_and!; [done..|].
    destruct (frames !! turns w) as [data|] eqn:Ef.
    + specialize (Hstuck (ExCall (EvFrame (Ok (FData data)) (Ok tt))) eq_refl). simpl in Hstuck.
      rewrite bool_decide_eq_true_2 in Hstuck by done. unfold call_step in Hstuck.
      by rewrite Epc in Hstuck.
    + apply lookup_ge_None in Ef as Hge. left. split; [|lia]. destruct ends eqn:Eends; [|done].
      specialize (Hstuck (ExCall (EvBodyEnd (Ok tt))) eq_refl). simpl in Hstuck.
      rewrite Eends, bool_decide_eq_true_2 in Hstuck by done. unfold call_step in Hstuck.
      by rewrite Epc in Hstuck.
  - right. destruct Hpc as [Hs Hf%lookup_lt_Some]. split_and!; [done..|]. right. split; [done|].
    destruct (decide (length (ex_wire w) < window)) as [Hlt|]; [|lia].
    specialize (Hstuck (ExCall (EvCapacity CapReady (Ok tt))) eq_refl). simpl in Hstuck.
    rewrite bool_decide_eq_true_2 in Hstuck by done. unfold call_step in Hstuck.
    by rewrite Epc in Hstuck.
  - destruct Hpc as [(_ & _ & _ & _ & Hn) _].
    specialize (Hstuck (ExCall (EvResponse (Ok inhabitant))) eq_refl). simpl in Hstuck.
    destruct (ex_handler w); [done|..]; unfold call_step in Hstuck; by rewrite Epc in Hstuck.
  - left. split_and!; [done| |eauto]. specialize (Hstuck ExRead eq_refl). simpl in Hstuck.
    rewrite Epc in Hstuck. by destruct (ex_out w).
  - done.
Qed.

(** What is left when nothing moves. *)
Lemma bidi_stuck `{!Inhabited Parts} w :
  0 < window → 0 < room → bidi_inv w → stuck w →
  if ends && bool_decide (length frames ≤ window + room + 1)
  then (∃ p, ca_pc (ex_call w) = CpDone (Ok p)) ∧ ex_read w = reply <$> frames
  else (∀ r, ca_pc (ex_call w) ≠ CpDone r) ∧ ex_read w = [] ∧ ex_out w = take room (reply <$> frames).
Proof.
  intros Hwindow Hroom0 Hinv Hstuck. pose proof (flow_length w Hinv) as Hlen.
  pose proof (xi_flow w Hinv) as Hflow. pose proof (xi_room w Hinv) as Hroom.
  destruct (caller_stuck w Hinv Hstuck) as [(Hs & Ho & Hp)|((_ & Hr & Hn & He) & Hd & Hwait)].
  - destruct Hs as (Hb & -> & Ht & Hle & Hn). rewrite bool_decide_eq_true_2 by done. simpl.
    split; [done|]. rewrite Ht, firstn_all in Hflow. rewrite Hflow, Ho.
    destruct (handler_stuck w Hstuck Hn) as [(r & Er & Hfull)|[Hh Hw]].
    { rewrite Ho in Hfull. simpl in Hfull. lia. }
    unfold held. destruct Hh as [Eh|Eh]; rewrite Eh.
    + pose proof (Hstuck ExEnd eq_refl) as Hx. simpl in Hx. rewrite Eh, (Hw Eh), Hb in Hx. done.
    + rewrite (xi_end w Hinv Eh). simpl. by rewrite app_nil_r.
  - rewrite Hr in *. simpl in Hflow, Hlen.
    assert (Hout : ex_out w = take room (reply <$> frames) ∧
      (length (ex_wire w) = window → length frames ≤ turns w ∨ window + room + 1 ≤ turns w)).
    { rewrite <-(take_drop (turns w) frames), fmap_app, Hflow, <-!app_assoc.
      destruct (handler_stuck w Hstuck Hn) as [(r & Er & Hfull)|[[Eh|Eh] Hw]]; [| |done].
      - assert (length (ex_out w) = room) as El by lia. rewrite <-El, take_app_length.
        split; [done|]. intros Ew. right. rewrite Hlen. unfold held. rewrite Er. simpl. lia.
      - rewrite (Hw Eh) in *. unfold held in *. rewrite Eh in *. simpl in *. split; [|lia].
        destruct Hwait as [[_ Ht]|[_ ?]]; [|lia]. rewrite Ht, drop_all. simpl.
        rewrite app_nil_r, take_ge; [done|lia]. }
    destruct Hout as [Hout Hfull].
    assert (ends && bool_decide (length frames ≤ window + room + 1) = false) as ->; [|done].
    destruct Hwait as [[-> _]|[Hlt Ew]]; [done|].
    rewrite bool_decide_eq_false_2, andb_false_r; [done|]. destruct (Hfull Ew); lia.
Qed.

(** C5: a bidirectional call.  [call] sends the whole request body before it
    awaits the response, so the caller reads replies only once its body has
    ended.  If the body ends, and its frames fit into the request window, the
    room for replies and the one reply the handler holds, the call and its handler
    run on until the caller has read a reply to every frame, in order.  If it is
    longer, or does not end before the call is answered, the two wait for each
    other: the call is never answered, while the replies wait for a caller that
    does not read.  Either way there is no more progress after a number of steps
    linear in the number of frames. *)
Theorem bidi_exchange `{!Inhabited Parts} ls w :
  0 < window → 0 < room →
  bidi_run bidi_new ls = Some w → Forall (λ l, quiet l = true) ls →
  length (filter (λ l, progresses l = true) ls) ≤ 5 * length frames + 4 ∧
  (stuck w →
   if ends && bool_decide (length frames ≤ window + room + 1)
   then (∃ p, ca_pc (ex_call w) = CpDone (Ok p)) ∧ ex_read w = reply <$> frames
   else (∀ r, ca_pc (ex_call w) ≠ CpDone r) ∧ ex_read w = [] ∧ ex_out w = take room (reply <$> frames)).
Proof.
  intros Hwindow Hroom Hrun Hq.
  destruct (bidi_run_inv _ _ _ bidi_inv_new Hrun Hq) as [Hinv Hwork].
  pose proof (work_bound _ Hinv). change (work bidi_new) with 0 in Hwork.
  split; [lia|]. by apply bidi_stuck.
Qed.
End BidiFacts.

(** ** Concrete inputs *)

Module BidiDemo.
Abbreviation world := (BidiCall unit unit unit bytes).
Abbreviation label := (BidiLabel unit unit unit).
Definition frame (i : nat) : bytes := replicate i x61.
Definition started : list label := [ExCall (EvStart (Ok (MkUriParts None None None)) false (Ok tt))].
Definition yield (i : nat) : label := ExCall (EvFrame (Ok (FData (frame i))) (Ok tt)).
Definition sent : label := ExCall (EvCapacity CapReady (Ok tt)).

(** Two frames are sent, and answered once the body has ended. *)
Abbreviation echo_run ends := (bidi_run [frame 1; frame 2] ends 1 1 (λ data, data)).
Definition both_sent : list label :=
  started ++ [yield 1; ExCall EvPending; sent; ExTake; ExReply; yield 2; sent; ExTake].
Definition echo_labels : list label :=
  both_sent ++ [ExCall (EvBodyEnd (Ok tt)); ExCall (EvResponse (Ok tt)); ExRead; ExReply; ExRead; ExEnd].
Definition echo_end : world := default bidi_new (echo_run true bidi_new echo_labels).
Definition open_end : world := default bidi_new (echo_run false bidi_new both_sent).

Example echo_demo :
  (ca_pc (ex_call echo_end), ex_read echo_end) = (CpDone (Ok tt), [frame 1; frame 2]) ∧
  (ca_pc (ex_call open_end), ex_out open_end, ex_read open_end) = (CpBody, [frame 1], []).
Proof. vm_compute. auto. Qed.

Ltac no_step :=
  intros l Hp; destruct l as [[]| | | |]; first [discriminate Hp | vm_compute; repeat case_match; done].
Lemma echo_end_stuck : stuck [frame 1; frame 2] true 1 1 (λ data, data) echo_end.
Proof. no_step. Qed.
Lemma open_end_stuck : stuck [frame 1; frame 2] false 1 1 (λ data, data) open_end.
Proof. no_step. Qed.

Lemma bidi_exchange_witness :
  ex_read echo_end = [frame 1; frame 2] ∧ ex_read open_end = [] ∧ ex_out open_end = [frame 1].
Proof.
  destruct (bidi_exchange [frame 1; frame 2] true 1 1 (λ data, data) echo_labels echo_end)
    as [_ Hecho]; [lia|lia|reflexivity|repeat constructor|].
  destruct (bidi_exchange [frame 1; frame 2] false 1 1 (λ data, data) both_sent open_end)
    as [_ Hopen]; [lia|lia|reflexivity|repeat constructor|].
  split; [exact (proj2 (Hecho echo_end_stuck))|exact (proj2 (Hopen open_end_stuck))].
Defined.

(** The future of a call of one frame, polled once too often. *)
Definition demo_env : @CallEnv unit unit unit := {|
  ce_uri := Ok (MkUriParts None None None);
  ce_send_request _ _ := Ok tt;
  ce_body_is_empty := false;
  ce_body := [Ok (FData (frame 1))];
  ce_send := {|
    poll_capacity _ := CapReady; send_data_result _ := Ok tt; send_trailers_result _ := Ok tt |};
  ce_response := Ok tt;
|}.
Definition demo_events : list (CallEvent unit unit unit) :=
  [EvStart (Ok (MkUriParts None None None)) false (Ok tt); EvFrame (Ok (FData (frame 1))) (Ok tt);
   EvPending; EvCapacity CapReady (Ok tt); EvBodyEnd (Ok tt); EvResponse (Ok tt)].
Definition demo_state : CallState unit unit unit :=
  MkCallState (CpDone (Ok tt)) 1 [OpReserve 1; OpData (frame 1) false; OpData [] true].

Example call_future_demo : call demo_env = (Ok tt, ca_ops demo_state).
Proof.
  apply (proj1 (future_computes_call demo_env demo_events demo_state
    ltac:(repeat (split; [done|]; intros st' [= <-]); done) eq_refl)).
  reflexivity.
Qed.
End BidiDemo.
