(* ===== verification/Streams.v ===== *)
(** * Stream wrappers, and the lease that a channel holds

    Models [IrohStream] of [src/stream.rs] and [PooledStream] of [src/pool.rs],
    which put QUIC streams behind tokio's I/O traits, the handshake of
    [src/channel.rs] that turns one into a channel, and how long the channels of
    [ConnectionPool::channel] keep their pooled connection leased. *)
From S2P Require Import Prelude PoolActor PoolConn Errors Channel.

(** ** The wrappers *)

Section Wrappers.
Context {ConnectError Send Recv Context_ Lease : Type}.
Abbreviation IoErr := (IoError ConnectError).

(** iroh's streams, as they answer one poll. *)
Context (send_poll_write : bytes → Send → IoPoll WriteError Z * Send)
        (send_poll_flush send_poll_shutdown : Send → IoPoll IoErr unit * Send)
        (recv_poll_read : nat → Recv → IoPoll IoErr bytes * Recv).

Record IrohStream := MkIrohStream { is_send : Send; is_recv : Recv; is_context : Context_ }.
Record PooledStream := MkPooledStream { ps_send : Send; ps_recv : Recv; ps_ref : Lease }.

(** [IrohStream::new], [Connected::connect_info] *)
Definition iroh_stream_new (send : Send) (recv : Recv) (context : Context_) : IrohStream :=
  MkIrohStream send recv context.
Definition connect_info (s : IrohStream) : Context_ := is_context s.

(** A poll, by the trait's method, and its result. *)
Inductive IoOp := OpRead (room : nat) | OpWrite (buf : bytes) | OpFlush | OpShutdown.
Inductive IoOut (W : Type) :=
  | OutRead (p : IoPoll IoErr bytes)
  | OutWrite (p : IoPoll W Z)
  | OutUnit (p : IoPoll IoErr unit).
Arguments OutRead {W} p.
Arguments OutWrite {W} p.
Arguments OutUnit {W} p.

(** The methods of [AsyncRead] and [AsyncWrite]. *)
Definition iroh_poll (op : IoOp) (s : IrohStream) : IoOut IoErr * IrohStream :=
  match op with
  | OpRead room =>
      let '(p, recv) := recv_poll_read room (is_recv s) in
      (OutRead p, MkIrohStream (is_send s) recv (is_context s))
  | OpWrite buf =>
      let '(p, send) := send_poll_write buf (is_send s) in
      (OutWrite (poll_write p), MkIrohStream send (is_recv s) (is_context s))
  | OpFlush =>
      let '(p, send) := send_poll_flush (is_send s) in
      (OutUnit p, MkIrohStream send (is_recv s) (is_context s))
  | OpShutdown =>
      let '(p, send) := send_poll_shutdown (is_send s) in
      (OutUnit p, MkIrohStream send (is_recv s) (is_context s))
  end.
Definition pooled_poll (op : IoOp) (s : PooledStream) : IoOut IoErr * PooledStream :=
  match op with
  | OpRead room =>
      let '(p, recv) := recv_poll_read room (ps_recv s) in
      (OutRead p, MkPooledStream (ps_send s) recv (ps_ref s))
  | OpWrite buf =>
      let '(p, send) := send_poll_write buf (ps_send s) in
      (OutWrite (poll_write p), MkPooledStream send (ps_recv s) (ps_ref s))
  | OpFlush =>
      let '(p, send) := send_poll_flush (ps_send s) in
      (OutUnit p, MkPooledStream send (ps_recv s) (ps_ref s))
  | OpShutdown =>
      let '(p, send) := send_poll_shutdown (ps_send s) in
      (OutUnit p, MkPooledStream send (ps_recv s) (ps_ref s))
  end.

(** The QUIC streams themselves. *)
Definition quic_poll (op : IoOp) (s : Send * Recv) : IoOut WriteError * (Send * Recv) :=
  match op with
  | OpRead room => let '(p, recv) := recv_poll_read room s.2 in (OutRead p, (s.1, recv))
  | OpWrite buf => let '(p, send) := send_poll_write buf s.1 in (OutWrite p, (send, s.2))
  | OpFlush => let '(p, send) := send_poll_flush s.1 in (OutUnit p, (send, s.2))
  | OpShutdown => let '(p, send) := send_poll_shutdown s.1 in (OutUnit p, (send, s.2))
  end.
Definition io_out (o : IoOut WriteError) : IoOut IoErr :=
  match o with OutRead p => OutRead p | OutWrite p => OutWrite (poll_write p) | OutUnit p => OutUnit p end.

(** A sequence of polls, with their results. *)
Fixpoint polls {S O : Type} (poll : IoOp → S → O * S) (ops : list IoOp) (s : S) : list O * S :=
  match ops with
  | [] => ([], s)
  | op :: ops => let '(o, s) := poll op s in let '(os, s) := polls poll ops s in (o :: os, s)
  end.

(** Both wrappers are the QUIC streams with write errors translated: nothing is
    lost, added or reordered, and the context and the lease stay with the
    stream. *)
Lemma wrappers_transparent ops send recv context lease :
  let '(os, (send', recv')) := polls quic_poll ops (send, recv) in
  polls iroh_poll ops (iroh_stream_new send recv context) =
    (io_out <$> os, MkIrohStream send' recv' context) ∧
  polls pooled_poll ops (MkPooledStream send recv lease) =
    (io_out <$> os, MkPooledStream send' recv' lease).
Proof.
  unfold iroh_stream_new. revert send recv.
  induction ops as [|op ops IH]; intros send recv; [done|].
  destruct op as [room|buf| |]; simpl;
    [destruct (recv_poll_read room recv) as [p x]|destruct (send_poll_write buf send) as [p x]|
     destruct (send_poll_flush send) as [p x]|destruct (send_poll_shutdown send) as [p x]];
    [specialize (IH send x)|specialize (IH x recv)..];
    destruct (polls quic_poll ops _) as [os [s' r']]; destruct IH as [-> ->]; done.
Qed.
End Wrappers.

(** ** The handshake *)

Section Handshake.
Context {ConnectError Sender : Type}.

(** [IrohChannel] *)
Record IrohChannel := MkIrohChannel { ch_sender : Sender; ch_origin : UriParts }.

(** [handshake]: what [h2::client::handshake] made of the stream, and the origin;
    with the channel goes a task that drives the connection. *)
Definition handshake (outcome : Result string Sender) (origin : UriParts)
  : Result (Error ConnectError) IrohChannel :=
  sender ← map_err ErrH2 outcome; Ok (MkIrohChannel sender origin).

(** [poll_ready] of the channel, over the sender's ([None]: pending). *)
Definition channel_poll_ready (ready : option (Result string unit))
  : option (Result (Error ConnectError) unit) := map_err ErrH2 <$> ready.
End Handshake.

(** ** How long a channel keeps its connection leased *)

(** A call of [ConnectionPool::channel] and what becomes of it. *)
Inductive ChannelPc :=
  | ChLeased             (** [get_or_connect] is over, [open_bi] is not *)
  | ChHandshake          (** the [PooledStream] is in the handshake *)
  | ChOpen (clones : nat)   (** the driver task owns the stream; live channels *)
  | ChEnded (clones : nat). (** the stream was dropped, and its lease with it *)

(** One pooled connection: its lease counter and the channels on it. *)
Record Leases := MkLeases { ls_counter : Counter; ls_channels : gmap nat ChannelPc }.
Definition leases_new : Leases := MkLeases counter_new ∅.

Inductive LeaseLabel :=
  | LsGet (i : nat)                       (** the actor replies with a lease *)
  | LsOpenBi (i : nat) (ok : bool)
  | LsHandshake (i : nat) (ok : bool)     (** a cancelled call ends like a failed one *)
  | LsClone (i : nat)
  | LsDropClone (i : nat)
  | LsDriverEnd (i : nat).                (** the driver's connection is over *)

Definition set_channel (i : nat) (pc : ChannelPc) (w : Leases) : Leases :=
  MkLeases (ls_counter w) (<[i := pc]> (ls_channels w)).
(** The stream is dropped: its [ConnectionRef] goes with it. *)
Definition release (i : nat) (clones : nat) (w : Leases) : Leases :=
  MkLeases (drop_one (ls_counter w)) (<[i := ChEnded clones]> (ls_channels w)).

Definition lease_step (w : Leases) (l : LeaseLabel) : option Leases :=
  match l with
  | LsGet i =>
      match ls_channels w !! i with
      | None => c ← get_one (ls_counter w); Some (MkLeases c (<[i := ChLeased]> (ls_channels w)))
      | Some _ => None
      end
  | LsOpenBi i ok =>
      match ls_channels w !! i with
      | Some ChLeased => Some (if ok then set_channel i ChHandshake w else release i 0 w)
      | _ => None
      end
  | LsHandshake i ok =>
      match ls_channels w !! i with
      | Some ChHandshake => Some (if ok then set_channel i (ChOpen 1) w else release i 0 w)
      | _ => None
      end
  | LsClone i =>
      match ls_channels w !! i with
      | Some (ChOpen (S n)) => Some (set_channel i (ChOpen (S (S n))) w)
      | Some (ChEnded (S n)) => Some (set_channel i (ChEnded (S (S n))) w)
      | _ => None
      end
  | LsDropClone i =>
      match ls_channels w !! i with
      | Some (ChOpen (S n)) => Some (set_channel i (ChOpen n) w)
      | Some (ChEnded (S n)) => Some (set_channel i (ChEnded n) w)
      | _ => None
      end
  | LsDriverEnd i =>
      match ls_channels w !! i with
      | Some (ChOpen n) => Some (release i n w)
      | _ => None
      end
  end.

Fixpoint lease_run (w : Leases) (ls : list LeaseLabel) : option Leases :=
  match ls with
  | [] => Some w
  | l :: ls => w ← lease_step w l; lease_run w ls
  end.

(** The channel holds a lease. *)
Definition holds_lease (pc : ChannelPc) : bool :=
  match pc with ChEnded _ => false | _ => true end.
Definition holding (m : gmap nat ChannelPc) : gmap nat ChannelPc :=
  filter (λ p, holds_lease p.2 = true) m.

Definition leases_ok (w : Leases) : Prop :=
  counter_ok (ls_counter w) ∧ guards (ls_counter w) = size (holding (ls_channels w)).

Lemma holding_insert m i pc :
  holding (<[i := pc]> m) =
  if holds_lease pc then <[i := pc]> (holding m) else delete i (holding m).
Proof.
  unfold holding. destruct (holds_lease pc) eqn:E.
  - by rewrite map_filter_insert_True.
  - rewrite map_filter_insert_False by (simpl; congruence). by rewrite map_filter_delete.
Qed.

Lemma holding_lookup m i pc :
  m !! i = Some pc → holding m !! i = if holds_lease pc then Some pc else None.
Proof.
  intros Hi. unfold holding. destruct (holds_lease pc) eqn:E.
  - by apply map_lookup_filter_Some.
  - apply map_lookup_filter_None. right. intros x Hx. simpl. congruence.
Qed.

Lemma set_channel_ok i pc pc' w :
  leases_ok w → ls_channels w !! i = Some pc → holds_lease pc' = holds_lease pc →
  leases_ok (set_channel i pc' w).
Proof.
  intros [Hc Hg] Hi E. split; [done|]. simpl. rewrite holding_insert, E, Hg.
  pose proof (holding_lookup _ _ _ Hi) as Hh. destruct (holds_lease pc).
  - symmetry. apply map_size_insert_Some. eauto.
  - by rewrite delete_id.
Qed.

Lemma release_ok i pc n w :
  leases_ok w → ls_channels w !! i = Some pc → holds_lease pc = true → leases_ok (release i n w).
Proof.
  intros [Hc Hg] Hi E. pose proof (holding_lookup _ _ _ Hi) as Hh. rewrite E in Hh.
  assert (Hs : size (holding (ls_channels w)) = S (size (delete i (holding (ls_channels w))))).
  { rewrite map_size_delete_Some by eauto. assert (size (holding (ls_channels w)) ≠ 0); [|lia].
    apply map_size_ne_0_lookup_2 with i. eauto. }
  rewrite Hs in Hg. destruct (drop_one_spec _ _ Hc Hg) as (Hc' & Hg' & _).
  split; [done|]. simpl. by rewrite holding_insert.
Qed.

Lemma lease_step_ok w l w' : leases_ok w → lease_step w l = Some w' → leases_ok w'.
Proof.
  intros Hok. destruct l as [i|i ok|i ok|i|i|i]; simpl;
    destruct (ls_channels w !! i) as [[| |[|n]|[|n]]|] eqn:Hi; intros Hst; try done;
    try (injection Hst as <-; try destruct ok;
         (eapply set_channel_ok || eapply release_ok); eauto; done).
  apply bind_Some in Hst as (c & Hc & [= <-]). destruct Hok as [Hco Hg].
  destruct (get_one_spec _ _ Hco Hc) as (Hc' & Hg' & _). split; [done|]. simpl.
  rewrite holding_insert, Hg', Hg. simpl. symmetry. apply map_size_insert_None.
  apply map_lookup_filter_None. by left.
Qed.

(** C16: a pooled connection is leased exactly as long as a channel of it needs it:
    the counter counts the channels whose stream is still there, so the
    connection's actor may take it for idle only when there is none; in
    particular not while a channel whose driver runs has a clone left, nor
    during a handshake. *)
Theorem channels_hold_leases ls w :
  lease_run leases_new ls = Some w →
  count (ls_counter w) = Z.of_nat (size (holding (ls_channels w))) ∧
  (counter_is_idle (ls_counter w) = true ↔
   ∀ i pc, ls_channels w !! i = Some pc → ∃ clones, pc = ChEnded clones).
Proof.
  assert (Hrun : ∀ w0, leases_ok w0 → lease_run w0 ls = Some w → leases_ok w).
  { induction ls as [|l ls IH]; intros w0 Hok; simpl; [congruence|].
    intros (w1 & Hst & Hr)%bind_Some. by apply (IH w1); [eapply lease_step_ok|]. }
  intros [Hc Hg]%Hrun; [|by split; [apply counter_ok_new|]].
  split; [rewrite <-Hg; by destruct Hc|]. rewrite counter_is_idle_guards, Hg by done.
  rewrite map_size_empty_iff. split.
  - intros He i pc Hi. apply holding_lookup in Hi. rewrite He, lookup_empty in Hi.
    destruct pc; try done. by eexists.
  - intros Hall. apply map_empty. intros i. apply map_lookup_filter_None. right.
    intros pc Hi. by destruct (Hall _ _ Hi) as [n ->].
Qed.

(** ** Concrete inputs *)

Module StreamsDemo.

(** Two channels; the first is cloned and loses its driver, the second is in its
    handshake. *)
Definition demo_labels : list LeaseLabel :=
  [LsGet 0; LsOpenBi 0 true; LsHandshake 0 true; LsClone 0; LsGet 1; LsDriverEnd 0;
   LsOpenBi 1 true; LsDropClone 0].
Definition demo_end : Leases := default leases_new (lease_run leases_new demo_labels).

Lemma channels_hold_leases_witness : count (ls_counter demo_end) = 1%Z.
Proof.
  rewrite (proj1 (channels_hold_leases demo_labels demo_end ltac:(vm_compute; reflexivity))).
  vm_compute. reflexivity.
Defined.
End StreamsDemo.
