(* ===== verification/Server.v ===== *)
(** * The server side

    Models [src/server.rs], the accept loops that feed streams of many
    connections into one bounded queue for tonic, and [src/transport.rs], the
    builder that registers services and publishes their metadata. *)
From S2P Require Import Prelude Iroh Tokio Alpn UserData.

Definition DEFAULT_INCOMING_BUFFER_CAPACITY : nat := 256.
Definition OVERLOAD_STREAM_ERROR_CODE : Z := 1.

Section Server.
Context {EndpointId : Type} `{!Mpsc}.

(** An accepted connection: its peer and its negotiated ALPN. *)
Record Connection := MkConnection { remote_id : EndpointId; conn_alpn : bytes }.

(** [IrohStream] with its [IrohContext]; [st_stream] names the QUIC stream,
    [ctx_connection] the connection handed along. *)
Record IrohStream := MkIrohStream {
  st_stream : nat;
  ctx_node_id : EndpointId;
  ctx_connection : nat;
  ctx_alpn : bytes;
}.

(** The queue between the handlers and tonic, the handlers' connections and
    whether each [accept] future is still running, the streams tonic has taken,
    those that were reset with [OVERLOAD_STREAM_ERROR_CODE] and those that were
    dropped with the queue. *)
Record Server := MkServer {
  sv_queue : chan IrohStream;
  sv_conns : gmap nat (Connection * bool);
  sv_served : list IrohStream;
  sv_rejected : list (nat * nat * Z);      (** connection, stream, error code *)
  sv_dropped : list IrohStream;
}.

(** [IrohIncoming::new]; [None] is the panic of a channel without capacity. *)
Definition incoming_new (buffer_capacity : nat) : option Server :=
  q ← mpsc_channel buffer_capacity; Some (MkServer q ∅ [] [] []).

(** [reject_stream] *)
Definition reject_stream (c s : nat) (sv : Server) : Server :=
  MkServer (sv_queue sv) (sv_conns sv) (sv_served sv)
    (sv_rejected sv ++ [(c, s, OVERLOAD_STREAM_ERROR_CODE)]) (sv_dropped sv).
Definition stop_conn (c : nat) (conn : Connection) (sv : Server) : Server :=
  MkServer (sv_queue sv) (<[c := (conn, false)]> (sv_conns sv)) (sv_served sv) (sv_rejected sv)
    (sv_dropped sv).

Inductive ServerLabel :=
  | SvConnect (c : nat) (conn : Connection)   (** the router calls [accept] *)
  | SvStream (c s : nat)                      (** [accept_bi] yields a stream *)
  | SvConnClosed (c : nat)                    (** [accept_bi] fails *)
  | SvServe                                   (** tonic takes a stream *)
  | SvStop.                                   (** tonic drops the incoming stream *)

(** The context a stream is forwarded with. *)
Definition forwarded (c s : nat) (conn : Connection) : IrohStream :=
  MkIrohStream s (remote_id conn) c (conn_alpn conn).

Definition server_step (sv : Server) (l : ServerLabel) : option Server :=
  match l with
  | SvConnect c conn =>
      match sv_conns sv !! c with
      | None => Some (MkServer (sv_queue sv) (<[c := (conn, true)]> (sv_conns sv))
                        (sv_served sv) (sv_rejected sv) (sv_dropped sv))
      | Some _ => None
      end
  | SvStream c s =>
      match sv_conns sv !! c with
      | Some (conn, true) =>
          let '(o, q) := try_send (forwarded c s conn) (sv_queue sv) in
          match o with
          | SendOk => Some (MkServer q (sv_conns sv) (sv_served sv) (sv_rejected sv) (sv_dropped sv))
          | SendFull => Some (reject_stream c s sv)
          | SendClosed => Some (stop_conn c conn (reject_stream c s sv))
          end
      | _ => None
      end
  | SvConnClosed c =>
      match sv_conns sv !! c with
      | Some (conn, true) => Some (stop_conn c conn sv)
      | _ => None
      end
  | SvServe =>
      '(s, q) ← recv (sv_queue sv);
      Some (MkServer q (sv_conns sv) (sv_served sv ++ [s]) (sv_rejected sv) (sv_dropped sv))
  | SvStop =>
      Some (MkServer (drop_rx (sv_queue sv)) (sv_conns sv) (sv_served sv) (sv_rejected sv)
              (sv_dropped sv ++ queued (sv_queue sv)))
  end.

Fixpoint server_run (sv : Server) (ls : list ServerLabel) : option Server :=
  match ls with
  | [] => Some sv
  | l :: ls => sv ← server_step sv l; server_run sv ls
  end.

(** The streams peers opened in a schedule. *)
Definition accepted (ls : list ServerLabel) : list (nat * nat) :=
  omap (λ l, match l with SvStream c s => Some (c, s) | _ => None end) ls.
(** Where a stream is: served, queued, rejected, or dropped with the queue. *)
Definition stream_name (s : IrohStream) : nat * nat := (ctx_connection s, st_stream s).
Definition settled (sv : Server) : list (nat * nat) :=
  (stream_name <$> sv_served sv ++ queued (sv_queue sv)) ++ (fst <$> sv_rejected sv) ++
  (stream_name <$> sv_dropped sv).
End Server.
Arguments Connection : clear implicits.
Arguments IrohStream : clear implicits.
Arguments Server _ {_}.
Arguments ServerLabel : clear implicits.

Section ServerFacts.
Context {EndpointId : Type} `{!Mpsc, !MpscLaws}.
Implicit Types (sv : Server EndpointId) (l : ServerLabel EndpointId).

Record server_inv sv : Prop := {
  sv_bounded : length (queued (sv_queue sv)) ≤ capacity (sv_queue sv);
  (** a stream carries the identity of the connection it came in on *)
  sv_context : ∀ s, s ∈ sv_served sv ++ queued (sv_queue sv) →
    ∃ conn r, sv_conns sv !! ctx_connection s = Some (conn, r) ∧
      ctx_node_id s = remote_id conn ∧ ctx_alpn s = conn_alpn conn;
  sv_codes : ∀ x, x ∈ sv_rejected sv → x.2 = OVERLOAD_STREAM_ERROR_CODE;
  (** nothing is dropped while tonic takes streams *)
  sv_drops : sv_dropped sv ≠ [] → rx_closed (sv_queue sv) = true;
}.

Lemma server_inv_new n sv :
  incoming_new n = Some sv →
  server_inv sv ∧ capacity (sv_queue sv) = n ∧ settled sv = [] ∧ rx_closed (sv_queue sv) = false.
Proof.
  unfold incoming_new. intros (q & Hq & [= <-])%bind_Some. destruct n as [|n].
  { by rewrite mpsc_channel_zero in Hq. }
  destruct (mpsc_channel_pos (IrohStream EndpointId) (S n)) as (q' & Hq' & Hnil & Hc & Ho); [lia|].
  assert (q = q') as -> by congruence.
  split_and!; [|done|unfold settled; simpl; by rewrite Hnil|done].
  split; simpl; rewrite ?Hnil;
    [simpl; lia|by intros s ?%elem_of_nil|by intros s ?%elem_of_nil|done].
Qed.

(** A step of the server keeps the contexts of its streams when it keeps the
    connections. *)
Lemma context_stop_conn c conn (m : gmap nat (Connection EndpointId * bool)) (s : IrohStream EndpointId) :
  m !! c = Some (conn, true) →
  (∃ conn' r, m !! ctx_connection s = Some (conn', r) ∧
     ctx_node_id s = remote_id conn' ∧ ctx_alpn s = conn_alpn conn') →
  ∃ conn' r, <[c := (conn, false)]> m !! ctx_connection s = Some (conn', r) ∧
     ctx_node_id s = remote_id conn' ∧ ctx_alpn s = conn_alpn conn'.
Proof.
  intros Hc (conn' & r & Hl & Hid). destruct (decide (ctx_connection s = c)) as [E|Hne].
  - exists conn, false. rewrite E, lookup_insert_eq. rewrite E, Hc in Hl. by injection Hl as <- <-.
  - exists conn', r. by rewrite lookup_insert_ne.
Qed.

Lemma server_step_inv sv l sv' :
  server_inv sv → server_step sv l = Some sv' →
  server_inv sv' ∧ capacity (sv_queue sv') = capacity (sv_queue sv) ∧
  settled sv' ≡ₚ accepted [l] ++ settled sv ∧
  (rx_closed (sv_queue sv') = true → rx_closed (sv_queue sv) = true ∨ l = SvStop).
Proof.
  intros [Hb Hctx Hcode Hdr]. unfold settled. destruct l as [c conn|c s|c| |]; simpl; intros Hs.
  - destruct (sv_conns sv !! c) eqn:Hc; [done|]. injection Hs as <-. split_and!; [|done|done|auto].
    split; simpl; [done| |done|done]. intros s Hin. destruct (Hctx s Hin) as (conn' & r & Hl & ?).
    exists conn', r. rewrite lookup_insert_ne by congruence. done.
  - destruct (sv_conns sv !! c) as [[conn [|]]|] eqn:Hc; [|done..].
    destruct (try_send _ _) as [o q] eqn:Hts. apply try_send_inv in Hts as [Hts Hcap].
    assert (Hrej : server_inv (reject_stream c s sv)).
    { split; simpl; [done|done| |done].
      by intros x [Hin| ->%list_elem_of_singleton]%elem_of_app; [apply Hcode|]. }
    destruct o; injection Hs as <-.
    + destruct Hts as (Hq & Hl & Ho & Ho'). split_and!; [|done| |simpl; congruence].
      * split; simpl; [lia| |done|by rewrite Ho'; intros ?%Hdr; congruence].
        intros s'. rewrite Hq, app_assoc.
        intros [Hin| ->%list_elem_of_singleton]%elem_of_app; [by apply Hctx|]. by exists conn, true.
      * simpl. rewrite Hq, !fmap_app. csimpl. solve_Permutation.
    + split_and!; [done|done| |auto]. simpl. rewrite !fmap_app. csimpl. solve_Permutation.
    + split_and!; [|done| |auto].
      * destruct Hrej as [? Hctx' ? ?]. split; simpl; [done| |done|done].
        intros s' Hin. by apply context_stop_conn, Hctx.
      * simpl. rewrite !fmap_app. csimpl. solve_Permutation.
  - destruct (sv_conns sv !! c) as [[conn [|]]|] eqn:Hc; [|done..]. injection Hs as <-.
    split_and!; [|done|done|auto]. split; simpl; [done| |done|done].
    intros s Hin. by apply context_stop_conn, Hctx.
  - apply bind_Some in Hs as ([s q] & (Hq & Hcap & Hcl)%recv_inv & [= <-]).
    rewrite Hq in Hb, Hctx. simpl in Hb. split_and!; simpl; [|done| |rewrite Hcl; auto].
    + split; simpl; rewrite <-?app_assoc, ?Hcl; [lia|done|done|done].
    + by rewrite Hq, <-app_assoc.
  - injection Hs as <-. destruct (drop_rx_spec (sv_queue sv)) as (Hcl & Hq & Hcap).
    split_and!; simpl; [|done| |auto].
    + split; simpl; rewrite ?Hq, ?Hcap; [simpl; lia| |done|done].
      intros s Hin. apply Hctx. rewrite app_nil_r in Hin. apply elem_of_app. by left.
    + rewrite Hq, app_nil_r, !fmap_app. solve_Permutation.
Qed.

Lemma server_run_inv sv ls sv' :
  server_inv sv → server_run sv ls = Some sv' →
  server_inv sv' ∧ capacity (sv_queue sv') = capacity (sv_queue sv) ∧
  settled sv' ≡ₚ accepted ls ++ settled sv ∧
  (rx_closed (sv_queue sv') = true → rx_closed (sv_queue sv) = true ∨ SvStop ∈ ls).
Proof.
  revert sv. induction ls as [|l ls IH]; intros sv Hinv; simpl; [intros [= <-]; auto|].
  intros (sv1 & Hs & Hr)%bind_Some.
  destruct (server_step_inv _ _ _ Hinv Hs) as (Hinv1 & Hc1 & Hp1 & Hst1).
  destruct (IH _ Hinv1 Hr) as (Hinv2 & Hc2 & Hp2 & Hst2).
  split_and!; [done|congruence| |set_solver]. rewrite Hp2, Hp1.
  destruct l; simpl; try done. by rewrite <-Permutation_middle.
Qed.

(** C36: every stream a peer opens is accounted for: it is served or queued for
    tonic once, with the peer and ALPN of the connection it came in on, or reset
    with the overload code, or dropped from the queue, which happens only when
    tonic drops the incoming stream; and no more than [buffer_capacity] streams
    are ever queued. *)
Theorem streams_accounted n sv ls sv' :
  incoming_new n = Some sv → server_run sv ls = Some sv' →
  settled sv' ≡ₚ accepted ls ∧ length (queued (sv_queue sv')) ≤ n ∧
  (∀ x, x ∈ sv_rejected sv' → x.2 = OVERLOAD_STREAM_ERROR_CODE) ∧
  (sv_dropped sv' ≠ [] → SvStop ∈ ls) ∧
  ∀ s, s ∈ sv_served sv' ++ queued (sv_queue sv') →
    ∃ conn r, sv_conns sv' !! ctx_connection s = Some (conn, r) ∧
      ctx_node_id s = remote_id conn ∧ ctx_alpn s = conn_alpn conn.
Proof.
  intros (Hinv & Hcap & Hnil & Ho)%server_inv_new Hrun.
  destruct (server_run_inv _ _ _ Hinv Hrun) as ([Hb Hctx Hcode Hdr] & Hc & Hp & Hst).
  split_and!; [by rewrite Hp, Hnil, app_nil_r|lia|done| |done].
  intros [?|?]%Hdr%Hst; [congruence|done].
Qed.
End ServerFacts.

(** ** [TransportBuilder] *)

Section Transport.
Context {EndpointId PcError : Type}.
Context `{!Mpsc, !Postcard PcError (list bytes), !Base64, !UserDataOps}.

(** Services by name; [tb_publisher]: the services a DHT publisher was built
    with. *)
Record TransportBuilder := MkTransportBuilder {
  tb_services : list string;
  tb_alpns : list bytes;
  tb_capacity : nat;
  tb_publisher : option (list bytes);
}.

Definition transport_new : TransportBuilder :=
  MkTransportBuilder [] [] DEFAULT_INCOMING_BUFFER_CAPACITY None.
Definition with_publisher (publisher : list bytes) (b : TransportBuilder) : TransportBuilder :=
  MkTransportBuilder (tb_services b) (tb_alpns b) (tb_capacity b) (Some publisher).
Definition add_rpc (name : string) (b : TransportBuilder) : TransportBuilder :=
  MkTransportBuilder (tb_services b ++ [name]) (tb_alpns b ++ [service_to_alpn name])
    (tb_capacity b) (tb_publisher b).
Definition incoming_buffer_capacity (n : nat) (b : TransportBuilder) : TransportBuilder :=
  MkTransportBuilder (tb_services b) (tb_alpns b) (Nat.max n 1) (tb_publisher b).

(** [register]: the ALPN the iroh router accepts for the service, and the
    service added to tonic's router. *)
Definition register (name : string) (routes : list (bytes * string) * list string)
  : list (bytes * string) * list string :=
  (routes.1 ++ [(service_to_alpn name, name)], routes.2 ++ [name]).

(** What a spawned transport runs: the accept routes, tonic's services, the
    incoming queue, the user data set on the endpoint and the services the
    publisher announces. *)
Record Transport := MkTransport {
  tr_routes : list (bytes * string);
  tr_services : list string;
  tr_server : Server EndpointId;
  tr_user_data : option UserData;
  tr_published : option (list bytes);
}.

(** [spawn]; [None] is a panic. *)
Definition spawn (b : TransportBuilder) : option (Result (MetadataError PcError) Transport) :=
  server ← incoming_new (tb_capacity b);
  let routes := foldl (λ r name, register name r) ([], []) (tb_services b) in
  let user_data :=
    match tb_alpns b with
    | [] => Ok None
    | _ => Some <$> encode_alpns (tb_alpns b)
    end in
  Some (match user_data with
        | Err e => Err e
        | Ok user_data =>
            Ok (MkTransport routes.1 routes.2 server user_data
                  ((λ publisher, publisher ++ tb_alpns b) <$> tb_publisher b))
        end).

(** The builder's methods, as a sequence of calls. *)
Inductive BuilderCall :=
  | CallPublisher (publisher : list bytes)
  | CallAddRpc (name : string)
  | CallCapacity (n : nat).
Definition apply_call (b : TransportBuilder) (c : BuilderCall) : TransportBuilder :=
  match c with
  | CallPublisher p => with_publisher p b
  | CallAddRpc name => add_rpc name b
  | CallCapacity n => incoming_buffer_capacity n b
  end.
Definition build (calls : list BuilderCall) : TransportBuilder :=
  foldl apply_call transport_new calls.
(** The services registered by a sequence of calls. *)
Definition called_services (calls : list BuilderCall) : list string :=
  omap (λ c, match c with CallAddRpc name => Some name | _ => None end) calls.
End Transport.
Arguments Transport _ {_ _}.

Section TransportFacts.
Context {EndpointId PcError : Type}.
Context `{!Mpsc, !MpscLaws, !Postcard PcError (list bytes), !PostcardLaws PcError (list bytes)}.
Context `{!Base64, !Base64Laws, !UserDataOps, !UserDataLaws}.
Abbreviation spawn := (spawn (EndpointId := EndpointId) (PcError := PcError)).

Lemma build_facts calls :
  tb_services (build calls) = called_services calls ∧
  tb_alpns (build calls) = service_to_alpn <$> called_services calls ∧
  0 < tb_capacity (build calls).
Proof.
  unfold build. induction calls as [|c calls IH] using rev_ind.
  { split_and!; [done..|]. unfold transport_new, DEFAULT_INCOMING_BUFFER_CAPACITY. simpl. lia. }
  rewrite foldl_snoc. destruct IH as (Hs & Ha & Hc). unfold called_services in *.
  rewrite omap_app. destruct c as [p|name|n]; csimpl; rewrite ?app_nil_r; [done| |].
  - by rewrite Hs, Ha, fmap_app.
  - split_and!; [done..|lia].
Qed.

Lemma register_all names routes :
  foldl (λ r name, register name r) routes names =
  (routes.1 ++ ((λ name, (service_to_alpn name, name)) <$> names), routes.2 ++ names).
Proof.
  revert routes. induction names as [|n names IH]; intros [r1 r2]; csimpl.
  - by rewrite !app_nil_r.
  - rewrite IH. simpl. by rewrite <-!app_assoc.
Qed.

(** A transport never panics at its start, whatever capacity was asked for,
    and fails only when the services' metadata cannot be encoded; once up, it
    routes the ALPN of every service to that service, its user data names
    exactly the registered services, and the publisher announces them all. *)
Lemma transport_spawn calls :
  let names := called_services calls in
  match spawn (build calls) with
  | None => False
  | Some (Err e) => names ≠ [] ∧ encode_alpns (service_to_alpn <$> names) = Err e
  | Some (Ok t) =>
      tr_routes t = (λ name, (service_to_alpn name, name)) <$> names ∧
      tr_services t = names ∧
      (∀ ud, tr_user_data t = Some ud → ∀ name,
         user_data_has_service (PcError := PcError) ud name = true ↔ name ∈ names) ∧
      (tr_user_data t = None ↔ names = []) ∧
      (∀ published alpn, tr_published t = Some published →
         alpn ∈ service_to_alpn <$> names → alpn ∈ published)
  end.
Proof.
  simpl. destruct (build_facts calls) as (Hs & Ha & Hcap). 
  remember (called_services calls) as names eqn:En. clear En.
  unfold Server.spawn, incoming_new.
  destruct (mpsc_channel_pos (IrohStream EndpointId) _ Hcap) as (q & -> & _). simpl.
  rewrite Hs, Ha, register_all. simpl.
  assert (Hpub : ∀ published alpn, (λ p : list bytes, p ++ (service_to_alpn <$> names)) <$>
    tb_publisher (build calls) = Some published →
    alpn ∈ service_to_alpn <$> names → alpn ∈ published).
  { intros published alpn (p & _ & ->)%fmap_Some. set_solver. }
  destruct names as [|n names']; csimpl in *; [done|].
  destruct (encode_alpns (service_to_alpn n :: (service_to_alpn <$> names'))) as [ud|e] eqn:Ee;
    simpl.
  2: { split; [done|]. done. }
  split_and!; [done|done| |done|].
  - intros ud' [= <-] name. apply encode_decode in Ee.
    change (user_data_has_service ud name) with
      (user_data_has_alpn (PcError := PcError) ud (service_to_alpn name)).
    rewrite user_data_has_alpn_true, Ee.
    change (service_to_alpn n :: _) with (service_to_alpn <$> n :: names').
    apply list_elem_of_fmap_inj, _.
  - exact Hpub.
Qed.
End TransportFacts.

(** ** Concrete inputs *)

Module ServerDemo.
Import ListChannel Demo UserDataDemo.

(** Two services, a capacity of 0 raised to 1, and a publisher. *)
Definition demo_calls : list BuilderCall :=
  [CallAddRpc "echo.Echo"; CallCapacity 0; CallPublisher [string_bytes "/other/1.0"];
   CallAddRpc "p2p_chat.P2PChat"].

(** Two connections; the queue holds one stream, so the second is reset. *)
Definition demo_conn (i : nat) : Connection nat := MkConnection i (service_to_alpn "echo.Echo").
Definition demo_labels : list (ServerLabel nat) :=
  [SvConnect 0 (demo_conn 7); SvConnect 1 (demo_conn 8); SvStream 0 1; SvStream 1 2; SvServe;
   SvStream 1 3; SvStop; SvStream 0 4].
Definition demo_new : Server nat :=
  default (MkServer (LChan [] 0 true) ∅ [] [] []) (incoming_new 1).
Definition demo_end : Server nat := default demo_new (server_run demo_new demo_labels).

Example server_demo :
  (st_stream <$> sv_served demo_end, st_stream <$> queued (sv_queue demo_end),
   sv_rejected demo_end, st_stream <$> sv_dropped demo_end) =
  ([1], [], [(1, 2, 1%Z); (0, 4, 1%Z)], [3]).
Proof. vm_compute. reflexivity. Qed.

Lemma streams_accounted_witness : settled demo_end ≡ₚ [(0, 1); (1, 2); (1, 3); (0, 4)].
Proof.
  refine (proj1 (streams_accounted 1 demo_new demo_labels demo_end _ _)); vm_compute; reflexivity.
Defined.
End ServerDemo.
