(* ===== verification/Rpc.v ===== *)
(** * Remote calls

    Composes what [Server] models apart: the transport that [spawn] starts (its
    accept routes, tonic's services and the shared queue of streams), the
    clients that dial it, the streams they open and the requests they send on
    them, down to the handlers tonic calls with each stream's [IrohContext]. *)
From S2P Require Import Prelude Iroh Tokio Alpn UserData Server.

Section Rpc.
Context {EndpointId : Type} `{!Mpsc, !UserDataOps}.
(** tonic's router: the service, of those added to it, that a path leads to. *)
Context (route : list string → string → option string).

(** A call of a handler: the request, the stream it came on, whose context the
    handler sees, and the service; [None]: no service has the path. *)
Record Handled := MkHandled {
  hd_request : nat;
  hd_stream : IrohStream EndpointId;
  hd_service : option string;
}.

(** A request under way: its name, its connection and stream, and its path. *)
Record Request := MkRequest { rq_id : nat; rq_stream : nat * nat; rq_path : string }.

Record RpcWorld := MkRpcWorld {
  rw_server : Server EndpointId;
  rw_requests : list Request;
  rw_handled : list Handled;
}.
Definition rpc_new (t : Transport EndpointId) : RpcWorld := MkRpcWorld (tr_server t) [] [].

Inductive RpcLabel :=
  | RpDial (c : nat) (conn : Connection EndpointId)   (** a client connects with an ALPN *)
  | RpServer (l : ServerLabel EndpointId)             (** the accept loops, or tonic *)
  | RpRequest (r : Request)                           (** a client sends a request *)
  | RpHandle (n : nat).                               (** tonic calls the handler *)

Definition with_server (sv : Server EndpointId) (w : RpcWorld) : RpcWorld :=
  MkRpcWorld sv (rw_requests w) (rw_handled w).
Definition request_ids (w : RpcWorld) : list nat :=
  (rq_id <$> rw_requests w) ++ (hd_request <$> rw_handled w).

(** iroh's router passes a connection to the handler registered for its ALPN and
    refuses others; QUIC gives a stream a name of its own. *)
Definition rpc_step (t : Transport EndpointId) (w : RpcWorld) (l : RpcLabel) : option RpcWorld :=
  match l with
  | RpDial c conn =>
      if decide (conn_alpn conn ∈ (tr_routes t).*1)
      then sv ← server_step (rw_server w) (SvConnect c conn); Some (with_server sv w)
      else None
  | RpServer (SvConnect _ _) => None
  | RpServer (SvStream c s) =>
      if decide ((c, s) ∈ settled (rw_server w)) then None
      else sv ← server_step (rw_server w) (SvStream c s); Some (with_server sv w)
  | RpServer l => sv ← server_step (rw_server w) l; Some (with_server sv w)
  | RpRequest r =>
      if decide (rq_id r ∈ request_ids w) then None
      else Some (MkRpcWorld (rw_server w) (rw_requests w ++ [r]) (rw_handled w))
  | RpHandle n =>
      r ← head (filter (λ r, rq_id r = n) (rw_requests w));
      s ← head (filter (λ s, stream_name s = rq_stream r) (sv_served (rw_server w)));
      Some (MkRpcWorld (rw_server w) (filter (λ r, rq_id r ≠ n) (rw_requests w))
              (rw_handled w ++ [MkHandled n s (route (tr_services t) (rq_path r))]))
  end.

Fixpoint rpc_run (t : Transport EndpointId) (w : RpcWorld) (ls : list RpcLabel) : option RpcWorld :=
  match ls with
  | [] => Some w
  | l :: ls => w ← rpc_step t w l; rpc_run t w ls
  end.
End Rpc.
Arguments RpcWorld _ {_}.
Arguments RpcLabel : clear implicits.
Arguments Handled : clear implicits.

Section RpcFacts.
Context {EndpointId : Type} `{!Mpsc, !MpscLaws, !UserDataOps}.
Context (route : list string → string → option string).
Implicit Types (t : Transport EndpointId) (w : RpcWorld EndpointId) (sv : Server EndpointId).

(** What a step of the server does to its connections and served streams. *)
Lemma server_step_grows sv l sv' :
  server_step sv l = Some sv' →
  (∀ s, s ∈ sv_served sv → s ∈ sv_served sv') ∧
  (∀ c conn r, sv_conns sv' !! c = Some (conn, r) →
     (∃ r', sv_conns sv !! c = Some (conn, r')) ∨ l = SvConnect c conn).
Proof.
  assert (Hstop : ∀ c0 conn0 r0 (m : gmap nat (Connection EndpointId * bool)) c conn r,
    m !! c0 = Some (conn0, r0) → <[c0 := (conn0, false)]> m !! c = Some (conn, r) →
    ∃ r', m !! c = Some (conn, r')).
  { intros c0 conn0 r0 m c conn r Hm. destruct (decide (c0 = c)) as [->|Hne].
    - rewrite lookup_insert_eq. intros [= -> _]. by exists r0.
    - rewrite lookup_insert_ne by done. eauto. }
  destruct l as [c conn|c s|c| |]; simpl.
  - destruct (sv_conns sv !! c) eqn:Ec; [done|]. intros [= <-]. simpl. split; [done|].
    intros c' conn' r. destruct (decide (c = c')) as [->|Hne].
    + rewrite lookup_insert_eq. intros [= -> _]. by right.
    + rewrite lookup_insert_ne by done. eauto.
  - destruct (sv_conns sv !! c) as [[conn []]|] eqn:Ec; [|done..].
    destruct (try_send _ _) as [[] q]; intros [= <-]; simpl; split; try done; eauto.
  - destruct (sv_conns sv !! c) as [[conn []]|] eqn:Ec; [|done..]. intros [= <-]. simpl. eauto.
  - intros ([s q] & _ & [= <-])%bind_Some. simpl. split; [|eauto].
    intros s' Hs. apply elem_of_app. by left.
  - intros [= <-]. simpl. eauto.
Qed.

Lemma rpc_run_cons t w l ls w1 :
  rpc_step route t w l = Some w1 → rpc_run route t w (l :: ls) = rpc_run route t w1 ls.
Proof. simpl. by intros ->. Qed.

(** Where everything in the world comes from, after the labels [ls]. *)
Record rpc_inv t (ls : list (RpcLabel EndpointId)) w : Prop := {
  rp_server : server_inv (rw_server w);
  rp_streams : NoDup (settled (rw_server w));
  rp_conns : ∀ c conn r, sv_conns (rw_server w) !! c = Some (conn, r) →
    RpDial c conn ∈ ls ∧ conn_alpn conn ∈ (tr_routes t).*1;
  rp_requests : ∀ r, r ∈ rw_requests w → RpRequest r ∈ ls;
  rp_ids : NoDup (request_ids w);
  rp_handled : ∀ h, h ∈ rw_handled w → hd_stream h ∈ sv_served (rw_server w) ∧
    ∃ path, RpRequest (MkRequest (hd_request h) (stream_name (hd_stream h)) path) ∈ ls ∧
      hd_service h = route (tr_services t) path;
}.

(** A step of the server keeps it, if its labels are accounted for. *)
Lemma rpc_inv_server t ls w l sl sv :
  rpc_inv t ls w → server_step (rw_server w) sl = Some sv →
  (∀ c s, sl = SvStream c s → (c, s) ∉ settled (rw_server w)) →
  (∀ c conn, sl = SvConnect c conn → l = RpDial c conn ∧ conn_alpn conn ∈ (tr_routes t).*1) →
  rpc_inv t (ls ++ [l]) (with_server sv w).
Proof.
  intros [Hsv Hnd Hconns Hreq Hids Hh] Hst Hnew Hdial.
  destruct (server_step_inv _ _ _ Hsv Hst) as (Hsv' & _ & Hp & _).
  destruct (server_step_grows _ _ _ Hst) as [Hserved Hgrow].
  split; simpl; try done.
  - rewrite Hp. destruct sl as [| c s| | |]; simpl; try done. apply NoDup_cons. eauto.
  - intros c conn r [(r' & Hc)|Hl]%Hgrow.
    + destruct (Hconns _ _ _ Hc). split; [apply elem_of_app; by left|done].
    + destruct (Hdial _ _ Hl) as [-> ?]. split; [apply elem_of_app; right; by left|done].
  - intros r Hr. apply elem_of_app. left. by apply Hreq.
  - intros h Hin. destruct (Hh h Hin) as (Hs & path & Hr & Hsvc). split; [by apply Hserved|].
    exists path. split; [apply elem_of_app; by left|done].
Qed.

Lemma rpc_step_inv t ls w l w' :
  rpc_inv t ls w → rpc_step route t w l = Some w' → rpc_inv t (ls ++ [l]) w'.
Proof.
  intros Hinv. destruct l as [c conn|sl|r|n]; cbn [rpc_step].
  - destruct (decide _) as [Hr|]; [|done]. intros (sv & Hst & [= <-])%bind_Some.
    eapply rpc_inv_server; [done..|]. by intros c' conn' [= -> ->].
  - destruct sl as [c conn|c s|c| |]; [done|..].
    + destruct (decide _) as [|Hn]; [done|]. intros (sv & Hst & [= <-])%bind_Some.
      eapply rpc_inv_server; [done..| |done]. by intros c' s' [= -> ->].
    + intros (sv & Hst & [= <-])%bind_Some. by eapply rpc_inv_server.
    + intros (sv & Hst & [= <-])%bind_Some. by eapply rpc_inv_server.
    + intros (sv & Hst & [= <-])%bind_Some. by eapply rpc_inv_server.
  - destruct (decide _) as [|Hn]; [done|]. intros [= <-].
    destruct Hinv as [Hsv Hnd Hconns Hreq Hids Hh]. split; simpl; try done.
    + intros c conn r' Hc. destruct (Hconns _ _ _ Hc). split; [apply elem_of_app; by left|done].
    + intros r' [Hr| ->%list_elem_of_singleton]%elem_of_app; apply elem_of_app;
        [left; by apply Hreq|right; by left].
    + unfold request_ids in *. simpl. rewrite fmap_app, <-app_assoc. simpl.
      rewrite <-Permutation_middle. by apply NoDup_cons.
    + intros h Hin. destruct (Hh h Hin) as (Hs & path & Hr & Hsvc). split; [done|].
      exists path. split; [apply elem_of_app; by left|done].
  - intros (r & Hr & (s & Hs & [= <-])%bind_Some)%bind_Some.
    apply head_Some_elem_of, list_elem_of_filter in Hr as [<- Hr].
    apply head_Some_elem_of, list_elem_of_filter in Hs as [Hname Hs].
    destruct Hinv as [Hsv Hnd Hconns Hreq Hids Hh]. split; simpl; try done.
    + intros c conn r' Hc. destruct (Hconns _ _ _ Hc). split; [apply elem_of_app; by left|done].
    + intros r' [_ Hr']%list_elem_of_filter. apply elem_of_app. left. by apply Hreq.
    + unfold request_ids in *. simpl. apply NoDup_app in Hids as (Hids1 & Hdis & Hids2).
      rewrite fmap_app, app_assoc. simpl. apply NoDup_app. split_and!.
      * apply NoDup_app. split_and!; [by apply NoDup_fmap_filter| |done].
        intros x (r' & -> & [_ Hr']%list_elem_of_filter)%list_elem_of_fmap.
        by apply Hdis, list_elem_of_fmap_2.
      * intros x Hx Hone%list_elem_of_singleton. subst x.
        apply elem_of_app in Hx as [(r' & Er & [Hne _]%list_elem_of_filter)%list_elem_of_fmap|Hx]; [done|].
        by apply (Hdis (rq_id r)); [apply list_elem_of_fmap_2|].
      * apply NoDup_singleton.
    + intros h [Hin| ->%list_elem_of_singleton]%elem_of_app; simpl.
      * destruct (Hh h Hin) as (? & path & Hr' & Hsvc). split; [done|].
        exists path. split; [apply elem_of_app; by left|done].
      * split; [done|]. exists (rq_path r). rewrite Hname. split; [|done].
        apply elem_of_app. left. destruct r. by apply Hreq.
Qed.

Lemma rpc_run_inv t before w ls w' :
  rpc_inv t before w → rpc_run route t w ls = Some w' → rpc_inv t (before ++ ls) w'.
Proof.
  revert before w. induction ls as [|l ls IH]; intros before w Hinv; simpl.
  - rewrite app_nil_r. by intros [= <-].
  - intros (w1 & Hst & Hrun)%bind_Some. rewrite cons_middle, app_assoc.
    apply (IH _ w1); [by eapply rpc_step_inv|done].
Qed.
End RpcFacts.

Section Transports.
Context {EndpointId PcError : Type}.
Context `{!Mpsc, !MpscLaws, !Postcard PcError (list bytes), !PostcardLaws PcError (list bytes)}.
Context `{!Base64, !Base64Laws, !UserDataOps, !UserDataLaws}.
Context (route : list string → string → option string).
Abbreviation spawn := (spawn (EndpointId := EndpointId) (PcError := PcError)).

Lemma spawned_server calls t :
  spawn (build calls) = Some (Ok t) → incoming_new (tb_capacity (build calls)) = Some (tr_server t).
Proof.
  unfold Server.spawn. intros (sv & -> & E)%bind_Some. simpl in E.
  destruct (match tb_alpns _ with [] => _ | _ => _ end) as [ud|e]; [|done].
  by injection E as <-.
Qed.

Lemma rpc_inv_new calls t : spawn (build calls) = Some (Ok t) → rpc_inv route t [] (rpc_new t).
Proof.
  intros Hsp. destruct (server_inv_new _ _ (spawned_server _ _ Hsp)) as (Hinv & _ & Hnil & _).
  apply spawned_server in Hsp. unfold incoming_new in Hsp.
  apply bind_Some in Hsp as (q & _ & [= Hsv]).
  split; simpl; try done; try apply NoDup_nil_2.
  - rewrite Hnil. apply NoDup_nil_2.
  - intros c conn r. by rewrite <-Hsv.
  - intros r Hr. by apply elem_of_nil in Hr.
  - intros h Hh. by apply elem_of_nil in Hh.
Qed.

(** A handled request's context names the peer that dialled its connection. *)
Lemma handled_dialled calls t ls w h :
  spawn (build calls) = Some (Ok t) → rpc_run route t (rpc_new t) ls = Some w →
  h ∈ rw_handled w →
  ∃ conn, RpDial (ctx_connection (hd_stream h)) conn ∈ ls ∧
    ctx_node_id (hd_stream h) = remote_id conn.
Proof.
  intros Hsp Hrun Hin. pose proof (rpc_inv_new _ _ Hsp) as Hnew.
  destruct (rpc_run_inv _ _ _ _ _ _ Hnew Hrun) as [Hsv _ Hconns _ _ Hh]. simpl in *.
  destruct (Hh h Hin) as (Hserved & _).
  destruct (sv_context _ Hsv (hd_stream h)) as (conn & r & Hc & Hid & _);
    [apply elem_of_app; by left|].
  destruct (Hconns _ _ _ Hc) as [Hdial _]. eauto.
Qed.

(** C17: who calls what.  However connections, streams and requests interleave:
    every request is handled at most once; the handler sees the identity and the
    ALPN of the connection its stream came in on, which was dialled with the ALPN
    of a registered service; the request was sent on that stream, and the service
    called is the one tonic's router finds for its path among the registered
    ones; and a request on a stream that was reset as overload is never handled. *)
Theorem calls_authenticated calls t ls w h :
  spawn (build calls) = Some (Ok t) → rpc_run route t (rpc_new t) ls = Some w →
  h ∈ rw_handled w →
  NoDup (hd_request <$> rw_handled w) ∧
  (∃ conn name, RpDial (ctx_connection (hd_stream h)) conn ∈ ls ∧
     ctx_node_id (hd_stream h) = remote_id conn ∧ ctx_alpn (hd_stream h) = conn_alpn conn ∧
     name ∈ called_services calls ∧ conn_alpn conn = service_to_alpn name) ∧
  (∃ path, RpRequest (MkRequest (hd_request h) (stream_name (hd_stream h)) path) ∈ ls ∧
     hd_service h = route (called_services calls) path) ∧
  stream_name (hd_stream h) ∉ (sv_rejected (rw_server w)).*1.
Proof.
  intros Hsp Hrun Hin. pose proof (rpc_inv_new _ _ Hsp) as Hnew.
  destruct (rpc_run_inv _ _ _ _ _ _ Hnew Hrun) as [Hsv Hnd Hconns Hreq Hids Hh]. simpl in *.
  pose proof (transport_spawn (EndpointId := EndpointId) (PcError := PcError) calls) as Ht.
  simpl in Ht. rewrite Hsp in Ht. destruct Ht as (Hroutes & Hsvcs & _).
  destruct (Hh h Hin) as (Hserved & path & Hpath & Hsvc).
  destruct (sv_context _ Hsv (hd_stream h)) as (conn & r & Hc & Hid & Halpn);
    [apply elem_of_app; by left|].
  destruct (Hconns _ _ _ Hc) as [Hdial Hroute]. split_and!.
  - by apply NoDup_app in Hids as (_ & _ & ?).
  - rewrite Hroutes, <-list_fmap_compose in Hroute.
    apply list_elem_of_fmap in Hroute as (name & En & Hname). by exists conn, name.
  - exists path. by rewrite Hsvc, Hsvcs.
  - unfold settled in Hnd. apply NoDup_app in Hnd as (_ & Hdis & _).
    intros Hrej. apply (Hdis (stream_name (hd_stream h))); [|apply elem_of_app; by left].
    rewrite fmap_app. apply elem_of_app. left. by apply list_elem_of_fmap_2.
Qed.

(** The ALPN decides which handler accepts a connection, not which service is
    called: all streams go to one tonic server, so a connection dialled for one
    registered service can call any other. *)
Lemma alpn_does_not_isolate calls t a b peer path :
  spawn (build calls) = Some (Ok t) → a ∈ called_services calls →
  route (called_services calls) path = Some b →
  ∃ ls w h, rpc_run route t (rpc_new t) ls = Some w ∧ rw_handled w = [h] ∧
    ctx_node_id (hd_stream h) = peer ∧ ctx_alpn (hd_stream h) = service_to_alpn a ∧ hd_service h = Some b.
Proof.
  intros Hsp Ha Hb. pose proof (spawned_server _ _ Hsp) as Hsv.
  pose proof (transport_spawn (EndpointId := EndpointId) (PcError := PcError) calls) as Ht.
  simpl in Ht. rewrite Hsp in Ht. destruct Ht as (Hroutes & Hsvcs & _).
  destruct (build_facts calls) as (_ & _ & Hcap). unfold incoming_new in Hsv.
  destruct (mpsc_channel_pos (IrohStream EndpointId) _ Hcap) as (q & Hq & Hnil & Hqc & Hopen).
  rewrite Hq in Hsv. injection Hsv as Hsv.
  set (conn := MkConnection peer (service_to_alpn a)).
  destruct (try_send_ok _ (forwarded 0 0 conn) q Hopen) as (q1 & Hsend & Hq1 & _).
  { rewrite Hnil, Hqc. exact Hcap. }
  rewrite Hnil in Hq1. destruct (recv_cons _ _ _ _ Hq1) as (q2 & Hrecv & _).
  exists [RpDial 0 conn; RpServer (SvStream 0 0); RpServer SvServe;
          RpRequest (MkRequest 0 (0, 0) path); RpHandle 0].
  do 2 eexists. split.
  - unfold rpc_new. rewrite <-Hsv.
    erewrite rpc_run_cons.
    2: { cbn [rpc_step]. rewrite decide_True; [reflexivity|].
      rewrite Hroutes, <-list_fmap_compose. by apply (list_elem_of_fmap_2 service_to_alpn). }
    erewrite rpc_run_cons.
    2: { cbn [rpc_step]. rewrite decide_False; [simpl; rewrite lookup_insert_eq; simpl; rewrite Hsend; reflexivity|].
      unfold settled. simpl. rewrite Hnil. apply not_elem_of_nil. }
    erewrite rpc_run_cons by (simpl; rewrite Hrecv; reflexivity). simpl. reflexivity.
  - simpl. rewrite Hsvcs, Hb. done.
Qed.
End Transports.

(** ** Concrete inputs *)

Module RpcDemo.
Import ListChannel Demo UserDataDemo ServerDemo.

(** Paths as the generated clients make them: ["/service/Method"]. *)
Definition demo_route (services : list string) (path : string) : option string :=
  head (filter (λ name, String.prefix ("/" +:+ name +:+ "/") path = true) services).

Abbreviation world := (RpcWorld nat).
Definition two_services : list BuilderCall := [CallAddRpc "echo.Echo"; CallAddRpc "p2p_chat.P2PChat"].
Definition demo_transport : Transport nat :=
  match spawn (EndpointId := nat) (PcError := unit) (build two_services) with
  | Some (Ok t) => t
  | _ => MkTransport [] [] demo_new None None
  end.
(** A client dials for the echo service and calls both. *)
Definition demo_labels : list (RpcLabel nat) :=
  [RpDial 3 (demo_conn 7); RpServer (SvStream 3 0); RpRequest (MkRequest 10 (3, 0) "/echo.Echo/Echo");
   RpServer SvServe; RpRequest (MkRequest 11 (3, 0) "/p2p_chat.P2PChat/SendMessage");
   RpHandle 11; RpHandle 10].
Definition demo_world : world :=
  default (rpc_new demo_transport) (rpc_run demo_route demo_transport (rpc_new demo_transport) demo_labels).

Example rpc_demo :
  (λ h, (hd_request h, ctx_node_id (hd_stream h), hd_service h)) <$> rw_handled demo_world =
  [(11, 7, Some "p2p_chat.P2PChat"); (10, 7, Some "echo.Echo")].
Proof. vm_compute. reflexivity. Qed.

Definition demo_handled : Handled nat := MkHandled 11 (forwarded 3 0 (demo_conn 7)) (Some "p2p_chat.P2PChat").

Lemma calls_authenticated_witness :
  ∃ conn name, RpDial 3 conn ∈ demo_labels ∧ remote_id conn = 7 ∧
    name ∈ called_services two_services ∧ conn_alpn conn = service_to_alpn name.
Proof.
  destruct (calls_authenticated (PcError := unit) demo_route two_services demo_transport demo_labels
    demo_world demo_handled) as (_ & (conn & name & Hd & Hid & _ & Hn & Ha) & _).
  - vm_eq.
  - vm_eq.
  - assert (rw_handled demo_world = demo_handled :: tail (rw_handled demo_world)) as -> by vm_eq. left.
  - exists conn, name. split; [exact Hd|]. split; [symmetry; exact Hid|]. split; [exact Hn|exact Ha].
Defined.
End RpcDemo.
