(* ===== verification/Lifecycle.v ===== *)
(** * The life of a transport

    Models what runs after [TransportBuilder::spawn] in [src/transport.rs] until
    [TransportGuard::shutdown] returns: the guard, the driver that waits for the
    tasks, the tonic server and the DHT publisher's loop of
    [src/swarm/dht/publisher.rs], with the broadcast that tells them to stop. *)
From S2P Require Import Prelude Tokio Iroh UserData Server.

(** [DhtPublisher::run] *)
Inductive PublisherPc :=
  | PubFirst      (** the first [publish_all] *)
  | PubTick       (** the first [interval.tick()] *)
  | PubSelect
  | PubRound      (** another [publish_all], from the tick arm *)
  | PubEnd.

(** [TransportGuard::shutdown] *)
Inductive GuardPc :=
  | GuardRunning
  | GuardAwait    (** [driver.await] *)
  | GuardRouter   (** [router.shutdown()] *)
  | GuardDone
  | GuardDropped. (** the guard was dropped without [shutdown] *)

Record Life := MkLife {
  lf_guard : GuardPc;
  (** [shutdown_rx.recv()] returns: the signal was sent, or its sender dropped *)
  lf_signal : bool;
  lf_publisher : option PublisherPc;
  lf_tonic : option bool;        (** whether the tonic server has ended *)
  lf_router_down : bool;
  lf_rounds : nat;               (** publication rounds begun *)
}.

(** [spawn] ends with the tasks it started. *)
Definition life_new {EndpointId} `{!Mpsc, !UserDataOps} (t : Transport EndpointId) : Life :=
  MkLife GuardRunning false ((λ _, PubFirst) <$> tr_published t)
    (match tr_services t with [] => None | _ => Some false end) false
    (match tr_published t with Some _ => 1 | None => 0 end).

Definition set_guard (g : GuardPc) (w : Life) : Life :=
  MkLife g (lf_signal w) (lf_publisher w) (lf_tonic w) (lf_router_down w) (lf_rounds w).
Definition set_publisher (p : PublisherPc) (w : Life) : Life :=
  MkLife (lf_guard w) (lf_signal w) (Some p) (lf_tonic w) (lf_router_down w) (lf_rounds w).
Definition signal (w : Life) : Life :=
  MkLife (lf_guard w) true (lf_publisher w) (lf_tonic w) (lf_router_down w) (lf_rounds w).

(** [driver]: [join_next] until no task is left. *)
Definition driver_ended (w : Life) : bool :=
  match lf_publisher w with None | Some PubEnd => true | _ => false end &&
  match lf_tonic w with None | Some true => true | _ => false end.

Inductive LifeLabel :=
  | LifeShutdown        (** [shutdown] is called *)
  | LifeDrop            (** the guard is dropped *)
  | LifeGuard           (** the next step of [shutdown] *)
  | LifePublished       (** a [publish_all] is over *)
  | LifeTick            (** the interval ticks *)
  | LifeSignalled       (** the publisher's [select!] sees the signal *)
  | LifeTonicEnd.       (** [serve_with_incoming_shutdown] returns *)

(** The steps.  The publisher's [select!] is not biased: with both arms ready
    it takes either.  tonic's server may end at any time, with an error. *)
Definition life_step (w : Life) (l : LifeLabel) : option Life :=
  match l with
  | LifeShutdown =>
      match lf_guard w with
      | GuardRunning => Some (set_guard GuardAwait (signal w)) | _ => None
      end
  | LifeDrop =>
      match lf_guard w with
      | GuardRunning => Some (set_guard GuardDropped (signal w)) | _ => None
      end
  | LifeGuard =>
      match lf_guard w with
      | GuardAwait => if driver_ended w then Some (set_guard GuardRouter w) else None
      | GuardRouter =>
          Some (MkLife GuardDone (lf_signal w) (lf_publisher w) (lf_tonic w) true (lf_rounds w))
      | _ => None
      end
  | LifePublished =>
      match lf_publisher w with
      | Some PubFirst => Some (set_publisher PubTick w)
      | Some PubRound => Some (set_publisher PubSelect w)
      | _ => None
      end
  | LifeTick =>
      match lf_publisher w with
      | Some PubTick => Some (set_publisher PubSelect w)
      | Some PubSelect =>
          Some (MkLife (lf_guard w) (lf_signal w) (Some PubRound) (lf_tonic w) (lf_router_down w)
                  (S (lf_rounds w)))
      | _ => None
      end
  | LifeSignalled =>
      match lf_publisher w with
      | Some PubSelect => if lf_signal w then Some (set_publisher PubEnd w) else None
      | _ => None
      end
  | LifeTonicEnd =>
      match lf_tonic w with
      | Some false =>
          Some (MkLife (lf_guard w) (lf_signal w) (lf_publisher w) (Some true) (lf_router_down w)
                  (lf_rounds w))
      | _ => None
      end
  end.

Fixpoint life_run (w : Life) (ls : list LifeLabel) : option Life :=
  match ls with
  | [] => Some w
  | l :: ls => w ← life_step w l; life_run w ls
  end.

(** ** The invariant *)

Record life_inv (w : Life) : Prop := {
  li_signal : lf_signal w = match lf_guard w with GuardRunning => false | _ => true end;
  li_ended : match lf_guard w with GuardRouter | GuardDone => driver_ended w = true | _ => True end;
  li_router : lf_router_down w = match lf_guard w with GuardDone => true | _ => false end;
}.

Lemma life_step_inv w l w' : life_inv w → life_step w l = Some w' → life_inv w'.
Proof.
  intros [Hs He Hr] Hst. destruct w as [g s p t r n]. simpl in *. unfold driver_ended in *.
  destruct l; simpl in Hst; destruct g, p as [[]|], t as [[]|]; simplify_eq/=; try done.
Qed.

Lemma life_run_inv w ls w' : life_inv w → life_run w ls = Some w' → life_inv w'.
Proof.
  revert w. induction ls as [|l ls IH]; intros w Hinv; simpl; [congruence|].
  intros (w1 & Hst & Hrun)%bind_Some. by apply (IH w1); [eapply life_step_inv|].
Qed.

(** When everything has ended nothing happens any more. *)
Lemma ended_step w l w' :
  lf_guard w = GuardDone → driver_ended w = true → life_step w l = Some w' → False.
Proof.
  intros Hg He Hst. destruct w as [g s p t r n]. simpl in *. subst g. unfold driver_ended in He.
  destruct l, p as [[]|], t as [[]|]; simplify_eq/=.
Qed.

(** A guard that is shutting down goes on to. *)
Definition shutting_down (g : GuardPc) : Prop := g = GuardAwait ∨ g = GuardRouter ∨ g = GuardDone.

Lemma shutting_down_run w ls w' :
  shutting_down (lf_guard w) → life_run w ls = Some w' → shutting_down (lf_guard w').
Proof.
  unfold shutting_down.
  revert w. induction ls as [|l ls IH]; intros w Hg; simpl; [by intros [= <-]|].
  intros (w1 & Hst & Hrun)%bind_Some. apply (IH w1); [|done]. clear Hrun IH.
  destruct w as [g s p t r n]. simpl in Hg.
  destruct l, Hg as [-> |[-> | ->]]; simpl in Hst; repeat case_match; simplify_eq/=; auto.
Qed.

(** [shutdown] has returned once its tasks have run until none can go on. *)
Lemma quiet_done w :
  life_inv w → shutting_down (lf_guard w) → (∀ l, life_step w l = None) → lf_guard w = GuardDone.
Proof.
  intros [Hs _ _] Hg Hq.
  pose proof (Hq LifeGuard) as Q1. pose proof (Hq LifePublished) as Q2.
  pose proof (Hq LifeTick) as Q3. pose proof (Hq LifeSignalled) as Q4.
  pose proof (Hq LifeTonicEnd) as Q5. clear Hq. unfold driver_ended in *.
  destruct w as [g s p t r n]. simpl in *. unfold driver_ended in *. simpl in *.
  destruct Hg as [-> |[-> | ->]]; [|done|done]. subst s.
  by destruct p as [[]|], t as [[]|].
Qed.

(** The steps by which a publisher that was told to stop does so. *)
Definition publisher_stops (p : option PublisherPc) : list LifeLabel :=
  match p with
  | None | Some PubEnd => []
  | Some PubFirst => [LifePublished; LifeTick; LifeSignalled]
  | Some PubTick => [LifeTick; LifeSignalled]
  | Some PubSelect => [LifeSignalled]
  | Some PubRound => [LifePublished; LifeSignalled]
  end.
Definition guard_stops (g : GuardPc) : list LifeLabel :=
  match g with
  | GuardAwait => [LifeGuard; LifeGuard]
  | GuardRouter => [LifeGuard]
  | _ => []
  end.

Section Facts.
Context {EndpointId : Type} `{!Mpsc, !UserDataOps}.
Implicit Types t : Transport EndpointId.

Lemma life_inv_new t : life_inv (life_new t).
Proof. by split. Qed.

(** [shutdown] returns only when the publisher and the tonic server have
    ended, the router having been shut down last: nothing is published, served
    or accepted any more.  And it does return: once tonic's server has ended,
    the publisher needs at most to finish the round it is in and to see the
    signal, which it can do without another round. *)
Lemma shutdown_stops_everything t ls w :
  life_run (life_new t) ls = Some w →
  (lf_guard w = GuardDone →
   driver_ended w = true ∧ lf_router_down w = true ∧ ∀ l, life_step w l = None) ∧
  (lf_router_down w = true → lf_guard w = GuardDone) ∧
  (lf_guard w = GuardAwait ∨ lf_guard w = GuardRouter → lf_tonic w ≠ Some false →
   ∃ w', life_run w (publisher_stops (lf_publisher w) ++ guard_stops (lf_guard w)) = Some w' ∧
     lf_guard w' = GuardDone ∧ lf_rounds w' = lf_rounds w).
Proof.
  intros Hrun. pose proof (life_run_inv _ _ _ (life_inv_new t) Hrun) as [Hs He Hr]. clear Hrun.
  split_and!.
  - intros Hg. rewrite Hg in He, Hr. split_and!; [done|done|]. intros l.
    destruct (life_step w l) eqn:Hst; [|done]. by destruct (ended_step _ _ _ Hg He Hst).
  - rewrite Hr. by destruct (lf_guard w).
  - destruct w as [g s p tn r n]. simpl in *. unfold driver_ended in He. simpl in He.
    intros Hg Htn. destruct tn as [[]|]; [|done|];
      destruct Hg as [-> | ->]; simpl in Hs; subst s; destruct p as [[]|]; try done; by eexists.
Qed.
End Facts.

(** ** Concrete inputs *)

Module LifecycleDemo.
Import ListChannel Demo UserDataDemo.

(** A transport with a service and a publisher; it is shut down while a round
    is being published. *)
Definition demo_transport : Transport nat :=
  MkTransport [] ["echo.Echo"%string] (MkServer (LChan [] 1 false) ∅ [] [] []) None (Some []).
Definition demo_labels : list LifeLabel :=
  [LifePublished; LifeTick; LifeTick; LifeShutdown; LifeTonicEnd].
Definition demo_life : Life :=
  default (life_new demo_transport) (life_run (life_new demo_transport) demo_labels).

End LifecycleDemo.
