(* ===== verification/Client.v ===== *)
(** * The direct client

    Models [src/client.rs]: the connect builder, its timeout and the steps of a
    connection, whose outcomes are parameters; and the metadata injector of
    [src/otel.rs]. *)
From S2P Require Import Prelude PoolActor Errors Alpn.

Section Client.
Context {EndpointAddr ConnectError Ch : Type}.
(** [format!("connection timed out after {timeout:?}")] *)
Context (timed_out_message : Z → string).

(** [ConnectBuilder]; [transport_config]: whether one was given. *)
Record ConnectBuilder := MkConnectBuilder {
  cb_target : EndpointAddr;
  cb_alpn : bytes;
  cb_connect_timeout : option Z;
  cb_transport_config : bool;
}.

Definition connect_builder_new (target : EndpointAddr) (alpn : bytes) : ConnectBuilder :=
  MkConnectBuilder target alpn None false.
(** [IrohConnect::connect] for the service [name] *)
Definition iroh_connect (name : string) (target : EndpointAddr) : ConnectBuilder :=
  connect_builder_new target (service_to_alpn name).
Definition connect_alpn (target : EndpointAddr) (alpn : bytes) : ConnectBuilder :=
  connect_builder_new target alpn.
Definition set_connect_timeout (timeout : Z) (b : ConnectBuilder) : ConnectBuilder :=
  MkConnectBuilder (cb_target b) (cb_alpn b) (Some timeout) (cb_transport_config b).
Definition set_transport_config (b : ConnectBuilder) : ConnectBuilder :=
  MkConnectBuilder (cb_target b) (cb_alpn b) (cb_connect_timeout b) true.

(** The endpoint and the peer: how each step ends for a target and an ALPN, and
    how long the whole takes ([None]: for ever). *)
Record ConnectEnv := MkConnectEnv {
  en_connect : EndpointAddr → bytes → Result ConnectError unit;
  en_connect_with_opts : EndpointAddr → bytes → Result ConnectError unit;
  en_connecting : Result ConnectingError unit;
  en_open_bi : Result ConnectionError unit;
  en_handshake : Result (Error ConnectError) Ch;
  en_duration : option Z;
}.

Definition refused (e : ConnectError) : Error ConnectError :=
  ErrIo (MkIoError KConnectionRefused (FromConnect e)).

Definition connect_inner (env : ConnectEnv) (b : ConnectBuilder) : Result (Error ConnectError) Ch :=
  _ ← (if cb_transport_config b then
         _ ← map_err refused (en_connect_with_opts env (cb_target b) (cb_alpn b));
         map_err (λ e, ErrIo (connecting_error_to_io e)) (en_connecting env)
       else map_err refused (en_connect env (cb_target b) (cb_alpn b)));
  _ ← map_err (λ e, ErrIo (connection_error_to_io e)) (en_open_bi env);
  en_handshake env.

(** Whether the inner future is done when the timer fires. *)
Definition in_time (env : ConnectEnv) (timeout : Z) : bool :=
  match en_duration env with Some d => (d <=? timeout)%Z | None => false end.

(** [connect_impl]; [None] when it never returns. *)
Definition connect_impl (env : ConnectEnv) (b : ConnectBuilder)
  : option (Result (Error ConnectError) Ch) :=
  match cb_connect_timeout b with
  | Some timeout =>
      Some (if in_time env timeout then connect_inner env b
            else Err (error_connection (timed_out_message timeout)))
  | None => (λ _, connect_inner env b) <$> en_duration env
  end.

(** Awaiting the builder: [IntoFuture]. *)
Definition into_future : ConnectEnv → ConnectBuilder → option (Result (Error ConnectError) Ch) :=
  connect_impl.

(** ** Theorems *)

(** With a timeout, connecting always returns: the channel exactly when the
    connection, its stream and the handshake all succeed in time; otherwise the
    timeout's error, a refusal of the connection attempt, or the I/O error the
    failed QUIC step maps to. *)
Lemma connect_with_timeout (env : ConnectEnv) (b : ConnectBuilder) (timeout : Z) :
  cb_connect_timeout b = Some timeout →
  ∃ r, connect_impl env b = Some r ∧
  match r with
  | Ok ch => in_time env timeout = true ∧ en_open_bi env = Ok tt ∧ en_handshake env = Ok ch ∧
      (if cb_transport_config b
       then en_connect_with_opts env (cb_target b) (cb_alpn b) = Ok tt ∧ en_connecting env = Ok tt
       else en_connect env (cb_target b) (cb_alpn b) = Ok tt)
  | Err e =>
      (in_time env timeout = false ∧ e = ErrConnection (timed_out_message timeout)) ∨
      (∃ ce, e = ErrIo (MkIoError KConnectionRefused (FromConnect ce))) ∨
      (∃ ce, en_connecting env = Err ce ∧ e = ErrIo (connecting_error_to_io ce)) ∨
      (∃ ce, en_open_bi env = Err ce ∧ e = ErrIo (connection_error_to_io ce)) ∨
      en_handshake env = Err e
  end.
Proof.
  intros Ht. unfold connect_impl. rewrite Ht. eexists. split; [done|].
  destruct (in_time env timeout); [|by left].
  unfold connect_inner.
  destruct (cb_transport_config b).
  - destruct (en_connect_with_opts env _ _) as [[]|ce]; simpl; [|eauto 6].
    destruct (en_connecting env) as [[]|ce]; simpl; [|eauto 6].
    destruct (en_open_bi env) as [[]|ce]; simpl; [|eauto 7].
    destruct (en_handshake env); eauto 8.
  - destruct (en_connect env _ _) as [[]|ce]; simpl; [|eauto 6].
    destruct (en_open_bi env) as [[]|ce]; simpl; [|eauto 7].
    destruct (en_handshake env); eauto 8.
Qed.
End Client.
Arguments ConnectBuilder : clear implicits.
Arguments ConnectEnv : clear implicits.

(** ** Trace metadata *)

Section Metadata.
(** [MetadataKey::from_bytes] and [MetadataValue::try_from]. *)
Context (metadata_key : string → option string) (metadata_value : string → option string).

(** [MetadataInjector::set] *)
Definition injector_set (m : gmap string string) (key value : string) : gmap string string :=
  match metadata_key key with
  | Some key =>
      match metadata_value value with
      | Some val => <[key := val]> m
      | None => m
      end
  | None => m
  end.

(** [TraceContextInjector::call]: the propagator sets its fields one by one. *)
Definition injector_call (fields : list (string * string)) (m : gmap string string)
  : gmap string string :=
  foldl (λ m kv, injector_set m kv.1 kv.2) m fields.

(** Injection touches only the propagator's keys. *)
Lemma injector_call_other fields m k :
  (∀ kv, kv ∈ fields → metadata_key kv.1 ≠ Some k) → injector_call fields m !! k = m !! k.
Proof.
  revert m. induction fields as [|kv fields IH]; intros m Hk; simpl; [done|].
  unfold injector_call in *. simpl. rewrite IH by (intros; apply Hk; by right).
  unfold injector_set. specialize (Hk kv ltac:(by left)).
  repeat case_match; try done. rewrite lookup_insert_ne; [done|congruence].
Qed.
End Metadata.

Module ClientDemo.

Definition demo_env : ConnectEnv nat unit nat :=
  @MkConnectEnv nat unit nat (λ _ _, Ok tt) (λ _ _, Ok tt) (Ok tt) (Err TimedOut) (Ok 1) (Some 10%Z).
Definition demo_builder : ConnectBuilder nat :=
  set_connect_timeout 100 (iroh_connect "echo.Echo" 7).

End ClientDemo.
