(* ===== verification/Trace.v ===== *)
(** * Trace propagation

    Models the server side of [src/otel.rs], the extractor and the tower layer,
    and its end-to-end use with the client's injector of [Client].  Parsing of
    header names and values is http's and tonic's, the propagator
    OpenTelemetry's: parameters, with what the source relies on. *)
From S2P Require Import Prelude Alpn Client.

(** ** The headers *)

Section Headers.
(** [HeaderName::from_bytes] (lower case), [MetadataKey::from_bytes] (the same,
    but for binary keys), [MetadataValue::try_from] and [HeaderValue::to_str].
    A header can have several values. *)
Context (header_name metadata_key metadata_value to_str : string → option string).
Context {Cx : Type}.
(** The propagator: the fields it injects for a context, and the context it makes
    of what it can get by key, among the keys there are. *)
Context (fields : Cx → list (string * string))
        (extract : (string → option string) → list string → Cx).

(** [HeaderExtractor::get]: the first value of the header. *)
Definition extractor_get (headers : gmap string (list string)) (key : string) : option string :=
  name ← header_name key; values ← headers !! name; v ← head values; to_str v.
(** [HeaderExtractor::keys] *)
Definition extractor_keys (headers : gmap string (list string)) : list string :=
  (map_to_list headers).*1.

(** The span of a call. *)
Record Span := MkSpan {
  span_name : string;
  span_kind : string;
  span_method : string;
  span_parent : Cx;
}.

(** [TraceContextService::call], up to the call of the inner service. *)
Definition server_span (headers : gmap string (list string)) (path : string) : Span :=
  MkSpan "grpc.server" "server" path (extract (extractor_get headers) (extractor_keys headers)).

(** What the source relies on. *)
Class TraceLaws : Prop := {
  (** a metadata key is a header name *)
  key_header k k' : metadata_key k = Some k' → header_name k = Some k';
  (** the propagator's fields have different keys, fit for metadata, and printable
      values *)
  fields_keys cx : NoDup ((λ kv, metadata_key kv.1) <$> fields cx);
  fields_key cx kv : kv ∈ fields cx → is_Some (metadata_key kv.1);
  fields_value cx kv : kv ∈ fields cx →
    ∃ v, metadata_value kv.2 = Some v ∧ to_str v = Some kv.2;
  (** the propagator reads back a context from its fields, whatever else there
      is; only of a context without fields nothing is known *)
  extract_fields cx get keys : fields cx ≠ [] →
    (∀ kv, kv ∈ fields cx → get kv.1 = Some kv.2) → extract get keys = cx;
}.

(** The metadata of a request are its headers on the wire. *)
Definition on_the_wire (m : gmap string string) : gmap string (list string) := (λ v, [v]) <$> m.

Lemma injector_call_lookup fs m k k' v v' :
  NoDup ((λ kv, metadata_key kv.1) <$> fs) → (k, v) ∈ fs →
  metadata_key k = Some k' → metadata_value v = Some v' →
  injector_call metadata_key metadata_value fs m !! k' = Some v'.
Proof.
  revert m. induction fs as [|kv fs IH]; intros m Hnd Hin Hk Hv; [by apply elem_of_nil in Hin|].
  csimpl in Hnd. apply NoDup_cons in Hnd as [Hni Hnd].
  apply elem_of_cons in Hin as [<-|Hin]; [|by apply (IH (injector_set _ _ m kv.1 kv.2))].
  unfold injector_call. simpl. fold (injector_call metadata_key metadata_value fs
    (injector_set metadata_key metadata_value m k v)).
  rewrite injector_call_other.
  - unfold injector_set. rewrite Hk, Hv. apply lookup_insert_eq.
  - intros kv Hkv E. apply Hni. simpl. rewrite Hk, <-E.
    by apply (list_elem_of_fmap_2 (λ kv, metadata_key kv.1)).
Qed.

(** C37: a trace crosses the wire: the span that the server runs the handler in
    has as its parent exactly the context that the client's interceptor
    injected, whatever else the request's metadata holds. *)
Theorem trace_context_propagates `{!TraceLaws} cx m path :
  fields cx ≠ [] →
  let metadata := injector_call metadata_key metadata_value (fields cx) m in
  let span := server_span (on_the_wire metadata) path in
  span_parent span = cx ∧ span_method span = path ∧
  ∀ k, (∀ kv, kv ∈ fields cx → metadata_key kv.1 ≠ Some k) → metadata !! k = m !! k.
Proof.
  intros Hne metadata span. split_and!; [|done|intros k; apply injector_call_other].
  apply extract_fields; [done|]. intros [k v] Hin. simpl.
  destruct (fields_key _ _ Hin) as [k' Hk]. destruct (fields_value _ _ Hin) as (v' & Hv & Hs).
  simpl in *. unfold extractor_get. rewrite (key_header _ _ Hk). simpl.
  unfold on_the_wire, metadata. rewrite lookup_fmap.
  by rewrite (injector_call_lookup _ _ _ _ _ _ (fields_keys cx) Hin Hk Hv).
Qed.
End Headers.
Arguments Span : clear implicits.
Arguments MkSpan {Cx} _ _ _ _.

(** ** The layer as a service *)

Section Layer.
Context {Req : Type}.

(** What happens to the instances of the inner service, by number: a poll and
    whether it was ready, a clone, a call. *)
Inductive InnerEvent :=
  | InnerPoll (i : nat) (ready : bool)
  | InnerClone (i j : nat)
  | InnerCall (i : nat) (req : Req).

(** [TraceContextService]: the instance in [inner], and the next to be made. *)
Record TraceContextService := MkTraceContextService {
  tc_inner : nat;
  tc_next : nat;
  tc_log : list InnerEvent;
}.
(** [TraceContextLayer::layer] *)
Definition layer : TraceContextService := MkTraceContextService 0 1 [].
(** [NamedService::NAME] *)
Definition layer_name (name : string) : string := name.

(** [poll_ready]; [ready] is what the instance answers. *)
Definition trace_poll_ready (ready : bool) (s : TraceContextService) : TraceContextService :=
  MkTraceContextService (tc_inner s) (tc_next s) (tc_log s ++ [InnerPoll (tc_inner s) ready]).

(** [call]: the instance is cloned, the clone takes its place in [inner] and the
    instance itself is called. *)
Definition trace_call (req : Req) (s : TraceContextService) : TraceContextService :=
  let clone := tc_next s in
  MkTraceContextService clone (S clone)
    (tc_log s ++ [InnerClone (tc_inner s) clone; InnerCall (tc_inner s) req]).

(** What a caller does with the layer. *)
Inductive Drive := DrivePoll (ready : bool) | DriveCall (req : Req).

Definition drive_step (s : TraceContextService) (d : Drive) : TraceContextService :=
  match d with DrivePoll ready => trace_poll_ready ready s | DriveCall req => trace_call req s end.
Definition drive (ds : list Drive) : TraceContextService := foldl drive_step layer ds.

(** tower's contract: [call] only after [poll_ready] has returned ready. *)
Fixpoint respects (ready : bool) (ds : list Drive) : bool :=
  match ds with
  | [] => true
  | DrivePoll r :: ds => respects r ds
  | DriveCall _ :: ds => ready && respects false ds
  end.

(** The same of one instance in a log: whether it is ready, [None] when it was
    called without being so. *)
Fixpoint instance_state (i : nat) (ready : bool) (log : list InnerEvent) : option bool :=
  match log with
  | [] => Some ready
  | InnerPoll j r :: log => instance_state i (if decide (i = j) then r else ready) log
  | InnerClone _ _ :: log => instance_state i ready log
  | InnerCall j _ :: log =>
      if decide (i = j) then if ready then instance_state i false log else None
      else instance_state i ready log
  end.

Definition drive_call (d : Drive) : option Req :=
  match d with DriveCall req => Some req | DrivePoll _ => None end.
Definition log_call (e : InnerEvent) : option Req :=
  match e with InnerCall _ req => Some req | _ => None end.

Lemma instance_state_app i r log1 log2 :
  instance_state i r (log1 ++ log2) =
  r' ← instance_state i r log1; instance_state i r' log2.
Proof.
  revert r. induction log1 as [|[] log1 IH]; intros r; simpl; [done|apply IH..|].
  case_decide; [|apply IH]. destruct r; [apply IH|done].
Qed.

(** The instance in [inner] is as ready as the layer, the later ones are new. *)
Record layer_ok (ready : bool) (s : TraceContextService) : Prop := {
  lo_next : tc_inner s < tc_next s;
  lo_inner : instance_state (tc_inner s) false (tc_log s) = Some ready;
  lo_old : ∀ i, is_Some (instance_state i false (tc_log s));
  lo_new : ∀ i, tc_next s ≤ i → instance_state i false (tc_log s) = Some false;
}.

Lemma layer_ok_poll r r' s : layer_ok r s → layer_ok r' (trace_poll_ready r' s).
Proof.
  intros [Hn Hi Ho Hw]. split; simpl; [done| | |].
  - rewrite instance_state_app, Hi. simpl. by rewrite decide_True.
  - intros i. rewrite instance_state_app. destruct (Ho i) as [x ->]. simpl. eauto.
  - intros i Hle. rewrite instance_state_app, (Hw i Hle). simpl. rewrite decide_False; [done|lia].
Qed.

Lemma layer_ok_call req s : layer_ok true s → layer_ok false (trace_call req s).
Proof.
  intros [Hn Hi Ho Hw]. split; simpl; [lia| | |].
  - rewrite instance_state_app, Hw by done. simpl. rewrite decide_False; [done|lia].
  - intros i. rewrite instance_state_app. destruct (decide (i = tc_inner s)) as [->|Hne].
    + rewrite Hi. simpl. rewrite decide_True by done. eauto.
    + destruct (Ho i) as [x ->]. simpl. rewrite decide_False by done. eauto.
  - intros i Hle. rewrite instance_state_app, Hw by lia. simpl. rewrite decide_False; [done|lia].
Qed.

Lemma drive_ok ready ds s :
  layer_ok ready s → respects ready ds = true → ∃ r, layer_ok r (foldl drive_step s ds).
Proof.
  revert ready s. induction ds as [|[r|req] ds IH]; intros ready s Hok; simpl; [eauto| |].
  - apply IH. by eapply layer_ok_poll.
  - intros [-> Hr]%andb_true_iff. apply (IH false); [|done]. by apply layer_ok_call.
Qed.

(** The layer keeps tower's contract for the service it wraps: if its caller
    calls it only when it was ready, then every instance of the inner service is
    called only when that very instance was ready, although each call leaves a
    clone in its place; and the inner service gets the caller's requests, in
    order. *)
Lemma trace_layer_keeps_contract ds :
  respects false ds = true →
  (∀ i, is_Some (instance_state i false (tc_log (drive ds)))) ∧
  omap log_call (tc_log (drive ds)) = omap drive_call ds.
Proof.
  intros Hr. split.
  - destruct (drive_ok false ds layer) as [r [_ _ Ho _]]; [|done|apply Ho].
    split; simpl; eauto with lia.
  - assert (Hgen : ∀ s, omap log_call (tc_log (foldl drive_step s ds)) =
      omap log_call (tc_log s) ++ omap drive_call ds); [|apply (Hgen layer)].
    clear Hr. induction ds as [|[r|req] ds IH]; intros s; simpl; [by rewrite app_nil_r|..];
      rewrite IH; simpl; rewrite omap_app, <-(assoc_L (++)); done.
Qed.
End Layer.

(** ** Concrete inputs *)

Module TraceDemo.

(** A propagator of one header, which reads it back. *)
Definition demo_fields (cx : string) : list (string * string) := [("traceparent", cx)]%string.
Definition demo_extract (get : string → option string) (_ : list string) : string :=
  default ""%string (get "traceparent"%string).

Lemma demo_laws : TraceLaws Some Some Some Some demo_fields demo_extract.
Proof.
  split; simpl.
  - done.
  - intros cx. apply NoDup_singleton.
  - intros cx kv _. eauto.
  - intros cx kv _. eauto.
  - intros cx get keys _ Hget. unfold demo_extract.
    assert (get "traceparent"%string = Some cx) as ->; [|done].
    apply (Hget ("traceparent"%string, cx)). by left.
Defined.

Lemma trace_context_propagates_witness :
  span_parent (server_span Some Some demo_extract (on_the_wire
    (injector_call Some Some (demo_fields "00-4bf9-01"%string) {["user" := "bob"]}%string))
    "/echo.Echo/Echo") = "00-4bf9-01"%string.
Proof.
  refine (proj1 (@trace_context_propagates Some Some Some Some _ demo_fields demo_extract
    demo_laws "00-4bf9-01" {["user" := "bob"]} "/echo.Echo/Echo" _)%string). done.
Defined.

End TraceDemo.
