(* ===== verification/ChatPb.v ===== *)
(** * The protobuf messages of the examples

    Models the messages and enumerations generated from the examples' protobuf
    files, [src/examples/chat/src/pb/p2p_chat.v1.rs] and
    [src/examples/echo/src/pb/echo.v1.rs].  Their encoding is prost's; the
    services are in [ChatGrpc]. *)
From S2P Require Import Prelude.
Local Open Scope string_scope.

(** ** Messages *)

(** [i32] fields hold enumerations by number. *)
Inductive ConnectionType :=
  | ConnectionUnspecified | ConnectionDirect | ConnectionRelay | ConnectionUnknown.

Inductive MessageType := MessageUnspecified | MessageText | MessageSystem | MessageHeartbeat.

#[export] Instance ConnectionType_eq_dec : EqDecision ConnectionType.
Proof. solve_decision. Defined.
#[export] Instance MessageType_eq_dec : EqDecision MessageType.
Proof. solve_decision. Defined.

Record PeerInfo := MkPeerInfo {
  pi_node_id : string;
  pi_addresses : list string;
  pi_connected_since : Z;
  pi_connection_type : Z;
}.

Record GetNodeInfoResponse := MkGetNodeInfoResponse {
  gni_node_id : string;
  gni_addresses : list string;
  gni_version : string;
  gni_uptime_seconds : Z;
  gni_connected_peers : Z;
}.

Record PingRequest := MkPingRequest { ping_timestamp : Z; ping_data : string }.

Record PingResponse := MkPingResponse {
  request_timestamp : Z;
  response_timestamp : Z;
  echo_data : string;
}.

Record ChatMessage := MkChatMessage {
  msg_id : string;
  sender_id : string;
  recipient_id : string;
  content : string;
  timestamp : Z;
  msg_type : Z;
}.
#[export] Instance ChatMessage_eq_dec : EqDecision ChatMessage.
Proof. solve_decision. Defined.

Record SendMessageRequest := MkSendMessageRequest {
  sm_recipient_id : string;
  sm_content : string;
  sm_timestamp : Z;
}.

Record SendMessageResponse := MkSendMessageResponse {
  sm_success : bool;
  sm_error : string;
  sm_message_id : string;
}.

Record SubscribeMessagesResponse := MkSubscribeMessagesResponse {
  sub_message : option ChatMessage;
}.

Record GetHistoryRequest := MkGetHistoryRequest {
  peer_id : string;
  limit : Z;
  before_timestamp : Z;
}.

Record GetHistoryResponse := MkGetHistoryResponse {
  history_messages : list ChatMessage;
  has_more : bool;
}.

Record ChatStreamRequest := MkChatStreamRequest { csr_message : option ChatMessage }.
Record ChatStreamResponse := MkChatStreamResponse { csp_message : option ChatMessage }.

Record EchoRequest := MkEchoRequest { echo_request_message : string }.
Record EchoResponse := MkEchoResponse { echo_message : string; echo_peer_id : string }.

(** [tonic::Status]: a code and a message. *)
Record Status := MkStatus { st_code : Z; st_message : string }.
Definition code_unknown : Z := 2.
Definition code_unimplemented : Z := 12.

(** *** Enumerations *)

(** The [i32] of a value: its discriminant. *)
Definition connection_type_i32 (c : ConnectionType) : Z :=
  match c with
  | ConnectionUnspecified => 0
  | ConnectionDirect => 1
  | ConnectionRelay => 2
  | ConnectionUnknown => 3
  end.
Definition message_type_i32 (t : MessageType) : Z :=
  match t with
  | MessageUnspecified => 0
  | MessageText => 1
  | MessageSystem => 2
  | MessageHeartbeat => 3
  end.

(** [ConnectionType::try_from(i32)] *)
Definition connection_type_try_from (z : Z) : option ConnectionType :=
  find (λ c, connection_type_i32 c =? z)%Z
    [ConnectionUnspecified; ConnectionDirect; ConnectionRelay; ConnectionUnknown].

Definition connection_type_as_str_name (c : ConnectionType) : string :=
  match c with
  | ConnectionUnspecified => "CONNECTION_TYPE_UNSPECIFIED"
  | ConnectionDirect => "CONNECTION_TYPE_DIRECT"
  | ConnectionRelay => "CONNECTION_TYPE_RELAY"
  | ConnectionUnknown => "CONNECTION_TYPE_UNKNOWN"
  end.
Definition connection_type_from_str_name (s : string) : option ConnectionType :=
  if decide (s = "CONNECTION_TYPE_UNSPECIFIED") then Some ConnectionUnspecified
  else if decide (s = "CONNECTION_TYPE_DIRECT") then Some ConnectionDirect
  else if decide (s = "CONNECTION_TYPE_RELAY") then Some ConnectionRelay
  else if decide (s = "CONNECTION_TYPE_UNKNOWN") then Some ConnectionUnknown
  else None.

Definition message_type_as_str_name (t : MessageType) : string :=
  match t with
  | MessageUnspecified => "MESSAGE_TYPE_UNSPECIFIED"
  | MessageText => "MESSAGE_TYPE_TEXT"
  | MessageSystem => "MESSAGE_TYPE_SYSTEM"
  | MessageHeartbeat => "MESSAGE_TYPE_HEARTBEAT"
  end.
Definition message_type_from_str_name (s : string) : option MessageType :=
  if decide (s = "MESSAGE_TYPE_UNSPECIFIED") then Some MessageUnspecified
  else if decide (s = "MESSAGE_TYPE_TEXT") then Some MessageText
  else if decide (s = "MESSAGE_TYPE_SYSTEM") then Some MessageSystem
  else if decide (s = "MESSAGE_TYPE_HEARTBEAT") then Some MessageHeartbeat
  else None.

(** ** Facts *)

Lemma message_type_roundtrip t : message_type_from_str_name (message_type_as_str_name t) = Some t.
Proof. by destruct t. Qed.

Lemma connection_type_roundtrip c :
  connection_type_from_str_name (connection_type_as_str_name c) = Some c ∧
  connection_type_try_from (connection_type_i32 c) = Some c.
Proof. by destruct c. Qed.
