(* ===== verification/ChatGrpc.v ===== *)
(** * The gRPC services of the examples

    Models the clients and servers generated for the three services of
    [src/examples/chat/src/pb/p2p_chat.v1.rs] and
    [src/examples/echo/src/pb/echo.v1.rs]: the builders that set compression and
    message sizes, the path a client method calls, and the handler a server
    chooses for a path and how it configures tonic for it.  Compression,
    interceptors and the framing of a call are tonic's. *)
From S2P Require Import Prelude Alpn ChatPb.
Local Open Scope string_scope.

(** tonic: sets of encodings, and the two [Grpc] types by their builders. *)
Class Tonic := {
  CompressionEncoding : Type;
  EnabledCompressionEncodings : Type;
  no_encodings : EnabledCompressionEncodings;
  enable : CompressionEncoding → EnabledCompressionEncodings → EnabledCompressionEncodings;
  (** [tonic::server::Grpc] *)
  ServerGrpc : Type;
  server_grpc_new : ServerGrpc;
  apply_compression_config :
    EnabledCompressionEncodings → EnabledCompressionEncodings → ServerGrpc → ServerGrpc;
  apply_max_message_size_config : option Z → option Z → ServerGrpc → ServerGrpc;
  (** [tonic::client::Grpc] *)
  ClientGrpc : Type → Type;
  client_grpc_new {T} : T → ClientGrpc T;
  client_grpc_with_origin {T} : T → string → ClientGrpc T;
  grpc_send_compressed {T} : CompressionEncoding → ClientGrpc T → ClientGrpc T;
  grpc_accept_compressed {T} : CompressionEncoding → ClientGrpc T → ClientGrpc T;
  grpc_max_decoding_message_size {T} : Z → ClientGrpc T → ClientGrpc T;
  grpc_max_encoding_message_size {T} : Z → ClientGrpc T → ClientGrpc T;
  InterceptedService : Type → Type → Type;
  intercepted_new {T F} : T → F → InterceptedService T F;
}.

(** ** Services *)

(** How tonic drives a method: [Grpc::unary], [server_streaming], [streaming]. *)
Inductive CallKind := Unary | ServerStreaming | BidiStreaming.

Inductive NodeMethod := GetNodeInfo | Ping | ListPeers | Shutdown.
Inductive ChatMethod := SendMessage | SubscribeMessages | GetHistory | ChatStream.
Inductive EchoMethod := Echo.

#[export] Instance NodeMethod_eq_dec : EqDecision NodeMethod.
Proof. solve_decision. Defined.
#[export] Instance ChatMethod_eq_dec : EqDecision ChatMethod.
Proof. solve_decision. Defined.
#[export] Instance EchoMethod_eq_dec : EqDecision EchoMethod.
Proof. solve_decision. Defined.

(** [SERVICE_NAME] of the three services. *)
Definition NODE_SERVICE_NAME : string := "p2p_chat.v1.NodeService".
Definition CHAT_SERVICE_NAME : string := "p2p_chat.v1.P2PChatService".
Definition ECHO_SERVICE_NAME : string := "echo.v1.EchoService".

(** What a client method hands to tonic: the path, the [GrpcMethod] extension
    and the kind of call. *)
Record GrpcCall := MkGrpcCall {
  gc_path : string;
  gc_service : string;
  gc_method : string;
  gc_kind : CallKind;
}.

Definition node_client_call (m : NodeMethod) : GrpcCall :=
  match m with
  | GetNodeInfo => MkGrpcCall "/p2p_chat.v1.NodeService/GetNodeInfo"
                     "p2p_chat.v1.NodeService" "GetNodeInfo" Unary
  | Ping => MkGrpcCall "/p2p_chat.v1.NodeService/Ping" "p2p_chat.v1.NodeService" "Ping" Unary
  | ListPeers => MkGrpcCall "/p2p_chat.v1.NodeService/ListPeers"
                   "p2p_chat.v1.NodeService" "ListPeers" Unary
  | Shutdown => MkGrpcCall "/p2p_chat.v1.NodeService/Shutdown"
                  "p2p_chat.v1.NodeService" "Shutdown" Unary
  end.

Definition chat_client_call (m : ChatMethod) : GrpcCall :=
  match m with
  | SendMessage => MkGrpcCall "/p2p_chat.v1.P2PChatService/SendMessage"
                     "p2p_chat.v1.P2PChatService" "SendMessage" Unary
  | SubscribeMessages => MkGrpcCall "/p2p_chat.v1.P2PChatService/SubscribeMessages"
                           "p2p_chat.v1.P2PChatService" "SubscribeMessages" ServerStreaming
  | GetHistory => MkGrpcCall "/p2p_chat.v1.P2PChatService/GetHistory"
                    "p2p_chat.v1.P2PChatService" "GetHistory" Unary
  | ChatStream => MkGrpcCall "/p2p_chat.v1.P2PChatService/ChatStream"
                    "p2p_chat.v1.P2PChatService" "ChatStream" BidiStreaming
  end.

Definition echo_client_call (m : EchoMethod) : GrpcCall :=
  match m with
  | Echo => MkGrpcCall "/echo.v1.EchoService/Echo" "echo.v1.EchoService" "Echo" Unary
  end.

(** *** Builders

    The generated types of the three services differ in their names only. *)

Section Builders.
Context `{!Tonic}.

(** The methods that configure a client or a server. *)
Inductive Setting :=
  | SendCompressed (encoding : CompressionEncoding)
  | AcceptCompressed (encoding : CompressionEncoding)
  | MaxDecodingMessageSize (limit : Z)
  | MaxEncodingMessageSize (limit : Z).

Record GrpcClient (T : Type) := MkGrpcClient { cl_inner : ClientGrpc T }.
Arguments MkGrpcClient {T}.
Arguments cl_inner {T}.

Definition client_new {T} (inner : T) : GrpcClient T := MkGrpcClient (client_grpc_new inner).
Definition client_with_origin {T} (inner : T) (origin : string) : GrpcClient T :=
  MkGrpcClient (client_grpc_with_origin inner origin).
Definition client_with_interceptor {T F} (inner : T) (interceptor : F)
  : GrpcClient (InterceptedService T F) :=
  client_new (intercepted_new inner interceptor).
Definition client_set {T} (s : Setting) (c : GrpcClient T) : GrpcClient T :=
  MkGrpcClient
    match s with
    | SendCompressed encoding => grpc_send_compressed encoding (cl_inner c)
    | AcceptCompressed encoding => grpc_accept_compressed encoding (cl_inner c)
    | MaxDecodingMessageSize limit => grpc_max_decoding_message_size limit (cl_inner c)
    | MaxEncodingMessageSize limit => grpc_max_encoding_message_size limit (cl_inner c)
    end.

(** A server: the handlers, shared by its clones, and the configuration of its
    calls. *)
Record GrpcServer (T : Type) := MkGrpcServer {
  gs_inner : T;
  accept_compression_encodings : EnabledCompressionEncodings;
  send_compression_encodings : EnabledCompressionEncodings;
  max_decoding_message_size : option Z;
  max_encoding_message_size : option Z;
}.
Arguments MkGrpcServer {T}.
Arguments gs_inner {T}.
Arguments accept_compression_encodings {T}.
Arguments send_compression_encodings {T}.
Arguments max_decoding_message_size {T}.
Arguments max_encoding_message_size {T}.

(** [new] / [from_arc] *)
Definition grpc_server_new {T} (inner : T) : GrpcServer T :=
  MkGrpcServer inner no_encodings no_encodings None None.
Definition server_with_interceptor {T F} (inner : T) (interceptor : F)
  : InterceptedService (GrpcServer T) F :=
  intercepted_new (grpc_server_new inner) interceptor.
Definition server_set {T} (s : Setting) (c : GrpcServer T) : GrpcServer T :=
  match s with
  | AcceptCompressed encoding =>
      MkGrpcServer (gs_inner c) (enable encoding (accept_compression_encodings c))
        (send_compression_encodings c) (max_decoding_message_size c) (max_encoding_message_size c)
  | SendCompressed encoding =>
      MkGrpcServer (gs_inner c) (accept_compression_encodings c)
        (enable encoding (send_compression_encodings c)) (max_decoding_message_size c)
        (max_encoding_message_size c)
  | MaxDecodingMessageSize limit =>
      MkGrpcServer (gs_inner c) (accept_compression_encodings c) (send_compression_encodings c)
        (Some limit) (max_encoding_message_size c)
  | MaxEncodingMessageSize limit =>
      MkGrpcServer (gs_inner c) (accept_compression_encodings c) (send_compression_encodings c)
        (max_decoding_message_size c) (Some limit)
  end.
Definition server_clone {T} (c : GrpcServer T) : GrpcServer T :=
  MkGrpcServer (gs_inner c) (accept_compression_encodings c) (send_compression_encodings c)
    (max_decoding_message_size c) (max_encoding_message_size c).
(** [poll_ready]: a server is always ready. *)
Definition server_ready {T} (_ : GrpcServer T) : bool := true.

(** A client method: it waits for the channel to be ready, then makes its call
    with the client's [Grpc]; [ready] is the outcome of [inner.ready()], an error
    by its display. *)
Definition client_method {T} (ready : Result string unit) (c : GrpcClient T) (call : GrpcCall)
  : Result Status (ClientGrpc T * GrpcCall) :=
  _ ← map_err (λ e, MkStatus code_unknown ("Service was not ready: " +:+ e)) ready;
  Ok (cl_inner c, call).

(** *** Dispatch *)

(** tonic's server for one call. *)
Definition configured {T} (c : GrpcServer T) : ServerGrpc :=
  apply_max_message_size_config (max_decoding_message_size c) (max_encoding_message_size c)
    (apply_compression_config (accept_compression_encodings c) (send_compression_encodings c)
       server_grpc_new).

(** The outcome of a server's [call]: the handler [m] of [inner] run by tonic's
    [grpc], or the response made on the spot, by its headers. *)
Inductive Dispatch (M T : Type) :=
  | Handle (m : M) (inner : T) (kind : CallKind) (grpc : ServerGrpc)
  | Respond (headers : list (string * string)).
Arguments Handle {M T} m inner kind grpc.
Arguments Respond {M T} headers.

Definition unimplemented_response : list (string * string) :=
  [("grpc-status", "12"); ("content-type", "application/grpc")].

(** The arms of [call], one for each method's [..Svc]. *)
Definition get_node_info_svc {T} (c : GrpcServer T) : Dispatch NodeMethod T :=
  Handle GetNodeInfo (gs_inner c) Unary (configured c).
Definition ping_svc {T} (c : GrpcServer T) : Dispatch NodeMethod T :=
  Handle Ping (gs_inner c) Unary (configured c).
Definition list_peers_svc {T} (c : GrpcServer T) : Dispatch NodeMethod T :=
  Handle ListPeers (gs_inner c) Unary (configured c).
Definition shutdown_svc {T} (c : GrpcServer T) : Dispatch NodeMethod T :=
  Handle Shutdown (gs_inner c) Unary (configured c).
Definition node_service_call {T} (c : GrpcServer T) (path : string) : Dispatch NodeMethod T :=
  if decide (path = "/p2p_chat.v1.NodeService/GetNodeInfo") then get_node_info_svc c
  else if decide (path = "/p2p_chat.v1.NodeService/Ping") then ping_svc c
  else if decide (path = "/p2p_chat.v1.NodeService/ListPeers") then list_peers_svc c
  else if decide (path = "/p2p_chat.v1.NodeService/Shutdown") then shutdown_svc c
  else Respond unimplemented_response.

Definition send_message_svc {T} (c : GrpcServer T) : Dispatch ChatMethod T :=
  Handle SendMessage (gs_inner c) Unary (configured c).
Definition subscribe_messages_svc {T} (c : GrpcServer T) : Dispatch ChatMethod T :=
  Handle SubscribeMessages (gs_inner c) ServerStreaming (configured c).
Definition get_history_svc {T} (c : GrpcServer T) : Dispatch ChatMethod T :=
  Handle GetHistory (gs_inner c) Unary (configured c).
Definition chat_stream_svc {T} (c : GrpcServer T) : Dispatch ChatMethod T :=
  Handle ChatStream (gs_inner c) BidiStreaming (configured c).
Definition chat_service_call {T} (c : GrpcServer T) (path : string) : Dispatch ChatMethod T :=
  if decide (path = "/p2p_chat.v1.P2PChatService/SendMessage") then send_message_svc c
  else if decide (path = "/p2p_chat.v1.P2PChatService/SubscribeMessages") then subscribe_messages_svc c
  else if decide (path = "/p2p_chat.v1.P2PChatService/GetHistory") then get_history_svc c
  else if decide (path = "/p2p_chat.v1.P2PChatService/ChatStream") then chat_stream_svc c
  else Respond unimplemented_response.

Definition echo_svc {T} (c : GrpcServer T) : Dispatch EchoMethod T :=
  Handle Echo (gs_inner c) Unary (configured c).
Definition echo_service_call {T} (c : GrpcServer T) (path : string) : Dispatch EchoMethod T :=
  if decide (path = "/echo.v1.EchoService/Echo") then echo_svc c
  else Respond unimplemented_response.

(** *** The chat and echo services

    Their builders are generated like those above. *)

Definition chat_client_new {T} : T → GrpcClient T := client_new.
Definition chat_client_with_origin {T} : T → string → GrpcClient T := client_with_origin.
Definition chat_client_with_interceptor {T F} : T → F → GrpcClient (InterceptedService T F) :=
  client_with_interceptor.
Definition chat_client_set {T} : Setting → GrpcClient T → GrpcClient T := client_set.
Definition chat_server_new {T} : T → GrpcServer T := grpc_server_new.
Definition chat_server_with_interceptor {T F} : T → F → InterceptedService (GrpcServer T) F :=
  server_with_interceptor.
Definition chat_server_set {T} : Setting → GrpcServer T → GrpcServer T := server_set.
Definition chat_server_clone {T} : GrpcServer T → GrpcServer T := server_clone.

Definition echo_client_new {T} : T → GrpcClient T := client_new.
Definition echo_client_with_origin {T} : T → string → GrpcClient T := client_with_origin.
Definition echo_client_with_interceptor {T F} : T → F → GrpcClient (InterceptedService T F) :=
  client_with_interceptor.
Definition echo_client_set {T} : Setting → GrpcClient T → GrpcClient T := client_set.
Definition echo_server_new {T} : T → GrpcServer T := grpc_server_new.
Definition echo_server_with_interceptor {T F} : T → F → InterceptedService (GrpcServer T) F :=
  server_with_interceptor.
Definition echo_server_set {T} : Setting → GrpcServer T → GrpcServer T := server_set.
Definition echo_server_clone {T} : GrpcServer T → GrpcServer T := server_clone.

(** ** Facts *)

(** *** Settings *)

Definition accepts (s : Setting) : option CompressionEncoding :=
  match s with AcceptCompressed e => Some e | _ => None end.
Definition sends (s : Setting) : option CompressionEncoding :=
  match s with SendCompressed e => Some e | _ => None end.
Definition decodes (s : Setting) : option Z :=
  match s with MaxDecodingMessageSize n => Some n | _ => None end.
Definition encodes (s : Setting) : option Z :=
  match s with MaxEncodingMessageSize n => Some n | _ => None end.
Definition enable_all (es : list CompressionEncoding) : EnabledCompressionEncodings :=
  foldl (λ set e, enable e set) no_encodings es.

(** However a server is configured, and cloned, its calls run with just the
    encodings that were enabled on their side and the last limit set for each
    direction. *)
Lemma settings_configure {T} (inner : T) ss :
  let c := server_clone (foldl (λ c s, server_set s c) (grpc_server_new inner) ss) in
  gs_inner c = inner ∧
  configured c = apply_max_message_size_config (last (omap decodes ss)) (last (omap encodes ss))
    (apply_compression_config (enable_all (omap accepts ss)) (enable_all (omap sends ss))
       server_grpc_new).
Proof.
  set (c := foldl _ _ ss). assert (gs_inner c = inner ∧
    accept_compression_encodings c = enable_all (omap accepts ss) ∧
    send_compression_encodings c = enable_all (omap sends ss) ∧
    max_decoding_message_size c = last (omap decodes ss) ∧
    max_encoding_message_size c = last (omap encodes ss)) as (Hi & Ha & Hs & Hd & He).
  { subst c. induction ss as [|s ss IH] using rev_ind; [done|].
    rewrite foldl_snoc, !omap_app. destruct IH as (Hi & Ha & Hs & Hd & He).
    destruct s; csimpl; rewrite ?app_nil_r, ?last_snoc, <-?Ha, <-?Hs, <-?Hd, <-?He, ?Hi;
      unfold enable_all; rewrite ?foldl_snoc; split_and!; try done; by rewrite ?Ha, ?Hs. }
  split; [done|]. unfold configured. simpl. by rewrite Ha, Hs, Hd, He.
Qed.

(** *** Clients and servers *)

(** What it takes for a generated client and a generated server to agree. *)
Definition agrees {M} (service : string) (client : M → GrpcCall)
  (server : ∀ T, GrpcServer T → string → Dispatch M T) : Prop :=
  ∀ T (c : GrpcServer T),
    (∀ m, server T c (gc_path (client m)) =
            Handle m (gs_inner c) (gc_kind (client m)) (configured c) ∧
          gc_service (client m) = service ∧
          gc_path (client m) = "/" +:+ service +:+ "/" +:+ gc_method (client m)) ∧
    (∀ path, (∀ m, path ≠ gc_path (client m)) →
       server T c path = Respond unimplemented_response).

(** For each of the three services, a client method calls the path at which
    the server runs the handler of that method, driven the same way and with
    the server's configuration; the path is [/service/method]; and at every
    other path the server answers Unimplemented. *)
Lemma generated_agree :
  agrees NODE_SERVICE_NAME node_client_call (@node_service_call) ∧
  agrees CHAT_SERVICE_NAME chat_client_call (@chat_service_call) ∧
  agrees ECHO_SERVICE_NAME echo_client_call (@echo_service_call).
Proof.
  split_and!; intros T c; (split; [by intros []|]); intros path Hne.
  - unfold node_service_call.
    rewrite !decide_False; [done|apply (Hne Shutdown)|apply (Hne ListPeers)|apply (Hne Ping)|
      apply (Hne GetNodeInfo)].
  - unfold chat_service_call.
    rewrite !decide_False; [done|apply (Hne ChatStream)|apply (Hne GetHistory)|
      apply (Hne SubscribeMessages)|apply (Hne SendMessage)].
  - unfold echo_service_call. by rewrite decide_False by apply (Hne Echo).
Qed.

End Builders.
Arguments GrpcServer {_} T.
Arguments gs_inner {_ T}.
Arguments GrpcClient {_} T.
Arguments Dispatch {_} M T.
Arguments Handle {_ M T} m inner kind grpc.
Arguments Respond {_ M T} headers.

(** The ALPN under which the transport serves the chat service; the example's
    log announces [/p2p_chat.P2pChatService/1.0]. *)
Example chat_service_alpn :
  service_to_alpn CHAT_SERVICE_NAME = string_bytes "/p2p_chat.v1.P2PChatService/1.0" ∧
  service_to_alpn CHAT_SERVICE_NAME ≠ string_bytes "/p2p_chat.P2pChatService/1.0".
Proof. by vm_compute. Qed.

(** ** Concrete inputs *)

Module ChatGrpcDemo.

(** tonic as the log of what it was asked. *)
Inductive GrpcOp (Enc : Type) := OpCompression (accept send : list Enc) | OpSizes (dec enc : option Z).
Arguments OpCompression {Enc} accept send.
Arguments OpSizes {Enc} dec enc.
#[export] Instance log_tonic : Tonic := {|
  CompressionEncoding := string; EnabledCompressionEncodings := list string;
  no_encodings := []; enable e s := e :: s;
  ServerGrpc := list (GrpcOp string); server_grpc_new := [];
  apply_compression_config a s g := OpCompression a s :: g;
  apply_max_message_size_config d e g := OpSizes d e :: g;
  ClientGrpc T := T; client_grpc_new _ c := c; client_grpc_with_origin _ c _ := c;
  grpc_send_compressed _ _ c := c; grpc_accept_compressed _ _ c := c;
  grpc_max_decoding_message_size _ _ c := c; grpc_max_encoding_message_size _ _ c := c;
  InterceptedService T F := (T * F)%type; intercepted_new _ _ c i := (c, i) |}.

Example grpc_server_demo :
  node_service_call (foldl (λ c s, server_set s c) (grpc_server_new 7)
    [AcceptCompressed "gzip"; MaxDecodingMessageSize 10; MaxDecodingMessageSize 20])
    "/p2p_chat.v1.NodeService/Ping" =
  Handle Ping 7 Unary [OpSizes (Some 20%Z) None; OpCompression ["gzip"] []].
Proof. reflexivity. Qed.
End ChatGrpcDemo.
