(* ===== verification/ChatServer.v ===== *)
(** * The chat example's server

    Models [ChatState], [ChatServiceImpl] and [NodeServiceImpl] of
    [src/examples/chat/src/main.rs].  Handlers and the tasks they spawn
    interleave at every point where they await: the guard of the subscribers'
    [RwLock], a [send] on a full channel, a [recv] on an empty one.  Guards that
    are never held across an await ([messages], the writes of [subscribers]) are
    taken and dropped within a step; the read guard that [add_message] holds
    while it sends is a set of tasks, and a writer waits until it is empty.  The
    order in which tokio grants the lock is left open. *)
From S2P Require Import Prelude Tokio ChatPb.
Local Open Scope string_scope.

(** ** Identifiers and clocks *)

(** [{:x}] of one digit. *)
Definition hex_digit (d : Z) : Ascii.ascii :=
  Ascii.ascii_of_nat (Z.to_nat (if d <? 10 then 48 + d else 87 + d)%Z).
(** The low [n] hexadecimal digits of [z], most significant first;
    [format!("{:032x}", z)] of a [u128] is [hex_width 32]. *)
Fixpoint hex_width (n : nat) (z : Z) : string :=
  match n with
  | O => EmptyString
  | S n => hex_width n (z `div` 16) +:+ String (hex_digit (z `mod` 16)) EmptyString
  end.

(** [rand::random]: a [u64] hash of the time and the thread, widened. *)
Definition random (hash : Z) : Z := u64_wrap hash.
(** [uuid::new_v4] *)
Definition new_v4 (hash : Z) : string := hex_width 32 (random hash).

(** ** State *)

Section ChatServer.
Context `{!Mpsc}.

(** [ChatState].  A sender in [subscribers] is named by its subscription, a
    read guard of [subscribers] by the task that holds it; [shutdown_tx]
    counts the signals sent. *)
Record ChatState := MkChatState {
  messages : list ChatMessage;
  subscribers : gmap string nat;
  read_guards : gset nat;
  node_id : string;
  request_count : Z;
  max_requests : option Z;
  shutdown_tx : nat;
}.

(** [ChatState::new] *)
Definition chat_state_new (id : string) (max : option Z) : ChatState :=
  MkChatState [] ∅ ∅ id 0 max 0.

(** The task that forwards a subscriber's messages to its response stream. *)
Inductive FwdPc :=
  | FwdRecv                                        (** [message_rx.recv()] *)
  | FwdSend (response : SubscribeMessagesResponse) (** [result_tx.send(..)] *)
  | FwdRemove                                      (** [remove_subscriber] *)
  | FwdDone.

Record Subscription := MkSubscription {
  sub_id : string;
  sub_rx : chan ChatMessage;                 (** [tx] and [rx] *)
  sub_out : chan SubscribeMessagesResponse;  (** [result_tx] and [result_rx] *)
  sub_fwd : FwdPc;
  sub_received : list SubscribeMessagesResponse;  (** taken by the client *)
}.

(** [add_message], the subscribers left to send to. *)
Inductive AddMessage :=
  | AmPush
  | AmRead
  | AmSend (todo : list (string * nat)).

Inductive SendPc :=
  | SendAdd (am : AddMessage)
  | SendCount
  | SendDone (response : SendMessageResponse)
  | SendCancelled (was : option AddMessage).   (** where [add_message] was dropped *)

Inductive SubscribePc := SubInsert | SubDone | SubCancelled.

(** The spawned loop of [chat_stream]. *)
Inductive StreamPc :=
  | StNext                                   (** [stream.message()] *)
  | StAdd (m : ChatMessage) (am : AddMessage)
  | StReply (m : ChatMessage)
  | StSend (r : Result Status ChatStreamResponse) (last : bool)
  | StDone.

Record Stream := MkStream {
  str_in : list ChatMessage;      (** the messages taken from the request *)
  str_out : chan (Result Status ChatStreamResponse);
  str_pc : StreamPc;
  str_received : list (Result Status ChatStreamResponse);
}.

(** The running handlers.  [TSend] keeps the message it made of its request. *)
Inductive Task :=
  | TSend (m : ChatMessage) (pc : SendPc)
  | TSubscribe (pc : SubscribePc)
  | TStream (s : Stream).

(** The server: its state, the handlers and streams by number, and the
    subscription each [subscribe_messages] made. *)
Record ChatWorld := MkChatWorld {
  cw_state : ChatState;
  cw_tasks : gmap nat Task;
  cw_subs : gmap nat Subscription;
}.

Definition chat_world_new (id : string) (max : option Z) : ChatWorld :=
  MkChatWorld (chat_state_new id max) ∅ ∅.

(** *** Updates *)

Definition set_messages (f : list ChatMessage → list ChatMessage) (st : ChatState) : ChatState :=
  MkChatState (f (messages st)) (subscribers st) (read_guards st) (node_id st)
    (request_count st) (max_requests st) (shutdown_tx st).
Definition set_subscribers (f : gmap string nat → gmap string nat) (st : ChatState) : ChatState :=
  MkChatState (messages st) (f (subscribers st)) (read_guards st) (node_id st)
    (request_count st) (max_requests st) (shutdown_tx st).
Definition set_guards (f : gset nat → gset nat) (st : ChatState) : ChatState :=
  MkChatState (messages st) (subscribers st) (f (read_guards st)) (node_id st)
    (request_count st) (max_requests st) (shutdown_tx st).
Definition send_shutdown (st : ChatState) : ChatState :=
  MkChatState (messages st) (subscribers st) (read_guards st) (node_id st)
    (request_count st) (max_requests st) (S (shutdown_tx st)).

Definition set_task (t : nat) (k : Task) (w : ChatWorld) : ChatWorld :=
  MkChatWorld (cw_state w) (<[t := k]> (cw_tasks w)) (cw_subs w).
Definition set_state (f : ChatState → ChatState) (w : ChatWorld) : ChatWorld :=
  MkChatWorld (f (cw_state w)) (cw_tasks w) (cw_subs w).
Definition set_sub (i : nat) (s : Subscription) (w : ChatWorld) : ChatWorld :=
  MkChatWorld (cw_state w) (cw_tasks w) (<[i := s]> (cw_subs w)).

Definition with_rx (rx : chan ChatMessage) (s : Subscription) : Subscription :=
  MkSubscription (sub_id s) rx (sub_out s) (sub_fwd s) (sub_received s).
Definition with_fwd (pc : FwdPc) (s : Subscription) : Subscription :=
  MkSubscription (sub_id s) (sub_rx s) (sub_out s) pc (sub_received s).
Definition with_out (out : chan SubscribeMessagesResponse) (s : Subscription) : Subscription :=
  MkSubscription (sub_id s) (sub_rx s) out (sub_fwd s) (sub_received s).

(** ** [ChatState]'s operations *)

(** One step of [add_message] by task [t]: whether it is over, or where it goes
    on.  [order] is the order in which the map is iterated; [None] is a wait.
    Appending to [messages] needs no other step, taking the read guard of
    [subscribers] neither, since writers never keep theirs. *)
Definition add_message_step (t : nat) (m : ChatMessage) (order : list (string * nat))
    (am : AddMessage) (w : ChatWorld) : option (option AddMessage * ChatWorld) :=
  match am with
  | AmPush => Some (Some AmRead, set_state (set_messages (λ ms, (ms ++ [m])%list)) w)
  | AmRead =>
      if decide (order ≡ₚ map_to_list (subscribers (cw_state w)))
      then Some (Some (AmSend order), set_state (set_guards (λ g, {[t]} ∪ g)) w)
      else None
  | AmSend [] => Some (None, set_state (set_guards (λ g, g ∖ {[t]})) w)
  | AmSend ((_, i) :: todo) =>
      s ← cw_subs w !! i;
      let '(o, rx) := try_send m (sub_rx s) in
      match o with
      | SendOk => Some (Some (AmSend todo), set_sub i (with_rx rx s) w)
      | SendFull => None
      | SendClosed => Some (Some (AmSend todo), w)
      end
  end.

(** [add_subscriber] and [remove_subscriber] wait for the write guard. *)
Definition add_subscriber (id : string) (i : nat) (w : ChatWorld) : option ChatWorld :=
  if decide (read_guards (cw_state w) = ∅)
  then Some (set_state (set_subscribers (insert id i)) w) else None.
Definition remove_subscriber (id : string) (w : ChatWorld) : option ChatWorld :=
  if decide (read_guards (cw_state w) = ∅)
  then Some (set_state (set_subscribers (delete id)) w) else None.

(** ** [ChatServiceImpl] *)

(** [send_message]: the message made of the request. *)
Definition message_of_request (st : ChatState) (id : string) (req : SendMessageRequest)
  : ChatMessage :=
  MkChatMessage id (node_id st) (sm_recipient_id req) (sm_content req) (sm_timestamp req)
    (message_type_i32 MessageText).

(** The request counter, and the shutdown it may trigger. *)
Definition count_request (st : ChatState) : ChatState :=
  let '(old, new) := atomic_fetch_add (request_count st) in
  let count := u64_wrap (old + 1) in
  let st := MkChatState (messages st) (subscribers st) (read_guards st) (node_id st) new
              (max_requests st) (shutdown_tx st) in
  match max_requests st with
  | Some max => if (max <=? count)%Z then send_shutdown st else st
  | None => st
  end.

Definition send_step (t : nat) (m : ChatMessage) (order : list (string * nat)) (pc : SendPc)
    (w : ChatWorld) : option ChatWorld :=
  match pc with
  | SendAdd am =>
      '(next, w) ← add_message_step t m order am w;
      Some (set_task t (TSend m (match next with Some am => SendAdd am | None => SendCount end)) w)
  | SendCount =>
      Some (set_task t (TSend m (SendDone (MkSendMessageResponse true "" (msg_id m))))
              (set_state count_request w))
  | SendDone _ | SendCancelled _ => None
  end.

(** [subscribe_messages] after its channels and its task are made. *)
Definition subscribe_step (t : nat) (pc : SubscribePc) (w : ChatWorld) : option ChatWorld :=
  match pc with
  | SubInsert =>
      s ← cw_subs w !! t;
      w ← add_subscriber (sub_id s) t w;
      Some (set_task t (TSubscribe SubDone) w)
  | SubDone | SubCancelled => None
  end.

(** A subscription's sender is held by its handler, then by the map. *)
Definition tx_alive (i : nat) (w : ChatWorld) : bool :=
  bool_decide (map_Exists (λ _ j, j = i) (subscribers (cw_state w))) ||
  match cw_tasks w !! i with Some (TSubscribe SubInsert) => true | _ => false end.

Definition forward_step (i : nat) (w : ChatWorld) : option ChatWorld :=
  s ← cw_subs w !! i;
  match sub_fwd s with
  | FwdRecv =>
      match recv (sub_rx s) with
      | Some (m, rx) =>
          Some (set_sub i (with_fwd (FwdSend (MkSubscribeMessagesResponse (Some m)))
                             (with_rx rx s)) w)
      | None => if tx_alive i w then None else Some (set_sub i (with_fwd FwdRemove s) w)
      end
  | FwdSend r =>
      let '(o, out) := try_send r (sub_out s) in
      match o with
      | SendOk => Some (set_sub i (with_fwd FwdRecv (with_out out s)) w)
      | SendFull => None
      | SendClosed => Some (set_sub i (with_fwd FwdRemove s) w)
      end
  | FwdRemove =>
      w ← remove_subscriber (sub_id s) w;
      Some (set_sub i (with_fwd FwdDone (with_rx (close_rx (sub_rx s)) s)) w)
  | FwdDone => None
  end.

(** [get_history] *)
Definition history_matches (req : GetHistoryRequest) (msg : ChatMessage) : bool :=
  (bool_decide (sender_id msg = peer_id req) || bool_decide (recipient_id msg = peer_id req)) &&
  ((before_timestamp req =? 0)%Z || (timestamp msg <? before_timestamp req)%Z).

(** [limit as usize], of an [i32] *)
Definition limit_usize (limit : Z) : Z := u64_wrap limit.

Definition get_history (st : ChatState) (req : GetHistoryRequest) : GetHistoryResponse :=
  let matching := filter (λ msg, history_matches req msg = true) (messages st) in
  (* [take] of at least as many as there are changes nothing *)
  let filtered := take (Z.to_nat (Z.min (limit_usize (limit req)) (Z.of_nat (length matching))))
                    matching in
  MkGetHistoryResponse filtered (Z.of_nat (length filtered) =? limit_usize (limit req))%Z.

(** [chat_stream]: the reply to a message. *)
Definition stream_reply (st : ChatState) (id : string) (now : Z) (m : ChatMessage) : ChatMessage :=
  MkChatMessage id (node_id st) (sender_id m) ("Echo: " +:+ content m) now
    (message_type_i32 MessageText).

Definition with_pc (pc : StreamPc) (s : Stream) : Stream :=
  MkStream (str_in s) (str_out s) pc (str_received s).
Definition with_str_out (out : chan (Result Status ChatStreamResponse)) (s : Stream) : Stream :=
  MkStream (str_in s) out (str_pc s) (str_received s).

(** What [stream.message()] yields next: a message, an error, or the end. *)
Definition stream_input (inp : option (Result Status ChatStreamRequest)) (s : Stream) : Stream :=
  match inp with
  | Some (Ok request) =>
      match csr_message request with
      | None => s
      | Some m => MkStream (str_in s ++ [m]) (str_out s) (StAdd m AmPush) (str_received s)
      end
  | Some (Err e) => with_pc (StSend (Err e) true) s
  | None => with_pc StDone s
  end.

(** The other steps of the loop; [hash] and [now] are used by the reply. *)
Definition stream_step (t : nat) (order : list (string * nat)) (hash now : Z) (s : Stream)
    (w : ChatWorld) : option ChatWorld :=
  match str_pc s with
  | StNext | StDone => None
  | StAdd m am =>
      '(next, w) ← add_message_step t m order am w;
      Some (set_task t (TStream (with_pc
              match next with Some am => StAdd m am | None => StReply m end s)) w)
  | StReply m =>
      Some (set_task t (TStream (with_pc (StSend (Ok (MkChatStreamResponse (Some
              (stream_reply (cw_state w) (new_v4 hash) now m)))) false) s)) w)
  | StSend r last =>
      let '(o, out) := try_send r (str_out s) in
      match o with
      | SendOk => Some (set_task t (TStream (with_pc (if last then StDone else StNext)
                                               (with_str_out out s))) w)
      | SendFull => None
      | SendClosed => Some (set_task t (TStream (with_pc StDone s)) w)
      end
  end.

(** ** [NodeServiceImpl] *)

(** Instants in nanoseconds. *)
Record NodeServiceImpl := MkNodeServiceImpl { ns_state : ChatState; ns_start_time : Z }.
Definition node_service_new (st : ChatState) (now : Z) : NodeServiceImpl := MkNodeServiceImpl st now.
(** [elapsed] saturates at zero. *)
Definition uptime_seconds (s : NodeServiceImpl) (now : Z) : Z :=
  (Z.max 0 (now - ns_start_time s) / 1000000000)%Z.
Definition get_node_info (s : NodeServiceImpl) (version : string) (now : Z) : GetNodeInfoResponse :=
  MkGetNodeInfoResponse (node_id (ns_state s)) [] version (i64_wrap (uptime_seconds s now)) 0.
Definition ping (now : Z) (req : PingRequest) : PingResponse :=
  MkPingResponse (ping_timestamp req) now (ping_data req).
Definition list_peers : list PeerInfo := [].

(** ** Runs *)

Inductive ChatLabel :=
  | ChatSend (t : nat) (req : SendMessageRequest) (hash : Z)
  | ChatSubscribe (t : nat) (hash : Z)
  | ChatOpenStream (t : nat)
  (** the next step of handler [t] *)
  | ChatStep (t : nat) (order : list (string * nat)) (hash now : Z)
  (** the client of stream [t] sends, fails or ends its side *)
  | ChatInput (t : nat) (inp : option (Result Status ChatStreamRequest))
  | ChatForward (i : nat)
  (** the client of subscription [i] takes a response, or goes away *)
  | ChatTake (i : nat)
  | ChatLeave (i : nat)
  | ChatTakeReply (t : nat)
  | ChatLeaveStream (t : nat)
  (** the client gives up an unary call: tonic drops its handler *)
  | ChatCancel (t : nat)
  (** the [shutdown] RPC *)
  | NodeShutdown.

(** Where a cancelled handler held the read guard, dropping it releases it. *)
Definition cancel_task (t : nat) (k : Task) (w : ChatWorld) : option ChatWorld :=
  match k with
  | TSend m (SendAdd am) =>
      Some (set_task t (TSend m (SendCancelled (Some am)))
              (set_state (set_guards (λ g, g ∖ {[t]})) w))
  | TSend m SendCount => Some (set_task t (TSend m (SendCancelled None)) w)
  | TSubscribe SubInsert =>
      (* [tx] and [result_rx] are dropped with the handler *)
      s ← cw_subs w !! t;
      Some (set_task t (TSubscribe SubCancelled)
              (set_sub t (with_out (close_rx (sub_out s)) s) w))
  | _ => None
  end.

Definition fresh_task (t : nat) (w : ChatWorld) : bool :=
  bool_decide (cw_tasks w !! t = None).

(** The subscription whose response stream client [i] holds. *)
Definition subscribed (i : nat) (w : ChatWorld) : option Subscription :=
  match cw_tasks w !! i with
  | Some (TSubscribe SubDone) => cw_subs w !! i
  | _ => None
  end.

Definition chat_step (w : ChatWorld) (l : ChatLabel) : option ChatWorld :=
  match l with
  | ChatSend t req hash =>
      if fresh_task t w
      then Some (set_task t (TSend (message_of_request (cw_state w) (new_v4 hash) req)
                               (SendAdd AmPush)) w)
      else None
  | ChatSubscribe t hash =>
      if fresh_task t w then
        rx ← mpsc_channel 100; out ← mpsc_channel 100;
        Some (set_task t (TSubscribe SubInsert)
                (set_sub t (MkSubscription (new_v4 hash) rx out FwdRecv []) w))
      else None
  | ChatOpenStream t =>
      if fresh_task t w then
        out ← mpsc_channel 100; Some (set_task t (TStream (MkStream [] out StNext [])) w)
      else None
  | ChatStep t order hash now =>
      k ← cw_tasks w !! t;
      match k with
      | TSend m pc => send_step t m order pc w
      | TSubscribe pc => subscribe_step t pc w
      | TStream s => stream_step t order hash now s w
      end
  | ChatInput t inp =>
      match cw_tasks w !! t with
      | Some (TStream s) =>
          match str_pc s with
          | StNext => Some (set_task t (TStream (stream_input inp s)) w)
          | _ => None
          end
      | _ => None
      end
  | ChatForward i => forward_step i w
  | ChatTake i =>
      s ← subscribed i w;
      if rx_closed (sub_out s) then None else
      '(r, out) ← recv (sub_out s);
      Some (set_sub i (MkSubscription (sub_id s) (sub_rx s) out (sub_fwd s)
                         (sub_received s ++ [r])) w)
  | ChatLeave i =>
      s ← subscribed i w; Some (set_sub i (with_out (close_rx (sub_out s)) s) w)
  | ChatTakeReply t =>
      match cw_tasks w !! t with
      | Some (TStream s) =>
          if rx_closed (str_out s) then None else
          '(r, out) ← recv (str_out s);
          Some (set_task t (TStream (MkStream (str_in s) out (str_pc s) (str_received s ++ [r]))) w)
      | _ => None
      end
  | ChatLeaveStream t =>
      match cw_tasks w !! t with
      | Some (TStream s) =>
          Some (set_task t (TStream (with_str_out (close_rx (str_out s)) s)) w)
      | _ => None
      end
  | ChatCancel t => k ← cw_tasks w !! t; cancel_task t k w
  | NodeShutdown => Some (set_state send_shutdown w)
  end.

Fixpoint chat_run (w : ChatWorld) (ls : list ChatLabel) : option ChatWorld :=
  match ls with
  | [] => Some w
  | l :: ls => w ← chat_step w l; chat_run w ls
  end.
End ChatServer.

(** ** Identifiers *)

Definition hex_digit_value (c : Ascii.ascii) : Z :=
  let n := Z.of_nat (Ascii.nat_of_ascii c) in (if n <? 58 then n - 48 else n - 87)%Z.
Fixpoint hex_value (acc : Z) (s : string) : Z :=
  match s with
  | EmptyString => acc
  | String c s => hex_value (16 * acc + hex_digit_value c)%Z s
  end.

Lemma hex_digit_value_digit d : (0 ≤ d < 16)%Z → hex_digit_value (hex_digit d) = d.
Proof.
  intros Hd. assert (d ∈ seqZ 0 16) as Hin by (apply elem_of_seqZ; lia).
  clear Hd. revert d Hin. apply Forall_forall. by repeat constructor.
Qed.

Lemma hex_value_app acc s s' : hex_value acc (s +:+ s') = hex_value (hex_value acc s) s'.
Proof.
  revert acc. induction s as [|c s IH]; intros acc; [done|].
  simpl. apply IH.
Qed.

Lemma hex_value_width n z :
  (0 ≤ z)%Z → hex_value 0 (hex_width n z) = (z `mod` 16 ^ Z.of_nat n)%Z.
Proof.
  revert z. induction n as [|n IH]; intros z Hz; [by rewrite Z.mod_1_r|].
  simpl hex_width. rewrite hex_value_app, IH by (apply Z.div_pos; lia). simpl hex_value.
  rewrite hex_digit_value_digit by (apply Z.mod_pos_bound; lia).
  rewrite Nat2Z.inj_succ, Z.pow_succ_r, Z.rem_mul_r by lia. lia.
Qed.

Lemma hex_width_length n z : String.length (hex_width n z) = n.
Proof.
  revert z. induction n as [|n IH]; intros z; [done|]. simpl.
  assert (Happ : ∀ s s', String.length (s +:+ s') = String.length s + String.length s').
  { intros s s'. induction s as [|c s IHs]; [done|]. simpl. by rewrite <-IHs. }
  rewrite Happ, IH. simpl. lia.
Qed.

(** An identifier is 32 digits that spell the hash. *)
Lemma new_v4_spec hash :
  String.length (new_v4 hash) = 32 ∧ hex_value 0 (new_v4 hash) = random hash.
Proof.
  split; [apply hex_width_length|]. unfold new_v4, random.
  destruct (u64_wrap_range hash) as [H0 Hm]. rewrite hex_value_width by done.
  apply Z.mod_small. split; [done|]. unfold u64_max in Hm.
  change (16 ^ Z.of_nat 32)%Z with 340282366920938463463374607431768211456%Z. lia.
Qed.

Lemma new_v4_inj h h' : new_v4 h = new_v4 h' → random h = random h'.
Proof.
  intros E. apply (f_equal (hex_value 0)) in E. by rewrite !(proj2 (new_v4_spec _)) in E.
Qed.

(** ** [get_history] *)

Section History.
Context `{!Mpsc}.

Definition is_i32 (z : Z) : Prop := (-2147483648 ≤ z ≤ 2147483647)%Z.

Lemma limit_usize_spec l :
  is_i32 l → limit_usize l = if decide (0 ≤ l)%Z then l else (u64_max + 1 + l)%Z.
Proof.
  unfold is_i32, limit_usize, u64_wrap, u64_max. intros Hl. destruct (decide _).
  - rewrite Z.mod_small; lia.
  - rewrite <-(Z.mod_add _ 1), Z.mod_small; lia.
Qed.

(** [get_history] returns the oldest messages that match, in the order of
    the history: at most [limit] of them, or all of them for a negative [limit];
    and [has_more] tells whether [limit] is not negative and was reached, even
    if nothing more matches. *)
Lemma get_history_page (st : ChatState) req :
  is_i32 (limit req) → (Z.of_nat (length (messages st)) ≤ i64_max)%Z →
  let matching := filter (λ msg, history_matches req msg = true) (messages st) in
  let response := get_history st req in
  history_messages response =
    (if decide (0 ≤ limit req)%Z then take (Z.to_nat (limit req)) matching else matching) ∧
  has_more response = bool_decide (0 ≤ limit req ≤ Z.of_nat (length matching))%Z.
Proof.
  intros Hl Hmem matching. unfold get_history. fold matching.
  assert (Hlen : (Z.of_nat (length matching) ≤ i64_max)%Z).
  { pose proof (length_filter (λ msg, history_matches req msg = true) (messages st)).
    unfold matching. lia. }
  rewrite (limit_usize_spec _ Hl). unfold is_i32, i64_max, u64_max in *. simpl.
  destruct (decide (0 ≤ limit req)%Z) as [Hpos|Hneg].
  - assert (E : take (Z.to_nat (Z.min (limit req) (Z.of_nat (length matching)))) matching =
      take (Z.to_nat (limit req)) matching).
    { destruct (Z.min_spec (limit req) (Z.of_nat (length matching))) as [[_ ->]|[Hle ->]]; [done|].
      rewrite Nat2Z.id, !take_ge by lia. done. }
    rewrite E, length_take. split; [done|].
    case_bool_decide; [apply Z.eqb_eq|apply Z.eqb_neq]; lia.
  - rewrite take_ge by lia. split; [done|].
    rewrite bool_decide_eq_false_2 by lia. apply Z.eqb_neq. lia.
Qed.
End History.

(** ** Concrete inputs *)

Module ChatDemo.
Import ListChannel.

Definition demo_node : string := "node".
Definition demo_world : ChatWorld := chat_world_new demo_node (Some 2%Z).
(** Client 0 subscribes; its id is spelled from the hash 7. *)
Definition demo_subscribe : list ChatLabel := [ChatSubscribe 0 7; ChatStep 0 [] 0 0].
Definition demo_order : list (string * nat) := [(new_v4 7, 0)].
Definition demo_request : SendMessageRequest := MkSendMessageRequest "bob" "hi" 5.
Definition demo_step (t : nat) : ChatLabel := ChatStep t demo_order 9 60.
(** Client [t] sends a message, which is pushed, sent to client 0, counted. *)
Definition demo_send (t : nat) : list ChatLabel :=
  ChatSend t demo_request 8 :: replicate 5 (demo_step t).
(** Client 0 is forwarded a message and takes it. *)
Definition demo_take : list ChatLabel := [ChatForward 0; ChatForward 0; ChatTake 0].
(** A message through the chat stream [t], its reply taken by the client. *)
Definition demo_chat : ChatMessage := MkChatMessage "" "alice" "" "yo" 6 1.
Definition demo_stream_message (t : nat) : list ChatLabel :=
  [ChatInput t (Some (Ok (MkChatStreamRequest (Some demo_chat))))] ++
  replicate 6 (demo_step t) ++ [ChatTakeReply t].

Definition demo_labels : list ChatLabel :=
  demo_subscribe ++ demo_send 1 ++ [ChatOpenStream 2] ++ demo_stream_message 2 ++ demo_take.
Definition demo_end : ChatWorld := default demo_world (chat_run demo_world demo_labels).

Example demo_messages :
  (sender_id <$> messages (cw_state demo_end), recipient_id <$> messages (cw_state demo_end)) =
  (["node"; "alice"], ["bob"; ""]).
Proof. vm_compute. reflexivity. Qed.

(** The first request is below [max_requests]; a [limit] of 1 finds no more and
    claims there is more. *)
Example demo_history :
  (shutdown_tx (cw_state demo_end),
   has_more (get_history (cw_state demo_end) (MkGetHistoryRequest "bob" 1 0)),
   has_more (get_history (cw_state demo_end) (MkGetHistoryRequest "bob" (-1) 0))) = (0, true, false).
Proof. vm_compute. reflexivity. Qed.

End ChatDemo.
