(* ===== verification/ChatMoves.v ===== *)
(** * The chat server's invariant

    The invariant of [ChatServer]'s server and a relational view of its steps,
    on which the refinement of [ChatBoard] and the results of [ChatDelivery]
    are built. *)
From S2P Require Import Prelude Tokio ChatPb ChatServer.

(** ** The invariant *)

Section Invariant.
Context `{!Mpsc, !MpscLaws}.

(** The [add_message] a task is in. *)
Definition task_am (k : Task) : option (ChatMessage * AddMessage) :=
  match k with
  | TSend m (SendAdd am) => Some (m, am)
  | TStream s => match str_pc s with StAdd m am => Some (m, am) | _ => None end
  | _ => None
  end.
(** The subscribers it has left to send to; [None]: it holds no read guard. *)
Definition task_todo (k : Task) : option (list (string * nat)) :=
  match task_am k with Some (_, AmSend todo) => Some todo | _ => None end.

Definition is_subscribe (k : Task) : bool :=
  match k with TSubscribe _ => true | _ => false end.

(** What holds of subscription [i], by the state of the handler that made it. *)
Definition sub_ok (w : ChatWorld) (i : nat) (s : Subscription) : Prop :=
  (rx_closed (sub_rx s) = true ↔ sub_fwd s = FwdDone) ∧
  (sub_fwd s = FwdRemove ∨ sub_fwd s = FwdDone → rx_closed (sub_out s) = true) ∧
  match cw_tasks w !! i with
  | Some (TSubscribe SubInsert) => sub_fwd s = FwdRecv ∧ queued (sub_rx s) = []
  | Some (TSubscribe SubDone) =>
      sub_fwd s = FwdDone ∨ subscribers (cw_state w) !! sub_id s = Some i
  | Some (TSubscribe SubCancelled) => rx_closed (sub_out s) = true
  | _ => False
  end.

Record chat_inv (w : ChatWorld) : Prop := {
  ci_guards : ∀ t, t ∈ read_guards (cw_state w) ↔
    ∃ k todo, cw_tasks w !! t = Some k ∧ task_todo k = Some todo;
  (** the map does not change while it is iterated *)
  ci_todo : ∀ t k todo, cw_tasks w !! t = Some k → task_todo k = Some todo →
    NoDup (snd <$> todo) ∧
    ∀ p, p ∈ todo → subscribers (cw_state w) !! p.1 = Some p.2;
  ci_map : ∀ id i, subscribers (cw_state w) !! id = Some i →
    ∃ s, cw_subs w !! i = Some s ∧ sub_id s = id ∧ sub_fwd s ≠ FwdDone ∧
      cw_tasks w !! i = Some (TSubscribe SubDone);
  ci_subs : ∀ i s, cw_subs w !! i = Some s → sub_ok w i s;
  ci_tasks : ∀ i pc, cw_tasks w !! i = Some (TSubscribe pc) → is_Some (cw_subs w !! i);
  ci_ids : ∀ i j s s', cw_subs w !! i = Some s → cw_subs w !! j = Some s' →
    sub_id s = sub_id s' → i = j;
}.

Lemma chat_inv_new id max : chat_inv (chat_world_new id max).
Proof.
  split; simpl.
  - intros t. split; [set_solver|]. intros (k & todo & Hk & _). by rewrite lookup_empty in Hk.
  - intros t k todo Hk. by rewrite lookup_empty in Hk.
  - intros i j Hk. by rewrite lookup_empty in Hk.
  - intros i s Hk. by rewrite lookup_empty in Hk.
  - intros i pc Hk. by rewrite lookup_empty in Hk.
  - intros i j s s' Hk. by rewrite lookup_empty in Hk.
Qed.

(** Tasks that are not subscriptions move, and take or leave the read guard. *)
Lemma chat_inv_set_task w t k st :
  chat_inv w → is_subscribe k = false →
  (∀ k0, cw_tasks w !! t = Some k0 → is_subscribe k0 = false) →
  subscribers st = subscribers (cw_state w) →
  read_guards st = match task_todo k with
                   | Some _ => {[t]} ∪ read_guards (cw_state w)
                   | None => read_guards (cw_state w) ∖ {[t]}
                   end →
  (∀ todo, task_todo k = Some todo → NoDup (snd <$> todo) ∧
     ∀ p, p ∈ todo → subscribers (cw_state w) !! p.1 = Some p.2) →
  chat_inv (MkChatWorld st (<[t := k]> (cw_tasks w)) (cw_subs w)).
Proof.
  intros [Hg Ht Hm Hs Hts Hi] Hk Hk0 Esub Eg Htodo.
  assert (Hkeep : ∀ i pc, cw_tasks w !! i = Some (TSubscribe pc) →
    <[t := k]> (cw_tasks w) !! i = Some (TSubscribe pc)).
  { intros i pc Hi'. rewrite lookup_insert_ne; [done|].
    intros <-. by apply Hk0 in Hi'. }
  split; simpl; rewrite ?Esub, ?Eg.
  - intros t'. destruct (decide (t' = t)) as [->|Hne].
    + rewrite lookup_insert_eq. destruct (task_todo k) as [todo|] eqn:E.
      * split; [by exists k, todo|set_solver].
      * split; [set_solver|]. intros (k' & todo & [= <-] & E'). congruence.
    + rewrite lookup_insert_ne by done. rewrite <-Hg. destruct (task_todo k); set_solver.
  - intros t' k' todo [[<- <-]|[Hne Hl]]%lookup_insert_Some; [apply Htodo|by eapply Ht].
  - intros id i Hl. destruct (Hm _ _ Hl) as (s & ? & ? & ? & ?). exists s. auto.
  - intros i s Hl. destruct (Hs _ _ Hl) as (H1 & H2 & H3). split_and!; [done..|].
    simpl. rewrite Esub. destruct (cw_tasks w !! i) as [[| pc |]|] eqn:E; try done.
    apply Hkeep in E. by rewrite E.
  - intros i pc [[<- ->]|[Hne Hl]]%lookup_insert_Some; [done|]. by eapply Hts.
  - done.
Qed.

(** A subscription moves without changing its place in the map. *)
Lemma chat_inv_set_sub w i s s' :
  chat_inv w → cw_subs w !! i = Some s → sub_id s' = sub_id s →
  (sub_fwd s' = FwdDone ↔ sub_fwd s = FwdDone) → sub_ok w i s' →
  chat_inv (set_sub i s' w).
Proof.
  intros [Hg Ht Hm Hs Hts Hi] Hl Eid Efwd Hok. split; simpl; try done.
  - intros id j Hj. destruct (Hm _ _ Hj) as (s0 & Hs0 & Hid & Hf & Hd).
    destruct (decide (j = i)) as [->|Hne].
    + exists s'. rewrite lookup_insert_eq. simplify_eq. split_and!; try done. tauto.
    + exists s0. by rewrite lookup_insert_ne.
  - intros j sj [[<- <-]|[Hne Hj]]%lookup_insert_Some; [done|by apply Hs].
  - intros j pc Hj. destruct (decide (j = i)) as [->|Hne].
    + by rewrite lookup_insert_eq.
    + rewrite lookup_insert_ne by done. by eapply Hts.
  - intros j j' sj sj' [[<- <-]|[Hne Hj]]%lookup_insert_Some
      [[<- <-]|[Hne' Hj']]%lookup_insert_Some E; try done.
    + eapply Hi; [done..|congruence].
    + eapply Hi; [done..|congruence].
    + by eapply Hi.
Qed.

Lemma sub_ok_task w w' i s :
  subscribers (cw_state w') = subscribers (cw_state w) → cw_tasks w' !! i = cw_tasks w !! i →
  sub_ok w i s → sub_ok w' i s.
Proof. unfold sub_ok. by intros -> ->. Qed.

Lemma task_todo_subscribe k todo : task_todo k = Some todo → is_subscribe k = false.
Proof. by destruct k. Qed.
Lemma task_am_subscribe k x : task_am k = Some x → is_subscribe k = false.
Proof. by destruct k. Qed.

(** What [add_message] may send to: a live subscription of the map. *)
Lemma todo_live w t k id i todo :
  chat_inv w → cw_tasks w !! t = Some k → task_todo k = Some ((id, i) :: todo) →
  ∃ s, cw_subs w !! i = Some s ∧ sub_id s = id ∧ subscribers (cw_state w) !! id = Some i ∧
    cw_tasks w !! i = Some (TSubscribe SubDone) ∧ rx_closed (sub_rx s) = false.
Proof.
  intros Hinv Hk Htodo.
  assert (Hid : subscribers (cw_state w) !! id = Some i).
  { destruct (ci_todo _ Hinv _ _ _ Hk Htodo) as [_ Hin]. apply (Hin (id, i)). set_solver. }
  destruct (ci_map _ Hinv _ _ Hid) as (s & Hs & Es & Hf & Hd). exists s. split_and!; try done.
  destruct (ci_subs _ Hinv _ _ Hs) as (Hc & _). destruct (rx_closed (sub_rx s)); tauto.
Qed.

Lemma guard_of w t k todo :
  chat_inv w → cw_tasks w !! t = Some k → task_todo k = Some todo →
  {[t]} ∪ read_guards (cw_state w) = read_guards (cw_state w).
Proof.
  intros Hinv Hk Htodo. assert (t ∈ read_guards (cw_state w)); [|set_solver].
  apply (ci_guards _ Hinv). eauto.
Qed.
Lemma no_guard w t k :
  chat_inv w → cw_tasks w !! t = Some k → task_todo k = None →
  read_guards (cw_state w) ∖ {[t]} = read_guards (cw_state w).
Proof.
  intros Hinv Hk Htodo. assert (t ∉ read_guards (cw_state w)); [|set_solver].
  rewrite (ci_guards _ Hinv). intros (k' & todo & ? & ?). congruence.
Qed.
Lemma no_guard_fresh w t :
  chat_inv w → cw_tasks w !! t = None →
  read_guards (cw_state w) ∖ {[t]} = read_guards (cw_state w).
Proof.
  intros Hinv Hk. assert (t ∉ read_guards (cw_state w)); [|set_solver].
  rewrite (ci_guards _ Hinv). intros (k' & todo & ? & ?). congruence.
Qed.

(** The steps of [add_message]; a send never finds the receiver gone. *)
Inductive am_moves (t : nat) (m : ChatMessage) (w : ChatWorld) :
    AddMessage → option AddMessage → ChatWorld → Prop :=
  | am_push : am_moves t m w AmPush (Some AmRead)
      (set_state (set_messages (λ ms, ms ++ [m])) w)
  | am_read order : order ≡ₚ map_to_list (subscribers (cw_state w)) →
      am_moves t m w AmRead (Some (AmSend order)) (set_state (set_guards (λ g, {[t]} ∪ g)) w)
  | am_end : am_moves t m w (AmSend []) None (set_state (set_guards (λ g, g ∖ {[t]})) w)
  | am_send id i todo s rx : cw_subs w !! i = Some s → sub_id s = id →
      subscribers (cw_state w) !! id = Some i →
      cw_tasks w !! i = Some (TSubscribe SubDone) →
      queued rx = queued (sub_rx s) ++ [m] → length (queued (sub_rx s)) < capacity (sub_rx s) →
      capacity rx = capacity (sub_rx s) →
      rx_closed rx = false → rx_closed (sub_rx s) = false →
      am_moves t m w (AmSend ((id, i) :: todo)) (Some (AmSend todo)) (set_sub i (with_rx rx s) w).

Lemma add_message_moves w t k m am order next w' :
  chat_inv w → cw_tasks w !! t = Some k → task_am k = Some (m, am) →
  add_message_step t m order am w = Some (next, w') → am_moves t m w am next w'.
Proof.
  intros Hinv Hk Ham Hs. destruct am as [| |[|[id i] todo]]; simpl in Hs.
  - injection Hs as <- <-. constructor.
  - destruct (decide _) as [Hp|]; [|done]. injection Hs as <- <-. by constructor.
  - injection Hs as <- <-. constructor.
  - destruct (todo_live w t k id i todo Hinv Hk) as (s & Hsub & Hid & Hmap & Hd & Hc).
    { unfold task_todo. by rewrite Ham. }
    rewrite Hsub in Hs. simpl in Hs.
    destruct (try_send m (sub_rx s)) as [o rx] eqn:Hts.
    apply try_send_inv in Hts as [Ho Hcap]. destruct o; [|done|destruct Ho; congruence].
    injection Hs as <- <-. destruct Ho as (Hq & Hl & _ & Hrx).
    rewrite Hq, length_app in Hl. simpl in Hl.
    econstructor; eauto. lia.
Qed.

Lemma am_moves_tasks t m w am next w' : am_moves t m w am next w' → cw_tasks w' = cw_tasks w.
Proof. by destruct 1. Qed.

Lemma add_message_inv w t k k' m am next w' :
  chat_inv w → cw_tasks w !! t = Some k → task_am k = Some (m, am) →
  am_moves t m w am next w' → task_am k' = pair m <$> next → is_subscribe k' = false →
  chat_inv (set_task t k' w').
Proof.
  intros Hinv Hk Ham Hm Hnext Hk'. pose proof (task_am_subscribe _ _ Ham) as Hnk.
  assert (Hnk0 : ∀ k0, cw_tasks w !! t = Some k0 → is_subscribe k0 = false) by congruence.
  assert (Htodo : task_todo k = match am with AmSend todo => Some todo | _ => None end).
  { unfold task_todo. by rewrite Ham. }
  assert (Htodo' : task_todo k' = match next with Some (AmSend todo) => Some todo | _ => None end).
  { unfold task_todo. rewrite Hnext. by destruct next. }
  destruct Hm as [|order Hp| |id i todo s rx Hsub Hid Hmap Hd Hq Hl Hcap Hrx Hrx0];
    simpl in Htodo, Htodo'; unfold set_task, set_state; simpl.
  - apply chat_inv_set_task; simpl; rewrite ?Htodo'; try done. by erewrite no_guard.
  - apply chat_inv_set_task; simpl; rewrite ?Htodo'; try done.
    intros ? [= <-]. split.
    + rewrite (fmap_Permutation snd _ _ Hp). apply NoDup_fmap_2_strong; [|apply NoDup_map_to_list].
      intros [id i] [id' i'] Hin Hin' E. simpl in E. subst i'.
      apply elem_of_map_to_list in Hin as Hin%(ci_map _ Hinv).
      apply elem_of_map_to_list in Hin' as Hin'%(ci_map _ Hinv).
      destruct Hin as (s & Hs & <- & _), Hin' as (s' & Hs' & <- & _). by simplify_eq.
    + intros [id i]. rewrite Hp, elem_of_map_to_list. done.
  - apply chat_inv_set_task; simpl; rewrite ?Htodo'; done.
  - assert (Hinv1 : chat_inv (set_sub i (with_rx rx s) w)).
    { eapply chat_inv_set_sub; [done..|]. destruct (ci_subs _ Hinv _ _ Hsub) as (H1 & H2 & H3).
      rewrite Hd in H3. split_and!; simpl; rewrite ?Hd; [|done..]. rewrite Hrx, <-H1, Hrx0. done. }
    destruct (ci_todo _ Hinv _ _ _ Hk Htodo) as [Hnd Hin]. apply NoDup_cons in Hnd as [_ Hnd].
    apply (chat_inv_set_task (set_sub i (with_rx rx s) w)); simpl; rewrite ?Htodo'; try done.
    + symmetry. by eapply guard_of.
    + intros ? [= <-]. split; [done|]. intros p Hp. apply Hin. set_solver.
Qed.
End Invariant.

(** ** The moves of the server

    What a step does, with the guards it passed: every later argument is by
    cases on these. *)

Section Moves.
Context `{!Mpsc, !MpscLaws}.

(** Where a task goes on when [add_message] moves to [next]. *)
Definition am_next (k : Task) (next : option AddMessage) : Task :=
  match k with
  | TSend m _ => TSend m (match next with Some am => SendAdd am | None => SendCount end)
  | TStream s =>
      match str_pc s with
      | StAdd m _ =>
          TStream (with_pc match next with Some am => StAdd m am | None => StReply m end s)
      | _ => k
      end
  | TSubscribe _ => k
  end.

(** What a stream does on its own. *)
Inductive stream_moves (st : ChatState) (s : Stream) : Stream → Prop :=
  | sm_input inp : str_pc s = StNext → stream_moves st s (stream_input inp s)
  | sm_reply m hash now : str_pc s = StReply m →
      stream_moves st s (with_pc (StSend (Ok (MkChatStreamResponse (Some
        (stream_reply st (new_v4 hash) now m)))) false) s)
  | sm_send r last out : str_pc s = StSend r last → rx_closed (str_out s) = false →
      queued out = queued (str_out s) ++ [r] → rx_closed out = false →
      stream_moves st s (with_pc (if last then StDone else StNext) (with_str_out out s))
  | sm_closed r last : str_pc s = StSend r last → rx_closed (str_out s) = true →
      stream_moves st s (with_pc StDone s)
  | sm_take r out : queued (str_out s) = r :: queued out →
      rx_closed (str_out s) = false → rx_closed out = false →
      stream_moves st s (MkStream (str_in s) out (str_pc s) (str_received s ++ [r]))
  | sm_leave out : queued out = queued (str_out s) → rx_closed out = true →
      stream_moves st s (with_str_out out s).

(** What a subscription does on its own. *)
Inductive sub_moves (w : ChatWorld) (i : nat) (s : Subscription) : Subscription → Prop :=
  | sv_recv m rx : sub_fwd s = FwdRecv → queued (sub_rx s) = m :: queued rx →
      capacity rx = capacity (sub_rx s) → rx_closed rx = rx_closed (sub_rx s) →
      sub_moves w i s (with_fwd (FwdSend (MkSubscribeMessagesResponse (Some m))) (with_rx rx s))
  | sv_end : sub_fwd s = FwdRecv → queued (sub_rx s) = [] → tx_alive i w = false →
      sub_moves w i s (with_fwd FwdRemove s)
  | sv_send r out : sub_fwd s = FwdSend r → rx_closed (sub_out s) = false →
      queued out = queued (sub_out s) ++ [r] → rx_closed out = false →
      sub_moves w i s (with_fwd FwdRecv (with_out out s))
  | sv_closed r : sub_fwd s = FwdSend r → rx_closed (sub_out s) = true →
      sub_moves w i s (with_fwd FwdRemove s)
  | sv_take r out : cw_tasks w !! i = Some (TSubscribe SubDone) →
      queued (sub_out s) = r :: queued out →
      rx_closed (sub_out s) = false → rx_closed out = false →
      sub_moves w i s (MkSubscription (sub_id s) (sub_rx s) out (sub_fwd s) (sub_received s ++ [r]))
  | sv_leave out : cw_tasks w !! i = Some (TSubscribe SubDone) →
      queued out = queued (sub_out s) → rx_closed out = true →
      sub_moves w i s (with_out out s).

(** What a move is to the outside: a subscription with its id, a [shutdown]
    call, or neither. *)
Inductive ChatEvent := Subscribed (id : string) | ShutdownCalled | Internal.
#[export] Instance ChatEvent_eq_dec : EqDecision ChatEvent.
Proof. solve_decision. Defined.

Inductive moves (w : ChatWorld) : ChatEvent → ChatWorld → Prop :=
  | mv_send t m : cw_tasks w !! t = None → sender_id m = node_id (cw_state w) →
      moves w Internal (set_task t (TSend m (SendAdd AmPush)) w)
  | mv_subscribe t id rx out : cw_tasks w !! t = None →
      (∀ i s, cw_subs w !! i = Some s → sub_id s ≠ id) →
      queued rx = [] → capacity rx = 100 → rx_closed rx = false →
      queued out = [] → rx_closed out = false →
      moves w (Subscribed id) (set_task t (TSubscribe SubInsert)
                 (set_sub t (MkSubscription id rx out FwdRecv []) w))
  | mv_stream t out : cw_tasks w !! t = None → queued out = [] → rx_closed out = false →
      moves w Internal (set_task t (TStream (MkStream [] out StNext [])) w)
  | mv_add t k m am next w' : cw_tasks w !! t = Some k → task_am k = Some (m, am) →
      am_moves t m w am next w' → moves w Internal (set_task t (am_next k next) w')
  | mv_count t m : cw_tasks w !! t = Some (TSend m SendCount) →
      moves w Internal (set_task t (TSend m (SendDone (MkSendMessageResponse true "" (msg_id m))))
                 (set_state count_request w))
  | mv_insert t s : cw_tasks w !! t = Some (TSubscribe SubInsert) → cw_subs w !! t = Some s →
      read_guards (cw_state w) = ∅ →
      moves w Internal (set_task t (TSubscribe SubDone)
                 (set_state (set_subscribers (insert (sub_id s) t)) w))
  | mv_stream_move t s s' : cw_tasks w !! t = Some (TStream s) →
      stream_moves (cw_state w) s s' → moves w Internal (set_task t (TStream s') w)
  | mv_sub_move i s s' : cw_subs w !! i = Some s → sub_moves w i s s' →
      moves w Internal (set_sub i s' w)
  | mv_remove i s rx : cw_subs w !! i = Some s → sub_fwd s = FwdRemove →
      read_guards (cw_state w) = ∅ →
      queued rx = queued (sub_rx s) → rx_closed rx = true →
      moves w Internal (set_sub i (with_fwd FwdDone (with_rx rx s))
                 (set_state (set_subscribers (delete (sub_id s))) w))
  | mv_cancel_add t m am : cw_tasks w !! t = Some (TSend m (SendAdd am)) →
      moves w Internal (set_task t (TSend m (SendCancelled (Some am)))
                      (set_state (set_guards (λ g, g ∖ {[t]})) w))
  | mv_cancel_count t m : cw_tasks w !! t = Some (TSend m SendCount) →
      moves w Internal (set_task t (TSend m (SendCancelled None)) w)
  | mv_cancel_subscribe t s out : cw_tasks w !! t = Some (TSubscribe SubInsert) →
      cw_subs w !! t = Some s → queued out = queued (sub_out s) → rx_closed out = true →
      moves w Internal (set_task t (TSubscribe SubCancelled) (set_sub t (with_out out s) w))
  | mv_shutdown : moves w ShutdownCalled (set_state send_shutdown w).

Definition event_of (l : ChatLabel) : ChatEvent :=
  match l with
  | ChatSubscribe _ hash => Subscribed (new_v4 hash)
  | NodeShutdown => ShutdownCalled
  | _ => Internal
  end.

Lemma mpsc_channel_new {A} n (c : chan A) :
  0 < n → mpsc_channel n = Some c → queued c = [] ∧ capacity c = n ∧ rx_closed c = false.
Proof.
  intros Hn Hc. destruct (mpsc_channel_pos A n Hn) as (c' & Hc' & ?).
  rewrite Hc in Hc'. by injection Hc' as ->.
Qed.

(** [recv] takes the oldest message. *)
Lemma recv_Some {A} (c : chan A) x c' :
  recv c = Some (x, c') → queued c = x :: queued c' ∧ capacity c' = capacity c ∧
    rx_closed c' = rx_closed c.
Proof.
  intros Hr. destruct (queued c) as [|y q] eqn:Hq; [by rewrite recv_empty in Hr|].
  destruct (recv_cons _ _ _ _ Hq) as (c1 & Hr' & Hq' & Hc & Hx).
  rewrite Hr in Hr'. injection Hr' as <- <-. by rewrite Hq', Hc, Hx.
Qed.

Lemma stream_step_moves w t order hash now s w' :
  chat_inv w → cw_tasks w !! t = Some (TStream s) →
  stream_step t order hash now s w = Some w' → moves w Internal w'.
Proof.
  intros Hinv Ht Hs. unfold stream_step in Hs. destruct (str_pc s) as [|m am|m|r last|] eqn:Epc;
    [done| | | |done].
  - apply bind_Some in Hs as ([next w1] & Ha & [= <-]).
    assert (task_am (TStream s) = Some (m, am)) as Ham by (simpl; by rewrite Epc).
    eapply add_message_moves in Ha; [|done..].
    pose proof (mv_add _ _ _ _ _ _ _ Ht Ham Ha) as Hm. simpl in Hm. rewrite Epc in Hm. done.
  - injection Hs as <-. eapply mv_stream_move; [done|]. by constructor.
  - destruct (try_send r (str_out s)) as [o out] eqn:E. apply try_send_inv in E as [Ho Hcap].
    destruct o; [|done|]; injection Hs as <-; (eapply mv_stream_move; [done|]).
    + destruct Ho as (? & ? & ? & ?). by eapply sm_send.
    + destruct Ho as [-> ?]. by eapply sm_closed.
Qed.

Lemma forward_step_moves w i w' : forward_step i w = Some w' → moves w Internal w'.
Proof.
  unfold forward_step. intros (s & Hs & Hf)%bind_Some.
  destruct (sub_fwd s) as [|r| |] eqn:Ef; [| | |done].
  - destruct (recv (sub_rx s)) as [[m rx]|] eqn:Er.
    + injection Hf as <-. apply recv_Some in Er as (? & ? & ?).
      eapply mv_sub_move; [done|]. by eapply sv_recv.
    + destruct (tx_alive i w) eqn:Ea; [done|]. injection Hf as <-.
      eapply mv_sub_move; [done|]. apply sv_end; [done| |done].
      destruct (queued (sub_rx s)) as [|x q] eqn:Eq; [done|].
      destruct (recv_cons _ _ _ _ Eq) as (? & ? & _). congruence.
  - destruct (try_send r (sub_out s)) as [o out] eqn:E. apply try_send_inv in E as [Ho Hcap].
    destruct o; [|done|]; injection Hf as <-; (eapply mv_sub_move; [done|]).
    + destruct Ho as (? & ? & ? & ?). by eapply sv_send.
    + destruct Ho as [-> ?]. by eapply sv_closed.
  - apply bind_Some in Hf as (w1 & Hr & [= <-]). unfold remove_subscriber in Hr.
    destruct (decide _) as [Hg|]; [|done]. injection Hr as <-.
    destruct (close_rx_spec _ (sub_rx s)) as (Hc & Hq & _). by eapply mv_remove.
Qed.

Lemma chat_step_moves w l w' :
  chat_inv w → (∀ id, event_of l = Subscribed id → ∀ i s, cw_subs w !! i = Some s → sub_id s ≠ id) →
  chat_step w l = Some w' → moves w (event_of l) w'.
Proof.
  intros Hinv Hfresh Hs. destruct l as [t req hash|t hash|t|t order hash now|t inp|i|i|i|t|t|t|];
    simpl in Hs |- *; unfold fresh_task in Hs.
  - destruct (bool_decide _) eqn:E; [|done]. breflect. injection Hs as <-. by apply mv_send.
  - destruct (bool_decide _) eqn:E; [|done]. breflect.
    apply bind_Some in Hs as (rx & Hrx & (out & Hout & [= <-])%bind_Some).
    apply mpsc_channel_new in Hrx as (? & ? & ?); [|lia].
    apply mpsc_channel_new in Hout as (? & ? & ?); [|lia]. eapply mv_subscribe; try done. by apply Hfresh.
  - destruct (bool_decide _) eqn:E; [|done]. breflect.
    apply bind_Some in Hs as (out & Hout & [= <-]).
    apply mpsc_channel_new in Hout as (? & ? & ?); [|lia]. by eapply mv_stream.
  - apply bind_Some in Hs as (k & Hk & Hs). destruct k as [m pc|pc|s].
    + destruct pc as [am| | |]; simpl in Hs; [| |done..].
      * apply bind_Some in Hs as ([next w1] & Ha & [= <-]).
        eapply add_message_moves in Ha; [|done..].
        exact (mv_add _ _ _ _ _ _ _ Hk eq_refl Ha).
      * injection Hs as <-. by eapply mv_count.
    + destruct pc; simpl in Hs; [|done..]. apply bind_Some in Hs as (s & Hsub & Hs).
      apply bind_Some in Hs as (w1 & Ha & [= <-]). unfold add_subscriber in Ha.
      destruct (decide _); [|done]. injection Ha as <-. by eapply mv_insert.
    + by eapply stream_step_moves.
  - destruct (cw_tasks w !! t) as [[| |s]|] eqn:Ht; try done.
    destruct (str_pc s) eqn:Epc; try done. injection Hs as <-.
    eapply mv_stream_move; [done|]. by constructor.
  - by eapply forward_step_moves.
  - apply bind_Some in Hs as (s & Hsub & Hs). unfold subscribed in Hsub.
    destruct (cw_tasks w !! i) as [[|[]|]|] eqn:Ht; try done.
    destruct (rx_closed (sub_out s)) eqn:Ec; [done|].
    apply bind_Some in Hs as ([r out] & Hr & [= <-]). apply recv_Some in Hr as (? & ? & ?).
    eapply mv_sub_move; [done|]. eapply sv_take; [done..|congruence].
  - apply bind_Some in Hs as (s & Hsub & [= <-]). unfold subscribed in Hsub.
    destruct (cw_tasks w !! i) as [[|[]|]|] eqn:Ht; try done.
    destruct (close_rx_spec _ (sub_out s)) as (? & ? & _).
    eapply mv_sub_move; [done|]. by eapply sv_leave.
  - destruct (cw_tasks w !! t) as [[| |s]|] eqn:Ht; try done.
    destruct (rx_closed (str_out s)) eqn:Ec; [done|].
    apply bind_Some in Hs as ([r out] & Hr & [= <-]). apply recv_Some in Hr as (? & ? & ?).
    eapply mv_stream_move; [done|]. eapply sm_take; [done..|congruence].
  - destruct (cw_tasks w !! t) as [[| |s]|] eqn:Ht; try done. injection Hs as <-.
    destruct (close_rx_spec _ (str_out s)) as (? & ? & _).
    eapply mv_stream_move; [done|]. by eapply sm_leave.
  - apply bind_Some in Hs as (k & Hk & Hs). destruct k as [m [am| | |]|[]|s]; simpl in Hs; try done.
    + injection Hs as <-. by eapply mv_cancel_add.
    + injection Hs as <-. by eapply mv_cancel_count.
    + apply bind_Some in Hs as (s & Hsub & [= <-]).
      destruct (close_rx_spec _ (sub_out s)) as (? & ? & _). by eapply mv_cancel_subscribe.
  - injection Hs as <-. constructor.
Qed.

(** *** Moves keep the invariant *)

Lemma tx_alive_map w i id : subscribers (cw_state w) !! id = Some i → tx_alive i w = true.
Proof.
  intros Hl. unfold tx_alive. rewrite bool_decide_eq_true_2; [done|]. by exists id, i.
Qed.
Lemma tx_alive_insert w i : cw_tasks w !! i = Some (TSubscribe SubInsert) → tx_alive i w = true.
Proof. intros Ht. unfold tx_alive. rewrite Ht. apply orb_true_r. Qed.

Lemma sub_moves_ok w i s s' :
  chat_inv w → cw_subs w !! i = Some s → sub_moves w i s s' →
  sub_id s' = sub_id s ∧ (sub_fwd s' = FwdDone ↔ sub_fwd s = FwdDone) ∧ sub_ok w i s'.
Proof.
  intros Hinv Hs Hm. destruct (ci_subs _ Hinv _ _ Hs) as (H1 & H2 & H3).
  destruct Hm as [m rx Ef Hq _ Hc|Ef Hq Ha|r out Ef Hc Hq Hc'|r Ef Hc|r out Ht Hq Hc Hc'|out Ht Hq Hc];
    (split_and!; [done|simpl; rewrite ?Ef; done|]); unfold sub_ok in *; simpl;
    rewrite ?Ef, ?Ht in *.
  - split_and!; [rewrite Hc; naive_solver|naive_solver|]. destruct (cw_tasks w !! i) as [[|[]|]|]; try done.
    + destruct H3 as [_ H3]. congruence.
    + naive_solver.
  - split_and!; [naive_solver| |].
    + intros _. destruct (cw_tasks w !! i) as [[|[]|]|] eqn:Ht; try done.
      * by rewrite (tx_alive_insert _ _ Ht) in Ha.
      * destruct H3 as [|Hl]; [done|]. by rewrite (tx_alive_map _ _ _ Hl) in Ha.
    + destruct (cw_tasks w !! i) as [[|[]|]|] eqn:Ht; try done.
      * by rewrite (tx_alive_insert _ _ Ht) in Ha.
      * naive_solver.
  - split_and!; [naive_solver|naive_solver|].
    destruct (cw_tasks w !! i) as [[|[]|]|]; [done|by destruct H3|by destruct H3; [|right]|congruence|done|done].
  - split_and!; [naive_solver|done|].
    destruct (cw_tasks w !! i) as [[|[]|]|]; [done|by destruct H3|by destruct H3; [|right]|done|done|done].
  - split_and!; [done| |done]. intros Hr. apply H2 in Hr. congruence.
  - split_and!; [done|done|done].
Qed.

Lemma stream_moves_am st s s' :
  stream_moves st s s' →
  task_am (TStream s') = task_am (TStream s) ∨
  task_am (TStream s) = None ∧ ∀ m am, task_am (TStream s') = Some (m, am) → am = AmPush.
Proof.
  destruct 1 as [inp Epc|m hash now Epc|r last out Epc|r last Epc| |]; simpl; rewrite ?Epc.
  - right. split; [done|]. destruct inp as [[req|e]|]; simpl; [|done..].
    destruct (csr_message req); simpl; [by intros ?? [= _ <-]|by rewrite Epc].
  - by right.
  - right. split; [done|]. by destruct last.
  - by right.
  - by left.
  - by left.
Qed.

Lemma moves_inv_subscribe w t id rx out :
  chat_inv w → cw_tasks w !! t = None → (∀ i s, cw_subs w !! i = Some s → sub_id s ≠ id) →
  queued rx = [] → rx_closed rx = false → 
  chat_inv (set_task t (TSubscribe SubInsert) (set_sub t (MkSubscription id rx out FwdRecv []) w)).
Proof.
  intros [Hg Htd Hm Hs Hts Hi] Ht Hid Hq Hc.
  assert (Hne : ∀ i k, cw_tasks w !! i = Some k → t ≠ i) by congruence.
  assert (Hnone : cw_subs w !! t = None).
  { destruct (cw_subs w !! t) as [s|] eqn:E; [|done]. destruct (Hs _ _ E) as (_ & _ & Hx).
    by rewrite Ht in Hx. }
  split; simpl.
  - intros t'. rewrite Hg. split; intros (k & todo & Hk & Htodo).
    + exists k, todo. rewrite lookup_insert_ne by eauto. done.
    + apply lookup_insert_Some in Hk as [[_ <-]|[_ Hk]]; [done|eauto].
  - intros t' k todo [[_ <-]|[_ Hk]]%lookup_insert_Some; [done|by eapply Htd].
  - intros id' i Hl. destruct (Hm _ _ Hl) as (s & ? & ? & ? & ?). exists s.
    rewrite !lookup_insert_ne by eauto. done.
  - intros i s [[<- <-]|[Hne' Hl]]%lookup_insert_Some.
    + split_and!; simpl; [by rewrite Hc|by intros []|by rewrite lookup_insert_eq].
    + eapply sub_ok_task; [..|by apply Hs]; simpl; [done|by rewrite lookup_insert_ne].
  - intros i pc [[<- _]|[Hne' Hl]]%lookup_insert_Some; [by rewrite lookup_insert_eq|].
    rewrite lookup_insert_ne by done. eauto.
  - intros i j s s' [[<- <-]|[Hne' Hl]]%lookup_insert_Some
      [[<- <-]|[Hne2 Hl']]%lookup_insert_Some; simpl; try done; [| |by apply (Hi i j)].
    + intros E. by apply Hid in Hl'.
    + intros E. by apply Hid in Hl.
Qed.

(** A subscription's handler moves. *)
Lemma chat_inv_set_subscribe w t pc pc' subs' st :
  chat_inv w → cw_tasks w !! t = Some (TSubscribe pc) →
  read_guards st = read_guards (cw_state w) →
  (∀ id i, subscribers st !! id = Some i →
    subscribers (cw_state w) !! id = Some i ∨ i = t) →
  (∀ t k todo p, cw_tasks w !! t = Some k → task_todo k = Some todo → p ∈ todo →
    subscribers (cw_state w) !! p.1 = Some p.2 → subscribers st !! p.1 = Some p.2) →
  (∀ i, i ≠ t → subs' !! i = cw_subs w !! i) →
  (∀ i s, i ≠ t → subscribers (cw_state w) !! sub_id s = Some i →
     cw_subs w !! i = Some s → subscribers st !! sub_id s = Some i) →
  (∃ s s', cw_subs w !! t = Some s ∧ subs' !! t = Some s' ∧ sub_id s' = sub_id s ∧
    sub_ok (MkChatWorld st (<[t := TSubscribe pc']> (cw_tasks w)) subs') t s' ∧
    ∀ id, subscribers st !! id = Some t →
      sub_id s = id ∧ sub_fwd s' ≠ FwdDone ∧ pc' = SubDone) →
  chat_inv (MkChatWorld st (<[t := TSubscribe pc']> (cw_tasks w)) subs').
Proof.
  intros [Hg Htd Hm Hs Hts Hi] Ht Eg Hmap Htodo Hsubs Hkeep (s & s' & Es & Es' & Eid & Hok & Hown).
  split; simpl.
  - intros t'. rewrite Eg, Hg. split; intros (k & todo & Hk & Hk').
    + exists k, todo. rewrite lookup_insert_ne; [done|]. intros <-. by simplify_eq.
    + apply lookup_insert_Some in Hk as [[_ <-]|[_ Hk]]; [done|eauto].
  - intros t' k todo [[_ <-]|[_ Hk]]%lookup_insert_Some Hk'; [done|].
    destruct (Htd _ _ _ Hk Hk') as [Hnd Hin]. split; [done|]. intros p Hp.
    by eapply Htodo; [..|by apply Hin].
  - intros id i Hl. destruct (decide (i = t)) as [->|Hne].
    + destruct (Hown _ Hl) as (? & ? & ->). exists s'. rewrite lookup_insert_eq.
      split_and!; try done. congruence.
    + destruct (Hmap _ _ Hl) as [Hl'|]; [|done]. destruct (Hm _ _ Hl') as (s0 & ? & ? & ? & ?).
      exists s0. rewrite Hsubs, lookup_insert_ne by done. done.
  - intros i si Hi'. destruct (decide (i = t)) as [->|Hne]; [by simplify_eq|].
    rewrite Hsubs in Hi' by done. destruct (Hs _ _ Hi') as (H1 & H2 & H3). split_and!; [done..|].
    simpl. rewrite lookup_insert_ne by done.
    destruct (cw_tasks w !! i) as [[|[]|]|]; try done. destruct H3; [by left|right; eauto].
  - intros i pc0 [[<- _]|[Hne Hl]]%lookup_insert_Some; [by rewrite Es'|].
    rewrite Hsubs by done. eauto.
  - intros i j si sj Hi' Hj'.
    assert (Hold : ∀ i si, subs' !! i = Some si → ∃ s0, cw_subs w !! i = Some s0 ∧ sub_id s0 = sub_id si).
    { intros i0 s0 H0'. destruct (decide (i0 = t)) as [->|Hne]; [exists s; split; congruence|].
      exists s0. by rewrite <-Hsubs. }
    destruct (Hold _ _ Hi') as (? & ? & <-), (Hold _ _ Hj') as (? & ? & <-). by apply Hi.
Qed.

Lemma moves_inv_insert w t s :
  chat_inv w → cw_tasks w !! t = Some (TSubscribe SubInsert) → cw_subs w !! t = Some s →
  read_guards (cw_state w) = ∅ →
  chat_inv (set_task t (TSubscribe SubDone) (set_state (set_subscribers (insert (sub_id s) t)) w)).
Proof.
  intros Hinv Ht Hs Hg. destruct (ci_subs _ Hinv _ _ Hs) as (H1 & H2 & H3).
  rewrite Ht in H3. destruct H3 as [Hf _].
  assert (Hfree : subscribers (cw_state w) !! sub_id s = None).
  { destruct (_ !! sub_id s) as [i|] eqn:E; [|done].
    destruct (ci_map _ Hinv _ _ E) as (si & Hi & Eid & _ & Hd).
    assert (i = t) as -> by (by eapply (ci_ids _ Hinv)). congruence. }
  apply (chat_inv_set_subscribe w t SubInsert); simpl; try done.
  - intros id i [[_ <-]|[_ Hl]]%lookup_insert_Some; auto.
  - intros t' k todo p _ _ _ Hp. rewrite lookup_insert_ne; congruence.
  - intros i si Hne Hl Hi. rewrite lookup_insert_ne; congruence.
  - exists s, s. split_and!; try done.
    + split_and!; [done..|]. simpl. rewrite lookup_insert_eq. right. by rewrite lookup_insert_eq.
    + intros id [[<- _]|[_ Hl]]%lookup_insert_Some; [by rewrite Hf|].
      destruct (ci_map _ Hinv _ _ Hl) as (si & _ & _ & _ & Hd). congruence.
Qed.

Lemma moves_inv_cancel_subscribe w t s out :
  chat_inv w → cw_tasks w !! t = Some (TSubscribe SubInsert) → cw_subs w !! t = Some s →
  rx_closed out = true →
  chat_inv (set_task t (TSubscribe SubCancelled) (set_sub t (with_out out s) w)).
Proof.
  intros Hinv Ht Hs Hc. destruct (ci_subs _ Hinv _ _ Hs) as (H1 & H2 & H3).
  apply (chat_inv_set_subscribe w t SubInsert); simpl; try done; auto.
  - intros i Hne. by rewrite lookup_insert_ne.
  - exists s, (with_out out s). split_and!; try done.
    + by rewrite lookup_insert_eq.
    + split_and!; simpl; [done..|]. by rewrite lookup_insert_eq.
    + intros id Hl. destruct (ci_map _ Hinv _ _ Hl) as (si & _ & _ & _ & Hd). congruence.
Qed.

Lemma moves_inv_remove w i s rx :
  chat_inv w → cw_subs w !! i = Some s → sub_fwd s = FwdRemove →
  read_guards (cw_state w) = ∅ → rx_closed rx = true →
  chat_inv (set_sub i (with_fwd FwdDone (with_rx rx s))
              (set_state (set_subscribers (delete (sub_id s))) w)).
Proof.
  intros [Hg Htd Hm Hs Hts Hi] Hsi Hf Hempty Hc.
  assert (Hno : ∀ t k todo, cw_tasks w !! t = Some k → task_todo k = Some todo → False).
  { intros t k todo Hk Htodo. assert (t ∈ read_guards (cw_state w)); [|set_solver].
    apply Hg. eauto. }
  destruct (Hs _ _ Hsi) as (H1 & H2 & H3).
  split; simpl; try done.
  - intros t k todo Hk Htodo. by destruct (Hno _ _ _ Hk Htodo).
  - intros id j [Hne Hl]%lookup_delete_Some. destruct (Hm _ _ Hl) as (sj & Hj & Eid & ?).
    assert (j ≠ i) by congruence. exists sj. by rewrite lookup_insert_ne.
  - intros j sj [[<- <-]|[Hne Hj]]%lookup_insert_Some.
    + split_and!; simpl; [done|auto|]. destruct (cw_tasks w !! i) as [[|[]|]|]; auto.
      destruct H3. congruence.
    + destruct (Hs _ _ Hj) as (? & ? & Hx). split_and!; [done..|]. simpl.
      destruct (cw_tasks w !! j) as [[|[]|]|]; try done. destruct Hx as [|Hx]; [by left|right].
      rewrite lookup_delete_ne; [done|]. intros E. apply Hne. by eapply Hi.
  - intros j pc Hj. destruct (decide (j = i)) as [->|Hne]; [by rewrite lookup_insert_eq|].
    rewrite lookup_insert_ne by done. eauto.
  - intros j j' sj sj' [[<- <-]|[Hne Hj]]%lookup_insert_Some
      [[<- <-]|[Hne' Hj']]%lookup_insert_Some E; try done; by eapply Hi.
Qed.

Lemma moves_inv w o w' : chat_inv w → moves w o w' → chat_inv w'.
Proof.
  intros Hinv Hm.
  assert (Hplain : ∀ t k st, is_subscribe k = false → task_todo k = None →
    (∀ k0, cw_tasks w !! t = Some k0 → is_subscribe k0 = false) →
    subscribers st = subscribers (cw_state w) →
    read_guards st = read_guards (cw_state w) ∖ {[t]} →
    chat_inv (MkChatWorld st (<[t := k]> (cw_tasks w)) (cw_subs w))).
  { intros t k st Hk Htodo Hk0 Esub Eg. apply chat_inv_set_task; rewrite ?Htodo; auto; done. }
  destruct Hm as [t m Ht _|t id rx out Ht Hid Hq Hcap Hc Hqo Hco|t out Ht _ _|
    t k m am next w' Ht Ham Hm|t m Ht|t s Ht Hs Hg|t s s' Ht Hm|i s s' Hs Hm|
    i s rx Hs Hf Hg Hq Hc|t m am Ht|t m Ht|t s out Ht Hs Hq Hc|].
  - apply Hplain; try done; try congruence. by rewrite no_guard_fresh.
  - by apply moves_inv_subscribe.
  - apply Hplain; try done; try congruence. by rewrite no_guard_fresh.
  - eapply add_message_inv; [done..| |].
    + destruct k as [m0 pc|pc|s]; simpl in Ham |- *; [|done|].
      * destruct pc; try done. injection Ham as -> ->. by destruct next.
      * destruct (str_pc s); try done. injection Ham as -> ->. by destruct next.
    + destruct k as [m0 pc|pc|s]; simpl in Ham |- *; [done|done|]. by destruct (str_pc s).
  - apply (Hplain t); simpl; try done; [by intros k0 Hk0; simplify_eq| |].
    + unfold count_request. simpl. by destruct (max_requests _); [case_match|].
    + unfold count_request. simpl. erewrite no_guard; [|done..].
      by destruct (max_requests _); [case_match|].
  - by eapply moves_inv_insert.
  - assert (read_guards (cw_state w) = match task_todo (TStream s') with
        | Some _ => {[t]} ∪ read_guards (cw_state w) 
        | None => read_guards (cw_state w) ∖ {[t]} end ∧
      ∀ todo, task_todo (TStream s') = Some todo → task_todo (TStream s) = Some todo) as [Hg Htodo].
    { unfold task_todo at 1 2. destruct (stream_moves_am _ _ _ Hm) as [E|[E1 E2]].
      - unfold task_todo. rewrite E. split; [|done].
        destruct (task_am (TStream s)) as [[m [| |todo]]|] eqn:Ea.
        1,2,4: by erewrite no_guard by (unfold task_todo; rewrite ?Ea; done).
        by erewrite guard_of by (unfold task_todo; rewrite ?Ea; done).
      - unfold task_todo. destruct (task_am (TStream s')) as [[m am]|] eqn:Ea.
        + rewrite (E2 _ _ eq_refl). split; [|done].
          by erewrite no_guard by (unfold task_todo; rewrite ?E1; done).
        + split; [|done]. by erewrite no_guard by (unfold task_todo; rewrite ?E1; done). }
    apply chat_inv_set_task; try done; [by intros k0 Hk0; simplify_eq|].
    intros todo E. eapply (ci_todo _ Hinv); eauto.
  - destruct (sub_moves_ok _ _ _ _ Hinv Hs Hm) as (? & ? & ?). by eapply chat_inv_set_sub.
  - by eapply moves_inv_remove.
  - apply (Hplain t); try done. by intros k0 Hk0; simplify_eq.
  - apply Hplain; try done; [by intros k0 Hk0; simplify_eq|]. by erewrite no_guard.
  - by eapply moves_inv_cancel_subscribe.
  - destruct Hinv. by split.
Qed.

(** *** One subscription, one task *)

(** How a move changes the subscription [i]. *)
Inductive sub_evolves (w : ChatWorld) (i : nat) (s : Subscription) : Subscription → Prop :=
  | se_same : sub_evolves w i s s
  | se_move s' : sub_moves w i s s' → sub_evolves w i s s'
  | se_enqueue m rx : queued rx = queued (sub_rx s) ++ [m] → capacity rx = capacity (sub_rx s) →
      length (queued (sub_rx s)) < capacity (sub_rx s) → rx_closed rx = false →
      sub_evolves w i s (with_rx rx s)
  | se_done rx : sub_fwd s = FwdRemove → read_guards (cw_state w) = ∅ →
      queued rx = queued (sub_rx s) → sub_evolves w i s (with_fwd FwdDone (with_rx rx s))
  | se_cancel out : cw_tasks w !! i = Some (TSubscribe SubInsert) →
      queued out = queued (sub_out s) → rx_closed out = true → sub_evolves w i s (with_out out s).

Lemma moves_sub w o w' i s :
  chat_inv w → moves w o w' → cw_subs w !! i = Some s →
  ∃ s', cw_subs w' !! i = Some s' ∧ sub_evolves w i s s'.
Proof.
  intros Hinv Hm Hs.
  assert (Hset : ∀ j s0 s1, cw_subs w !! j = Some s0 → sub_evolves w j s0 s1 →
    ∃ s', <[j := s1]> (cw_subs w) !! i = Some s' ∧ sub_evolves w i s s').
  { intros j s0 s1 Hj He. destruct (decide (i = j)) as [->|Hne].
    - simplify_eq. exists s1. by rewrite lookup_insert_eq.
    - exists s. rewrite lookup_insert_ne by done. split; [done|constructor]. }
  destruct Hm as [t m Ht _|t id rx out Ht Hid Hq Hcap Hcl Hqo Hco|t out Ht _ _|
    t k m am next w' Ht Ham Hm|t m Ht|t s0 Ht Hs0 Hg|t s0 s1 Ht Hm|j s0 s1 Hs0 Hm|
    j s0 rx Hs0 Hf Hg Hq Hcl|t m am Ht|t m Ht|t s0 out Ht Hs0 Hq Hcl|]; simpl;
    try (exists s; split; [done|constructor]).
  - exists s. destruct (decide (i = t)) as [->|Hne].
    + destruct (ci_subs _ Hinv _ _ Hs) as (_ & _ & Hx). by rewrite Ht in Hx.
    + rewrite lookup_insert_ne by done. split; [done|constructor].
  - destruct Hm as [| | |id j todo s0 rx Hs0]; simpl; try (exists s; split; [done|constructor]).
    eapply Hset; [done|]. by eapply se_enqueue.
  - eapply Hset; [done|]. by apply se_move.
  - eapply Hset; [done|]. by apply se_done.
  - eapply Hset; [done|]. by apply se_cancel.
Qed.

Lemma evolves_id w i s s' : sub_evolves w i s s' → sub_id s' = sub_id s.
Proof. destruct 1 as [|s' Hm| | |]; [done|by destruct Hm|done..]. Qed.

(** How a move to [w'] changes the task [t]. *)
Inductive task_evolves (w : ChatWorld) (t : nat) (w' : ChatWorld) : Task → Task → Prop :=
  | te_add k m am next w1 : task_am k = Some (m, am) → am_moves t m w am next w1 →
      w' = set_task t (am_next k next) w1 → task_evolves w t w' k (am_next k next)
  | te_count m : task_evolves w t w' (TSend m SendCount)
      (TSend m (SendDone (MkSendMessageResponse true "" (msg_id m))))
  | te_insert : read_guards (cw_state w) = ∅ →
      task_evolves w t w' (TSubscribe SubInsert) (TSubscribe SubDone)
  | te_stream s s' : stream_moves (cw_state w) s s' → cw_state w' = cw_state w →
      task_evolves w t w' (TStream s) (TStream s')
  | te_cancel_add m am : task_evolves w t w' (TSend m (SendAdd am)) (TSend m (SendCancelled (Some am)))
  | te_cancel_count m : task_evolves w t w' (TSend m SendCount) (TSend m (SendCancelled None))
  | te_cancel_subscribe :
      task_evolves w t w' (TSubscribe SubInsert) (TSubscribe SubCancelled).

(** The handlers as they start. *)
Inductive new_task (w : ChatWorld) : Task → Prop :=
  | nt_send m : sender_id m = node_id (cw_state w) → new_task w (TSend m (SendAdd AmPush))
  | nt_subscribe : new_task w (TSubscribe SubInsert)
  | nt_stream out : queued out = [] → new_task w (TStream (MkStream [] out StNext [])).

Lemma moves_task w o w' t k' :
  moves w o w' → cw_tasks w' !! t = Some k' →
  cw_tasks w !! t = Some k' ∨ (cw_tasks w !! t = None ∧ new_task w k') ∨
  ∃ k, cw_tasks w !! t = Some k ∧ task_evolves w t w' k k'.
Proof.
  destruct 1 as [u m Ht Hm|u id rx out Ht Hid Hq Hcap Hcl Hqo Hco|u out Ht Hq Hc|
    u k m am next w1 Ht Ham Hm|u m Ht|u s0 Ht Hs0 Hg|u s0 s1 Ht Hm|j s0 s1 Hs0 Hm|
    j s0 rx Hs0 Hf Hg Hq Hcl|u m am Ht|u m Ht|u s0 out Ht Hs0 Hq Hcl|]; simpl; auto;
    try rewrite (am_moves_tasks _ _ _ _ _ _ Hm);
    (intros [[-> <-]|[_ ?]]%lookup_insert_Some; [right|by left]).
  - left. split; [done|by constructor].
  - left. split; [done|by constructor].
  - left. split; [done|by constructor].
  - right. exists k. split; [done|]. by eapply te_add.
  - right. eexists. split; [done|constructor].
  - right. eexists. split; [done|by constructor].
  - right. eexists. split; [done|by constructor].
  - right. eexists. split; [done|constructor].
  - right. eexists. split; [done|constructor].
  - right. eexists. split; [done|constructor].
Qed.

(** Tasks are never forgotten. *)
Lemma moves_task_Some w o w' t k :
  moves w o w' → cw_tasks w !! t = Some k → is_Some (cw_tasks w' !! t).
Proof.
  intros Hm Ht. destruct Hm as [| | |u k0 m am next w' Hu Ham Hm| | | | | | | | |]; simpl; eauto;
    try rewrite (am_moves_tasks _ _ _ _ _ _ Hm); rewrite lookup_insert_is_Some'; eauto.
Qed.

(** *** Runs *)

(** The hashes the subscriptions of a schedule take their ids from. *)
Definition subscription_hashes (ls : list ChatLabel) : list Z :=
  omap (λ l, match l with ChatSubscribe _ hash => Some hash | _ => None end) ls.

Lemma moves_ids w o w' i s' :
  moves w o w' → cw_subs w' !! i = Some s' →
  (∃ s, cw_subs w !! i = Some s ∧ sub_id s = sub_id s') ∨ o = Subscribed (sub_id s').
Proof.
  destruct 1 as [| t | |? ? ? ? ? ? ? ? Hm| | | |j s s1 Hs Hm|j s rx Hs| | |t s out Ht Hs|]; simpl;
    [by eauto| |by eauto|destruct Hm; simpl|by eauto..| | |by eauto|by eauto| |by eauto];
    rewrite ?lookup_insert_Some; try by eauto.
  - intros [[<- <-]|[_ ?]]; [by right|by eauto].
  - intros [[<- <-]|[_ ?]]; [left; eauto|by eauto].
  - intros [[<- <-]|[_ ?]]; [left; eexists; split; [done|]; by destruct Hm|by eauto].
  - intros [[<- <-]|[_ ?]]; [left; eauto|by eauto].
  - intros [[<- <-]|[_ ?]]; [left; eauto|by eauto].
Qed.

Definition some_move (w w' : ChatWorld) : Prop := ∃ o, moves w o w'.

(** The subscriptions took their ids from hashes of [used]. *)
Definition ids_from (used : list Z) (w : ChatWorld) : Prop :=
  ∀ i s, cw_subs w !! i = Some s → ∃ h, h ∈ used ∧ sub_id s = new_v4 h.

(** A schedule whose subscriptions get distinct ids is a sequence of moves. *)
Lemma chat_run_moves_from used ls w w' :
  chat_inv w → NoDup (random <$> used ++ subscription_hashes ls) → ids_from used w →
  chat_run w ls = Some w' →
  rtc some_move w w' ∧ chat_inv w' ∧ ids_from (used ++ subscription_hashes ls) w'.
Proof.
  revert used w. induction ls as [|l ls IH]; intros used w Hinv Hnd Hids; simpl.
  { intros [= <-]. rewrite app_nil_r. by split_and!; [apply rtc_refl|..]. }
  intros (w1 & Hs & Hr)%bind_Some.
  assert (Hm : moves w (event_of l) w1).
  { apply chat_step_moves; [done| |done]. intros id Eid i s Hi E.
    destruct (Hids _ _ Hi) as (h & Hh & Eh). destruct l as [|t hash| | | | | | | | | |]; try done.
    injection Eid as <-. rewrite Eh in E. apply new_v4_inj in E.
    unfold subscription_hashes in Hnd. csimpl in Hnd. rewrite fmap_app in Hnd.
    apply NoDup_app in Hnd as (_ & Hd & _). apply (Hd (random h)).
    - by apply list_elem_of_fmap_2.
    - csimpl. rewrite E. set_solver. }
  pose proof (moves_inv _ _ _ Hinv Hm) as Hinv1.
  destruct (IH (used ++ subscription_hashes [l]) w1) as (Hrtc & Hinv' & Hids'); try done.
  - rewrite <-app_assoc. unfold subscription_hashes in *. by rewrite <-omap_app.
  - intros i s Hi. destruct (moves_ids _ _ _ _ _ Hm Hi) as [(s0 & Hi0 & <-)|E].
    + destruct (Hids _ _ Hi0) as (h & ? & ?). exists h. split; [set_solver|done].
    + destruct l; try done. injection E as <-. eexists. split; [|done]. csimpl. set_solver.
  - split_and!; [|done|].
    + eapply rtc_l; [by eexists|done].
    + rewrite <-app_assoc in Hids'. unfold subscription_hashes in *. by rewrite <-omap_app in Hids'.
Qed.

Lemma ids_from_new used id max : ids_from used (chat_world_new id max).
Proof. intros i s Hi. simpl in Hi. by rewrite lookup_empty in Hi. Qed.

Lemma chat_run_moves id max ls w :
  NoDup (random <$> subscription_hashes ls) → chat_run (chat_world_new id max) ls = Some w →
  rtc some_move (chat_world_new id max) w ∧ chat_inv w.
Proof.
  intros Hnd Hr. destruct (chat_run_moves_from [] ls _ _ (chat_inv_new id max) Hnd
    (ids_from_new _ _ _) Hr) as (? & ? & _). done.
Qed.

(** Two runs in a row. *)
Lemma chat_run_moves_2 id max ls1 ls2 w1 w2 :
  NoDup (random <$> subscription_hashes (ls1 ++ ls2)) →
  chat_run (chat_world_new id max) ls1 = Some w1 → chat_run w1 ls2 = Some w2 →
  chat_inv w1 ∧ rtc some_move (chat_world_new id max) w1 ∧ rtc some_move w1 w2.
Proof.
  unfold subscription_hashes. rewrite omap_app. intros Hnd H1 H2.
  destruct (chat_run_moves_from [] ls1 _ w1 (chat_inv_new id max)) as (Hm1 & Hinv1 & Hids); try done.
  { simpl. rewrite fmap_app in Hnd. by apply NoDup_app in Hnd as (? & _). }
  destruct (chat_run_moves_from _ ls2 _ w2 Hinv1 Hnd Hids H2) as (? & _). done.
Qed.

Lemma chat_run_app w ls1 ls2 :
  chat_run w (ls1 ++ ls2) = w1 ← chat_run w ls1; chat_run w1 ls2.
Proof.
  revert w. induction ls1 as [|l ls1 IH]; intros w; simpl; [done|].
  destruct (chat_step w l); simpl; [apply IH|done].
Qed.

(** Induction over a schedule, its steps seen as moves. *)
Lemma chat_run_ind id max (P : list ChatLabel → ChatWorld → Prop) ls w :
  P [] (chat_world_new id max) →
  (∀ ls l w w', chat_inv w → moves w (event_of l) w' → P ls w → P (ls ++ [l]) w') →
  NoDup (random <$> subscription_hashes ls) → chat_run (chat_world_new id max) ls = Some w →
  P ls w.
Proof.
  intros Hnil Hstep. revert w. induction ls as [|l ls IH] using rev_ind; intros w Hnd.
  { by intros [= <-]. }
  rewrite chat_run_app. intros (w1 & Hr1 & Hr)%bind_Some. simpl in Hr.
  apply bind_Some in Hr as (w2 & Hs & [= <-]).
  pose proof Hnd as Hnd'. unfold subscription_hashes in Hnd. rewrite omap_app, fmap_app in Hnd.
  apply NoDup_app in Hnd as (Hnd1 & Hd & _).
  destruct (chat_run_moves_from [] ls _ w1 (chat_inv_new id max) Hnd1 (ids_from_new _ _ _) Hr1)
    as (_ & Hinv & Hids).
  apply Hstep with w1; [done| |by apply IH].
  apply chat_step_moves; [done| |done]. intros i Eid j s Hj E.
  destruct (Hids _ _ Hj) as (h & Hh & Eh). destruct l as [|t hash| | | | | | | | | |]; try done.
  injection Eid as <-. rewrite Eh in E. apply new_v4_inj in E.
  apply (Hd (random h)); [by apply list_elem_of_fmap_2|]. csimpl. rewrite E. set_solver.
Qed.

(** Induction over the moves of a run, under the invariant. *)
Lemma some_move_ind (P : ChatWorld → Prop) w w' :
  chat_inv w → rtc some_move w w' → P w →
  (∀ w1 o w2, chat_inv w1 → moves w1 o w2 → P w1 → P w2) → P w'.
Proof.
  intros Hinv Hr Hp Hstep. induction Hr as [|w1 w2 w3 [o Hm] _ IH]; [done|].
  apply IH; [by eapply moves_inv|by eapply Hstep].
Qed.

Lemma some_moves_inv w w' : chat_inv w → rtc some_move w w' → chat_inv w'.
Proof.
  intros Hinv Hr. induction Hr as [|w1 w2 w3 [o Hm] _ IH]; [done|].
  apply IH. by eapply moves_inv.
Qed.
End Moves.
