(* ===== verification/ChatBoard.v ===== *)
(** * The chat server as a message board

    An atomic specification of what [ChatState] is for: a log of messages, each
    published once to everybody who is subscribed at that moment.  The
    interleaved server of [ChatServer], with its locks, its forwarding tasks and
    its bounded queues, refines it. *)
From S2P Require Import Prelude Tokio ChatPb ChatServer ChatMoves.

(** ** The board *)

(** A subscriber: whether new messages are published to it, whether its client
    went away; what it is still due, what it received, in order, what was lost
    on the way to a client that left, what it missed because the sender's call
    was cancelled, and all that was published to it. *)
Record Member := MkMember {
  mb_joined : bool;
  mb_gone : bool;
  mb_due : list ChatMessage;
  mb_received : list ChatMessage;
  mb_lost : list ChatMessage;
  mb_missed : list ChatMessage;
  mb_published : list ChatMessage;
}.

(** The log; what is in it and not yet published; what was being published, or
    still to be, when its sender's call was cancelled; the subscribers. *)
Record Board := MkBoard {
  b_log : list ChatMessage;
  b_unpublished : list ChatMessage;
  b_cancelled : list ChatMessage;
  b_members : gmap nat Member;
}.

Definition board_new : Board := MkBoard [] [] [] ∅.
Definition member_new : Member := MkMember false false [] [] [] [] [].

Definition publish_member (m : ChatMessage) (mb : Member) : Member :=
  if mb_joined mb
  then MkMember true (mb_gone mb) (m :: mb_due mb) (mb_received mb) (mb_lost mb) (mb_missed mb)
         (m :: mb_published mb)
  else mb.

(** What happens to one subscriber.  Messages get lost, and a subscription
    ends, only when the client is gone. *)
Inductive member_step : Member → Member → Prop :=
  | ms_join g due rcv lost mis pub :
      member_step (MkMember false g due rcv lost mis pub) (MkMember true g due rcv lost mis pub)
  | ms_part j due rcv lost mis pub :
      member_step (MkMember j true due rcv lost mis pub) (MkMember false true due rcv lost mis pub)
  | ms_leave j g due gone rest rcv lost mis pub : due ≡ₚ gone ++ rest →
      member_step (MkMember j g due rcv lost mis pub)
                  (MkMember j true rest rcv (gone ++ lost) mis pub)
  | ms_deliver j m due rest rcv lost mis pub : due ≡ₚ m :: rest →
      member_step (MkMember j false due rcv lost mis pub)
                  (MkMember j false rest (rcv ++ [m]) lost mis pub)
  | ms_lose j m due rest rcv lost mis pub : due ≡ₚ m :: rest →
      member_step (MkMember j true due rcv lost mis pub)
                  (MkMember j true rest rcv (m :: lost) mis pub).

(** A subscriber does not get the rest of a call that was cancelled. *)
Inductive misses (m : ChatMessage) : Member → Member → Prop :=
  | misses_it j g due rest rcv lost mis pub : due ≡ₚ m :: rest →
      misses m (MkMember j g due rcv lost mis pub) (MkMember j g rest rcv lost (m :: mis) pub).

Inductive board_step (b : Board) : Board → Prop :=
  | bs_post m :
      board_step b (MkBoard (b_log b ++ [m]) (m :: b_unpublished b) (b_cancelled b) (b_members b))
  | bs_publish m rest : b_unpublished b ≡ₚ m :: rest →
      board_step b (MkBoard (b_log b) rest (b_cancelled b) (publish_member m <$> b_members b))
  | bs_withhold m rest : b_unpublished b ≡ₚ m :: rest →
      board_step b (MkBoard (b_log b) rest (m :: b_cancelled b) (b_members b))
  | bs_cancel m ms :
      (∀ i, option_Forall2 (λ mb mb', mb' = mb ∨ misses m mb mb') (b_members b !! i) (ms !! i)) →
      board_step b (MkBoard (b_log b) (b_unpublished b) (m :: b_cancelled b) ms)
  | bs_open i : b_members b !! i = None →
      board_step b (MkBoard (b_log b) (b_unpublished b) (b_cancelled b)
                      (<[i := member_new]> (b_members b)))
  | bs_member i mb mb' : b_members b !! i = Some mb → member_step mb mb' →
      board_step b (MkBoard (b_log b) (b_unpublished b) (b_cancelled b)
                      (<[i := mb']> (b_members b))).

(** Nothing is received that was not published, or twice; nothing is lost while
    the client is there; and a client misses only what was cancelled. *)
Record member_ok (b : Board) (mb : Member) : Prop := {
  mo_published :
    mb_received mb ++ mb_due mb ++ mb_lost mb ++ mb_missed mb ≡ₚ mb_published mb;
  mo_log : b_unpublished b ++ mb_published mb ⊆+ b_log b;
  mo_lost : mb_gone mb = false → mb_lost mb = [];
  mo_missed : mb_missed mb ⊆+ b_cancelled b;
}.
Definition board_ok (b : Board) : Prop :=
  b_unpublished b ⊆+ b_log b ∧ map_Forall (λ _, member_ok b) (b_members b).

Lemma member_step_ok b mb mb' : member_ok b mb → member_step mb mb' → member_ok b mb'.
Proof.
  intros [Hp Hl Hg Hm]. destruct 1 as
    [| |j g due gone rest rcv lost mis pub Hd|j m due rest rcv lost mis pub Hd
    |j m due rest rcv lost mis pub Hd];
    split; simpl in *; try done; rewrite <-Hp, Hd; solve_Permutation.
Qed.

Lemma misses_ok b m mb mb' b' :
  member_ok b mb → misses m mb mb' → b_log b' = b_log b → b_unpublished b' = b_unpublished b →
  b_cancelled b' = m :: b_cancelled b → member_ok b' mb'.
Proof.
  intros [Hp Hl Hg Hm]. destruct 1 as [j g due rest rcv lost mis pub Hd]. intros El Eu Ec.
  split; simpl in *; rewrite ?El, ?Eu, ?Ec; try done.
  - rewrite <-Hp, Hd. solve_Permutation.
  - by apply submseteq_skip.
Qed.

Lemma member_ok_weaken b b' mb :
  member_ok b mb → b_log b ⊆+ b_log b' → b_unpublished b' ⊆+ b_unpublished b →
  b_cancelled b ⊆+ b_cancelled b' → member_ok b' mb.
Proof.
  intros [Hp Hl Hg Hm] El Eu Ec. split; [done| |done|by etrans].
  etrans; [|exact El]. etrans; [|exact Hl]. by apply submseteq_app.
Qed.

Lemma board_step_ok b b' : board_ok b → board_step b b' → board_ok b'.
Proof.
  intros [Hu Hm] Hs. destruct Hs as [m|m rest Hr|m rest Hr|m ms Hms|i Hi|i mb mb' Hi Hs];
    split; simpl; try done.
  - rewrite (Permutation_app_comm (b_log b)). by apply submseteq_skip.
  - intros i mb [Hp Hl Hg Hc]%Hm. split; [done| |done|done]. simpl.
    rewrite (Permutation_app_comm (b_log b)). by apply submseteq_skip.
  - etrans; [|exact Hu]. rewrite Hr. by apply submseteq_cons.
  - intros i mb (mb0 & <- & Hi)%lookup_fmap_Some. destruct (Hm _ _ Hi) as [Hp Hl Hg Hc].
    rewrite Hr in Hl. unfold publish_member. destruct mb0 as [[] g due rcv lost mis pub]; simpl in *.
    + split; simpl in *; [|by rewrite <-Permutation_middle|done|done].
      rewrite <-Hp. solve_Permutation.
    + split; simpl in *; [done| |done|done]. etrans; [|exact Hl]. by apply submseteq_cons.
  - etrans; [|exact Hu]. rewrite Hr. by apply submseteq_cons.
  - intros i mb Hi%Hm. eapply member_ok_weaken; [exact Hi|done| |by apply submseteq_cons].
    simpl. rewrite Hr. by apply submseteq_cons.
  - intros i mb' Hi. specialize (Hms i). rewrite Hi in Hms.
    inversion Hms as [mb ? [->|Hmis] E|]; subst; symmetry in E; apply Hm in E.
    + eapply member_ok_weaken; [exact E|done|done|by apply submseteq_cons].
    + by eapply misses_ok.
  - apply map_Forall_insert; [done|]. split; [|intros i' mb' Hi'%Hm; by destruct Hi'].
    split; simpl; [done| |done|apply submseteq_nil_l]. by rewrite app_nil_r.
  - apply map_Forall_insert_2; [|intros i' mb0 Hi'%Hm; by destruct Hi'].
    destruct (member_step_ok b mb mb'); [by eapply Hm|done|]. by split.
Qed.

Lemma board_steps_ok b b' : board_ok b → rtc board_step b b' → board_ok b'.
Proof. intros Hok Hr. induction Hr; [done|]. eauto using board_step_ok. Qed.

Lemma board_new_ok : board_ok board_new.
Proof. by split. Qed.

(** ** Messages held by the tasks *)

Section Bag.
Context {A B : Type} (f : A → list B).

(** All that the values of a map hold, in no particular order. *)
Definition bag (ts : gmap nat A) : list B := map_to_list ts ≫= λ p, f p.2.

Lemma bag_fresh ts t k : ts !! t = None → bag (<[t := k]> ts) ≡ₚ f k ++ bag ts.
Proof. intros Ht. unfold bag. by rewrite map_to_list_insert. Qed.

Lemma bag_delete ts t k : ts !! t = Some k → bag ts ≡ₚ f k ++ bag (delete t ts).
Proof.
  intros Ht. rewrite <-(insert_delete_id ts t k) at 1 by done.
  by rewrite bag_fresh by apply lookup_delete_eq.
Qed.

Lemma bag_update ts t k : bag (<[t := k]> ts) ≡ₚ f k ++ bag (delete t ts).
Proof.
  rewrite <-insert_delete_eq. by rewrite bag_fresh by apply lookup_delete_eq.
Qed.

(** A value that holds the same can be replaced. *)
Lemma bag_same ts t k k' : ts !! t = Some k → f k' ≡ₚ f k → bag (<[t := k']> ts) ≡ₚ bag ts.
Proof. intros Ht E. by rewrite bag_update, (bag_delete ts t k Ht), E. Qed.
Lemma bag_nil ts t k : ts !! t = None → f k = [] → bag (<[t := k]> ts) ≡ₚ bag ts.
Proof. intros Ht E. by rewrite bag_fresh, E. Qed.
End Bag.

(** ** The refinement relation *)

Section Refinement.
Context `{!Mpsc, !MpscLaws}.

(** In the log and not yet published. *)
Definition posted (k : Task) : list ChatMessage :=
  match task_am k with Some (m, AmRead) => [m] | _ => [] end.
(** Published, and the handler is still to send it to subscription [i]. *)
Definition owed (i : nat) (k : Task) : list ChatMessage :=
  match task_am k with
  | Some (m, AmSend todo) => if decide (i ∈ snd <$> todo) then [m] else []
  | _ => []
  end.
(** In the log when its handler was dropped, before it had been sent to all. *)
Definition cancelled (k : Task) : list ChatMessage :=
  match k with
  | TSend m (SendCancelled (Some AmRead)) | TSend m (SendCancelled (Some (AmSend _))) => [m]
  | _ => []
  end.

(** Between the queue of a subscription and its client. *)
Definition in_hand (pc : FwdPc) : list ChatMessage :=
  match pc with FwdSend r => option_list (sub_message r) | _ => [] end.
Definition pipeline (s : Subscription) : list ChatMessage :=
  omap sub_message (queued (sub_out s)) ++ in_hand (sub_fwd s) ++ queued (sub_rx s).
(** What is there for a client that left is on its way to nobody. *)
Definition on_way (s : Subscription) : list ChatMessage :=
  if rx_closed (sub_out s) then [] else pipeline s.
Definition received (s : Subscription) : list ChatMessage := omap sub_message (sub_received s).

Record member_refines (w : ChatWorld) (i : nat) (s : Subscription) (mb : Member) : Prop := {
  mr_joined : mb_joined mb = true ↔ subscribers (cw_state w) !! sub_id s = Some i;
  mr_gone : mb_gone mb = rx_closed (sub_out s);
  mr_received : mb_received mb = received s;
  mr_due : mb_due mb ≡ₚ on_way s ++ bag (owed i) (cw_tasks w);
}.

Record refines (w : ChatWorld) (b : Board) : Prop := {
  rf_log : b_log b = messages (cw_state w);
  rf_unpublished : b_unpublished b ≡ₚ bag posted (cw_tasks w);
  rf_cancelled : b_cancelled b ≡ₚ bag cancelled (cw_tasks w);
  rf_members i : option_Forall2 (member_refines w i) (cw_subs w !! i) (b_members b !! i);
  rf_nobody i : cw_subs w !! i = None → bag (owed i) (cw_tasks w) ≡ₚ [];
}.

Lemma refines_new id max : refines (chat_world_new id max) board_new.
Proof. split; simpl; [done|done|done| |done]. intros i. rewrite !lookup_empty. constructor. Qed.

(** The tasks of two worlds hold the same. *)
Record same_bags (ts ts' : gmap nat Task) : Prop := {
  sb_posted : bag posted ts' ≡ₚ bag posted ts;
  sb_cancelled : bag cancelled ts' ≡ₚ bag cancelled ts;
  sb_owed i : bag (owed i) ts' ≡ₚ bag (owed i) ts;
}.
Lemma same_bags_refl ts : same_bags ts ts.
Proof. by split. Qed.
Lemma same_bags_task (ts : gmap nat Task) t k k' :
  ts !! t = Some k → posted k' = posted k → cancelled k' = cancelled k →
  (∀ i, owed i k' = owed i k) → same_bags ts (<[t := k']> ts).
Proof. intros Ht Ep Ec Eo. split; [..|intros i]; apply (bag_same _ _ _ k); by rewrite ?Ep, ?Ec, ?Eo. Qed.
Lemma same_bags_fresh (ts : gmap nat Task) t k' :
  ts !! t = None → posted k' = [] → cancelled k' = [] → (∀ i, owed i k' = []) →
  same_bags ts (<[t := k']> ts).
Proof. intros Ht Ep Ec Eo. split; [..|intros i]; by apply bag_nil. Qed.

(** Steps that show neither in the log nor in what anybody holds. *)
Lemma refines_frame w w' b :
  refines w b → messages (cw_state w') = messages (cw_state w) →
  subscribers (cw_state w') = subscribers (cw_state w) → cw_subs w' = cw_subs w →
  same_bags (cw_tasks w) (cw_tasks w') → refines w' b.
Proof.
  intros [Hl Hu Hc Hm Hn] El Em Es [Ep Ec Eo]. split; [congruence|by rewrite Ep|by rewrite Ec| |].
  - intros i. rewrite Es. destruct (Hm i) as [s mb [Hj Hg Hr Hd]|]; constructor.
    split; rewrite ?Em, ?Eo; done.
  - intros i. rewrite Es, Eo. apply Hn.
Qed.

(** A task moves and nothing else; what it holds is the same. *)
Lemma refines_task w b t k k' st :
  refines w b → cw_tasks w !! t = Some k → posted k' = posted k → cancelled k' = cancelled k →
  (∀ i, owed i k' = owed i k) →
  messages st = messages (cw_state w) → subscribers st = subscribers (cw_state w) →
  refines (MkChatWorld st (<[t := k']> (cw_tasks w)) (cw_subs w)) b.
Proof.
  intros Hr Ht Ep Ec Eo El Em. apply (refines_frame w); simpl; try done.
  by eapply same_bags_task.
Qed.
Lemma refines_new_task w b t k' :
  refines w b → cw_tasks w !! t = None → posted k' = [] → cancelled k' = [] →
  (∀ i, owed i k' = []) → refines (set_task t k' w) b.
Proof. intros. apply (refines_frame w); simpl; try done. by apply same_bags_fresh. Qed.

(** One subscription moves, and its member with it; the map of subscribers may
    change where it speaks of that subscription. *)
Lemma refines_change w w' b i s s' mb mb' :
  refines w b → cw_subs w !! i = Some s → b_members b !! i = Some mb →
  cw_subs w' = <[i := s']> (cw_subs w) → messages (cw_state w') = messages (cw_state w) →
  (∀ j sj, j ≠ i → cw_subs w !! j = Some sj →
     subscribers (cw_state w') !! sub_id sj = Some j ↔
     subscribers (cw_state w) !! sub_id sj = Some j) →
  same_bags (cw_tasks w) (cw_tasks w') →
  member_refines w' i s' mb' →
  refines w' (MkBoard (b_log b) (b_unpublished b) (b_cancelled b) (<[i := mb']> (b_members b))).
Proof.
  intros [Hl Hu Hc Hm Hn] Hs Hb Es El Emap [Ep Ec Eo] Hr.
  split; simpl; [congruence|by rewrite Ep|by rewrite Ec| |].
  - intros j. rewrite Es. destruct (decide (j = i)) as [->|Hne].
    + rewrite !lookup_insert_eq. by constructor.
    + rewrite !lookup_insert_ne by done.
      pose proof (Hm j) as Hj. inversion Hj as [sj mbj [Hjj Hg Hrc Hd] E1 E2|]; constructor.
      split; rewrite ?Emap, ?Eo; done.
  - intros j. rewrite Es, Eo. intros [Hj _]%lookup_insert_None. by apply Hn.
Qed.

Lemma refines_set_sub w b i s s' mb mb' :
  refines w b → cw_subs w !! i = Some s → b_members b !! i = Some mb →
  member_refines w i s' mb' →
  refines (set_sub i s' w)
    (MkBoard (b_log b) (b_unpublished b) (b_cancelled b) (<[i := mb']> (b_members b))).
Proof.
  intros Hr Hs Hb [Hj Hg Hrc Hd].
  eapply refines_change; [exact Hr|done..|apply same_bags_refl|]. by split.
Qed.

Lemma refines_member w b i s :
  refines w b → cw_subs w !! i = Some s →
  ∃ mb, b_members b !! i = Some mb ∧ member_refines w i s mb.
Proof.
  intros Hr Hs. pose proof (rf_members _ _ Hr i) as Hm. rewrite Hs in Hm. inversion Hm; subst. eauto.
Qed.

(** *** Simulation *)

(** The board's answer to a move. *)
Definition simulated (w' : ChatWorld) (b : Board) : Prop :=
  ∃ b', rtc board_step b b' ∧ refines w' b'.

Lemma simulated_stutter w' b : refines w' b → simulated w' b.
Proof. exists b. by split; [apply rtc_refl|]. Qed.

(** A subscription moves as its member does, or stays the same to the board. *)
Lemma simulated_set_sub w b i s s' mb mb' :
  refines w b → cw_subs w !! i = Some s → b_members b !! i = Some mb →
  mb' = mb ∨ member_step mb mb' → member_refines w i s' mb' → simulated (set_sub i s' w) b.
Proof.
  intros Hr Hs Hb Hst Hm'.
  pose proof (refines_set_sub _ _ _ _ _ _ _ Hr Hs Hb Hm') as Hr'. destruct Hst as [->|Hst].
  - apply simulated_stutter. by rewrite insert_id in Hr'; [destruct b|].
  - eexists. split; [|exact Hr']. by apply rtc_once, bs_member with mb.
Qed.

Lemma sub_move_simulated w b i s s' :
  refines w b → cw_subs w !! i = Some s → sub_moves w i s s' → simulated (set_sub i s' w) b.
Proof.
  intros Hr Hs Hm. destruct (refines_member _ _ _ _ Hr Hs) as (mb & Hb & Hmr).
  destruct mb as [j g due rcv lost mis pub]. destruct Hmr as [Hj Hg Hrc Hd]; simpl in *.
  unfold on_way in Hd.
  destruct Hm as [m rx Ef Hq Hcap Hc|Ef Hq Ha|r out Ef Hc Hq Hc'|r Ef Hc|r out Ht Hq Hc Hc'|out Ht Hq Hc].
  - eapply simulated_set_sub; [done..|by left|]. split; simpl; [done..|].
    rewrite Hd. unfold on_way, pipeline. simpl. by rewrite Ef, Hq.
  - eapply simulated_set_sub; [done..|by left|]. split; simpl; [done..|].
    rewrite Hd. unfold on_way, pipeline. simpl. by rewrite Ef, Hq.
  - eapply simulated_set_sub; [done..|by left|]. split; simpl; [done|congruence|done|].
    rewrite Hd. unfold on_way, pipeline. simpl.
    rewrite Hc, Hc', Ef, Hq, omap_app, <-!app_assoc. simpl. by destruct (sub_message r).
  - eapply simulated_set_sub; [done..|by left|]. split; simpl; [done..|].
    rewrite Hd. unfold on_way. simpl. by rewrite Hc.
  - rewrite Hc in Hg. subst g. rewrite Hc in Hd. unfold pipeline in Hd.
    rewrite Hq in Hd. simpl in Hd. destruct (sub_message r) as [m|] eqn:Er; simpl in Hd.
    + eapply (simulated_set_sub _ _ _ _ _ _ (MkMember j false
        (on_way (MkSubscription (sub_id s) (sub_rx s) out (sub_fwd s) (sub_received s ++ [r])) ++
         bag (owed i) (cw_tasks w)) (rcv ++ [m]) lost mis pub)); [done..|right|].
      * apply ms_deliver. rewrite Hd. unfold on_way, pipeline. simpl. by rewrite Hc'.
      * split; simpl; [done|done| |done].
        unfold received. simpl. rewrite omap_app. simpl. rewrite Er. by f_equal.
    + eapply simulated_set_sub; [done..|by left|]. split; simpl; [done|congruence| |].
      * unfold received. simpl. rewrite omap_app. simpl. by rewrite Er, app_nil_r.
      * rewrite Hd. unfold on_way, pipeline. simpl. by rewrite Hc'.
  - eapply (simulated_set_sub _ _ _ _ _ _ (MkMember j true (bag (owed i) (cw_tasks w)) rcv
      ((if rx_closed (sub_out s) then [] else pipeline s) ++ lost) mis pub)); [done..|right|].
    + by apply ms_leave.
    + split; simpl; [done|done|done|]. unfold on_way. simpl. by rewrite Hc.
Qed.

Lemma simulated_open w b t id rx out :
  chat_inv w → refines w b → cw_tasks w !! t = None → queued rx = [] → queued out = [] →
  rx_closed out = false →
  simulated (set_task t (TSubscribe SubInsert)
    (set_sub t (MkSubscription id rx out FwdRecv []) w)) b.
Proof.
  intros Hinv [Hl Hu Hcn Hm Hn] Ht Hq Hqo Hco.
  assert (Hnone : cw_subs w !! t = None).
  { destruct (cw_subs w !! t) as [s|] eqn:E; [|done].
    destruct (ci_subs _ Hinv _ _ E) as (_ & _ & Hx). by rewrite Ht in Hx. }
  eexists. split; [apply rtc_once, (bs_open b t); by pose proof (Hm t) as Hx;
    rewrite Hnone in Hx; inversion Hx|].
  destruct (same_bags_fresh (cw_tasks w) t (TSubscribe SubInsert)) as [Ep Ec Eo]; [done..|].
  split; simpl; [done|by rewrite Ep|by rewrite Ec| |].
  - intros j. destruct (decide (j = t)) as [->|Hne].
    + rewrite !lookup_insert_eq. constructor. split; simpl; [|done|done|].
      * split; [done|]. intros Hid. destruct (ci_map _ Hinv _ _ Hid) as (? & ? & _). congruence.
      * rewrite Eo, (Hn t Hnone). unfold on_way, pipeline. simpl. by rewrite Hco, Hq, Hqo.
    + rewrite !lookup_insert_ne by done.
      pose proof (Hm j) as Hj. inversion Hj as [sj mbj [Hjj Hg Hrc Hd] E1 E2|]; constructor.
      split; simpl; rewrite ?Eo; done.
  - intros j [Hj _]%lookup_insert_None. rewrite Eo. by apply Hn.
Qed.

(** The task of [add_message], before and after. *)
Lemma am_next_am k m am next :
  task_am k = Some (m, am) →
  task_am (am_next k next) = pair m <$> next ∧ cancelled k = [] ∧ cancelled (am_next k next) = [].
Proof.
  intros Ham. destruct k as [m0 pc|pc|s]; simpl in *; [|done|].
  - destruct pc; try done. injection Ham as -> ->. by destruct next.
  - destruct (str_pc s); try done. injection Ham as -> ->. by destruct next.
Qed.

Lemma bag_cancelled_same w t k m am next :
  cw_tasks w !! t = Some k → task_am k = Some (m, am) →
  bag cancelled (<[t := am_next k next]> (cw_tasks w)) ≡ₚ bag cancelled (cw_tasks w).
Proof.
  intros Ht Ham. destruct (am_next_am k m am next Ham) as (_ & E & E').
  apply (bag_same _ _ _ k); [done|]. by rewrite E, E'.
Qed.

Lemma simulated_publish w b t k m order :
  chat_inv w → refines w b → cw_tasks w !! t = Some k → task_am k = Some (m, AmRead) →
  order ≡ₚ map_to_list (subscribers (cw_state w)) →
  simulated (set_task t (am_next k (Some (AmSend order)))
    (set_state (set_guards (λ g, {[t]} ∪ g)) w)) b.
Proof.
  intros Hinv [Hl Hu Hcn Hm Hn] Ht Ham Hp.
  pose proof (bag_cancelled_same w t k m _ (Some (AmSend order)) Ht Ham) as Ec.
  destruct (am_next_am k m AmRead (Some (AmSend order)) Ham) as (Ek' & _).
  set (k' := am_next k (Some (AmSend order))) in *.
  assert (Hin : ∀ i s, cw_subs w !! i = Some s →
    i ∈ snd <$> order ↔ subscribers (cw_state w) !! sub_id s = Some i).
  { intros i s Hs. rewrite list_elem_of_fmap. setoid_rewrite Hp. split.
    - intros ([id i'] & -> & Hid). apply elem_of_map_to_list in Hid. simpl in *.
      destruct (ci_map _ Hinv _ _ Hid) as (s' & Hs' & <- & _). by simplify_eq.
    - intros Hid. exists (sub_id s, i). by rewrite elem_of_map_to_list. }
  assert (Eo : ∀ i, bag (owed i) (<[t:=k']> (cw_tasks w)) ≡ₚ
    (if decide (i ∈ snd <$> order) then [m] else []) ++ bag (owed i) (cw_tasks w)).
  { intros i. rewrite bag_update, (bag_delete (owed i) _ _ _ Ht).
    unfold owed at 1 3. rewrite Ham, Ek'. done. }
  eexists. split; [apply rtc_once, (bs_publish b m (bag posted (<[t := k']> (cw_tasks w))))|].
  { rewrite Hu, (bag_delete posted _ _ _ Ht), bag_update. unfold posted at 1 3.
    by rewrite Ham, Ek'. }
  split; simpl; [done|done|by rewrite Ec| |].
  - intros i. rewrite lookup_fmap. pose proof (Hm i) as Hi.
    inversion Hi as [s mb [Hj Hg Hrc Hd] E1 E2|]; constructor. symmetry in E1.
    unfold publish_member. destruct mb as [[] g due rcv lost mis pub]; split; simpl in *;
      try done; rewrite Eo.
    + rewrite decide_True by (apply (Hin _ _ E1); tauto). simpl.
      by rewrite Hd, <-Permutation_middle.
    + rewrite decide_False; [done|]. rewrite (Hin _ _ E1), <-Hj. done.
  - intros i Hi. rewrite Eo, (Hn i Hi). rewrite decide_False; [done|].
    rewrite list_elem_of_fmap. intros ([id i'] & -> & Hid). rewrite Hp in Hid.
    apply elem_of_map_to_list in Hid. destruct (ci_map _ Hinv _ _ Hid) as (? & ? & _).
    simpl in *. congruence.
Qed.

(** The message a handler still owes to subscriptions. *)
Lemma owed_split w t k m todo i :
  cw_tasks w !! t = Some k → task_am k = Some (m, AmSend todo) →
  bag (owed i) (cw_tasks w) ≡ₚ
    (if decide (i ∈ snd <$> todo) then [m] else []) ++ bag (owed i) (delete t (cw_tasks w)).
Proof. intros Ht Ham. rewrite (bag_delete (owed i) _ _ _ Ht). unfold owed at 1. by rewrite Ham. Qed.

Lemma simulated_enqueue w b t k m id i todo s rx :
  chat_inv w → refines w b → cw_tasks w !! t = Some k →
  task_am k = Some (m, AmSend ((id, i) :: todo)) → cw_subs w !! i = Some s →
  queued rx = queued (sub_rx s) ++ [m] →
  simulated (set_task t (am_next k (Some (AmSend todo))) (set_sub i (with_rx rx s) w)) b.
Proof.
  intros Hinv Hr Ht Ham Hs Hq.
  pose proof (bag_cancelled_same w t k m _ (Some (AmSend todo)) Ht Ham) as Ec.
  destruct (am_next_am k m _ (Some (AmSend todo)) Ham) as (Ek' & _).
  set (k' := am_next k (Some (AmSend todo))) in *.
  assert (Hnd : i ∉ snd <$> todo).
  { assert (task_todo k = Some ((id, i) :: todo)) as Htodo by (unfold task_todo; by rewrite Ham).
    destruct (ci_todo _ Hinv _ _ _ Ht Htodo) as [Hnd _]. by apply NoDup_cons in Hnd as [? _]. }
  assert (Eo : ∀ j, (if decide (j = i) then [m] else []) ++
    bag (owed j) (<[t:=k']> (cw_tasks w)) ≡ₚ bag (owed j) (cw_tasks w)).
  { intros j. rewrite bag_update, (owed_split _ _ _ _ _ j Ht Ham), app_assoc. f_equiv.
    unfold owed. rewrite Ek'. csimpl. destruct (decide (j = i)) as [->|Hne].
    - rewrite (decide_False (P := i ∈ todo.*2)) by done. by rewrite decide_True by set_solver.
    - simpl. destruct (decide (j ∈ todo.*2)).
      + by rewrite decide_True by set_solver.
      + by rewrite decide_False by set_solver. }
  assert (Ep : bag posted (<[t:=k']> (cw_tasks w)) ≡ₚ bag posted (cw_tasks w)).
  { apply (bag_same _ _ _ k); [done|]. unfold posted. by rewrite Ek', Ham. }
  destruct (refines_member _ _ _ _ Hr Hs) as (mb & Hb & [Hj Hg Hrc Hd]).
  destruct Hr as [Hl Hu Hcn Hm Hn].
  assert (Hothers : ∀ mb' cs, b_log cs = b_log b → b_unpublished cs = b_unpublished b →
    b_cancelled cs = b_cancelled b → b_members cs = <[i := mb']> (b_members b) →
    member_refines (set_task t k' (set_sub i (with_rx rx s) w)) i (with_rx rx s) mb' →
    refines (set_task t k' (set_sub i (with_rx rx s) w)) cs).
  { intros mb' cs E1 E2 E3 E4 Hmb'. split; simpl; rewrite ?E1, ?E2, ?E3, ?E4;
      [done|by rewrite Ep|by rewrite Ec| |].
    - intros j. destruct (decide (j = i)) as [->|Hne].
      + rewrite !lookup_insert_eq. by constructor.
      + rewrite !lookup_insert_ne by done. specialize (Eo j). rewrite decide_False in Eo by done.
        pose proof (Hm j) as Hj'. inversion Hj' as [sj mbj [Hjj Hgj Hrcj Hdj] E5 E6|]; constructor.
        split; simpl; [done..|]. simpl in Eo. by rewrite Eo.
    - intros j [Hnj Hne]%lookup_insert_None. specialize (Eo j). rewrite decide_False in Eo by done.
      simpl in Eo. by rewrite Eo, Hn. }
  specialize (Eo i). rewrite decide_True in Eo by done.
  destruct mb as [jn g due rcv lost mis pub]; simpl in *. unfold on_way in Hd.
  destruct (rx_closed (sub_out s)) eqn:Hc.
  - subst g. eexists. split; [eapply rtc_once, bs_member; [exact Hb|apply (ms_lose _ m)]|].
    { rewrite Hd, <-Eo. simpl. reflexivity. }
    eapply Hothers; [done..|]. split; simpl; try done.
    unfold on_way. simpl. by rewrite Hc.
  - apply simulated_stutter. eapply (Hothers (MkMember jn g due rcv lost mis pub));
      [done..|by rewrite insert_id|]. split; simpl; try done; [congruence|].
    rewrite Hd, <-Eo. unfold on_way, pipeline. simpl. by rewrite Hc, Hq, <-!app_assoc.
Qed.

Lemma am_moves_simulated w b t k m am next w' :
  chat_inv w → refines w b → cw_tasks w !! t = Some k → task_am k = Some (m, am) →
  am_moves t m w am next w' → simulated (set_task t (am_next k next) w') b.
Proof.
  intros Hinv Hr Ht Ham Hm. pose proof (bag_cancelled_same w t k m am next Ht Ham) as Ec.
  destruct (am_next_am k m am next Ham) as (Ek' & Hcn & Hcn').
  destruct Hm as [|order Hp| |id i todo s rx Hs _ _ _ Hq].
  - destruct Hr as [Hl Hu Hc Hm Hn]. set (k' := am_next k (Some AmRead)) in *.
    eexists. split; [apply rtc_once, (bs_post b m)|].
    assert (Eo : ∀ i, bag (owed i) (<[t:=k']> (cw_tasks w)) ≡ₚ bag (owed i) (cw_tasks w)).
    { intros i. apply (bag_same _ _ _ k); [done|]. unfold owed. by rewrite Ek', Ham. }
    split; simpl; [by rewrite Hl| |by rewrite Ec| |].
    + rewrite Hu, bag_update, (bag_delete posted _ _ _ Ht). unfold posted at 1 3.
      by rewrite Ham, Ek'.
    + intros i. destruct (Hm i) as [s mb [Hj Hg Hrc Hd]|]; constructor.
      split; simpl; rewrite ?Eo; done.
    + intros i Hi. rewrite Eo. by apply Hn.
  - by eapply simulated_publish.
  - apply simulated_stutter, (refines_task w _ _ k); try done.
    + unfold posted. by rewrite Ek', Ham.
    + by rewrite Hcn, Hcn'.
    + intros i. unfold owed. rewrite Ek', Ham. by rewrite decide_False by set_solver.
  - by eapply simulated_enqueue.
Qed.

(** A handler of [send_message] is dropped: what is left to do is not done. *)
Lemma cancel_simulated w b t m am :
  chat_inv w → refines w b → cw_tasks w !! t = Some (TSend m (SendAdd am)) →
  simulated (set_task t (TSend m (SendCancelled (Some am)))
    (set_state (set_guards (λ g, g ∖ {[t]})) w)) b.
Proof.
  intros Hinv Hr Ht. set (k' := TSend m (SendCancelled (Some am))).
  destruct am as [| |todo].
  - apply simulated_stutter. by eapply (refines_task w).
  - destruct Hr as [Hl Hu Hc Hm Hn].
    assert (Eo : ∀ i, bag (owed i) (<[t:=k']> (cw_tasks w)) ≡ₚ bag (owed i) (cw_tasks w)).
    { intros i. by apply (bag_same _ _ _ (TSend m (SendAdd AmRead))). }
    eexists. split; [apply rtc_once, (bs_withhold b m (bag posted (<[t := k']> (cw_tasks w))))|].
    { by rewrite Hu, (bag_delete posted _ _ _ Ht), bag_update. }
    split; simpl; [done|done| | |].
    + by rewrite Hc, bag_update, (bag_delete cancelled _ _ _ Ht).
    + intros i. destruct (Hm i) as [s mb [Hj Hg Hrc Hd]|]; constructor.
      split; simpl; rewrite ?Eo; done.
    + intros i Hi. rewrite Eo. by apply Hn.
  - destruct Hr as [Hl Hu Hc Hm Hn].
    assert (Eo : ∀ i, bag (owed i) (cw_tasks w) ≡ₚ
      (if decide (i ∈ snd <$> todo) then [m] else []) ++ bag (owed i) (<[t:=k']> (cw_tasks w))).
    { intros i. by rewrite (owed_split _ _ _ m todo i Ht), bag_update. }
    set (due i := match cw_subs w !! i with
                  | Some s => on_way s ++ bag (owed i) (<[t:=k']> (cw_tasks w)) | None => [] end).
    set (miss i (mb : Member) :=
      if decide (i ∈ snd <$> todo)
      then MkMember (mb_joined mb) (mb_gone mb) (due i) (mb_received mb) (mb_lost mb)
             (m :: mb_missed mb) (mb_published mb)
      else mb).
    exists (MkBoard (b_log b) (b_unpublished b) (m :: b_cancelled b)
              (map_imap (λ i mb, Some (miss i mb)) (b_members b))). split.
    + apply rtc_once, bs_cancel. intros i. rewrite map_lookup_imap. pose proof (Hm i) as Hmi.
      inversion Hmi as [s mb [Hj Hg Hrc Hd] E1 E2|E1 E2]; simpl; constructor.
      unfold miss, due. rewrite <-E1. destruct (decide _) as [Hi|]; [right|by left].
      destruct mb as [j g d rcv lost mis pub]. simpl in *. constructor.
      rewrite Hd, Eo, decide_True by done. simpl. by rewrite <-Permutation_middle.
    + split; simpl; [done| | | |].
      * rewrite Hu. symmetry. by apply (bag_same _ _ _ (TSend m (SendAdd (AmSend todo)))).
      * by rewrite Hc, bag_update, (bag_delete cancelled _ _ _ Ht).
      * intros i. rewrite map_lookup_imap. pose proof (Hm i) as Hmi.
        inversion Hmi as [s mb [Hj Hg Hrc Hd] E1 E2|E1 E2]; simpl; constructor.
        unfold miss, due. rewrite <-E1. specialize (Eo i).
        destruct (decide _) as [Hi|]; split; simpl in *; try done. by rewrite Hd, Eo.
      * intros i Hi. specialize (Hn i Hi). rewrite Eo in Hn.
        apply Permutation_nil_r, app_eq_nil in Hn as [_ ->]. done.
Qed.

Lemma subscribe_bags (ts : gmap nat Task) t pc pc' :
  ts !! t = Some (TSubscribe pc) → same_bags ts (<[t := TSubscribe pc']> ts).
Proof. intros Ht. by eapply same_bags_task. Qed.

Lemma move_simulated w o w' b :
  chat_inv w → refines w b → moves w o w' → simulated w' b.
Proof.
  intros Hinv Hr. destruct 1 as [t m Ht _|t id rx out Ht Hid Hq Hcap Hc Hqo Hco|t out Ht _ _|
    t k m am next w' Ht Ham Hm|t m Ht|t s Ht Hs Hg|t s s' Ht Hm|i s s' Hs Hm|
    i s rx Hs Hf Hg Hq Hc|t m am Ht|t m Ht|t s out Ht Hs Hq Hc|].
  - by apply simulated_stutter, refines_new_task.
  - by apply simulated_open.
  - by apply simulated_stutter, refines_new_task.
  - by eapply am_moves_simulated.
  - apply simulated_stutter. eapply (refines_task w); try done;
      unfold count_request; simpl; by destruct (max_requests _); [case_match|].
  - destruct (refines_member _ _ _ _ Hr Hs) as (mb & Hb & [Hj Hgn Hrc Hd]).
    pose proof (subscribe_bags (cw_tasks w) t SubInsert SubDone Ht) as Hbags.
    destruct mb as [j g due rcv lost mis pub]. simpl in *.
    assert (j = false) as ->.
    { destruct j; [|done]. destruct (ci_map _ Hinv _ _ (proj1 Hj eq_refl)) as (? & _ & _ & _ & Hx).
      congruence. }
    eexists. split; [eapply rtc_once, bs_member; [exact Hb|apply ms_join]|].
    eapply refines_change; [exact Hr|exact Hs|exact Hb|..|exact Hbags|]; simpl; try done.
    + symmetry. by apply insert_id.
    + intros j sj Hne Hsj. rewrite lookup_insert_ne; [done|]. intros E. apply Hne.
      by eapply (ci_ids _ Hinv).
    + split; simpl; [|done|done|by rewrite (sb_owed _ _ Hbags)]. by rewrite lookup_insert_eq.
  - apply simulated_stutter. destruct (stream_moves_am _ _ _ Hm) as [E|[E1 E2]].
    + eapply (refines_task w); try done; intros; unfold posted, owed; by rewrite E.
    + eapply (refines_task w); try done; intros; unfold posted, owed; rewrite E1;
        destruct (task_am (TStream s')) as [[m am]|] eqn:E; try done; by rewrite (E2 _ _ eq_refl).
  - by eapply sub_move_simulated.
  - destruct (refines_member _ _ _ _ Hr Hs) as (mb & Hb & [Hj Hgn Hrc Hd]).
    destruct mb as [j g due rcv lost mis pub]. simpl in *.
    destruct (ci_subs _ Hinv _ _ Hs) as (_ & Hgone & _).
    rewrite Hgone in Hgn by auto. subst g.
    eexists. split; [eapply rtc_once, bs_member; [exact Hb|apply ms_part]|].
    eapply refines_change; [exact Hr|exact Hs|exact Hb|..|apply same_bags_refl|]; simpl; try done.
    + intros j' sj Hne Hsj. rewrite lookup_delete_ne; [done|]. intros E. apply Hne.
      by eapply (ci_ids _ Hinv).
    + split; simpl; [by rewrite lookup_delete_eq|by rewrite Hgone by auto|done|].
      rewrite Hd. unfold on_way. simpl. by rewrite Hgone by auto.
  - by apply cancel_simulated.
  - apply simulated_stutter. by eapply (refines_task w).
  - pose proof (subscribe_bags (cw_tasks w) t SubInsert SubCancelled Ht) as Hbags.
    destruct (refines_member _ _ _ _ Hr Hs) as (mb & Hb & [Hj Hgn Hrc Hd]).
    destruct mb as [j g due rcv lost mis pub]. simpl in *.
    eexists. split; [eapply rtc_once, bs_member;
      [exact Hb|apply (ms_leave _ _ _ (on_way s) (bag (owed t) (cw_tasks w))); exact Hd]|].
    eapply refines_change; [exact Hr|exact Hs|exact Hb|..|exact Hbags|]; simpl; try done.
    split; simpl; [done|done|done|]. rewrite (sb_owed _ _ Hbags). unfold on_way. simpl. by rewrite Hc.
  - apply simulated_stutter. by apply (refines_frame w).
Qed.

Lemma run_simulated w w' b :
  chat_inv w → refines w b → rtc some_move w w' →
  ∃ b', rtc board_step b b' ∧ refines w' b'.
Proof.
  intros Hinv Hr Hm. apply (some_move_ind (λ w', simulated w' b) w); [done..| |].
  - by apply simulated_stutter.
  - intros w1 o w2 Hinv1 Hm1 (b1 & Hb1 & Hr1).
    destruct (move_simulated _ _ _ _ Hinv1 Hr1 Hm1) as (b2 & Hb2 & Hr2).
    exists b2. split; [by etrans|done].
Qed.


End Refinement.

(** ** Concrete inputs *)

Module ChatBoardDemo.
Import ListChannel ChatDemo.

Definition demo_sub : Subscription :=
  default (MkSubscription "" (LChan [] 0 true) (LChan [] 0 true) FwdDone [])
    (cw_subs demo_end !! 0).


(** Client 0 has subscribed; the handler of the message is dropped after it took
    the read guard and before it sent to client 0. *)
Definition missing : list ChatLabel :=
  demo_subscribe ++ [ChatSend 1 demo_request 8; demo_step 1; demo_step 1; ChatCancel 1].
Definition demo_missed : ChatWorld := default demo_world (chat_run demo_world missing).
Definition missed_sub : Subscription :=
  default (MkSubscription "" (LChan [] 0 true) (LChan [] 0 true) FwdDone [])
    (cw_subs demo_missed !! 0).

End ChatBoardDemo.
