(* ===== verification/ChatDelivery.v ===== *)
(** * Delivery, and the stall

    What the clients of [ChatServer]'s server can rely on: an answered message
    is in the history and on its way to every subscriber, a chat stream answers
    each message in turn; and what a departed subscriber can do to everybody
    else. *)
From S2P Require Import Prelude Tokio ChatPb ChatServer ChatMoves ChatBoard.

(** ** An answered message is delivered *)

Section Delivery.
Context `{!Mpsc, !MpscLaws}.

(** All that subscription [i] was handed. *)
Definition handed (s : Subscription) : list ChatMessage := received s ++ pipeline s.

(** A connected subscription keeps what it was handed, and stays connected only
    if it was. *)
Lemma sub_moves_handed w i s s' :
  sub_moves w i s s' → rx_closed (sub_out s') = false →
  rx_closed (sub_out s) = false ∧ handed s ⊆ handed s'.
Proof.
  unfold handed, received, pipeline.
  destruct 1 as [m rx Ef Hq Hcap Hc|Ef Hq Ha|r out Ef Hc Hq Hc'|r Ef Hc|r out Ht Hq Hc Hc'|
    out Ht Hq Hc]; simpl; intros Hout; try congruence; (split; [done|]);
    rewrite ?Ef, ?Hq, ?omap_app; simpl; try set_solver.
  destruct (sub_message r); set_solver.
Qed.

Lemma evolves_handed w i s s' :
  sub_evolves w i s s' → rx_closed (sub_out s') = false →
  rx_closed (sub_out s) = false ∧ handed s ⊆ handed s'.
Proof.
  destruct 1 as [|s' Hm|m rx Hq|rx Hf Hg Hq|out _ Hq Hc]; simpl; intros Hout; try congruence.
  - done.
  - by apply (sub_moves_handed w i).
  - split; [done|]. unfold handed, received, pipeline. simpl. rewrite Hq. set_solver.
  - split; [done|]. unfold handed, received, pipeline. simpl. rewrite Hq, Hf. done.
Qed.

(** The map of subscribers keeps a connected subscription. *)
Lemma moves_stay_joined w o w' i s s' :
  chat_inv w → moves w o w' → cw_subs w !! i = Some s → cw_subs w' !! i = Some s' →
  rx_closed (sub_out s) = false →
  subscribers (cw_state w) !! sub_id s = Some i →
  subscribers (cw_state w') !! sub_id s' = Some i.
Proof.
  intros Hinv Hm Hs Hs' Hc Hj.
  destruct (moves_sub _ _ _ _ _ Hinv Hm Hs) as (s1 & Hs1 & He).
  assert (s1 = s') as -> by congruence. rewrite (evolves_id _ _ _ _ He).
  destruct Hm as [| | |t k m am next w' Ht Ham Hm|t m Ht|t s0 Ht Hs0 Hg| | |
    j s0 rx Hs0 Hf Hg Hq Hcl| | | |]; simpl in *; try done.
  - by destruct Hm.
  - unfold count_request. simpl. by destruct (max_requests _); [case_match|].
  - rewrite lookup_insert_ne; [done|]. intros E.
    assert (t = i) as -> by exact (ci_ids _ Hinv _ _ _ _ Hs0 Hs E).
    destruct (ci_map _ Hinv _ _ Hj) as (_ & _ & _ & _ & Hd). congruence.
  - rewrite lookup_delete_ne; [done|]. intros E.
    assert (j = i) as -> by exact (ci_ids _ Hinv _ _ _ _ Hs0 Hs E). simplify_eq.
    destruct (ci_subs _ Hinv _ _ Hs0) as (_ & Hgone & _). rewrite Hgone in Hc by auto. done.
Qed.

(** What subscription [i] got of the message of the [send_message] task [t]. *)
Definition got (i : nat) (s : Subscription) (k : option Task) : Prop :=
  match k with
  | Some (TSend m (SendAdd (AmSend todo))) => i ∈ snd <$> todo ∨ m ∈ handed s
  | Some (TSend m (SendCount | SendDone _)) => m ∈ handed s
  | _ => True
  end.
Definition delivering (i t : nat) (w : ChatWorld) : Prop :=
  ∃ s, cw_subs w !! i = Some s ∧
    (rx_closed (sub_out s) = false →
     subscribers (cw_state w) !! sub_id s = Some i ∧ got i s (cw_tasks w !! t)).

Lemma got_mono i s s' k : handed s ⊆ handed s' → got i s k → got i s' k.
Proof. intros Hh. destruct k as [[m [[| |todo]| | |]|pc|st]|]; simpl; set_solver. Qed.

Lemma moves_delivering w o w' i t :
  chat_inv w → moves w o w' → delivering i t w → delivering i t w'.
Proof.
  intros Hinv Hm (s & Hs & Hd).
  destruct (moves_sub _ _ _ _ _ Hinv Hm Hs) as (s' & Hs' & He). exists s'. split; [done|].
  intros Hc'. destruct (evolves_handed _ _ _ _ He Hc') as [Hc Hh].
  destruct (Hd Hc) as [Hj Hg]. split; [by eapply moves_stay_joined|].
  destruct (cw_tasks w' !! t) as [k'|] eqn:Hk'; [|done].
  destruct (moves_task _ _ _ _ _ Hm Hk') as [Hk|[[Hk Hnew]|(k & Hk & Hev)]].
  - rewrite Hk in Hg. by eapply got_mono.
  - by destruct Hnew.
  - rewrite Hk in Hg. destruct Hev as [k m am next w1 Ham Hmv ->|m| | |m am|m|]; try done.
    2: by eapply (got_mono i s s' (Some (TSend m SendCount))).
    destruct k as [m0 pc|pc|st]; simpl in Ham |- *; [|done|by destruct (str_pc st)].
    destruct pc as [am0| | |]; try done. injection Ham as -> ->.
    destruct Hmv as [|order Hp| |id j todo s0 rx Hs0 Hid Hmap Hd0 Hq]; simpl in *; [done| | |].
    + left. rewrite list_elem_of_fmap. exists (sub_id s, i). split; [done|].
      rewrite Hp. by apply elem_of_map_to_list.
    + destruct Hg as [Hg|Hg]; set_solver.
    + destruct Hg as [[->|Hg]%elem_of_cons|Hg]; [|by left|right; set_solver].
      right. rewrite lookup_insert_eq in Hs'. simplify_eq.
      unfold handed, pipeline. simpl. rewrite Hq. set_solver.
Qed.

(** C19: a client that subscribed, and stays, gets every message sent from then
    on: a [send_message] that starts after the subscription is in place and is
    answered has been handed to it, received or in its queues. *)
Theorem answered_send_delivered id max ls1 ls2 w1 w2 i s t m r s' :
  NoDup (random <$> subscription_hashes (ls1 ++ ls2)) →
  chat_run (chat_world_new id max) ls1 = Some w1 → chat_run w1 ls2 = Some w2 →
  cw_subs w1 !! i = Some s → subscribers (cw_state w1) !! sub_id s = Some i →
  cw_tasks w1 !! t = None → cw_tasks w2 !! t = Some (TSend m (SendDone r)) →
  cw_subs w2 !! i = Some s' → rx_closed (sub_out s') = false →
  m ∈ received s' ++ pipeline s'.
Proof.
  intros Hnd Hr1 Hr2 Hs Hj Ht Ht2 Hs' Hc.
  destruct (chat_run_moves_2 _ _ _ _ _ _ Hnd Hr1 Hr2) as (Hinv & _ & Hm).
  assert (delivering i t w2) as (s2 & Hs2 & Hd).
  { apply (some_move_ind (delivering i t) w1); [done..| |].
    - exists s. split; [done|]. intros _. by rewrite Ht.
    - intros w o w' Hinv' Hmv. by eapply moves_delivering. }
  assert (s2 = s') as -> by congruence. rewrite Ht2 in Hd. by destruct (Hd Hc).
Qed.
End Delivery.

(** ** The stall *)

Section Stall.
Context `{!Mpsc, !MpscLaws}.

(** The client of subscription [i] is gone and its forwarding task waits to
    remove it from the map, its queue is full, and a chat stream, whose task
    nobody cancels, is sending to it. *)
Definition stalled (i t : nat) (w : ChatWorld) : Prop :=
  (∃ s, cw_subs w !! i = Some s ∧ sub_fwd s = FwdRemove ∧
     capacity (sub_rx s) ≤ length (queued (sub_rx s))) ∧
  ∃ st m todo, cw_tasks w !! t = Some (TStream st) ∧ str_pc st = StAdd m (AmSend todo) ∧
    i ∈ snd <$> todo.

Lemma stalled_guard w i t : chat_inv w → stalled i t w → read_guards (cw_state w) ≠ ∅.
Proof.
  intros Hinv (_ & st & m & todo & Ht & Epc & _) E.
  assert (t ∈ read_guards (cw_state w)); [|set_solver].
  apply (ci_guards _ Hinv). exists (TStream st), todo. split; [done|].
  unfold task_todo. simpl. by rewrite Epc.
Qed.

Lemma stalled_map w i t :
  chat_inv w → stalled i t w → ∃ id, subscribers (cw_state w) !! id = Some i.
Proof.
  intros Hinv (_ & st & m & todo & Ht & Epc & Hin).
  apply list_elem_of_fmap in Hin as ([id i'] & -> & Hin).
  destruct (ci_todo _ Hinv _ _ todo Ht) as [_ Hmap]; [unfold task_todo; simpl; by rewrite Epc|].
  exists id. by apply (Hmap (id, i')).
Qed.

(** Nothing is sent to a stalled subscription. *)
Lemma stalled_no_send w i t u m id todo next w' :
  stalled i t w → am_moves u m w (AmSend ((id, i) :: todo)) next w' → False.
Proof. intros ((s & Hs & _ & Hl) & _) Hm. inversion Hm; simplify_eq. lia. Qed.

Lemma moves_stalled w o w' i t : chat_inv w → moves w o w' → stalled i t w → stalled i t w'.
Proof.
  intros Hinv Hm Hst. pose proof (stalled_guard _ _ _ Hinv Hst) as Hguard.
  pose proof Hst as [(s & Hs & Hf & Hl) (st & m & todo & Ht & Epc & Hin)]. split.
  - destruct (moves_sub _ _ _ _ _ Hinv Hm Hs) as (s' & Hs' & He). exists s'. split; [done|].
    destruct He as [|s' Hv|m' rx Hq Hcap Hlt|rx|out]; simpl; [done| |lia|done|done].
    by destruct Hv; simpl in *; try congruence.
  - destruct (moves_task_Some _ _ _ _ _ Hm Ht) as [k' Hk'].
    destruct (moves_task _ _ _ _ _ Hm Hk') as [Hk|[[Hk _]|(k & Hk & Hev)]];
      [rewrite Hk in Ht; simplify_eq; by exists st, m, todo|congruence|].
    rewrite Hk in Ht. simplify_eq.
    inversion Hev as [k0 m0 am next w1 Ham Hmv E1 E2 E3| | |s0 s1 Hsm| | |]; simplify_eq.
    + simpl in Ham, Hk'. rewrite Epc in Ham, Hk'. simplify_eq.
      destruct todo as [|[id j] todo]; [by apply elem_of_nil in Hin|].
      destruct (decide (j = i)) as [->|Hne]; [by destruct (stalled_no_send _ _ _ _ _ _ _ _ _ Hst Hmv)|].
      inversion Hmv; simplify_eq. exists (with_pc (StAdd m0 (AmSend todo)) st), m0, todo.
      split; [simpl; rewrite Epc; apply lookup_insert_eq|]. split; [done|].
      csimpl in Hin. set_solver.
    + destruct Hsm; simpl in *; try congruence; eexists _, m, todo; (split; [exact Hk'|done]).
Qed.

(** The tasks that need nothing more of subscription [i]. *)
Definition passed (i : nat) (k : Task) : Prop :=
  match k with
  | TSend _ (SendAdd (AmSend todo)) => i ∉ snd <$> todo
  | TSend _ (SendCount | SendDone _) => True
  | _ => False
  end.

Lemma moves_passed w o w' i t u k' :
  chat_inv w → moves w o w' → stalled i t w →
  cw_tasks w' !! u = Some k' →
  (passed i k' → ∃ k, cw_tasks w !! u = Some k ∧ passed i k) ∧
  (k' = TSubscribe SubDone → cw_tasks w !! u = Some (TSubscribe SubDone)).
Proof.
  intros Hinv Hm Hst Hk'.
  destruct (moves_task _ _ _ _ _ Hm Hk') as [Hk|[[Hk Hnew]|(k & Hk & Hev)]];
    [split; [by eauto|by intros ->]|by destruct Hnew; split|].
  pose proof (stalled_guard _ _ _ Hinv Hst) as Hguard.
  inversion Hev as [k0 m0 am next w1 Ham Hmv E1 E2 E3|m0| |s0 s1 Hsm| | |]; simplify_eq;
    (split; [|try done]); simpl; try done.
  - intros Hp. exists k. split; [done|].
    destruct k as [m1 pc|pc|st]; simpl in Ham, Hp |- *; [|done|by destruct (str_pc st)].
    destruct pc as [am0| | |]; try done. simplify_eq.
    destruct Hmv as [|order Ho| |id j todo s rx Hs]; simpl in *; [done| |set_solver|].
    + destruct (stalled_map _ _ _ Hinv Hst) as [id Hid]. apply Hp.
      rewrite list_elem_of_fmap. exists (id, i). split; [done|]. rewrite Ho.
      by apply elem_of_map_to_list.
    + destruct Hst as [(s1 & Hs1 & _ & Hl) _]. intros [->|Hin]%elem_of_cons; [|done].
      simplify_eq. lia.
  - destruct k as [m1 pc|pc|st]; simpl; [done|by destruct pc|by destruct (str_pc st)].
  - intros _. by exists (TSend m0 SendCount).
Qed.

Lemma stalled_forever w w' i t :
  chat_inv w → stalled i t w → rtc some_move w w' →
  stalled i t w' ∧ ∀ u k', cw_tasks w' !! u = Some k' →
    (passed i k' → ∃ k, cw_tasks w !! u = Some k ∧ passed i k) ∧
    (k' = TSubscribe SubDone → cw_tasks w !! u = Some (TSubscribe SubDone)).
Proof.
  intros Hinv Hst Hr. induction Hr as [w|w w1 w2 [o Hm] Hr IH].
  - split; [done|]. intros u k' Hk. split; [by eauto|by intros ->].
  - destruct IH as [Hst2 Hback]; [by eapply moves_inv|by eapply moves_stalled|].
    split; [done|]. intros u k2 Hk2. destruct (Hback u k2 Hk2) as [Hp Hd]. split.
    + intros (k1 & Hk1 & Hp1)%Hp. by apply (moves_passed _ _ _ _ _ _ _ Hinv Hm Hst Hk1).
    + intros Hk1%Hd. by apply (moves_passed _ _ _ _ _ _ _ Hinv Hm Hst Hk1).
Qed.

(** C20: a client that subscribes, stops reading and goes away can stall the
    server for good.  Its forwarding task waits for the write guard of
    [subscribers] and no longer empties its queue; once that queue is full, a
    chat stream that sends to it keeps its read guard.  From then on, whatever
    happens: the stream never ends, the subscription is never removed, no
    new subscription is ever accepted, and no [send_message] that had not
    already passed the full queue is ever answered. *)
Theorem departed_subscriber_stalls id max ls1 ls2 w1 w2 i t :
  NoDup (random <$> subscription_hashes (ls1 ++ ls2)) →
  chat_run (chat_world_new id max) ls1 = Some w1 → chat_run w1 ls2 = Some w2 →
  stalled i t w1 →
  stalled i t w2 ∧
  (∀ u, cw_tasks w2 !! u = Some (TSubscribe SubDone) →
     cw_tasks w1 !! u = Some (TSubscribe SubDone)) ∧
  (∀ u m r, cw_tasks w2 !! u = Some (TSend m (SendDone r)) →
     ∃ k, cw_tasks w1 !! u = Some k ∧ passed i k).
Proof.
  intros Hnd Hr1 Hr2 Hst.
  destruct (chat_run_moves_2 _ _ _ _ _ _ Hnd Hr1 Hr2) as (Hinv & _ & Hm).
  destruct (stalled_forever _ _ _ _ Hinv Hst Hm) as [Hst2 Hback]. split_and!; [done| |].
  - intros u Hu. by apply (Hback _ _ Hu).
  - intros u m r Hu. by apply (Hback _ _ Hu).
Qed.
End Stall.

(** ** Chat streams *)

Section Streams.
Context `{!Mpsc, !MpscLaws}.

(** The reply to a message: echoed by the node to whoever it says sent it. *)
Definition echoes (node : string) (m : ChatMessage) (r : ChatStreamResponse) : Prop :=
  ∃ reply, csp_message r = Some reply ∧ sender_id reply = node ∧
    recipient_id reply = sender_id m ∧ content reply = String.append "Echo: " (content m).

(** What a stream answered so far: replies to its messages in turn, then an
    error if the client's side failed. *)
Definition answers (s : Stream) : list (Result Status ChatStreamResponse) :=
  str_received s ++ queued (str_out s).

Record stream_ok (node : string) (log : list ChatMessage) (s : Stream) : Prop := {
  so_answers : ∃ dn rs tail,
    answers s = (Ok <$> rs) ++ (Err <$> tail) ∧ Forall2 (echoes node) dn rs ∧
    dn `prefix_of` str_in s ∧ length tail ≤ 1 ∧
    match str_pc s with
    | StNext => tail = [] ∧ str_in s = dn
    | StAdd m _ | StReply m => tail = [] ∧ str_in s = dn ++ [m]
    | StSend (Ok r) last => tail = [] ∧ last = false ∧
        ∃ m, str_in s = dn ++ [m] ∧ echoes node m r
    | StSend (Err e) last => tail = [] ∧ last = true ∧ str_in s = dn
    | StDone => True
    end;
  (** the messages taken are in the history, in order *)
  so_log : match str_pc s with
    | StAdd m AmPush => ∃ before, str_in s = before ++ [m] ∧ before `sublist_of` log
    | _ => str_in s `sublist_of` log
    end;
}.

Lemma stream_ok_log node log m s : stream_ok node log s → stream_ok node (log ++ [m]) s.
Proof.
  intros [Ha Hl]. split; [done|].
  assert (Hs : ∀ l, l `sublist_of` log → l `sublist_of` log ++ [m]).
  { intros l Hsub. by apply sublist_inserts_r. }
  destruct (str_pc s) as [|m' [| |]| | |]; auto. destruct Hl as (bf & ? & ?). eauto.
Qed.

(** The history only grows, and the node keeps its name. *)
Lemma moves_state w o w' :
  moves w o w' → node_id (cw_state w') = node_id (cw_state w) ∧
  (messages (cw_state w') = messages (cw_state w) ∨
   ∃ m, messages (cw_state w') = messages (cw_state w) ++ [m]).
Proof.
  destruct 1 as [| | |t k m am next w' Ht Ham Hm| | | | | | | | |]; simpl; auto.
  - destruct Hm; simpl; eauto.
  - unfold count_request. simpl. by destruct (max_requests _); [case_match|]; auto.
Qed.

Lemma stream_ok_move st s s' :
  stream_ok (node_id st) (messages st) s → stream_moves st s s' →
  stream_ok (node_id st) (messages st) s'.
Proof.
  intros [(dn & rs & tail & Ha & Hf & Hp & Htl & Hpc) Hl].
  destruct 1 as [inp Epc|m hash now Epc|r last out Epc Hc Hq Hc'|r last Epc Hc|r out Hq Hc Hc'|
    out Hq Hc]; unfold answers in *.
  - rewrite Epc in Hpc, Hl. destruct Hpc as [-> Hin].
    destruct inp as [[req|e]|]; simpl.
    + destruct (csr_message req) as [m|].
      * split; simpl; [|by exists (str_in s)]. subst dn. exists (str_in s), rs, [].
        split_and!; try done. by apply prefix_app_r.
      * split; [|by rewrite Epc]. exists dn, rs, []. by rewrite Epc.
    + split; simpl; [|done]. by exists dn, rs, [].
    + split; simpl; [|done]. by exists dn, rs, [].
  - rewrite Epc in Hpc, Hl. destruct Hpc as [-> Hin]. split; simpl; [|done].
    exists dn, rs, []. split_and!; try done. exists m. split; [done|]. by eexists.
  - rewrite Epc in Hpc, Hl. destruct r as [r|e].
    + destruct Hpc as (-> & -> & m & Hin & He). split; simpl; [|done].
      exists (dn ++ [m]), (rs ++ [r]), []. unfold answers. simpl.
      split_and!; [|by apply Forall2_app; [|constructor]|by rewrite Hin|simpl; lia|done|done].
      rewrite Hq, app_assoc, Ha, !fmap_app. simpl. by rewrite !app_nil_r.
    + destruct Hpc as (-> & -> & Hin). split; simpl; [|done].
      exists dn, rs, [e]. unfold answers. simpl. split_and!; try done.
      rewrite Hq, app_assoc, Ha. simpl. by rewrite !app_nil_r.
  - split; simpl; [|by destruct (str_pc s) as [|? [| |]| | |]; simplify_eq].
    exists dn, rs, tail. by split_and!.
  - split; simpl; [|done]. exists dn, rs, tail. unfold answers. simpl.
    rewrite <-Ha, Hq, <-app_assoc. by split_and!.
  - split; simpl; [|done]. exists dn, rs, tail. unfold answers. simpl.
    rewrite <-Ha, Hq. by split_and!.
Qed.

Definition streams_ok (w : ChatWorld) : Prop :=
  ∀ t s, cw_tasks w !! t = Some (TStream s) →
    stream_ok (node_id (cw_state w)) (messages (cw_state w)) s.

Lemma moves_streams_ok w o w' : moves w o w' → streams_ok w → streams_ok w'.
Proof.
  intros Hm Hok t s' Ht. destruct (moves_state _ _ _ Hm) as [-> Hmsg].
  assert (Hlog : ∀ s, stream_ok (node_id (cw_state w)) (messages (cw_state w)) s →
    stream_ok (node_id (cw_state w)) (messages (cw_state w')) s).
  { intros s Hs. destruct Hmsg as [->|[m ->]]; [done|by apply stream_ok_log]. }
  destruct (moves_task _ _ _ _ _ Hm Ht) as [Hk|[[Hk Hnew]|(k & Hk & Hev)]].
  - by apply Hlog, Hok with t.
  - apply Hlog. inversion Hnew as [| |out Hq E]; subst. split; simpl; [|apply sublist_nil_l].
    exists [], [], []. unfold answers. simpl. rewrite Hq. split_and!; simpl; (done || lia || apply prefix_nil).
  - inversion Hev as [k0 m am next w1 Ham Hmv E1 E2 E3| | |s s1 Hsm E| | |]; simplify_eq.
    + destruct k as [|? |s]; [done..|]. simpl in Ham, E3. destruct (str_pc s) eqn:Epc; try done.
      injection Ham as -> ->. injection E3 as <-. specialize (Hok _ _ Hk).
      destruct Hok as [(dn & rs & tail & Ha & Hf & Hp & Htl & Hpc) Hl]. rewrite Epc in Hpc, Hl.
      split.
      * exists dn, rs, tail. split_and!; try done. by destruct next.
      * destruct Hmv; simpl; [|done..]. destruct Hl as (bf & -> & Hsub).
        by apply sublist_app.
    + rewrite E. eapply stream_ok_move; [|done]. by apply Hok with t.
Qed.

Lemma streams_ok_new id max : streams_ok (chat_world_new id max).
Proof. intros t s Ht. simpl in Ht. by rewrite lookup_empty in Ht. Qed.

Lemma stream_answers id max ls w t s :
  NoDup (random <$> subscription_hashes ls) → chat_run (chat_world_new id max) ls = Some w →
  cw_tasks w !! t = Some (TStream s) →
  ∃ dn rs tail,
    answers s = (Ok <$> rs) ++ (Err <$> tail) ∧ Forall2 (echoes id) dn rs ∧
    dn `prefix_of` str_in s ∧ length tail ≤ 1 ∧ (str_pc s = StNext → tail = [] ∧ dn = str_in s) ∧
    ∃ logged, logged `sublist_of` messages (cw_state w) ∧ logged `prefix_of` str_in s ∧
      length (str_in s) ≤ length logged + 1.
Proof.
  intros Hnd Hrun Ht. destruct (chat_run_moves _ _ _ _ Hnd Hrun) as [Hm _].
  assert (streams_ok w ∧ node_id (cw_state w) = id) as [Hok Hid].
  { apply (some_move_ind (λ w, streams_ok w ∧ node_id (cw_state w) = id) (chat_world_new id max));
      [apply chat_inv_new|done|split; [apply streams_ok_new|done]|].
    intros w1 o w2 _ Hmv [Hok Hid]. split; [by eapply moves_streams_ok|].
    destruct (moves_state _ _ _ Hmv) as [-> _]. done. }
  destruct (Hok _ _ Ht) as [(dn & rs & tail & Ha & Hf & Hp & Htl & Hpc) Hl]. rewrite Hid in Hf.
  exists dn, rs, tail. split_and!; try done.
  - intros Epc. rewrite Epc in Hpc. by destruct Hpc as [-> ->].
  - destruct (str_pc s) as [|m [| |]| | |];
      try (exists (str_in s); split_and!; [done|done|lia]).
    destruct Hl as (bf & -> & Hsub). exists bf. split_and!; [done|by apply prefix_app_r|].
    rewrite length_app. simpl. lia.
Qed.

(** A chat stream answers in turn: what it sent its client is the echo of a
    prefix of the messages it took, each addressed to the sender the message
    names, in order, and at most one error at the very end; while it waits for
    its next message none is unanswered; and every message it took is in the
    history, in order, but for one it is about to append. *)
Lemma chat_stream_echoes id max ls w t s :
  NoDup (random <$> subscription_hashes ls) → chat_run (chat_world_new id max) ls = Some w →
  cw_tasks w !! t = Some (TStream s) →
  ∃ dn rs tail,
    answers s = (Ok <$> rs) ++ (Err <$> tail) ∧ Forall2 (echoes id) dn rs ∧
    dn `prefix_of` str_in s ∧ length tail ≤ 1 ∧ (str_pc s = StNext → tail = [] ∧ dn = str_in s) ∧
    ∃ logged, logged `sublist_of` messages (cw_state w) ∧ logged `prefix_of` str_in s ∧
      length (str_in s) ≤ length logged + 1.
Proof. apply stream_answers. Qed.
End Streams.

(** ** The history, and the shutdown after [max_requests] *)

Section Answered.
Context `{!Mpsc, !MpscLaws}.

(** What is known of a [send_message]. *)
Definition send_ok (w : ChatWorld) (m : ChatMessage) (pc : SendPc) : Prop :=
  sender_id m = node_id (cw_state w) ∧
  match pc with
  | SendAdd AmPush | SendCancelled (Some AmPush) => True
  | SendDone r => m ∈ messages (cw_state w) ∧ r = MkSendMessageResponse true "" (msg_id m)
  | _ => m ∈ messages (cw_state w)
  end.
Definition sends_ok (w : ChatWorld) : Prop :=
  ∀ t m pc, cw_tasks w !! t = Some (TSend m pc) → send_ok w m pc.

Lemma send_ok_mono w w' m pc :
  node_id (cw_state w') = node_id (cw_state w) →
  (messages (cw_state w') = messages (cw_state w) ∨
   ∃ m, messages (cw_state w') = messages (cw_state w) ++ [m]) →
  send_ok w m pc → send_ok w' m pc.
Proof.
  unfold send_ok. intros -> Hmsg [Hid Hpc]. split; [done|].
  assert (Hin : m ∈ messages (cw_state w) → m ∈ messages (cw_state w')).
  { destruct Hmsg as [->|[m0 ->]]; set_solver. }
  destruct pc as [[| |]| |r|[[| |]|]]; naive_solver.
Qed.

Lemma moves_sends_ok w o w' : moves w o w' → sends_ok w → sends_ok w'.
Proof.
  intros Hm Hok t m pc Ht. destruct (moves_state _ _ _ Hm) as [Hid Hmsg].
  destruct (moves_task _ _ _ _ _ Hm Ht) as [Hk|[[Hk Hnew]|(k & Hk & Hev)]].
  - eapply send_ok_mono; [done..|by eapply Hok].
  - inversion Hnew; simplify_eq. split; [congruence|done].
  - inversion Hev as [k0 m0 am next w1 Ham Hmv E1 E2 E3|m0| | |m0 am|m0|]; simplify_eq;
      try specialize (Hok _ _ _ Hk);
      try by (eapply (send_ok_mono w) in Hok; [|done..]; destruct Hok as [Hs Hx]; split).
    destruct k as [m1 pc1|pc1|s1]; simpl in Ham, E3; [|done|by destruct (str_pc s1)].
    destruct pc1 as [am1| | |]; try done. simplify_eq. specialize (Hok _ _ _ Hk).
    destruct Hok as [Hs Hx]. split; [by rewrite Hid|].
    destruct Hmv as [|order Ho| |id i todo s rx Hsub]; simpl in *; [set_solver|done..].
Qed.

(** A [send_message] that is answered succeeded: the answer is a success and
    names the message's id, and the message is in the history, under the name
    of the node that stored it (not of the peer that sent it); a
    query with room for the whole history returns it to whoever asks for its
    recipient or for this node. *)
Lemma answered_send_in_history id max ls w t m r :
  NoDup (random <$> subscription_hashes ls) → chat_run (chat_world_new id max) ls = Some w →
  cw_tasks w !! t = Some (TSend m (SendDone r)) →
  r = MkSendMessageResponse true "" (msg_id m) ∧ sender_id m = id ∧
  m ∈ messages (cw_state w) ∧
  ∀ peer limit, peer = recipient_id m ∨ peer = id →
    (Z.of_nat (length (messages (cw_state w))) ≤ limit ≤ 2147483647)%Z →
    m ∈ history_messages (get_history (cw_state w) (MkGetHistoryRequest peer limit 0)).
Proof.
  intros Hnd Hrun Ht. destruct (chat_run_moves _ _ _ _ Hnd Hrun) as [Hmv _].
  assert (sends_ok w ∧ node_id (cw_state w) = id) as [Hok Hid].
  { apply (some_move_ind (λ w, sends_ok w ∧ node_id (cw_state w) = id) (chat_world_new id max));
      [apply chat_inv_new|done| |].
    - split; [|done]. intros t0 m0 pc0 Ht0. simpl in Ht0. by rewrite lookup_empty in Ht0.
    - intros w1 o w2 _ Hm [Hok Hid]. split; [by eapply moves_sends_ok|].
      destruct (moves_state _ _ _ Hm) as [-> _]. done. }
  destruct (Hok _ _ _ Ht) as [Hs [Hin ->]]. rewrite Hid in Hs. split_and!; try done.
  intros peer limit Hpeer Hl.
  destruct (get_history_page (cw_state w) (MkGetHistoryRequest peer limit 0)) as [-> _]; simpl.
  { unfold is_i32. simpl. lia. }
  { unfold i64_max. lia. }
  rewrite decide_True by lia. rewrite take_ge.
  - apply list_elem_of_filter. split; [|done]. unfold history_matches. simpl.
    rewrite andb_true_r, orb_true_iff, !bool_decide_eq_true. destruct Hpeer; subst; auto.
  - pose proof (length_filter (λ msg, history_matches (MkGetHistoryRequest peer limit 0) msg = true)
      (messages (cw_state w))). lia.
Qed.

(** A [send_message] keeps its message, and its answer. *)
Lemma moves_send w o w' t m pc :
  moves w o w' → cw_tasks w !! t = Some (TSend m pc) →
  ∃ pc', cw_tasks w' !! t = Some (TSend m pc') ∧ ∀ r, pc = SendDone r → pc' = pc.
Proof.
  intros Hm Ht. destruct (moves_task_Some _ _ _ _ _ Hm Ht) as [k' Hk'].
  destruct (moves_task _ _ _ _ _ Hm Hk') as [E|[[E _]|(k & E & Hev)]];
    [simplify_eq; by exists pc|congruence|].
  assert (k = TSend m pc) as -> by congruence. rewrite Hk'.
  inversion Hev as [k0 m0 am next w1 Ham _ _ E1|m0 E1| | |m0 am E1|m0 E1|]; simplify_eq/=;
    try by eexists.
  destruct pc as [am'| | |]; simplify_eq/=. by eexists.
Qed.
Lemma moves_send_rtc w w' t m pc :
  chat_inv w → rtc some_move w w' → cw_tasks w !! t = Some (TSend m pc) →
  ∃ pc', cw_tasks w' !! t = Some (TSend m pc') ∧ ∀ r, pc = SendDone r → pc' = pc.
Proof.
  intros Hinv Hr Ht.
  apply (some_move_ind (λ w', ∃ pc', cw_tasks w' !! t = Some (TSend m pc') ∧
    ∀ r, pc = SendDone r → pc' = pc) w); [done|done|by exists pc|].
  intros w1 o w2 _ Hm (pc1 & Ht1 & Hpc1).
  destruct (moves_send _ _ _ _ _ _ Hm Ht1) as (pc2 & Ht2 & Hpc2). exists pc2. split; [done|].
  intros r Er. rewrite (Hpc2 r); [by apply (Hpc1 r)|]. by rewrite (Hpc1 r).
Qed.

(** The node keeps its name. *)
Lemma run_node_id id max ls w :
  NoDup (random <$> subscription_hashes ls) → chat_run (chat_world_new id max) ls = Some w →
  node_id (cw_state w) = id.
Proof.
  intros Hnd Hrun. destruct (chat_run_moves _ _ _ _ Hnd Hrun) as [Hmv _].
  apply (some_move_ind (λ w, node_id (cw_state w) = id) (chat_world_new id max));
    [apply chat_inv_new|done|done|].
  intros w1 o w2 _ Hm <-. apply (moves_state _ _ _ Hm).
Qed.

(** The message of a call is that of its request. *)
Lemma run_send_task id max ls w t req hash :
  NoDup (random <$> subscription_hashes ls) → chat_run (chat_world_new id max) ls = Some w →
  ChatSend t req hash ∈ ls →
  ∃ pc, cw_tasks w !! t = Some (TSend (MkChatMessage (new_v4 hash) id (sm_recipient_id req)
    (sm_content req) (sm_timestamp req) (message_type_i32 MessageText)) pc).
Proof.
  intros Hnd Hrun (before & after & ->)%list_elem_of_split.
  rewrite cons_middle, app_assoc in Hnd, Hrun.
  rewrite chat_run_app in Hrun. apply bind_Some in Hrun as (wb & Hb & Hafter).
  destruct (chat_run_moves_2 _ _ _ _ _ _ Hnd Hb Hafter) as (Hinv & _ & Hmv).
  rewrite chat_run_app in Hb. apply bind_Some in Hb as (wa & Ha & Hst).
  cbn [chat_run] in Hst. apply bind_Some in Hst as (wb' & Hst & [= ->]).
  assert (node_id (cw_state wa) = id) as <-.
  { eapply (run_node_id id max before); [|exact Ha]. unfold subscription_hashes in *.
    rewrite !omap_app, !fmap_app in Hnd. by apply NoDup_app in Hnd as ((? & _)%NoDup_app & _). }
  simpl in Hst. destruct (fresh_task t wa); [|done]. injection Hst as <-.
  edestruct moves_send_rtc as (pc & Hpc & _); [exact Hinv|exact Hmv| |by exists pc].
  simpl. by rewrite lookup_insert_eq.
Qed.

(** The answered calls. *)
Definition answered (k : Task) : list unit :=
  match k with TSend _ (SendDone _) => [tt] | _ => [] end.
Definition answered_count (w : ChatWorld) : nat := length (bag answered (cw_tasks w)).
Definition shutdown_calls (ls : list ChatLabel) : nat :=
  length (filter (λ l, event_of l = ShutdownCalled) ls).
(** How many of the first [n] requests reached [max_requests]. *)
Definition at_max (max : option Z) (n : nat) : nat :=
  match max with Some max => S n - Nat.max 1 (Z.to_nat max) | None => 0 end.

Lemma answered_update w w' t k k' :
  cw_tasks w !! t = Some k → cw_tasks w' = <[t := k']> (cw_tasks w) →
  length (answered k') = length (answered k) → answered_count w' = answered_count w.
Proof.
  intros Hk Ew E. unfold answered_count. rewrite Ew.
  by rewrite bag_update, (bag_delete answered _ _ _ Hk), !length_app, E.
Qed.
Lemma answered_fresh w w' t k :
  cw_tasks w !! t = None → cw_tasks w' = <[t := k]> (cw_tasks w) → answered k = [] →
  answered_count w' = answered_count w.
Proof. intros Hk Ew E. unfold answered_count. by rewrite Ew, bag_fresh, E. Qed.

(** What a move does to the counter, and what that triggers. *)
Definition counter_step (w : ChatWorld) (o : ChatEvent) (w' : ChatWorld) : Prop :=
  max_requests (cw_state w') = max_requests (cw_state w) ∧
  ((answered_count w' = answered_count w ∧
    request_count (cw_state w') = request_count (cw_state w) ∧
    shutdown_tx (cw_state w') =
      (if decide (o = ShutdownCalled) then 1 else 0) + shutdown_tx (cw_state w)) ∨
   (answered_count w' = S (answered_count w) ∧ o = Internal ∧
    request_count (cw_state w') = request_count (count_request (cw_state w)) ∧
    shutdown_tx (cw_state w') = shutdown_tx (count_request (cw_state w)))).

Lemma count_request_max st : max_requests (count_request st) = max_requests st.
Proof. unfold count_request. simpl. by destruct (max_requests st) eqn:E; [case_match|]. Qed.

Lemma moves_counter w o w' : moves w o w' → counter_step w o w'.
Proof.
  destruct 1 as [t m Ht _|t id rx out Ht Hid Hq Hcap Hc Hqo Hco|t out Ht _ _|
    t k m am next w' Ht Ham Hm|t m Ht|t s Ht Hs Hg|t s s' Ht Hm|i s s' Hs Hm|
    i s rx Hs Hf Hg Hq Hc|t m am Ht|t m Ht|t s out Ht Hs Hq Hc|].
  5: { split; [apply count_request_max|]. right. split_and!; try done.
       unfold answered_count. simpl. by rewrite bag_update, (bag_delete answered _ _ _ Ht). }
  all: (split; [try done; by destruct Hm|left; split_and!; try done]); try by destruct Hm.
  1-3: by eapply answered_fresh.
  - eapply answered_update; [done|simpl; by rewrite (am_moves_tasks _ _ _ _ _ _ Hm)|].
    destruct k as [m0 pc|pc|s]; simpl in *; [|done|by destruct (str_pc s)].
    destruct pc; try done. by destruct next.
  - by eapply answered_update.
  - by eapply answered_update.
  - by eapply answered_update.
  - by eapply answered_update.
  - by eapply answered_update.
Qed.

(** The server asks to be shut down once for every [shutdown] call and once
    for every answered request from the [max_requests]-th on (from the first,
    if [max_requests] is zero), and never otherwise. *)
Lemma max_requests_shutdown id max ls w :
  NoDup (random <$> subscription_hashes ls) → chat_run (chat_world_new id max) ls = Some w →
  (Z.of_nat (answered_count w) ≤ u64_max)%Z →
  shutdown_tx (cw_state w) = shutdown_calls ls + at_max max (answered_count w).
Proof.
  intros Hnd Hrun Hlim.
  assert (max_requests (cw_state w) = max ∧
    ((Z.of_nat (answered_count w) ≤ u64_max)%Z →
     request_count (cw_state w) = Z.of_nat (answered_count w) ∧
     shutdown_tx (cw_state w) = shutdown_calls ls + at_max max (answered_count w))) as [_ HP];
    [|by apply HP].
  clear Hlim. revert Hrun. apply (chat_run_ind id max (λ ls w, max_requests (cw_state w) = max ∧
    ((Z.of_nat (answered_count w) ≤ u64_max)%Z →
     request_count (cw_state w) = Z.of_nat (answered_count w) ∧
     shutdown_tx (cw_state w) = shutdown_calls ls + at_max max (answered_count w)))); [| |done].
  { split; [done|]. intros _. split; [done|].
    change (answered_count (chat_world_new id max)) with 0. unfold at_max, shutdown_calls.
    destruct max; simpl; lia. }
  clear. intros ls l w w' _ Hm [Hmax HP].
  destruct (moves_counter _ _ _ Hm) as [Hmax' [(En & Ec & Es)|(En & Eo & Ec & Es)]];
    (split; [congruence|]); rewrite En, Ec, Es; intros Hlim; unfold shutdown_calls in *;
    rewrite filter_app, length_app.
  - destruct HP as [-> ->]; [done|]. split; [done|]. rewrite filter_cons. simpl.
    destruct (decide _); simpl; lia.
  - destruct HP as [HP1 HP2]; [lia|]. rewrite filter_cons_False by congruence. simpl.
    unfold count_request. simpl. rewrite HP1, Hmax.
    rewrite !u64_wrap_small by (unfold is_u64, u64_max in *; lia). unfold at_max in *.
    destruct max as [mx|]; simpl; [|split; [lia|by rewrite HP2]].
    destruct (mx <=? _)%Z eqn:E; breflect; simpl; rewrite HP2; split; lia.
Qed.
End Answered.

(** ** Concrete inputs *)

Module ChatDeliveryDemo.
Import ListChannel ChatDemo.

Definition demo_prefix : ChatWorld := default demo_world (chat_run demo_world demo_subscribe).
Definition demo_rest : list ChatLabel :=
  demo_send 1 ++ [ChatOpenStream 2] ++ demo_stream_message 2 ++ demo_take.
Definition demo_sub0 : Subscription :=
  default (MkSubscription "" (LChan [] 0 true) (LChan [] 0 true) FwdDone [])
    (cw_subs demo_prefix !! 0).
Definition demo_sub1 : Subscription := default demo_sub0 (cw_subs demo_end !! 0).
Definition demo_sent : ChatMessage := message_of_request (cw_state demo_world) (new_v4 8) demo_request.
Definition demo_answer : SendMessageResponse := MkSendMessageResponse true "" (new_v4 8).
Definition demo_stream : Stream :=
  match cw_tasks demo_end !! 2 with
  | Some (TStream s) => s
  | _ => MkStream [] (LChan [] 0 true) StDone []
  end.

Ltac evaluate :=
  first [apply (bool_decide_unpack _); vm_compute; exact I | vm_compute; reflexivity].

Lemma answered_send_delivered_witness : demo_sent ∈ received demo_sub1 ++ pipeline demo_sub1.
Proof.
  refine (answered_send_delivered demo_node (Some 2%Z) demo_subscribe demo_rest demo_prefix demo_end
    0 demo_sub0 1 demo_sent demo_answer demo_sub1 _ _ _ _ _ _ _ _ _); evaluate.
Defined.

(** Two answered requests reach a [max_requests] of 2. *)
Definition demo_two : ChatWorld :=
  default demo_world (chat_run demo_world (demo_labels ++ demo_send 3)).
(** *** The stall

    Client 0 never reads: 100 responses fill its stream, one is in the hands of
    the forwarding task and 100 messages fill its queue.  It goes away while the
    202nd message is being sent. *)
Definition stall_labels : list ChatLabel :=
  demo_subscribe ++ [ChatOpenStream 1] ++
  mjoin (replicate 100 (demo_stream_message 1 ++ [ChatForward 0; ChatForward 0])) ++
  demo_stream_message 1 ++ [ChatForward 0] ++
  mjoin (replicate 100 (demo_stream_message 1)) ++
  [ChatInput 1 (Some (Ok (MkChatStreamRequest (Some demo_chat))))] ++
  replicate 2 (demo_step 1) ++ [ChatLeave 0; ChatForward 0].
Definition stall_world : ChatWorld := default demo_world (chat_run demo_world stall_labels).
(** A later [send_message] hangs behind it. *)
Definition stall_rest : list ChatLabel := [ChatSend 2 demo_request 8; demo_step 2; demo_step 2].
Definition stall_end : ChatWorld := default demo_world (chat_run stall_world stall_rest).

Lemma departed_subscriber_stalls_witness : stalled 0 1 stall_world ∧ stalled 0 1 stall_end.
Proof.
  assert (stalled 0 1 stall_world) as Hst.
  { split.
    - destruct (cw_subs stall_world !! 0) as [s|] eqn:E; [|vm_compute in E; discriminate E].
      exists s. split; [reflexivity|]. vm_compute in E. injection E as <-.
      split; [reflexivity|]. apply Nat.leb_le. vm_compute. reflexivity.
    - destruct (cw_tasks stall_world !! 1) as [[| |s]|] eqn:E;
        [vm_compute in E; discriminate E..| |vm_compute in E; discriminate E].
      exists s, demo_chat, demo_order. split; [reflexivity|]. vm_compute in E. injection E as <-.
      split; [vm_compute; reflexivity|]. evaluate. }
  split; [exact Hst|].
  refine (proj1 (departed_subscriber_stalls demo_node (Some 2%Z) stall_labels stall_rest
    stall_world stall_end 0 1 _ _ _ Hst)); evaluate.
Defined.
End ChatDeliveryDemo.
