(* ===== verification/ChatNode.v ===== *)
(** * The chat node: services, transport and main loop together

    Models how [main] of [src/examples/chat/src/main.rs] wires the chat services
    into a transport, and how the node stops: the select over ctrl-c and the
    shutdown broadcast, and the transport's shutdown of [Lifecycle], over the
    chat server of [ChatServer].  tonic's graceful shutdown is a
    parameter.  The task that connects to another node, which can end the process,
    is [ChatMain]'s. *)
From S2P Require Import Prelude Tokio Iroh UserData Alpn Errors Client Server Lifecycle.
From S2P Require Import ChatPb ChatGrpc ChatServer ChatMoves ChatBoard ChatDelivery.

(** ** Calls reach their handlers *)

Section Wiring.
Context {EndpointId EndpointAddr PcError : Type}.
Context `{!Mpsc, !MpscLaws, !Postcard PcError (list bytes), !PostcardLaws PcError (list bytes)}.
Context `{!Base64, !Base64Laws, !UserDataOps, !UserDataLaws}.

(** The transport of [main]. *)
Definition chat_node_calls : list BuilderCall :=
  [CallAddRpc CHAT_SERVICE_NAME; CallAddRpc NODE_SERVICE_NAME].

(** C25: what a chat node serves.  Its transport routes the ALPN that each generated
    client dials to the service the client is for, in tonic's router just the
    two services are registered, the endpoint's user data names both and nothing
    else; and there each method of the client is answered by its handler. *)
Theorem chat_node_serves `{!Tonic} {T1 T2} (chat : GrpcServer T1) (node : GrpcServer T2) :
  match spawn (EndpointId := EndpointId) (PcError := PcError) (build chat_node_calls) with
  | None => False
  | Some (Err e) =>
      encode_alpns (service_to_alpn <$> [CHAT_SERVICE_NAME; NODE_SERVICE_NAME]) = Err e
  | Some (Ok t) =>
      tr_services t = [CHAT_SERVICE_NAME; NODE_SERVICE_NAME] ∧ NoDup (tr_routes t).*1 ∧
      (∀ name target, name ∈ tr_services t →
         (cb_alpn (iroh_connect (EndpointAddr := EndpointAddr) name target), name) ∈ tr_routes t) ∧
      (∀ ud, tr_user_data t = Some ud → ∀ name,
         user_data_has_service (PcError := PcError) ud name = true ↔
         name = CHAT_SERVICE_NAME ∨ name = NODE_SERVICE_NAME) ∧
      (∀ m, chat_service_call chat (gc_path (chat_client_call m)) =
         Handle m (gs_inner chat) (gc_kind (chat_client_call m)) (configured chat)) ∧
      (∀ m, node_service_call node (gc_path (node_client_call m)) =
         Handle m (gs_inner node) (gc_kind (node_client_call m)) (configured node))
  end.
Proof.
  pose proof (transport_spawn (EndpointId := EndpointId) (PcError := PcError) chat_node_calls) as Hsp.
  destruct (spawn (build chat_node_calls)) as [[t|e]|]; [|by destruct Hsp|done].
  destruct Hsp as (Hr & Hs & Hud & _), generated_agree as (Hnode & Hchat & _).
  rewrite Hr, Hs. split_and!; [done| | |intros ud Hu name|intros m|intros m].
  - apply (bool_decide_unpack _). by vm_compute.
  - intros name target Hn. apply list_elem_of_fmap. by exists name.
  - rewrite (Hud ud Hu). change (called_services chat_node_calls)
      with [CHAT_SERVICE_NAME; NODE_SERVICE_NAME]. set_solver.
  - by apply (Hchat T1 chat).
  - by apply (Hnode T2 node).
Qed.
End Wiring.

(** ** The running node *)

Section Node.
Context `{!Mpsc, !MpscLaws}.

(** A call is not over: its handler runs, or its response stream has an end that
    is yet to come and a client that is still there. *)
Definition call_open (w : ChatWorld) (t : nat) : bool :=
  match cw_tasks w !! t with
  | Some (TSend _ (SendAdd _ | SendCount)) | Some (TSubscribe SubInsert) => true
  | Some (TSubscribe SubDone) =>
      match cw_subs w !! t with
      | Some s => negb (rx_closed (sub_out s)) &&
          negb (match sub_fwd s with FwdDone => true | _ => false end &&
                bool_decide (queued (sub_out s) = []))
      | None => false
      end
  | Some (TStream s) => negb (rx_closed (str_out s)) &&
      negb (match str_pc s with StDone => true | _ => false end &&
            bool_decide (queued (str_out s) = []))
  | _ => false
  end.

(** [serve_with_incoming_shutdown] may return, once it was told to stop.  A
    graceful shutdown waits for the calls that are open. *)
Context (tonic_ends : ChatWorld → bool).
Definition tonic_waits : Prop := ∀ w t, call_open w t = true → tonic_ends w = false.

(** [main] from its [select!] on. *)
Inductive MainPc := MainSelect | MainShutdown | MainExit.
#[export] Instance MainPc_eq_dec : EqDecision MainPc.
Proof. solve_decision. Defined.

Record ChatNode := MkChatNode { cn_chat : ChatWorld; cn_life : Life; cn_main : MainPc }.

Definition chat_node_new {EndpointId} `{!UserDataOps} (id : string) (max : option Z)
  (t : Transport EndpointId) : ChatNode :=
  MkChatNode (chat_world_new id max) (life_new t) MainSelect.

Inductive NodeLabel :=
  | NodeChat (l : ChatLabel)   (** a step of the server or of its clients *)
  | NodeCtrlC
  | NodeSignalled              (** [shutdown_rx.recv()] *)
  | NodeGuard                  (** [transport_guard.shutdown()] goes on *)
  | NodeTonicEnd
  | NodeExit.

(** tonic hands over no new calls once it has ended. *)
Definition new_call (l : ChatLabel) : bool :=
  match l with ChatSend _ _ _ | ChatSubscribe _ _ | ChatOpenStream _ | NodeShutdown => true | _ => false end.

Definition begin_shutdown (w : ChatNode) : option ChatNode :=
  match cn_main w with
  | MainSelect =>
      life ← life_step (cn_life w) LifeShutdown; Some (MkChatNode (cn_chat w) life MainShutdown)
  | _ => None
  end.

(** tonic's server ends after the signal, when [tonic_ends] lets it; that it
    might end before, with an error the driver only logs, is part of [Lifecycle]'s
    steps and not of these. *)
Definition node_step (w : ChatNode) (l : NodeLabel) : option ChatNode :=
  match l with
  | NodeChat l =>
      if new_call l && negb (bool_decide (lf_tonic (cn_life w) = Some false)) then None
      else match cn_main w with
           | MainExit => None
           | _ => chat ← chat_step (cn_chat w) l; Some (MkChatNode chat (cn_life w) (cn_main w))
           end
  | NodeCtrlC => begin_shutdown w
  | NodeSignalled =>
      if 0 <? shutdown_tx (cw_state (cn_chat w)) then begin_shutdown w else None
  | NodeGuard =>
      life ← life_step (cn_life w) LifeGuard; Some (MkChatNode (cn_chat w) life (cn_main w))
  | NodeTonicEnd =>
      if lf_signal (cn_life w) && tonic_ends (cn_chat w) then
        life ← life_step (cn_life w) LifeTonicEnd; Some (MkChatNode (cn_chat w) life (cn_main w))
      else None
  | NodeExit =>
      match cn_main w, lf_guard (cn_life w) with
      | MainShutdown, GuardDone => Some (MkChatNode (cn_chat w) (cn_life w) MainExit)
      | _, _ => None
      end
  end.

Fixpoint node_run (w : ChatNode) (ls : list NodeLabel) : option ChatNode :=
  match ls with
  | [] => Some w
  | l :: ls => w ← node_step w l; node_run w ls
  end.

Definition node_chat_label (l : NodeLabel) : option ChatLabel :=
  match l with NodeChat l => Some l | _ => None end.

(** The chat server of a node's run runs the chat labels. *)
Lemma node_step_chat w l w' :
  node_step w l = Some w' →
  match node_chat_label l with
  | Some cl => chat_step (cn_chat w) cl = Some (cn_chat w') ∧ cn_life w' = cn_life w ∧
               cn_main w' = cn_main w
  | None => cn_chat w' = cn_chat w
  end.
Proof.
  destruct l as [l| | | | |]; simpl.
  - destruct (_ && _); [done|]. destruct (cn_main w); [| |done];
      by intros (c & Hc & [= <-])%bind_Some.
  - unfold begin_shutdown. destruct (cn_main w); [|done..]. by intros (? & _ & [= <-])%bind_Some.
  - destruct (_ <? _); [|done]. unfold begin_shutdown.
    destruct (cn_main w); [|done..]. by intros (? & _ & [= <-])%bind_Some.
  - by intros (? & _ & [= <-])%bind_Some.
  - destruct (_ && _); [|done]. by intros (? & _ & [= <-])%bind_Some.
  - destruct (cn_main w); [done| |done]. destruct (lf_guard (cn_life w)); try done. by intros [= <-].
Qed.

Lemma node_run_chat w ls w' :
  node_run w ls = Some w' → chat_run (cn_chat w) (omap node_chat_label ls) = Some (cn_chat w').
Proof.
  revert w. induction ls as [|l ls IH]; intros w; simpl; [by intros [= <-]|].
  intros (w1 & Hst & Hrun)%bind_Some. apply node_step_chat in Hst. apply IH in Hrun.
  destruct (node_chat_label l); simpl; [destruct Hst as (-> & _)|rewrite <-Hst]; done.
Qed.

(** *** Why a node stops *)

Lemma node_run_app w ls1 ls2 :
  node_run w (ls1 ++ ls2) = w1 ← node_run w ls1; node_run w1 ls2.
Proof.
  revert w. induction ls1 as [|l ls1 IH]; intros w; simpl; [done|].
  destruct (node_step w l); simpl; [apply IH|done].
Qed.

Record node_inv (w : ChatNode) : Prop := {
  ni_life : life_inv (cn_life w);
  ni_main : match cn_main w with
            | MainSelect => lf_guard (cn_life w) = GuardRunning
            | MainShutdown => lf_guard (cn_life w) ≠ GuardRunning
            | MainExit => lf_guard (cn_life w) = GuardDone
            end;
}.

(** The transport's part of a step. *)
Definition node_life_label (l : NodeLabel) : option LifeLabel :=
  match l with
  | NodeCtrlC | NodeSignalled => Some LifeShutdown
  | NodeGuard => Some LifeGuard
  | NodeTonicEnd => Some LifeTonicEnd
  | NodeChat _ | NodeExit => None
  end.
Lemma node_step_life w l w' :
  node_step w l = Some w' →
  match node_life_label l with
  | Some ll => life_step (cn_life w) ll = Some (cn_life w')
  | None => cn_life w' = cn_life w
  end.
Proof.
  destruct l as [l| | | | |]; intros Hst; simpl in *.
  - by apply (node_step_chat w (NodeChat l)) in Hst as (_ & ? & _).
  - unfold begin_shutdown in Hst. destruct (cn_main w); [|done..].
    by apply bind_Some in Hst as (? & ? & [= <-]).
  - destruct (_ <? _); [|done]. unfold begin_shutdown in Hst. destruct (cn_main w); [|done..].
    by apply bind_Some in Hst as (? & ? & [= <-]).
  - by apply bind_Some in Hst as (? & ? & [= <-]).
  - destruct (_ && _); [|done]. by apply bind_Some in Hst as (? & ? & [= <-]).
  - destruct (cn_main w); [done| |done]. destruct (lf_guard (cn_life w)); try done.
    by injection Hst as <-.
Qed.

(** The main loop's part. *)
Lemma node_step_main w l w' :
  node_step w l = Some w' →
  cn_main w' = cn_main w ∧ l ≠ NodeCtrlC ∧ l ≠ NodeSignalled ∨
  cn_main w = MainSelect ∧ cn_main w' = MainShutdown ∧
    (l = NodeCtrlC ∨ l = NodeSignalled ∧ 0 < shutdown_tx (cw_state (cn_chat w))) ∨
  cn_main w = MainShutdown ∧ cn_main w' = MainExit ∧ lf_guard (cn_life w) = GuardDone.
Proof.
  destruct l as [l| | | | |]; intros Hst; simpl in *.
  - apply (node_step_chat w (NodeChat l)) in Hst as (_ & _ & ?). by left.
  - unfold begin_shutdown in Hst. destruct (cn_main w); [|done..].
    apply bind_Some in Hst as (? & _ & [= <-]). right. left. auto.
  - destruct (Nat.ltb_spec 0 (shutdown_tx (cw_state (cn_chat w)))); [|done].
    unfold begin_shutdown in Hst. destruct (cn_main w); [|done..].
    apply bind_Some in Hst as (? & _ & [= <-]). right. left. auto.
  - apply bind_Some in Hst as (? & _ & [= <-]). by left.
  - destruct (_ && _); [|done]. apply bind_Some in Hst as (? & _ & [= <-]). by left.
  - destruct (cn_main w) eqn:Em; [done| |done].
    destruct (lf_guard (cn_life w)) eqn:Eg; try done. injection Hst as <-. auto.
Qed.

Lemma life_step_running w l w' :
  life_step w l = Some w' → l ≠ LifeShutdown → l ≠ LifeDrop →
  lf_guard w = GuardRunning ↔ lf_guard w' = GuardRunning.
Proof.
  intros Hst ??. destruct l; simpl in Hst; try done; repeat case_match; simplify_eq/=; by split.
Qed.
Lemma life_step_done w l w' :
  life_step w l = Some w' → lf_guard w = GuardDone → lf_guard w' = GuardDone.
Proof. intros Hst Hg. destruct l; simpl in Hst; rewrite ?Hg in Hst; repeat case_match; by simplify_eq/=. Qed.

Lemma node_step_inv w l w' : node_inv w → node_step w l = Some w' → node_inv w'.
Proof.
  intros [Hl Hm] Hst. pose proof (node_step_life _ _ _ Hst) as Hlife.
  assert (Hdone : lf_guard (cn_life w) = GuardDone → lf_guard (cn_life w') = GuardDone).
  { destruct (node_life_label l); [by eapply life_step_done|by rewrite Hlife]. }
  split; [destruct (node_life_label l); [by eapply life_step_inv|by rewrite Hlife]|].
  destruct (node_step_main _ _ _ Hst) as [(-> & Hc & Hs)|[(Em & -> & Hc)|(Em & -> & Hg)]];
    [|rewrite Em in Hm..].
  - assert (lf_guard (cn_life w) = GuardRunning ↔ lf_guard (cn_life w') = GuardRunning) as E.
    { destruct (node_life_label l) as [ll|] eqn:El; [|by rewrite Hlife].
      eapply life_step_running; [exact Hlife|by intros ->; destruct l..]. }
    destruct (cn_main w); [by apply E|by rewrite <-E|by apply Hdone].
  - destruct Hc as [->|[-> _]]; simpl in Hlife; rewrite Hm in Hlife; by injection Hlife as <-.
  - by apply Hdone.
Qed.

Lemma node_run_inv w ls w' : node_inv w → node_run w ls = Some w' → node_inv w'.
Proof.
  revert w. induction ls as [|l ls IH]; intros w Hinv; simpl; [congruence|].
  intros (w1 & Hst & Hrun)%bind_Some. by apply (IH w1); [eapply node_step_inv|].
Qed.

(** The main loop leaves its select only on ctrl-c or a signal. *)
Lemma node_select_left ls w w' :
  node_run w ls = Some w' → cn_main w = MainSelect → cn_main w' ≠ MainSelect → NodeCtrlC ∉ ls →
  ∃ ls1 ls2 w1, ls = ls1 ++ ls2 ∧ node_run w ls1 = Some w1 ∧ node_run w1 ls2 = Some w' ∧
    0 < shutdown_tx (cw_state (cn_chat w1)).
Proof.
  revert w. induction ls as [|l ls IH]; intros w; [by intros [= <-]|].
  intros Hrun Hm Hm' Hc. pose proof Hrun as Hall. simpl in Hrun.
  apply bind_Some in Hrun as (w1 & Hst & Hrun).
  destruct (node_step_main _ _ _ Hst) as [(E & _)|[(_ & _ & [->|[_ Hs]])|(E & _)]];
    [|set_solver| |congruence].
  - destruct (IH w1) as (ls1 & ls2 & w2 & -> & Hr & Hr2 & Hs); [done|congruence|done|set_solver|].
    exists (l :: ls1), ls2, w2. split_and!; [done| |done..]. simpl. by rewrite Hst.
  - by exists [], (l :: ls), w.
Qed.

(** The chat server never takes a signal back. *)
Lemma moves_shutdown_tx w o w' : moves w o w' → shutdown_tx (cw_state w) ≤ shutdown_tx (cw_state w').
Proof.
  intros [_ [(_ & _ & ->)|(_ & _ & _ & ->)]]%moves_counter; [lia|].
  unfold count_request. simpl. destruct (max_requests _); [case_match|]; simpl; lia.
Qed.

Section Stopping.
Context {EndpointId : Type} `{!UserDataOps}.
Implicit Types t : Transport EndpointId.

Lemma node_inv_new id max t : node_inv (chat_node_new id max t).
Proof. by split; [apply life_inv_new|]. Qed.

(** A node was asked to stop: by a [shutdown] call, or since [max_requests]
    requests were answered. *)
Definition asked_to_stop (max : option Z) (ls : list NodeLabel) (w : ChatNode) : Prop :=
  0 < shutdown_calls (omap node_chat_label ls) ∨
  ∃ mx, max = Some mx ∧ 0 < answered_count (cn_chat w) ∧
    (mx ≤ Z.of_nat (answered_count (cn_chat w)))%Z.

Lemma signalled_iff_asked id max t ls w :
  NoDup (random <$> subscription_hashes (omap node_chat_label ls)) →
  node_run (chat_node_new id max t) ls = Some w →
  (Z.of_nat (answered_count (cn_chat w)) ≤ u64_max)%Z →
  0 < shutdown_tx (cw_state (cn_chat w)) ↔ asked_to_stop max ls w.
Proof.
  intros Hnd Hrun Hlim. apply node_run_chat in Hrun.
  rewrite (max_requests_shutdown _ _ _ _ Hnd Hrun Hlim). unfold asked_to_stop, at_max.
  destruct max as [mx|].
  - split.
    + intros Hpos. destruct (decide (0 < shutdown_calls (omap node_chat_label ls))); [by left|].
      right. exists mx. split; [done|]. lia.
    + intros [Hs|(mx' & [= <-] & Hn & Hle)]; lia.
  - rewrite Nat.add_0_r. split; [by left|]. by intros [|(? & ? & _)].
Qed.

(** [main] left its select for a signal. *)
Lemma node_left_asked id max t ls w :
  NoDup (random <$> subscription_hashes (omap node_chat_label ls)) →
  node_run (chat_node_new id max t) ls = Some w →
  (Z.of_nat (answered_count (cn_chat w)) ≤ u64_max)%Z →
  cn_main w ≠ MainSelect → NodeCtrlC ∉ ls → asked_to_stop max ls w.
Proof.
  intros Hnd Hrun Hlim Hmain Hc. rewrite <-(signalled_iff_asked _ _ _ _ _ Hnd Hrun Hlim).
  destruct (node_select_left _ _ _ Hrun eq_refl Hmain Hc)
    as (ls1 & ls2 & w1 & -> & Hr1 & Hr2 & Hs).
  apply node_run_chat in Hr1, Hr2. rewrite omap_app in Hnd.
  destruct (chat_run_moves_2 _ _ _ _ _ _ Hnd Hr1 Hr2) as (Hinv & _ & Hmv).
  apply (some_move_ind (λ w, 0 < shutdown_tx (cw_state w)) (cn_chat w1)); [done..|].
  intros w2 o w3 _ Hm2 Hpos. apply moves_shutdown_tx in Hm2. lia.
Qed.
Lemma node_exit_down id max t ls w :
  node_run (chat_node_new id max t) ls = Some w → cn_main w = MainExit →
  driver_ended (cn_life w) = true ∧ lf_router_down (cn_life w) = true.
Proof.
  intros Hrun Hmain.
  pose proof (node_run_inv _ _ _ (node_inv_new id max t) Hrun) as [[Hsig He Hrt] Hm].
  rewrite Hmain in Hm. by rewrite Hm in He, Hrt.
Qed.

(** C22: [main] stops when it is asked to and only then.  Without ctrl-c, it has
    left its select only if the [shutdown] RPC was called or [max_requests]
    requests have been answered; while it waits, it can go on for a signal just
    in these cases; and when it returns, the tonic server and the publisher
    have ended and the router is shut down. *)
Theorem node_stops_when_asked id max t ls w :
  NoDup (random <$> subscription_hashes (omap node_chat_label ls)) →
  node_run (chat_node_new id max t) ls = Some w →
  (Z.of_nat (answered_count (cn_chat w)) ≤ u64_max)%Z →
  (cn_main w ≠ MainSelect → NodeCtrlC ∉ ls → asked_to_stop max ls w) ∧
  (cn_main w = MainSelect → is_Some (node_step w NodeSignalled) ↔ asked_to_stop max ls w) ∧
  (cn_main w = MainExit → driver_ended (cn_life w) = true ∧ lf_router_down (cn_life w) = true).
Proof.
  intros Hnd Hrun Hlim. split_and!;
    [by apply (node_left_asked id max t)| |by apply (node_exit_down id max t ls)].
  intros Hmain. rewrite <-(signalled_iff_asked _ _ _ _ _ Hnd Hrun Hlim).
  pose proof (node_run_inv _ _ _ (node_inv_new id max t) Hrun) as [_ Hm]. rewrite Hmain in Hm.
  unfold node_step, begin_shutdown. rewrite Hmain. simpl. rewrite Hm.
  destruct (Nat.ltb_spec 0 (shutdown_tx (cw_state (cn_chat w)))); split; try lia; try done.
Qed.
End Stopping.

(** *** What a subscriber can do *)

(** The client of subscription [i] is connected. *)
Definition connected (i : nat) (w : ChatWorld) : Prop :=
  cw_tasks w !! i = Some (TSubscribe SubDone) ∧
  ∃ s, cw_subs w !! i = Some s ∧ rx_closed (sub_out s) = false.

Lemma connected_set_task i t k f w :
  connected i w → cw_tasks w !! t ≠ Some (TSubscribe SubDone) →
  connected i (set_task t k (set_state f w)).
Proof.
  intros [Ht Hs] Hne. split; [|done]. simpl. rewrite lookup_insert_ne; [done|congruence].
Qed.
Lemma connected_set_sub i j s0 s1 w :
  connected i w → cw_subs w !! j = Some s0 →
  (j = i → rx_closed (sub_out s0) = false → rx_closed (sub_out s1) = false) →
  connected i (set_sub j s1 w).
Proof.
  intros (Ht & s & Hs & Hc) Hj Hout. split; [done|]. simpl.
  destruct (decide (j = i)) as [->|Hne].
  - exists s1. rewrite lookup_insert_eq. simplify_eq. auto.
  - exists s. by rewrite lookup_insert_ne.
Qed.

Lemma connected_add_message i t m order am next w w' :
  connected i w → add_message_step t m order am w = Some (next, w') →
  connected i w' ∧ cw_tasks w' = cw_tasks w.
Proof.
  intros Hc Hst. destruct am as [| |[|[id j] todo]]; simpl in Hst.
  - by injection Hst as <- <-.
  - destruct (decide _); [|done]. by injection Hst as <- <-.
  - by injection Hst as <- <-.
  - apply bind_Some in Hst as (s & Hs & Hst).
    destruct (try_send m (sub_rx s)) as [[] rx]; simplify_eq; [|done].
    split; [by eapply connected_set_sub|done].
Qed.

Lemma connected_forward i j w w' :
  connected i w → forward_step j w = Some w' → connected i w'.
Proof.
  intros Hc (s & Hs & Hst)%bind_Some. destruct (sub_fwd s) as [|r| |].
  - destruct (recv (sub_rx s)) as [[m rx]|]; [|destruct (tx_alive j w); [done|]];
      injection Hst as <-; by eapply connected_set_sub.
  - destruct (try_send r (sub_out s)) as [[] out] eqn:E; simplify_eq;
      (eapply connected_set_sub; [done..|]); [|done].
    intros _ _. apply try_send_inv in E as [Ho _]. by destruct Ho as (_ & _ & _ & ?).
  - apply bind_Some in Hst as (w1 & Hr & [= <-]). unfold remove_subscriber in Hr.
    destruct (decide _); [|done]. injection Hr as <-.
    eapply (connected_set_sub i j s); [by destruct Hc|done|done].
  - done.
Qed.

(** The steps of the handlers. *)
Lemma connected_handler i t order hash now k w w' :
  connected i w → cw_tasks w !! t = Some k →
  match k with
  | TSend m pc => send_step t m order pc w
  | TSubscribe pc => subscribe_step t pc w
  | TStream s => stream_step t order hash now s w
  end = Some w' → connected i w'.
Proof.
  intros Hc Hk Hst.
  assert (Ham : ∀ m am next w1 k', k ≠ TSubscribe SubDone →
    add_message_step t m order am w = Some (next, w1) → connected i (set_task t k' w1)).
  { intros m am next w1 k' Hne Ham.
    destruct (connected_add_message _ _ _ _ _ _ _ _ Hc Ham) as [Hc1 Et].
    apply (connected_set_task i t k' (λ st, st) w1 Hc1). rewrite Et, Hk. congruence. }
  assert (Hset : ∀ f k', k ≠ TSubscribe SubDone → connected i (set_task t k' (set_state f w))).
  { intros f k' Hne. apply connected_set_task; [done|]. rewrite Hk. congruence. }
  destruct k as [m pc|pc|s].
  - destruct pc as [am| | |]; simpl in Hst; [|injection Hst as <-; by apply Hset|done..].
    apply bind_Some in Hst as ([next w1] & Hst & [= <-]). by eapply Ham.
  - destruct pc; simpl in Hst; [|done..]. apply bind_Some in Hst as (s & _ & Hst).
    apply bind_Some in Hst as (w1 & Hadd & [= <-]). unfold add_subscriber in Hadd.
    destruct (decide _); [|done]. injection Hadd as <-. by apply Hset.
  - unfold stream_step in Hst. destruct (str_pc s) as [|m am|m|r last|]; [done| | | |done].
    + apply bind_Some in Hst as ([next w1] & Hst & [= <-]). by eapply Ham.
    + injection Hst as <-. by apply (Hset (λ st, st)).
    + destruct (try_send r (str_out s)) as [[] out]; simplify_eq; by apply (Hset (λ st, st)).
Qed.

(** Only its client ends a connected subscription. *)
Lemma chat_step_connected i w l w' :
  connected i w → chat_step w l = Some w' → l ≠ ChatLeave i → connected i w'.
Proof.
  intros Hc Hst Hl. pose proof Hc as (Hi & _).
  assert (Hother : ∀ t k, cw_tasks w !! t ≠ Some (TSubscribe SubDone) →
    connected i (set_task t k w)) by (intros t k; apply (connected_set_task i t k (λ st, st) w Hc)).
  destruct l as [t req hash|t hash|t|t order hash now|t inp|j|j|j|t|t|t|]; simpl in Hst;
    unfold fresh_task, subscribed in Hst.
  - destruct (bool_decide _) eqn:E; [|done]. breflect. injection Hst as <-.
    apply Hother. congruence.
  - destruct (bool_decide _) eqn:E; [|done]. breflect.
    apply bind_Some in Hst as (rx & _ & (out & _ & [= <-])%bind_Some).
    assert (t ≠ i) by congruence. destruct Hc as (_ & s & Hs & Hout).
    split; simpl; [by rewrite lookup_insert_ne|exists s; by rewrite lookup_insert_ne].
  - destruct (bool_decide _) eqn:E; [|done]. breflect. apply bind_Some in Hst as (out & _ & [= <-]).
    apply Hother. congruence.
  - apply bind_Some in Hst as (k & Hk & Hst). by apply (connected_handler i t order hash now k w).
  - destruct (cw_tasks w !! t) as [[| |s]|] eqn:Ht; try done.
    destruct (str_pc s); try done. injection Hst as <-. apply Hother. by rewrite Ht.
  - by eapply connected_forward.
  - apply bind_Some in Hst as (s & Hs & Hst). destruct (cw_tasks w !! j) as [[|[]|]|]; try done.
    destruct (rx_closed (sub_out s)) eqn:Ec; [done|].
    apply bind_Some in Hst as ([r out] & Hr & [= <-]). apply recv_Some in Hr as (_ & _ & Hcl).
    eapply connected_set_sub; [done..|]. simpl. congruence.
  - apply bind_Some in Hst as (s & Hs & [= <-]). destruct (cw_tasks w !! j) as [[|[]|]|]; try done.
    eapply connected_set_sub; [done..|]. by intros ->.
  - destruct (cw_tasks w !! t) as [[| |s]|] eqn:Ht; try done.
    destruct (rx_closed (str_out s)); [done|]. apply bind_Some in Hst as ([r out] & _ & [= <-]).
    apply Hother. by rewrite Ht.
  - destruct (cw_tasks w !! t) as [[| |s]|] eqn:Ht; try done. injection Hst as <-.
    apply Hother. by rewrite Ht.
  - apply bind_Some in Hst as (k & Hk & Hst). destruct k as [m [am| | |]|[]|]; simpl in Hst; try done.
    + injection Hst as <-. apply connected_set_task; [done|]. by rewrite Hk.
    + injection Hst as <-. apply Hother. by rewrite Hk.
    + apply bind_Some in Hst as (s & Hs & [= <-]). assert (t ≠ i) by congruence.
      apply (connected_set_task i t _ (λ st, st) (set_sub t _ w)); [|simpl; by rewrite Hk].
      by eapply connected_set_sub.
  - injection Hst as <-. done.
Qed.

(** Its call is open: what ends the forwarding task is that the client is gone. *)
Lemma connected_open i w : chat_inv w → connected i w → call_open w i = true.
Proof.
  intros Hinv (Ht & s & Hs & Hc). unfold call_open. rewrite Ht, Hs, Hc. simpl.
  destruct (ci_subs _ Hinv _ _ Hs) as (_ & Hgone & _).
  destruct (sub_fwd s); try done. rewrite Hgone in Hc by auto. done.
Qed.

Lemma life_step_tonic w l w' : life_step w l = Some w' → l ≠ LifeTonicEnd → lf_tonic w' = lf_tonic w.
Proof. intros Hst ?. destruct l; simpl in Hst; try done; repeat case_match; by simplify_eq/=. Qed.

Section Blocked.
Context {EndpointId : Type} `{!UserDataOps}.

(** C21: a subscriber keeps a node from exiting.  Once the server has answered a
    [subscribe_messages] call, and until that client goes away, [main] does not
    return, whatever else happens and however it is told to stop: the response
    stream only ends when its client does, the graceful shutdown of tonic waits
    for it, and nothing ends the stream or bounds the wait. *)
Theorem subscriber_blocks_exit id max (t : Transport EndpointId) ls1 ls2 w1 w2 i :
  tonic_waits →
  NoDup (random <$> subscription_hashes (omap node_chat_label (ls1 ++ ls2))) →
  node_run (chat_node_new id max t) ls1 = Some w1 → node_run w1 ls2 = Some w2 →
  lf_tonic (cn_life w1) = Some false → connected i (cn_chat w1) →
  NodeChat (ChatLeave i) ∉ ls2 →
  cn_main w2 ≠ MainExit ∧ lf_router_down (cn_life w2) = false ∧ connected i (cn_chat w2).
Proof.
  intros Hwait Hnd Hr1 Hr2 Ht1 Hc1 Hl.
  assert (node_inv w2) as [[_ He Hrt] Hm].
  { eapply node_run_inv, Hr2. eapply node_run_inv, Hr1. apply node_inv_new. }
  assert (lf_tonic (cn_life w2) = Some false ∧ connected i (cn_chat w2)) as [Ht2 Hc2].
  { clear He Hrt Hm. revert w2 Hr2 Hl Hnd. induction ls2 as [|l ls2 IH] using rev_ind; intros w2.
    { by intros [= <-]. }
    rewrite node_run_app, app_assoc, omap_app. unfold subscription_hashes.
    rewrite omap_app, fmap_app. intros (w & Hr & Hst)%bind_Some Hl (Hnd & _)%NoDup_app.
    simpl in Hst. apply bind_Some in Hst as (w2' & Hst & [= <-]).
    destruct (IH w Hr ltac:(set_solver) Hnd) as [Ht Hc].
    assert (chat_inv (cn_chat w)) as Hinv.
    { apply (chat_run_moves id max (omap node_chat_label (ls1 ++ ls2))); [done|].
      apply (node_run_chat (chat_node_new id max t)). by rewrite node_run_app, Hr1. }
    split.
    - pose proof (node_step_life _ _ _ Hst) as Hlife.
      destruct (node_life_label l) as [ll|] eqn:El; [|by rewrite Hlife].
      rewrite (life_step_tonic _ _ _ Hlife); [done|]. intros ->.
      assert (l = NodeTonicEnd) as -> by by destruct l.
      simpl in Hst. rewrite (Hwait _ i), andb_false_r in Hst; [done|]. by apply connected_open.
    - pose proof (node_step_chat _ _ _ Hst) as Hchat.
      destruct (node_chat_label l) as [cl|] eqn:El; [|by rewrite Hchat].
      assert (l = NodeChat cl) as -> by (destruct l; by simplify_eq/=).
      apply (chat_step_connected i (cn_chat w) cl); [done|apply Hchat|]. set_solver. }
  assert (lf_guard (cn_life w2) ≠ GuardDone) as Hg.
  { intros Hg. rewrite Hg in He. unfold driver_ended in He. by rewrite Ht2, andb_false_r in He. }
  split_and!; [|rewrite Hrt; by destruct (lf_guard (cn_life w2))|done].
  intros Hm'. by rewrite Hm' in Hm.
Qed.
End Blocked.
End Node.

(** ** Concrete inputs *)

Module ChatNodeDemo.
Import ListChannel Demo UserDataDemo ChatDemo ChatGrpcDemo.

(** A graceful shutdown that waits for just the open calls. *)
Definition demo_tonic (w : ChatWorld) : bool :=
  forallb (λ p, negb (call_open w p.1)) (map_to_list (cw_tasks w)).
Lemma demo_tonic_waits : tonic_waits demo_tonic.
Proof.
  intros w t Ho. apply not_true_is_false. unfold demo_tonic. rewrite forallb_forall. intros Hall.
  assert (is_Some (cw_tasks w !! t)) as [k Hk].
  { unfold call_open in Ho. destruct (cw_tasks w !! t); [by eexists|done]. }
  specialize (Hall (t, k)). simpl in Hall. rewrite Ho in Hall.
  discriminate Hall. by apply list_elem_of_In, elem_of_map_to_list.
Qed.

Definition demo_transport : Transport nat :=
  MkTransport [] [CHAT_SERVICE_NAME; NODE_SERVICE_NAME] (MkServer (LChan [] 1 false) ∅ [] [] [])
    None None.
Definition demo_start : ChatNode := chat_node_new demo_node (Some 1%Z) demo_transport.

(** One request is answered, the node stops. *)
Definition stop_labels : list NodeLabel :=
  (NodeChat <$> ChatSend 1 demo_request 8 :: replicate 4 (ChatStep 1 [] 9 60)) ++
  [NodeSignalled; NodeTonicEnd; NodeGuard; NodeGuard; NodeExit].
Definition stop_end : ChatNode := default demo_start (node_run demo_tonic demo_start stop_labels).

(** Client 0 subscribes; the [shutdown] RPC is called, and the node hangs. *)
Definition hang_prefix : list NodeLabel := NodeChat <$> demo_subscribe.
Definition hang_world : ChatNode := default demo_start (node_run demo_tonic demo_start hang_prefix).
Definition hang_labels : list NodeLabel := [NodeChat NodeShutdown; NodeSignalled].
Definition hang_end : ChatNode := default demo_start (node_run demo_tonic hang_world hang_labels).

Ltac evaluate :=
  first [apply (bool_decide_unpack _); vm_compute; exact I | vm_compute; reflexivity].

Lemma chat_node_serves_witness :
  match spawn (EndpointId := nat) (PcError := unit) (build chat_node_calls) with
  | Some (Ok t) => (service_to_alpn CHAT_SERVICE_NAME, CHAT_SERVICE_NAME) ∈ tr_routes t
  | _ => False
  end.
Proof.
  pose proof (chat_node_serves (EndpointId := nat) (EndpointAddr := nat) (PcError := unit)
    (grpc_server_new tt) (grpc_server_new tt)) as Hserves.
  destruct (spawn (build chat_node_calls)) as [[t|e]|] eqn:Hsp.
  - destruct Hserves as (Hs & _ & Hr & _). apply (Hr CHAT_SERVICE_NAME 0). rewrite Hs. left.
  - vm_compute in Hsp. discriminate Hsp.
  - exact Hserves.
Defined.

Lemma node_stops_when_asked_witness :
  cn_main stop_end = MainExit ∧ asked_to_stop (Some 1%Z) stop_labels stop_end.
Proof.
  assert (cn_main stop_end = MainExit) as Hm by evaluate. split; [exact Hm|].
  refine (proj1 (node_stops_when_asked demo_tonic demo_node (Some 1%Z) demo_transport stop_labels
    stop_end _ _ _) _ _).
  - evaluate.
  - evaluate.
  - vm_compute. discriminate.
  - rewrite Hm. discriminate.
  - set_solver.
Defined.

Lemma subscriber_blocks_exit_witness :
  cn_main hang_end ≠ MainExit ∧ lf_signal (cn_life hang_end) = true ∧
  node_step demo_tonic hang_end NodeTonicEnd = None.
Proof.
  split; [|split; evaluate].
  refine (proj1 (subscriber_blocks_exit demo_tonic demo_node (Some 1%Z) demo_transport hang_prefix
    hang_labels hang_world hang_end 0 demo_tonic_waits _ _ _ _ _ _)); try evaluate.
  - destruct (cw_subs (cn_chat hang_world) !! 0) as [s|] eqn:E; [|vm_compute in E; discriminate E].
    split; [evaluate|]. exists s. split; [exact E|]. vm_compute in E. injection E as <-. evaluate.
  - set_solver.
Defined.
End ChatNodeDemo.
