(* ===== verification/Examples.v ===== *)
(** * The examples' clients

    Models the commands of the chat example's client in
    [src/examples/chat/src/main.rs] (the requests they make, what they show, the
    interactive session, the benchmark loop) and the echo service of
    [src/examples/echo/src/main.rs]. *)
From stdpp Require Import pretty.
From S2P Require Import Prelude Tokio ChatPb ChatServer ChatMoves ChatDelivery.
Local Open Scope string_scope.

(** ** Commands *)

Inductive Command :=
  | CmdSend (message : string)
  | CmdSubscribe
  | CmdHistory (limit : Z)
  | CmdChat
  | CmdPing (data : option string)
  | CmdNodeInfo
  | CmdListPeers
  | CmdBenchmark (duration : Z) (message : string) (concurrent : nat)
  | CmdShutdown.

(** The first call a command makes: the method and its request. *)
Inductive FirstCall :=
  | CallSendMessage (req : SendMessageRequest)
  | CallSubscribeMessages
  | CallGetHistory (req : GetHistoryRequest)
  | CallChatStream
  | CallPing (req : PingRequest)
  | CallGetNodeInfo
  | CallListPeers
  | CallShutdown
  | CallBenchmark (recipient message : string) (duration : Z) (concurrent : nat).

(** The requests of [send_message], [get_history] and [ping_node]. *)
Definition send_request (recipient content : string) (now : Z) : SendMessageRequest :=
  MkSendMessageRequest recipient content now.
Definition history_request (peer : string) (limit : Z) : GetHistoryRequest :=
  MkGetHistoryRequest peer limit 0.
Definition ping_request (data : option string) (now : Z) : PingRequest :=
  MkPingRequest now (default "ping" data).

(** [connect_and_execute_command] once it is connected to [target]. *)
Definition execute_command (target : string) (now : Z) (command : option Command) : FirstCall :=
  match command with
  | Some (CmdSend message) => CallSendMessage (send_request target message now)
  | Some CmdSubscribe => CallSubscribeMessages
  | Some (CmdHistory limit) => CallGetHistory (history_request target limit)
  | Some CmdChat => CallChatStream
  | Some (CmdPing data) => CallPing (ping_request data now)
  | Some CmdNodeInfo => CallGetNodeInfo
  | Some CmdListPeers => CallListPeers
  | Some (CmdBenchmark duration message concurrent) =>
      CallBenchmark target message duration concurrent
  | Some CmdShutdown => CallShutdown
  | None => CallPing (ping_request (Some "Hello from P2P node!") now)
  end.

(** [DateTime::timestamp]: the seconds since the epoch, 0 before it. *)
Definition utc_timestamp (now_nanos : Z) : Z :=
  i64_wrap (if (now_nanos <? 0)%Z then 0 else now_nanos `div` 1000000000)%Z.

(** [format_timestamp]; [now] in nanoseconds since the epoch.  A [SystemTime]
    counts seconds in an [i64], beyond which adding a [Duration] panics
    ([None]). *)
Definition format_timestamp (now : Z) (timestamp : Z) : option string :=
  let seconds := u64_wrap timestamp in
  if (seconds <=? i64_max)%Z then
    let datetime := (seconds * 1000000000)%Z in
    Some (if (now <=? datetime)%Z then "future+" +:+ pretty timestamp +:+ "s"
          else pretty ((now - datetime) `div` 1000000000)%Z +:+ "s ago")
  else None.

(** [response_timestamp - request_timestamp] on [i64]; [None] is the panic of a
    build with overflow checks. *)
Definition ping_rtt (overflow_checks : bool) (response : PingResponse) : option Z :=
  let rtt := (response_timestamp response - request_timestamp response)%Z in
  if (i64_min <=? rtt)%Z && (rtt <=? i64_max)%Z then Some rtt
  else if overflow_checks then None else Some (i64_wrap rtt).

(** What [subscribe_messages] prints for a message, and [get_history]. *)
Definition subscribe_line (now : Z) (m : ChatMessage) : option string :=
  ts ← format_timestamp now (timestamp m);
  Some ("[" +:+ ts +:+ "] " +:+ sender_id m +:+ ": " +:+ content m).
Definition history_line (now : Z) (m : ChatMessage) : option string :=
  ts ← format_timestamp now (timestamp m);
  Some ("[" +:+ ts +:+ "] " +:+ sender_id m +:+ " -> " +:+ recipient_id m +:+ ": " +:+ content m).

(** The lines a client shows for a history; [None] is a panic. *)
Definition show_history (now : Z) (response : GetHistoryResponse) : option (list string) :=
  ls ← mapM (history_line now) (history_messages response);
  Some (ls ++ (if has_more response then ["(More messages available)"] else []))%list.

(** The loop of [subscribe_messages] over what the stream yields, up to its
    first error. *)
Fixpoint show_subscription (now : Z) (items : list (Result Status SubscribeMessagesResponse))
  : option (list string) :=
  match items with
  | [] => Some []
  | Err e :: _ => Some ["Error receiving message: " +:+ st_message e]
  | Ok response :: items =>
      line ← match sub_message response with
             | Some m => (λ l, [l]) <$> subscribe_line now m
             | None => Some []
             end;
      lines ← show_subscription now items;
      Some (line ++ lines)%list
  end.

(** [list_peers]: the words for a peer's connection. *)
Definition connection_word (peer : PeerInfo) : string :=
  match connection_type_try_from (pi_connection_type peer) with
  | Some ConnectionDirect => "Direct"
  | Some ConnectionRelay => "Relay"
  | _ => "Unknown"
  end.

(** [list_peers]: the lines for a peer. *)
Definition peer_lines (now : Z) (peer : PeerInfo) : option (list string) :=
  since ← format_timestamp now (pi_connected_since peer);
  Some (["  " +:+ pi_node_id peer; "    Connection: " +:+ connection_word peer;
         "    Since: " +:+ since] ++
        ((λ addr, "    Address: " +:+ addr) <$> pi_addresses peer))%list.
Definition show_peers (now : Z) (peers : list PeerInfo) : option (list string) :=
  ls ← mapM (peer_lines now) peers;
  Some (("Connected Peers (" +:+ pretty (length peers) +:+ "):") :: concat ls).

(** What [get_node_info], [ping_node] and [send_message] show of a response. *)
Definition show_node_info (r : GetNodeInfoResponse) : list string :=
  (["Node Information:"; "  Node ID: " +:+ gni_node_id r; "  Version: " +:+ gni_version r;
    "  Uptime: " +:+ pretty (gni_uptime_seconds r) +:+ "s";
    "  Connected Peers: " +:+ pretty (gni_connected_peers r); "  Addresses:"] ++
   ((λ addr, "    " +:+ addr) <$> gni_addresses r))%list.
Definition show_ping (overflow_checks : bool) (r : PingResponse) : option string :=
  rtt ← ping_rtt overflow_checks r;
  Some ("Pong received! RTT: " +:+ pretty rtt +:+ "ms, Echo: " +:+ echo_data r).
Definition show_send (r : SendMessageResponse) : string :=
  if sm_success r then "Message sent successfully (ID: " +:+ sm_message_id r +:+ ")"
  else "Failed to send message: " +:+ sm_error r.

(** [interactive_chat]: the message made of a line, and the task that shows the
    replies, up to the first error. *)
Definition interactive_message (local_node_id id content : string) (now : Z) : ChatMessage :=
  MkChatMessage id local_node_id "" content now (message_type_i32 MessageText).
Fixpoint show_replies (items : list (Result Status ChatStreamResponse)) : list string :=
  match items with
  | [] => []
  | Err e :: _ => ["Error receiving message: " +:+ st_message e]
  | Ok response :: items =>
      match csp_message response with
      | Some m => ("< " +:+ content m) :: show_replies items
      | None => show_replies items
      end
  end.

Lemma show_replies_echoes node dn rs (tail : list Status) :
  Forall2 (echoes node) dn rs → (length tail ≤ 1)%nat →
  show_replies ((Ok <$> rs) ++ (Err <$> tail))%list =
  (((λ m, "< Echo: " +:+ content m) <$> dn) ++
   ((λ e, "Error receiving message: " +:+ st_message e) <$> tail))%list.
Proof.
  intros Hf Ht. induction Hf as [|m r dn rs (reply & Hr & _ & _ & Hc) Hf IH].
  - destruct tail as [|e [|]]; [done|done|]. simpl in Ht. lia.
  - csimpl. rewrite Hr, Hc, IH. done.
Qed.

(** An interactive session shows its user what it is to show: of the lines
    sent, those the server has taken come back in order, each as its echo,
    and after them at most one error. *)
Lemma session_shows_echoes `{!Mpsc, !MpscLaws} id max ls w t s :
  NoDup (random <$> subscription_hashes ls) → chat_run (chat_world_new id max) ls = Some w →
  cw_tasks w !! t = Some (TStream s) →
  ∃ dn tail,
    dn `prefix_of` str_in s ∧ (length tail ≤ 1)%nat ∧
    show_replies (answers s) =
      (((λ m, "< Echo: " +:+ content m) <$> dn) ++
       ((λ e, "Error receiving message: " +:+ st_message e) <$> tail))%list ∧
    (str_pc s = StNext → dn = str_in s ∧ tail = []).
Proof.
  intros Hnd Hrun Ht.
  destruct (stream_answers id max ls w t s Hnd Hrun Ht)
    as (dn & rs & tail & Ha & Hf & Hp & Hl & Hn & _).
  exists dn, tail. split_and!; [done|done|rewrite Ha; by eapply show_replies_echoes|].
  intros Epc%Hn. tauto.
Qed.

(** *** What a timestamp does to a client *)

Lemma format_timestamp_panics now ts :
  is_i64 ts → format_timestamp now ts = None ↔ (ts < 0)%Z.
Proof.
  unfold is_i64, format_timestamp, u64_wrap, u64_max, i64_max, i64_min. intros Hts.
  destruct (Z.lt_ge_cases ts 0).
  - rewrite <-(Z.mod_add _ 1), Z.mod_small by lia. by rewrite (proj2 (Z.leb_gt _ _)) by lia.
  - rewrite Z.mod_small by lia. rewrite (proj2 (Z.leb_le _ _)) by lia. split; [done|lia].
Qed.

Lemma history_line_None now m : history_line now m = None ↔ format_timestamp now (timestamp m) = None.
Proof. unfold history_line. by destruct (format_timestamp _ _). Qed.
Lemma subscribe_line_None now m :
  subscribe_line now m = None ↔ format_timestamp now (timestamp m) = None.
Proof. unfold subscribe_line. by destruct (format_timestamp _ _). Qed.

(** The messages a subscription shows: those before its first error. *)
Fixpoint shown (items : list (Result Status SubscribeMessagesResponse)) : list ChatMessage :=
  match items with
  | [] | Err _ :: _ => []
  | Ok response :: items => (option_list (sub_message response) ++ shown items)%list
  end.

Lemma show_subscription_None now items :
  show_subscription now items = None ↔
  ∃ m, m ∈ shown items ∧ format_timestamp now (timestamp m) = None.
Proof.
  induction items as [|[response|e] items IH]; simpl; [set_solver| |set_solver].
  destruct (sub_message response) as [m|]; simpl.
  - pose proof (subscribe_line_None now m) as Hm. setoid_rewrite elem_of_cons.
    destruct (subscribe_line now m); simpl; [|naive_solver].
    destruct (show_subscription now items); simpl; naive_solver.
  - destruct (show_subscription now items); simpl; naive_solver.
Qed.

Lemma show_history_None now response :
  show_history now response = None ↔
  ∃ m, m ∈ history_messages response ∧ format_timestamp now (timestamp m) = None.
Proof.
  unfold show_history. setoid_rewrite <-(history_line_None now).
  rewrite <-Exists_exists. destruct (mapM _ _) eqn:E; simpl.
  - split; [done|]. intros Hx%mapM_None_2. congruence.
  - split; [|done]. intros _. by apply mapM_None_1.
Qed.

Lemma get_history_messages st req m :
  m ∈ history_messages (get_history st req) → m ∈ messages st.
Proof.
  intros (j & Hj & _)%elem_of_take. apply list_elem_of_lookup_2, list_elem_of_filter in Hj. tauto.
Qed.

(** The line of each message is among those shown. *)
Lemma show_history_line now response lines m :
  show_history now response = Some lines → m ∈ history_messages response →
  ∃ line, history_line now m = Some line ∧ line ∈ lines.
Proof.
  unfold show_history. intros (ls & Hls%mapM_Some & [= <-])%bind_Some Hm.
  apply list_elem_of_lookup in Hm as [i Hi].
  destruct (Forall2_lookup_l _ _ _ _ _ Hls Hi) as (line & Hl & Hline).
  exists line. split; [done|]. apply elem_of_app. left. by eapply list_elem_of_lookup_2.
Qed.

(** C39: a message with a negative timestamp, which the server stores as it came,
    crashes every client that shows it: the history client panics exactly if
    the page it got holds one, the subscriber exactly if one comes before the
    first error of its stream. *)
Theorem negative_timestamp_crashes `{!Mpsc} now st req items :
  (∀ m, m ∈ messages st ∨ m ∈ shown items → is_i64 (timestamp m)) →
  (show_history now (get_history st req) = None ↔
   ∃ m, m ∈ history_messages (get_history st req) ∧ (timestamp m < 0)%Z) ∧
  (show_subscription now items = None ↔ ∃ m, m ∈ shown items ∧ (timestamp m < 0)%Z).
Proof.
  intros Hts. rewrite show_history_None, show_subscription_None.
  pose proof (get_history_messages st req) as Hin.
  split; split; intros (m & Hm & Hf); exists m; (split; [done|]);
    apply (format_timestamp_panics now); auto.
Qed.

(** ** The interactive session *)

(** White space, as UTF-8. *)
Definition white_space : list bytes :=
  [[x09]; [x0a]; [x0b]; [x0c]; [x0d]; [x20]; [xc2; x85]; [xc2; xa0]; [xe1; x9a; x80];
   [xe2; x80; x80]; [xe2; x80; x81]; [xe2; x80; x82]; [xe2; x80; x83]; [xe2; x80; x84];
   [xe2; x80; x85]; [xe2; x80; x86]; [xe2; x80; x87]; [xe2; x80; x88]; [xe2; x80; x89];
   [xe2; x80; x8a]; [xe2; x80; xa8]; [xe2; x80; xa9]; [xe2; x80; xaf]; [xe2; x81; x9f];
   [xe3; x80; x80]].
(** [bs] without the prefix [p], if it starts with it. *)
Fixpoint strip_prefix (p bs : bytes) : option bytes :=
  match p, bs with
  | [], _ => Some bs
  | x :: p, y :: bs => if decide (x = y) then strip_prefix p bs else None
  | _ :: _, [] => None
  end.
Fixpoint first_some {A B} (f : A → option B) (l : list A) : option B :=
  match l with
  | [] => None
  | x :: l => match f x with Some y => Some y | None => first_some f l end
  end.
(** [fuel] bounds the characters removed. *)
Fixpoint trim_with (spaces : list bytes) (fuel : nat) (bs : bytes) : bytes :=
  match fuel with
  | O => bs
  | S fuel =>
      match first_some (λ p, strip_prefix p bs) spaces with
      | Some bs => trim_with spaces fuel bs
      | None => bs
      end
  end.
Definition trim_start (bs : bytes) : bytes := trim_with white_space (length bs) bs.
Definition trim_end (bs : bytes) : bytes :=
  reverse (trim_with (reverse <$> white_space) (length bs) (reverse bs)).
(** [str::trim] *)
Definition trim (bs : bytes) : bytes := trim_end (trim_start bs).

(** A line [read_line] returns: an error, or the bytes read (none at the end of
    the input). *)
Inductive ReadLine := ReadError | ReadBytes (bs : bytes).

(** How a session ends: on its input's error, or normally. *)
Inductive SessionEnd := SessionError | SessionOk.

(** The loop of [interactive_chat]: the contents it sends, and its end;
    [sends] tells of each send whether the receiver is still there, and the
    input ends with its last line. *)
Fixpoint interactive_loop (lines : list ReadLine) (sends : list bool)
  : list bytes * SessionEnd :=
  match lines with
  | [] => ([], SessionOk)
  | ReadError :: _ => ([], SessionError)
  | ReadBytes bs :: lines =>
      match bs with
      | [] => ([], SessionOk)
      | _ =>
          let content := trim bs in
          if decide (content = string_bytes "quit") then ([], SessionOk)
          else if decide (content = []) then interactive_loop lines sends
          else match sends with
               | false :: _ => ([], SessionOk)
               | _ =>
                   let '(sent, e) := interactive_loop lines (tail sends) in
                   (content :: sent, e)
               end
      end
  end.

Local Close Scope string_scope.

(** *** Trimming *)

Lemma strip_prefix_Some p bs r : strip_prefix p bs = Some r ↔ bs = (p ++ r)%list.
Proof.
  revert bs. induction p as [|x p IH]; intros bs; simpl; [naive_solver|].
  destruct bs as [|y bs]; [done|]. destruct (decide (x = y)) as [->|Hne]; [|naive_solver].
  rewrite IH. naive_solver.
Qed.
Lemma first_some_None {A B} (f : A → option B) l :
  first_some f l = None ↔ ∀ x, x ∈ l → f x = None.
Proof.
  induction l as [|x l IH]; simpl; [set_solver|]. setoid_rewrite elem_of_cons.
  destruct (f x) eqn:E; [|naive_solver]. split; [done|]. intros Hall.
  specialize (Hall x (or_introl eq_refl)). congruence.
Qed.
Lemma first_some_Some {A B} (f : A → option B) l y :
  first_some f l = Some y → ∃ x, x ∈ l ∧ f x = Some y.
Proof.
  induction l as [|x l IH]; simpl; [done|]. destruct (f x) eqn:E; [|set_solver].
  intros [= <-]. set_solver.
Qed.

Definition starts_with (spaces : list bytes) (bs : bytes) : Prop :=
  ∃ p r, p ∈ spaces ∧ bs = (p ++ r)%list.

Lemma trim_with_spec spaces fuel bs :
  (∀ p, p ∈ spaces → p ≠ []) → length bs ≤ fuel →
  ∃ removed, bs = (mjoin removed ++ trim_with spaces fuel bs)%list ∧
    (∀ p, p ∈ removed → p ∈ spaces) ∧ ¬ starts_with spaces (trim_with spaces fuel bs).
Proof.
  intros Hne. revert bs. induction fuel as [|fuel IH]; intros bs Hl; simpl.
  - exists []. destruct bs; [|simpl in Hl; lia]. split_and!; [done|set_solver|].
    intros (p & r & Hp & E). specialize (Hne _ Hp). by destruct p.
  - destruct (first_some _ spaces) as [r|] eqn:E.
    + apply first_some_Some in E as (p & Hp & ->%strip_prefix_Some). specialize (Hne _ Hp).
      destruct (IH r) as (removed & E & Hin & Hend).
      { destruct p; [done|]. rewrite length_app in Hl. simpl in Hl. lia. }
      exists (p :: removed). simpl. rewrite <-app_assoc, <-E. split_and!; [done| |done].
      intros q [->|Hq]%elem_of_cons; auto.
    + exists []. split_and!; [done|set_solver|]. intros (p & r & Hp & ->).
      rewrite first_some_None in E. specialize (E p Hp).
      by rewrite (proj2 (strip_prefix_Some p _ r) eq_refl) in E.
Qed.

Lemma white_space_nonempty p : p ∈ white_space → p ≠ [].
Proof. revert p. apply Forall_forall. by repeat constructor. Qed.

(** [trim] removes white space at both ends and nothing else. *)
Lemma trim_spec bs :
  ∃ pre post, bs = (mjoin pre ++ trim bs ++ mjoin post)%list ∧
    (∀ p, p ∈ pre ++ post → p ∈ white_space) ∧
    ¬ starts_with white_space (trim bs) ∧
    ¬ starts_with (reverse <$> white_space) (reverse (trim bs)).
Proof.
  destruct (trim_with_spec white_space (length bs) bs white_space_nonempty) as (pre & E & Hpre & Hs);
    [done|]. fold (trim_start bs) in E, Hs.
  destruct (trim_with_spec (reverse <$> white_space) (length (trim_start bs))
    (reverse (trim_start bs))) as (post & Er & Hpost & He).
  { intros p (q & -> & Hq%white_space_nonempty)%list_elem_of_fmap Hn. apply Hq.
    by rewrite <-(reverse_involutive q), Hn. }
  { by rewrite length_reverse. }
  set (rest := trim_with _ _ (reverse (trim_start bs))) in *.
  assert (Et : trim bs = reverse rest) by done.
  assert (Ejoin : ∀ l : list bytes, reverse (mjoin l) = mjoin (reverse (reverse <$> l))).
  { induction l as [|x l IH]; [done|]. csimpl. rewrite reverse_app, IH, reverse_cons, join_app.
    simpl. by rewrite app_nil_r. }
  assert (Es : trim_start bs = (trim bs ++ mjoin (reverse (reverse <$> post)))%list).
  { rewrite <-(reverse_involutive (trim_start bs)), Er, reverse_app, Ejoin, Et. done. }
  exists pre, (reverse (reverse <$> post)). split_and!.
  - by rewrite <-Es.
  - intros p [Hp|Hp]%elem_of_app; [by apply Hpre|].
    apply elem_of_reverse, list_elem_of_fmap in Hp as (q & -> & Hq).
    apply Hpost, list_elem_of_fmap in Hq as (q' & -> & ?). by rewrite reverse_involutive.
  - intros (p & r & Hp & Ep). apply Hs. exists p, (r ++ mjoin (reverse (reverse <$> post)))%list.
    split; [done|]. by rewrite Es, Ep, <-app_assoc.
  - rewrite Et, reverse_involutive. exact He.
Qed.

(** A session sends trimmed lines, none of them blank or [quit]. *)
Lemma interactive_sends lines sends c :
  c ∈ (interactive_loop lines sends).1 →
  c ≠ [] ∧ c ≠ string_bytes "quit" ∧ ∃ bs, ReadBytes bs ∈ lines ∧ c = trim bs.
Proof.
  revert sends. induction lines as [|[|bs] lines IH]; intros sends; simpl; [set_solver..|].
  destruct bs as [|b bs]; [set_solver|].
  destruct (decide (trim (b :: bs) = string_bytes "quit")); [set_solver|].
  destruct (decide (trim (b :: bs) = [])).
  { intros (? & ? & bs' & ? & ?)%IH. split_and!; [done..|]. exists bs'. set_solver. }
  assert (Hrec : c ∈ (let '(sent, e) := interactive_loop lines (tail sends) in
    (trim (b :: bs) :: sent, e)).1 → c ≠ [] ∧ c ≠ string_bytes "quit" ∧
    ∃ bs', ReadBytes bs' ∈ ReadBytes (b :: bs) :: lines ∧ c = trim bs').
  { destruct (interactive_loop lines (tail sends)) as [sent e] eqn:E. simpl.
    intros [->|Hc]%elem_of_cons; [split_and!; [done..|]; exists (b :: bs); set_solver|].
    destruct (IH (tail sends)) as (? & ? & bs' & ? & ?); [by rewrite E|].
    split_and!; [done..|]. exists bs'. set_solver. }
  destruct sends as [|[] sends]; [exact Hrec|exact Hrec|set_solver].
Qed.

Example trim_demo : trim (string_bytes "	 hi there
") = string_bytes "hi there".
Proof. vm_compute. reflexivity. Qed.

(** ** The benchmark *)

(** The outcome of a [join_next]: the answer's [success], a gRPC error, or a
    task that did not finish. *)
Inductive Joined := JoinedResponse (success : bool) | JoinedStatus | JoinedFailed.
Definition join_failed (j : Joined) : bool :=
  match j with JoinedResponse success => negb success | JoinedStatus | JoinedFailed => true end.

Section Benchmark.
(** [early n]: at its [n]-th reading the clock is before the deadline;
    [outcome n]: what the [n]-th [join_next] returns. *)
Context (early : nat → bool) (outcome : nat → Joined) (message_content : string)
  (max_concurrent : nat).

Record Bench := MkBench {
  bm_reads : nat;            (** readings of the clock so far *)
  bm_tasks : nat;            (** [tasks.len()] *)
  bm_sent : list string;     (** contents sent; [message_count] is their number *)
  bm_joined : nat;           (** tasks joined *)
  bm_errors : nat;           (** [error_count] *)
}.
Definition bench_new : Bench := MkBench 0 0 [] 0 0.

(** [format!("{message_content} #{message_count}")] *)
Definition numbered (k : nat) : string := message_content +:+ " #"%string +:+ pretty k.

Definition read_clock (b : Bench) : bool * Bench :=
  (early (bm_reads b),
   MkBench (S (bm_reads b)) (bm_tasks b) (bm_sent b) (bm_joined b) (bm_errors b)).
Definition spawn_send (b : Bench) : Bench :=
  MkBench (bm_reads b) (S (bm_tasks b))
    (bm_sent b ++ [numbered (length (bm_sent b))])%list
    (bm_joined b) (bm_errors b).
(** [join_next]; [None] on an empty set. *)
Definition join_next (b : Bench) : Bench :=
  match bm_tasks b with
  | O => b
  | S tasks =>
      MkBench (bm_reads b) tasks (bm_sent b) (S (bm_joined b))
        (bm_errors b + if join_failed (outcome (bm_joined b)) then 1 else 0)
  end.

(** The inner loop: [room] bounds what it can still spawn. *)
Fixpoint fill_loop (room : nat) (b : Bench) : Bench :=
  match room with
  | O => b
  | S room =>
      if (bm_tasks b <? max_concurrent)%nat then
        let '(go, b) := read_clock b in if go then fill_loop room (spawn_send b) else b
      else b
  end.

(** The outer loop; [fuel] bounds its iterations. *)
Fixpoint bench_loop (fuel : nat) (b : Bench) : option Bench :=
  match fuel with
  | O => None
  | S fuel =>
      let '(go, b) := read_clock b in
      if go then bench_loop fuel (join_next (fill_loop max_concurrent b)) else Some b
  end.

(** The tasks left are joined. *)
Fixpoint drain_loop (tasks : nat) (b : Bench) : Bench :=
  match tasks with
  | O => b
  | S tasks => drain_loop tasks (join_next b)
  end.

(** [benchmark_messages]: the number of messages, of errors, and of successes;
    the last is a subtraction that must not underflow ([None]). *)
Definition benchmark (fuel : nat) : option (nat * nat * option nat * Bench) :=
  b ← bench_loop fuel bench_new;
  let b := drain_loop (bm_tasks b) b in
  let messages := length (bm_sent b) in
  Some (messages, bm_errors b,
        if (bm_errors b <=? messages)%nat then Some (messages - bm_errors b) else None, b).

(** *** The counts *)

(** The failures among the first [n] joins. *)
Definition failures (n : nat) : nat := length (filter (λ k, join_failed (outcome k) = true) (seq 0 n)).

Record bench_ok (b : Bench) : Prop := {
  bo_tasks : bm_tasks b + bm_joined b = length (bm_sent b);
  bo_room : bm_tasks b ≤ max_concurrent;
  bo_errors : bm_errors b = failures (bm_joined b);
  bo_sent : bm_sent b =
    numbered <$> seq 0 (length (bm_sent b));
}.

Lemma bench_ok_new : bench_ok bench_new.
Proof. split; simpl; [done|lia|done|done]. Qed.
Lemma read_clock_ok b : bench_ok b → bench_ok (read_clock b).2.
Proof. by intros []. Qed.
Lemma spawn_send_ok b : bench_ok b → bm_tasks b < max_concurrent → bench_ok (spawn_send b).
Proof.
  intros [Ht Hr He Hs] Hlt. split; simpl; [rewrite length_app; simpl; lia|lia|done|].
  rewrite length_app, seq_app, fmap_app, <-Hs. done.
Qed.
Lemma join_next_ok b : bench_ok b → bench_ok (join_next b).
Proof.
  intros [Ht Hr He Hs]. unfold join_next. destruct (bm_tasks b) eqn:E; [by split; rewrite ?E|].
  split; simpl; [lia|lia| |done]. unfold failures in *.
  rewrite seq_S, filter_app, length_app, He. simpl.
  rewrite filter_cons. destruct (join_failed _) eqn:Ej; [by rewrite decide_True|].
  by rewrite decide_False.
Qed.
Lemma fill_loop_ok room b : bench_ok b → bench_ok (fill_loop room b).
Proof.
  revert b. induction room as [|room IH]; intros b Hb; simpl; [done|].
  destruct (bm_tasks b <? max_concurrent)%nat eqn:E; breflect; [|done].
  destruct (early (bm_reads b)); [|by apply read_clock_ok].
  apply IH, spawn_send_ok; [by apply read_clock_ok|done].
Qed.
Lemma fill_loop_reads room b : bm_reads b ≤ bm_reads (fill_loop room b).
Proof.
  revert b. induction room as [|room IH]; intros b; simpl; [done|].
  destruct (_ <? _)%nat; [|done]. destruct (early _); simpl; [|lia].
  etrans; [|apply IH]. simpl. lia.
Qed.
Lemma bench_loop_ok fuel b b' : bench_ok b → bench_loop fuel b = Some b' → bench_ok b'.
Proof.
  revert b. induction fuel as [|fuel IH]; intros b Hb; simpl; [done|].
  destruct (early (bm_reads b)); [|intros [= <-]; by apply (read_clock_ok b)].
  apply IH, join_next_ok, fill_loop_ok. by apply (read_clock_ok b).
Qed.
Lemma drain_loop_ok tasks b :
  bench_ok b → bm_tasks b = tasks →
  bench_ok (drain_loop tasks b) ∧ bm_tasks (drain_loop tasks b) = 0 ∧
  bm_sent (drain_loop tasks b) = bm_sent b.
Proof.
  revert b. induction tasks as [|tasks IH]; intros b Hb Et; simpl; [done|].
  destruct (IH (join_next b)) as (? & ? & Es); [by apply join_next_ok| |].
  - unfold join_next. by rewrite Et.
  - split_and!; [done..|]. rewrite Es. unfold join_next. by rewrite Et.
Qed.

(** Every iteration reads the clock. *)
Lemma bench_loop_total deadline fuel b :
  (∀ n, deadline ≤ n → early n = false) → 0 < fuel → deadline < fuel + bm_reads b →
  is_Some (bench_loop fuel b).
Proof.
  intros Hd. revert b. induction fuel as [|fuel IH]; intros b Hpos Hf; [lia|]. simpl.
  destruct (early (bm_reads b)) eqn:E; [|done].
  assert (bm_reads b < deadline).
  { destruct (decide (deadline ≤ bm_reads b)) as [Hle|]; [|lia]. by rewrite Hd in E. }
  apply IH; [lia|].
  assert (S (bm_reads b) ≤ bm_reads (join_next (fill_loop max_concurrent (read_clock b).2)));
    [|simpl in *; lia].
  transitivity (bm_reads (fill_loop max_concurrent (read_clock b).2));
    [|unfold join_next; by destruct (bm_tasks _)].
  apply (fill_loop_reads max_concurrent (read_clock b).2).
Qed.

(** Once the clock passes the deadline for good the benchmark ends, whatever
    the server answers and even with no concurrency at all; it joins
    every message it sent, numbers them in order, never has more than
    [max_concurrent] in flight, counts exactly the failed ones as errors, and
    the subtraction that yields the successes does not underflow. *)
Lemma benchmark_accounts deadline :
  (∀ n, deadline ≤ n → early n = false) →
  ∃ messages errors b,
    benchmark (S deadline) = Some (messages, errors, Some (messages - errors), b) ∧
    bm_joined b = messages ∧ bm_tasks b = 0 ∧ errors = failures messages ∧ errors ≤ messages ∧
    bm_sent b = numbered <$> seq 0 messages ∧
    ∀ fuel b', bench_loop fuel bench_new = Some b' → bm_tasks b' ≤ max_concurrent.
Proof.
  intros Hd. destruct (bench_loop_total deadline (S deadline) bench_new Hd) as [b Hb];
    [lia|simpl; lia|].
  pose proof (bench_loop_ok _ _ _ bench_ok_new Hb) as Hok.
  destruct (drain_loop_ok (bm_tasks b) b Hok eq_refl) as ([Ht Hr He Hs] & Hz & Es).
  set (b' := drain_loop (bm_tasks b) b) in *.
  assert (Hle : failures (bm_joined b') ≤ bm_joined b').
  { unfold failures. etrans; [apply length_filter|]. by rewrite length_seq. }
  assert (Ej : length (bm_sent b') = bm_joined b') by lia.
  exists (length (bm_sent b')), (bm_errors b'), b'. split_and!; try done; try lia.
  - unfold benchmark. rewrite Hb. simpl. fold b'.
    rewrite (proj2 (Nat.leb_le _ _)); [done|lia].
  - by rewrite Ej.
  - intros fuel b1 Hb1. by apply (bench_loop_ok _ _ _ bench_ok_new Hb1).
Qed.
End Benchmark.

(** ** The echo service *)

(** [EchoServiceImpl::echo]; the peer is the one of the connection's context. *)
Definition echo (peer : option string) (req : EchoRequest) : EchoResponse :=
  MkEchoResponse (echo_request_message req) (default "unknown"%string peer).

(** ** Concrete inputs *)

Module ExamplesDemo.
Import ListChannel ChatDemo ChatDeliveryDemo.

(** A peer sends a message dated before the epoch. *)
Definition demo_bad : ChatWorld :=
  default demo_world (chat_run demo_world
    (ChatSend 1 (MkSendMessageRequest "bob" "boo" (-1)) 8 :: replicate 4 (ChatStep 1 [] 0 0))).

Lemma negative_timestamp_crashes_witness :
  show_history 1700000000000000000
    (get_history (cw_state demo_bad) (history_request "bob" 10)) = None.
Proof.
  refine (proj2 (proj1 (negative_timestamp_crashes 1700000000000000000 (cw_state demo_bad)
    (history_request "bob" 10) [] _)) _).
  - intros m [Hm|Hm]; [|by apply elem_of_nil in Hm]. revert m Hm. apply Forall_forall.
    unfold is_i64. repeat constructor; vm_compute; discriminate.
  - exists (message_of_request (cw_state demo_world) (new_v4 8)
      (MkSendMessageRequest "bob" "boo" (-1))).
    split; [|vm_compute; reflexivity].
    apply (bool_decide_unpack _). vm_compute. exact I.
Defined.

(** The stream of [ChatDemo]. *)
(** Eight readings before the deadline, two in flight, every third join fails. *)
Definition demo_early (n : nat) : bool := n <? 8.
Definition demo_outcome (n : nat) : Joined :=
  if n mod 3 =? 2 then JoinedStatus else JoinedResponse true.

End ExamplesDemo.
