(* ===== verification/ChatSession.v ===== *)
(** * The interactive session of the chat example

    [interactive_chat] ([examples/chat/src/main.rs]) with the call it makes: the
    body of [chat_stream] is the receiving half of a channel whose sending half
    the function keeps for its loop, and the call is [IrohChannel]'s ([Bidi]). *)
From S2P Require Import Prelude Tokio PoolActor Errors Channel Bidi Examples.

Section Session.
Context {ConnectError Trailers Parts : Type} `{!Mpsc}.
Abbreviation CallState := (CallState ConnectError Trailers Parts).
Abbreviation CallEvent := (CallEvent ConnectError Trailers Parts).

(** What tonic sends for the message made of a line. *)
Context (encode : bytes → bytes).

(** [interactive_chat] awaits [chat_stream], reads its input, or is over; an
    error of the call is the [?]. *)
Inductive SessionPc :=
  | SsCall
  | SsLoop
  | SsOver (r : Result (option (Error ConnectError)) unit).   (** [Err None]: the input failed *)

(** [ss_tx]: [tx] is not dropped; [ss_sent]: the contents sent. *)
Record ChatSession := MkChatSession {
  ss_pc : SessionPc;
  ss_call : CallState;
  ss_chan : chan bytes;
  ss_tx : bool;
  ss_input : list ReadLine;
  ss_sent : list bytes;
}.

(** Up to the first poll of the call. *)
Definition session_new (input : list ReadLine) : option ChatSession :=
  c ← mpsc_channel 100; Some (MkChatSession SsCall call_new c true input []).

Inductive SessionLabel :=
  | SsEvent (ev : CallEvent)   (** the call's future is polled *)
  | SsLine.                    (** the loop takes a line *)

(** What the call's body finds in the channel: [None] if the event cannot come
    now, else the channel after it. *)
Definition body_event (s : ChatSession) (ev : CallEvent) : option (chan bytes) :=
  match ev with
  | EvStart _ body_is_empty _ => if body_is_empty then None else Some (ss_chan s)
  | EvFrame (Ok (FData data)) _ =>
      '(content, c) ← recv (ss_chan s);
      if decide (data = encode content) then Some c else None
  | EvFrame (Err _) _ => '(_, c) ← recv (ss_chan s); Some c   (** a message that cannot be encoded *)
  | EvFrame _ _ => None
  | EvBodyEnd _ =>
      match queued (ss_chan s) with [] => if ss_tx s then None else Some (ss_chan s) | _ => None end
  | _ => Some (ss_chan s)
  end.

(** The function's locals are dropped when it returns. *)
Definition session_over (r : Result (option (Error ConnectError)) unit) (s : ChatSession) : ChatSession :=
  MkChatSession (SsOver r) (ss_call s) (ss_chan s) false (ss_input s) (ss_sent s).

(** The [await] of [chat_stream] sees the call's result. *)
Definition session_awaits (s : ChatSession) : ChatSession :=
  match ss_pc s, ca_pc (ss_call s) with
  | SsCall, CpDone (Ok _) =>
      MkChatSession SsLoop (ss_call s) (ss_chan s) (ss_tx s) (ss_input s) (ss_sent s)
  | SsCall, CpDone (Err e) => session_over (Err (Some e)) s
  | _, _ => s
  end.

(** One turn of the loop; the send waits while the channel is full. *)
Definition session_line (s : ChatSession) : option ChatSession :=
  match ss_input s with
  | [] => Some (session_over (Ok tt) s)
  | ReadError :: _ => Some (session_over (Err None) s)
  | ReadBytes bs :: input =>
      let content := trim bs in
      let s := MkChatSession SsLoop (ss_call s) (ss_chan s) (ss_tx s) input (ss_sent s) in
      if decide (bs = [] ∨ content = string_bytes "quit") then Some (session_over (Ok tt) s)
      else if decide (content = []) then Some s
      else
        let '(o, c) := try_send content (ss_chan s) in
        match o with
        | SendOk => Some (MkChatSession SsLoop (ss_call s) c (ss_tx s) input (ss_sent s ++ [content]))
        | SendFull => None
        | SendClosed => Some (session_over (Ok tt) s)
        end
  end.

Definition session_step (s : ChatSession) (l : SessionLabel) : option ChatSession :=
  match l with
  | SsEvent ev =>
      c ← body_event s ev;
      call ← call_step (ss_call s) ev;
      Some (session_awaits (MkChatSession (ss_pc s) call c (ss_tx s) (ss_input s) (ss_sent s)))
  | SsLine => match ss_pc s with SsLoop => session_line s | _ => None end
  end.

Fixpoint session_run (s : ChatSession) (ls : list SessionLabel) : option ChatSession :=
  match ls with
  | [] => Some s
  | l :: ls => s ← session_step s l; session_run s ls
  end.
End Session.
#[global] Arguments ChatSession _ _ _ {_}.
#[global] Arguments SessionLabel : clear implicits.

Section SessionFacts.
Context {ConnectError Trailers Parts : Type} `{!Mpsc, !MpscLaws} (encode : bytes → bytes).
Abbreviation ChatSession := (ChatSession ConnectError Trailers Parts).
Implicit Types (s : ChatSession) (l : SessionLabel ConnectError Trailers Parts).

(** The session before its call has answered: the channel is empty, and nobody
    but the session could fill or close it. *)
Record waiting (input : list ReadLine) s : Prop := {
  wa_pc : ss_pc s = SsCall;
  wa_call : ca_pc (ss_call s) = CpStart ∨ ca_pc (ss_call s) = CpBody;
  wa_ops : ca_ops (ss_call s) = [];
  wa_chan : queued (ss_chan s) = [];
  wa_tx : ss_tx s = true;
  wa_input : ss_input s = input;
  wa_sent : ss_sent s = [];
}.

(** The session of a call that could not even send its headers. *)
Record refused (input : list ReadLine) s : Prop := {
  re_pc : ∃ e, ss_pc s = SsOver (Err (Some e)) ∧ ca_pc (ss_call s) = CpDone (Err e);
  re_ops : ca_ops (ss_call s) = [];
  re_input : ss_input s = input;
  re_sent : ss_sent s = [];
}.

Lemma waiting_step input s l s' :
  waiting input s → session_step encode s l = Some s' →
  (waiting input s' ∨ refused input s') ∧ (ca_pc (ss_call s) = CpBody → s' = s).
Proof.
  intros [Hpc Hcall Hops Hchan Htx Hin Hsent]. destruct s as [pc [cpc n ops] c tx input' sent'].
  simpl in *. subst. unfold session_step. simpl.
  destruct l as [ev|]; [|done]. intros (c' & Hb & (st & Hst & [= <-])%bind_Some)%bind_Some.
  unfold body_event, call_step in *. simpl in *. rewrite Hchan, (recv_empty _ c Hchan) in *.
  destruct Hcall as [-> | ->].
  - destruct ev as [[u|e] [] [u'|e']| |[[]|]| | |]; simplify_eq/=.
    + split; [left|done]. by split; simpl; auto.
    + split; [right|done]. split; simpl; eauto.
    + split; [right|done]. split; simpl; eauto.
    + split; [right|done]. split; simpl; eauto.
  - destruct ev as [| |[[]|] []|[]| |]; simplify_eq/=. split; [left|done]. by split; simpl; auto.
Qed.

Lemma refused_step input s l : refused input s → session_step encode s l = None.
Proof.
  intros [(e & Hpc & Hcall) _ _ _]. destruct l as [ev|]; simpl; [|by rewrite Hpc].
  unfold call_step. rewrite Hcall. by destruct (body_event encode s ev).
Qed.

(** The loop, turn by turn, is [interactive_loop]: were it reached, with a body
    that is read or has room, it would send what that says and end like it. *)
Lemma session_lines s :
  ss_pc s = SsLoop → rx_closed (ss_chan s) = false →
  length (queued (ss_chan s)) + length (ss_input s) ≤ capacity (ss_chan s) →
  ∃ n s', session_run encode s (replicate n SsLine) = Some s' ∧
    ss_sent s' = ss_sent s ++ (interactive_loop (ss_input s) []).1 ∧
    ss_pc s' = SsOver (match (interactive_loop (ss_input s) []).2 with
                       | SessionOk => Ok tt | SessionError => Err None end).
Proof.
  destruct s as [pc call c tx input sent]. simpl. intros ->. revert c sent.
  induction input as [|[|bs] input IH]; intros c sent Hopen Hroom; simpl in *;
    [exists 1; eexists; simpl; by rewrite app_nil_r..|].
  destruct bs as [|b bs]; [exists 1; eexists; simpl; by rewrite app_nil_r|].
  set (content := trim (b :: bs)). destruct (decide (content = string_bytes "quit")) as [Eq|Nq].
  { exists 1. eexists. cbn [replicate session_run session_step ss_pc session_line ss_input].
    fold content. rewrite decide_True by auto. simpl. by rewrite app_nil_r. }
  destruct (decide (content = [])) as [Ee|Ne].
  - destruct (IH c sent Hopen) as (n & s' & Hrun & Hs & Hp); [lia|]. exists (S n), s'.
    cbn [replicate session_run session_step ss_pc session_line ss_input]. fold content.
    rewrite decide_False by naive_solver. by rewrite decide_True.
  - destruct (try_send_ok _ content c Hopen) as (c' & Ht & Hq & Hc & Ho); [lia|].
    destruct (IH c' (sent ++ [content]) Ho) as (n & s' & Hrun & Hs & Hp).
    { rewrite Hq, Hc, length_app. simpl. lia. }
    exists (S n), s'. cbn [replicate session_run session_step ss_pc session_line ss_input].
    fold content. rewrite decide_False by naive_solver. rewrite decide_False by done.
    cbn [ss_chan]. rewrite Ht. cbn [mbind option_bind ss_call ss_tx ss_sent]. rewrite Hrun.
    destruct (interactive_loop input []) as [sent' e]. simpl in *. split_and!; [done| |done].
    by rewrite Hs, <-app_assoc.
Qed.

(** C6: [interactive_chat] never gets to its prompt.  Its call sends the
    request body to its end before it awaits the response; the body ends when
    [tx] is dropped; and [tx] is dropped by the function that awaits the call.
    So, whatever the server does and however long one waits: the session still
    awaits the call, with its headers sent, no message sent and no line of its
    input read, and every further poll of the call leaves it as it is; unless
    the headers could not be sent, which is an error. *)
Theorem interactive_chat_never_prompts input s0 ls s :
  session_new input = Some s0 → session_run encode s0 ls = Some s →
  ss_input s = input ∧ ss_sent s = [] ∧ ca_ops (ss_call s) = [] ∧
  ((ss_pc s = SsCall ∧
    (ca_pc (ss_call s) = CpBody → ∀ l s', session_step encode s l = Some s' → s' = s)) ∨
   (∃ e, ss_pc s = SsOver (Err (Some e)) ∧ ca_pc (ss_call s) = CpDone (Err e))).
Proof.
  intros Hnew Hrun.
  assert (waiting input s0) as Hw.
  { unfold session_new in Hnew. apply bind_Some in Hnew as (c & Hc & [= <-]).
    destruct (mpsc_channel_pos bytes 100) as (c' & Hc' & Hq & _); [lia|].
    assert (c = c') as -> by congruence. by split; simpl; auto. }
  assert (waiting input s ∨ refused input s) as [Hs|Hs].
  { clear Hnew. revert s0 Hw Hrun. induction ls as [|l ls IH]; intros s0 Hw Hrun; simpl in Hrun.
    { injection Hrun as <-. by left. }
    apply bind_Some in Hrun as (s1 & Hst & Hrun).
    destruct (waiting_step _ _ _ _ Hw Hst) as [[Hw1|Hr1] _]; [by apply (IH s1)|].
    destruct ls as [|l' ls]; simpl in Hrun; [injection Hrun as <-; by right|].
    by rewrite (refused_step _ _ _ Hr1) in Hrun. }
  - destruct (Hs) as [Hpc Hcall Hops Hchan Htx Hin Hsent]. split_and!; [done..|]. left. split; [done|].
    intros Hbody l s' Hst. by eapply waiting_step.
  - destruct Hs as [Hpc Hops Hin Hsent]. split_and!; [done..|]. by right.
Qed.
End SessionFacts.

(** ** Concrete inputs *)

Module ChatSessionDemo.
Import ListChannel.

Definition demo_input : list ReadLine := [ReadBytes (string_bytes "hi"); ReadBytes (string_bytes "quit")].
Definition demo_labels : list (SessionLabel unit unit unit) :=
  [SsEvent (EvStart (Ok (MkUriParts None None None)) false (Ok tt)); SsEvent EvPending; SsEvent EvPending].
Definition demo_session : option (ChatSession unit unit unit) :=
  s ← session_new demo_input; session_run (λ content, content) s demo_labels.

(** The loop, had the call answered. *)
Definition prompted : ChatSession unit unit unit :=
  MkChatSession SsLoop (MkCallState (CpDone (Ok tt)) 0 []) (LChan [] 100 false) true demo_input [].
Example prompted_sends :
  (ss_pc <$> session_run (λ content, content) prompted [SsLine; SsLine],
   ss_sent <$> session_run (λ content, content) prompted [SsLine; SsLine])
  = (Some (SsOver (Ok tt)), Some [string_bytes "hi"]).
Proof. vm_compute. reflexivity. Qed.

Lemma interactive_chat_never_prompts_witness :
  match demo_session with
  | Some s => ss_input s = demo_input ∧ ss_pc s = SsCall ∧
      ∀ l s', session_step (λ content, content) s l = Some s' → s' = s
  | None => False
  end.
Proof.
  destruct (session_new (ConnectError := unit) (Trailers := unit) (Parts := unit) demo_input)
    as [s0|] eqn:E0; [|discriminate E0].
  destruct (session_run (λ content, content) s0 demo_labels) as [s|] eqn:E.
  - assert (demo_session = Some s) as -> by (unfold demo_session; rewrite E0; exact E).
    destruct (interactive_chat_never_prompts (λ content, content) demo_input s0 demo_labels s E0 E)
      as (Hin & _ & _ & [[Hpc Hstay]|(e & Hpc & _)]).
    + split; [exact Hin|]. split; [exact Hpc|]. apply Hstay.
      injection E0 as <-. injection E as <-. reflexivity.
    + injection E0 as <-. injection E as <-. discriminate Hpc.
  - injection E0 as <-. discriminate E.
Defined.
End ChatSessionDemo.
