(* ===== verification/ChatMain.v ===== *)
(** * The chat program

    Models [src/examples/chat/src/main.rs] as a process: the command line, the
    set-up of the endpoint and the node by [main], the task that connects to
    another node and runs a command there, and how the process ends.  The node is
    that of [ChatNode], connecting is [Client]'s, the commands are those of
    [Examples].  Parsing the command line is clap's, and the endpoint, its keys
    and its addresses are iroh's. *)
From stdpp Require Import pretty.
From S2P Require Import Prelude Tokio Iroh UserData Alpn Errors Client Server Lifecycle.
From S2P Require Import ChatPb ChatGrpc ChatServer ChatMoves ChatBoard ChatDelivery ChatNode Examples.
Local Open Scope string_scope.

(** ** The command line *)

(** [Args]; [u16] and [u64] arguments are in range. *)
Record Args := MkArgs {
  arg_secret_key : option string;
  arg_relay_url : list string;
  arg_port : Z;
  arg_verbose : bool;
  arg_no_relay : bool;
  arg_max_requests : option Z;
  arg_connect_to : option string;
  arg_target_addresses : list string;
  arg_command : option Command;
}.

(** ** Start-up *)

(** iroh's defaults for an endpoint. *)
Inductive Preset := N0 | N0DisableRelay.

Section Program.
Context {SecretKey EndpointId SocketAddr EndpointAddr ConnectError Ch PcError AnyError : Type}.
Context `{!Mpsc, !Postcard PcError (list bytes), !Base64, !UserDataOps}.

(** What [main] asks of the endpoint's builder. *)
Record EndpointSetup := MkEndpointSetup {
  es_preset : Preset;
  es_secret_key : option SecretKey;
  es_bind_port : option Z;
}.

(** iroh's parsers, constructors and builder. *)
Context (secret_key_from_str : string → Result AnyError SecretKey).
Context (endpoint_id_from_str : string → Result AnyError EndpointId).
Context (endpoint_id_to_string : EndpointId → string).
Context (socket_addr_from_str : string → Result AnyError SocketAddr).
Context (endpoint_addr_new : EndpointId → EndpointAddr).
Context (with_ip_addr : SocketAddr → EndpointAddr → EndpointAddr).
Context (bind_addr : Z → Result AnyError unit).
Context (endpoint_bind : EndpointSetup → Result AnyError EndpointId).
(** [Client]'s message for a timeout, the build's overflow checks, and when
    tonic's graceful shutdown may return. *)
Context (timed_out_message : Z → string) (overflow_checks : bool) (tonic_ends : ChatWorld → bool).

(** The builder, in the order of [main]'s calls. *)
Definition endpoint_setup (args : Args) : Result AnyError EndpointSetup :=
  let preset := if arg_no_relay args then N0DisableRelay else N0 in
  secret_key ← match arg_secret_key args with
               | Some s => Some <$> secret_key_from_str s
               | None => Ok None
               end;
  port ← (if (0 <? arg_port args)%Z
          then (λ _, Some (arg_port args)) <$> bind_addr (arg_port args) else Ok None);
  Ok (MkEndpointSetup preset secret_key port).

Inductive MainError :=
  | SetupFailed (e : AnyError)
  | SpawnFailed (e : MetadataError PcError).

(** [main] up to the [spawn] of its transport; [None] is a panic. *)
Definition start_node (args : Args) : option (Result MainError ChatNode) :=
  match (setup ← endpoint_setup args; endpoint_bind setup) with
  | Err e => Some (Err (SetupFailed e))
  | Ok id =>
      spawned ← spawn (EndpointId := EndpointId) (PcError := PcError) (build chat_node_calls);
      Some (match spawned with
            | Err e => Err (SpawnFailed e)
            | Ok t => Ok (chat_node_new (endpoint_id_to_string id) (arg_max_requests args) t)
            end)
  end.

(** ** The outgoing connection *)

Inductive CommandError :=
  | TargetInvalid (e : AnyError)
  | NotConnected (e : Error ConnectError)
  | CallFailed (e : Status)
  | InputFailed.

(** How a command ends: with what it showed, with the error [?] returns, or in a
    panic of its task. *)
Inductive CommandEnd :=
  | CmdOk (shown : list string)
  | CmdErr (e : CommandError)
  | CmdPanic.

Fixpoint add_addresses (addr : EndpointAddr) (addresses : list string)
  : Result AnyError EndpointAddr :=
  match addresses with
  | [] => Ok addr
  | s :: addresses => a ← socket_addr_from_str s; add_addresses (with_ip_addr a addr) addresses
  end.
Definition target_addr (target : string) (addresses : list string)
  : Result AnyError (EndpointId * EndpointAddr) :=
  id ← endpoint_id_from_str target;
  addr ← match addresses with
         | [] => Ok (endpoint_addr_new id)
         | _ => add_addresses (endpoint_addr_new id) addresses
         end;
  Ok (id, addr).

(** What the task meets: the two connections, the clock, and the peer's answer
    to each call, its streams up to their end.  Over this crate's channel the
    call of [interactive_chat] is not answered at all: [ChatSession]. *)
Record Session := MkSession {
  sn_chat_connect : ConnectEnv EndpointAddr ConnectError Ch;
  sn_node_connect : ConnectEnv EndpointAddr ConnectError Ch;
  sn_now : Z;   (** nanoseconds since the epoch *)
  sn_send : SendMessageRequest → Result Status SendMessageResponse;
  sn_subscribe : Result Status (list (Result Status SubscribeMessagesResponse));
  sn_history : GetHistoryRequest → Result Status GetHistoryResponse;
  sn_stream : Result Status unit;
  sn_replies : list (Result Status ChatStreamResponse);  (** up to the task's abort *)
  sn_input : list ReadLine;    (** the lines of the standard input *)
  sn_sends : list bool;        (** whether a line's send finds the receiver *)
  sn_ping : PingRequest → Result Status PingResponse;
  sn_node_info : Result Status GetNodeInfoResponse;
  sn_peers : Result Status (list PeerInfo);
  sn_shutdown : Result Status unit;
  sn_early : nat → bool;       (** the benchmark's clock and answers *)
  sn_joined : nat → Joined;
  sn_iterations : nat;
}.

Definition called {A} (r : Result Status A) (k : A → CommandEnd) : CommandEnd :=
  match r with Ok a => k a | Err e => CmdErr (CallFailed e) end.
Definition shows (lines : option (list string)) : CommandEnd :=
  match lines with Some lines => CmdOk lines | None => CmdPanic end.

(** *** The commands' functions *)

Definition send_message (s : Session) (req : SendMessageRequest) : CommandEnd :=
  called (sn_send s req) (λ r, CmdOk [show_send r]).
Definition subscribe_messages (s : Session) : CommandEnd :=
  called (sn_subscribe s) (λ items, shows (show_subscription (sn_now s) items)).
Definition get_history_command (s : Session) (req : GetHistoryRequest) : CommandEnd :=
  called (sn_history s req) (λ r,
    shows (cons ("Retrieved " +:+ pretty (length (history_messages r)) +:+ " messages:") <$>
           show_history (sn_now s) r)).
Definition interactive_chat (s : Session) : CommandEnd :=
  called (sn_stream s) (λ _,
    match (interactive_loop (sn_input s) (sn_sends s)).2 with
    | SessionOk => CmdOk (show_replies (sn_replies s))
    | SessionError => CmdErr InputFailed
    end).
Definition ping_node (s : Session) (req : PingRequest) : CommandEnd :=
  called (sn_ping s req) (λ r, shows ((λ line, [line]) <$> show_ping overflow_checks r)).
Definition get_node_info_command (s : Session) : CommandEnd :=
  called (sn_node_info s) (λ r, CmdOk (show_node_info r)).
Definition list_peers_command (s : Session) : CommandEnd :=
  called (sn_peers s) (λ peers, shows (show_peers (sn_now s) peers)).
Definition shutdown_node (s : Session) : CommandEnd :=
  called (sn_shutdown s) (λ _, CmdOk ["Shutdown request sent successfully"]).
(** Of the results, the lines without floating point.  [None]: the loop has not
    ended. *)
Definition benchmark_messages (s : Session) (message : string) (concurrent : nat)
  : option CommandEnd :=
  '(messages, errors, successes, _) ←
    benchmark (sn_early s) (sn_joined s) message concurrent (sn_iterations s);
  Some (match successes with
        | Some _ => CmdOk ["Total messages: " +:+ pretty (messages : nat);
                           "Errors: " +:+ pretty (errors : nat)]
        | None => CmdPanic
        end).

Definition run_command (s : Session) (call : FirstCall) : option CommandEnd :=
  match call with
  | CallSendMessage req => Some (send_message s req)
  | CallSubscribeMessages => Some (subscribe_messages s)
  | CallGetHistory req => Some (get_history_command s req)
  | CallChatStream => Some (interactive_chat s)
  | CallPing req => Some (ping_node s req)
  | CallGetNodeInfo => Some (get_node_info_command s)
  | CallListPeers => Some (list_peers_command s)
  | CallBenchmark _ message _ concurrent => benchmark_messages s message concurrent
  | CallShutdown => Some (shutdown_node s)
  end.

(** The task's function: it parses the target, then its addresses, connects to the
    two services in turn and runs the command. *)
Definition connect_and_execute_command (s : Session) (target : string) (addresses : list string)
  (command : option Command) : option CommandEnd :=
  match target_addr target addresses with
  | Err e => Some (CmdErr (TargetInvalid e))
  | Ok (id, addr) =>
      chat ← into_future timed_out_message (sn_chat_connect s) (iroh_connect CHAT_SERVICE_NAME addr);
      match chat with
      | Err e => Some (CmdErr (NotConnected e))
      | Ok _ =>
          node ← into_future timed_out_message (sn_node_connect s)
                   (iroh_connect NODE_SERVICE_NAME addr);
          match node with
          | Err e => Some (CmdErr (NotConnected e))
          | Ok _ =>
              run_command s
                (execute_command (endpoint_id_to_string id) (utc_timestamp (sn_now s)) command)
          end
      end
  end.

(** ** The process *)

(** The task [main] spawns for [--connect-to]. *)
Inductive ClientTask :=
  | ClientNone
  | ClientRunning
  | ClientEnded (r : CommandEnd).

Record Program := MkProgram {
  pg_node : ChatNode;
  pg_client : ClientTask;
  pg_exit : option Z;    (** the exit code *)
}.

(** The process once [main] has reached its [select!]; [Err]: [main] returns the
    error. *)
Definition main_start (args : Args) : option (Result MainError Program) :=
  started ← start_node args;
  Some (match started with
        | Err e => Err e
        | Ok node =>
            Ok (MkProgram node
                  (match arg_connect_to args with Some _ => ClientRunning | None => ClientNone end)
                  None)
        end).

(** The exit code after the start-up: a [main] that returns an error makes the
    process exit with code 1. *)
Definition start_exit (started : Result MainError Program) : option Z :=
  match started with Ok p => pg_exit p | Err _ => Some 1%Z end.

Inductive ProgramLabel :=
  | PgNode (l : NodeLabel)       (** the node, or [main] *)
  | PgClient (s : Session).      (** the client's task ends *)

(** [process::exit(0)] follows a command that succeeded; an error is logged, and
    a panic ends just the task. *)
Definition program_step (args : Args) (p : Program) (l : ProgramLabel) : option Program :=
  match pg_exit p with
  | Some _ => None
  | None =>
      match l with
      | PgNode l =>
          node ← node_step tonic_ends (pg_node p) l;
          Some (MkProgram node (pg_client p)
                  (match cn_main node with MainExit => Some 0%Z | _ => None end))
      | PgClient s =>
          match pg_client p, arg_connect_to args with
          | ClientRunning, Some target =>
              r ← connect_and_execute_command s target (arg_target_addresses args) (arg_command args);
              Some (MkProgram (pg_node p) (ClientEnded r)
                      (match r with CmdOk _ => Some 0%Z | _ => None end))
          | _, _ => None
          end
      end
  end.

Fixpoint program_run (args : Args) (p : Program) (ls : list ProgramLabel) : option Program :=
  match ls with
  | [] => Some p
  | l :: ls => p ← program_step args p l; program_run args p ls
  end.

(** *** Start-up *)

Context `{!MpscLaws, !PostcardLaws PcError (list bytes), !Base64Laws, !UserDataLaws}.

(** The builder is asked for what the command line says, and [--relay-url] says
    nothing. *)
Lemma endpoint_setup_spec args setup :
  endpoint_setup args = Ok setup ↔
  es_preset setup = (if arg_no_relay args then N0DisableRelay else N0) ∧
  match arg_secret_key args with
  | Some s => ∃ key, secret_key_from_str s = Ok key ∧ es_secret_key setup = Some key
  | None => es_secret_key setup = None
  end ∧
  (if (0 <? arg_port args)%Z
   then bind_addr (arg_port args) = Ok tt ∧ es_bind_port setup = Some (arg_port args)
   else es_bind_port setup = None).
Proof.
  destruct setup as [preset key port]. unfold endpoint_setup. simpl.
  destruct (arg_secret_key args) as [s|]; simpl;
    [destruct (secret_key_from_str s) as [k|e]; simpl; [|naive_solver]|];
    (destruct (0 <? arg_port args)%Z; simpl;
      [destruct (bind_addr (arg_port args)) as [[]|e']; simpl|]); naive_solver.
Qed.
Lemma relay_url_ignored args urls :
  main_start (MkArgs (arg_secret_key args) urls (arg_port args) (arg_verbose args)
    (arg_no_relay args) (arg_max_requests args) (arg_connect_to args) (arg_target_addresses args)
    (arg_command args)) = main_start args.
Proof. done. Qed.

(** [main] reaches its [select!], or returns an error. *)
Lemma main_start_Ok args p :
  main_start args = Some (Ok p) →
  ∃ id t, pg_node p = chat_node_new (EndpointId := EndpointId) (endpoint_id_to_string id)
                        (arg_max_requests args) t ∧
    pg_exit p = None ∧
    pg_client p = match arg_connect_to args with Some _ => ClientRunning | None => ClientNone end.
Proof.
  unfold main_start, start_node. destruct (_ ← endpoint_setup args; _) as [id|e]; [|done].
  destruct (spawn _) as [[t|e]|]; simpl; try done. intros [= <-]. by exists id, t.
Qed.
Lemma start_exit_spec args started :
  main_start args = Some started →
  start_exit started = match started with Ok _ => None | Err _ => Some 1%Z end.
Proof.
  destruct started as [p|e]; [|done]. intros (? & ? & _ & He & _)%main_start_Ok. exact He.
Qed.
Lemma start_setup_error args started e :
  main_start args = Some started →
  (setup ← endpoint_setup args; endpoint_bind setup) = Err e → start_exit started = Some 1%Z.
Proof. unfold main_start, start_node. intros Hs E. rewrite E in Hs. by injection Hs as <-. Qed.
Lemma main_start_total args : is_Some (main_start args).
Proof.
  unfold main_start, start_node. destruct (_ ← endpoint_setup args; _) as [id|e]; [|done].
  pose proof (transport_spawn (EndpointId := EndpointId) (PcError := PcError) chat_node_calls).
  by destruct (spawn _).
Qed.

(** *** The end of the process *)

Definition program_node_label (l : ProgramLabel) : option NodeLabel :=
  match l with PgNode l => Some l | PgClient _ => None end.
Abbreviation node_labels ls := (omap program_node_label ls).

Definition client_done (c : ClientTask) : bool :=
  match c with ClientEnded (CmdOk _) => true | _ => false end.

(** The exit code tells why the process is over, and what has run. *)
Record program_inv (args : Args) (n0 : ChatNode) (ls : list ProgramLabel) (p : Program) : Prop := {
  pi_node : node_run tonic_ends n0 (node_labels ls) = Some (pg_node p);
  pi_exit : pg_exit p =
    if client_done (pg_client p) || bool_decide (cn_main (pg_node p) = MainExit) then Some 0%Z else None;
  pi_client : match pg_client p with
    | ClientNone => arg_connect_to args = None
    | ClientRunning => is_Some (arg_connect_to args)
    | ClientEnded r => ∃ s target, PgClient s ∈ ls ∧ arg_connect_to args = Some target ∧
        connect_and_execute_command s target (arg_target_addresses args) (arg_command args) = Some r
    end;
}.

Lemma program_step_inv args n0 ls l p p' :
  program_inv args n0 ls p → program_step args p l = Some p' → program_inv args n0 (ls ++ [l]) p'.
Proof.
  intros [Hn He Hc]. unfold program_step. destruct (pg_exit p) eqn:Ex; [done|].
  destruct (client_done _) eqn:Ed, (bool_decide (cn_main (pg_node p) = _)) eqn:Em; try done.
  destruct l as [l|s].
  - intros (node & Hst & [= <-])%bind_Some. split; simpl.
    + rewrite omap_app, node_run_app, Hn. simpl. by rewrite Hst.
    + rewrite Ed. simpl. by destruct (cn_main node).
    + destruct (pg_client p); [done..|]. destruct Hc as (s & tg & ? & ? & ?). exists s, tg. set_solver.
  - destruct (pg_client p) eqn:Ec; [done| |done].
    destruct (arg_connect_to args) as [target|] eqn:Et; [|done].
    intros (r & Hr & [= <-])%bind_Some. split; simpl.
    + rewrite omap_app, node_run_app, Hn. done.
    + rewrite Em. by destruct r.
    + exists s, target. set_solver.
Qed.

Lemma program_run_inv_from args n0 before ls p p' :
  program_inv args n0 before p → program_run args p ls = Some p' →
  program_inv args n0 (before ++ ls) p'.
Proof.
  revert before p. induction ls as [|l ls IH]; intros before p Hinv; simpl.
  - rewrite app_nil_r. by intros [= <-].
  - intros (p1 & Hst & Hrun)%bind_Some. replace (before ++ l :: ls)%list with ((before ++ [l]) ++ ls)%list by by rewrite <-app_assoc.
    apply (IH _ p1); [by eapply program_step_inv|done].
Qed.
Lemma program_run_inv args p0 ls p :
  main_start args = Some (Ok p0) → program_run args p0 ls = Some p →
  program_inv args (pg_node p0) ls p.
Proof.
  intros Hs. apply (program_run_inv_from args (pg_node p0) []).
  apply main_start_Ok in Hs as (id & t & En & Ee & Ec). split; [done| |].
  - rewrite Ee, En, Ec. simpl. by destruct (arg_connect_to args).
  - rewrite Ec. by destruct (arg_connect_to args).
Qed.

(** The run of the program's own chat server. *)
Abbreviation server_labels ls := (omap node_chat_label (node_labels ls)).

(** C23: how a chat program ends.  If the start-up fails, among others for a
    [--secret-key] that is none or an endpoint that cannot be bound, [main] returns the
    error and the exit code is 1; otherwise it reaches its [select!] and has not
    exited.  From there on the exit code is always 0, and there is one exactly if the
    command the program was given has succeeded or [main] has returned.  [main]
    returns then only after ctrl-c or when the node was asked to stop, with the
    transport shut down; the command's success ends the process at once,
    whatever calls its own server is answering.  A command that fails, or
    whose task panics, changes nothing: the process goes on as a node, and
    nothing but a stopping node ends it. *)
Theorem program_exits args started :
  main_start args = Some started →
  (start_exit started = match started with Ok _ => None | Err _ => Some 1%Z end) ∧
  (∀ s e, arg_secret_key args = Some s → secret_key_from_str s = Err e →
     start_exit started = Some 1%Z) ∧
  (∀ setup e, endpoint_setup args = Ok setup → endpoint_bind setup = Err e →
     start_exit started = Some 1%Z) ∧
  ∀ p0 ls p, started = Ok p0 → program_run args p0 ls = Some p →
  NoDup (random <$> subscription_hashes (server_labels ls)) →
  (Z.of_nat (answered_count (cn_chat (pg_node p))) ≤ u64_max)%Z →
  (∀ code, pg_exit p = Some code → code = 0%Z) ∧
  (is_Some (pg_exit p) ↔
     (∃ shown, pg_client p = ClientEnded (CmdOk shown)) ∨ cn_main (pg_node p) = MainExit) ∧
  (cn_main (pg_node p) = MainExit →
     driver_ended (cn_life (pg_node p)) = true ∧ lf_router_down (cn_life (pg_node p)) = true ∧
     (PgNode NodeCtrlC ∉ ls → asked_to_stop (arg_max_requests args) (node_labels ls) (pg_node p))) ∧
  (∀ r, pg_client p = ClientEnded r → (∀ shown, r ≠ CmdOk shown) →
     (∃ s target, PgClient s ∈ ls ∧ arg_connect_to args = Some target ∧
        connect_and_execute_command s target (arg_target_addresses args) (arg_command args) = Some r) ∧
     (cn_main (pg_node p) ≠ MainExit → pg_exit p = None ∧
      ∀ l, is_Some (program_step args p (PgNode l)) ↔ is_Some (node_step tonic_ends (pg_node p) l))).
Proof.
  intros Hs. split; [by eapply start_exit_spec|]. split; [|split].
  { intros s e Ea Ek. eapply start_setup_error; [exact Hs|].
    unfold endpoint_setup. by rewrite Ea, Ek. }
  { intros setup e Ea Eb. eapply start_setup_error; [exact Hs|]. by rewrite Ea. }
  intros p0 ls p -> Hrun Hnd Hlim. destruct (program_run_inv _ _ _ _ Hs Hrun) as [Hn He Hc].
  destruct (main_start_Ok _ _ Hs) as (id & t & En & _ & _). rewrite En in Hn.
  split_and!.
  - intros code. rewrite He. destruct (_ || _); congruence.
  - rewrite He. unfold client_done. destruct (pg_client p) as [| |[]]; simpl;
      try (destruct (bool_decide_reflect (cn_main (pg_node p) = MainExit)); simpl); naive_solver.
  - intros Hm. destruct (node_exit_down _ _ _ _ _ _ Hn Hm) as [? ?]. split_and!; [done..|].
    intros Hni. eapply node_left_asked; [exact Hnd|exact Hn|done|congruence|].
    intros ([|] & ? & [= ->])%list_elem_of_omap. done.
  - intros r Er Hr. rewrite Er in Hc. destruct Hc as (s & tg & ? & ? & ?).
    split; [by exists s, tg|]. intros Hm. rewrite He, Er, bool_decide_eq_false_2 by done.
    assert (client_done (ClientEnded r) = false) as -> by (destruct r; naive_solver).
    split; [done|]. intros l. unfold program_step.
    assert (pg_exit p = None) as ->.
    { rewrite He, Er, bool_decide_eq_false_2 by done. destruct r; naive_solver. }
    destruct (node_step tonic_ends (pg_node p) l); simpl; split; intros []; eauto; done.
Qed.

(** *** A message sent is shown *)

(** The target of a task that got as far as its command. *)
Definition reached (s : Session) (target : string) (addresses : list string) (id : EndpointId) : Prop :=
  ∃ addr, target_addr target addresses = Ok (id, addr) ∧
    (∃ ch, into_future timed_out_message (sn_chat_connect s)
             (iroh_connect CHAT_SERVICE_NAME addr) = Some (Ok ch)) ∧
    ∃ ch, into_future timed_out_message (sn_node_connect s)
            (iroh_connect NODE_SERVICE_NAME addr) = Some (Ok ch).
Lemma reached_runs s target addresses id command :
  reached s target addresses id →
  connect_and_execute_command s target addresses command =
  run_command s (execute_command (endpoint_id_to_string id) (utc_timestamp (sn_now s)) command).
Proof.
  intros (addr & Ht & (ch & Hc) & (nd & Hn)). unfold connect_and_execute_command.
  by rewrite Ht, Hc; simpl; rewrite Hn.
Qed.

(** C24: a message that is sent is shown.  If the node [id] answers the call of a
    [send] command that reached it, the command succeeds and shows the message's
    id; and a later [history] command that reaches the node, with room for its
    messages, shows the line of that very message, with the text that was given,
    or crashes on a message whose timestamp no clock can show. *)
Theorem sent_message_shown (id : EndpointId) max ls1 ls2 w1 w2 t hash s1 s2 tg1 tg2 as1 as2 text limit r :
  let name := endpoint_id_to_string id in
  let req := send_request name text (utc_timestamp (sn_now s1)) in
  NoDup (random <$> subscription_hashes (ls1 ++ ls2)) →
  chat_run (chat_world_new name max) ls1 = Some w1 → chat_run w1 ls2 = Some w2 →
  ChatSend t req hash ∈ ls1 → (∃ m, cw_tasks w1 !! t = Some (TSend m (SendDone r))) →
  reached s1 tg1 as1 id → sn_send s1 req = Ok r →
  reached s2 tg2 as2 id → (Z.of_nat (length (messages (cw_state w2))) ≤ limit ≤ 2147483647)%Z →
  sn_history s2 (history_request name limit) =
    Ok (get_history (cw_state w2) (history_request name limit)) →
  connect_and_execute_command s1 tg1 as1 (Some (CmdSend text)) =
    Some (CmdOk ["Message sent successfully (ID: " +:+ new_v4 hash +:+ ")"]) ∧
  (connect_and_execute_command s2 tg2 as2 (Some (CmdHistory limit)) = Some CmdPanic ∧
     (∃ m, m ∈ messages (cw_state w2) ∧ format_timestamp (sn_now s2) (timestamp m) = None) ∨
   ∃ lines shown,
     connect_and_execute_command s2 tg2 as2 (Some (CmdHistory limit)) = Some (CmdOk lines) ∧
     format_timestamp (sn_now s2) (utc_timestamp (sn_now s1)) = Some shown ∧
     ("[" +:+ shown +:+ "] " +:+ name +:+ " -> " +:+ name +:+ ": " +:+ text) ∈ lines).
Proof.
  intros name req Hnd Hr1 Hr2 Hsend [m Ht] Hreach1 Hans1 Hreach2 Hlim Hans2.
  destruct (chat_run_moves_2 _ _ _ _ _ _ Hnd Hr1 Hr2) as (Hinv & _ & Hmv).
  assert (NoDup (random <$> subscription_hashes ls1)) as Hnd1.
  { unfold subscription_hashes in *. rewrite omap_app, fmap_app in Hnd.
    by apply NoDup_app in Hnd as (? & _). }
  destruct (run_send_task _ _ _ _ _ _ _ Hnd1 Hr1 Hsend) as [pc Em]. rewrite Ht in Em.
  injection Em as -> _.
  destruct (moves_send_rtc _ _ _ _ _ Hinv Hmv Ht) as (pc' & Ht2 & Hpc).
  rewrite (Hpc r eq_refl) in Ht2.
  destruct (answered_send_in_history name max (ls1 ++ ls2) w2 t (MkChatMessage (new_v4 hash) name
    name text (utc_timestamp (sn_now s1)) (message_type_i32 MessageText)) r Hnd)
    as (-> & _ & _ & Hin); [by rewrite chat_run_app, Hr1|exact Ht2|].
  specialize (Hin name limit (or_intror eq_refl) Hlim).
  rewrite (reached_runs s1 _ _ id), (reached_runs s2 _ _ id) by done.
  cbn [execute_command run_command]. unfold send_message, get_history_command. fold name. fold req. rewrite Hans1, Hans2.
  split; [done|]. cbn [called]. unfold history_request in *.
  destruct (show_history (sn_now s2) _) as [lines|] eqn:El; simpl.
  - destruct (show_history_line _ _ _ _ El Hin) as (line & Hline & Hinl).
    unfold history_line in Hline. apply bind_Some in Hline as (ts & Hts & [= <-]).
    right. exists (("Retrieved " +:+ pretty (length (history_messages
      (get_history (cw_state w2) (MkGetHistoryRequest name limit 0)))) +:+ " messages:") :: lines), ts.
    split_and!; [done|done|by right].
  - left. split; [done|]. apply show_history_None in El as (m & Hm & Hf). exists m.
    split; [by eapply get_history_messages|done].
Qed.
End Program.

(** ** Concrete inputs *)

Module ChatMainDemo.
Import ListChannel Demo UserDataDemo ChatDemo ChatNodeDemo.

Definition demo_parse (s : string) : Result unit string := if decide (s = "bad") then Err tt else Ok s.
Abbreviation demo_session := (Session (EndpointAddr := string) (ConnectError := unit) (Ch := unit)).
Abbreviation demo_execute := (connect_and_execute_command demo_parse (λ s, s) demo_parse (λ s, s)
  (λ _ addr, addr) (λ _, "timeout") true).
Abbreviation demo_main := (main_start (SecretKey := string) (EndpointId := string) (PcError := unit)
  (ConnectError := unit) demo_parse (λ s, s) (λ _, Ok tt) (λ _, Ok demo_node)).
Abbreviation demo_run := (program_run (Ch := unit) demo_parse (λ s, s) demo_parse (λ s, s)
  (λ _ addr, addr) (λ _, "timeout") true demo_tonic).

Definition demo_connect : ConnectEnv string unit unit :=
  @MkConnectEnv string unit unit (λ _ _, Ok tt) (λ _ _, Ok tt) (Ok tt) (Ok tt) (Ok tt) (Some 10%Z).
(** A peer in the state [w], which answers [sends] so. *)
Definition demo_peer (now : Z) (w : ChatWorld) (sends : SendMessageRequest → SendMessageResponse)
  : demo_session :=
  MkSession demo_connect demo_connect (now * 1000000000) (λ req, Ok (sends req)) (Ok [])
    (λ req, Ok (get_history (cw_state w) req)) (Ok tt) [] [] [] (λ req, Ok (ping 0 req))
    (Ok (get_node_info (node_service_new (cw_state w) 0) "1" 0)) (Ok []) (Ok tt) (λ _, false) (λ _, JoinedStatus) 1.

(** A node told to dial a bad address, which stops after one request. *)
Definition demo_args : Args :=
  MkArgs None ["https://relay"] 0 false false (Some 1%Z) (Some demo_node) ["bad"] (Some CmdChat).
Definition failing : ProgramLabel := PgClient (demo_peer 0 demo_world (λ _, MkSendMessageResponse true "" "")).
Definition demo_program : Program :=
  match demo_main demo_args with
  | Some (Ok p) => p | _ => MkProgram demo_start ClientNone (Some 1%Z)
  end.
Definition demo_program_labels : list ProgramLabel := failing :: (PgNode <$> stop_labels).
Definition demo_program_end : Program :=
  default demo_program (demo_run demo_args demo_program demo_program_labels).

(** The command fails and the node goes on, until it is asked to stop. *)
Lemma program_exits_witness :
  pg_client demo_program_end = ClientEnded (CmdErr (TargetInvalid tt)) ∧
  is_Some (pg_exit demo_program_end) ∧
  asked_to_stop (Some 1%Z) stop_labels (pg_node demo_program_end).
Proof.
  destruct (program_exits (EndpointId := string) (PcError := unit) (ConnectError := unit) (Ch := unit)
    demo_parse demo_parse (λ s, s) demo_parse (λ s, s) (λ _ addr, addr) (λ _, Ok tt)
    (λ _, Ok demo_node) (λ _, "timeout") true demo_tonic demo_args (Ok demo_program))
    as (_ & _ & _ & Hends); [evaluate|].
  destruct (Hends demo_program demo_program_labels demo_program_end) as (_ & Hex & Hstop & _).
  - reflexivity.
  - evaluate.
  - evaluate.
  - vm_compute. discriminate.
  - assert (cn_main (pg_node demo_program_end) = MainExit) as Hm by evaluate.
    split_and!; [evaluate| |].
    + exact (proj2 Hex (or_intror Hm)).
    + apply (Hstop Hm). unfold demo_program_labels. clear.
      intros [Hin|(l & [= <-] & Hin)%list_elem_of_fmap]%elem_of_cons; [discriminate Hin|].
      revert Hin. set_solver.
Defined.

(** A message is sent to [demo_node], and someone asks for its history. *)
Definition demo_text_labels : list ChatLabel :=
  ChatSend 1 (send_request demo_node "hi" 1700000000) 8 :: replicate 4 (ChatStep 1 [] 9 60).
Definition demo_text_end : ChatWorld := default demo_world (chat_run demo_world demo_text_labels).

Definition demo_caller (now : Z) : demo_session :=
  demo_peer now demo_text_end (λ _, MkSendMessageResponse true "" (new_v4 8)).

(** At the very second it was sent, a message is shown as from the future, with
    its own timestamp as the distance. *)
Example future_demo :
  demo_execute (demo_caller 1700000000) demo_node [] (Some (CmdHistory 10)) =
  Some (CmdOk ["Retrieved 1 messages:"; "[future+1700000000s] node -> node: hi"]).
Proof. vm_compute. reflexivity. Qed.

Lemma sent_message_shown_witness :
  ∃ lines, demo_execute (demo_caller 1700000060) demo_node [] (Some (CmdHistory 10)) =
    Some (CmdOk lines) ∧ "[60s ago] node -> node: hi" ∈ lines.
Proof.
  pose proof (sent_message_shown demo_parse (λ s, s) demo_parse (λ s, s) (λ _ addr, addr)
    (λ _, "timeout") true demo_node (Some 2%Z) demo_text_labels [] demo_text_end demo_text_end 1 8
    (demo_caller 1700000000) (demo_caller 1700000060)
    demo_node demo_node [] [] "hi" 10 (MkSendMessageResponse true "" (new_v4 8))) as Hshown.
  destruct Hshown as (_ & [[Hp _]|(lines & shown & Hl & Hs & Hin)]).
  - evaluate.
  - evaluate.
  - evaluate.
  - apply elem_of_cons. left. evaluate.
  - eexists. evaluate.
  - exists demo_node. split_and!; [evaluate|exists tt; evaluate|exists tt; evaluate].
  - evaluate.
  - exists demo_node. split_and!; [evaluate|exists tt; evaluate|exists tt; evaluate].
  - vm_compute. split; discriminate.
  - evaluate.
  - vm_compute in Hp. discriminate Hp.
  - exists lines. split; [exact Hl|]. vm_compute in Hs. injection Hs as <-. exact Hin.
Defined.
End ChatMainDemo.
