(* ===== verification/EchoMain.v ===== *)
(** * The echo program

    Models [main] of [src/examples/echo/src/main.rs]: a server that publishes the
    echo service in the DHT and a client that discovers it there and calls it,
    in one process.  The steps are [Server]'s transport, [DhtPublish]'s
    publisher, [Registry]'s locator, the handler of [Examples], called as in
    [Rpc], and the guard's shutdown of [Lifecycle]; what the network does is a
    parameter. *)
From S2P Require Import Prelude Ords Iroh Tokio PoolActor ServiceRecord DhtShards DhtPublish Alpn.
From S2P Require Import UserData Errors Discovery Engine Locator Registry Find Server.
From S2P Require Import Rpc Lifecycle ChatPb ChatGrpc Examples.
Local Open Scope string_scope.

Section EchoMain.
Context `{!IrohKeys, !IrohKeysLaws, !Sha256, !Mainline, !MainlineLaws} {PcError : Type}.
Context `{!Postcard PcError ServiceAdEnvelope, !Postcard PcError ServiceBucket}.
Context `{!PostcardLaws PcError ServiceBucket, !Mpsc, !MpscLaws} {ConnectError Ch AnyError : Type}.
Context `{!Postcard PcError (list bytes), !PostcardLaws PcError (list bytes)}.
Context `{!Base64, !Base64Laws, !UserDataOps, !UserDataLaws}.
Abbreviation Err' := (Error ConnectError).

Context (endpoint_id_to_string : EndpointId → string).

(** ** The two halves *)

(** The publisher, and the transport built with it. *)
Definition echo_publisher_config : DhtPublisherConfig :=
  {| cfg_tags := []; cfg_publish_interval := 5 |}.
Definition echo_publisher (sk : SecretKey) : DhtPublisher :=
  create_publisher with_dht sk echo_publisher_config.
Definition echo_server_calls (sk : SecretKey) : list BuilderCall :=
  [CallPublisher (dp_services (echo_publisher sk)); CallAddRpc ECHO_SERVICE_NAME].

(** The client's backend, registry and locator. *)
Definition echo_client_dht : DhtBackend := db_set_poll_interval 5 with_dht.
Definition echo_registry (client : EndpointId) (dht_feeds : bytes → list (PeerFeedSpec Err'))
  : ServiceRegistry Err' :=
  let registry := registry_new client in
  MkServiceRegistry (sr_local_id registry) (backends registry ++ [dht_feeds]) (sr_pool_options registry).
Definition echo_builder (r : ServiceRegistry Err') : LocatorBuilder Err' :=
  builder_timeout 60000 (find_service r ECHO_SERVICE_NAME).

(** ** [main] *)

Definition echo_messages : list string :=
  ["Hello, World!"; "This is a test message"; "Echo demo working!"].
Definition echo_line (resp : EchoResponse) : string :=
  "Echo response: '" +:+ echo_message resp +:+ "' from peer: " +:+ echo_peer_id resp.

Inductive EchoError :=
  | EchoSetup (e : AnyError)
  | EchoSpawn (e : MetadataError PcError)
  | EchoFind (e : Err')
  | EchoCall (e : Status).

(** The calls, up to the first that fails: the lines shown, and the result. *)
Fixpoint echo_loop (call : EchoRequest → Result Status EchoResponse) (messages : list string)
  : list string * Result EchoError unit :=
  match messages with
  | [] => ([], Ok tt)
  | message :: messages =>
      match call (MkEchoRequest message) with
      | Err e => ([], Err (EchoCall e))
      | Ok resp =>
          let '(lines, r) := echo_loop call messages in (echo_line resp :: lines, r)
      end
  end.

(** How the endpoints, the DHT clients and the locator's [first] turn out; how a
    request sent on a channel comes to a handler of the server at its other end,
    or fails on the way; and what the transport's tasks do while [main] works and
    once it shuts the transport down. *)
Record EchoEnv := MkEchoEnv {
  ee_server : Result AnyError SecretKey;
  ee_server_dht : Result AnyError unit;
  ee_client : Result AnyError SecretKey;
  ee_client_dht : Result AnyError unit;
  ee_first : Result Err' Ch;
  ee_handled : Ch → EchoRequest → Result Status (Handled EndpointId);
  ee_meanwhile : list LifeLabel;
  ee_shutdown : list LifeLabel;
}.

(** [client.echo]: the handler's answer, with the context of the request's
    stream. *)
Definition echo_call (env : EchoEnv) (channel : Ch) (req : EchoRequest) : Result Status EchoResponse :=
  h ← ee_handled env channel req;
  Ok (echo (Some (endpoint_id_to_string (ctx_node_id (hd_stream h)))) req).

(** How [main] ends: in a panic of [spawn], never, when [shutdown] does not
    return, or with the lines it has shown and its result. *)
Inductive EchoEnd :=
  | EchoPanics
  | EchoWaits (lines : list string)
  | EchoReturns (lines : list string) (r : Result EchoError unit).

(** [rpc_guard.shutdown().await?]: whether it returns; it never fails. *)
Definition guard_shutdown (w : Life) (ls : list LifeLabel) : bool :=
  match (w ← life_step w LifeShutdown; life_run w ls) with
  | Some w => match lf_guard w with GuardDone => true | _ => false end
  | None => false
  end.

(** From the calls on. *)
Definition echo_calls (env : EchoEnv) (t : Transport EndpointId) (channel : Ch) : EchoEnd :=
  match echo_loop (echo_call env channel) echo_messages with
  | (lines, Err e) => EchoReturns lines (Err e)
  | (lines, Ok tt) =>
      match life_run (life_new t) (ee_meanwhile env) with
      | Some w =>
          if guard_shutdown w (ee_shutdown env) then EchoReturns lines (Ok tt) else EchoWaits lines
      | None => EchoWaits lines
      end
  end.

Definition echo_main (env : EchoEnv) : EchoEnd :=
  match (sk ← ee_server env; _ ← ee_server_dht env; Ok sk) with
  | Err e => EchoReturns [] (Err (EchoSetup e))
  | Ok sk =>
      match spawn (EndpointId := EndpointId) (PcError := PcError) (build (echo_server_calls sk)) with
      | None => EchoPanics
      | Some (Err e) => EchoReturns [] (Err (EchoSpawn e))
      | Some (Ok t) =>
          match (_ ← ee_client env; ee_client_dht env) with
          | Err e => EchoReturns [] (Err (EchoSetup e))
          | Ok _ =>
              match ee_first env with
              | Err e => EchoReturns [] (Err (EchoFind e))
              | Ok channel => echo_calls env t channel
              end
          end
      end
  end.

(** ** Facts *)

Lemma echo_loop_ok call peer messages :
  (∀ req, call req = Ok (echo peer req)) →
  echo_loop call messages = ((λ m, echo_line (echo peer (MkEchoRequest m))) <$> messages, Ok tt).
Proof. intros Hcall. induction messages as [|m ms IH]; csimpl; [done|]. by rewrite Hcall, IH. Qed.

(** The service that is published is the one that is registered. *)
Lemma echo_published sk t services :
  spawn (EndpointId := EndpointId) (PcError := PcError) (build (echo_server_calls sk)) = Some (Ok t) →
  tr_published t = Some services → services = [service_to_alpn ECHO_SERVICE_NAME].
Proof.
  unfold spawn. destruct (incoming_new _); [|done]. simpl.
  destruct (encode_alpns _); simpl; [|done]. intros [= <-]. simpl. by intros [= <-].
Qed.

Lemma guard_shutdown_returns w ls w' :
  life_inv w → lf_guard w = GuardRunning → life_run (set_guard GuardAwait (signal w)) ls = Some w' →
  (∀ l, life_step w' l = None) → guard_shutdown w ls = true.
Proof.
  intros Hinv Hg Hrun Hq. unfold guard_shutdown. simpl. rewrite Hg. simpl. rewrite Hrun.
  assert (Hst : life_step w LifeShutdown = Some (set_guard GuardAwait (signal w)))
    by (simpl; by rewrite Hg).
  rewrite (quiet_done w'); [done| | |done].
  - eapply life_run_inv; [by eapply life_step_inv|exact Hrun].
  - eapply shutting_down_run; [|exact Hrun]. by left.
Qed.

Context (timed_out_message : Z → string)
        (pool_channel : EndpointId → option (Result Err' Ch))
        (route : list string → string → option string).

(** C8: the echo program works.  The server's publisher has published what its
    transport serves to one of its shards, the DHT serves it to the client's
    feed within a minute, and the locator has dealt with the peers discovered so
    far, whatever else was found; the server can be reached; a request on a
    channel comes to the handler of the server at the other end, whoever that is,
    which runs the same service on a transport of this library, over a
    connection that the client's endpoint dialled; and when the transport is shut
    down, its tasks run until none can go on.  Then [main] shows the three
    messages as they were sent, each with the client's own id, and returns
    [Ok]. *)
Theorem echo_program_completes overflow_checks published envs sk csk t services shard res puts item
    items now completion feeds ticks script st ls st' env ch w1 w2 :
  let alpn := service_to_alpn ECHO_SERVICE_NAME in
  let builder := echo_builder (echo_registry (public csk) feeds) in
  let engine := discover (lb_registry builder) (lb_service builder) in
  (* the server publishes *)
  spawn (EndpointId := EndpointId) (PcError := PcError) (build (echo_server_calls sk)) = Some (Ok t) →
  tr_published t = Some services → (alpn, shard) ∈ publish_targets services sk →
  (0 ≤ published ≤ now)%Z → (now < published + 60)%Z → (now + DHT_AD_TTL_SECS ≤ u64_max)%Z →
  publish_shard (PcError := PcError) overflow_checks (Some published) envs sk alpn shard
    (cfg_tags (dp_config (echo_publisher sk))) = (res, puts) →
  (∀ k b, b ∈ (read_shard_state (PcError := PcError) (envs k) alpn (published / 60) shard published).1 →
     node_id b = as_bytes (public sk) → (published_at b < published)%Z) →
  item ∈ puts → item ∈ items (published / 60)%Z shard →
  (∀ offset, completion offset ≡ₚ range 0 DHT_SHARD_COUNT) →
  (* the client looks for it *)
  public sk ≠ public csk →
  dht_backend_feeds echo_client_dht alpn (burst_over (PcError := PcError) items alpn now completion)
    ticks = Some (feeds alpn) →
  script_items script ≡ₚ (f ← se_inner engine; tagged_items f) →
  spawn_with_pool (engine_outputs engine script) (locator_cfg builder) = Some st →
  locator_run timed_out_message pool_channel (locator_cfg builder) st ls = Some st' →
  LoDrop ∉ ls → LoTimeout ∉ ls → lo_peers st' = [] → inflight st' = [] →
  (* how [main] fares *)
  ee_server env = Ok sk → ee_server_dht env = Ok tt →
  ee_client env = Ok csk → ee_client_dht env = Ok tt → ee_first env = first (delivered st') →
  pool_channel (public sk) = Some (Ok ch) →
  (∀ peer ch req, pool_channel peer = Some (Ok ch) → ∃ calls t' ls' w h,
     spawn (EndpointId := EndpointId) (PcError := PcError) (build calls) = Some (Ok t') ∧
     rpc_run route t' (rpc_new t') ls' = Some w ∧ h ∈ rw_handled w ∧ ee_handled env ch req = Ok h ∧
     ∀ conn, RpDial (ctx_connection (hd_stream h)) conn ∈ ls' → remote_id conn = public csk) →
  life_run (life_new t) (ee_meanwhile env) = Some w1 → lf_guard w1 = GuardRunning →
  life_run (set_guard GuardAwait (signal w1)) (ee_shutdown env) = Some w2 →
  (∀ l, life_step w2 l = None) →
  echo_main env =
    EchoReturns
      ((λ m, "Echo response: '" +:+ m +:+ "' from peer: " +:+ endpoint_id_to_string (public csk))
         <$> echo_messages) (Ok tt).
Proof.
  intros alpn builder engine Hspawn Htr Htarget Hp Hnow Hmax Epub Hfresh Hput Hitem Hcompl Hne Hdb
    Hscript Hst Hrun Hnd Hnt Hpeers Hinf Hs1 Hs2 Hc1 Hc2 Hfirst Hch Hcall Hw1 Hg Hw2 Hq.
  rewrite (echo_published _ _ _ Hspawn Htr) in Htarget.
  assert (shard ∈ replica_shards (as_bytes (public sk)) alpn) as Hshard.
  { unfold publish_targets in Htarget.
    apply list_elem_of_bind in Htarget as (a & (x & [= -> ->] & Hx)%list_elem_of_fmap & Ha). done. }
  destruct (find_delivers timed_out_message pool_channel overflow_checks published envs sk
    ECHO_SERVICE_NAME shard (cfg_tags (dp_config (echo_publisher sk))) res puts item items now completion (echo_registry (public csk) feeds)
    feeds echo_client_dht ticks (locator_cfg builder) script st ls st') as [_ Hf];
    try done; [by left|].
  destruct (Hf ch Hch) as (ch' & peer & Hf' & _ & Hpeer).
  assert (Hecho : ∀ req,
    echo_call env ch' req = Ok (echo (Some (endpoint_id_to_string (public csk))) req)).
  { intros req. destruct (Hcall _ ch' req Hpeer) as (calls & t' & ls' & w & h & Hsp & Hw & Hh & E & Hd).
    destruct (handled_dialled route _ _ _ _ _ Hsp Hw Hh) as (conn & Hdial & Hid).
    unfold echo_call. rewrite E. cbn [mbind Result_bind]. by rewrite Hid, (Hd _ Hdial). }
  unfold echo_main. rewrite Hs1, Hc1. cbn [mbind Result_bind]. rewrite Hs2, Hc2.
  cbn [mbind Result_bind]. rewrite Hspawn, Hfirst, Hf'. unfold echo_calls.
  rewrite (echo_loop_ok _ _ echo_messages Hecho), Hw1.
  rewrite (guard_shutdown_returns w1 _ w2); [done| |done..].
  eapply life_run_inv; [apply (life_inv_new t)|exact Hw1].
Qed.
End EchoMain.

(** ** Concrete inputs *)

Module EchoMainDemo.
Import Demo RecordDemo PublishDemo ListChannel UserDataDemo FindDemo.

Definition demo_client : SecretKey := demo_sk x01.
Definition demo_echo_feeds (alpn : bytes) : list (PeerFeedSpec (Error unit)) :=
  default [] (dht_backend_feeds echo_client_dht alpn
    (burst_over (PcError := unit) (λ _ _, [demo_item]) alpn 1030 demo_completion) []).
Definition demo_builder : LocatorBuilder (Error unit) :=
  echo_builder (echo_registry (public demo_client) demo_echo_feeds).
Definition demo_echo_engine : SwarmEngine (Error unit) :=
  discover (lb_registry demo_builder) (lb_service demo_builder).
Definition demo_echo_script : list (Poll (option (Result (Error unit) Peer))) :=
  (λ item, Ready (Some item)) <$> (f ← se_inner demo_echo_engine; tagged_items f).
Definition demo_echo_start : LocatorState unit nat :=
  default (MkLocatorState [] [] false (LChan [] 0 true) [] true)
    (spawn_with_pool (engine_outputs demo_echo_engine demo_echo_script) (locator_cfg demo_builder)).
Definition demo_echo_end : LocatorState unit nat :=
  default demo_echo_start (locator_run demo_message demo_channel (locator_cfg demo_builder)
    demo_echo_start [LoPeer; LoAttempt 0; LoRecv]).
Definition demo_echo_transport : option (Transport EndpointId) :=
  match spawn (EndpointId := EndpointId) (PcError := unit) (build (echo_server_calls demo_node)) with
  | Some (Ok t) => Some t | _ => None
  end.

(** The client dials the server, opens a stream and sends a request, which the
    server's handler gets. *)
Definition demo_echo_conn : Connection EndpointId := MkConnection (public demo_client) demo_alpn.
Definition demo_handling : list (RpcLabel EndpointId) :=
  [RpDial 0 demo_echo_conn; RpServer (SvStream 0 0); RpServer SvServe;
   RpRequest (Rpc.MkRequest 0 (0, 0) "/echo.v1.EchoService/Echo"); RpHandle 0].
Definition demo_route (services : list string) (path : string) : option string := head services.
Definition demo_echo_handled : Handled EndpointId :=
  MkHandled 0 (forwarded 0 0 demo_echo_conn) (Some ECHO_SERVICE_NAME).
(** The publisher has made its first round when the transport is shut down;
    tonic's server and the publisher end, then the guard goes on. *)
Definition demo_echo_env : EchoEnv (ConnectError := unit) (Ch := nat) (AnyError := unit) :=
  MkEchoEnv (Ok demo_node) (Ok tt) (Ok demo_client) (Ok tt) (first (delivered demo_echo_end))
    (λ _ _, Ok demo_echo_handled) [LifePublished; LifeTick]
    [LifeTonicEnd; LifeSignalled; LifeGuard; LifeGuard].

Definition demo_quiet : Life := MkLife GuardDone true (Some PubEnd) (Some true) true 1.

Lemma echo_program_completes_witness :
  echo_main (PcError := unit) (λ _, "client") demo_echo_env =
    EchoReturns ["Echo response: 'Hello, World!' from peer: client";
                 "Echo response: 'This is a test message' from peer: client";
                 "Echo response: 'Echo demo working!' from peer: client"] (Ok tt).
Proof.
  destruct demo_echo_transport as [t|] eqn:Et; [|vm_compute in Et; discriminate Et].
  assert (spawn (EndpointId := EndpointId) (PcError := unit) (build (echo_server_calls demo_node)) = Some (Ok t))
    as Hspawn.
  { unfold demo_echo_transport in Et. destruct (spawn _) as [[|]|]; try discriminate Et.
    by injection Et as ->. }
  refine (echo_program_completes (PcError := unit) (λ _, "client") demo_message demo_channel
    demo_route true 1000
    (λ _, empty_dht) demo_node demo_client t [demo_alpn] demo_shard demo_publish.1 demo_publish.2
    demo_item (λ _ _, [demo_item]) 1030 demo_completion demo_echo_feeds [] demo_echo_script
    demo_echo_start [LoPeer; LoAttempt 0; LoRecv] demo_echo_end demo_echo_env 5
    (MkLife GuardRunning false (Some PubSelect) (Some false) false 1) demo_quiet Hspawn
    _ _ _ _ _ _ _ _ _ _ _ _ _ _ _ _ _ _ _ _ _ _ _ _ _ _ _ _ _ _).
  - vm_compute in Et. injection Et as <-. reflexivity.
  - unfold publish_targets. apply list_elem_of_lookup_2 with 0. vm_eq.
  - lia.
  - lia.
  - unfold u64_max, DHT_AD_TTL_SECS. lia.
  - apply surjective_pairing.
  - intros k b Hb. inversion Hb.
  - apply list_elem_of_lookup_2 with 0. vm_eq.
  - apply list_elem_of_here.
  - done.
  - vm_compute. discriminate.
  - unfold demo_echo_feeds. reflexivity.
  - unfold demo_echo_script. rewrite script_items_ready. reflexivity.
  - vm_eq.
  - vm_eq.
  - set_solver.
  - set_solver.
  - vm_eq.
  - vm_eq.
  - reflexivity.
  - reflexivity.
  - reflexivity.
  - reflexivity.
  - reflexivity.
  - reflexivity.
  - intros peer ch req _.
    exists (echo_server_calls demo_node), t, demo_handling.
    exists (default (rpc_new t) (rpc_run demo_route t (rpc_new t) demo_handling)), demo_echo_handled.
    split; [exact Hspawn|]. vm_compute in Et. injection Et as <-. split_and!.
    + vm_eq.
    + apply list_elem_of_lookup_2 with 0. vm_eq.
    + reflexivity.
    + intros conn Hd. repeat (apply elem_of_cons in Hd as [Hd|Hd]; [try discriminate Hd|]).
      * by injection Hd as ->.
      * by apply elem_of_nil in Hd.
  - vm_compute in Et. injection Et as <-. reflexivity.
  - reflexivity.
  - reflexivity.
  - intros []; reflexivity.
Defined.
End EchoMainDemo.
